(* ===== verification/_CoqProject ===== *)
-Q . S2P
Prelude.v
GoPath.v
PathFacts.v
GoMatch.v
Safepath.v
PtyHost.v
PtyProcess.v
RelPath.v
ContentCache.v
Proto.v
FsTree.v
Session.v
SessionPending.v
Auth.v
Manager.v
PtyService.v
PtyRegistry.v
PtyProtocol.v
PtyStreams.v
PtyClient.v
PtyClientProtocol.v
PtyClientFlow.v
PtyTerminal.v
Resize.v
Console.v
PtyAgent.v
OsFs.v
Sensitive.v
PathResolution.v
Handle.v
LogX.v
Config.v
RateLimit.v
AuditStore.v
Transport.v
PtyAttach.v
Recorder.v
SelfWrite.v
Locker.v
Scan.v
Watch.v
Daemon.v
DaemonRun.v
DaemonStream.v
View.v
Inode.v
Mount.v
Reach.v
Server.v
Startup.v
StartupRun.v
StartupLive.v
StartupEvents.v
Supervise.v
Unified.v
