(* ===== verification/Prelude.v ===== *)
(** * Verification of Rclaude

    Rclaude lets an agent program run on a server while it works on the files of
    a developer's machine.  On the machine, [app/rclaude] starts two components:
    the daemon, which serves the files of the workspace, and a terminal, which
    is attached to the agent.  On the server, [app/server] keeps a session for
    each daemon, shows its workspace through FUSE, and runs the agent in it on a
    pseudo terminal.  Two gRPC streams join the sides: [RemoteFS.Connect] (files)
    and [RemotePTY.Attach] (terminals).

    The development translates the Go code into definitions that can be run, and
    proves what makes each part correct, and the parts together.

    ** The parts of the program and the files that model them

    - Shared ground.  Prelude: results, integers, bytes, lists, the automation.
      GoPath, GoMatch, PathFacts: the parts of Go's [strings], [path],
      [path/filepath] and [unicode/utf8] the code uses.  Proto: the messages of
      [api/proto/remotefs/v1/remotefs.proto].  OsFs: the system calls of the
      daemon, the state monad of its handlers, and a small Hoare logic.
    - Names of files.  Safepath ([pkg/safepath]), RelPath; Sensitive
      ([pkg/syncer/sensitive_filter.go]) and PathResolution
      ([path_resolution.go]), which decide what the server may not see.
    - The daemon ([pkg/syncer]).  Handle: the requests ([handle.go],
      [handle_write.go], [audit.go]); SelfWrite ([selfwrite.go]), Locker
      ([locker.go]), Scan ([scan.go], [workspace.go]), Watch ([watch.go]);
      Daemon, DaemonRun and DaemonStream ([daemon.go]): the loop that reconnects,
      what is prepared for it, and the five goroutines of one session.
    - Auditing ([pkg/audit]).  Recorder ([recorder.go]): a bounded queue and its
      writer; AuditStore ([sqlstore.go]): the dialects and calls of database/sql.
    - The sessions of the server.  ContentCache ([pkg/contentcache]), FsTree
      ([pkg/fstree]); Session and SessionPending ([pkg/session/session.go]): the
      state of a session, and its requests in flight; Manager ([manager.go],
      [service.go]); Auth ([pkg/auth]).
    - The mounted file system ([pkg/fusefs]).  View ([view.go], [prefetch.go]),
      Inode ([inode.go]), Mount ([mount_linux.go]: the nodes; mounting itself is
      in Server).  Reach joins it with the requests of the daemon.
    - Terminals on the server.  PtyHost ([pkg/ptyhost]): policy, command, exit
      status; PtyProcess ([host_unix.go]): the child and the goroutines around
      it; PtyService ([pkg/ptyservice/service.go]) with PtyRegistry
      ([app/server/pty_runtime.go]); PtyProtocol and PtyStreams: its theorems.
    - Terminals on the machine.  PtyClient ([pkg/ptyclient]) with
      PtyClientProtocol and PtyClientFlow, and Resize, the watchers of the
      terminal's size; PtyAttach ([pkg/ptyattach]), and Console, its terminal on
      Windows; PtyTerminal joins service and client, PtyAgent the process too.
    - Starting.  Config ([pkg/config]), LogX ([pkg/logx]), RateLimit
      ([pkg/ratelimit]), Transport ([pkg/transport]); Startup, StartupRun,
      StartupLive, StartupEvents ([pkg/startup]); Server ([app/server]), and
      Supervise and Unified ([app/rclaude]): the two programs.

    A definition has the name of the function it translates; a method [T.f] is
    [f], and [f] of two types in one file is [T_f].  The doc comment of each file
    says what is left out of it.

    ** How state and effects are modelled

    - Code that runs under a mutex, or in one goroutine, is a function on a
      record: caches, trees, sessions, the manager, the configuration.
    - Code that asks the operating system, gRPC or a database is a computation in
      a state monad whose environment answers each call as it likes, from the
      whole history of calls: Handle, View, PtyService, PtyAttach, AuditStore,
      Server.  Theorems hold for every environment.
    - Goroutines are machines with one step for each operation on a channel, each
      section under a mutex, each call of the environment: SessionPending,
      Locker, Recorder, DaemonStream, PtyProcess, PtyService, PtyClient,
      RateLimit, StartupRun, and the prefetches of Mount.  A run is
      a list of labels that says who steps, so every interleaving is a run; a
      channel is a list with its capacity and whether it is closed, and closing
      or sending on a closed one is a panic that the theorems exclude.
    - Errors are inductive types with the sentinels of the code, values of
      [result]; error texts are kept where the code inspects or sends them.
    - Strings are [String.string] (bytes, as in Go), bytes [list byte], integers
      [Z], with their bounds where the code depends on them.

    ** What the theorems show

    - The paths of requests stay, as they are spelled, in the workspace, and
      sensitive files stay hidden (Handle_confined, Handle_refuses_sensitive);
      links are followed by their rules to judge what is sensitive
      (blocksSensitivePath_spec), but a link that leads out of the workspace is not
      refused; and so for whatever an agent does in the mounted file system, with
      the prefetches that listing a directory starts (agent_reach).  Requests are answered
      and audited (Handle_answers, audit_trail, recorder_protocol); the locks they
      take exclude each other and do not deadlock (locker_excludes,
      locker_progress).
    - The daemon: one session, which sends answers and changes in order without
      loss, does not report what it wrote itself, and ends completely
      (daemon_single_session, stream_sends, stream_own_writes, stream_ends).
    - The server's picture of the files: the tree is a map of files
      (tree_refines_files), the cache an LRU list under a byte budget
      (cache_refines_lru, cache_read_back), both coherent under every change
      (session_change_coherent); requests in flight never touch a closed channel
      (pending_safe); a change shows only after the daemon confirmed it
      (view_change), and what an operation asks, itself or by the prefetches it
      starts, goes to the session of its own user (node_isolation).
    - Terminals: the service follows the protocol of a session, runs the command
      that was named, and holds the registry exactly while it runs, whatever the
      other sessions and daemons do (session_protocol, session_command,
      session_registry); the process gives out
      all its output and its exit status, and comes to an end (host_output,
      host_ends); the client follows its side and loses no input or output
      (client_protocol, client_flow, client_result); joined, what reaches
      the program is what was typed, what it prints is printed, and its exit status
      comes back when it is not zero (agent_end_to_end, from terminal_end_to_end), up
      to the exit code of the process (remote_exit_code), with the terminal restored on every path
      (attach_undone).
    - Starting and stopping: configurations that are loaded are well-formed
      (loaded_valid), connections as secure as they say (Dial_secured); the
      coordinator accepts exactly the acyclic specifications and always answers
      (New_decides), its goroutines are safe and never stuck (startup_safe,
      startup_progress), each component has one status line (supervise_outcome),
      and the server gives back what it opened, in the reverse order, and returns
      the error it met (server_closes).
    - Where the code does not do what it means to: the end of client_result (an
      exit status that is lost), bridge_loses_input, resize_newest_lost,
      server_leaves_mount, stale_node_acts_on_new_project, the empty environment of
      session_command, which lets a program inherit the server's, the requests that
      stream_own_writes leaves out, whose paths are not in normal form, and the
      branch of daemon_single_session after which the daemon does not reconnect.

    ** Fuel and bounds

    Recursion that is not structural has a bound the code has too, or one that is
    proved enough: symbolic links are followed 40 times, as in the code;
    [parents_from], [ensureAncestors] and [deleteLocked] run at most once for each
    element of the path and have that many steps; the search for cycles visits no
    more than the number of components deep, plus one (New_decides shows that it
    never runs out); patterns and UTF-8 decoding have the length of the string;
    trimming too.  The loops of goroutines have no fuel: they are step relations.

    ** What is assumed

    What is not under src/ is a class or a variable, of which nothing is assumed
    unless a theorem says so: the file system ([FileSystem], and [Quiet] where
    nobody else changes it), fsnotify ([Watcher]), doublestar, viper, database/sql,
    gRPC and crypto/tls ([Network], the streams), the terminal ([Device], [Failing]), the
    order of ranging over a map ([MapRange]), upper and lower case outside of
    ASCII ([Unicode]), the backoff policy, the operating system of the entries
    ([System], [Environment]).  Four facts are built into the machines: EventBus
    calls its subscribers where [Publish] is called; a gRPC stream delivers in
    order and without loss until it fails (PtyTerminal); closing the write end of
    the terminal's pipe unblocks its reader; and of the other sessions of the
    terminal service (PtyService, [other_step]) each is one of this service: it
    releases only what it has registered, and once.  That nothing else in the program
    touches the entries of the sessions is proved of the manager (PtyRegistry).  Where a theorem assumes that
    the answers of the daemons leave the sessions of other users alone
    ([Mount.discreet], in the last part of node_isolation), it says so.

    ** What is not modelled

    Generated code and the test harnesses ([internal/inmemtest],
    [internal/testutil]); what log lines say, and their encoding; the parsing of
    the command lines; what the libraries do that start a process on a terminal
    and mount a FUSE file system.  The precision of the
    rate limiters is that of doubles, as in the code; of their long-run rate
    nothing is proved.  The work on one request and on one file event is one step
    of DaemonStream: how the two interleave inside is not modelled; a handler
    remembers its paths before it changes anything (Handle_changes_locked), so an
    event that comes between is like one that comes after.  What the
    [bufio.Reader] of the terminal client has read ahead is not counted: nothing for
    frames of 16 bytes and more, up to 16 bytes below.

    ** Reading on

    The files are in dependency order in _CoqProject.  Start with a component's
    operations, then its section of properties; machines have their invariant as
    a record [inv] whose fields are the facts the properties use.  *)
From Stdlib Require Export Ascii Init.Byte.
From Stdlib Require Strings.Byte.
From stdpp Require Export base tactics list gmap sets strings numbers sorting.
From stdpp Require Import options.

(** ** The scope and the notations of the development *)
Declare Scope go_scope.
Delimit Scope go_scope with go.
#[global] Open Scope go_scope.

(** The rewriting and resolution databases the components fill. *)
Create HintDb go discriminated.
Create Rewrite HintDb go.

(** ** Go's [(T, error)] results *)

(** A function that returns [(T, error)] returns [Ok v] where the code returns
    [v, nil] and [Err e] where it returns a non-nil error.  *)
Inductive result (E A : Type) : Type :=
  | Ok (a : A)
  | Err (e : E).
Arguments Ok {E A} a.
Arguments Err {E A} e.

#[global] Instance result_ret {E} : MRet (result E) := λ A a, Ok a.
#[global] Instance result_bind {E} : MBind (result E) := λ A B f m,
  match m with Ok a => f a | Err e => Err e end.
#[global] Instance result_fmap {E} : FMap (result E) := λ A B f m,
  match m with Ok a => Ok (f a) | Err e => Err e end.

#[global] Instance result_eq_dec {E A} `{EqDecision E, EqDecision A} :
  EqDecision (result E A).
Proof. solve_decision. Defined.

Definition map_err {E F A} (f : E → F) (m : result E A) : result F A :=
  match m with Ok a => Ok a | Err e => Err (f e) end.

Definition is_ok {E A} (m : result E A) : bool :=
  match m with Ok _ => true | Err _ => false end.

Lemma result_bind_Ok {E A B} (m : result E A) (f : A → result E B) b :
  m ≫= f = Ok b ↔ ∃ a, m = Ok a ∧ f a = Ok b.
Proof. destruct m; simpl; naive_solver. Qed.

Lemma result_bind_Err {E A B} (m : result E A) (f : A → result E B) e :
  m ≫= f = Err e ↔ m = Err e ∨ ∃ a, m = Ok a ∧ f a = Err e.
Proof. destruct m; simpl; naive_solver. Qed.

Lemma map_err_Ok {E F A} (f : E → F) (m : result E A) a :
  map_err f m = Ok a ↔ m = Ok a.
Proof. destruct m; simpl; naive_solver. Qed.

(** ** Byte slices *)

(** A [[]byte] whose aliasing does not matter. *)
Abbreviation bytes := (list byte).

#[global] Instance byte_eq_dec : EqDecision byte := Strings.Byte.byte_eq_dec.

(** ** Machine integers *)

(** The value of an [int64] after a wrap-around operation whose exact
    mathematical result is [z]. *)
Definition int64 (z : Z) : Z := ((z + 2 ^ 63) `mod` 2 ^ 64 - 2 ^ 63)%Z.
(** The same for [uint64] and [uint32]. *)
Definition uint64 (z : Z) : Z := (z `mod` 2 ^ 64)%Z.
Definition uint32 (z : Z) : Z := (z `mod` 2 ^ 32)%Z.

Definition max_int64 : Z := (2 ^ 63 - 1)%Z.
Definition in_int64 (z : Z) : Prop := (- 2 ^ 63 ≤ z < 2 ^ 63)%Z.

Lemma int64_id z : in_int64 z → int64 z = z.
Proof. unfold in_int64, int64. intros. rewrite Z.mod_small; lia. Qed.

Lemma int64_range z : in_int64 (int64 z).
Proof.
  unfold in_int64, int64.
  pose proof (Z.mod_pos_bound (z + 2 ^ 63) (2 ^ 64)). lia.
Qed.

Lemma uint64_id z : (0 ≤ z < 2 ^ 64)%Z → uint64 z = z.
Proof. apply Z.mod_small. Qed.

#[export] Hint Resolve int64_range : go.

(** ** Ranging over a Go map

    The order in which [for k := range m] visits the keys of a map is not
    specified.  A function that ranges over a map takes the order from this
    class; what is proved holds for every order. *)
Class MapRange := {
  range_keys : gset string → list string;
  range_keys_perm s : range_keys s ≡ₚ elements s;
}.

(** The order used by the executable examples. *)
Definition elements_range : MapRange :=
  {| range_keys := elements; range_keys_perm s := reflexivity _ |}.

Section map_range.
Context `{MapRange}.

Lemma elem_of_range_keys s k : k ∈ range_keys s ↔ k ∈ s.
Proof. rewrite range_keys_perm. apply elem_of_elements. Qed.

Lemma NoDup_range_keys s : NoDup (range_keys s).
Proof. rewrite range_keys_perm. apply NoDup_elements. Qed.
End map_range.

#[export] Hint Resolve NoDup_range_keys : go.

(** ** Lists *)

Lemma list_filter_id {A} (P : A → Prop) `{∀ x, Decision (P x)} (l : list A) :
  (∀ x, x ∈ l → P x) → filter P l = l.
Proof.
  induction l as [|x l IH]; [done|]. intros Hl. rewrite filter_cons_True by set_solver.
  f_equal. apply IH. set_solver.
Qed.

Lemma list_filter_none {A} (P : A → Prop) `{∀ x, Decision (P x)} (l : list A) :
  (∀ x, x ∈ l → ¬ P x) → filter P l = [].
Proof.
  induction l as [|x l IH]; [done|]. intros Hl. rewrite filter_cons_False by set_solver.
  apply IH. set_solver.
Qed.

Lemma list_filter_ext {A} (P Q : A → Prop) `{∀ x, Decision (P x), ∀ x, Decision (Q x)} (l : list A) :
  (∀ x, x ∈ l → P x ↔ Q x) → filter P l = filter Q l.
Proof.
  induction l as [|x l IH]; [done|]. intros Hl. rewrite !filter_cons, IH by set_solver.
  specialize (Hl x ltac:(set_solver)). by repeat case_decide; try tauto.
Qed.

Lemma omap_cons {A B} (f : A → option B) x (l : list A) :
  omap f (x :: l) = match f x with Some y => y :: omap f l | None => omap f l end.
Proof. done. Qed.

(** Filtering the results of a partial map, when its domain can be filtered. *)
Lemma omap_filter {A B} (f : A → option B) (P : A → Prop) (Q : B → Prop)
    `{∀ x, Decision (P x), ∀ x, Decision (Q x)} (l : list A) :
  (∀ x y, x ∈ l → f x = Some y → P x ↔ Q y) →
  omap f (filter P l) = filter Q (omap f l).
Proof.
  induction l as [|x l IH]; [done|]. intros Hl. rewrite filter_cons.
  assert (omap f (filter P l) = filter Q (omap f l)) as IH' by (apply IH; set_solver).
  rewrite (omap_cons f x l). destruct (f x) as [y|] eqn:Hf.
  - rewrite filter_cons, <-IH'. specialize (Hl x y ltac:(set_solver) Hf).
    repeat case_decide; rewrite ?omap_cons, ?Hf; tauto || done.
  - rewrite <-IH'. case_decide; by rewrite ?omap_cons, ?Hf.
Qed.

Lemma NoDup_fmap_omap {A B K} (f : A → option B) (k : B → K) (l : list A) :
  NoDup l →
  (∀ x1 x2 y1 y2, x1 ∈ l → x2 ∈ l → f x1 = Some y1 → f x2 = Some y2 → k y1 = k y2 → x1 = x2) →
  NoDup (k <$> omap f l).
Proof.
  induction 1 as [|x l Hx Hnd IH]; intros Hinj; [constructor|]. rewrite omap_cons.
  assert (NoDup (k <$> omap f l)) as Hnd' by (apply IH; set_solver).
  destruct (f x) as [y|] eqn:Hf; [|done]. simpl. constructor; [|done].
  intros (y' & Hk & (x' & Hx' & Hf')%list_elem_of_omap)%list_elem_of_fmap.
  destruct Hx. replace x with x'; [done|]. symmetry. eapply Hinj; set_solver.
Qed.

(** ** Tactics *)

(** Case analysis on the matches of a hypothesis that equates a result with a
    constructor, dropping the branches that cannot produce it. *)
Ltac result_inv H :=
  repeat (case_match; simplify_eq/=; try done);
  repeat match type of H with
  | _ ≫= _ = Ok _ => apply result_bind_Ok in H as (? & ? & H)
  | match ?x with _ => _ end = _ => destruct x eqn:?; simplify_eq/=; try done
  end.

(** Split the goal and the conjunctions and existentials of the context. *)
Ltac split_all :=
  repeat match goal with
  | H : _ ∧ _ |- _ => destruct H
  | H : ∃ _, _ |- _ => destruct H
  | |- _ ∧ _ => split
  end.

(** ** Relations: steps and reachability *)

(** States reachable from [init] by [step]; invariants are proved by induction
    on this relation. *)
Section reachability.
Context {St : Type} (init : St → Prop) (step : St → St → Prop).

Inductive reachable : St → Prop :=
  | reachable_init s : init s → reachable s
  | reachable_step s s' : reachable s → step s s' → reachable s'.

Lemma reachable_invariant (P : St → Prop) :
  (∀ s, init s → P s) →
  (∀ s s', P s → step s s' → P s') →
  ∀ s, reachable s → P s.
Proof. induction 3; eauto. Qed.

Lemma reachable_rtc s s' : reachable s → rtc step s s' → reachable s'.
Proof. induction 2; eauto using reachable_step. Qed.
End reachability.
