(* ===== verification/GoPath.v ===== *)
(** * The parts of Go's [strings], [path] and [path/filepath] the code uses

    Strings are byte strings, as in Go.  [path/filepath] is modelled for the
    Unix separators, on which the server and the tests run: there the volume
    name is empty and [FromSlash] and [ToSlash] are the identity. *)
From S2P Require Import Prelude.
From stdpp Require Import options.

(** ** [strings] *)

Definition slash : ascii := "/"%char.
Definition bslash : ascii := "\"%char.

(** [strings.IndexByte(s, c) >= 0] *)
Fixpoint str_elem (c : ascii) (s : string) : bool :=
  match s with
  | EmptyString => false
  | String a s' => bool_decide (a = c) || str_elem c s'
  end.

(** [strings.ContainsAny(s, chars)], for ASCII [chars] *)
Fixpoint contains_any (s chars : string) : bool :=
  match s with
  | EmptyString => false
  | String a s' => str_elem a chars || contains_any s' chars
  end.

(** [strings.ReplaceAll(s, a, b)] for one-byte [a] and [b] *)
Fixpoint replace_byte (a b : ascii) (s : string) : string :=
  match s with
  | EmptyString => EmptyString
  | String c s' => String (if decide (c = a) then b else c) (replace_byte a b s')
  end.

Fixpoint str_drop (n : nat) (s : string) : string :=
  match n, s with
  | S n', String _ s' => str_drop n' s'
  | _, _ => s
  end.

(** [strings.HasPrefix(s, p)] *)
Definition has_prefix (p s : string) : bool := String.prefix p s.
(** [strings.HasSuffix(s, p)] *)
Definition has_suffix (p s : string) : bool :=
  String.prefix (String.rev p) (String.rev s).
(** [strings.TrimPrefix(s, p)] *)
Definition trim_prefix (p s : string) : string :=
  if has_prefix p s then str_drop (String.length p) s else s.
(** [strings.TrimSuffix(s, p)] *)
Definition trim_suffix (p s : string) : string :=
  if has_suffix p s
  then String.rev (str_drop (String.length p) (String.rev s)) else s.

(** [strings.Contains(s, sub)] *)
Fixpoint contains (sub s : string) : bool :=
  has_prefix sub s ||
  match s with EmptyString => false | String _ s' => contains sub s' end.

(** [strings.Split(s, "/")] *)
Fixpoint split_slash (s : string) : list string :=
  match s with
  | EmptyString => [""]
  | String c s' =>
    if decide (c = slash) then "" :: split_slash s'
    else match split_slash s' with
         | [] => [String c ""]
         | h :: t => String c h :: t
         end
  end.

(** [strings.Join(l, "/")] *)
Fixpoint join_slash (l : list string) : string :=
  match l with
  | [] => ""
  | x :: l' => match l' with [] => x | _ => x +:+ "/" +:+ join_slash l' end
  end.

(** [strings.LastIndex(s, "/")], as the parts before and after that index *)
Fixpoint cut_last_slash (s : string) : option (string * string) :=
  match s with
  | EmptyString => None
  | String c s' =>
    match cut_last_slash s' with
    | Some (a, b) => Some (String c a, b)
    | None => if decide (c = slash) then Some ("", s') else None
    end
  end.

(** [sort.Strings] *)
Definition sort_strings (l : list string) : list string := merge_sort String.le l.

(** *** [strings.TrimSpace]

    [space_width] is the number of bytes of the white-space rune that the byte
    string starts with: the ASCII ones of one byte, U+0085 and U+00A0 of two,
    and U+1680, U+2000..U+200A, U+2028, U+2029, U+202F, U+205F and U+3000 of
    three.  On the reversed string the same encodings, read backwards, are
    those [utf8.DecodeLastRune] finds. *)
Definition byte_in (lo hi c : ascii) : bool :=
  (N_of_ascii lo <=? N_of_ascii c)%N && (N_of_ascii c <=? N_of_ascii hi)%N.

Definition ascii_space (c : ascii) : bool :=
  bool_decide (c = " "%char) || byte_in "009" "013" c.
Definition space2 (a b : ascii) : bool :=
  bool_decide (a = "194"%char) &&
    (bool_decide (b = "133"%char) || bool_decide (b = "160"%char)).
Definition space3 (a b c : ascii) : bool :=
  (bool_decide (a = "225"%char) && bool_decide (b = "154"%char)
     && bool_decide (c = "128"%char)) ||
  (bool_decide (a = "226"%char) && bool_decide (b = "128"%char)
     && (byte_in "128" "138" c || byte_in "168" "169" c
         || bool_decide (c = "175"%char))) ||
  (bool_decide (a = "226"%char) && bool_decide (b = "129"%char)
     && bool_decide (c = "159"%char)) ||
  (bool_decide (a = "227"%char) && bool_decide (b = "128"%char)
     && bool_decide (c = "128"%char)).

(** Trim the white-space runes at the head of the string, given how runes of
    two and three bytes are recognised. *)
Fixpoint trim_runes (sp2 : ascii → ascii → bool) (sp3 : ascii → ascii → ascii → bool)
    (fuel : nat) (s : string) : string :=
  match fuel with
  | 0 => s
  | S f =>
    match s with
    | String a s1 =>
      if ascii_space a then trim_runes sp2 sp3 f s1 else
      match s1 with
      | String b s2 =>
        if sp2 a b then trim_runes sp2 sp3 f s2 else
        match s2 with
        | String c s3 => if sp3 a b c then trim_runes sp2 sp3 f s3 else s
        | EmptyString => s
        end
      | EmptyString => s
      end
    | EmptyString => s
    end
  end.

Definition trim_left (s : string) : string :=
  trim_runes space2 space3 (String.length s) s.
Definition trim_right (s : string) : string :=
  String.rev (trim_runes (λ a b, space2 b a) (λ a b c, space3 c b a)
    (String.length s) (String.rev s)).
Definition trim_space (s : string) : string := trim_right (trim_left s).

(** ** [path] and Unix [path/filepath] *)

(** One pass of [path.Clean] over the elements: [stack] holds the output
    elements in reverse. *)
Fixpoint resolve (rooted : bool) (stack segs : list string) : list string :=
  match segs with
  | [] => reverse stack
  | s :: segs' =>
    if decide (s = "") then resolve rooted stack segs'
    else if decide (s = ".") then resolve rooted stack segs'
    else if decide (s = "..") then
      match stack with
      | top :: stack' =>
        if decide (top = "..") then resolve rooted (".." :: stack) segs'
        else resolve rooted stack' segs'
      | [] => if rooted then resolve rooted [] segs'
              else resolve rooted [".."] segs'
      end
    else resolve rooted (s :: stack) segs'
  end.

(** [path.Clean], and [filepath.Clean] on Unix *)
Definition path_clean (p : string) : string :=
  if decide (p = "") then "."
  else
    let rooted := has_prefix "/" p in
    let body := join_slash (resolve rooted [] (split_slash p)) in
    if rooted then "/" +:+ body
    else if decide (body = "") then "." else body.

(** [strings.ToLower], as far as a search for ASCII text sees it: A to Z, and
    the two letters outside ASCII whose lower case is in it, U+0130 and
    U+212A; the other letters outside ASCII stay outside. *)
Definition lower (c : ascii) : ascii :=
  if byte_in "A" "Z" c then ascii_of_N (N_of_ascii c + 32) else c.

Fixpoint to_lower (s : string) : string :=
  match s with
  | String "196" (String "176" s') => String "i" (to_lower s')
  | String "226" (String "132" (String "170" s')) => String "k" (to_lower s')
  | String c s' => String (lower c) (to_lower s')
  | EmptyString => EmptyString
  end.

(** [filepath.IsAbs] on Unix *)
Definition is_abs (p : string) : bool := has_prefix "/" p.

(** [filepath.Join]: the leading empty elements are dropped. *)
Fixpoint filepath_join (elems : list string) : string :=
  match elems with
  | [] => ""
  | e :: elems' =>
    if decide (e = "") then filepath_join elems'
    else path_clean (join_slash elems)
  end.

(** The elements of a cleaned path without its leading slash. *)
Definition path_elems (p : string) : list string :=
  let p' := trim_prefix "/" p in
  if decide (p' = "") then [] else split_slash p'.

Fixpoint strip_common (b t : list string) : list string * list string :=
  match b, t with
  | x :: b', y :: t' => if decide (x = y) then strip_common b' t' else (b, t)
  | _, _ => (b, t)
  end.

(** [filepath.Rel] on Unix *)
Definition filepath_rel (basepath targpath : string) : result unit string :=
  let base := path_clean basepath in
  let targ := path_clean targpath in
  if decide (targ = base) then Ok "."
  else
    let base := if decide (base = ".") then "" else base in
    if negb (Bool.eqb (has_prefix "/" base) (has_prefix "/" targ)) then Err tt
    else
      let '(b, t) := strip_common (path_elems base) (path_elems targ) in
      match b, t with
      | ".." :: _, _ :: _ => Err tt
      | _, _ => Ok (join_slash (replicate (length b) ".." ++ t))
      end.

(** [path.Base] *)
Definition path_base (p : string) : string :=
  if decide (p = "") then "."
  else
    let fix strip (s : string) :=   (* the reversed string *)
      match s with
      | String c s' => if decide (c = slash) then strip s' else s
      | EmptyString => s
      end in
    let p := String.rev (strip (String.rev p)) in
    let p := match cut_last_slash p with Some (_, b) => b | None => p end in
    if decide (p = "") then "/" else p.

(** [path.Dir], and [filepath.Dir] on Unix *)
Definition path_dir (p : string) : string :=
  match cut_last_slash p with
  | Some (a, _) => path_clean (a +:+ "/")
  | None => path_clean ""
  end.

(** A few values computed by the Go functions, as a check of the definitions. *)
Example path_clean_examples :
  map path_clean [""; "a/c"; "a//c"; "a/c/."; "a/c/b/.."; "/../a/c"; "/../a/b/../././/c"; "../../x"; "a/../.."; "/"; "/.."; "./a"]
  = ["."; "a/c"; "a/c"; "a/c"; "a/c"; "/a/c"; "/a/c"; "../../x"; ".."; "/"; "/"; "a"].
Proof. vm_compute. reflexivity. Qed.

Example filepath_rel_examples :
  (filepath_rel "/a" "/a/b/c" = Ok "b/c") ∧ (filepath_rel "/a" "/b/c" = Ok "../b/c") ∧
  (filepath_rel "/a" "./b/c" = Err tt) ∧ (filepath_rel "/" "/a" = Ok "a") ∧
  (filepath_rel "../.." ".." = Ok "..") ∧ (filepath_rel ".." "." = Err tt) ∧
  (filepath_rel "/a/b" "/" = Ok "../..").
Proof. vm_compute. repeat split. Qed.

Example path_base_dir_examples :
  map path_base [""; "."; "/."; "/"; "//"; "x/"; "abc"; "a/b/.x"] = ["."; "."; "."; "/"; "/"; "x"; "abc"; ".x"] ∧
  map path_dir [""; "."; "/."; "/"; "/foo"; "x/"; "abc"; "a/b/.x"] = ["."; "."; "/"; "/"; "/"; "x"; "."; "a/b"].
Proof. vm_compute. split; reflexivity. Qed.

Example trim_space_examples :
  trim_space "  a b	 " = "a b" ∧ trim_space (String "194" (String "160" "x")) = "x" ∧
  trim_space (String "x" (String "227" (String "128" (String "128" "")))) = "x".
Proof. vm_compute. repeat split. Qed.
