(* ===== verification/PathFacts.v ===== *)
(** * Facts about strings and cleaned paths

    The shape of the elements [path.Clean] leaves ([normal]), its idempotence,
    and what joining and relating absolute paths does to their elements. *)
From S2P Require Import Prelude GoPath.
From stdpp Require Import options.

(** ** Strings *)

Lemma str_app_cons c s t : String c s +:+ t = String c (s +:+ t).
Proof. done. Qed.
Lemma str_app_nil_l s : "" +:+ s = s.
Proof. done. Qed.
Lemma slash_app s : "/" +:+ s = String slash s.
Proof. done. Qed.
Lemma str_app_nil_r s : s +:+ "" = s.
Proof. induction s; [done|]. by rewrite str_app_cons, IHs. Qed.
Lemma str_app_assoc s t u : s +:+ t +:+ u = (s +:+ t) +:+ u.
Proof. induction s; [done|]. by rewrite !str_app_cons, IHs. Qed.
Lemma str_app_inj_l s t u : s +:+ t = s +:+ u → t = u.
Proof. apply (inj (String.append s)). Qed.
Lemma str_app_nil s t : s +:+ t = "" ↔ s = "" ∧ t = "".
Proof.
  split; [|by intros [-> ->]].
  destruct s; [done|]. by rewrite str_app_cons.
Qed.
Lemma str_length_app s t : String.length (s +:+ t) = String.length s + String.length t.
Proof. induction s; [done|]. rewrite str_app_cons. simpl. by rewrite IHs. Qed.
Lemma str_app_inj_r s t u : s +:+ u = t +:+ u → s = t.
Proof.
  revert t. induction s as [|c s IH]; intros [|d t]; rewrite ?str_app_cons, ?str_app_nil_l.
  - done.
  - intros H%(f_equal String.length). simpl in H. rewrite str_length_app in H. lia.
  - intros H%(f_equal String.length). simpl in H. rewrite str_length_app in H. lia.
  - intros [= -> ?%IH]. by f_equal.
Qed.
#[export] Hint Rewrite str_app_cons str_app_nil_l str_app_nil_r : go.

Lemma has_prefix_spec p s : has_prefix p s = true ↔ ∃ r, s = p +:+ r.
Proof.
  unfold has_prefix. revert s. induction p as [|c p IH]; intros s.
  { split; [intros _; by exists s|by destruct s]. }
  destruct s as [|d s].
  { split; [done|]. intros [r ?]. done. }
  cbn [String.prefix]. destruct (ascii_dec c d) as [->|Hne].
  - rewrite IH. split; intros [r H].
    + exists r. rewrite H. done.
    + exists r. rewrite str_app_cons in H. naive_solver.
  - split; [done|]. intros [r H]. rewrite str_app_cons in H. naive_solver.
Qed.

Lemma has_prefix_app p s : has_prefix p (p +:+ s) = true.
Proof. apply has_prefix_spec. eauto. Qed.

Lemma has_prefix_1 a c s : has_prefix (String a "") (String c s) = bool_decide (c = a).
Proof.
  apply eq_bool_prop_intro. rewrite !Is_true_true, has_prefix_spec, bool_decide_eq_true.
  split; [by intros [r [= -> ->]]|]. intros ->. by exists s.
Qed.

Lemma str_drop_app p s : str_drop (String.length p) (p +:+ s) = s.
Proof. induction p; [by destruct s|done]. Qed.

Lemma trim_prefix_app p s : trim_prefix p (p +:+ s) = s.
Proof. unfold trim_prefix. by rewrite has_prefix_app, str_drop_app. Qed.

Lemma trim_prefix_other p s : has_prefix p s = false → trim_prefix p s = s.
Proof. unfold trim_prefix. by intros ->. Qed.

Lemma str_elem_app c s t : str_elem c (s +:+ t) = str_elem c s || str_elem c t.
Proof. induction s; [done|]. rewrite str_app_cons. simpl. by rewrite IHs, orb_assoc. Qed.

Notation no_slash s := (str_elem slash s = false).

Lemma no_slash_slash_app s t : no_slash (s +:+ "/" +:+ t) → False.
Proof. rewrite !str_elem_app. simpl. by rewrite orb_true_r. Qed.

Lemma no_slash_prefix s : no_slash s → has_prefix "/" s = false.
Proof.
  intros H. destruct (has_prefix "/" s) eqn:E; [|done].
  apply has_prefix_spec in E as [r ->]. done.
Qed.

(** ** Cutting at the last slash *)

Lemma cut_last_slash_None s : cut_last_slash s = None ↔ no_slash s.
Proof.
  induction s as [|c s IH]; [done|]. simpl.
  destruct (cut_last_slash s) as [[a b]|].
  - destruct (str_elem slash s); [by rewrite orb_true_r|naive_solver].
  - destruct (str_elem slash s); [naive_solver|].
    case_decide; case_bool_decide; naive_solver.
Qed.

Lemma cut_last_slash_app a b :
  no_slash b → cut_last_slash (a +:+ "/" +:+ b) = Some (a, b).
Proof.
  intros Hb. induction a as [|c a IH].
  - rewrite str_app_nil_l, slash_app. simpl.
    by rewrite (proj2 (cut_last_slash_None b) Hb).
  - rewrite str_app_cons. cbn [cut_last_slash]. by rewrite IH.
Qed.

Lemma cut_last_slash_Some s a b :
  cut_last_slash s = Some (a, b) → s = a +:+ "/" +:+ b ∧ no_slash b.
Proof.
  revert a b. induction s as [|c s IH]; intros a b; [done|]. simpl.
  destruct (cut_last_slash s) as [[a' b']|] eqn:E.
  - intros [= <- <-]. destruct (IH a' b' eq_refl) as [-> ?]. done.
  - case_decide; [|done]. intros [= <- <-]. subst c.
    split; [done|]. by apply cut_last_slash_None.
Qed.

(** ** Splitting and joining *)

Lemma split_slash_ne s : split_slash s ≠ [].
Proof. destruct s as [|c s]; simpl; [done|]. case_decide; [done|]. by case_match. Qed.

Lemma split_no_slash s : no_slash s → split_slash s = [s].
Proof.
  induction s as [|c s IH]; [done|]. simpl. intros [Hc Hs]%orb_false_elim.
  apply bool_decide_eq_false in Hc. rewrite decide_False by done.
  by rewrite IH.
Qed.

Lemma split_slash_no_slash s : Forall (λ x, no_slash x) (split_slash s).
Proof.
  induction s as [|c s IH]; simpl; [by repeat constructor|].
  case_decide as Hc; [by constructor|].
  destruct (split_slash s) as [|h t]; decompose_Forall_hyps.
  - repeat constructor. simpl. by rewrite bool_decide_eq_false_2.
  - constructor; [|done]. simpl. by rewrite bool_decide_eq_false_2.
Qed.

Lemma split_slash_app a b :
  split_slash (a +:+ "/" +:+ b) = split_slash a ++ split_slash b.
Proof.
  induction a as [|c a IH].
  - rewrite str_app_nil_l. done.
  - rewrite str_app_cons. cbn [split_slash]. rewrite IH.
    case_decide; [done|]. by destruct (split_slash a) eqn:E; [edestruct split_slash_ne|].
Qed.

Lemma join_slash_cons x l : l ≠ [] → join_slash (x :: l) = x +:+ "/" +:+ join_slash l.
Proof. by destruct l. Qed.

Lemma join_slash_app l1 l2 :
  l1 ≠ [] → l2 ≠ [] → join_slash (l1 ++ l2) = join_slash l1 +:+ "/" +:+ join_slash l2.
Proof.
  intros H1 H2. induction l1 as [|x l1 IH]; [done|].
  destruct l1 as [|y l1].
  - simpl app. by rewrite join_slash_cons.
  - change ((x :: y :: l1) ++ l2) with (x :: (y :: l1) ++ l2).
    rewrite (join_slash_cons x (y :: l1)), join_slash_cons, IH by done.
    by rewrite <-!str_app_assoc.
Qed.

Lemma split_join l : l ≠ [] → Forall (λ x, no_slash x) l → split_slash (join_slash l) = l.
Proof.
  induction l as [|x l IH]; [done|]. intros _ [Hx Hl]%Forall_cons.
  destruct (decide (l = [])) as [->|Hne].
  - simpl. by apply split_no_slash.
  - rewrite join_slash_cons, split_slash_app, IH by done.
    by rewrite split_no_slash.
Qed.

Lemma join_split s : join_slash (split_slash s) = s.
Proof.
  induction s as [|c s IH]; [done|]. simpl.
  pose proof (split_slash_ne s) as Hne.
  case_decide as Hc.
  - rewrite join_slash_cons, IH by done. by subst c.
  - destruct (split_slash s) as [|h t]; [done|].
    rewrite <-IH. destruct t; [done|].
    by rewrite !join_slash_cons, str_app_cons by done.
Qed.

Lemma join_slash_nil l : Forall (λ x, x ≠ "") l → join_slash l = "" → l = [].
Proof.
  destruct l as [|x l]; [done|]. intros [Hx _]%Forall_cons. destruct l; [done|].
  by intros [? _]%str_app_nil.
Qed.

Lemma join_slash_inj l1 l2 :
  Forall (λ x, x ≠ "" ∧ no_slash x) l1 → Forall (λ x, x ≠ "" ∧ no_slash x) l2 →
  join_slash l1 = join_slash l2 → l1 = l2.
Proof.
  intros H1 H2 Heq.
  assert (Hnil : ∀ l, Forall (λ x, x ≠ "" ∧ no_slash x) l → join_slash l = "" → l = []).
  { intros l Hl. apply join_slash_nil. eapply Forall_impl; naive_solver. }
  destruct (decide (l1 = [])) as [->|]; [by symmetry; apply Hnil|].
  destruct (decide (l2 = [])) as [->|]; [by apply Hnil|].
  rewrite <-(split_join l1), <-(split_join l2), Heq; try done;
    eapply Forall_impl; naive_solver.
Qed.

(** ** Normal element lists *)

(** An element that names a child: not empty, not [.] or [..], no slash. *)
Definition good_seg (s : string) : Prop :=
  s ≠ "" ∧ s ≠ "." ∧ s ≠ ".." ∧ no_slash s.

#[export] Instance good_seg_dec s : Decision (good_seg s).
Proof. unfold good_seg. apply _. Defined.

(** The reversed output of [path.Clean]: elements that name a child on top of
    leading [..], which a rooted path does not have. *)
Inductive ok_stack (rooted : bool) : list string → Prop :=
  | ok_ups n : (rooted = true → n = 0) → ok_stack rooted (replicate n "..")
  | ok_push s st : good_seg s → ok_stack rooted st → ok_stack rooted (s :: st).

#[export] Hint Constructors ok_stack : go.

Lemma ok_stack_nil rooted : ok_stack rooted [].
Proof. by apply (ok_ups rooted 0). Qed.
#[export] Hint Resolve ok_stack_nil : go.

Lemma ok_stack_split rooted st :
  ok_stack rooted st ↔
  ∃ n g, st = g ++ replicate n ".." ∧ Forall good_seg g ∧ (rooted = true → n = 0).
Proof.
  split.
  - induction 1 as [n Hn|s st Hs Hst (n & g & -> & Hg & Hn)].
    + by exists n, [].
    + exists n, (s :: g). repeat split; [by constructor|done].
  - intros (n & g & -> & Hg & Hn).
    induction Hg; simpl; auto with go.
Qed.

Lemma ok_stack_rooted st : ok_stack true st ↔ Forall good_seg st.
Proof.
  rewrite ok_stack_split. split.
  - intros (n & g & -> & Hg & Hn). rewrite Hn by done. by rewrite app_nil_r.
  - intros Hg. exists 0, st. by rewrite app_nil_r.
Qed.

Lemma resolve_ok rooted st segs :
  ok_stack rooted st → Forall (λ x, no_slash x) segs →
  ok_stack rooted (reverse (resolve rooted st segs)).
Proof.
  intros Hst Hsegs. revert st Hst. induction Hsegs as [|s segs Hs _ IH]; intros st Hst; simpl.
  { by rewrite reverse_involutive. }
  repeat case_decide; try by apply IH.
  - destruct st as [|top st].
    { destruct rooted; apply IH; [done|]. by apply (ok_ups false 1). }
    case_decide; subst.
    + apply IH. inversion Hst as [n Hn Heq|? ? (?&?&?&?)]; [|done].
      destruct n; [done|]. simpl in *. simplify_eq.
      apply (ok_ups rooted (S (S n))). intros ->. by specialize (Hn eq_refl).
    + apply IH. inversion Hst as [n Hn Heq|]; [|done].
      destruct n; [done|]. simpl in *. by simplify_eq.
  - apply IH. constructor; [|done]. by repeat split.
Qed.

Lemma resolve_good rooted st g rest :
  Forall good_seg g → resolve rooted st (g ++ rest) = resolve rooted (reverse g ++ st) rest.
Proof.
  intros Hg. revert st. induction Hg as [|s g (?&?&?&_) _ IH]; intros st; [done|].
  simpl. rewrite !decide_False, IH by done.
  by rewrite reverse_cons, <-app_assoc.
Qed.

Lemma resolve_ups m n rest :
  resolve false (replicate m "..") (replicate n ".." ++ rest) =
  resolve false (replicate (n + m) "..") rest.
Proof.
  revert m. induction n as [|n IH]; intros m; [done|].
  destruct m as [|m]; [etrans; [exact (IH 1)|]|etrans; [exact (IH (S (S m)))|]];
    do 2 f_equal; lia.
Qed.

(** Cleaning the elements of a clean path changes nothing. *)
Lemma resolve_clean rooted l :
  ok_stack rooted (reverse l) → resolve rooted [] l = l.
Proof.
  intros (n & g & Hl & Hg & Hn)%ok_stack_split.
  rewrite <-(reverse_involutive l), Hl, reverse_app, reverse_replicate.
  assert (Hgood : Forall good_seg (reverse g)) by by apply Forall_reverse.
  destruct rooted.
  - rewrite Hn by done. simpl. rewrite <-(app_nil_r (reverse g)).
    rewrite resolve_good by done. simpl. by rewrite !app_nil_r, reverse_involutive.
  - change [] with (replicate 0 ".." : list string). rewrite resolve_ups.
    rewrite <-(app_nil_r (reverse g)), resolve_good by done. simpl.
    by rewrite reverse_app, reverse_replicate, !reverse_involutive, Nat.add_0_r, app_nil_r.
Qed.

(** The output already produced is the starting point for the rest. *)
Lemma resolve_app rooted st a b :
  resolve rooted st (a ++ b) = resolve rooted (reverse (resolve rooted st a)) b.
Proof.
  revert st. induction a as [|s a IH]; intros st; simpl.
  { by rewrite reverse_involutive. }
  repeat case_decide; try apply IH.
  destruct st; [destruct rooted; apply IH|case_decide; apply IH].
Qed.

(** ** Absolute paths *)

(** The elements of an absolute path once cleaned. *)
Definition abs_elems (p : string) : list string := resolve true [] (split_slash p).

Lemma abs_elems_good p : Forall good_seg (abs_elems p).
Proof.
  rewrite <-(reverse_involutive (abs_elems p)). apply Forall_reverse, ok_stack_rooted.
  apply resolve_ok; [auto with go|apply split_slash_no_slash].
Qed.
#[export] Hint Resolve abs_elems_good split_slash_no_slash : go.

Lemma good_seg_ne l : Forall good_seg l → Forall (λ x, x ≠ "" ∧ no_slash x) l.
Proof. intros H. eapply Forall_impl; [exact H|]. unfold good_seg. naive_solver. Qed.
#[export] Hint Resolve good_seg_ne : go.

Lemma good_seg_no_slash l : Forall good_seg l → Forall (λ x, no_slash x) l.
Proof. intros H. eapply Forall_impl; [exact H|]. unfold good_seg. naive_solver. Qed.
#[export] Hint Resolve good_seg_no_slash : go.

Lemma good_seg_not_empty l : Forall good_seg l → Forall (λ x, x ≠ "") l.
Proof. intros H. eapply Forall_impl; [exact H|]. unfold good_seg. naive_solver. Qed.
#[export] Hint Resolve good_seg_not_empty : go.

Lemma is_abs_not_empty p : is_abs p = true → p ≠ "".
Proof. by intros H ->. Qed.

Lemma path_clean_abs p : is_abs p = true → path_clean p = "/" +:+ join_slash (abs_elems p).
Proof.
  intros H. unfold path_clean. rewrite decide_False by by apply is_abs_not_empty.
  unfold is_abs in H. by rewrite H.
Qed.

Lemma is_abs_clean p : is_abs p = true → is_abs (path_clean p) = true.
Proof. intros H. rewrite path_clean_abs by done. apply has_prefix_app. Qed.

Lemma split_abs_join l :
  Forall (λ x, no_slash x) l → resolve true [] (split_slash ("/" +:+ join_slash l)) = resolve true [] l.
Proof.
  intros Hl. destruct (decide (l = [])) as [->|Hne]; [done|].
  rewrite slash_app. cbn [split_slash]. rewrite decide_True by done.
  by rewrite split_join.
Qed.

Lemma abs_elems_join l : Forall good_seg l → abs_elems ("/" +:+ join_slash l) = l.
Proof.
  intros Hl. unfold abs_elems. rewrite split_abs_join by auto with go.
  by apply resolve_clean, ok_stack_rooted, Forall_reverse.
Qed.

Lemma abs_elems_clean p : is_abs p = true → abs_elems (path_clean p) = abs_elems p.
Proof.
  intros H. rewrite path_clean_abs by done. by rewrite abs_elems_join by auto with go.
Qed.

Lemma path_clean_idem_abs p : is_abs p = true → path_clean (path_clean p) = path_clean p.
Proof.
  intros H. rewrite (path_clean_abs (path_clean p)) by auto using is_abs_clean.
  rewrite abs_elems_clean by done. by rewrite <-path_clean_abs.
Qed.

Lemma path_clean_abs_inj p q :
  is_abs p = true → is_abs q = true →
  path_clean p = path_clean q ↔ abs_elems p = abs_elems q.
Proof.
  intros Hp Hq. rewrite !path_clean_abs by done. split; [|by intros ->].
  intros ?%str_app_inj_l%join_slash_inj; auto with go.
Qed.

Lemma path_elems_abs l : Forall good_seg l → path_elems ("/" +:+ join_slash l) = l.
Proof.
  intros Hl. unfold path_elems. rewrite trim_prefix_app. cbv zeta.
  destruct (decide (l = [])) as [->|Hne]; [by rewrite decide_True|].
  rewrite decide_False, split_join; auto with go.
  intros ?%join_slash_nil; auto with go.
Qed.

Lemma path_elems_clean_abs p : is_abs p = true → path_elems (path_clean p) = abs_elems p.
Proof. intros H. rewrite path_clean_abs by done. apply path_elems_abs; auto with go. Qed.

(** ** [filepath.Rel] and [filepath.Join] on absolute paths *)

Lemma strip_common_spec b t b' t' :
  strip_common b t = (b', t') →
  ∃ c, b = c ++ b' ∧ t = c ++ t' ∧
    (∀ x y bs ts, b' = x :: bs → t' = y :: ts → x ≠ y).
Proof.
  revert t. induction b as [|x b IH]; intros t; simpl.
  { intros [= <- <-]. by exists []. }
  destruct t as [|y t].
  { intros [= <- <-]. exists []. repeat split. naive_solver. }
  case_decide as Hxy.
  - intros (c & -> & -> & Hc)%IH. exists (x :: c). by subst.
  - intros [= <- <-]. exists []. repeat split. naive_solver.
Qed.

Lemma strip_common_app b t : strip_common b (b ++ t) = ([], t).
Proof. induction b as [|x b IH]; simpl; [by destruct t|]. by rewrite decide_True. Qed.

(** The relative path climbs once for every element of the base that is not
    shared, then descends. *)
Lemma filepath_rel_abs base targ b t :
  is_abs base = true → is_abs targ = true →
  strip_common (abs_elems base) (abs_elems targ) = (b, t) →
  filepath_rel base targ =
    Ok (if decide (abs_elems targ = abs_elems base) then "."
        else join_slash (replicate (length b) ".." ++ t)).
Proof.
  intros Hb Ht Hs. unfold filepath_rel.
  destruct (decide (abs_elems targ = abs_elems base)) as [Heq|Hne].
  { rewrite decide_True; [done|]. by apply path_clean_abs_inj. }
  rewrite decide_False by (by rewrite path_clean_abs_inj).
  pose proof (is_abs_clean base Hb) as Hb'. pose proof (is_abs_clean targ Ht) as Ht'.
  rewrite (decide_False (P := path_clean base = ".")) by (intros E; by rewrite E in Hb').
  unfold is_abs in Hb', Ht'. rewrite Hb', Ht'. simpl.
  rewrite !path_elems_clean_abs, Hs by done.
  destruct b as [|x b]; [done|]. destruct t as [|y t]; [by repeat case_match|].
  destruct (strip_common_spec _ _ _ _ Hs) as (c & Hbc & _).
  pose proof (abs_elems_good base) as Hg. rewrite Hbc in Hg.
  apply Forall_app in Hg as [_ (Hx & _)%Forall_cons].
  destruct Hx as (_ & _ & Hx & _).
  by repeat case_match.
Qed.

Lemma filepath_join_abs base c :
  is_abs base = true → filepath_join [base; c] = path_clean (base +:+ "/" +:+ c).
Proof. intros H. simpl. by rewrite decide_False by by apply is_abs_not_empty. Qed.

#[global] Arguments filepath_join : simpl never.

Lemma is_abs_app base s : is_abs base = true → is_abs (base +:+ s) = true.
Proof.
  unfold is_abs. rewrite !has_prefix_spec. intros [r ->].
  exists (r +:+ s). by rewrite <-str_app_assoc.
Qed.

Lemma abs_elems_app base c :
  abs_elems (base +:+ "/" +:+ c) = resolve true (reverse (abs_elems base)) (split_slash c).
Proof. unfold abs_elems. by rewrite split_slash_app, resolve_app. Qed.

Lemma resolve_onto st l :
  Forall good_seg l → resolve true (reverse st) l = st ++ l.
Proof.
  intros Hl. rewrite <-(app_nil_r l) at 1. rewrite resolve_good by done. simpl.
  by rewrite reverse_app, !reverse_involutive.
Qed.

Lemma split_join_resolve st l :
  Forall good_seg l →
  resolve true (reverse st) (split_slash (join_slash l)) = st ++ l.
Proof.
  intros Hl. destruct (decide (l = [])) as [->|Hne].
  - simpl. by rewrite reverse_involutive, app_nil_r.
  - rewrite split_join by auto with go. by apply resolve_onto.
Qed.

(** Joining a clean relative path appends its elements. *)
Lemma filepath_join_elems base l :
  is_abs base = true → Forall good_seg l →
  is_abs (filepath_join [base; join_slash l]) = true ∧
  abs_elems (filepath_join [base; join_slash l]) = abs_elems base ++ l ∧
  path_clean (filepath_join [base; join_slash l]) = filepath_join [base; join_slash l].
Proof.
  intros Hb Hl. rewrite filepath_join_abs by done.
  pose proof (is_abs_app base ("/" +:+ join_slash l) Hb) as Habs.
  rewrite abs_elems_clean, abs_elems_app, split_join_resolve by done.
  auto using is_abs_clean, path_clean_idem_abs.
Qed.

(** ** Paths that start with [..] *)

Definition climbs (s : string) : bool := bool_decide (s = "..") || has_prefix "../" s.

Lemma climbs_split s : climbs s = true ↔ head (split_slash s) = Some "..".
Proof.
  unfold climbs. rewrite orb_true_iff, bool_decide_eq_true, has_prefix_spec. split.
  - intros [->|[r ->]]; [done|].
    change ("../" +:+ r) with (".." +:+ "/" +:+ r). by rewrite split_slash_app.
  - pose proof (join_split s) as Hs.
    destruct (split_slash s) as [|x [|y l]]; intros; simplify_eq/=; [by left|right].
    by exists (join_slash (y :: l)).
Qed.

Lemma climbs_join l : Forall (λ x, no_slash x) l → climbs (join_slash l) = true ↔ head l = Some "..".
Proof.
  intros Hl. destruct (decide (l = [])) as [->|]; [done|].
  by rewrite climbs_split, split_join.
Qed.

Lemma climbs_join_good l : Forall good_seg l → climbs (join_slash l) = false.
Proof.
  intros Hl. apply not_true_iff_false. rewrite climbs_join by auto with go.
  destruct Hl as [|x l (?&?&?&?)]; naive_solver.
Qed.

(** ** Reversed strings *)

Lemma str_rev_app_spec s t : String.rev_app s t = String.rev s +:+ t.
Proof.
  unfold String.rev. revert t. induction s as [|c s IH]; intros t; [done|]. simpl.
  rewrite IH, (IH (String c "")). rewrite <-str_app_assoc. done.
Qed.

Lemma str_rev_cons c s : String.rev (String c s) = String.rev s +:+ String c "".
Proof. unfold String.rev at 1. simpl. apply str_rev_app_spec. Qed.

Lemma str_rev_app s t : String.rev (s +:+ t) = String.rev t +:+ String.rev s.
Proof.
  induction s as [|c s IH].
  - by rewrite str_app_nil_l, str_app_nil_r.
  - by rewrite str_app_cons, !str_rev_cons, IH, str_app_assoc.
Qed.

Lemma str_rev_involutive s : String.rev (String.rev s) = s.
Proof.
  induction s as [|c s IH]; [done|].
  rewrite str_rev_cons, str_rev_app, IH. done.
Qed.

Lemma str_rev_length s : String.length (String.rev s) = String.length s.
Proof.
  induction s as [|c s IH]; [done|].
  rewrite str_rev_cons, str_length_app, IH. simpl. lia.
Qed.

(** ** [strings.TrimSpace] *)

Section trim_runes.
Context (sp2 : ascii → ascii → bool) (sp3 : ascii → ascii → ascii → bool).

(** Whether the string starts with a white-space rune. *)
Definition starts_space (s : string) : bool :=
  match s with
  | EmptyString => false
  | String a s1 =>
    ascii_space a ||
    match s1 with
    | EmptyString => false
    | String b s2 =>
      sp2 a b || match s2 with EmptyString => false | String c _ => sp3 a b c end
    end
  end.

Lemma starts_space_app s t : starts_space s = true → starts_space (s +:+ t) = true.
Proof.
  destruct s as [|a [|b [|c s]]]; [done|..];
    rewrite ?str_app_cons; simpl; rewrite ?orb_true_iff; naive_solver.
Qed.

Lemma trim_runes_id n s : starts_space s = false → trim_runes sp2 sp3 n s = s.
Proof.
  destruct n as [|n], s as [|a [|b [|c s]]]; try done; simpl;
    rewrite ?orb_false_iff; intros; destruct_and?; by repeat case_match.
Qed.

Lemma trim_runes_spec n s :
  ∃ p, s = p +:+ trim_runes sp2 sp3 n s ∧
       (String.length s ≤ n → starts_space (trim_runes sp2 sp3 n s) = false).
Proof.
  revert s. induction n as [|n IH]; intros s.
  { exists "". split; [done|]. destruct s; simpl; [done|lia]. }
  assert (Hstep : ∀ q s', 0 < String.length q → s = q +:+ s' →
    ∃ p, s = p +:+ trim_runes sp2 sp3 n s' ∧
      (String.length s ≤ S n → starts_space (trim_runes sp2 sp3 n s') = false)).
  { intros q s' Hlt ->. destruct (IH s') as (p & Hp & Hn). exists (q +:+ p). split.
    - rewrite <-str_app_assoc. by rewrite <-Hp.
    - rewrite str_length_app. intros. apply Hn. lia. }
  destruct s as [|a s1]; [by exists ""|]. simpl.
  destruct (ascii_space a) eqn:Ha; [apply (Hstep (String a "")); simpl; auto with lia|].
  destruct s1 as [|b s2]; [exists ""; simpl; by rewrite Ha|].
  destruct (sp2 a b) eqn:Hab; [apply (Hstep (String a (String b ""))); simpl; auto with lia|].
  destruct s2 as [|c s3]; [exists ""; simpl; by rewrite Ha, Hab|].
  destruct (sp3 a b c) eqn:Habc;
    [apply (Hstep (String a (String b (String c "")))); simpl; auto with lia|].
  exists "". simpl. by rewrite Ha, Hab, Habc.
Qed.
End trim_runes.

Definition leading_space : string → bool := starts_space space2 space3.
Definition trailing_space (s : string) : bool :=
  starts_space (λ a b, space2 b a) (λ a b c, space3 c b a) (String.rev s).

Lemma trim_left_no_leading s : leading_space (trim_left s) = false.
Proof. unfold trim_left. destruct (trim_runes_spec space2 space3 (String.length s) s) as (?&?&H); auto. Qed.

Lemma trim_right_prefix s : ∃ r, s = trim_right s +:+ r.
Proof.
  unfold trim_right.
  destruct (trim_runes_spec (λ a b, space2 b a) (λ a b c, space3 c b a)
    (String.length s) (String.rev s)) as (p & Hp & _).
  exists (String.rev p). rewrite <-str_rev_app, <-Hp. by rewrite str_rev_involutive.
Qed.

Lemma trim_right_no_trailing s : trailing_space (trim_right s) = false.
Proof.
  unfold trailing_space, trim_right. rewrite str_rev_involutive.
  destruct (trim_runes_spec (λ a b, space2 b a) (λ a b c, space3 c b a)
    (String.length s) (String.rev s)) as (p & _ & H).
  apply H. by rewrite str_rev_length.
Qed.

(** A string with no white space at either end is left alone, and the result of
    [TrimSpace] is such a string. *)
Lemma trim_space_id s : leading_space s = false → trailing_space s = false → trim_space s = s.
Proof.
  intros Hl Ht. unfold trim_space, trim_left. rewrite trim_runes_id by done.
  unfold trim_right. by rewrite trim_runes_id, str_rev_involutive.
Qed.

Lemma trim_space_trimmed s :
  leading_space (trim_space s) = false ∧ trailing_space (trim_space s) = false.
Proof.
  split; [|apply trim_right_no_trailing].
  apply not_true_iff_false. intros H.
  destruct (trim_right_prefix (trim_left s)) as [r Hr].
  pose proof (trim_left_no_leading s) as Hl. rewrite Hr in Hl.
  unfold leading_space in Hl. by rewrite starts_space_app in Hl.
Qed.

Lemma trim_space_idem s : trim_space (trim_space s) = trim_space s.
Proof. destruct (trim_space_trimmed s). by apply trim_space_id. Qed.

(** Trimming keeps the slashes. *)
Lemma trim_runes_slash sp2 sp3 fuel s :
  (∀ a b, sp2 a b = true → a ≠ slash ∧ b ≠ slash) → (∀ a b c, sp3 a b c = true → a ≠ slash ∧ b ≠ slash ∧ c ≠ slash) →
  str_elem slash (trim_runes sp2 sp3 fuel s) = str_elem slash s.
Proof.
  intros H2 H3. revert s. induction fuel as [|f IH]; intros s; [done|]. cbn [trim_runes].
  destruct s as [|a s]; [done|]. destruct (ascii_space a) eqn:Ha.
  { rewrite IH. cbn [str_elem]. rewrite bool_decide_eq_false_2; [done|]. by intros ->. }
  destruct s as [|b s]; [done|]. destruct (sp2 a b) eqn:Hab.
  { destruct (H2 _ _ Hab). rewrite IH. cbn [str_elem]. by rewrite !bool_decide_eq_false_2. }
  destruct s as [|c s]; [done|]. destruct (sp3 a b c) eqn:Habc; [|done].
  destruct (H3 _ _ _ Habc) as (? & ? & ?). rewrite IH. cbn [str_elem]. by rewrite !bool_decide_eq_false_2.
Qed.

Lemma str_elem_rev c s : str_elem c (String.rev s) = str_elem c s.
Proof.
  induction s as [|d s IH]; [done|]. rewrite str_rev_cons, str_elem_app, IH. simpl. by rewrite orb_false_r, orb_comm.
Qed.

Lemma trim_space_slash s : str_elem slash (trim_space s) = str_elem slash s.
Proof.
  assert (H2 : ∀ a b, space2 a b = true → a ≠ slash ∧ b ≠ slash).
  { unfold space2. intros a b [Ha Hb]%andb_true_iff. split; intros ->; [discriminate Ha|discriminate Hb]. }
  assert (H3 : ∀ a b c, space3 a b c = true → a ≠ slash ∧ b ≠ slash ∧ c ≠ slash).
  { unfold space3. intros a b c Hs. rewrite !orb_true_iff, !andb_true_iff, !orb_true_iff, !bool_decide_eq_true in Hs.
    split_and!; intros ->; repeat match goal with H : _ ∨ _ |- _ => destruct H | H : _ ∧ _ |- _ => destruct H end; discriminate. }
  unfold trim_space, trim_right, trim_left. rewrite str_elem_rev, trim_runes_slash, str_elem_rev, trim_runes_slash; naive_solver.
Qed.

Lemma trim_space_abs p : is_abs p = true → trim_space p ≠ "".
Proof.
  intros [r ->]%has_prefix_spec He. pose proof (trim_space_slash ("/" +:+ r)) as Hs. by rewrite He in Hs.
Qed.
