(* ===== verification/GoMatch.v ===== *)
(** * UTF-8 and [path.Match] of Go's standard library

    [utf8.DecodeRuneInString] and the matching of shell patterns, as the
    environment's allowlist uses them (pkg/ptyhost/policy.go).  The loops that
    decode runes carry fuel; [path_match_total] shows that it is enough. *)
From S2P Require Import Prelude GoPath PathFacts.
From stdpp Require Import options.

(** ** [unicode/utf8] *)

Definition RuneError : N := 65533.

(** A continuation byte, or a second byte restricted to [lo..hi]. *)
Definition between (lo hi : N) (c : ascii) : bool := ((lo <=? N_of_ascii c) && (N_of_ascii c <=? hi))%N.
Definition low6 (c : ascii) : N := N.land (N_of_ascii c) 63.

(** The range of the second byte, given the first. *)
Definition second_range (b0 : N) : N * N :=
  if (b0 =? 224)%N then (160, 191)%N else if (b0 =? 237)%N then (128, 159)%N
  else if (b0 =? 240)%N then (144, 191)%N else if (b0 =? 244)%N then (128, 143)%N else (128, 191)%N.

(** [utf8.DecodeRuneInString]: the rune and its width. *)
Definition decode_rune (s : string) : N * nat :=
  match s with
  | EmptyString => (RuneError, 0)
  | String c0 s1 =>
    let b0 := N_of_ascii c0 in
    let '(lo, hi) := second_range b0 in
    if (b0 <? 128)%N then (b0, 1)
    else match s1 with
    | String c1 s2 =>
      if negb (between lo hi c1) then (RuneError, 1)
      else if between 194 223 c0 then (N.lor (N.shiftl (N.land b0 31) 6) (low6 c1), 2)
      else match s2 with
      | String c2 s3 =>
        if negb (between 128 191 c2) then (RuneError, 1)
        else if between 224 239 c0
        then (N.lor (N.shiftl (N.land b0 15) 12) (N.lor (N.shiftl (low6 c1) 6) (low6 c2)), 3)
        else match s3 with
        | String c3 _ =>
          if between 128 191 c3 && between 240 244 c0
          then (N.lor (N.shiftl (N.land b0 7) 18)
                  (N.lor (N.shiftl (low6 c1) 12) (N.lor (N.shiftl (low6 c2) 6) (low6 c3))), 4)
          else (RuneError, 1)
        | EmptyString => (RuneError, 1)
        end
      | EmptyString => (RuneError, 1)
      end
    | EmptyString => (RuneError, 1)
    end
  end.

(** The runes of a string, as [for _, r := range s] visits them. *)
Fixpoint runes_from (fuel : nat) (s : string) : list N :=
  match fuel, s with
  | S f, String _ _ => let '(r, n) := decode_rune s in r :: runes_from f (str_drop n s)
  | _, _ => []
  end.
Definition runes (s : string) : list N := runes_from (String.length s) s.

(** ** [path.Match] *)

Fixpoint strip_stars (p : string) : bool * string :=
  match p with
  | String c p' => if decide (c = "*"%char) then (true, (strip_stars p').2) else (false, p)
  | EmptyString => (false, "")
  end.

(** The chunk that ends before the next star outside a class, and the rest. *)
Fixpoint scan_chunk (inrange : bool) (p : string) : string * string :=
  match p with
  | EmptyString => ("", "")
  | String c p' =>
    if decide (c = bslash) then
      match p' with
      | EmptyString => (p, "")
      | String d p'' => let '(a, b) := scan_chunk inrange p'' in (String c (String d a), b)
      end
    else if bool_decide (c = "*"%char) && negb inrange then ("", p)
    else
      let inrange := if decide (c = "["%char) then true else if decide (c = "]"%char) then false else inrange in
      let '(a, b) := scan_chunk inrange p' in (String c a, b)
  end.

Definition scanChunk (pattern : string) : bool * string * string :=
  let '(star, p) := strip_stars pattern in
  let '(chunk, rest) := scan_chunk false p in (star, chunk, rest).

(** [None] is [ErrBadPattern]. *)
Definition getEsc (chunk : string) : option (N * string) :=
  match chunk with
  | EmptyString => None
  | String c chunk' =>
    if bool_decide (c = "-"%char) || bool_decide (c = "]"%char) then None
    else
      let chunk := if decide (c = bslash) then chunk' else chunk in
      if decide (chunk = "") then None
      else
        let '(r, n) := decode_rune chunk in
        if (r =? RuneError)%N && (n =? 1) then None
        else let nchunk := str_drop n chunk in if decide (nchunk = "") then None else Some (r, nchunk)
  end.

Inductive match_result (A : Type) : Type :=
  | Matched (a : A)
  | NoMatch
  | BadPattern.
Arguments Matched {A} a.
Arguments NoMatch {A}.
Arguments BadPattern {A}.

(** The loop over the ranges of a class: whether [r] is in one of them, and the
    chunk after the class.  The outer [None] is the end of the fuel. *)
Fixpoint match_class (fuel : nat) (chunk : string) (r : N) (first found : bool) : option (match_result (bool * string)) :=
  match fuel with
  | 0 => None
  | S f =>
    if has_prefix "]" chunk && negb first then Some (Matched (found, str_drop 1 chunk))
    else
      match getEsc chunk with
      | None => Some BadPattern
      | Some (lo, chunk) =>
        if has_prefix "-" chunk then
          match getEsc (str_drop 1 chunk) with
          | None => Some BadPattern
          | Some (hi, chunk) => match_class f chunk r false (found || ((lo <=? r) && (r <=? hi))%N)
          end
        else match_class f chunk r false (found || (lo =? r)%N)
      end
  end.

Definition head_is (c : ascii) (s : string) : bool := match s with String a _ => bool_decide (a = c) | _ => false end.

(** [matchChunk]; once [failed] it only checks the syntax. *)
Fixpoint match_chunk (fuel : nat) (chunk s : string) (failed : bool) : option (match_result string) :=
  match fuel with
  | 0 => None
  | S f =>
    match chunk with
    | EmptyString => Some (if failed then NoMatch else Matched s)
    | String c chunk' =>
      let failed := failed || bool_decide (s = "") in
      if decide (c = "["%char) then
        let '(r, s) := if failed then (0%N, s) else let '(r, n) := decode_rune s in (r, str_drop n s) in
        let negated := has_prefix "^" chunk' in
        let chunk' := if negated then str_drop 1 chunk' else chunk' in
        res ← match_class (S (String.length chunk')) chunk' r true false;
        match res with
        | Matched (found, chunk') => match_chunk f chunk' s (failed || Bool.eqb found negated)
        | _ => Some BadPattern
        end
      else if decide (c = "?"%char) then
        match_chunk f chunk' (if failed then s else str_drop (decode_rune s).2 s) (failed || head_is slash s)
      else
        let literal c chunk' := match_chunk f chunk' (if failed then s else str_drop 1 s) (failed || negb (head_is c s)) in
        if decide (c = bslash) then
          match chunk' with EmptyString => Some BadPattern | String c chunk' => literal c chunk' end
        else literal c chunk'
    end
  end.
Definition matchChunk (chunk s : string) : option (match_result string) := match_chunk (S (String.length chunk)) chunk s false.

(** The loop that skips bytes of the name after a star. *)
Fixpoint skip_match (chunk : string) (last : bool) (name : string) : option (match_result string) :=
  match name with
  | EmptyString => Some NoMatch
  | String c name' =>
    if decide (c = slash) then Some NoMatch
    else
      res ← matchChunk chunk name';
      match res with
      | Matched t => if last && bool_decide (t ≠ "") then skip_match chunk last name' else Some (Matched t)
      | BadPattern => Some BadPattern
      | NoMatch => skip_match chunk last name'
      end
  end.

(** [matched && err == nil] of [path.Match(pattern, name)]: the check that the
    rest of a pattern that does not match is well formed only tells [false]
    without an error from [false] with one. *)
Fixpoint match_from (fuel : nat) (pattern name : string) : option bool :=
  match fuel with
  | 0 => None
  | S f =>
    if decide (pattern = "") then Some (bool_decide (name = ""))
    else
      let '(star, chunk, rest) := scanChunk pattern in
      if star && bool_decide (chunk = "") then Some (negb (str_elem slash name))
      else
        let last := bool_decide (rest = "") in
        res ← matchChunk chunk name;
        let skip := if star : bool then
            res ← skip_match chunk last name;
            match res with Matched t => match_from f rest t | _ => Some false end
          else Some false in
        match res with
        | Matched t => if bool_decide (t = "") || negb last then match_from f rest t else skip
        | NoMatch => skip
        | BadPattern => Some false
        end
  end.
Definition path_match (pattern name : string) : option bool := match_from (S (String.length pattern)) pattern name.

Example match_prefix : path_match "LC_*" "LC_ALL" = Some true. Proof. reflexivity. Qed.
Example match_class_1 : path_match "A[B-D^]?" "ACx" = Some true. Proof. reflexivity. Qed.
Example match_class_2 : path_match "A[^B-D]" "AC" = Some false. Proof. reflexivity. Qed.
Example match_escape : path_match "A\*" "A*" = Some true. Proof. reflexivity. Qed.
Example match_stars : path_match "*A*B" "xxAxxAB" = Some true. Proof. reflexivity. Qed.
Example match_slash : path_match "A*" "A/B" = Some false. Proof. reflexivity. Qed.
Example match_bad : path_match "A[" "A[" = Some false. Proof. reflexivity. Qed.

(** ** The fuel is enough *)

#[local] Arguments str_drop : simpl never.
#[local] Arguments decode_rune : simpl never.
#[local] Arguments has_prefix : simpl never.

Lemma str_drop_length n s : String.length (str_drop n s) = String.length s - n.
Proof. revert s. induction n as [|n IH]; intros [|c s]; cbn [str_drop String.length]; try done; apply IH. Qed.

Lemma decode_rune_width c s : 1 ≤ (decode_rune (String c s)).2.
Proof. unfold decode_rune. destruct (second_range _). repeat case_match; simpl; lia. Qed.

Lemma drop_rune_length s : s ≠ "" → String.length (str_drop (decode_rune s).2 s) < String.length s.
Proof. destruct s as [|c s]; [done|]. intros _. rewrite str_drop_length. pose proof (decode_rune_width c s). cbn [String.length]. lia. Qed.

Lemma getEsc_length chunk r chunk' : getEsc chunk = Some (r, chunk') → String.length chunk' < String.length chunk.
Proof.
  unfold getEsc. destruct chunk as [|c chunk]; [done|]. destruct (_ || _); [done|].
  set (u := if decide (c = bslash) then chunk else String c chunk).
  assert (String.length u ≤ S (String.length chunk)) as Hu by (subst u; case_decide; simpl; lia).
  case_decide as Hne; [done|]. pose proof (drop_rune_length u Hne) as Hd.
  destruct (decode_rune u) as [r' n]. destruct (_ && _); [done|]. case_decide; [done|]. intros [= -> <-]. simpl in *. lia.
Qed.

Definition shorter (n : nat) (res : option (match_result (bool * string))) : Prop :=
  match res with
  | None => False
  | Some (Matched (_, chunk)) => String.length chunk < n
  | Some _ => True
  end.

Lemma shorter_mono n n' res : n ≤ n' → shorter n res → shorter n' res.
Proof. destruct res as [[[found chunk]| |]|]; simpl; try done. lia. Qed.

Lemma match_class_total fuel chunk r first found :
  String.length chunk < fuel → shorter (S (String.length chunk)) (match_class fuel chunk r first found).
Proof.
  revert chunk first found. induction fuel as [|f IH]; intros chunk first found Hf; [lia|]. simpl.
  destruct (has_prefix "]" chunk && negb first); [cbn [shorter]; rewrite str_drop_length; lia|].
  destruct (getEsc chunk) as [[lo chunk1]|] eqn:He; [|done]. apply getEsc_length in He.
  destruct (has_prefix "-" chunk1).
  - destruct (getEsc (str_drop 1 chunk1)) as [[hi chunk2]|] eqn:He2; [|done]. apply getEsc_length in He2.
    rewrite str_drop_length in He2. eapply shorter_mono; [|apply IH]; lia.
  - eapply shorter_mono; [|apply IH]; lia.
Qed.

Lemma match_chunk_total fuel chunk s failed : String.length chunk < fuel → is_Some (match_chunk fuel chunk s failed).
Proof.
  revert chunk s failed. induction fuel as [|f IH]; intros chunk s failed Hf; [lia|].
  destruct chunk as [|c chunk]; [by eexists|]. cbn [String.length] in Hf. cbn [match_chunk].
  destruct (decide (c = "["%char)) as [->|].
  - set (chunk1 := if has_prefix "^" chunk then str_drop 1 chunk else chunk).
    assert (String.length chunk1 ≤ String.length chunk) by (subst chunk1; case_match; rewrite ?str_drop_length; lia).
    match goal with |- context [if ?b then (0%N, s) else ?p] => destruct (if b then (0%N, s) else p) as [r s'] end.
    pose proof (match_class_total (S (String.length chunk1)) chunk1 r true false ltac:(lia)) as Hc.
    destruct (match_class _ _ _ _ _) as [[[found chunk2]| |]|]; simpl in *; [|by eexists..|done].
    apply IH. lia.
  - case_decide; [apply IH; lia|]. case_decide; [destruct chunk; [by eexists|]|]; apply IH; simpl in *; lia.
Qed.

Lemma skip_match_total chunk last name : is_Some (skip_match chunk last name).
Proof.
  induction name as [|c name IH]; simpl; [by eexists|]. case_decide; [by eexists|].
  destruct (match_chunk_total (S (String.length chunk)) chunk name false ltac:(lia)) as [res Hres].
  unfold matchChunk. rewrite Hres. simpl. destruct res; [case_match|..]; (done || by eexists).
Qed.

Lemma scan_chunk_length inrange p :
  String.length (scan_chunk inrange p).1 + String.length (scan_chunk inrange p).2 = String.length p.
Proof.
  revert inrange p. fix IH 2. intros inrange [|c p]; [done|]. simpl.
  destruct (decide (c = bslash)).
  - destruct p as [|d p]; [done|]. specialize (IH inrange p). destruct (scan_chunk inrange p). simpl in *. lia.
  - destruct (_ && _); [done|]. set (i := if decide (c = "["%char) then _ else _). clearbody i.
    specialize (IH i p). destruct (scan_chunk i p). simpl in *. lia.
Qed.

Lemma strip_stars_length p :
  String.length (strip_stars p).2 ≤ String.length p ∧
  ((strip_stars p).1 = true → String.length (strip_stars p).2 < String.length p) ∧
  ((strip_stars p).1 = false → (strip_stars p).2 = p ∧ head_is "*" p = false).
Proof.
  induction p as [|c p (IH & _ & _)]; [done|]. simpl. case_decide; simpl; [split_and!; [lia|intros _; lia|done]|].
  split_and!; [done..|]. intros _. split; [done|]. by apply bool_decide_eq_false_2.
Qed.

Lemma scanChunk_length pattern : pattern ≠ "" → String.length (scanChunk pattern).2 < String.length pattern.
Proof.
  intros Hne. unfold scanChunk. destruct (strip_stars_length pattern) as (Hle & Hlt & Heq).
  destruct (strip_stars pattern) as [star p]. cbn [fst snd] in *. pose proof (scan_chunk_length false p) as Hs.
  destruct (scan_chunk false p) as [chunk rest] eqn:Hc. cbn [fst snd] in *. destruct star; [specialize (Hlt eq_refl); lia|].
  destruct (Heq eq_refl) as [-> Hh]. destruct pattern as [|c p']; [done|]. simpl in Hc, Hh.
  destruct (decide (c = bslash)).
  - destruct p' as [|d p'']; [by simplify_eq; simpl; lia|]. destruct (scan_chunk false p''). simplify_eq/=. lia.
  - rewrite Hh in Hc. simpl in Hc. destruct (scan_chunk _ p'). simplify_eq/=. lia.
Qed.

(** Matching always answers. *)
Lemma path_match_total pattern name : is_Some (path_match pattern name).
Proof.
  unfold path_match. generalize (Nat.lt_succ_diag_r (String.length pattern)). generalize (S (String.length pattern)).
  intros fuel. revert pattern name. induction fuel as [|f IH]; intros pattern name Hf; [lia|]. simpl.
  destruct (decide (pattern = "")) as [->|Hne]; [by eexists|]. pose proof (scanChunk_length pattern Hne) as Hs.
  destruct (scanChunk pattern) as [[star chunk] rest]. simpl in Hs. destruct (star && _); [by eexists|].
  destruct (match_chunk_total (S (String.length chunk)) chunk name false ltac:(lia)) as [res Hres].
  unfold matchChunk. rewrite Hres. cbn [mbind option_bind].
  destruct (skip_match_total chunk (bool_decide (rest = "")) name) as [sk Hsk]. rewrite Hsk.
  assert (Hrest : ∀ t, is_Some (match_from f rest t)) by (intros t; apply IH; lia).
  assert (Hskip : is_Some (if star then Some sk ≫= λ res, match res with Matched t => match_from f rest t | _ => Some false end
                           else Some false)) by (destruct star, sk; simpl; eauto).
  destruct res as [t| |]; [destruct (_ || _); [apply Hrest|done]|done|by eexists].
Qed.

(** ** A prefix followed by a star *)

Definition literal (s : string) : bool := negb (contains_any s "*?[\").

Lemma literal_cons c s :
  literal (String c s) = true ↔ (c ≠ "*"%char ∧ c ≠ "?"%char ∧ c ≠ "["%char ∧ c ≠ bslash) ∧ literal s = true.
Proof.
  unfold literal. cbn [contains_any]. rewrite negb_orb, andb_true_iff. apply and_iff_compat_r.
  simpl. rewrite orb_false_r, negb_true_iff, !orb_false_iff, !bool_decide_eq_false. unfold bslash.
  split; intros; destruct_and!; split_and!; congruence.
Qed.

Lemma match_chunk_literal fuel chunk s failed :
  literal chunk = true → String.length chunk < fuel →
  match_chunk fuel chunk s failed =
    Some (if negb failed && has_prefix chunk s then Matched (str_drop (String.length chunk) s) else NoMatch).
Proof.
  revert chunk s failed. induction fuel as [|f IH]; intros chunk s failed Hl Hf; [lia|].
  destruct chunk as [|c chunk]; [by destruct failed, s|]. apply literal_cons in Hl as [(?&?&?&?) Hl]. simpl in Hf. cbn [match_chunk].
  rewrite !decide_False by done. rewrite IH by (done || lia). destruct failed; [done|]. destruct s as [|d s]; [done|].
  simpl. unfold has_prefix. cbn [String.prefix]. destruct (ascii_dec c d) as [->|Hcd].
  - by rewrite bool_decide_eq_true_2.
  - rewrite (bool_decide_eq_false_2 (d = c)) by congruence. done.
Qed.

Lemma scan_chunk_literal p : literal p = true → scan_chunk false (p +:+ "*") = (p, "*").
Proof.
  induction p as [|c p IH]; [done|]. intros [(?&?&?&?) Hl]%literal_cons. rewrite str_app_cons. cbn [scan_chunk].
  rewrite decide_False by done. rewrite bool_decide_eq_false_2 by done. cbn [andb]. rewrite decide_False by done.
  replace (if decide (c = "]"%char) then false else false) with false by by case_decide. by rewrite IH.
Qed.

(** The pattern [p*] matches the names that start with [p] and have no slash
    after it. *)
Lemma path_match_prefix p name :
  literal p = true →
  path_match (p +:+ "*") name =
    Some (has_prefix p name && negb (str_elem slash (str_drop (String.length p) name))).
Proof.
  intros Hl. unfold path_match. destruct p as [|c p]; [by destruct name|].
  assert (Hs : scanChunk (String c p +:+ "*") = (false, String c p, "*")).
  { unfold scanChunk. pose proof Hl as Hl'. apply literal_cons in Hl' as [(?&_) _].
    pose proof (scan_chunk_literal _ Hl) as Hsc. rewrite str_app_cons in *. cbn [strip_stars].
    rewrite decide_False by done. by rewrite Hsc. }
  rewrite str_length_app. cbn [match_from]. destruct (decide _) as [[=]|_]. rewrite Hs. cbn [andb].
  unfold matchChunk. rewrite match_chunk_literal by (done || lia). cbn [mbind option_bind negb andb].
  destruct (has_prefix (String c p) name); [|done]. rewrite (bool_decide_eq_false_2 ("*" = "")) by done. cbn [negb]. rewrite orb_true_r.
  rewrite Nat.add_comm. done.
Qed.

(** ** ASCII bytes are runes *)

Lemma decode_rune_ascii c s d :
  str_elem d (String c s) = true → (N_of_ascii d < 128)%N →
  (decode_rune (String c s)).1 = N_of_ascii d ∨ str_elem d (str_drop (decode_rune (String c s)).2 (String c s)) = true.
Proof.
  intros Hd Hlt.
  assert (Hne : ∀ e, (N_of_ascii d < N_of_ascii e)%N → bool_decide (e = d) = false)
    by (intros e He; apply bool_decide_eq_false; intros ->; lia).
  assert (Hcont : ∀ lo hi e, (128 ≤ lo)%N → between lo hi e = true → bool_decide (e = d) = false)
    by (unfold between; intros lo hi e ? [?%N.leb_le _]%andb_true_iff; apply Hne; lia).
  assert (Hlo : (128 ≤ (second_range (N_of_ascii c)).1)%N) by (unfold second_range; repeat case_match; simpl; lia).
  simpl in Hd. unfold decode_rune. destruct (second_range (N_of_ascii c)) as [lo hi]. simpl in Hlo.
  destruct (N.ltb_spec (N_of_ascii c) 128) as [Hc|Hc].
  { apply orb_true_iff in Hd as [->%bool_decide_eq_true|?]; [by left|by right]. }
  rewrite Hne in Hd by lia. simpl in Hd. right. destruct s as [|c1 s]; [done|].
  destruct (between lo hi c1) eqn:H1; [|done]. cbn [negb]. pose proof (Hcont _ _ _ Hlo H1) as E1.
  destruct (between 194 223 c); [simpl in Hd; by rewrite E1 in Hd|]. destruct s as [|c2 s]; [done|].
  destruct (between 128 191 c2) eqn:H2; [|done]. pose proof (Hcont _ _ _ (reflexivity _) H2) as E2. cbn [negb].
  destruct (between 224 239 c); [simpl in Hd; by rewrite E1, E2 in Hd|]. destruct s as [|c3 s]; [done|].
  destruct (between 128 191 c3) eqn:H3; [|done]. pose proof (Hcont _ _ _ (reflexivity _) H3) as E3.
  destruct (between 240 244 c); [|done]. simpl in Hd |- *. by rewrite E1, E2, E3 in Hd.
Qed.

(** Every byte below 0x80 is a rune of the string. *)
Lemma runes_ascii s d : str_elem d s = true → (N_of_ascii d < 128)%N → N_of_ascii d ∈ runes s.
Proof.
  unfold runes. assert (Hf : String.length s ≤ String.length s) by done. revert Hf. generalize (String.length s) at 2 3.
  intros fuel. revert s. induction fuel as [|f IH]; intros [|c s] Hf Hd Hlt; try done; [simpl in Hf; lia|].
  cbn [runes_from]. destruct (decode_rune_ascii c s d Hd Hlt) as [Hr|Hr]; pose proof (drop_rune_length (String c s)) as Hl;
    destruct (decode_rune (String c s)) as [r n]; simpl in Hr; [subst; left|right].
  apply IH; [|done..]. specialize (Hl ltac:(done)). simpl in Hl, Hf. lia.
Qed.
