(* ===== verification/Safepath.v ===== *)
(** * Workspace path validation (pkg/safepath/safepath.go)

    [Clean], [Join], [IsWithin] and [CleanSegment] with their error values. *)
From S2P Require Import Prelude GoPath PathFacts.
From stdpp Require Import options.

Inductive error : Type :=
  | ErrEmptyPath
  | ErrAbsoluteRel
  | ErrEscape
  | ErrBaseNotAbs
  | ErrUnsafeSegment.

#[export] Instance error_eq_dec : EqDecision error.
Proof. solve_decision. Defined.

(** ** Operations *)

Definition ToSlash (p : string) : string := replace_byte bslash slash p.

(** [filepath.FromSlash] is the identity on Unix. *)
Definition FromSlash (p : string) : string := p.

Definition Clean (p : string) : result error string :=
  if decide (p = "") then Err ErrEmptyPath
  else
    let p := ToSlash p in
    let cleaned := path_clean p in
    if bool_decide (cleaned = "..") || has_prefix "../" cleaned then Err ErrEscape
    else
      let cleaned := trim_prefix "/" cleaned in
      if decide (cleaned = ".") then Ok "" else Ok cleaned.

Definition isDriveLetter (b : ascii) : bool := byte_in "a" "z" b || byte_in "A" "Z" b.

Definition isAbsLike (p : string) : bool :=
  if decide (p = "") then false
  else if has_prefix "/" p || has_prefix "\" p then true
  else match p with
       | String c0 (String c1 (String c2 _)) =>
         isDriveLetter c0 && bool_decide (c1 = ":"%char)
           && (bool_decide (c2 = slash) || bool_decide (c2 = bslash))
       | _ => false
       end.

Definition IsWithin (base target : string) : result error bool :=
  if bool_decide (base = "") || bool_decide (target = "") then Err ErrEmptyPath
  else if negb (is_abs base) || negb (is_abs target) then Err ErrBaseNotAbs
  else
    let cleanBase := path_clean base in
    let cleanTarget := path_clean target in
    if decide (cleanBase = cleanTarget) then Ok true
    else
      match filepath_rel cleanBase cleanTarget with
      | Err _ => Ok false
      | Ok rel =>
        if bool_decide (rel = "..") || has_prefix "../" rel then Ok false else Ok true
      end.

Definition Join (base rel : string) : result error string :=
  if decide (base = "") then Err ErrEmptyPath
  else if negb (is_abs base) then Err ErrBaseNotAbs
  else if isAbsLike rel then Err ErrAbsoluteRel
  else
    cleanedRel ← Clean rel;
    if decide (cleanedRel = "") then Ok (path_clean base)
    else
      let joined := filepath_join [base; FromSlash cleanedRel] in
      within ← IsWithin base joined;
      if within : bool then Ok joined else Err ErrEscape.

(** [for _, r := range trimmed { if r < 0x20 || r == 0x7f ... }]: a rune below
    0x80 is a single byte, and every byte below 0x80 is such a rune. *)
Fixpoint has_control (s : string) : bool :=
  match s with
  | EmptyString => false
  | String c s' =>
    (N_of_ascii c <? 32)%N || (N_of_ascii c =? 127)%N || has_control s'
  end.

Definition CleanSegment (name : string) : result error string :=
  let trimmed := trim_space name in
  if decide (trimmed = "") then Err ErrUnsafeSegment
  else if contains_any trimmed "/\" then Err ErrUnsafeSegment
  else if has_control trimmed then Err ErrUnsafeSegment
  else
    match Clean trimmed with
    | Ok cleaned => if decide (cleaned = trimmed) then Ok cleaned else Err ErrUnsafeSegment
    | Err _ => Err ErrUnsafeSegment
    end.

(** ** Specifications *)

(** Whether a relative walk over the elements goes above its start. *)
Fixpoint escapes (depth : nat) (segs : list string) : bool :=
  match segs with
  | [] => false
  | s :: segs' =>
    if decide (s = "" ∨ s = ".") then escapes depth segs'
    else if decide (s = "..") then
      match depth with 0 => true | S d => escapes d segs' end
    else escapes (S depth) segs'
  end.

(** A name that is one safe path element. *)
Definition safe_segment (s : string) : Prop :=
  good_seg s ∧ str_elem bslash s = false ∧ has_control s = false ∧
  leading_space s = false ∧ trailing_space s = false.

(** ** Lemmas *)

Lemma ToSlash_no_bslash p : str_elem bslash (ToSlash p) = false.
Proof.
  induction p as [|c p IH]; simpl; [done|].
  rewrite orb_false_iff, bool_decide_eq_false. split; [|done].
  by case_decide; subst.
Qed.

Lemma ToSlash_id p : str_elem bslash p = false → ToSlash p = p.
Proof.
  unfold ToSlash. induction p as [|c p IH]; simpl; [done|].
  intros [Hc Hp]%orb_false_elim. apply bool_decide_eq_false in Hc.
  rewrite decide_False by done. f_equal. by apply IH.
Qed.

Lemma ToSlash_idem p : ToSlash (ToSlash p) = ToSlash p.
Proof. apply ToSlash_id, ToSlash_no_bslash. Qed.

Lemma ToSlash_nil p : ToSlash p = "" ↔ p = "".
Proof. by destruct p. Qed.

Lemma str_elem_join c l :
  c ≠ slash → str_elem c (join_slash l) = existsb (str_elem c) l.
Proof.
  intros Hc. induction l as [|x l IH]; [done|].
  destruct (decide (l = [])) as [->|Hne]; [by simpl; rewrite orb_false_r|].
  rewrite join_slash_cons by done. rewrite !str_elem_app, IH. simpl.
  by rewrite bool_decide_eq_false_2 by done.
Qed.

(** The elements [Clean] works with. *)
Definition clean_elems (p : string) : list string :=
  resolve (is_abs (ToSlash p)) [] (split_slash (ToSlash p)).

Lemma clean_elems_split p :
  ∃ n g, clean_elems p = replicate n ".." ++ g ∧ Forall good_seg g.
Proof.
  destruct (proj1 (ok_stack_split _ _)
    (resolve_ok (is_abs (ToSlash p)) [] (split_slash (ToSlash p))
       (ok_stack_nil _) (split_slash_no_slash _))) as (n & g & Heq & Hg & _).
  exists n, (reverse g). split; [|by apply Forall_reverse].
  rewrite <-reverse_replicate, <-reverse_app, <-Heq. by rewrite reverse_involutive.
Qed.

(** The elements are good unless the first one is [..]. *)
Lemma clean_elems_good p :
  head (clean_elems p) ≠ Some ".." → Forall good_seg (clean_elems p).
Proof. destruct (clean_elems_split p) as ([|n] & g & -> & Hg); done. Qed.

Lemma clean_elems_head_abs p : is_abs (ToSlash p) = true → head (clean_elems p) ≠ Some "..".
Proof.
  intros H. unfold clean_elems. rewrite H.
  pose proof (abs_elems_good (ToSlash p)) as Hg. fold (abs_elems (ToSlash p)).
  by destruct Hg as [|? ? (?&?&?&?)]; intros ?; simplify_eq/=.
Qed.

Lemma clean_elems_no_slash p : Forall (λ x, no_slash x) (clean_elems p).
Proof.
  destruct (clean_elems_split p) as (n & g & -> & Hg).
  apply Forall_app. split; [by apply Forall_replicate|by auto with go].
Qed.

Lemma trim_prefix_join l : Forall good_seg l → trim_prefix "/" (join_slash l) = join_slash l.
Proof.
  intros Hl. apply trim_prefix_other. apply not_true_iff_false.
  intros [r Hr]%has_prefix_spec. pose proof (f_equal split_slash Hr) as Hs.
  destruct (decide (l = [])) as [->|Hne]; [done|].
  rewrite split_join in Hs by auto with go.
  destruct Hl as [|x l (Hx&_)]; [done|]. rewrite slash_app in Hs. simpl in Hs. congruence.
Qed.

Lemma join_slash_dot l : Forall good_seg l → join_slash l ≠ ".".
Proof.
  intros Hl Heq. pose proof (f_equal split_slash Heq) as Hs.
  destruct (decide (l = [])) as [->|Hne]; [done|].
  rewrite split_join in Hs by auto with go. subst l.
  by decompose_Forall_hyps; unfold good_seg in *; naive_solver.
Qed.

(** [Clean] in terms of the elements: it fails when they start with [..], and
    otherwise joins them. *)
Lemma Clean_elems p :
  p ≠ "" →
  Clean p = if decide (head (clean_elems p) = Some "..") then Err ErrEscape
            else Ok (join_slash (clean_elems p)).
Proof.
  intros Hp. unfold Clean. rewrite decide_False by done. cbv zeta.
  assert (Hq : ToSlash p ≠ "") by by rewrite ToSlash_nil.
  unfold path_clean. rewrite decide_False by done. fold (is_abs (ToSlash p)).
  fold (clean_elems p). fold (climbs (join_slash (clean_elems p))).
  destruct (is_abs (ToSlash p)) eqn:Habs.
  - pose proof (clean_elems_head_abs p Habs) as Hh.
    pose proof (clean_elems_good p Hh) as Hg.
    rewrite (decide_False (P := head _ = _)) by done.
    rewrite trim_prefix_app, decide_False by by apply join_slash_dot.
    by rewrite slash_app, bool_decide_eq_false_2.
  - destruct (decide (head (clean_elems p) = Some "..")) as [Hh|Hh].
    + assert (Hc : climbs (join_slash (clean_elems p)) = true).
      { apply climbs_join; [apply clean_elems_no_slash|done]. }
      rewrite decide_False by (intros E; by rewrite E in Hc).
      unfold climbs in Hc. by rewrite Hc.
    + pose proof (clean_elems_good p Hh) as Hg.
      pose proof (climbs_join_good _ Hg) as Hc. unfold climbs in Hc.
      destruct (decide (join_slash (clean_elems p) = "")) as [->|_]; [done|].
      rewrite Hc, trim_prefix_join by done. by rewrite decide_False by by apply join_slash_dot.
Qed.

Lemma resolve_escapes st n segs :
  Forall good_seg st → Forall (λ x, no_slash x) segs →
  (head (resolve false (st ++ replicate n "..") segs) = Some "..") ↔
  (0 < n ∨ escapes (length st) segs = true).
Proof.
  intros Hst Hsegs. revert st n Hst.
  induction Hsegs as [|s segs Hs _ IH]; intros st n Hst; simpl.
  { rewrite reverse_app, reverse_replicate. destruct n; simpl; [|naive_solver lia].
    apply Forall_reverse in Hst. destruct Hst as [|x l (?&?&?&?)]; simpl; naive_solver lia. }
  destruct (decide (s = "")) as [->|Hs1]; [by rewrite decide_True by auto; apply IH|].
  destruct (decide (s = ".")) as [->|Hs2]; [by rewrite decide_True by auto; apply IH|].
  rewrite (decide_False (P := s = "" ∨ s = ".")) by naive_solver.
  destruct (decide (s = "..")) as [->|Hs3]; [|by apply (IH (s :: st)); constructor].
  destruct Hst as [|x st (_&_&Hx&_) Hst]; simpl.
  - destruct n as [|n]; simpl.
    + rewrite (IH [] 1) by done. naive_solver lia.
    + rewrite (IH [] (S (S n))) by done. naive_solver lia.
  - rewrite decide_False by done. by apply IH.
Qed.

Lemma isAbsLike_false p : isAbsLike p = false → is_abs (ToSlash p) = false.
Proof.
  unfold isAbsLike, is_abs. destruct p as [|c p]; [done|].
  rewrite decide_False by done. change (ToSlash (String c p)) with
    (String (if decide (c = bslash) then slash else c) (ToSlash p)).
  rewrite !has_prefix_1. repeat case_bool_decide; simpl; try done.
  case_decide; naive_solver.
Qed.

Lemma IsWithin_elems base target :
  is_abs base = true → is_abs target = true →
  IsWithin base target = Ok (bool_decide (abs_elems base `prefix_of` abs_elems target)).
Proof.
  intros Hb Ht. unfold IsWithin.
  rewrite !bool_decide_eq_false_2, Hb, Ht by by apply is_abs_not_empty. simpl.
  case_decide as Heq.
  { apply path_clean_abs_inj in Heq; [|done..]. by rewrite bool_decide_eq_true_2 by by rewrite Heq. }
  rewrite path_clean_abs_inj in Heq by done.
  destruct (strip_common (abs_elems base) (abs_elems target)) as [b t] eqn:Hs.
  rewrite (filepath_rel_abs _ _ b t) by (rewrite ?abs_elems_clean; auto using is_abs_clean).
  rewrite decide_False by by rewrite !abs_elems_clean by done.
  destruct (strip_common_spec _ _ _ _ Hs) as (c & Hbc & Htc & Hne).
  pose proof (abs_elems_good target) as Hg. rewrite Htc in Hg.
  apply Forall_app in Hg as [Hgc Hgt].
  fold (climbs (join_slash (replicate (length b) ".." ++ t))).
  destruct b as [|x b].
  - rewrite climbs_join_good by done. rewrite bool_decide_eq_true_2; [done|].
    rewrite Hbc, Htc, app_nil_r. by apply prefix_app_r.
  - assert (climbs (join_slash (replicate (length (x :: b)) ".." ++ t)) = true) as ->.
    { apply climbs_join; [|done]. apply Forall_app. split; [by apply Forall_replicate|].
      auto with go. }
    rewrite bool_decide_eq_false_2; [done|].
    rewrite Hbc, Htc. intros (k & Hk). rewrite <-app_assoc in Hk.
    apply (inj (app c)) in Hk. simpl in Hk. by eapply Hne.
Qed.

Lemma Clean_Ok_elems p r :
  Clean p = Ok r → p ≠ "" ∧ r = join_slash (clean_elems p) ∧ Forall good_seg (clean_elems p).
Proof.
  destruct (decide (p = "")) as [->|Hp]; [done|].
  rewrite Clean_elems by done. case_decide; [done|].
  intros [= <-]. auto using clean_elems_good.
Qed.

Lemma replace_byte_join a b l :
  a ≠ slash → replace_byte a b (join_slash l) = join_slash (map (replace_byte a b) l).
Proof.
  intros Ha. assert (Happ : ∀ s t, replace_byte a b (s +:+ t) = replace_byte a b s +:+ replace_byte a b t).
  { intros s t. induction s as [|c s IH]; [done|]. rewrite !str_app_cons. simpl. by rewrite IH. }
  induction l as [|x l IH]; [done|].
  destruct (decide (l = [])) as [->|Hne]; [done|]. simpl map.
  rewrite !join_slash_cons, !Happ, IH by (done || by destruct l).
  change (replace_byte a b "/") with (String (if decide (slash = a) then b else slash) "").
  by rewrite decide_False.
Qed.

Lemma str_elem_split_slash c s :
  str_elem c s = false → Forall (λ x, str_elem c x = false) (split_slash s).
Proof.
  induction s as [|d s IH]; simpl; [by repeat constructor|].
  intros [Hd Hs]%orb_false_elim. apply IH in Hs.
  destruct (decide (d = slash)); [by constructor|]. destruct (split_slash s); decompose_Forall_hyps.
  - repeat constructor. simpl. by rewrite Hd.
  - constructor; [|done]. simpl. by rewrite Hd.
Qed.

Lemma Forall_resolve (P : string → Prop) rooted st segs :
  P ".." → Forall P st → Forall P segs → Forall P (resolve rooted st segs).
Proof.
  intros Hup Hst Hsegs. revert st Hst.
  induction Hsegs as [|s segs Hs _ IH]; intros st Hst; simpl; [by apply Forall_reverse|].
  repeat case_decide; auto. destruct Hst; [destruct rooted; auto|case_decide; auto].
Qed.

Lemma clean_elems_no_bslash p : str_elem bslash (join_slash (clean_elems p)) = false.
Proof.
  rewrite str_elem_join by done. apply not_true_iff_false. rewrite existsb_exists.
  intros (x & Hx & Hb). assert (Forall (λ x, str_elem bslash x = false) (clean_elems p)) as HF.
  { apply Forall_resolve; [done..|]. apply str_elem_split_slash, ToSlash_no_bslash. }
  rewrite Forall_forall in HF. rewrite HF in Hb; [done|]. by apply list_elem_of_In.
Qed.

Lemma Clean_join l :
  Forall good_seg l → str_elem bslash (join_slash l) = false → l ≠ [] →
  Clean (join_slash l) = Ok (join_slash l).
Proof.
  intros Hl Hb Hne.
  assert (Hnil : join_slash l ≠ "") by (intros ?%join_slash_nil; auto with go).
  rewrite Clean_elems by done.
  assert (clean_elems (join_slash l) = l) as ->.
  { unfold clean_elems. rewrite ToSlash_id, split_join by auto with go.
    apply resolve_clean. apply Forall_reverse in Hl.
    apply ok_stack_split. exists 0, (reverse l). by rewrite app_nil_r. }
  rewrite decide_False; [done|]. destruct Hl as [|x ? (?&?&?&?)]; naive_solver.
Qed.

Lemma clean_elems_escapes p :
  is_abs (ToSlash p) = false →
  head (clean_elems p) = Some ".." ↔ escapes 0 (split_slash (ToSlash p)) = true.
Proof.
  intros Habs. unfold clean_elems. rewrite Habs.
  rewrite (resolve_escapes [] 0) by auto with go. naive_solver lia.
Qed.

Lemma Join_elems base rel :
  is_abs base = true → isAbsLike rel = false →
  Join base rel =
    cleanedRel ← Clean rel;
    Ok (if decide (cleanedRel = "") then path_clean base
        else filepath_join [base; cleanedRel]).
Proof.
  intros Hb Hr. unfold Join. rewrite decide_False by by apply is_abs_not_empty.
  rewrite Hb, Hr. simpl. destruct (Clean rel) as [c|] eqn:Hc; [simpl|done].
  apply Clean_Ok_elems in Hc as (_ & -> & Hg). case_decide; [done|].
  destruct (filepath_join_elems base (clean_elems rel) Hb Hg) as (Habs & Hel & _).
  unfold FromSlash. simpl in Habs, Hel.
  rewrite IsWithin_elems by done. rewrite Hel. simpl.
  by rewrite bool_decide_eq_true_2 by by apply prefix_app_r.
Qed.

Lemma Join_Ok_inv base rel j :
  Join base rel = Ok j →
  is_abs base = true ∧ isAbsLike rel = false ∧ is_abs j = true ∧ path_clean j = j ∧
  abs_elems j = abs_elems base ++ clean_elems rel ∧ Forall good_seg (clean_elems rel).
Proof.
  intros Hj. assert (is_abs base = true ∧ isAbsLike rel = false) as [Hb Hr].
  { unfold Join in Hj. by destruct (is_abs base), (isAbsLike rel); repeat case_decide. }
  rewrite Join_elems in Hj by done. apply result_bind_Ok in Hj as (c & Hc & [= <-]).
  apply Clean_Ok_elems in Hc as (_ & -> & Hg).
  case_decide as Hnil.
  - apply join_slash_nil in Hnil; [|auto with go]. rewrite Hnil, app_nil_r, abs_elems_clean by done.
    auto 10 using is_abs_clean, path_clean_idem_abs.
  - destruct (filepath_join_elems base (clean_elems rel) Hb Hg) as (?&?&?). done.
Qed.

(** ** Properties *)

(** [Clean] normalises: a path it accepts is the join of elements that are
    non-empty, not [.] or [..] and free of slashes and backslashes, so it stays
    below the directory it is joined to; and a non-empty result is a fixed
    point of [Clean]. *)
Theorem Clean_normal p r :
  Clean p = Ok r →
  (∃ l, Forall good_seg l ∧ r = join_slash l) ∧ str_elem bslash r = false ∧
  (r ≠ "" → Clean r = Ok r).
Proof.
  intros (Hp & -> & Hg)%Clean_Ok_elems. pose proof (clean_elems_no_bslash p) as Hb.
  split; [by eexists|]. split; [done|].
  intros Hne. apply Clean_join; [done..|]. by intros E; rewrite E in Hne.
Qed.

Lemma Clean_normal_witness :
  Clean "a\b/./c/../d" = Ok "a/b/d" ∧ str_elem bslash "a/b/d" = false.
Proof.
  split; [vm_compute; reflexivity|].
  exact (proj1 (proj2 (Clean_normal "a\b/./c/../d" "a/b/d" eq_refl))).
Defined.

(** [Clean] refuses exactly the empty path and the relative paths whose walk,
    element by element, goes above its start; it has no other error. *)
Theorem Clean_rejects_escapes p :
  (Clean p = Err ErrEmptyPath ↔ p = "") ∧
  (Clean p = Err ErrEscape ↔
     is_abs (ToSlash p) = false ∧ escapes 0 (split_slash (ToSlash p)) = true) ∧
  (∀ e, Clean p = Err e → e = ErrEmptyPath ∨ e = ErrEscape).
Proof.
  destruct (decide (p = "")) as [->|Hp].
  { assert (escapes 0 (split_slash (ToSlash "")) = false) as -> by done.
    assert (Clean "" = Err ErrEmptyPath) as -> by done. naive_solver. }
  rewrite Clean_elems by done. destruct (is_abs (ToSlash p)) eqn:Habs.
  - rewrite decide_False by by apply clean_elems_head_abs. naive_solver.
  - rewrite <-clean_elems_escapes by done. case_decide; naive_solver.
Qed.

(** Joining a relative path to an absolute base either fails because the path
    climbs above its start, or gives a clean absolute path whose elements are
    those of the base followed by the path's own: the result is inside the
    base, and the second containment check of [Join] never fires. *)
Theorem Join_contained base rel :
  is_abs base = true → isAbsLike rel = false → rel ≠ "" →
  if escapes 0 (split_slash (ToSlash rel)) then Join base rel = Err ErrEscape
  else ∃ j l, Join base rel = Ok j ∧ IsWithin base j = Ok true ∧ path_clean j = j ∧
       Forall good_seg l ∧ abs_elems j = abs_elems base ++ l.
Proof.
  intros Hb Hr Hne. pose proof (isAbsLike_false _ Hr) as Habs.
  pose proof (clean_elems_escapes _ Habs) as Hesc.
  destruct (escapes 0 (split_slash (ToSlash rel))).
  - rewrite Join_elems, Clean_elems by done. by rewrite decide_True by by apply Hesc.
  - destruct (Join base rel) as [j|e] eqn:Hj.
    + destruct (Join_Ok_inv _ _ _ Hj) as (_ & _ & Hja & Hjc & Hje & Hg).
      exists j, (clean_elems rel). rewrite IsWithin_elems, Hje by done.
      by rewrite bool_decide_eq_true_2 by by apply prefix_app_r.
    + rewrite Join_elems, Clean_elems in Hj by done.
      by rewrite decide_False in Hj by by intros ?%Hesc.
Qed.

Lemma Join_contained_witness :
  is_abs "/home/u/proj" = true ∧
  (if escapes 0 (split_slash (ToSlash "src/../a.go")) then Join "/home/u/proj" "src/../a.go" = Err ErrEscape
   else ∃ j l, Join "/home/u/proj" "src/../a.go" = Ok j ∧ IsWithin "/home/u/proj" j = Ok true ∧ path_clean j = j ∧
        Forall good_seg l ∧ abs_elems j = abs_elems "/home/u/proj" ++ l).
Proof. split; [reflexivity|]. by apply Join_contained. Defined.

(** [CleanSegment] accepts exactly the names that, once trimmed of white
    space, are a single path element without separators, control characters,
    [.] or [..], and returns the trimmed name. *)
Theorem CleanSegment_spec name s :
  CleanSegment name = Ok s ↔ s = trim_space name ∧ safe_segment s.
Proof.
  unfold CleanSegment, safe_segment.
  assert (Hany : contains_any (trim_space name) "/\" = false ↔
    no_slash (trim_space name) ∧ str_elem bslash (trim_space name) = false).
  { generalize (trim_space name). intros t. induction t as [|c t IH]; [done|]. simpl.
    rewrite !orb_false_iff, IH, !bool_decide_eq_false. naive_solver. }
  destruct (trim_space_trimmed name) as [Hl Ht]. revert Hany Hl Ht.
  generalize (trim_space name). intros t Hany Hl Ht.
  destruct (decide (t = "")) as [->|Hne]; [unfold good_seg; naive_solver|].
  destruct (contains_any t "/\") eqn:Hc.
  { split; [done|]. intros (-> & (_&_&_&H1) & H2 & _). by pose proof (proj2 Hany (conj H1 H2)). }
  destruct Hany as [Hany _]. destruct (Hany eq_refl) as [Hs Hb].
  destruct (has_control t) eqn:Hctl.
  { split; [done|]. intros (-> & _ & _ & Hctl' & _). by rewrite Hctl' in Hctl. }
  rewrite Clean_elems by done.
  assert (clean_elems t = resolve false [] [t]) as ->.
  { unfold clean_elems, is_abs. by rewrite ToSlash_id, no_slash_prefix, split_no_slash. }
  unfold good_seg.
  destruct (decide (t = ".")) as [->|Hdot]; [split; [done|naive_solver]|].
  destruct (decide (t = "..")) as [->|Hdd]; [split; [done|naive_solver]|].
  assert (resolve false [] [t] = [t]) as -> by (simpl; by rewrite !decide_False).
  simpl. rewrite (decide_False (P := Some t = _)) by congruence.
  rewrite decide_True by done. naive_solver.
Qed.
