(* ===== verification/PtyHost.v ===== *)
(** * Commands for a terminal (pkg/ptyhost/policy.go, host_unix.go, types.go)

    Where a session runs, with which environment and which program, the command
    line that is built from it, the sizes of the terminal and the exit status.
    Starting the process is the operating system's: what it says of a path is
    the class [System], and the tables of [unicode] are the class [Unicode]. *)
From S2P Require Import Prelude GoPath PathFacts GoMatch Safepath.
From stdpp Require Import options.

Inductive error : Type :=
  | ErrUnsafeUserID
  | ErrUnsafeWorkspace
  | ErrWorkspaceRootNotAbs
  | ErrBinaryEmpty
  | ErrBinaryNotFound
  | ErrBinaryUnsafe
  | ErrLookPath (binary : string)     (* "ptyhost: binary %q: %w" *)
  | ErrStatCwd (cwd : string)
  | ErrCwdNotDir (cwd : string).

#[export] Instance error_eq_dec : EqDecision error.
Proof. solve_decision. Defined.

(** [unicode.IsLetter] and [unicode.IsDigit] *)
Class Unicode := {
  IsLetter : N → bool;
  IsDigit : N → bool;
  IsLetter_ascii r : (r < 128)%N → IsLetter r = (((65 <=? r) && (r <=? 90)) || ((97 <=? r) && (r <=? 122)))%N;
  IsDigit_ascii r : (r < 128)%N → IsDigit r = ((48 <=? r) && (r <=? 57))%N;
  IsLetter_error : IsLetter RuneError = false;
  IsDigit_error : IsDigit RuneError = false;
}.

(** [exec.LookPath] ([None] is an error) and the [IsDir] of [os.Stat].  A bare
    name is only found at an absolute path: elsewhere LookPath returns [ErrDot]. *)
Class System := {
  LookPath : string → option string;
  stat_is_dir : string → option bool;
  LookPath_abs name p : str_elem slash name = false → LookPath name = Some p → is_abs p = true;
}.

(** ** The working directory *)

Definition ResolveCwd (workspaceRoot userID workspace : string) : result error string :=
  if decide (workspaceRoot = "") then Err ErrWorkspaceRootNotAbs
  else
    cleanedUserID ← map_err (λ _, ErrUnsafeUserID) (CleanSegment userID);
    cleanedWorkspace ← map_err (λ _, ErrUnsafeWorkspace) (CleanSegment workspace);
    match Join workspaceRoot (cleanedUserID +:+ "/" +:+ cleanedWorkspace) with
    | Ok cwd => Ok cwd
    | Err ErrBaseNotAbs | Err ErrEmptyPath => Err ErrWorkspaceRootNotAbs
    | Err _ => Err ErrUnsafeUserID
    end.

(** ** The environment *)

(** [envMap] of pkg/ptyservice/service.go: the pairs of [os.Environ()], cut at
    the first [=]. *)
Fixpoint cut_eq (s : string) : option (string * string) :=
  match s with
  | EmptyString => None
  | String c s' =>
    if decide (c = "="%char) then Some ("", s')
    else match cut_eq s' with Some (a, b) => Some (String c a, b) | None => None end
  end.

Fixpoint env_map (pairs : list string) (out : gmap string string) : gmap string string :=
  match pairs with
  | [] => out
  | kv :: rest =>
    match cut_eq kv with
    | Some (key, value) => env_map rest (if decide (key = "") then out else <[key := value]> out)
    | None => env_map rest out
    end
  end.
Definition envMap (pairs : list string) : gmap string string := env_map pairs ∅.

Fixpoint compile_allowlist (whitelist : list string) (exact : gset string) (patterns : list string) :
    gset string * list string :=
  match whitelist with
  | [] => (exact, patterns)
  | entry :: rest =>
    let key := trim_space entry in
    if decide (key = "") then compile_allowlist rest exact patterns
    else if contains_any key "*?[" then compile_allowlist rest exact (patterns ++ [key])
    else compile_allowlist rest ({[key]} ∪ exact) patterns
  end.
Definition compileEnvAllowlist (whitelist : list string) : gset string * list string := compile_allowlist whitelist ∅ [].

Definition envKeyAllowed (key : string) (exact : gset string) (patterns : list string) : bool :=
  bool_decide (key ∈ exact) || existsb (λ pattern, default false (path_match pattern key)) patterns.

Section environment.
Context `{Unicode}.

Definition term_rune (r : N) : bool :=
  IsLetter r || IsDigit r || bool_decide (r = N_of_ascii "-" ∨ r = N_of_ascii "_" ∨ r = N_of_ascii ".").

Definition isSafeTerm (term : string) : bool :=
  if decide (term = "") then false else forallb term_rune (runes term).

Definition env_entry (key value : string) : string := key +:+ "=" +:+ value.

Definition BuildEnv `{MapRange} (source : gmap string string) (whitelist : list string) (clientTerm : string) : list string :=
  let '(exact, patterns) := compileEnvAllowlist whitelist in
  let out := omap (λ key, if envKeyAllowed key exact patterns then env_entry key <$> source !! key else None)
               (range_keys (dom source)) in
  let out := if envKeyAllowed "TERM" exact patterns && isSafeTerm clientTerm
             then filter (λ kv, has_prefix "TERM=" kv = false) out ++ ["TERM=" +:+ clientTerm] else out in
  sort_strings out.

(** ** The program *)

Definition hasWindowsDrivePrefix (binary : string) : bool :=
  match binary with
  | String c0 (String c1 (String c2 _)) =>
    IsLetter (N_of_ascii c0) && bool_decide (c1 = ":"%char) && (bool_decide (c2 = slash) || bool_decide (c2 = bslash))
  | _ => false
  end.

Definition isAbsoluteBinaryPath (binary : string) : bool :=
  is_abs binary || has_prefix "\" binary || hasWindowsDrivePrefix binary.

Definition ResolveBinary `{System} (name : string) : result error string :=
  let trimmed := trim_space name in
  if decide (trimmed = "") then Err ErrBinaryEmpty
  else if isAbsoluteBinaryPath trimmed then Ok trimmed
  else if contains_any trimmed "/\" then Err ErrBinaryUnsafe
  else match LookPath trimmed with Some path => Ok path | None => Err ErrBinaryNotFound end.
End environment.

(** ** Starting the program (host_unix.go) *)

Record WindowSize : Type := mk_WindowSize { Cols : Z; Rows : Z; XPixel : Z; YPixel : Z }.

Record SpawnReq : Type := mk_SpawnReq {
  Binary : string;
  Args : list string;
  Cwd : string;
  Env : list string;
  InitSize : WindowSize;
  GracefulTimeout : Z;
}.

(** An [exec.Cmd]: the program, its arguments, [Dir] and [Env]; the empty
    string is a [Dir] that is not set, and [None] an [Env] that is not. *)
Record Cmd : Type := mk_Cmd { Path : string; CmdArgs : list string; Dir : string; CmdEnv : option (list string) }.

(** The environment of the process: of a command without one it is that of the
    process that starts it, [environ]. *)
Definition child_environ (environ : list string) (cmd : Cmd) : list string := default environ (CmdEnv cmd).

Definition quoted (s : string) : string := String "034" s +:+ String "034" "".
Definition shell_script : string := "cd -- " +:+ quoted "$1" +:+ " && shift && exec " +:+ quoted "$@".

Definition validateCwd `{System} (cwd : string) : result error unit :=
  match stat_is_dir cwd with
  | None => Err (ErrStatCwd cwd)
  | Some dir => if dir : bool then Ok () else Err (ErrCwdNotDir cwd)
  end.

Definition commandForSpawn `{System} (req : SpawnReq) : result error Cmd :=
  match LookPath (trim_space (Binary req)) with
  | None => Err (ErrLookPath (Binary req))
  | Some binary =>
    if decide (trim_space (Cwd req) = "") then Ok (mk_Cmd binary (Args req) "" None)
    else
      _ ← validateCwd (Cwd req);
      Ok (mk_Cmd "/bin/sh" (["-c"; shell_script; "rclaude-pty"; Cwd req; binary] ++ Args req) "/" None)
  end.

Definition uint16 (z : Z) : Z := (z `mod` 2 ^ 16)%Z.

(** [pty.Winsize] has fields of 16 bits. *)
Definition winsize (ws : WindowSize) : WindowSize :=
  mk_WindowSize (uint16 (Cols ws)) (uint16 (Rows ws)) (uint16 (XPixel ws)) (uint16 (YPixel ws)).

Definition defaultGracefulTimeout : Z := 5 * 10 ^ 9.

(** What [Spawn] starts: the command, the initial size if there is one, and the
    time between the signals of [Shutdown]. *)
Definition Spawn `{System} (req : SpawnReq) : result error (Cmd * option WindowSize * Z) :=
  if decide (trim_space (Binary req) = "") then Err ErrBinaryEmpty
  else
    cmd ← commandForSpawn req;
    let cmd := if decide (Env req = []) then cmd else mk_Cmd (Path cmd) (CmdArgs cmd) (Dir cmd) (Some (Env req)) in
    let s := InitSize req in
    let initialSize := if decide (0 < Cols s ∨ 0 < Rows s ∨ 0 < XPixel s ∨ 0 < YPixel s)%Z then Some (winsize s) else None in
    Ok (cmd, initialSize, if decide (GracefulTimeout req ≤ 0)%Z then defaultGracefulTimeout else GracefulTimeout req).

Record ExitInfo : Type := mk_ExitInfo { Code : Z; Signal : Z }.

(** [syscall.WaitStatus] of Linux: [w], of 32 bits. *)
Definition Signaled (w : Z) : bool := negb (Z.land w 127 =? 127)%Z && negb (Z.land w 127 =? 0)%Z.
Definition WaitSignal (w : Z) : Z := if Signaled w then Z.land w 127 else (-1)%Z.
Definition ExitStatus (w : Z) : Z := if (Z.land w 127 =? 0)%Z then Z.land (Z.shiftr w 8) 255 else (-1)%Z.

(** The error of [cmd.Wait]: nil, an [ExitError], or another. *)
Inductive wait_error : Type := WaitNil | WaitExitError | WaitOther (text : string).

Definition classifyExit (err : wait_error) (state : option Z) : ExitInfo * option string :=
  let info := match state with
    | None => mk_ExitInfo 0 0
    | Some w => if Signaled w then mk_ExitInfo (ExitStatus w) (WaitSignal w) else mk_ExitInfo (ExitStatus w) 0
    end in
  (info, match err with WaitOther text => Some text | _ => None end).

(** ** Working directories *)

Lemma drive_prefix_abs u w : isAbsLike (u +:+ "/" +:+ w) = true → safe_segment u → ∃ c, isDriveLetter c = true ∧ u = String c ":".
Proof.
  intros Ha ((Hne & _ & _ & Hs) & Hb & _). destruct u as [|c u]; [done|]. rewrite str_app_cons in Ha. unfold isAbsLike in Ha.
  destruct (decide (String c (u +:+ "/" +:+ w) = "")); [done|]. rewrite !has_prefix_1 in Ha.
  unfold slash, bslash in *. simpl in Hs, Hb. apply orb_false_iff in Hs as [Hs Hsu], Hb as [Hb Hbu]. rewrite Hs, Hb in Ha. simpl in Ha.
  destruct u as [|d u]; [by destruct w; [|destruct (isDriveLetter c)]|]. rewrite str_app_cons in Ha. destruct u as [|e u].
  - rewrite str_app_nil_l, slash_app in Ha. apply andb_true_iff in Ha as [[Hc Hd]%andb_true_iff _].
    apply bool_decide_eq_true in Hd as ->. by exists c.
  - exfalso. rewrite str_app_cons in Ha. simpl in Hsu, Hbu. rewrite !orb_false_iff in Hsu, Hbu.
    destruct Hsu as (_ & Hs1 & _), Hbu as (_ & Hb1 & _). rewrite Hs1, Hb1 in Ha. by rewrite andb_false_r in Ha.
Qed.

Lemma clean_elems_pair u w : safe_segment u → safe_segment w → clean_elems (u +:+ "/" +:+ w) = [u; w].
Proof.
  intros (Hu & Hbu & _) (Hw & Hbw & _). change (u +:+ "/" +:+ w) with (join_slash [u; w]). unfold clean_elems.
  assert (Hb : str_elem bslash (join_slash [u; w]) = false) by (simpl; by rewrite !str_elem_app, Hbu, Hbw).
  rewrite ToSlash_id, split_join by (done || (apply good_seg_no_slash; by rewrite !Forall_cons)).
  apply resolve_clean, ok_stack_split. exists 0, (reverse [u; w]). rewrite app_nil_r.
  split_and!; [done| |done]. apply Forall_reverse. by rewrite !Forall_cons.
Qed.

(** The directory of a session is the root, the user and the project. *)
Lemma ResolveCwd_spec root u w :
  match ResolveCwd root u w with
  | Ok cwd =>
    is_abs root = true ∧ safe_segment (trim_space u) ∧ safe_segment (trim_space w) ∧ is_abs cwd = true ∧
    path_clean cwd = cwd ∧ abs_elems cwd = abs_elems root ++ [trim_space u; trim_space w]
  | Err e =>
    (e = ErrWorkspaceRootNotAbs ∧ is_abs root = false) ∨
    (e = ErrUnsafeUserID ∧ (¬ safe_segment (trim_space u) ∨ ∃ c, isDriveLetter c = true ∧ trim_space u = String c ":")) ∨
    (e = ErrUnsafeWorkspace ∧ ¬ safe_segment (trim_space w))
  end.
Proof.
  unfold ResolveCwd. destruct (decide (root = "")) as [->|Hr]; [by left|].
  pose proof (CleanSegment_spec u) as Hu. pose proof (CleanSegment_spec w) as Hw.
  destruct (CleanSegment u) as [u'|e]; simpl.
  2:{ right. left. split; [done|]. left. intros Hs. discriminate (proj2 (Hu _) (conj eq_refl Hs)). }
  destruct (proj1 (Hu u') eq_refl) as [-> Hsu]. destruct (CleanSegment w) as [w'|e]; simpl.
  2:{ right. right. split; [done|]. intros Hs. discriminate (proj2 (Hw _) (conj eq_refl Hs)). }
  destruct (proj1 (Hw w') eq_refl) as [-> Hsw]. clear Hu Hw. generalize dependent (trim_space u). intros u' Hsu.
  generalize dependent (trim_space w). intros w' Hsw.
  destruct (Join root (u' +:+ "/" +:+ w')) as [cwd|e] eqn:Hj.
  - destruct (Join_Ok_inv _ _ _ Hj) as (Hb & _ & Ha & Hc & He & _). rewrite clean_elems_pair in He by done. by split_and!.
  - destruct (is_abs root) eqn:Habs;
      [|unfold Join in Hj; rewrite decide_False, Habs in Hj by done; by simplify_eq/=; left].
    destruct (isAbsLike (u' +:+ "/" +:+ w')) eqn:Hal.
    { unfold Join in Hj. rewrite decide_False, Habs, Hal in Hj by done. simplify_eq/=.
      right. left. split; [done|]. right. by apply (drive_prefix_abs u' w'). }
    exfalso. rewrite Join_elems in Hj by done.
    assert (u' +:+ "/" +:+ w' ≠ "") as Hne by (intros [-> _]%str_app_nil; by destruct Hsu as [[]]).
    rewrite Clean_elems, clean_elems_pair in Hj by done. rewrite decide_False in Hj; [done|].
    intros [= ->]. by destruct Hsu as [(_ & _ & ? & _) _].
Qed.

(** Sessions are confined to their own directories.  The directory a
    session runs in is inside the workspace root and never the root itself; it
    contains the directory of another session only if both are of the same user
    and the same project. *)
Theorem cwd_isolated (root u1 w1 u2 w2 c1 c2 : string) :
  ResolveCwd root u1 w1 = Ok c1 → ResolveCwd root u2 w2 = Ok c2 →
  IsWithin root c1 = Ok true ∧ c1 ≠ path_clean root ∧
  (IsWithin c1 c2 = Ok true → trim_space u1 = trim_space u2 ∧ trim_space w1 = trim_space w2 ∧ c1 = c2).
Proof.
  intros H1 H2. pose proof (ResolveCwd_spec root u1 w1) as S1. pose proof (ResolveCwd_spec root u2 w2) as S2.
  rewrite H1 in S1. rewrite H2 in S2. destruct S1 as (Hr & _ & _ & Ha1 & Hc1 & He1), S2 as (_ & _ & _ & Ha2 & Hc2 & He2).
  split_and!.
  - rewrite IsWithin_elems, He1 by done. rewrite bool_decide_eq_true_2; [done|]. by apply prefix_app_r.
  - intros E. rewrite E, abs_elems_clean in He1 by done. apply (f_equal length) in He1. rewrite length_app in He1. simpl in He1. lia.
  - rewrite IsWithin_elems, He1, He2 by done. intros [= Hp%bool_decide_eq_true]. apply prefix_app_inv in Hp.
    assert ([trim_space u1; trim_space w1] = [trim_space u2; trim_space w2]) as E by (by apply prefix_length_eq).
    simplify_eq. split_and!; [done..|]. rewrite <-Hc1, <-Hc2. apply path_clean_abs_inj; [done..|]. congruence.
Qed.

Lemma cwd_isolated_witness :
  ResolveCwd "/workspace" "alice" " proj" = Ok "/workspace/alice/proj" ∧ IsWithin "/workspace" "/workspace/alice/proj" = Ok true.
Proof.
  split; [vm_compute; reflexivity|].
  exact (proj1 (cwd_isolated "/workspace" "alice" " proj" "bob" "proj" "/workspace/alice/proj" "/workspace/bob/proj" eq_refl eq_refl)).
Defined.

(** ** The environment *)

Lemma cut_eq_Some s a b : cut_eq s = Some (a, b) → s = env_entry a b ∧ str_elem "=" a = false.
Proof.
  revert a b. induction s as [|c s IH]; intros a b; [done|]. simpl. case_decide as Hc; [by intros [= <- <-]; subst|].
  destruct (cut_eq s) as [[a' b']|]; [|done]. intros [= <- <-]. destruct (IH a' b' eq_refl) as [-> Ha].
  split; [done|]. simpl. by rewrite bool_decide_eq_false_2.
Qed.

Lemma envMap_key pairs k v : envMap pairs !! k = Some v → k ≠ "" ∧ str_elem "=" k = false ∧ env_entry k v ∈ pairs.
Proof.
  unfold envMap. assert (H : ∀ out, env_map pairs out !! k = Some v →
    out !! k = Some v ∨ (k ≠ "" ∧ str_elem "=" k = false ∧ env_entry k v ∈ pairs)).
  { induction pairs as [|kv pairs IH]; [by left|]. intros out. simpl. destruct (cut_eq kv) as [[a b]|] eqn:Hc.
    - apply cut_eq_Some in Hc as [-> Ha]. intros [Hout|?]%IH; [|right; set_solver]. case_decide; [by left|].
      apply lookup_insert_Some in Hout as [[-> ->]|[_ ?]]; [|by left]. right. set_solver.
    - intros [?|?]%IH; [by left|right; set_solver]. }
  intros [?|?]%H; [|done]. set_solver.
Qed.

Lemma env_entry_inj k v k' v' :
  str_elem "=" k = false → str_elem "=" k' = false → env_entry k v = env_entry k' v' → k = k' ∧ v = v'.
Proof.
  unfold env_entry. revert k'. induction k as [|c k IH]; intros [|d k']; rewrite ?str_app_cons, ?str_app_nil_l; simpl.
  - by intros _ _ [= ->].
  - intros _ [Hd _]%orb_false_iff [= <- _]. discriminate Hd.
  - intros [Hc _]%orb_false_iff _ [= -> _]. discriminate Hc.
  - intros [_ Hk]%orb_false_iff [_ Hk']%orb_false_iff [= -> He]. by destruct (IH k' Hk Hk' He) as [-> ->].
Qed.

Lemma TERM_prefix k v : str_elem "=" k = false → has_prefix "TERM=" (env_entry k v) = bool_decide (k = "TERM").
Proof.
  intros Hk. apply eq_bool_prop_intro. rewrite !Is_true_true, has_prefix_spec, bool_decide_eq_true. split.
  - intros [r Hr]. by destruct (env_entry_inj k v "TERM" r Hk eq_refl Hr).
  - intros ->. by exists v.
Qed.

(** Whether an entry of the allowlist allows a key. *)
Definition entry_allows (entry key : string) : Prop :=
  let e := trim_space entry in
  e ≠ "" ∧ if contains_any e "*?[" then path_match e key = Some true else key = e.
Definition allowed (whitelist : list string) (key : string) : Prop := ∃ entry, entry ∈ whitelist ∧ entry_allows entry key.

Lemma compile_allowlist_spec whitelist ex ps exact patterns :
  compile_allowlist whitelist ex ps = (exact, patterns) →
  (∀ k, k ∈ exact ↔ k ∈ ex ∨ k ∈ (filter (λ e, e ≠ "" ∧ contains_any e "*?[" = false) (trim_space <$> whitelist))) ∧
  (∀ p, p ∈ patterns ↔ p ∈ ps ∨ p ∈ (filter (λ e, e ≠ "" ∧ contains_any e "*?[" = true) (trim_space <$> whitelist))).
Proof.
  revert ex ps. induction whitelist as [|e wl IH]; intros ex ps; [intros [= -> ->]; set_solver|].
  rewrite fmap_cons. cbn [compile_allowlist]. generalize (trim_space e). intros t. case_decide as He.
  - intros [H1 H2]%IH. rewrite !filter_cons_False by (by intros [? _]). done.
  - destruct (contains_any t "*?[") eqn:Hc; intros [H1 H2]%IH.
    + rewrite filter_cons_False by (intros [_ ?]; congruence). rewrite filter_cons_True by done. split; [done|]. intros p. rewrite H2. set_solver.
    + rewrite filter_cons_True by done. rewrite filter_cons_False by (intros [_ ?]; congruence). split; [|done]. intros k. rewrite H1. set_solver.
Qed.

Lemma envKeyAllowed_spec whitelist exact patterns key :
  compileEnvAllowlist whitelist = (exact, patterns) →
  envKeyAllowed key exact patterns = true ↔ allowed whitelist key.
Proof.
  intros [H1 H2]%compile_allowlist_spec. unfold envKeyAllowed, allowed, entry_allows.
  rewrite orb_true_iff, bool_decide_eq_true, existsb_exists, H1.
  assert (Hm : ∀ p, default false (path_match p key) = true ↔ path_match p key = Some true).
  { intros p. destruct (path_match_total p key) as [b Hb]. rewrite Hb. simpl. naive_solver. }
  setoid_rewrite <-list_elem_of_In. setoid_rewrite H2. setoid_rewrite Hm.
  setoid_rewrite list_elem_of_filter. setoid_rewrite list_elem_of_fmap. clear. split.
  - intros [[?|[[Hne Hc] (e & -> & He)]]|(p & [?|[[Hne Hc] (e & -> & He)]] & Hp)]; [set_solver| |set_solver|];
      exists e; by rewrite Hc.
  - intros (e & He & Hne & Ha). destruct (contains_any (trim_space e) "*?[") eqn:Hc; [right|left].
    + exists (trim_space e). split; [|done]. right. split; [done|]. by exists e.
    + subst key. right. split; [done|]. by exists e.
Qed.

Section environment_facts.
Context `{Unicode}.

(** The name of a terminal that is accepted has, among the bytes below 0x80,
    only letters, digits, [-], [_] and [.]. *)
Lemma isSafeTerm_bytes term c :
  isSafeTerm term = true → str_elem c term = true → (N_of_ascii c < 128)%N →
  byte_in "A" "Z" c || byte_in "a" "z" c || byte_in "0" "9" c || str_elem c "-_." = true.
Proof.
  unfold isSafeTerm. destruct (decide _); [done|]. intros Hall Hc Hlt.
  pose proof (runes_ascii term c Hc Hlt) as Hin. rewrite forallb_forall in Hall.
  specialize (Hall _ (proj1 (list_elem_of_In _ _) Hin)). unfold term_rune in Hall.
  rewrite IsLetter_ascii, IsDigit_ascii in Hall by done. unfold byte_in. clear -Hall Hlt.
  rewrite !orb_true_iff in Hall |- *.  rewrite bool_decide_eq_true in Hall. destruct Hall as [ [Hr|Hr] | Hr]; [tauto..|right].
  rewrite <-(ascii_N_embedding c). destruct Hr as [Hr|[Hr|Hr]]; rewrite Hr; reflexivity.
Qed.

Lemma sort_strings_elem l s : s ∈ sort_strings l ↔ s ∈ l.
Proof. unfold sort_strings. by rewrite (merge_sort_Permutation String.le l). Qed.

(** What a session gets to know of the server's environment.  The variables
    passed on are exactly those of the server whose names the allowlist allows,
    in order and without repetition; the client can only change TERM, if the
    allowlist allows it, and only to a name of letters, digits, [-], [_] and
    [.] (and letters and digits that are not ASCII). *)
Theorem BuildEnv_spec `{MapRange} (environ whitelist : list string) (clientTerm : string) :
  let env := BuildEnv (envMap environ) whitelist clientTerm in
  let override := isSafeTerm clientTerm = true in
  (∀ kv, kv ∈ env ↔ ∃ k v, kv = env_entry k v ∧ allowed whitelist k ∧
     (k = "TERM" ∧ override ∧ v = clientTerm ∨
      ¬ (k = "TERM" ∧ override) ∧ envMap environ !! k = Some v)) ∧
  Sorted String.le env ∧ NoDup env.
Proof.
  intros env override. subst env. unfold BuildEnv.
  destruct (compileEnvAllowlist whitelist) as [exact patterns] eqn:Hc.
  pose proof (envKeyAllowed_spec _ _ _ "TERM" Hc) as HT. pose proof (λ k, envKeyAllowed_spec _ _ _ k Hc) as Hk. clear Hc.
  set (out := omap _ _).
  assert (Hout : ∀ kv, kv ∈ out ↔ ∃ k v, kv = env_entry k v ∧ allowed whitelist k ∧ envMap environ !! k = Some v).
  { intros kv. subst out. rewrite list_elem_of_omap. setoid_rewrite elem_of_range_keys. setoid_rewrite elem_of_dom. split.
    - intros (k & _ & Hkv). destruct (envKeyAllowed k exact patterns) eqn:Ha; [|done].
      apply fmap_Some in Hkv as (v & Hv & ->). exists k, v. by rewrite <-Hk.
    - intros (k & v & -> & Ha%Hk & Hv). exists k. rewrite Ha, Hv. by split; [eexists|]. }
  assert (Hnd : NoDup out).
  { subst out. rewrite <-list_fmap_id. apply NoDup_fmap_omap; [auto with go|]. intros k1 k2 y1 y2 _ _.
    destruct (envKeyAllowed k1 _ _), (envKeyAllowed k2 _ _); try done. rewrite !fmap_Some.
    intros (v1 & H1 & ->) (v2 & H2 & ->) E. apply envMap_key in H1 as (_ & H1 & _), H2 as (_ & H2 & _).
    by destruct (env_entry_inj k1 v1 k2 v2 H1 H2 E). }
  assert (Hfil : ∀ k v, envMap environ !! k = Some v → has_prefix "TERM=" (env_entry k v) = bool_decide (k = "TERM"))
    by (intros k v (_ & Hk' & _)%envMap_key; by apply TERM_prefix).
  split; [|split; [apply (Sorted_merge_sort String.le)|]].
  - intros kv. rewrite sort_strings_elem. clearbody out.
    destruct (envKeyAllowed "TERM" exact patterns && isSafeTerm clientTerm) eqn:Ht.
    + apply andb_true_iff in Ht as [Ha%HT Hs]. fold override in Hs.
      rewrite elem_of_app, list_elem_of_filter, list_elem_of_singleton, Hout. split.
      * intros [[Hp (k & v & -> & Hka & Hv)]|Hkv]; [|subst kv; exists "TERM", clientTerm; split_and!; [done..|by left] ].
        rewrite Hfil in Hp by done. apply bool_decide_eq_false in Hp. exists k, v. split_and!; [done..|right]. naive_solver.
      * intros (k & v & -> & Hka & [(-> & _ & ->)|[Hn Hv]]); [by right|left]. rewrite Hfil by done.
        split; [apply bool_decide_eq_false; naive_solver|]. by exists k, v.
    + rewrite Hout. apply andb_false_iff in Ht. split; intros (k & v & -> & Hka & Hv); exists k, v; (split_and!; [done..|]).
      * right. split; [|done]. intros [-> Hs]. unfold override in Hs. apply HT in Hka. destruct Ht; congruence.
      * destruct Hv as [(-> & Hs & _)|[_ ?]]; [|done]. unfold override in Hs. apply HT in Hka. destruct Ht; congruence.
  - unfold sort_strings. rewrite (merge_sort_Permutation String.le). destruct (_ && _); [|done].
    apply NoDup_app. split_and!; [by apply NoDup_filter| |apply NoDup_singleton].
    intros kv [Hp _]%list_elem_of_filter Hkv%list_elem_of_singleton. subst kv. by rewrite has_prefix_app in Hp.
Qed.

(** ** The program *)

Lemma contains_any_separators s : contains_any s "/\" = false ↔ str_elem slash s = false ∧ str_elem bslash s = false.
Proof.
  induction s as [|c s IH]; [done|]. simpl. rewrite !orb_false_iff, IH, !bool_decide_eq_false. unfold slash, bslash. naive_solver.
Qed.

Lemma ResolveBinary_spec `{System} name :
  let t := trim_space name in
  match ResolveBinary name with
  | Ok p =>
    t ≠ "" ∧ (isAbsoluteBinaryPath t = true ∧ p = t ∨
              str_elem slash t = false ∧ str_elem bslash t = false ∧ LookPath t = Some p ∧ is_abs p = true)
  | Err e =>
    (e = ErrBinaryEmpty ∧ t = "") ∨
    (e = ErrBinaryUnsafe ∧ isAbsoluteBinaryPath t = false ∧ (str_elem slash t = true ∨ str_elem bslash t = true)) ∨
    (e = ErrBinaryNotFound ∧ isAbsoluteBinaryPath t = false ∧ LookPath t = None)
  end.
Proof.
  intros t. unfold ResolveBinary. subst t. generalize (trim_space name). intros t. destruct (decide (t = "")); [by left|].
  destruct (isAbsoluteBinaryPath t); [by split; [|left]|].
  pose proof (contains_any_separators t) as Hsep. destruct (contains_any t "/\").
  - right. left. split_and!; [done..|]. destruct (str_elem slash t), (str_elem bslash t); naive_solver.
  - destruct (proj1 Hsep eq_refl) as [Hs Hb]. destruct (LookPath t) as [p|] eqn:Hp; [|by right; right].
    split; [done|right]. split_and!; [done..|]. by apply (LookPath_abs t).
Qed.

(** On Unix the paths with a drive letter count as absolute and are not. *)
Lemma ResolveBinary_drive `{System} : ResolveBinary "C:/agent" = Ok "C:/agent" ∧ is_abs "C:/agent" = false.
Proof.
  split; [|done]. unfold ResolveBinary. assert (trim_space "C:/agent" = "C:/agent") as -> by (vm_compute; done).
  rewrite decide_False by done. assert (isAbsoluteBinaryPath "C:/agent" = true) as ->; [|done].
  unfold isAbsoluteBinaryPath, hasWindowsDrivePrefix. rewrite IsLetter_ascii by done. done.
Qed.
End environment_facts.

(** ** Starting and ending the program *)

(** In a working directory the program runs under a fixed script of the shell:
    what the client and the daemon chose are its positional parameters. *)
Lemma Spawn_command `{System} (req : SpawnReq) cmd size graceful :
  Spawn req = Ok (cmd, size, graceful) → trim_space (Cwd req) ≠ "" →
  ∃ binary, LookPath (trim_space (Binary req)) = Some binary ∧ stat_is_dir (Cwd req) = Some true ∧ (0 < graceful)%Z ∧
    cmd = mk_Cmd "/bin/sh" (["-c"; shell_script; "rclaude-pty"; Cwd req; binary] ++ Args req) "/"
      (if decide (Env req = []) then None else Some (Env req)).
Proof.
  unfold Spawn, commandForSpawn, validateCwd. intros Hs Hcwd. destruct (decide _); [done|].
  destruct (LookPath _) as [binary|]; [|done]. destruct (decide (trim_space (Cwd req) = "")); [done|].
  destruct (stat_is_dir (Cwd req)) as [[]|] eqn:Hdir; simpl in Hs; [|done..]. exists binary. split_and!; [done..| |].
  - destruct (decide (GracefulTimeout req ≤ 0)%Z); simplify_eq; [done|lia].
  - destruct (decide (Env req = [])); by simplify_eq.
Qed.

Lemma land_127 w : Z.land w 127 = (w `mod` 128)%Z.
Proof. apply (Z.land_ones w 7). done. Qed.

(** The exit status.  A program that ended with a code is reported with
    that code and no signal, one that a signal killed with the code -1 and that
    signal; only an error that is not the program's own is reported as one. *)
Theorem classifyExit_spec (err : wait_error) (code sig core : Z) :
  (0 ≤ code < 256)%Z → (0 < sig < 127)%Z → core = 0%Z ∨ core = 128%Z →
  (classifyExit err (Some (code * 256)%Z)).1 = mk_ExitInfo code 0 ∧
  (classifyExit err (Some (core + sig)%Z)).1 = mk_ExitInfo (-1) sig ∧
  (∀ state, (classifyExit err state).2 = match err with WaitOther text => Some text | _ => None end).
Proof.
  intros Hcode Hsig Hcore. unfold classifyExit, Signaled, ExitStatus, WaitSignal, Signaled. rewrite !land_127.
  assert (((code * 256) `mod` 128)%Z = 0%Z) as -> by (rewrite (Zmod_divides _ 128); [exists (code * 2)%Z|]; lia).
  assert (((core + sig) `mod` 128)%Z = sig) as ->.
  { destruct Hcore as [-> | ->]; [by rewrite Z.add_0_l, Z.mod_small by lia|].
    change 128%Z with (1 * 128)%Z at 1. rewrite Z.add_comm, Z.mod_add, Z.mod_small by lia. done. }
  replace (sig =? 127)%Z with false by lia. replace (sig =? 0)%Z with false by lia. cbn. split_and!; [|done..].
  rewrite (Z.shiftr_div_pow2 _ 8), (Z.land_ones _ 8 ltac:(lia) : Z.land _ 255 = _) by lia.
  change (2 ^ 8)%Z with 256%Z. by rewrite Z.div_mul, Z.mod_small by lia.
Qed.

Lemma classifyExit_spec_witness :
  (classifyExit WaitExitError (Some 768)%Z).1 = mk_ExitInfo 3 0 ∧ (classifyExit WaitExitError (Some 137)%Z).1 = mk_ExitInfo (-1) 9.
Proof.
  destruct (classifyExit_spec WaitExitError 3 9 128) as (H1 & H2 & _); [lia|lia|by right|]. by split.
Defined.
