(* ===== verification/PtyProcess.v ===== *)
(** * The process of a terminal (pkg/ptyhost/host_unix.go)

    What [Spawn] has started: the child on its terminal, the goroutine that copies
    its output into the pipe ([drain]), the one that waits for it ([reap]), the
    one that [Shutdown] starts to kill it after the grace period, and the calls of
    the host.  The kernel is the environment: what the child writes, when it ends
    and when its side of the terminal is closed.  The output that the child has
    written and nobody has read is kept by the terminal until the master is closed
    or the last holder of the other side is gone. *)
From S2P Require Import Prelude GoPath PtyHost.
From stdpp Require Import options.

(** The child: running, ended with its wait status, or waited for. *)
Inductive process : Type := Running | Exited (status : Z) | Reaped (status : Z).

(** [drain]: reading, writing what is left of a chunk into the pipe, closing the
    master and then the pipe with the error of the copy. *)
Inductive drain_pc : Type :=
  | DRead
  | DWrite (chunk : bytes)
  | DClose (err : option string)
  | DPipe (err : option string)
  | DEnd.

(** The goroutine of [gracefulKill]. *)
Inductive killer_pc : Type := KNone | KTimer | KEnd.

Inductive signal : Type := SIGHUP | SIGKILL.

(** What [Process.Signal] answers. *)
Inductive signal_result : Type := SignalOk | ErrProcessDone | SignalFailed (text : string).

Inductive error : Type := ErrSignal (sig : signal) (text : string) | ErrClose (text : string).

(** What has happened: signals that were sent, by whom, and the end of the grace
    period. *)
Inductive event : Type := Sent (sig : signal) (by_timer : bool) | GraceOver.

#[export] Instance signal_eq_dec : EqDecision signal.
Proof. solve_decision. Defined.
#[export] Instance event_eq_dec : EqDecision event.
Proof. solve_decision. Defined.

Record Host : Type := mk_Host {
  child : process;
  terminal : bytes;                       (* written by the child, not read *)
  hung : bool;                            (* nobody holds the child's side any more *)
  ptmx : bool;                            (* the master is open *)
  drain : drain_pc;
  pipe_end : option (option string);      (* the pipe is closed, with an error or EOF *)
  exit : option (ExitInfo * option string); (* [info] and [waitErr]; [waitDone] is closed *)
  killer : killer_pc;
  written : bytes;                        (* all that the child has written *)
  got : bytes;                            (* all that was read from [Stdout] *)
  hist : list event;
}.

(** [Spawn], after the process has started. *)
Definition spawned : Host := mk_Host Running [] false true DRead None None KNone [] [] [].

Definition set_child x h := mk_Host x (terminal h) (hung h) (ptmx h) (drain h) (pipe_end h) (exit h) (killer h) (written h) (got h) (hist h).
Definition set_terminal x h := mk_Host (child h) x (hung h) (ptmx h) (drain h) (pipe_end h) (exit h) (killer h) (written h) (got h) (hist h).
Definition set_hung x h := mk_Host (child h) (terminal h) x (ptmx h) (drain h) (pipe_end h) (exit h) (killer h) (written h) (got h) (hist h).
Definition set_ptmx x h := mk_Host (child h) (terminal h) (hung h) x (drain h) (pipe_end h) (exit h) (killer h) (written h) (got h) (hist h).
Definition set_drain x h := mk_Host (child h) (terminal h) (hung h) (ptmx h) x (pipe_end h) (exit h) (killer h) (written h) (got h) (hist h).
Definition set_pipe_end x h := mk_Host (child h) (terminal h) (hung h) (ptmx h) (drain h) x (exit h) (killer h) (written h) (got h) (hist h).
Definition set_exit x h := mk_Host (child h) (terminal h) (hung h) (ptmx h) (drain h) (pipe_end h) x (killer h) (written h) (got h) (hist h).
Definition set_killer x h := mk_Host (child h) (terminal h) (hung h) (ptmx h) (drain h) (pipe_end h) (exit h) x (written h) (got h) (hist h).
Definition set_written x h := mk_Host (child h) (terminal h) (hung h) (ptmx h) (drain h) (pipe_end h) (exit h) (killer h) x (got h) (hist h).
Definition set_got x h := mk_Host (child h) (terminal h) (hung h) (ptmx h) (drain h) (pipe_end h) (exit h) (killer h) (written h) x (hist h).
Definition log (e : event) h := mk_Host (child h) (terminal h) (hung h) (ptmx h) (drain h) (pipe_end h) (exit h) (killer h) (written h) (got h) (hist h ++ [e]).

(** [io.Copy]'s buffer *)
Definition copy_size : nat := N.to_nat 32768.
#[global] Arguments copy_size : simpl never.

(** [drain], one step; [n]: how much a read returns, [closeErr]: what closing the
    master answers, [os.ErrClosed] being none.  The end of the terminal ([EIO]) and
    a closed master end the copy like an end of file. *)
Definition drain_step (n : nat) (closeErr : option string) (h : Host) : option Host :=
  match drain h with
  | DRead =>
    if negb (ptmx h) then Some (set_drain (DClose None) h)
    else
      match terminal h with
      | [] => if hung h then Some (set_drain (DClose None) h) else None
      | _ :: _ =>
        if decide (0 < n ≤ copy_size) then
          Some (set_drain (DWrite (take n (terminal h))) (set_terminal (drop n (terminal h)) h))
        else None
      end
  | DClose err =>
    let err := match err, closeErr with None, Some e => if ptmx h then Some e else None | _, _ => err end in
    Some (set_drain (DPipe err) (set_ptmx false h))
  | DPipe err => Some (set_drain DEnd (set_pipe_end (Some err) h))
  | DWrite _ | DEnd => None
  end.

(** Another error of reading. *)
Definition drain_fails (text : string) (h : Host) : option Host :=
  match drain h with DRead => if ptmx h then Some (set_drain (DClose (Some text)) h) else None | _ => None end.

(** A read of [Stdout] with room for [n] bytes: a pipe hands over what its writer
    holds, and the writer goes on when all of it was taken. *)
Definition Stdout_read (n : nat) (h : Host) : option (bytes * Host) :=
  match drain h with
  | DWrite chunk =>
    if decide (0 < n) then
      let rest := drop n chunk in
      Some (take n chunk, set_drain (match rest with [] => DRead | _ => DWrite rest end) (set_got (got h ++ take n chunk) h))
    else None
  | _ => None
  end.

(** [reap] *)
Definition reap (err : wait_error) (h : Host) : option Host :=
  match child h with
  | Exited w => Some (set_exit (Some (classifyExit err (Some w))) (set_child (Reaped w) h))
  | _ => None
  end.

(** [Host.signal]; a process that was waited for is done. *)
Definition send_signal (sig : signal) (by_timer : bool) (answer : signal_result) (closeErr : option string) (h : Host)
    : Host * option error :=
  match match child h with Reaped _ => ErrProcessDone | _ => answer end with
  | SignalOk =>
    let h' := log (Sent sig by_timer) h in
    match sig with
    | SIGKILL =>
      (set_ptmx false h',
       if ptmx h then match closeErr with Some e => Some (ErrClose e) | None => None end else None)
    | SIGHUP => (h', None)
    end
  | ErrProcessDone => (h, None)
  | SignalFailed text => (h, Some (ErrSignal sig text))
  end.

Definition Shutdown (graceful : bool) (answer : signal_result) (closeErr : option string) (h : Host) : Host * option error :=
  if negb graceful then send_signal SIGKILL false answer closeErr h
  else
    let '(h, err) := send_signal SIGHUP false answer closeErr h in
    match err with
    | Some err => (h, Some err)
    | None => (match killer h with KNone => set_killer KTimer h | _ => h end, None)
    end.

(** The goroutine that kills: the process has ended, or the timer fires. *)
Definition killer_step (fires : bool) (answer : signal_result) (closeErr : option string) (h : Host) : option Host :=
  match killer h with
  | KTimer =>
    if fires then Some (set_killer KEnd (fst (send_signal SIGKILL true answer closeErr (log GraceOver h))))
    else match exit h with Some _ => Some (set_killer KEnd h) | None => None end
  | _ => None
  end.

(** [Wait]; [None]: it still waits. *)
Definition Wait (cancelled : option string) (h : Host) : option (ExitInfo * option string) :=
  match exit h with
  | Some r => Some r
  | None => match cancelled with Some text => Some (mk_ExitInfo 0 0, Some text) | None => None end
  end.

Inductive label : Type :=
  | ChildWrites (bs : bytes) | ChildExits (status : Z) | Hangs
  | Drains (n : nat) (closeErr : option string) | DrainFails (text : string) | Reads (n : nat)
  | Reaps (err : wait_error)
  | ShutsDown (graceful : bool) (answer : signal_result) (closeErr : option string)
  | Kills (fires : bool) (answer : signal_result) (closeErr : option string).

Definition exec (l : label) (h : Host) : option Host :=
  match l with
  | ChildWrites bs => if ptmx h && negb (hung h) then Some (set_terminal (terminal h ++ bs) (set_written (written h ++ bs) h)) else None
  | ChildExits w => match child h with Running => Some (set_child (Exited w) h) | _ => None end
  | Hangs => Some (set_hung true h)
  | Drains n closeErr => drain_step n closeErr h
  | DrainFails text => drain_fails text h
  | Reads n => snd <$> Stdout_read n h
  | Reaps err => reap err h
  | ShutsDown graceful answer closeErr => Some (fst (Shutdown graceful answer closeErr h))
  | Kills fires answer closeErr => killer_step fires answer closeErr h
  end.

Fixpoint run (ls : list label) (h : Host) : option Host :=
  match ls with [] => Some h | l :: ls => h ← exec l h; run ls h end.

Definition reachable (h : Host) : Prop := ∃ ls, run ls spawned = Some h.

(** ** The invariant *)

Definition held (h : Host) : bytes := match drain h with DWrite chunk => chunk | _ => [] end.
Definition killed (h : Host) : Prop := Exists (λ e, match e with Sent SIGKILL _ => True | _ => False end) (hist h).
Definition timer_kills (h : Host) : nat := length (filter (λ e, e = GraceOver) (hist h)).

(** The copy has ended like an end of file. *)
Definition at_eof (h : Host) : Prop :=
  drain h = DClose None ∨ drain h = DPipe None ∨ pipe_end h = Some None.

Record inv (h : Host) : Prop := mk_inv {
  in_bytes : got h ++ held h ++ terminal h = written h;
  in_chunk : drain h ≠ DWrite [];
  in_exit : match child h with Reaped w => ∃ err, exit h = Some (classifyExit err (Some w)) | _ => exit h = None end;
  in_pipe : pipe_end h ≠ None ↔ drain h = DEnd;
  in_closed : ptmx h = false → killed h ∨ drain h = DEnd ∨ ∃ err, drain h = DPipe err;
  in_eof : at_eof h → killed h ∨ (hung h = true ∧ terminal h = []);
  in_timer : Sent SIGKILL true ∈ hist h → GraceOver ∈ hist h;
  in_grace : timer_kills h ≤ match killer h with KEnd => 1 | _ => 0 end;
}.

Lemma inv_spawned : inv spawned.
Proof.
  constructor; cbn; try done; [by intros [|[|] ]|by intros ?%not_elem_of_nil].
Qed.

Lemma killed_log e h : killed (log e h) ↔ killed h ∨ ∃ b, e = Sent SIGKILL b.
Proof.
  unfold killed. cbn. rewrite Exists_app, Exists_cons, Exists_nil. destruct e as [ [] b|]; naive_solver.
Qed.

Lemma killed_mono h h' es : hist h' = hist h ++ es → killed h → killed h'.
Proof. unfold killed. intros ->. rewrite Exists_app. by left. Qed.

Lemma timer_kills_log e h : timer_kills (log e h) = timer_kills h + if decide (e = GraceOver) then 1 else 0.
Proof. unfold timer_kills, log. cbn [hist]. rewrite filter_app, length_app, filter_cons. by case_decide. Qed.

Lemma killed_sent b h : killed (set_ptmx false (log (Sent SIGKILL b) h)).
Proof. unfold killed. cbn. rewrite Exists_app, Exists_cons. auto. Qed.

Lemma inv_signal sig b answer closeErr h : (b = true → GraceOver ∈ hist h) → inv h → inv (fst (send_signal sig b answer closeErr h)).
Proof.
  intros Hb Hi. unfold send_signal. destruct (match child h with Reaped _ => ErrProcessDone | _ => answer end); [|done..].
  destruct Hi as [H1 H2 H3 H4 H5 H6 H7 H8]. destruct sig; constructor; cbn [fst]; try done.
  - rewrite killed_log. intros Hx. destruct (H5 Hx); tauto.
  - rewrite killed_log. intros Hx. destruct (H6 Hx); tauto.
  - cbn. rewrite !elem_of_app, !elem_of_cons. intros [?|[ [=]|[]%not_elem_of_nil] ]. auto.
  - rewrite timer_kills_log, decide_False, Nat.add_0_r; done.
  - intros _. left. apply killed_sent.
  - intros _. left. apply killed_sent.
  - cbn. rewrite !elem_of_app, !elem_of_cons. intros [?|[ [=]|[]%not_elem_of_nil] ]; auto.
  - change (timer_kills (set_ptmx false (log (Sent SIGKILL b) h))) with (timer_kills (log (Sent SIGKILL b) h)).
    rewrite timer_kills_log, decide_False, Nat.add_0_r; done.
Qed.

Lemma send_signal_killer sig b answer closeErr k h :
  set_killer k (fst (send_signal sig b answer closeErr h)) = fst (send_signal sig b answer closeErr (set_killer k h)).
Proof. unfold send_signal. cbn. destruct (match child h with Reaped _ => ErrProcessDone | _ => answer end); [|done..]. by destruct sig. Qed.

Lemma inv_grace h : killer h = KTimer → inv h → inv (set_killer KEnd (log GraceOver h)).
Proof.
  intros Hk [H1 H2 H3 H4 H5 H6 H7 H8]. rewrite Hk in H8. constructor; cbn; try done.
  - intros Hx. destruct (H5 Hx); [|tauto]. left. by eapply killed_mono.
  - intros Hx. destruct (H6 Hx); [|tauto]. left. by eapply killed_mono.
  - intros _. rewrite elem_of_app, list_elem_of_singleton. by right.
  - change (timer_kills (log GraceOver h) ≤ 1). rewrite timer_kills_log, decide_True by done. lia.
Qed.

(** The fields of the invariant after a step that sends no signal. *)
Ltac inv_fields := constructor; unfold at_eof, held, killed, timer_kills in *; cbn in *; try done.

Lemma inv_drain n closeErr h h' : drain_step n closeErr h = Some h' → inv h → inv h'.
Proof.
  destruct h as [ch tm hu pt dr pe ex ki wr go hi]. unfold drain_step. intros Hs [H1 H2 H3 H4 H5 H6 H7 H8]. cbn in Hs.
  destruct dr as [|chunk|err|err|]; [| done | | |done].
  - destruct pt; cbn [negb] in Hs.
    + destruct tm as [|t ts]; [destruct hu|case_decide as Hn]; simplify_eq.
      * inv_fields; [split; [intros Hx; by apply H4 in Hx|done]|auto].
      * inv_fields.
        -- by rewrite take_drop.
        -- destruct n; [lia|done].
        -- split; [|done]. intros Hx. by apply H4 in Hx.
        -- intros [|[|] ]; [done..|]. destruct H6 as [?|[_ ?] ]; auto. done.
    + simplify_eq. inv_fields.
      * split; [|done]. intros Hx. by apply H4 in Hx.
      * intros _. destruct (H5 eq_refl) as [?|[?|[? ?] ] ]; [by left|done|done].
      * intros _. destruct (H5 eq_refl) as [?|[?|[? ?] ] ]; [by left|done|done].
  - simplify_eq. inv_fields.
    + split; [|done]. intros Hx. by apply H4 in Hx.
    + intros _. right. right. eauto.
    + intros [|[|] ]; [done| |apply H6; auto]. apply H6. left. destruct err, closeErr, pt; simplify_eq; done.
  - simplify_eq. inv_fields.
    + intros Hx. destruct (H5 Hx) as [?|_]; auto.
    + intros [|[|] ]; [done..|]. apply H6. simplify_eq. auto.
Qed.

Lemma host_exec_inv l h h' : exec l h = Some h' → inv h → inv h'.
Proof.
  intros Hs Hi. destruct l as [bs|w| |n ce|text|n|err|g answer ce|fires answer ce]; cbn in Hs.
  - destruct h as [ch tm hu pt dr pe ex ki wr go hi]. cbn in Hs. destruct pt, hu; simplify_eq/=. destruct Hi as [H1 H2 H3 H4 H5 H6 H7 H8].
    inv_fields. + by rewrite <-H1, !app_assoc. + intros Hx. destruct (H6 Hx) as [?|[? _] ]; [by left|done].
  - destruct h as [ch tm hu pt dr pe ex ki wr go hi]. cbn in Hs. destruct ch; simplify_eq/=. destruct Hi. by inv_fields.
  - destruct h as [ch tm hu pt dr pe ex ki wr go hi]. cbn in Hs. simplify_eq/=. destruct Hi as [H1 H2 H3 H4 H5 H6 H7 H8].
    inv_fields. intros Hx. destruct (H6 Hx) as [?|[_ ?] ]; [by left|by right].
  - by eapply inv_drain.
  - destruct h as [ch tm hu pt dr pe ex ki wr go hi]. unfold drain_fails in Hs. cbn in Hs. destruct dr, pt; simplify_eq/=. destruct Hi as [H1 H2 H3 H4 H5 H6 H7 H8].
    inv_fields. + split; [|done]. intros Hx. by apply H4 in Hx. + intros [|[|] ]; [done..|]. apply H6. auto.
  - unfold Stdout_read in Hs. destruct h as [ch tm hu pt dr pe ex ki wr go hi]. cbn in Hs. destruct dr as [|chunk|err|err|]; try done.
    case_decide as Hn; [|done]. destruct Hi as [H1 H2 H3 H4 H5 H6 H7 H8]. simplify_eq/=.
    assert (Hcut : go ++ take n chunk ++ drop n chunk ++ tm = wr) by by rewrite (app_assoc (take _ _)), take_drop.
    assert (Hno : pe ≠ None → False) by (intros Hx; by apply H4 in Hx).
    assert (Hcl : pt = false → Exists (λ e, match e with Sent SIGKILL _ => True | _ => False end) hi).
    { intros Hx. by destruct (H5 Hx) as [?|[?|[? ?] ] ]. }
    destruct (drop n chunk) as [|b rest] eqn:Hr; inv_fields.
    all: first [by rewrite <-Hcut, <-app_assoc | by split; [intros []%Hno|] | by intros Hx; left; apply Hcl
      | by intros [|[|] ]; [..|apply H6; auto] ].
  - destruct h as [ch tm hu pt dr pe ex ki wr go hi]. unfold reap in Hs. cbn in Hs. destruct ch as [|w|w]; simplify_eq/=. destruct Hi. inv_fields. eauto.
  - injection Hs as <-. unfold Shutdown. destruct g; cbn [negb]; [|by apply inv_signal].
    pose proof (inv_signal SIGHUP false answer ce h ltac:(done) Hi) as Hs.
    destruct (send_signal SIGHUP false answer ce h) as [h1 [e|] ]; [done|]. cbn in *.
    destruct (killer h1) eqn:Hk; [|done..]. destruct h1. cbn in Hk. subst. destruct Hs as [H1 H2 H3 H4 H5 H6 H7 H8]. by constructor.
  - unfold killer_step in Hs. destruct (killer h) eqn:Hk; [done| |done]. destruct fires.
    + injection Hs as <-. rewrite send_signal_killer. apply inv_signal; [|by apply inv_grace].
      intros _. cbn. rewrite elem_of_app, list_elem_of_singleton. by right.
    + destruct (exit h); [|done]. injection Hs as <-. destruct h. cbn in Hk. subst. destruct Hi as [H1 H2 H3 H4 H5 H6 H7 H8]. constructor; try done.
      unfold timer_kills in *. cbn in *. lia.
Qed.

Lemma run_snoc ls l h : run (ls ++ [l]) h = (h ← run ls h; exec l h).
Proof. revert h. induction ls as [|l' ls IH]; intros h; cbn; [by destruct (exec l h)|]. destruct (exec l' h); cbn; [apply IH|done]. Qed.

Lemma reachable_host_ind (P : Host → Prop) :
  P spawned → (∀ l h h', reachable h → exec l h = Some h' → P h → P h') → ∀ h, reachable h → P h.
Proof.
  intros H0 Hs h [ls Hl]. revert h Hl. induction ls as [|l ls IH] using rev_ind; intros h; [by intros [= <-]|].
  rewrite run_snoc. destruct (run ls spawned) as [h1|] eqn:E; [|done]. cbn. intros Hl. apply (Hs l h1 h); [by exists ls|done|by apply IH].
Qed.

Lemma host_inv h : reachable h → inv h.
Proof. apply reachable_host_ind; [apply inv_spawned|]. intros l h1 h2 _. apply host_exec_inv. Qed.

(** Output that has ended like a file is complete. *)
Lemma host_complete h : inv h → pipe_end h = Some None → ¬ killed h → got h = written h.
Proof.
  intros [H1 _ _ H4 _ H6 _ _] He Hk. destruct (H6 ltac:(by right; right)) as [|[_ Ht] ]; [done|].
  assert (Hd : drain h = DEnd) by (apply H4; by rewrite He). unfold held in H1. by rewrite Ht, Hd, !app_nil_r in H1.
Qed.

(** ** Properties *)

(** C8. What a host gives out.  Whatever the child, the kernel and the callers
    do: what was read from [Stdout] is the beginning of what the child wrote; when
    the output ends like a file and the child was not killed, it is all that the
    child wrote, also what it wrote just before it ended, and its side of the
    terminal is closed; [Wait] answers exactly when the child was waited for, with
    the exit status it ended with; and the timer kills at most once, and only
    after the grace period. *)
Theorem host_output (h : Host) : reachable h →
  got h `prefix_of` written h ∧
  (pipe_end h = Some None → ¬ killed h → got h = written h ∧ hung h = true) ∧
  (∀ r, Wait None h = Some r ↔ ∃ w err, child h = Reaped w ∧ exit h = Some r ∧ r = classifyExit err (Some w)) ∧
  (Sent SIGKILL true ∈ hist h → GraceOver ∈ hist h) ∧ timer_kills h ≤ 1.
Proof.
  intros Hi%host_inv. pose proof Hi as [H1 H2 H3 H4 H5 H6 H7 H8]. split_and!.
  - rewrite <-H1. by apply prefix_app_r.
  - intros He Hk. split; [by apply host_complete|]. by destruct (H6 ltac:(by right; right)) as [|[Hh _] ].
  - intros r. unfold Wait. destruct (child h) as [|w|w] eqn:Hc.
    + rewrite H3. split; [done|]. by intros (? & ? & ? & _).
    + rewrite H3. split; [done|]. by intros (? & ? & ? & _).
    + destruct H3 as [err Herr]. rewrite Herr. split; [intros [= <-]; eauto|]. by intros (? & ? & _ & ? & _).
  - done.
  - destruct (killer h); lia.
Qed.

(** Reading the output, and copying it. *)
Definition reading (l : label) : bool := match l with Drains _ _ | Reads _ => true | _ => false end.
Definition copying (h : Host) : Prop := drain h = DRead ∨ ∃ chunk, drain h = DWrite chunk.

(** The pipe ends, by reading alone; [all]: with all that was written. *)
Definition ends (all : Prop) (h : Host) : Prop :=
  ∃ ls h', Forall (λ l, reading l = true) ls ∧ run ls h = Some h' ∧ pipe_end h' ≠ None ∧
    (all → pipe_end h' = Some None ∧ got h' = written h).

Lemma ends_step (all all' : Prop) l h h' :
  reading l = true → exec l h = Some h' → written h' = written h → (all → all') → ends all' h' → ends all h.
Proof.
  intros Hl He Hw Ha (ls & h2 & Hls & Hr & Hp & Hg). exists (l :: ls), h2. split_and!; [by constructor|cbn; by rewrite He|done|].
  rewrite <-Hw. auto.
Qed.

Lemma close_ends err h : drain h = DClose err → ends (err = None ∧ got h = written h) h.
Proof.
  intros Hd. exists [Drains 0 None; Drains 0 None]. eexists. split; [by repeat constructor|]. split; [|split].
  - cbn. unfold drain_step. rewrite Hd. cbn. reflexivity.
  - done.
  - cbn. intros [-> ?]. by destruct (ptmx h).
Qed.

Lemma read_ends h : drain h = DRead → hung h = true ∨ ptmx h = false →
  ends (ptmx h = true ∧ got h ++ terminal h = written h) h.
Proof.
  destruct (ptmx h) eqn:Hp.
  - intros Hd [Hh|[=] ]. remember (terminal h) as tm eqn:Ht. revert h Hp Hd Hh Ht. induction tm as [|b tm IH]; intros h Hp Hd Hh Ht.
    + apply (ends_step _ (@None string = None ∧ got h = written h) (Drains 0 None) h (set_drain (DClose None) h));
        [done| |done| |by apply (close_ends None (set_drain (DClose None) h))].
      * cbn. unfold drain_step. by rewrite Hd, Hp, <-Ht, Hh.
      * cbn. rewrite app_nil_r. tauto.
    + set (h1 := set_drain (DWrite [b]) (set_terminal tm h)). set (h2 := set_drain DRead (set_got (got h ++ [b]) h1)).
      apply (ends_step _ (true = true ∧ got h2 ++ tm = written h2) (Drains 1 None) h h1); [done| |done| |].
      * cbn. unfold drain_step. rewrite Hd, Hp, <-Ht. cbn. by rewrite decide_True by (unfold copy_size; lia).
      * cbn. by rewrite <-app_assoc.
      * by apply (ends_step _ (true = true ∧ got h2 ++ tm = written h2) (Reads 1) h1 h2); [..|apply IH].
  - intros Hd _. apply (ends_step _ (@None string = None ∧ got h = written h) (Drains 0 None) h (set_drain (DClose None) h));
      [done| |done| |by apply (close_ends None (set_drain (DClose None) h))].
    + cbn. unfold drain_step. by rewrite Hd, Hp.
    + by intros [? _].
Qed.

Lemma host_closes h : inv h → hung h = true ∨ ptmx h = false → ends (copying h ∧ ptmx h = true) h.
Proof.
  intros [H1 H2 _ H4 _ _ _ _] Hh. unfold copying, held in *. destruct (drain h) as [|chunk|err|err|] eqn:Hd.
  - destruct (read_ends h Hd Hh) as (ls & h' & Hls & Hr & Hp & Hg). exists ls, h'. split_and!; [done..|]. intros [_ Hx]. by apply Hg.
  - set (h' := set_drain DRead (set_got (got h ++ chunk) h)).
    apply (ends_step _ (ptmx h' = true ∧ got h' ++ terminal h' = written h') (Reads (length chunk)) h h'); [done| |done| |by apply read_ends].
    + cbn. unfold Stdout_read. rewrite Hd. destruct chunk as [|b chunk]; [done|]. rewrite decide_True by (cbn; lia).
      cbn [fmap option_fmap option_map]. by rewrite firstn_all, drop_all.
    + cbn. rewrite <-app_assoc. tauto.
  - destruct (close_ends err h Hd) as (ls & h' & Hls & Hr & Hp & Hg). exists ls, h'. split_and!; [done..|]. by intros [ [?|[? ?] ] _].
  - exists [Drains 0 None], (set_drain DEnd (set_pipe_end (Some err) h)). split; [by repeat constructor|]. split; [|split].
    + cbn. unfold drain_step. by rewrite Hd.
    + done.
    + by intros [ [?|[? ?] ] _].
  - exists [], h. split; [constructor|]. split; [done|]. split; [by apply H4|]. by intros [ [?|[? ?] ] _].
Qed.

(** C9. A terminal comes to its end.  Once the child has ended, waiting for it
    makes [Wait] answer; after [Shutdown] has asked politely a timer is there, and
    when it fires the child that still runs is killed and the master closed; and
    when the child's side of the terminal or the master is closed, reading the
    output to its end is enough for the pipe to be closed, with all of the output
    when the master was still open. *)
Theorem host_ends (h : Host) : reachable h →
  (∀ w err, child h = Exited w → ∃ h', exec (Reaps err) h = Some h' ∧ Wait None h' = Some (classifyExit err (Some w))) ∧
  (∀ answer closeErr h', Shutdown true answer closeErr h = (h', None) → killer h' ≠ KNone) ∧
  (killer h = KTimer → (∀ w, child h ≠ Reaped w) →
     ∃ h', exec (Kills true SignalOk None) h = Some h' ∧ Sent SIGKILL true ∈ hist h' ∧ ptmx h' = false) ∧
  (hung h = true ∨ ptmx h = false → ends (copying h ∧ ptmx h = true) h).
Proof.
  intros Hi%host_inv. split_and!.
  - intros w err Hc. eexists. cbn. unfold reap. rewrite Hc. by split.
  - intros answer closeErr h' Hs. unfold Shutdown in Hs. cbn in Hs.
    destruct (send_signal SIGHUP false answer closeErr h) as [h1 [e|] ]; simplify_eq. by destruct (killer h1) eqn:Hk; [|rewrite Hk..].
  - intros Hk Hc. eexists. cbn. unfold killer_step. rewrite Hk. split; [done|]. unfold send_signal. cbn.
    destruct (child h) as [|w|w] eqn:Hch; [..|by destruct (Hc w)]; cbn; rewrite !elem_of_app, !list_elem_of_singleton; tauto.
  - by apply host_closes.
Qed.

(** ** Examples *)

(** A child that writes and ends before anything was read. *)
Definition short_run : list label :=
  [ChildWrites [x68; x69]; ChildExits 256; Hangs; Reaps WaitExitError; Drains 2 None; Reads 1; Reads 1; Drains 0 None;
   Drains 0 None; Drains 0 None].

Lemma short_state : ∃ h, reachable h ∧ pipe_end h = Some None ∧ got h = [x68; x69] ∧ ¬ killed h ∧ Wait None h = Some (mk_ExitInfo 1 0, None).
Proof.
  assert (Hr : match run short_run spawned with
    | Some h => (pipe_end h, got h, hist h, exit h) = (Some None, [x68; x69], [], Some (mk_ExitInfo 1 0, None))
    | None => False end) by (vm_compute; reflexivity).
  destruct (run short_run spawned) as [h|] eqn:E; [|destruct Hr]. injection Hr as Hp Hg Hh He. exists h.
  split; [by exists short_run|]. split_and!; [done..| |unfold Wait; by rewrite He]. unfold killed. rewrite Hh. by intros ?%Exists_nil.
Qed.

Lemma host_output_witness : ∃ h, reachable h ∧ got h = [x68; x69] ∧ got h = written h ∧ hung h = true.
Proof.
  destruct short_state as (h & Hr & Hp & Hg & Hk & _). exists h. destruct (host_output h Hr) as (_ & Hall & _).
  destruct (Hall Hp Hk) as [Hw Hh]. by split_and!.
Defined.

Lemma host_ends_witness : ∃ h, reachable h ∧ ends (copying h ∧ ptmx h = true) h.
Proof.
  assert (Hr : reachable (set_hung true spawned)) by by exists [Hangs].
  exists (set_hung true spawned). split; [exact Hr|]. destruct (host_ends _ Hr) as (_ & _ & _ & He). apply He. by left.
Defined.
