(* ===== verification/RelPath.v ===== *)
(** * Workspace-relative paths

    The content cache, the file tree and the session each normalise the paths
    they are given in the same way: backslashes become slashes, the path is
    cleaned, and a leading slash and the path [.] are dropped.  This file has
    what they share: the normal form as a list of elements, the parent and the
    last element of a normalised path, and the order by descendance. *)
From S2P Require Import Prelude GoPath PathFacts Safepath.
From stdpp Require Import options.

Definition normal_form (p : string) : string := join_slash (clean_elems p).

(** An element of a normalised path: [..] can only occur at its head. *)
Definition rel_seg (s : string) : Prop := s ≠ "" ∧ s ≠ "." ∧ no_slash s.

#[export] Instance rel_seg_dec s : Decision (rel_seg s).
Proof. unfold rel_seg. apply _. Defined.

(** The elements of a normalised path; the empty path is the root. *)
Definition rel_elems (p : string) : list string :=
  if decide (p = "") then [] else split_slash p.

(** A path all of whose elements are usable as names. *)
Definition rel_path (p : string) : Prop := Forall rel_seg (rel_elems p).

#[export] Instance rel_path_dec p : Decision (rel_path p).
Proof. unfold rel_path. apply _. Defined.

(** [q] is [p] or a descendant of [p]. *)
Definition under (p q : string) : Prop := rel_elems p `prefix_of` rel_elems q.

#[export] Instance under_dec p q : Decision (under p q).
Proof. unfold under. apply _. Defined.

Lemma rel_seg_ne l : Forall rel_seg l → Forall (λ x, x ≠ "" ∧ no_slash x) l.
Proof. intros H. eapply Forall_impl; [done|]. unfold rel_seg. naive_solver. Qed.
Lemma rel_seg_no_slash l : Forall rel_seg l → Forall (λ x, no_slash x) l.
Proof. intros H. eapply Forall_impl; [done|]. unfold rel_seg. naive_solver. Qed.
Lemma rel_seg_not_empty l : Forall rel_seg l → Forall (λ x, x ≠ "") l.
Proof. intros H. eapply Forall_impl; [done|]. unfold rel_seg. naive_solver. Qed.
#[export] Hint Resolve rel_seg_ne rel_seg_no_slash rel_seg_not_empty : go.

Lemma good_rel_seg l : Forall good_seg l → Forall rel_seg l.
Proof. intros H. eapply Forall_impl; [done|]. unfold good_seg, rel_seg. naive_solver. Qed.
#[export] Hint Resolve good_rel_seg : go.

(** ** Elements and paths correspond *)

Lemma rel_elems_join l : Forall rel_seg l → rel_elems (join_slash l) = l.
Proof.
  intros Hl. unfold rel_elems. destruct (decide (l = [])) as [->|Hne]; [done|].
  rewrite decide_False, split_join; auto with go.
  intros ?%join_slash_nil; auto with go.
Qed.

Lemma join_rel_elems p : join_slash (rel_elems p) = p.
Proof. unfold rel_elems. case_decide as Hp; [by rewrite Hp|]. apply join_split. Qed.

Lemma rel_elems_inj p q : rel_elems p = rel_elems q → p = q.
Proof. intros H. by rewrite <-(join_rel_elems p), H, join_rel_elems. Qed.

Lemma rel_elems_nil p : rel_elems p = [] ↔ p = "".
Proof. split; [|by intros ->]. intros H. by apply rel_elems_inj. Qed.

Lemma rel_path_nil : rel_path "".
Proof. constructor. Qed.

(** ** The normal form *)

Lemma clean_elems_rel p : Forall rel_seg (clean_elems p).
Proof.
  destruct (clean_elems_split p) as (n & g & -> & Hg).
  apply Forall_app. split; [|by auto with go]. by apply Forall_replicate.
Qed.

Lemma trim_prefix_rel l : Forall rel_seg l → trim_prefix "/" (join_slash l) = join_slash l.
Proof.
  intros Hl. apply trim_prefix_other, not_true_iff_false.
  intros [r Hr]%has_prefix_spec. destruct (decide (l = [])) as [->|Hne]; [done|].
  pose proof (f_equal split_slash Hr) as Hs. rewrite split_join in Hs by auto with go.
  rewrite slash_app in Hs. simpl in Hs. subst l. by apply Forall_cons in Hl as [(?&_) _].
Qed.

Lemma join_rel_dot l : Forall rel_seg l → join_slash l ≠ ".".
Proof.
  intros Hl Hs. destruct (decide (l = [])) as [->|Hne]; [done|].
  apply (f_equal split_slash) in Hs. rewrite split_join in Hs by auto with go.
  subst l. by apply Forall_cons in Hl as [(_&?&_) _].
Qed.

(** The normalisation all three components write out. *)
Lemma normal_form_clean p :
  p ≠ "" →
  (let cleaned := trim_prefix "/" (path_clean (ToSlash p)) in
   if decide (cleaned = ".") then "" else cleaned) = normal_form p.
Proof.
  intros Hp. cbv zeta. unfold normal_form, path_clean.
  assert (Hq : ToSlash p ≠ "") by by rewrite ToSlash_nil.
  rewrite (decide_False (P := ToSlash p = "")) by done. fold (is_abs (ToSlash p)).
  fold (clean_elems p). pose proof (clean_elems_rel p) as Hl.
  destruct (is_abs (ToSlash p)).
  - rewrite trim_prefix_app. by apply decide_False, join_rel_dot.
  - destruct (decide (join_slash (clean_elems p) = "")) as [->|]; [done|].
    rewrite trim_prefix_rel by done. by apply decide_False, join_rel_dot.
Qed.

Lemma normal_form_rel p : rel_path (normal_form p).
Proof. unfold rel_path, normal_form. rewrite rel_elems_join; apply clean_elems_rel. Qed.
#[export] Hint Resolve normal_form_rel rel_path_nil : go.

Lemma rel_elems_normal_form p : rel_elems (normal_form p) = clean_elems p.
Proof. apply rel_elems_join, clean_elems_rel. Qed.

Lemma normal_form_no_bslash p : str_elem bslash (normal_form p) = false.
Proof. apply clean_elems_no_bslash. Qed.

Lemma rel_path_not_abs p : rel_path p → is_abs p = false.
Proof.
  intros Hp. unfold rel_path in Hp. unfold is_abs.
  rewrite <-(join_rel_elems p). destruct (has_prefix "/" _) eqn:E; [|done].
  pose proof (trim_prefix_rel _ Hp) as Ht. unfold trim_prefix in Ht. rewrite E in Ht.
  apply has_prefix_spec in E as [r Hr]. rewrite Hr in Ht.
  change (str_drop (String.length "/") ("/" +:+ r)) with r in Ht.
  exfalso. apply (f_equal String.length) in Ht. rewrite str_length_app in Ht. simpl in Ht. lia.
Qed.

(** A path that is already in normal form is left alone. *)
Lemma normal_form_idem p : normal_form (normal_form p) = normal_form p.
Proof.
  unfold normal_form at 1. f_equal. unfold clean_elems at 1.
  rewrite ToSlash_id by apply normal_form_no_bslash.
  rewrite rel_path_not_abs by auto with go.
  destruct (decide (clean_elems p = [])) as [Hn|Hn].
  { unfold normal_form. by rewrite Hn. }
  unfold normal_form. rewrite split_join by (auto using clean_elems_no_slash).
  f_equal. apply resolve_clean. destruct (clean_elems_split p) as (n & g & -> & Hg).
  rewrite reverse_app, reverse_replicate. apply ok_stack_split.
  exists n, (reverse g). split_and!; [done|by apply Forall_reverse|done].
Qed.

(** ** Parents *)

Definition parent (p : string) : string :=
  match cut_last_slash p with Some (a, _) => a | None => "" end.
Definition last_name (p : string) : string :=
  match cut_last_slash p with Some (_, b) => b | None => p end.
Definition child (p name : string) : string :=
  if decide (p = "") then name else p +:+ "/" +:+ name.

Lemma rel_elems_child p name : name ≠ "" → no_slash name → rel_elems (child p name) = rel_elems p ++ [name].
Proof.
  intros Hn Hs. unfold child, rel_elems. destruct (decide (p = "")) as [->|Hp].
  - by rewrite decide_False, split_no_slash by done.
  - rewrite decide_False by (intros [_ [=]]%str_app_nil).
    by rewrite split_slash_app, (split_no_slash name).
Qed.

Lemma parent_child p name : no_slash name → parent (child p name) = p ∧ last_name (child p name) = name.
Proof.
  intros Hs. unfold parent, last_name, child. case_decide as Hp.
  - rewrite (proj2 (cut_last_slash_None name) Hs). by rewrite Hp.
  - by rewrite cut_last_slash_app.
Qed.

(** Every path but the root is the child of its parent. *)
Lemma child_parent p : rel_path p → child (parent p) (last_name p) = p.
Proof.
  intros Hp. unfold child, parent, last_name.
  destruct (cut_last_slash p) as [[a b]|] eqn:E; [|done].
  apply cut_last_slash_Some in E as [-> Hb]. case_decide as Ha; [|done]. subst a.
  exfalso. unfold rel_path, rel_elems in Hp. rewrite decide_False in Hp by done.
  rewrite split_slash_app in Hp. by apply Forall_cons in Hp as [(?&_) _].
Qed.

Lemma parent_elems p :
  rel_path p → p ≠ "" →
  rel_elems p = rel_elems (parent p) ++ [last_name p] ∧
  rel_seg (last_name p) ∧ rel_path (parent p).
Proof.
  intros Hp Hne. assert (Hns : no_slash (last_name p)).
  { unfold last_name. destruct (cut_last_slash p) as [[a b]|] eqn:E.
    - by apply cut_last_slash_Some in E as [_ ?].
    - by apply cut_last_slash_None. }
  assert (Hn0 : last_name p ≠ "").
  { unfold last_name. destruct (cut_last_slash p) as [[a b]|] eqn:E; [|done].
    apply cut_last_slash_Some in E as [-> Hb]. intros ->.
    unfold rel_path, rel_elems in Hp. rewrite decide_False in Hp by done.
    rewrite split_slash_app in Hp. apply Forall_app in Hp as [_ Hp].
    by apply Forall_cons in Hp as [(?&_) _]. }
  assert (Hel : rel_elems p = rel_elems (parent p) ++ [last_name p]).
  { rewrite <-(child_parent p Hp) at 1. by apply rel_elems_child. }
  unfold rel_path in *. rewrite Hel in Hp. apply Forall_app in Hp as [Hp1 Hp2].
  split_and!; [done| |done]. by apply Forall_cons in Hp2 as [? _].
Qed.

Lemma rel_path_child p name : rel_path p → rel_seg name → rel_path (child p name).
Proof.
  intros Hp (?&?&?). unfold rel_path. rewrite rel_elems_child by done.
  apply Forall_app. split; [done|]. by repeat constructor.
Qed.
#[export] Hint Resolve rel_path_child : go.

Lemma child_not_root p name : name ≠ "" → no_slash name → child p name ≠ "".
Proof.
  intros Hn Hs E. apply rel_elems_nil in E. rewrite rel_elems_child in E by done.
  by destruct (rel_elems p).
Qed.

Lemma child_inj p q a b : no_slash a → no_slash b → child p a = child q b → p = q ∧ a = b.
Proof.
  intros Ha Hb E. destruct (parent_child p a Ha) as [Hp1 Hl1], (parent_child q b Hb) as [Hp2 Hl2].
  rewrite E in *. split; congruence.
Qed.

Lemma parent_length p : rel_path p → p ≠ "" → S (length (rel_elems (parent p))) = length (rel_elems p).
Proof. intros Hp Hne. destruct (parent_elems p Hp Hne) as (-> & _). rewrite length_app. simpl. lia. Qed.

(** ** Descendants *)

#[export] Instance under_preorder : PreOrder under.
Proof. unfold under. split; [intros ?; done|]. intros ???. by etrans. Qed.

Lemma under_root p : under "" p.
Proof. apply prefix_nil. Qed.

Lemma under_length p q : under p q → length (rel_elems p) ≤ length (rel_elems q).
Proof. apply prefix_length. Qed.

Lemma under_antisymm p q : under p q → under q p → p = q.
Proof.
  intros H1 H2. apply rel_elems_inj. destruct H1 as [k Hk].
  apply under_length in H2. rewrite Hk, length_app in H2.
  destruct k; simpl in *; [by rewrite app_nil_r in Hk|lia].
Qed.

Lemma under_child p name : name ≠ "" → no_slash name → under p (child p name).
Proof. intros. unfold under. rewrite rel_elems_child by done. by apply prefix_app_r. Qed.

Lemma under_parent p : rel_path p → under (parent p) p.
Proof.
  intros Hp. destruct (decide (p = "")) as [->|Hne]; [apply under_root|].
  destruct (parent_elems p Hp Hne) as (He & _). unfold under. rewrite He. by apply prefix_app_r.
Qed.

(** A descendant other than [p] itself is under the parent of the path. *)
Lemma under_cases p q : rel_path q → under p q ↔ p = q ∨ (q ≠ "" ∧ under p (parent q)).
Proof.
  intros Hq. split.
  - intros [k Hk]. destruct k as [|x k _] using rev_ind.
    + left. apply rel_elems_inj. by rewrite app_nil_r in Hk.
    + right. assert (Hne : q ≠ "").
      { intros ->. destruct (rel_elems p), k; discriminate Hk. }
      split; [done|]. destruct (parent_elems q Hq Hne) as (He & _).
      rewrite He, app_assoc in Hk. apply app_inj_tail in Hk as [Hk _].
      unfold under. rewrite Hk. by apply prefix_app_r.
  - intros [->|[_ H]]; [done|]. etrans; [done|]. by apply under_parent.
Qed.

(** A proper descendant is under exactly one child. *)
Lemma under_child_cases p q :
  rel_path q → under p q → p ≠ q → ∃ name, rel_seg name ∧ under (child p name) q.
Proof.
  intros Hq [k Hk] Hne. destruct k as [|x k].
  { destruct Hne. apply rel_elems_inj. by rewrite app_nil_r in Hk. }
  unfold rel_path in Hq. rewrite Hk in Hq. apply Forall_app in Hq as [_ Hx].
  apply Forall_cons in Hx as [(Hx1&?&Hx2) _]. exists x. split; [done|].
  unfold under. rewrite rel_elems_child by done. rewrite Hk.
  exists k. by rewrite <-app_assoc.
Qed.

Lemma under_child_inj p a b q :
  a ≠ "" → no_slash a → b ≠ "" → no_slash b →
  under (child p a) q → under (child p b) q → a = b.
Proof.
  intros ???? [k1 H1] [k2 H2]. rewrite rel_elems_child in H1, H2 by done.
  rewrite H1, <-!app_assoc in H2. apply (inj (app _)) in H2. by simplify_eq/=.
Qed.

(** Two comparable ancestors of a path are ordered. *)
Lemma under_total p q r : under p r → under q r → under p q ∨ under q p.
Proof. apply prefix_weak_total. Qed.
