(* ===== verification/ContentCache.v ===== *)
(** * The whole-file content cache (pkg/contentcache/cache.go)

    The cache keeps a doubly linked list of elements, most recently used first,
    and a map from normalised paths to elements.  The list of [container/list]
    is a list of element identities; the value each element points to is in a
    heap.  A byte budget bounds the contents; the sum of their sizes is an
    [int64]. *)
From S2P Require Import Prelude GoPath PathFacts Safepath RelPath.
From stdpp Require Import options.

Record Signature : Type := mk_signature { Size : Z; ModTime : Z }.

#[export] Instance Signature_eq_dec : EqDecision Signature.
Proof. solve_decision. Defined.

Record entry : Type := mk_entry { path : string; sig : Signature; content : bytes }.

#[export] Instance entry_eq_dec : EqDecision entry.
Proof. solve_decision. Defined.

(** The dynamic type of [list.Element.Value] is checked by the code. *)
Inductive any : Type :=
  | EntryVal (e : entry)
  | OtherVal.

(** The identity of a [*list.Element]. *)
Abbreviation element := nat.

Record Cache : Type := mk_cache {
  maxBytes : Z;
  used : Z;
  lru : list element;            (* front to back *)
  values : gmap element any;     (* the [Value] of each element *)
  entries : gmap string element;
  next : element;                (* the next element to be allocated *)
}.

(** ** Helpers *)

Definition normalize (relPath : string) : string :=
  let relPath := replace_byte bslash slash relPath in
  if bool_decide (relPath = "") || bool_decide (relPath = ".") || bool_decide (relPath = "/")
  then ""
  else
    let cleaned := trim_prefix "/" (path_clean relPath) in
    if decide (cleaned = ".") then "" else cleaned.

Definition cloneBytes (b : bytes) : bytes :=
  match b with [] => [] | _ => b end.

Definition matchesPrefix (path prefix : string) : bool :=
  if decide (prefix = "") then true
  else bool_decide (path = prefix) || has_prefix (prefix +:+ "/") path.

(** [elem.Value] *)
Definition value_of (c : Cache) (e : element) : any := default OtherVal (values c !! e).

Definition len (b : bytes) : Z := Z.of_nat (length b).

(** ** [container/list] *)

Definition list_remove (e : element) (l : list element) : list element :=
  filter (λ x, x ≠ e) l.

Definition list_move_to_front (e : element) (l : list element) : list element :=
  if decide (e ∈ l) then e :: list_remove e l else l.

(** ** Operations *)

Definition New (max : Z) : Cache := mk_cache max 0 [] ∅ ∅ 0.

Definition MaxBytes (c : Cache) : Z := maxBytes c.

(** The first key, in the order of the iteration, whose element is the target. *)
Fixpoint deleteUnknownElement (order : list string) (m : gmap string element) (target : element) :
    gmap string element :=
  match order with
  | [] => m
  | key :: order' =>
    if decide (m !! key = Some target) then delete key m
    else deleteUnknownElement order' m target
  end.

Section operations.
Context `{MapRange}.

Definition removeElement (e : element) (c : Cache) : Cache :=
  match value_of c e with
  | EntryVal item =>
    let used' := int64 (used c - len (content item)) in
    mk_cache (maxBytes c) (if decide (used' < 0)%Z then 0%Z else used')
      (list_remove e (lru c)) (values c) (delete (path item) (entries c)) (next c)
  | OtherVal =>
    mk_cache (maxBytes c) (used c) (list_remove e (lru c)) (values c)
      (deleteUnknownElement (range_keys (dom (entries c))) (entries c) e) (next c)
  end.

Definition Get (relPath : string) (s : Signature) (c : Cache) : Cache * option bytes :=
  if decide (maxBytes c ≤ 0)%Z then (c, None)
  else
    match entries c !! normalize relPath with
    | None => (c, None)
    | Some elem =>
      match value_of c elem with
      | OtherVal => (removeElement elem c, None)
      | EntryVal item =>
        if decide (sig item = s) then
          (mk_cache (maxBytes c) (used c) (list_move_to_front elem (lru c))
             (values c) (entries c) (next c), Some (cloneBytes (content item)))
        else (removeElement elem c, None)
      end
    end.

Definition Invalidate (relPath : string) (c : Cache) : Cache :=
  if decide (maxBytes c ≤ 0)%Z then c
  else match entries c !! normalize relPath with
       | Some elem => removeElement elem c
       | None => c
       end.

(** [for c.used > c.maxBytes { ... }] *)
Fixpoint evict_loop (fuel : nat) (c : Cache) : Cache :=
  match fuel with
  | 0 => c
  | S f =>
    if decide (used c > maxBytes c)%Z then
      match last (lru c) with
      | None => c
      | Some back => evict_loop f (removeElement back c)
      end
    else c
  end.

(** Every iteration removes an element of the list. *)
Definition evictLocked (c : Cache) : Cache := evict_loop (S (length (lru c))) c.

Definition Put (relPath : string) (s : Signature) (cont : bytes) (c : Cache) : Cache * bool :=
  if decide (maxBytes c ≤ 0)%Z then (c, false)
  else
    let key := normalize relPath in
    let size := len cont in
    if decide (size > maxBytes c)%Z then (Invalidate key c, false)
    else
      let c := match entries c !! key with
               | Some elem => removeElement elem c
               | None => c
               end in
      let item := mk_entry key s (cloneBytes cont) in
      let elem := next c in
      let c := mk_cache (maxBytes c) (int64 (used c + len (content item)))
                 (elem :: lru c) (<[elem := EntryVal item]> (values c))
                 (<[key := elem]> (entries c)) (S elem) in
      (evictLocked c, true).

(** [for path, elem := range c.entries]: a key deleted during the iteration
    before it is reached is not visited. *)
Definition InvalidatePrefix (relPath : string) (c : Cache) : Cache :=
  if decide (maxBytes c ≤ 0)%Z then c
  else
    let key := normalize relPath in
    foldl (λ c path,
      match entries c !! path with
      | Some elem => if matchesPrefix path key then removeElement elem c else c
      | None => c
      end) c (range_keys (dom (entries c))).

Definition Clear (c : Cache) : Cache :=
  mk_cache (maxBytes c) 0 [] (values c) ∅ (next c).

Definition Len (c : Cache) : Z := Z.of_nat (size (entries c)).
End operations.

(** ** Specification: a least-recently-used list of entries with a byte budget *)
Module Spec.
Definition total (l : list entry) : Z := foldr (λ e n, (len (content e) + n)%Z) 0%Z l.

Definition lookup (key : string) (l : list entry) : option entry :=
  snd <$> list_find (λ e, path e = key) l.

Definition remove (key : string) (l : list entry) : list entry :=
  filter (λ e, path e ≠ key) l.

(** The longest front part of the list that fits the budget. *)
Fixpoint keep (budget : Z) (l : list entry) : list entry :=
  match l with
  | [] => []
  | e :: l' =>
    if decide (len (content e) ≤ budget)%Z then e :: keep (budget - len (content e)) l' else []
  end.

Definition get (key : string) (s : Signature) (l : list entry) : list entry * option bytes :=
  match lookup key l with
  | None => (l, None)
  | Some e =>
    if decide (sig e = s) then (e :: remove key l, Some (content e)) else (remove key l, None)
  end.

Definition put (max : Z) (key : string) (s : Signature) (cont : bytes) (l : list entry) :
    list entry * bool :=
  if decide (max ≤ 0)%Z then (l, false)
  else if decide (len cont > max)%Z then (remove key l, false)
  else (keep max (mk_entry key s cont :: remove key l), true).

Definition invalidate_prefix (key : string) (l : list entry) : list entry :=
  filter (λ e, matchesPrefix (path e) key = false) l.
End Spec.

(** The entries an implementation state represents. *)
Definition entry_of (c : Cache) (e : element) : option entry :=
  match value_of c e with EntryVal item => Some item | OtherVal => None end.
Definition abs (c : Cache) : list entry := omap (entry_of c) (lru c).

(** ** Invariant *)

(** The list and the map hold the same elements, each of which stores an entry
    under its own normalised path, and [used] is the size of the contents. *)
Record linked (c : Cache) : Prop := {
  lk_nodup : NoDup (lru c);
  lk_fresh e : e ∈ lru c → e < next c;
  lk_lru e : e ∈ lru c → ∃ item, value_of c e = EntryVal item ∧ entries c !! path item = Some e;
  lk_entries k e : entries c !! k = Some e →
    e ∈ lru c ∧ ∃ item, value_of c e = EntryVal item ∧ path item = k;
  lk_used : used c = Spec.total (abs c);
}.

(** The budget is small enough for the sum of [used] and one more content to
    fit an [int64]. *)
Record wf (c : Cache) : Prop := {
  wf_linked : linked c;
  wf_max : (maxBytes c < 2 ^ 62)%Z;
  wf_used : (used c ≤ Z.max 0 (maxBytes c))%Z;
  wf_disabled : (maxBytes c ≤ 0)%Z → lru c = [];
}.

(** ** Lemmas on the specification *)

Lemma len_nonneg b : (0 ≤ len b)%Z.
Proof. unfold len. lia. Qed.
#[export] Hint Resolve len_nonneg : go.

Lemma total_nonneg l : (0 ≤ Spec.total l)%Z.
Proof. induction l as [|e l IH]; simpl; [lia|]. pose proof (len_nonneg (content e)). lia. Qed.
#[export] Hint Resolve total_nonneg : go.

Lemma lookup_spec key l e :
  NoDup (path <$> l) → Spec.lookup key l = Some e ↔ e ∈ l ∧ path e = key.
Proof.
  unfold Spec.lookup. induction l as [|x l IH]; intros Hnd; simpl.
  { set_solver. }
  apply NoDup_cons in Hnd as [Hx Hnd]. case_decide as Hk; simpl.
  - split.
    + intros [= ->]. set_solver.
    + intros [[->|He]%elem_of_cons Hp]; [done|].
      destruct Hx. rewrite Hk, <-Hp. by apply list_elem_of_fmap_2.
  - rewrite <-option_fmap_compose. etrans; [|etrans; [apply (IH Hnd)|]].
    + by destruct (list_find _ l) as [[]|].
    + set_solver.
Qed.

Lemma lookup_None key l : Spec.lookup key l = None ↔ ∀ e, e ∈ l → path e ≠ key.
Proof.
  unfold Spec.lookup. rewrite fmap_None, list_find_None, Forall_forall. done.
Qed.

Lemma remove_id key l : Spec.lookup key l = None → Spec.remove key l = l.
Proof. rewrite lookup_None. intros. by apply list_filter_id. Qed.

Lemma total_remove key l e :
  NoDup (path <$> l) → Spec.lookup key l = Some e →
  Spec.total l = (len (content e) + Spec.total (Spec.remove key l))%Z.
Proof.
  unfold Spec.lookup, Spec.remove. induction l as [|x l IH]; intros Hnd; [done|].
  apply NoDup_cons in Hnd as [Hx Hnd]. rewrite filter_cons. simpl. case_decide as Hk; simpl.
  - intros [= ->]. rewrite decide_False by auto. f_equal. f_equal. symmetry.
    apply list_filter_id. intros y Hy ?. destruct Hx. rewrite Hk.
    replace key with (path y) by done. by apply list_elem_of_fmap_2.
  - rewrite decide_True by done. intros Hl. simpl. rewrite IH; [lia|done|].
    by destruct (list_find _ l) as [[]|].
Qed.

Lemma NoDup_paths_filter P `{∀ x, Decision (P x)} l :
  NoDup (path <$> l) → NoDup (path <$> filter P l).
Proof. intros Hl. eapply sublist_NoDup; [done|]. by apply fmap_sublist, sublist_filter. Qed.

Lemma keep_total budget l : (0 ≤ budget)%Z → (Spec.total (Spec.keep budget l) ≤ budget)%Z.
Proof.
  revert budget. induction l as [|e l IH]; intros budget Hb; simpl; [lia|].
  case_decide as He; simpl; [|lia]. specialize (IH (budget - len (content e))%Z). lia.
Qed.

Lemma keep_all budget l : (Spec.total l ≤ budget)%Z → Spec.keep budget l = l.
Proof.
  revert budget. induction l as [|e l IH]; intros budget; simpl; [done|].
  intros Hl. pose proof (total_nonneg l). rewrite decide_True by lia. f_equal. apply IH. lia.
Qed.

Lemma total_app l1 l2 : Spec.total (l1 ++ l2) = (Spec.total l1 + Spec.total l2)%Z.
Proof. induction l1 as [|e l1 IH]; simpl; [done|]. rewrite IH. lia. Qed.

(** Dropping the last entry of a list over the budget does not change what is
    kept. *)
Lemma keep_snoc budget l e :
  (Spec.total (l ++ [e]) > budget)%Z → Spec.keep budget (l ++ [e]) = Spec.keep budget l.
Proof.
  revert budget. induction l as [|x l IH]; intros budget Hgt; simpl in *.
  { rewrite decide_False; [done|lia]. }
  case_decide; [|done]. f_equal. apply IH. lia.
Qed.

(** ** Lemmas on the representation *)

Section representation.
Context `{MapRange}.
Implicit Types (c : Cache) (e : element) (item : entry).

Lemma entry_of_Some c e item : entry_of c e = Some item ↔ value_of c e = EntryVal item.
Proof. unfold entry_of. destruct (value_of c e); naive_solver. Qed.

Lemma elem_of_abs c item : item ∈ abs c ↔ ∃ e, e ∈ lru c ∧ value_of c e = EntryVal item.
Proof.
  unfold abs. rewrite list_elem_of_omap. by setoid_rewrite entry_of_Some.
Qed.

(** Two elements of the list with the same path are the same element. *)
Lemma linked_inj c e1 e2 i1 i2 :
  linked c → e1 ∈ lru c → e2 ∈ lru c →
  value_of c e1 = EntryVal i1 → value_of c e2 = EntryVal i2 → path i1 = path i2 → e1 = e2.
Proof.
  intros Hc H1 H2 Hv1 Hv2 Hp.
  destruct (lk_lru _ Hc _ H1) as (j1 & ? & Hj1), (lk_lru _ Hc _ H2) as (j2 & ? & Hj2).
  simplify_eq. congruence.
Qed.

Lemma abs_NoDup c : linked c → NoDup (path <$> abs c).
Proof.
  intros Hc. apply NoDup_fmap_omap; [apply Hc|].
  intros x1 x2 y1 y2 H1 H2 Hy1%entry_of_Some Hy2%entry_of_Some. by eapply linked_inj.
Qed.

Lemma lookup_abs c key :
  linked c → Spec.lookup key (abs c) = entries c !! key ≫= entry_of c.
Proof.
  intros Hc. apply option_eq. intros item.
  rewrite lookup_spec, elem_of_abs, bind_Some by by apply abs_NoDup.
  setoid_rewrite entry_of_Some. split.
  - intros [(e & He & Hv) <-]. destruct (lk_lru _ Hc _ He) as (? & ? & ?).
    exists e. split; congruence.
  - intros (e & He & Hv). destruct (lk_entries _ Hc _ _ He) as (? & x & ? & <-).
    assert (item = x) as -> by congruence. split; [by exists e|done].
Qed.

Lemma value_of_values c c' e : values c' = values c → value_of c' e = value_of c e.
Proof. unfold value_of. by intros ->. Qed.

Lemma omap_entry_of c c' (l : list element) : values c' = values c → omap (entry_of c') l = omap (entry_of c) l.
Proof. unfold entry_of, value_of. by intros ->. Qed.

Lemma elem_of_list_remove e x l : x ∈ list_remove e l ↔ x ≠ e ∧ x ∈ l.
Proof. unfold list_remove. by rewrite list_elem_of_filter. Qed.

(** Removing an element of the list removes the entry it stores, and gives
    back its bytes. *)
Lemma removeElement_spec c e item :
  linked c → e ∈ lru c → value_of c e = EntryVal item → (used c < 2 ^ 63)%Z →
  linked (removeElement e c) ∧
  abs (removeElement e c) = Spec.remove (path item) (abs c) ∧
  used (removeElement e c) = (used c - len (content item))%Z ∧
  lru (removeElement e c) = list_remove e (lru c) ∧
  entries (removeElement e c) = delete (path item) (entries c) ∧
  maxBytes (removeElement e c) = maxBytes c ∧ next (removeElement e c) = next c ∧
  values (removeElement e c) = values c.
Proof.
  intros Hc He Hv Hmax.
  destruct (lk_lru _ Hc _ He) as (item' & Hv' & Hent).
  assert (item' = item) as -> by congruence. clear Hv'.
  assert (Habs : omap (entry_of c) (list_remove e (lru c)) = Spec.remove (path item) (abs c)).
  { apply omap_filter. intros x y Hx Hy%entry_of_Some. split; [|congruence].
    intros Hne Hp. apply Hne. by eapply linked_inj. }
  assert (Htot : Spec.total (abs c) =
    (len (content item) + Spec.total (Spec.remove (path item) (abs c)))%Z).
  { apply total_remove; [by apply abs_NoDup|]. rewrite lookup_abs, Hent by done. simpl.
    by apply entry_of_Some. }
  assert (Hused : int64 (used c - len (content item)) = (used c - len (content item))%Z).
  { apply int64_id. unfold in_int64. rewrite (lk_used _ Hc) in *.
    pose proof (total_nonneg (Spec.remove (path item) (abs c))).
    pose proof (len_nonneg (content item)). lia. }
  unfold removeElement. rewrite Hv, Hused. rewrite decide_False; cycle 1.
  { rewrite (lk_used _ Hc), Htot.
    pose proof (total_nonneg (Spec.remove (path item) (abs c))). lia. }
  split; [|done]. constructor; simpl.
  - apply NoDup_filter, Hc.
  - intros x [_ Hx]%elem_of_list_remove. by apply Hc.
  - intros x [Hne Hx]%elem_of_list_remove. destruct (lk_lru _ Hc _ Hx) as (i & Hi & Hk).
    exists i. split; [done|]. rewrite lookup_delete_ne; [done|].
    intros Hp. apply Hne. by eapply linked_inj.
  - intros k x [Hk Hx]%lookup_delete_Some. destruct (lk_entries _ Hc _ _ Hx) as (? & i & ? & <-).
    split; [|by exists i]. apply elem_of_list_remove. split; [|done]. intros ->. congruence.
  - change (used c - len (content item) = Spec.total (omap (entry_of c) (list_remove e (lru c))))%Z.
    rewrite Habs, (lk_used _ Hc), Htot. lia.
Qed.

(** The eviction loop keeps the longest front part that fits, and its fuel is
    enough: the result is within the budget. *)
Lemma evict_loop_spec n c :
  linked c → (0 ≤ maxBytes c)%Z → (used c < 2 ^ 63)%Z → length (lru c) < n →
  linked (evict_loop n c) ∧ abs (evict_loop n c) = Spec.keep (maxBytes c) (abs c) ∧
  (used (evict_loop n c) ≤ maxBytes c)%Z ∧ maxBytes (evict_loop n c) = maxBytes c.
Proof.
  revert c. induction n as [|n IH]; intros c Hc Hmax Hov Hn; [lia|]. simpl.
  case_decide as Hgt; cycle 1.
  { rewrite keep_all by (rewrite <-(lk_used _ Hc); lia). auto with lia. }
  destruct (last (lru c)) as [e|] eqn:Hlast.
  - apply last_Some in Hlast as [l Hl].
    assert (He : e ∈ lru c) by (rewrite Hl; set_solver).
    destruct (lk_lru _ Hc _ He) as (item & Hv & _).
    destruct (removeElement_spec c e item Hc He Hv Hov) as (Hc' & Habs & Hu & Hlru & _ & Hm & _ & Hval).
    assert (Hrem : list_remove e (lru c) = l).
    { pose proof (lk_nodup _ Hc) as Hnd. rewrite Hl in Hnd |- *.
      apply NoDup_app in Hnd as (_ & Hnot & _). unfold list_remove. rewrite filter_app.
      rewrite (list_filter_id _ l) by (intros x Hx ->; apply (Hnot e); set_solver).
      rewrite (list_filter_none _ [e]) by set_solver. apply app_nil_r. }
    assert (Hsnoc : abs c = abs (removeElement e c) ++ [item]).
    { unfold abs. rewrite Hlru, Hrem, Hl, omap_app. f_equal.
      - symmetry. by apply omap_entry_of.
      - by rewrite omap_cons, (proj2 (entry_of_Some c e item) Hv). }
    pose proof (len_nonneg (content item)).
    destruct (IH (removeElement e c)) as (? & Habs' & ? & ?);
      [done|by rewrite Hm|lia| |].
    { rewrite Hlru, Hrem. rewrite Hl, length_app in Hn. simpl in Hn. lia. }
    rewrite Hm in *. split; [done|]. rewrite Habs', Hsnoc. split; [|done].
    rewrite keep_snoc; [done|]. rewrite <-Hsnoc, <-(lk_used _ Hc). done.
  - apply last_None in Hlast. exfalso.
    rewrite (lk_used _ Hc) in Hgt. unfold abs in Hgt. rewrite Hlast in Hgt. simpl in Hgt. lia.
Qed.

(** The element stored under a key is found by the specification's lookup. *)
Lemma entries_cases c key :
  linked c →
  (entries c !! key = None ∧ Spec.lookup key (abs c) = None) ∨
  ∃ e item, entries c !! key = Some e ∧ e ∈ lru c ∧ value_of c e = EntryVal item ∧
            path item = key ∧ Spec.lookup key (abs c) = Some item.
Proof.
  intros Hc. rewrite lookup_abs by done.
  destruct (entries c !! key) as [e|] eqn:He; [right|by left].
  destruct (lk_entries _ Hc _ _ He) as (Hin & item & Hv & Hp).
  exists e, item. split_and!; [done..|]. by apply entry_of_Some.
Qed.

Lemma cache_normalize_normal_form p : normalize p = normal_form p.
Proof.
  unfold normalize. fold (ToSlash p).
  destruct (decide (p = "")) as [->|Hp]; [done|]. rewrite <-normal_form_clean by done.
  do 3 (let E := fresh in case_bool_decide as E; [rewrite E; vm_compute; reflexivity|]).
  reflexivity.
Qed.

Lemma matchesPrefix_under q p : matchesPrefix q p = true ↔ under p q.
Proof.
  unfold matchesPrefix. case_decide as Hp.
  { rewrite Hp. split; [intros _; apply under_root|done]. }
  rewrite orb_true_iff, bool_decide_eq_true, has_prefix_spec. unfold under, rel_elems.
  rewrite (decide_False (P := p = "")) by done. split.
  - intros [->|[r ->]]; [by rewrite decide_False|].
    rewrite decide_False by by intros [[? _]%str_app_nil _]%str_app_nil.
    rewrite <-str_app_assoc, split_slash_app. by apply prefix_app_r.
  - case_decide as Hq.
    { intros Hn%prefix_nil_inv. by destruct (split_slash_ne p). }
    intros [k Hk]. destruct k as [|x k].
    { left. rewrite app_nil_r in Hk. by rewrite <-(join_split q), Hk, join_split. }
    right. exists (join_slash (x :: k)).
    rewrite <-(join_split q), Hk, join_slash_app, join_split by (done || apply split_slash_ne).
    by rewrite str_app_assoc.
Qed.

Lemma normalize_idem p : normalize (normalize p) = normalize p.
Proof. rewrite !cache_normalize_normal_form. apply normal_form_idem. Qed.

Lemma cloneBytes_id b : cloneBytes b = b.
Proof. by destruct b. Qed.

Lemma wf_used_63 c : wf c → (used c < 2 ^ 63)%Z.
Proof. intros [_ ? ? _]. lia. Qed.
Hint Resolve wf_used_63 : core.

Lemma wf_disabled_abs c : wf c → (maxBytes c ≤ 0)%Z → abs c = [].
Proof. intros Hc Hm. unfold abs. by rewrite (wf_disabled _ Hc Hm). Qed.

Lemma wf_removeElement c e :
  wf c → e ∈ lru c → (maxBytes c > 0)%Z → wf (removeElement e c).
Proof.
  intros Hc He Hm. destruct (lk_lru _ (wf_linked _ Hc) _ He) as (item & Hv & _).
  destruct (removeElement_spec c e item (wf_linked _ Hc) He Hv (wf_used_63 _ Hc))
    as (Hl & _ & Hu & Hlru & _ & Hmax & _).
  pose proof (wf_used _ Hc). pose proof (wf_max _ Hc). pose proof (len_nonneg (content item)).
  constructor; rewrite ?Hmax, ?Hu; [done|lia|lia|intros; lia].
Qed.

Lemma cache_New_wf max : (max < 2 ^ 62)%Z → wf (New max).
Proof.
  intros Hm. constructor; simpl; [|done|lia|done].
  constructor; simpl; [constructor|set_solver|set_solver|intros k e [=]|done].
Qed.

(** Moving an element of the list to the front keeps the links. *)
Lemma move_to_front_spec c e item :
  linked c → e ∈ lru c → value_of c e = EntryVal item →
  let c' := mk_cache (maxBytes c) (used c) (list_move_to_front e (lru c))
              (values c) (entries c) (next c) in
  linked c' ∧ abs c' = item :: Spec.remove (path item) (abs c).
Proof.
  intros Hc He Hv. destruct (lk_lru _ Hc _ He) as (item' & Hv' & Hent).
  assert (item' = item) as -> by congruence. clear Hv'. intros c'.
  assert (Hl : lru c' = e :: list_remove e (lru c)).
  { unfold c', list_move_to_front. simpl. by rewrite decide_True. }
  assert (Helem : ∀ x, x ∈ lru c' ↔ x ∈ lru c).
  { intros x. rewrite Hl, elem_of_cons, elem_of_list_remove. destruct (decide (x = e)); naive_solver. }
  assert (Habs : abs c' = item :: Spec.remove (path item) (abs c)).
  { unfold abs at 1. rewrite Hl. rewrite (omap_entry_of c c') by done.
    rewrite omap_cons, (proj2 (entry_of_Some c e item) Hv). f_equal.
    apply omap_filter. intros x y Hx Hy%entry_of_Some. split; [|congruence].
    intros Hne Hp. apply Hne. by eapply linked_inj. }
  split; [|done]. constructor.
  - rewrite Hl. constructor; [by rewrite elem_of_list_remove; intros [? _]|].
    apply NoDup_filter, Hc.
  - intros x Hx%Helem. by apply Hc.
  - intros x Hx%Helem. by apply Hc.
  - intros k x Hx. rewrite Helem. by apply Hc.
  - rewrite Habs. simpl. rewrite (lk_used _ Hc). apply total_remove; [by apply abs_NoDup|].
    rewrite lookup_abs, Hent by done. simpl. by apply entry_of_Some.
Qed.

Lemma Get_spec c relPath s :
  wf c →
  let '(c', r) := Get relPath s c in
  wf c' ∧ maxBytes c' = maxBytes c ∧
  (abs c', r) = Spec.get (normalize relPath) s (abs c).
Proof.
  intros Hc. unfold Get, Spec.get. case_decide as Hm.
  { split_and!; [done..|]. by rewrite wf_disabled_abs. }
  destruct (entries_cases c (normalize relPath) (wf_linked _ Hc))
    as [[-> ->]|(e & item & -> & He & Hv & Hp & ->)]; [done|].
  rewrite Hv. case_decide as Hs.
  - destruct (move_to_front_spec c e item (wf_linked _ Hc) He Hv) as [Hl Habs].
    rewrite cloneBytes_id. split_and!; [|done|by rewrite Habs, Hp].
    constructor; [done|apply Hc..|simpl; lia].
  - pose proof (wf_removeElement c e Hc He ltac:(lia)).
    destruct (removeElement_spec c e item (wf_linked _ Hc) He Hv (wf_used_63 _ Hc))
      as (_ & -> & _ & _ & _ & -> & _). by rewrite Hp.
Qed.

Lemma Invalidate_spec c relPath :
  wf c →
  let c' := Invalidate relPath c in
  wf c' ∧ maxBytes c' = maxBytes c ∧ abs c' = Spec.remove (normalize relPath) (abs c).
Proof.
  intros Hc. unfold Invalidate. case_decide as Hm.
  { split_and!; [done..|]. by rewrite wf_disabled_abs. }
  destruct (entries_cases c (normalize relPath) (wf_linked _ Hc))
    as [[-> Hn]|(e & item & -> & He & Hv & Hp & _)]; [by rewrite remove_id|].
  pose proof (wf_removeElement c e Hc He ltac:(lia)).
  destruct (removeElement_spec c e item (wf_linked _ Hc) He Hv (wf_used_63 _ Hc))
    as (_ & Habs & _ & _ & _ & Hmax & _). cbv zeta. by rewrite Habs, Hmax, Hp.
Qed.

Lemma Clear_spec c : wf c → wf (Clear c) ∧ abs (Clear c) = [].
Proof.
  intros Hc. split; [|done]. pose proof (wf_max _ Hc).
  constructor; [|done|simpl; lia|done].
  constructor; simpl; [constructor|set_solver|set_solver|intros k e [=]|done].
Qed.

(** The entry that [Put] adds, before the eviction. *)
Lemma push_spec c key s cont :
  linked c → (0 ≤ used c + len cont < 2 ^ 63)%Z → entries c !! key = None →
  let c' := mk_cache (maxBytes c) (int64 (used c + len cont)) (next c :: lru c)
              (<[next c := EntryVal (mk_entry key s cont)]> (values c))
              (<[key := next c]> (entries c)) (S (next c)) in
  linked c' ∧ abs c' = mk_entry key s cont :: abs c.
Proof.
  intros Hc Hov Hkey c'.
  assert (Hnew : next c ∉ lru c) by (intros ?%(lk_fresh _ Hc); lia).
  assert (Hval : ∀ e, e ∈ lru c → value_of c' e = value_of c e).
  { intros e He. unfold value_of, c'. simpl. rewrite lookup_insert_ne; [done|].
    by intros <-. }
  assert (Habs : abs c' = mk_entry key s cont :: abs c).
  { unfold abs. change (lru c') with (next c :: lru c). rewrite omap_cons.
    assert (entry_of c' (next c) = Some (mk_entry key s cont)) as ->.
    { apply entry_of_Some. unfold value_of, c'. simpl. by rewrite lookup_insert_eq. }
    f_equal. apply list_omap_ext, Forall_Forall2_diag, Forall_forall.
    intros e He. unfold entry_of. by rewrite Hval. }
  split; [|done]. constructor.
  - constructor; [done|apply Hc].
  - simpl. intros e [->|He%(lk_fresh _ Hc)]%elem_of_cons; lia.
  - intros e [->|He]%elem_of_cons.
    + exists (mk_entry key s cont). unfold value_of, c'. simpl. by rewrite !lookup_insert_eq.
    + rewrite Hval by done. destruct (lk_lru _ Hc _ He) as (i & Hv & Hent). exists i.
      split; [done|]. simpl. rewrite lookup_insert_ne; congruence.
  - intros k e. simpl. intros [[<- <-]|[Hk Hke]]%lookup_insert_Some.
    + split; [set_solver|]. exists (mk_entry key s cont).
      unfold value_of, c'. simpl. by rewrite lookup_insert_eq.
    + destruct (lk_entries _ Hc _ _ Hke) as (He & i & Hv & Hp).
      split; [set_solver|]. exists i. by rewrite Hval.
  - rewrite Habs. simpl. rewrite int64_id by (unfold in_int64; lia). rewrite (lk_used _ Hc). lia.
Qed.

(** What the first part of [Put] leaves: the old entry of the key is gone. *)
Lemma unlink_spec c key :
  wf c → (maxBytes c > 0)%Z →
  let c' := match entries c !! key with Some e => removeElement e c | None => c end in
  wf c' ∧ maxBytes c' = maxBytes c ∧ abs c' = Spec.remove key (abs c) ∧ entries c' !! key = None.
Proof.
  intros Hc Hm. destruct (entries_cases c key (wf_linked _ Hc))
    as [[Hk Hn]|(e & item & Hk & He & Hv & Hp & _)]; rewrite Hk.
  { by rewrite remove_id. }
  pose proof (wf_removeElement c e Hc He Hm).
  destruct (removeElement_spec c e item (wf_linked _ Hc) He Hv (wf_used_63 _ Hc))
    as (_ & Habs & _ & _ & Hent & Hmax & _).
  cbv zeta. rewrite Habs, Hmax, Hp, Hent. by rewrite Hp, lookup_delete_eq.
Qed.

Lemma Put_spec c relPath s cont :
  wf c →
  let '(c', r) := Put relPath s cont c in
  wf c' ∧ maxBytes c' = maxBytes c ∧
  (abs c', r) = Spec.put (maxBytes c) (normalize relPath) s cont (abs c).
Proof.
  intros Hc. unfold Put, Spec.put. case_decide as Hm.
  { split_and!; [done..|]. by rewrite wf_disabled_abs. }
  case_decide as Hsz.
  { destruct (Invalidate_spec c (normalize relPath) Hc) as (? & ? & Habs).
    rewrite Habs, normalize_idem. done. }
  destruct (unlink_spec c (normalize relPath) Hc ltac:(lia)) as (Hc1 & Hmax & Habs & Hent).
  set (c1 := match _ with Some _ => _ | None => _ end) in *.
  pose proof (wf_used _ Hc1) as Hu. pose proof (wf_max _ Hc1). rewrite Hmax in *.
  assert (Hpos : (0 ≤ used c1)%Z) by (rewrite (lk_used _ (wf_linked _ Hc1)); auto with go).
  pose proof (len_nonneg cont). cbn [content]. rewrite cloneBytes_id.
  destruct (push_spec c1 (normalize relPath) s cont (wf_linked _ Hc1) ltac:(lia) Hent) as [Hl Habs2].
  rewrite Hmax in Hl, Habs2. set (c2 := mk_cache _ _ _ _ _ _) in *. unfold evictLocked.
  destruct (evict_loop_spec (S (length (lru c2))) c2 Hl) as (Hl3 & Habs3 & Hu3 & Hm3).
  { simpl. lia. } { simpl. rewrite int64_id; unfold in_int64; lia. } { lia. }
  change (maxBytes c2) with (maxBytes c) in *.
  rewrite Habs3, Habs2, Habs. split_and!; [|done..].
  constructor; rewrite ?Hm3; [done|lia|lia|intros; lia].
Qed.

Lemma InvalidatePrefix_fold ks key c :
  wf c → (maxBytes c > 0)%Z →
  let c' := foldl (λ c path,
      match entries c !! path with
      | Some elem => if matchesPrefix path key then removeElement elem c else c
      | None => c
      end) c ks in
  wf c' ∧ maxBytes c' = maxBytes c ∧
  abs c' = filter (λ x : entry, ¬ (path x ∈ ks ∧ matchesPrefix (path x) key = true)) (abs c).
Proof.
  revert c. induction ks as [|k ks IH]; intros c Hc Hm c'.
  { split_and!; [done..|]. symmetry. apply list_filter_id. set_solver. }
  unfold c'. simpl. set (c1 := match _ with Some _ => _ | None => _ end).
  assert (wf c1 ∧ maxBytes c1 = maxBytes c ∧
    abs c1 = filter (λ x : entry, ¬ (path x = k ∧ matchesPrefix (path x) key = true)) (abs c))
    as (Hc1 & Hm1 & Habs1).
  { unfold c1. destruct (entries_cases c k (wf_linked _ Hc))
      as [[-> Hn]|(e & item & -> & He & Hv & Hp & _)].
    - split_and!; [done..|]. symmetry. apply list_filter_id.
      rewrite lookup_None in Hn. intros x Hx [? _]. by apply (Hn x).
    - destruct (matchesPrefix k key) eqn:Hk.
      + pose proof (wf_removeElement c e Hc He Hm).
        destruct (removeElement_spec c e item (wf_linked _ Hc) He Hv (wf_used_63 _ Hc))
          as (_ & -> & _ & _ & _ & -> & _). split_and!; [done..|].
        apply list_filter_ext. intros x _. rewrite Hp. split; [by intros ? [? _]|].
        intros Hx Heq. apply Hx. by rewrite Heq.
      + split_and!; [done..|]. symmetry. apply list_filter_id. intros x _ [-> ?]. congruence. }
  destruct (IH c1 Hc1 ltac:(lia)) as (? & ? & Habs). split_and!; [done|congruence|].
  rewrite Habs, Habs1, list_filter_filter. apply list_filter_ext. intros x _.
  rewrite elem_of_cons. tauto.
Qed.

Lemma InvalidatePrefix_spec c relPath :
  wf c →
  let c' := InvalidatePrefix relPath c in
  wf c' ∧ maxBytes c' = maxBytes c ∧
  abs c' = Spec.invalidate_prefix (normalize relPath) (abs c).
Proof.
  intros Hc. unfold InvalidatePrefix. case_decide as Hm.
  { split_and!; [done..|]. by rewrite wf_disabled_abs. }
  destruct (InvalidatePrefix_fold (range_keys (dom (entries c))) (normalize relPath) c Hc)
    as (? & ? & Habs); [lia|]. split_and!; [done..|]. rewrite Habs.
  apply list_filter_ext. intros x [e [He Hv]]%elem_of_abs.
  assert (path x ∈ range_keys (dom (entries c))).
  { rewrite elem_of_range_keys. destruct (lk_lru _ (wf_linked _ Hc) _ He) as (i & Hi & Hk).
    apply elem_of_dom. exists e. congruence. }
  destruct (matchesPrefix _ _); split; [tauto|done|done|by intros _ [_ [=]]].
Qed.
End representation.

(** ** Sequences of calls *)

Inductive op : Type :=
  | OpGet (relPath : string) (s : Signature)
  | OpPut (relPath : string) (s : Signature) (cont : bytes)
  | OpInvalidate (relPath : string)
  | OpInvalidatePrefix (relPath : string)
  | OpClear.

Inductive reply : Type :=
  | RContent (r : option bytes)
  | RStored (b : bool)
  | RUnit.

Definition apply `{MapRange} (o : op) (c : Cache) : Cache * reply :=
  match o with
  | OpGet p s => let '(c', r) := Get p s c in (c', RContent r)
  | OpPut p s b => let '(c', r) := Put p s b c in (c', RStored r)
  | OpInvalidate p => (Invalidate p c, RUnit)
  | OpInvalidatePrefix p => (InvalidatePrefix p c, RUnit)
  | OpClear => (Clear c, RUnit)
  end.

Definition run `{MapRange} (ops : list op) (c : Cache) : Cache * list reply :=
  foldl (λ '(c, rs) o, let '(c', r) := apply o c in (c', rs ++ [r])) (c, []) ops.

(** A content of [size] bytes, put under [key] with the signature [s], is still
    there after these calls, which gave these answers: none of them put, removed
    or refused [key], and before every put the bytes put and read under other
    paths since the content was last used, [ahead], left room for it. *)
Fixpoint retained (max : Z) (key : string) (s : Signature) (size ahead : Z) (calls : list (op * reply)) : bool :=
  match calls with
  | [] => true
  | (OpGet p s', r) :: calls =>
    if decide (normalize p = key) then bool_decide (s' = s) && retained max key s size 0 calls
    else retained max key s size (ahead + match r with RContent (Some b) => len b | _ => 0 end) calls
  | (OpPut p _ b, _) :: calls =>
    bool_decide (normalize p ≠ key) && bool_decide (ahead + len b + size ≤ max)%Z && retained max key s size (ahead + len b) calls
  | (OpInvalidate p, _) :: calls => bool_decide (normalize p ≠ key) && retained max key s size ahead calls
  | (OpInvalidatePrefix p, _) :: calls => negb (bool_decide (under (normalize p) key)) && retained max key s size ahead calls
  | (OpClear, _) :: _ => false
  end.

(** Something of [key] was to be dropped by these calls, and it was not put since. *)
Definition forgotten (key : string) (ops : list op) : bool :=
  foldl (λ gone o,
    match o with
    | OpGet _ _ => gone
    | OpPut p _ _ => gone && bool_decide (normalize p ≠ key)
    | OpInvalidate p => gone || bool_decide (normalize p = key)
    | OpInvalidatePrefix p => gone || bool_decide (under (normalize p) key)
    | OpClear => true
    end) false ops.

Definition spec_apply (max : Z) (o : op) (l : list entry) : list entry * reply :=
  match o with
  | OpGet p s => let '(l', r) := Spec.get (normalize p) s l in (l', RContent r)
  | OpPut p s b => let '(l', r) := Spec.put max (normalize p) s b l in (l', RStored r)
  | OpInvalidate p => (Spec.remove (normalize p) l, RUnit)
  | OpInvalidatePrefix p => (Spec.invalidate_prefix (normalize p) l, RUnit)
  | OpClear => ([], RUnit)
  end.

Definition spec_run (max : Z) (ops : list op) : list entry * list reply :=
  foldl (λ '(l, rs) o, let '(l', r) := spec_apply max o l in (l', rs ++ [r])) ([], []) ops.

Section runs.
Context `{MapRange}.

Lemma apply_spec c o :
  wf c →
  let '(c', r) := apply o c in
  wf c' ∧ maxBytes c' = maxBytes c ∧ (abs c', r) = spec_apply (maxBytes c) o (abs c).
Proof.
  intros Hc. destruct o as [p s|p s b|p|p|]; simpl.
  - pose proof (Get_spec c p s Hc). destruct (Get p s c) as [c' r].
    destruct (Spec.get _ _ _). naive_solver.
  - pose proof (Put_spec c p s b Hc). destruct (Put p s b c) as [c' r].
    destruct (Spec.put _ _ _ _ _). naive_solver.
  - destruct (Invalidate_spec c p Hc) as (? & ? & ->). done.
  - destruct (InvalidatePrefix_spec c p Hc) as (? & ? & ->). done.
  - by destruct (Clear_spec c Hc) as [? ->].
Qed.

Lemma run_spec max ops :
  (max < 2 ^ 62)%Z →
  let '(c, rs) := run ops (New max) in
  wf c ∧ maxBytes c = max ∧ (abs c, rs) = spec_run max ops.
Proof.
  intros Hm. unfold run, spec_run. induction ops as [|o ops IH] using rev_ind.
  { simpl. split_and!; [by apply cache_New_wf|done..]. }
  rewrite !foldl_app. cbn [foldl].
  destruct (foldl _ (New max, []) ops) as [c rs]. destruct IH as (Hc & Hmax & <-).
  pose proof (apply_spec c o Hc) as Ho. destruct (apply o c) as [c' r].
  destruct Ho as (Hc' & Hmax' & Ho). rewrite Hmax in Ho. rewrite <-Ho.
  split_and!; [done|congruence|done].
Qed.

Lemma run_acc ops c rs : foldl (λ '(c, rs) o, let '(c', r) := apply o c in (c', rs ++ [r])) (c, rs) ops =
  (fst (run ops c), rs ++ snd (run ops c)).
Proof.
  unfold run. revert c rs. induction ops as [|o ops IH]; intros c rs; cbn; [by rewrite app_nil_r|].
  destruct (apply o c) as [c' r]. rewrite IH, (IH c' [r]). cbn. by rewrite <-app_assoc.
Qed.

Lemma run_cons o ops c : run (o :: ops) c =
  let '(c1, r) := apply o c in let '(c2, rs) := run ops c1 in (c2, r :: rs).
Proof. unfold run at 1. cbn. destruct (apply o c) as [c1 r]. rewrite run_acc. by destruct (run ops c1). Qed.

(** ** What becomes of an entry *)

Lemma total_filter P `{∀ x, Decision (P x)} l : (Spec.total (filter P l) ≤ Spec.total l)%Z.
Proof.
  induction l as [|e l IH]; [done|]. rewrite filter_cons. pose proof (len_nonneg (content e)). case_decide; simpl; lia.
Qed.

(** The entry is in the list behind at most [n] bytes. *)
Definition among (e : entry) (n : Z) (l : list entry) : Prop :=
  ∃ front back, l = front ++ e :: back ∧ (Spec.total front ≤ n)%Z.

Lemma among_filter e n P `{∀ x, Decision (P x)} l : P e → among e n l → among e n (filter P l).
Proof.
  intros He (front & back & -> & Hn). exists (filter P front), (filter P back).
  rewrite filter_app, filter_cons_True by done. split; [done|]. pose proof (total_filter P front). lia.
Qed.

Lemma among_cons e n x l : among e n l → among e (n + len (content x)) (x :: l).
Proof. intros (front & back & -> & Hn). exists (x :: front), back. simpl. split; [done|lia]. Qed.

Lemma among_keep e n max l : (n + len (content e) ≤ max)%Z → among e n l → among e n (Spec.keep max l).
Proof.
  intros Hmax (front & back & -> & Hn). revert n max Hmax Hn. induction front as [|x front IH]; intros n max Hmax Hn; simpl in *.
  - rewrite decide_True by lia. by exists [], (Spec.keep (max - len (content e)) back).
  - pose proof (total_nonneg front). pose proof (len_nonneg (content e)). rewrite decide_True by lia.
    destruct (IH (n - len (content x))%Z (max - len (content x))%Z ltac:(lia) ltac:(lia)) as (f & bk & -> & Hf).
    exists (x :: f), bk. simpl. split; [done|lia].
Qed.

Lemma among_lookup e n l : NoDup (path <$> l) → among e n l → Spec.lookup (path e) l = Some e.
Proof. intros Hnd (front & back & -> & _). apply lookup_spec; [done|]. set_solver. Qed.

Lemma lookup_remove key l : Spec.lookup key (Spec.remove key l) = None.
Proof. apply lookup_None. intros x. unfold Spec.remove. rewrite list_elem_of_filter. naive_solver. Qed.

(** What one call does to it. *)
Lemma retained_step max e n o l : NoDup (path <$> l) → among e n l →
  let '(l', r) := spec_apply max o l in
  ∀ calls, retained max (path e) (sig e) (len (content e)) n ((o, r) :: calls) = true →
    ∃ n', among e n' l' ∧ retained max (path e) (sig e) (len (content e)) n' calls = true.
Proof.
  intros Hnd Hin. assert (Hrm : ∀ k, k ≠ path e → among e n (Spec.remove k l)).
  { intros k Hk. by apply among_filter. }
  destruct o as [p s|p s b|p|p|]; cbn [spec_apply].
  - unfold Spec.get. destruct (decide (normalize p = path e)) as [Hp|Hp].
    + rewrite Hp, (among_lookup e n l Hnd Hin). destruct (decide (sig e = s)) as [Hs|Hs]; intros calls; cbn [retained];
        rewrite decide_True by done; rewrite andb_true_iff, bool_decide_eq_true; intros [Hs' Hret]; [|by destruct Hs].
      exists 0%Z. split; [|done]. by exists [], (Spec.remove (path e) l).
    + destruct (Spec.lookup (normalize p) l) as [x|]; [destruct (decide (sig x = s))|];
        intros calls; cbn [retained]; rewrite decide_False by done; rewrite ?Z.add_0_r; intros Hret;
        (eexists; split; [|exact Hret]); [by apply among_cons, Hrm|by apply Hrm|done].
  - unfold Spec.put. destruct (decide (max ≤ 0)%Z) as [Hm|Hm]; [|destruct (decide (len b > max)%Z)]; intros calls; cbn [retained];
      rewrite !andb_true_iff, !bool_decide_eq_true; intros [ [Hp Hroom] Hret]; pose proof (len_nonneg b); pose proof (len_nonneg (content e));
      exists (n + len b)%Z; (split; [|done]).
    all: destruct Hin as (front & back & -> & Hn); pose proof (total_nonneg front).
    { exists front, back. split; [done|lia]. }
    { lia. }
    apply among_keep; [lia|]. apply (among_cons _ _ (mk_entry (normalize p) s b)), among_filter; [done|]. by exists front, back.
  - intros calls. cbn [retained]. rewrite andb_true_iff, bool_decide_eq_true. intros [Hp Hret]. eauto.
  - intros calls. cbn [retained]. rewrite andb_true_iff, negb_true_iff, bool_decide_eq_false.
    intros [Hp Hret]. exists n. split; [|done]. apply among_filter; [|done].
    apply not_true_iff_false. by rewrite matchesPrefix_under.
  - intros calls. done.
Qed.

Lemma retained_run max e later c n : wf c → maxBytes c = max → among e n (abs c) →
  let '(c', replies) := run later c in
  retained max (path e) (sig e) (len (content e)) n (zip later replies) = true → ∃ n', among e n' (abs c').
Proof.
  revert c n. induction later as [|o later IH]; intros c n Hc Hm Hin; [by exists n|]. rewrite run_cons.
  pose proof (apply_spec c o Hc) as Ho. pose proof (retained_step max e n o (abs c) (abs_NoDup _ (wf_linked _ Hc)) Hin) as Hstep.
  destruct (apply o c) as [c1 r]. destruct Ho as (Hc1 & Hm1 & Ho). rewrite Hm in Ho, Hm1. rewrite <-Ho in Hstep.
  specialize (λ n, IH c1 n Hc1 Hm1). destruct (run later c1) as [c2 rs]. cbn [zip zip_with].
  intros (n' & Hin' & Hret)%Hstep. by apply (IH n').
Qed.

Lemma lookup_filter_None key P `{∀ x, Decision (P x)} l : Spec.lookup key l = None → Spec.lookup key (filter P l) = None.
Proof. rewrite !lookup_None. intros Hn x [_ Hx]%list_elem_of_filter. by apply Hn. Qed.

Lemma keep_elem max l x : x ∈ Spec.keep max l → x ∈ l.
Proof.
  revert max. induction l as [|y l IH]; intros max; simpl; [done|]. case_decide; [|by intros ?%not_elem_of_nil].
  rewrite !elem_of_cons. intros [->|Hx]; [by left|right; by eapply IH].
Qed.

Lemma forgotten_step max key o l gone : (gone = true → Spec.lookup key l = None) →
  match o with
  | OpGet _ _ => gone
  | OpPut p _ _ => gone && bool_decide (normalize p ≠ key)
  | OpInvalidate p => gone || bool_decide (normalize p = key)
  | OpInvalidatePrefix p => gone || bool_decide (under (normalize p) key)
  | OpClear => true
  end = true → Spec.lookup key (fst (spec_apply max o l)) = None.
Proof.
  intros Hg. destruct o as [p s|p s b|p|p|]; cbn [spec_apply].
  - intros Hl%Hg. unfold Spec.get. destruct (Spec.lookup (normalize p) l) as [x|] eqn:Hx; [|done].
    assert (Hk : key ≠ path x).
    { intros ->. rewrite lookup_None in Hl. unfold Spec.lookup in Hx.
      apply fmap_Some in Hx as ([i y] & (Hy & _ & _)%list_find_Some & ->). cbn in *. by apply (Hl y); [eapply list_elem_of_lookup_2|]. }
    destruct (decide (sig x = s)); [|by apply lookup_filter_None]. cbn [fst].
    rewrite lookup_None. intros y [->|Hy]%elem_of_cons; [done|]. revert y Hy. apply lookup_None. by apply lookup_filter_None.
  - rewrite andb_true_iff, bool_decide_eq_true. intros [Hl%Hg Hp]. unfold Spec.put.
    destruct (decide _); [done|]. destruct (decide _); [by apply lookup_filter_None|]. cbn [fst].
    rewrite lookup_None. intros y [->|Hy]%keep_elem%elem_of_cons; [done|]. revert y Hy. apply lookup_None. by apply lookup_filter_None.
  - rewrite orb_true_iff, bool_decide_eq_true. intros [Hl%Hg| ->]; [by apply lookup_filter_None|apply lookup_remove].
  - rewrite orb_true_iff, bool_decide_eq_true, <-matchesPrefix_under. intros [Hl%Hg|Hp]; [by apply lookup_filter_None|].
    cbn [fst]. rewrite lookup_None.
    intros x [Hx _]%list_elem_of_filter <-. congruence.
  - done.
Qed.

Lemma forgotten_run key later c : wf c →
  let '(c', _) := run later c in wf c' ∧ (forgotten key later = true → Spec.lookup key (abs c') = None).
Proof.
  intros Hc. unfold run, forgotten. induction later as [|o later IH] using rev_ind; [done|].
  rewrite !foldl_app. cbn [foldl]. destruct (foldl _ (c, []) later) as [c1 rs]. destruct IH as [Hc1 Hf].
  pose proof (apply_spec c1 o Hc1) as Ho. destruct (apply o c1) as [c2 r]. destruct Ho as (Hc2 & _ & Ho).
  split; [done|]. intros Hg. pose proof (forgotten_step (maxBytes c1) key o (abs c1) _ Hf Hg) as Hl. by rewrite <-Ho in Hl.
Qed.

(** ** Properties *)

(** C30. The cache is a least-recently-used list.  After any sequence of calls
    on a new cache, whatever the order in which Go ranges over its map, the
    linked list, the map and the byte count together represent the list of
    entries that the specification computes (move to front on a hit, drop on
    a stale signature, keep the longest front part within the budget on a
    put), and every call has returned what the specification returns. *)
Theorem cache_refines_lru (max : Z) (ops : list op) :
  (max < 2 ^ 62)%Z →
  let '(c, replies) := run ops (New max) in
  (abs c, replies) = spec_run max ops.
Proof.
  intros Hm. pose proof (run_spec max ops Hm) as Hr.
  destruct (run ops (New max)). by destruct Hr as (_ & _ & Hr).
Qed.

(** After any sequence of calls the accounting is exact and the budget is
    kept: [used] is the sum of the sizes of the contents held, it is at most
    the (positive) budget, no path is stored twice, the map and the list have
    the same elements, and a cache without a budget is empty. *)
Theorem cache_budget (max : Z) (ops : list op) :
  (max < 2 ^ 62)%Z →
  let c := fst (run ops (New max)) in
  used c = Spec.total (abs c) ∧ (used c ≤ Z.max 0 max)%Z ∧
  NoDup (path <$> abs c) ∧ NoDup (lru c) ∧
  (∀ e, e ∈ lru c ↔ ∃ k, entries c !! k = Some e) ∧
  ((max ≤ 0)%Z → abs c = []).
Proof.
  intros Hm. pose proof (run_spec max ops Hm) as Hr.
  destruct (run ops (New max)) as [c rs]. destruct Hr as (Hc & <- & _). simpl.
  pose proof (wf_linked _ Hc) as Hl. split_and!.
  - apply Hl.
  - apply Hc.
  - by apply abs_NoDup.
  - apply Hl.
  - intros e. split.
    + intros He. destruct (lk_lru _ Hl _ He) as (i & _ & ?). by eexists.
    + intros [k He]. by destruct (lk_entries _ Hl _ _ He).
  - by apply wf_disabled_abs.
Qed.

(** C40. Reading back.  In any state reached by calls, a content that fits the
    budget is stored, and a read of the path under the signature it was stored
    with, whatever the spelling of the path, returns exactly those bytes until
    the content is invalidated or evicted: whatever calls were made in between, if
    none of them dropped the path, put it again or asked for it under another
    signature, and the bytes put and read under other paths since it was last used
    left room for it.  A read under another signature misses, and drops the entry,
    so that even the stored signature then misses; and so does every read after
    the path was invalidated, alone, with the directory it is in or with the whole
    cache, until it is put again. *)
Theorem cache_read_back (max : Z) (ops later : list op) (p p' : string) (s s' : Signature) (b : bytes) :
  (0 < max < 2 ^ 62)%Z → (len b ≤ max)%Z → normalize p' = normalize p →
  let c := fst (run ops (New max)) in
  let '(c1, stored) := Put p s b c in
  let '(c2, replies) := run later c1 in
  let '(c3, r) := Get p' s' c2 in
  stored = true ∧
  (retained max (normalize p) s (len b) 0 (zip later replies) = true →
    r = (if decide (s = s') then Some b else None) ∧ (s ≠ s' → snd (Get p' s c3) = None)) ∧
  (forgotten (normalize p) later = true → r = None).
Proof.
  intros Hm Hb Hp. pose proof (run_spec max ops ltac:(lia)) as Hr.
  destruct (run ops (New max)) as [c rs]. destruct Hr as (Hc & Hmax & _). cbn [fst].
  pose proof (Put_spec c p s b Hc) as Hput. destruct (Put p s b c) as [c1 st].
  destruct Hput as (Hc1 & Hmax1 & Hput). rewrite Hmax in Hput, Hmax1.
  assert (Hst : st = true ∧ among (mk_entry (normalize p) s b) 0 (abs c1)).
  { unfold Spec.put in Hput. rewrite !decide_False in Hput by lia. simpl in Hput. rewrite decide_True in Hput by lia.
    injection Hput as -> ->. split; [done|]. by eexists [], _. }
  destruct Hst as [-> Hin].
  pose proof (retained_run max (mk_entry (normalize p) s b) later c1 0 Hc1 Hmax1 Hin) as Hret.
  pose proof (forgotten_run (normalize p) later c1 Hc1) as Hfor.
  destruct (run later c1) as [c2 replies] eqn:E2. destruct Hfor as (Hc2 & Hfor).
  pose proof (Get_spec c2 p' s' Hc2) as Hget. destruct (Get p' s' c2) as [c3 r] eqn:E3.
  destruct Hget as (Hc3 & _ & Hget). rewrite Hp in Hget.
  split; [done|]. split; [intros Hk; specialize (Hret Hk)|intros Hf; specialize (Hfor Hf)].
  - destruct Hret as [n' Hret]. apply (among_lookup _ _ _ (abs_NoDup _ (wf_linked _ Hc2))) in Hret. cbn in Hret. unfold Spec.get in Hget. rewrite Hret in Hget.
    cbn in Hget. destruct (decide (s = s')); injection Hget as Habs3 ->; [done|].
    split; [done|]. intros _. pose proof (Get_spec c3 p' s Hc3) as Hget3.
    destruct (Get p' s c3) as [c4 r4]. destruct Hget3 as (_ & _ & Hget3). rewrite Hp in Hget3. unfold Spec.get in Hget3.
    rewrite Habs3, lookup_remove in Hget3. by injection Hget3.
  - unfold Spec.get in Hget. rewrite Hfor in Hget. by injection Hget.
Qed.
End runs.

Definition witness_ops : list op :=
  [OpPut "a" (mk_signature 2 1) [x01; x02]; OpPut "b" (mk_signature 1 1) [x03];
   OpGet "./a" (mk_signature 2 1); OpPut "d/c" (mk_signature 2 1) [x04; x05];
   OpInvalidatePrefix "d"; OpGet "b" (mk_signature 1 1)].

Lemma cache_refines_lru_witness :
  let '(c, replies) := @run elements_range witness_ops (New 4) in
  (abs c, replies) =
    ([mk_entry "a" (mk_signature 2 1) [x01; x02]],
     [RStored true; RStored true; RContent (Some [x01; x02]); RStored true; RUnit; RContent None]).
Proof.
  pose proof (@cache_refines_lru elements_range 4 witness_ops ltac:(lia)) as Hr.
  destruct (run _ _) as [c rs]. rewrite Hr. vm_compute. reflexivity.
Defined.

Lemma cache_budget_witness :
  (used (fst (@run elements_range witness_ops (New 4))) ≤ 4)%Z.
Proof. apply (@cache_budget elements_range 4 witness_ops). lia. Defined.

(** Two bytes under "d/x" last through a put and a read of others, but not
    through the removal of their directory. *)
Definition later_ops (o : op) : list op :=
  [OpPut "e" (mk_signature 1 1) [x09]; OpGet "a" (mk_signature 2 1); OpGet "d/x" (mk_signature 1 5); o].

Lemma cache_read_back_witness :
  let c := fst (@run elements_range witness_ops (New 5)) in
  let put := @Put elements_range "d/x" (mk_signature 1 5) [x07; x08] c in
  let read later := snd (@Get elements_range "d\.\x" (mk_signature 1 5) (fst (@run elements_range later (fst put)))) in
  snd put = true ∧ read (later_ops (OpInvalidate "e")) = Some [x07; x08] ∧ read (later_ops (OpInvalidatePrefix "d")) = None.
Proof.
  intros c put read.
  pose proof (@cache_read_back elements_range 5 witness_ops (later_ops (OpInvalidate "e"))
    "d/x" "d\.\x" (mk_signature 1 5) (mk_signature 1 5) [x07; x08] ltac:(lia) ltac:(done) ltac:(vm_compute; reflexivity)) as H1.
  pose proof (@cache_read_back elements_range 5 witness_ops (later_ops (OpInvalidatePrefix "d"))
    "d/x" "d\.\x" (mk_signature 1 5) (mk_signature 1 5) [x07; x08] ltac:(lia) ltac:(done) ltac:(vm_compute; reflexivity)) as H2.
  vm_compute in H1, H2. unfold read, put, c. vm_compute.
  destruct H1 as (_ & H1 & _), H2 as (Hst & _ & H2). split; [exact Hst|]. split; [apply H1; reflexivity|apply H2; reflexivity].
Defined.
