(* ===== verification/Proto.v ===== *)
(** * The messages of the two services (api/proto/remotefs/v1)

    The Go types are generated from [remotefs.proto] and [remotepty.proto];
    this file has the messages as the .proto files declare them.  A pointer
    field that the code tests against nil is an [option]; a scalar field of a
    message that is absent reads as the zero value, as the generated getters
    do.  An [int64], a [uint32] and an [int32] field is a [Z]. *)
From S2P Require Import Prelude.
From stdpp Require Import options.

Record FileInfo : Type := mk_FileInfo {
  FPath : string;
  FSize : Z;
  FModTime : Z;
  FIsDir : bool;
  FMode : Z;
}.

#[export] Instance FileInfo_eq_dec : EqDecision FileInfo.
Proof. solve_decision. Defined.

(** The zero message, which the getters of a nil pointer read. *)
Definition zero_info : FileInfo := mk_FileInfo "" 0 0 false 0.

Record FileTree : Type := mk_FileTree { Files : list FileInfo; WorkspaceName : string }.

#[export] Instance FileTree_eq_dec : EqDecision FileTree.
Proof. solve_decision. Defined.

(** proto3 enums are open: a number that is not declared is kept. *)
Inductive ChangeType : Type :=
  | CHANGE_TYPE_UNSPECIFIED
  | CHANGE_TYPE_CREATE
  | CHANGE_TYPE_MODIFY
  | CHANGE_TYPE_DELETE
  | CHANGE_TYPE_RENAME
  | CHANGE_TYPE_other (n : Z).

#[export] Instance ChangeType_eq_dec : EqDecision ChangeType.
Proof. solve_decision. Defined.

Record FileChange : Type := mk_FileChange {
  Ctype : ChangeType;
  Cfile : option FileInfo;
  Cold_path : string;
}.

#[export] Instance FileChange_eq_dec : EqDecision FileChange.
Proof. solve_decision. Defined.

Record ReadFileReq : Type := mk_ReadFileReq { rd_path : string; rd_offset : Z; rd_length : Z }.
Record WriteFileReq : Type := mk_WriteFileReq {
  wr_path : string; wr_content : bytes; wr_append : bool; wr_mode : Z; wr_offset : Z }.
Record MkdirReq : Type := mk_MkdirReq { mk_path : string; mk_recursive : bool }.
Record RenameReq : Type := mk_RenameReq { rn_old_path : string; rn_new_path : string }.
Record TruncateReq : Type := mk_TruncateReq { tr_path : string; tr_size : Z }.

#[export] Instance ReadFileReq_eq_dec : EqDecision ReadFileReq.
Proof. solve_decision. Defined.
#[export] Instance WriteFileReq_eq_dec : EqDecision WriteFileReq.
Proof. solve_decision. Defined.
#[export] Instance MkdirReq_eq_dec : EqDecision MkdirReq.
Proof. solve_decision. Defined.
#[export] Instance RenameReq_eq_dec : EqDecision RenameReq.
Proof. solve_decision. Defined.
#[export] Instance TruncateReq_eq_dec : EqDecision TruncateReq.
Proof. solve_decision. Defined.

Inductive Operation : Type :=
  | ReqRead (r : ReadFileReq)
  | ReqWrite (r : WriteFileReq)
  | ReqStat (path : string)
  | ReqListDir (path : string)
  | ReqDelete (path : string)
  | ReqMkdir (r : MkdirReq)
  | ReqRename (r : RenameReq)
  | ReqTruncate (r : TruncateReq).

#[export] Instance Operation_eq_dec : EqDecision Operation.
Proof. solve_decision. Defined.

Record FileRequest : Type := mk_FileRequest {
  RequestId : string;
  Op : option Operation;
}.

#[export] Instance FileRequest_eq_dec : EqDecision FileRequest.
Proof. solve_decision. Defined.

Inductive Result : Type :=
  | ResContent (b : bytes)
  | ResInfo (i : option FileInfo)
  | ResEntries (t : option FileTree).

#[export] Instance Result_eq_dec : EqDecision Result.
Proof. solve_decision. Defined.

Record FileResponse : Type := mk_FileResponse {
  ResponseId : string;
  Success : bool;
  ErrorText : string;
  Res : option Result;
}.

#[export] Instance FileResponse_eq_dec : EqDecision FileResponse.
Proof. solve_decision. Defined.

(** [resp.GetContent()], [resp.GetInfo()] and [resp.GetEntries()] *)
Definition GetContent (r : FileResponse) : bytes :=
  match Res r with Some (ResContent b) => b | _ => [] end.
Definition GetInfo (r : FileResponse) : option FileInfo :=
  match Res r with Some (ResInfo i) => i | _ => None end.
Definition GetEntries (r : FileResponse) : option FileTree :=
  match Res r with Some (ResEntries t) => t | _ => None end.

Inductive DaemonMessage : Type :=
  | MsgFileTree (t : FileTree)
  | MsgChange (c : FileChange)
  | MsgResponse (r : FileResponse)
  | MsgHeartbeat (timestamp : Z)
  | MsgNone.

#[export] Instance DaemonMessage_eq_dec : EqDecision DaemonMessage.
Proof. solve_decision. Defined.

Inductive ServerMessage : Type :=
  | SrvRequest (r : FileRequest)
  | SrvHeartbeat (timestamp : Z)
  | SrvNone.

#[export] Instance ServerMessage_eq_dec : EqDecision ServerMessage.
Proof. solve_decision. Defined.
