(* ===== verification/FsTree.v ===== *)
(** * The in-memory file tree (pkg/fstree/fstree.go)

    [Tree.nodes] maps a normalised path to a node; a directory node also holds
    the set of the names of its children ([None] is the nil map of a file).
    The operations run under the lock of the tree; the model is what one of
    them does to the map. *)
From S2P Require Import Prelude GoPath PathFacts Safepath RelPath Proto.
From stdpp Require Import options.

Inductive error : Type :=
  | ErrNilInfo
  | ErrNilChange
  | ErrUnknownChangeType.

Record node : Type := mk_node { info : FileInfo; children : option (gset string) }.

Abbreviation Tree := (gmap string node).

(** ** Helpers *)

Definition normalize (p : string) : string :=
  let p := replace_byte bslash slash p in
  if bool_decide (p = "") || bool_decide (p = "/") || bool_decide (p = ".") then ""
  else
    let cleaned := trim_prefix "/" (path_clean p) in
    if decide (cleaned = ".") then "" else cleaned.

Definition splitParent (p : string) : string * string :=
  match cut_last_slash p with
  | None => ("", p)
  | Some (a, b) => (a, b)
  end.

Definition joinPath (parent base : string) : string :=
  if decide (parent = "") then base else parent +:+ "/" +:+ base.

Definition cloneInfo (i : FileInfo) : FileInfo :=
  mk_FileInfo (FPath i) (FSize i) (FModTime i) (FIsDir i) (FMode i).

(** The information of a directory of which only the path is known. *)
Definition dir_info (p : string) : FileInfo := mk_FileInfo p 0 0 true 0.

Definition New : Tree := {[ "" := mk_node (dir_info "") (Some ∅) ]}.

Definition childrenMapForInfo (prev : option node) (i : FileInfo) : option (gset string) :=
  if negb (FIsDir i) then None
  else match prev with
       | Some n => match children n with Some cs => Some cs | None => Some ∅ end
       | None => Some ∅
       end.

Definition promoteToDir (n : node) : node :=
  let i := if FIsDir (info n) then info n else dir_info (FPath (info n)) in
  mk_node i (match children n with Some cs => Some cs | None => Some ∅ end).

(** [if pn, ok := t.nodes[parent]; ok { ...; pn.children[base] = struct{}{} }] *)
Definition register (p : string) (t : Tree) : Tree :=
  let '(parent, base) := splitParent p in
  match t !! parent with
  | Some pn => <[parent := mk_node (info pn) (Some ({[base]} ∪ default ∅ (children pn)))]> t
  | None => t
  end.

(** Each call works on a path with one element less. *)
Fixpoint ensureAncestors_fuel (fuel : nat) (p : string) (t : Tree) : Tree :=
  match fuel with
  | 0 => t
  | S f =>
    let '(parent, _) := splitParent p in
    if decide (parent = "") then t
    else match t !! parent with
         | Some n => <[parent := promoteToDir n]> t
         | None =>
           let t := ensureAncestors_fuel f parent t in
           let t := <[parent := mk_node (dir_info parent) (Some ∅)]> t in
           register parent t
         end
  end.

Definition ensureAncestors (p : string) (t : Tree) : Tree :=
  ensureAncestors_fuel (length (split_slash p)) p t.

Section operations.
Context `{MapRange}.

(** The recursion goes from a node of the map to a longer path: no deeper
    than the map has nodes.  The loop over the children deletes from the map
    it ranges over, each time the key of the current iteration. *)
Fixpoint deleteLocked_fuel (fuel : nat) (p : string) (t : Tree) : Tree :=
  match fuel with
  | 0 => t
  | S f =>
    match t !! p with
    | None => t
    | Some n =>
      let t :=
        if FIsDir (info n) then
          foldl (λ t child, deleteLocked_fuel f (joinPath p child) t) t
            (range_keys (default ∅ (children n)))
        else t in
      let t := delete p t in
      let '(parent, base) := splitParent p in
      match t !! parent with
      | Some pn => <[parent := mk_node (info pn) ((.∖ {[base]}) <$> children pn)]> t
      | None => t
      end
    end
  end.

Definition deleteLocked (p : string) (t : Tree) : Tree :=
  deleteLocked_fuel (S (size t)) p t.

Definition pruneChildren (p : string) (n : node) (t : Tree) : Tree :=
  foldl (λ t child, deleteLocked (joinPath p child) t) t
    (range_keys (default ∅ (children n))).

Definition insertLocked (p : string) (i : FileInfo) (t : Tree) : Tree :=
  let t := match t !! p with
           | Some prev =>
             if FIsDir (info prev) && negb (FIsDir i) then pruneChildren p prev t else t
           | None => t
           end in
  let t := ensureAncestors p t in
  let stored := mk_FileInfo p (FSize i) (FModTime i) (FIsDir i) (FMode i) in
  let t := <[p := mk_node stored (childrenMapForInfo (t !! p) stored)]> t in
  register p t.

(** ** Operations *)

Definition Insert (i : option FileInfo) (t : Tree) : result error Tree :=
  match i with
  | None => Err ErrNilInfo
  | Some i =>
    let cleaned := normalize (FPath i) in
    if decide (cleaned = "") then Ok t else Ok (insertLocked cleaned i t)
  end.

Definition Delete (p : string) (t : Tree) : Tree :=
  let cleaned := normalize p in
  if decide (cleaned = "") then t else deleteLocked cleaned t.

Definition Lookup (p : string) (t : Tree) : option FileInfo :=
  n ← t !! normalize p; Some (cloneInfo (info n)).

Definition List (p : string) (t : Tree) : option (list FileInfo) :=
  let cleaned := normalize p in
  match t !! cleaned with
  | None => None
  | Some n =>
    if negb (FIsDir (info n)) then None
    else Some (omap (λ name, c ← t !! joinPath cleaned name; Some (cloneInfo (info c)))
                 (range_keys (default ∅ (children n))))
  end.

(** An error leaves the tree as it is, except that a rename has deleted the
    old path before it fails on a missing file. *)
Definition Apply (change : option FileChange) (t : Tree) : Tree * option error :=
  let insert i t := match Insert i t with Ok t' => (t', None) | Err e => (t, Some e) end in
  match change with
  | None => (t, Some ErrNilChange)
  | Some c =>
    match Ctype c with
    | CHANGE_TYPE_CREATE | CHANGE_TYPE_MODIFY => insert (Cfile c) t
    | CHANGE_TYPE_DELETE =>
      (match Cfile c with Some f => Delete (FPath f) t | None => t end, None)
    | CHANGE_TYPE_RENAME => insert (Cfile c) (Delete (Cold_path c) t)
    | CHANGE_TYPE_UNSPECIFIED => (t, Some ErrUnknownChangeType)
    | CHANGE_TYPE_other _ => (t, Some ErrUnknownChangeType)
    end
  end.

Definition Snapshot (t : Tree) : list FileInfo :=
  omap (λ p, if decide (p = "") then None else n ← t !! p; Some (cloneInfo (info n)))
    (range_keys (dom t)).
End operations.

(** ** Invariant *)

Definition kids (n : node) : gset string := default ∅ (children n).

(** The root is a directory; a node is under the path it carries; exactly the
    directories have a children map; the children maps and the nodes agree. *)
Record wf (t : Tree) : Prop := {
  wf_root : ∃ n, t !! "" = Some n ∧ FIsDir (info n) = true;
  wf_key p n : t !! p = Some n → rel_path p ∧ FPath (info n) = p;
  wf_dir p n : t !! p = Some n → FIsDir (info n) = true ↔ is_Some (children n);
  wf_parent p n : t !! p = Some n → p ≠ "" →
    ∃ pn, t !! parent p = Some pn ∧ last_name p ∈ kids pn;
  wf_kids p n c : t !! p = Some n → c ∈ kids n → rel_seg c ∧ is_Some (t !! child p c);
}.

(** ** Specification: what the paths are mapped to *)
Module Spec.
Abbreviation files := (string → option FileInfo).

(** The directory that the insertion of a descendant leaves at [q]. *)
Definition as_dir (q : string) (i : option FileInfo) : FileInfo :=
  match i with
  | Some i => if FIsDir i then i else dir_info q
  | None => dir_info q
  end.

Definition insert (p : string) (i : FileInfo) (m : files) : files := λ q,
  if decide (q = p) then Some (mk_FileInfo p (FSize i) (FModTime i) (FIsDir i) (FMode i))
  else if decide (q ≠ "" ∧ under q p) then Some (as_dir q (m q))
  else if decide (under p q ∧ FIsDir i = false) then None
  else m q.

Definition delete (p : string) (m : files) : files := λ q,
  if decide (under p q) then None else m q.
End Spec.

Definition abs (t : Tree) : Spec.files := λ q, info <$> t !! q.

(** ** Helper lemmas *)

Lemma normalize_normal_form p : normalize p = normal_form p.
Proof.
  unfold normalize. fold (ToSlash p).
  destruct (decide (p = "")) as [->|Hp]; [done|]. rewrite <-normal_form_clean by done.
  do 3 (let E := fresh in case_bool_decide as E; [rewrite E; vm_compute; reflexivity|]).
  reflexivity.
Qed.

Lemma normalize_rel p : rel_path (normalize p).
Proof. rewrite normalize_normal_form. apply normal_form_rel. Qed.
#[export] Hint Resolve normalize_rel : go.

Lemma splitParent_eq p : splitParent p = (parent p, last_name p).
Proof. unfold splitParent, parent, last_name. by destruct (cut_last_slash p) as [[]|]. Qed.

Lemma joinPath_eq p c : joinPath p c = child p c.
Proof. done. Qed.

Lemma cloneInfo_eq i : cloneInfo i = i.
Proof. by destruct i. Qed.

Lemma parent_ne p : rel_path p → p ≠ "" → parent p ≠ p.
Proof. intros Hp Hne E. pose proof (parent_length p Hp Hne). rewrite E in *. lia. Qed.

(** ** Consequences of the invariant *)

Lemma wf_kid_dir t p n c : wf t → t !! p = Some n → c ∈ kids n → FIsDir (info n) = true.
Proof.
  intros Ht Hp Hc. apply (wf_dir _ Ht p n Hp). unfold kids in Hc.
  destruct (children n); [done|set_solver].
Qed.

Lemma wf_file_kids t p n : wf t → t !! p = Some n → FIsDir (info n) = false → kids n = ∅.
Proof.
  intros Ht Hp Hd. apply set_eq. intros c. split; [|set_solver].
  intros Hc. pose proof (wf_kid_dir t p n c Ht Hp Hc). congruence.
Qed.

(** The ancestors of a node are in the tree, are directories, and each lists
    the next one. *)
Lemma wf_ancestor t p q n :
  wf t → t !! q = Some n → under p q → p ≠ q →
  ∃ pn c, t !! p = Some pn ∧ FIsDir (info pn) = true ∧ c ∈ kids pn ∧ under (child p c) q.
Proof.
  intros Ht. remember (length (rel_elems q)) as k eqn:Hk. revert q n Hk.
  induction k as [k IH] using lt_wf_ind. intros q n Hk Hq Hu Hne.
  destruct (wf_key _ Ht _ _ Hq) as [Hrel _].
  apply under_cases in Hu as [->|[Hq0 Hu]]; [done| |done].
  destruct (wf_parent _ Ht _ _ Hq Hq0) as (pn & Hpn & Hin).
  destruct (decide (p = parent q)) as [->|Hpq].
  - exists pn, (last_name q). split_and!; [done|by eapply wf_kid_dir|done|].
    by rewrite child_parent.
  - pose proof (parent_length q Hrel Hq0) as Hlen.
    destruct (IH (length (rel_elems (parent q))) ltac:(lia) (parent q) pn) as (an & c & ? & ? & ? & Hc);
      [done..|]. exists an, c. split_and!; [done..|]. etrans; [done|]. by apply under_parent.
Qed.

Lemma wf_under_exists t p q n : wf t → t !! q = Some n → under p q → is_Some (t !! p).
Proof.
  intros Ht Hq Hu. destruct (decide (p = q)) as [->|Hne]; [by eexists|].
  destruct (wf_ancestor t p q n Ht Hq Hu Hne) as (pn & _ & ? & _). by eexists.
Qed.

(** The depth of the tree is bounded by the number of its nodes. *)
Lemma wf_depth t q n : wf t → t !! q = Some n → length (rel_elems q) < size t.
Proof.
  intros Ht Hq. destruct (wf_key _ Ht _ _ Hq) as [Hrel _].
  set (l := rel_elems q) in *.
  set (ps := (λ i, join_slash (take i l)) <$> seq 0 (S (length l))).
  assert (Hps : ∀ i, rel_elems (join_slash (take i l)) = take i l).
  { intros i. apply rel_elems_join. by apply Forall_take. }
  assert (HND : NoDup ps).
  { apply NoDup_fmap_2_strong; [|apply NoDup_seq].
    intros i j Hi%elem_of_seq Hj%elem_of_seq E. apply (f_equal rel_elems) in E.
    rewrite !Hps in E. apply (f_equal length) in E. rewrite !length_take in E. lia. }
  assert (Hsub : list_to_set ps ⊆ dom t).
  { intros p (i & -> & _)%elem_of_list_to_set%list_elem_of_fmap. apply elem_of_dom.
    eapply wf_under_exists; [done..|]. unfold under. rewrite Hps. apply prefix_take. }
  apply subseteq_size in Hsub. rewrite size_list_to_set, size_dom in Hsub by done.
  unfold ps in Hsub. rewrite length_fmap, length_seq in Hsub. lia.
Qed.

(** ** Deletion *)

Definition drop_children (ks : gset string) (n : node) : node :=
  mk_node (info n) ((.∖ ks) <$> children n).

Lemma kids_drop ks n : kids (drop_children ks n) = kids n ∖ ks.
Proof. unfold kids, drop_children. simpl. destruct (children n); simpl; set_solver. Qed.

Lemma drop_children_id ks n : kids n ## ks → drop_children ks n = n.
Proof.
  unfold kids, drop_children. destruct n as [i [cs|]]; simpl; [|done].
  intros Hd. do 2 f_equal. set_solver.
Qed.

Lemma drop_children_comp k1 k2 n : drop_children k2 (drop_children k1 n) = drop_children (k1 ∪ k2) n.
Proof.
  unfold drop_children. destruct n as [i [cs|]]; simpl; [|done]. do 2 f_equal. set_solver.
Qed.

(** The tree without [p] and its descendants, which [p]'s parent no longer
    lists. *)
Definition removed (p : string) (t : Tree) (q : string) : option node :=
  if decide (under p q) then None
  else if decide (q = parent p) then drop_children {[last_name p]} <$> t !! q
  else t !! q.

Lemma removed_ne p t q : ¬ under p q → q ≠ parent p → removed p t q = t !! q.
Proof. intros. unfold removed. by rewrite !decide_False. Qed.

Lemma removed_is_Some p t q : is_Some (removed p t q) → is_Some (t !! q).
Proof.
  unfold removed. repeat case_decide; [by intros []|by intros [? (?&?&?)%fmap_Some]|done].
Qed.

(** Removing a path that is not there changes nothing. *)
Lemma removed_missing p t q : wf t → rel_path p → t !! p = None → removed p t q = t !! q.
Proof.
  intros Ht Hp Hpn. unfold removed. destruct (decide (under p q)) as [Hu|Hu].
  { symmetry. apply eq_None_not_Some. intros [n Hn]. apply (is_Some_None (A := node)).
    rewrite <-Hpn. by eapply wf_under_exists. }
  case_decide as Hqp; [|done]. destruct (t !! q) as [n|] eqn:Hn; [|done]. simpl.
  rewrite drop_children_id; [done|]. intros c Hc ->%elem_of_singleton.
  destruct (wf_kids _ Ht _ _ _ Hn Hc) as [_ Hex]. subst q.
  rewrite child_parent, Hpn in Hex by done. by destruct Hex.
Qed.

(** A tree that agrees with the removal is well formed. *)
Lemma removed_wf t t' p :
  wf t → rel_path p → p ≠ "" → (∀ q, t' !! q = removed p t q) → wf t'.
Proof.
  intros Ht Hp Hne Ht'.
  assert (Hsome : ∀ q n, t' !! q = Some n →
    ∃ n0, t !! q = Some n0 ∧ ¬ under p q ∧ info n = info n0 ∧
      (is_Some (children n) ↔ is_Some (children n0)) ∧
      kids n = kids n0 ∖ (if decide (q = parent p) then {[last_name p]} else ∅)).
  { intros q n. rewrite Ht'. unfold removed.
    destruct (decide (under p q)) as [|Hu]; [done|]. destruct (decide (q = parent p)) as [Hqp|Hqp].
    - intros (n0 & Hn0 & ->)%fmap_Some. exists n0. rewrite kids_drop. simpl.
      by rewrite fmap_is_Some.
    - intros Hn. exists n. rewrite difference_empty_L. done. }
  assert (Hkeep : ∀ q, ¬ under p q → is_Some (t !! q) → is_Some (t' !! q)).
  { intros q Hq [n Hn]. rewrite Ht'. unfold removed. rewrite decide_False by done.
    case_decide; [rewrite Hn; by eexists|by eexists]. }
  constructor.
  - destruct (wf_root _ Ht) as (n & Hn & Hd).
    assert (¬ under p "") by (intros Hu%under_antisymm; [done|apply under_root]).
    destruct (Hkeep "") as [n' Hn']; [done|by eexists|]. exists n'. split; [done|].
    destruct (Hsome _ _ Hn') as (n0 & Hn0 & _ & -> & _). congruence.
  - intros q n (n0 & Hn0 & _ & -> & _)%Hsome. by apply (wf_key _ Ht).
  - intros q n (n0 & Hn0 & _ & -> & -> & _)%Hsome. by apply (wf_dir _ Ht q).
  - intros q n (n0 & Hn0 & Hu & _)%Hsome Hq0.
    destruct (wf_key _ Ht _ _ Hn0) as [Hq _].
    destruct (wf_parent _ Ht _ _ Hn0 Hq0) as (pn & Hpn & Hin).
    assert (Hup : ¬ under p (parent q)).
    { intros Hup. apply Hu. etrans; [done|]. by apply under_parent. }
    destruct (Hkeep (parent q)) as [pn' Hpn']; [done|by eexists|].
    exists pn'. split; [done|]. destruct (Hsome _ _ Hpn') as (pn0 & ? & _ & _ & _ & ->).
    simplify_eq. apply elem_of_difference. split; [done|]. case_decide as Heq; [|set_solver].
    rewrite elem_of_singleton. intros Hl. apply Hu.
    rewrite <-(child_parent q), Heq, Hl, child_parent by done. done.
  - intros q n c (n0 & Hn0 & Hu & _ & _ & ->)%Hsome [Hc Hnot]%elem_of_difference.
    destruct (wf_kids _ Ht _ _ _ Hn0 Hc) as (Hseg & Hex). destruct Hseg as (Hc0 & Hcd & Hcs).
    split; [done|]. apply Hkeep; [|done]. intros Huc.
    destruct (wf_key _ Ht _ _ Hn0) as [Hq _].
    apply under_cases in Huc as [->|[_ Huc]]; [| |by apply rel_path_child].
    + destruct (parent_child q c Hcs) as [E1 E2]. rewrite E1, E2, decide_True in Hnot by done.
      set_solver.
    + by rewrite (proj1 (parent_child q c Hcs)) in Huc.
Qed.

(** A loop that deletes children of [p] one after the other, for any
    deletion [D] that is right on the trees that satisfy [P]. *)
Section delete_children.
Context (D : string → Tree → Tree) (P : Tree → Prop) (p : string).
Context (Prel : rel_path p).
Context (P_mono : ∀ t t', P t → (∀ q, is_Some (t' !! q) → is_Some (t !! q)) → P t').
Context (D_spec : ∀ c t, rel_seg c → wf t → P t →
  wf (D (child p c) t) ∧ ∀ q, D (child p c) t !! q = removed (child p c) t q).

Lemma delete_children_spec ks t :
  wf t → P t → Forall rel_seg ks →
  let t' := foldl (λ t c, D (joinPath p c) t) t ks in
  wf t' ∧
  t' !! p = drop_children (list_to_set ks) <$> t !! p ∧
  ∀ q, q ≠ p → t' !! q = if decide (Exists (λ c, under (child p c) q) ks) then None else t !! q.
Proof using All.
  revert t. induction ks as [|c ks IH]; intros t Ht HP Hks; cbn [foldl].
  { split_and!; [done| |by intros q _; rewrite decide_False by by intros ?%Exists_nil].
    destruct (t !! p) as [n|]; simpl; [|done]. by rewrite drop_children_id. }
  apply Forall_cons in Hks as [Hseg Hks]. rewrite joinPath_eq.
  destruct (D_spec c t Hseg Ht HP) as [Ht1 Hl1]. destruct Hseg as (Hc0 & Hcd & Hcs).
  destruct (parent_child p c Hcs) as [Hpar Hlast].
  assert (Hup : ¬ under (child p c) p).
  { intros Hu%under_length. rewrite rel_elems_child, length_app in Hu by done. simpl in Hu. lia. }
  destruct (IH (D (child p c) t)) as (Ht' & Hp' & Hq'); [done| |done|].
  { eapply P_mono; [done|]. intros q. rewrite Hl1. apply removed_is_Some. }
  split_and!; [done| |].
  - rewrite Hp', Hl1. unfold removed. rewrite decide_False, Hpar, Hlast, decide_True by done.
    destruct (t !! p); simpl; [|done]. by rewrite drop_children_comp.
  - intros q Hq. rewrite Hq' by done. rewrite Hl1. unfold removed. rewrite Hpar.
    rewrite (decide_False (P := q = p)) by done.
    destruct (decide (Exists _ (c :: ks))) as [He|He]; rewrite Exists_cons in He.
    + destruct He as [He|He]; [|by rewrite decide_True].
      rewrite (decide_True (P := under _ _)) by done. by case_decide.
    + by rewrite !decide_False by tauto.
Qed.
End delete_children.

Section deletion.
Context `{MapRange}.

(** When the loop runs over all the children, all the descendants go. *)
Lemma children_covered t p n q (ks : list string) :
  wf t → t !! p = Some n → (∀ c, c ∈ ks ↔ c ∈ kids n) → q ≠ p →
  (if decide (Exists (λ c, under (child p c) q) ks) then None else t !! q) =
  (if decide (under p q) then None else t !! q).
Proof.
  intros Ht Hp Hks Hqp. destruct (decide (Exists _ ks)) as [He|He].
  - apply Exists_exists in He as (c & Hc & Hu). apply Hks in Hc.
    destruct (wf_kids _ Ht _ _ _ Hp Hc) as [(?&_&?) _].
    rewrite decide_True; [done|]. etrans; [by apply under_child|done].
  - case_decide as Hu; [|done]. destruct (t !! q) as [nq|] eqn:Hq; [|done].
    destruct He. destruct (wf_ancestor t p q nq Ht Hq Hu) as (pn & c & ? & _ & Hin & ?); [done|].
    simplify_eq. apply Exists_exists. exists c. by rewrite Hks.
Qed.

Lemma range_kids n c :
  c ∈ range_keys (default ∅ (children n)) ↔ c ∈ kids n.
Proof. apply elem_of_range_keys. Qed.

Lemma range_kids_seg t p n :
  wf t → t !! p = Some n → Forall rel_seg (range_keys (default ∅ (children n))).
Proof.
  intros Ht Hp. apply Forall_forall. intros c Hc%range_kids.
  by destruct (wf_kids _ Ht _ _ _ Hp Hc).
Qed.

Lemma deleteLocked_fuel_spec f p t :
  wf t → rel_path p → p ≠ "" →
  (∀ q, is_Some (t !! q) → length (rel_elems q) < length (rel_elems p) + f) →
  wf (deleteLocked_fuel f p t) ∧ ∀ q, deleteLocked_fuel f p t !! q = removed p t q.
Proof.
  intros Ht Hp Hne Hf.
  cut (∀ q, deleteLocked_fuel f p t !! q = removed p t q).
  { intros Hq. split; [by eapply removed_wf|done]. }
  revert p t Ht Hp Hne Hf. induction f as [|f IH]; intros p t Ht Hp Hne Hf q.
  - assert (Hpn : t !! p = None).
    { apply eq_None_not_Some. intros Hs%Hf. lia. }
    by rewrite removed_missing.
  - cbn [deleteLocked_fuel]. destruct (t !! p) as [n|] eqn:Hpn; cycle 1.
    { by rewrite removed_missing. }
    set (t1 := if FIsDir _ then _ else _).
    assert (Ht1 : ∀ q, q ≠ p → t1 !! q = if decide (under p q) then None else t !! q).
    { intros q' Hq'. unfold t1. destruct (FIsDir (info n)) eqn:Hd.
      - set (P := λ t : Tree, ∀ q, is_Some (t !! q) → length (rel_elems q) < length (rel_elems p) + S f).
        assert (HD : ∀ c t, rel_seg c → wf t → P t →
          wf (deleteLocked_fuel f (child p c) t) ∧
          ∀ q, deleteLocked_fuel f (child p c) t !! q = removed (child p c) t q).
        { intros c t' Hc Hwf Hb. assert (rel_path (child p c)) by by apply rel_path_child.
          destruct Hc as (?&?&?).
          assert (∀ q, deleteLocked_fuel f (child p c) t' !! q = removed (child p c) t' q) as Hq.
          { apply IH; auto using child_not_root.
            intros q'' Hs%Hb. rewrite rel_elems_child, length_app by done. simpl. lia. }
          split; [|done]. by eapply removed_wf; [|..|exact Hq]; auto using child_not_root. }
        destruct (delete_children_spec (deleteLocked_fuel f) P p Hp ltac:(unfold P; auto) HD
          (range_keys (default ∅ (children n))) t Ht Hf (range_kids_seg _ _ _ Ht Hpn))
          as (_ & _ & Hq).
        rewrite Hq by done. eapply children_covered; [done..| |done].
        intros c. by apply range_kids.
      - rewrite <-(children_covered t p n q' []); [by rewrite decide_False by by intros ?%Exists_nil|done..| |done].
        intros c. rewrite (wf_file_kids t p n) by done. set_solver. }
    rewrite splitParent_eq. pose proof (parent_ne p Hp Hne) as Hpar.
    assert (Hnu : ¬ under p (parent p)).
    { intros Hu%under_antisymm; [done|by apply under_parent]. }
    rewrite lookup_delete_ne, (Ht1 (parent p)) by done. rewrite decide_False by done.
    assert (Hdel : delete p t1 !! q = if decide (under p q) then None else t !! q).
    { destruct (decide (q = p)) as [->|Hqp]; [by rewrite lookup_delete_eq, decide_True|].
      by rewrite lookup_delete_ne, Ht1. }
    unfold removed. destruct (decide (q = parent p)) as [->|Hqp].
    + rewrite decide_False by done. destruct (t !! parent p) as [pn|] eqn:Hparn.
      * by rewrite lookup_insert_eq.
      * by rewrite Hdel, decide_False.
    + rewrite <-Hdel. destruct (t !! parent p); [|done]. by rewrite lookup_insert_ne.
Qed.

Lemma deleteLocked_spec p t :
  wf t → rel_path p → p ≠ "" →
  wf (deleteLocked p t) ∧ ∀ q, deleteLocked p t !! q = removed p t q.
Proof.
  intros Ht Hp Hne. apply deleteLocked_fuel_spec; [done..|].
  intros q [n Hn]. pose proof (wf_depth t q n Ht Hn). lia.
Qed.

Lemma pruneChildren_spec p n t :
  wf t → rel_path p → t !! p = Some n → FIsDir (info n) = true →
  let t' := pruneChildren p n t in
  wf t' ∧ t' !! p = Some (mk_node (info n) (Some ∅)) ∧
  ∀ q, q ≠ p → t' !! q = if decide (under p q) then None else t !! q.
Proof.
  intros Ht Hp Hpn Hd.
  assert (HD : ∀ c t, rel_seg c → wf t → True →
    wf (deleteLocked (child p c) t) ∧ ∀ q, deleteLocked (child p c) t !! q = removed (child p c) t q).
  { intros c t' Hc Hwf _. pose proof Hc as (?&?&?).
    apply deleteLocked_spec; auto using rel_path_child, child_not_root. }
  destruct (delete_children_spec deleteLocked (λ _, True) p Hp ltac:(auto) HD
    (range_keys (default ∅ (children n))) t Ht I (range_kids_seg _ _ _ Ht Hpn)) as (Hwf & Hp' & Hq).
  split_and!; [done| |].
  - unfold pruneChildren. rewrite Hp', Hpn. simpl. unfold drop_children. do 2 f_equal.
    destruct (proj1 (wf_dir _ Ht _ _ Hpn) Hd) as [cs Hcs]. rewrite Hcs. simpl. f_equal.
    apply set_eq. intros c. rewrite elem_of_difference, elem_of_list_to_set, elem_of_range_keys.
    set_solver.
  - intros q Hqp. unfold pruneChildren. rewrite Hq by done.
    eapply children_covered; [done..| |done]. intros c. by apply range_kids.
Qed.
End deletion.

(** ** Insertion *)

(** Replacing a node by one with the same children, or adding a directory
    without children or a file, and registering it with its parent. *)
Definition put (p : string) (nd : node) (t : Tree) : Tree := register p (<[p := nd]> t).

Lemma lookup_put p nd pn t q :
  rel_path p → p ≠ "" → t !! parent p = Some pn →
  put p nd t !! q =
    if decide (q = p) then Some nd
    else if decide (q = parent p) then Some (mk_node (info pn) (Some ({[last_name p]} ∪ kids pn)))
    else t !! q.
Proof.
  intros Hp Hne Hpn. pose proof (parent_ne p Hp Hne) as Hpar.
  unfold put, register. rewrite splitParent_eq, lookup_insert_ne, Hpn by done.
  destruct (decide (q = p)) as [->|Hq].
  { by rewrite lookup_insert_ne, lookup_insert_eq by done. }
  case_decide as Hqp; [by rewrite Hqp, lookup_insert_eq|].
  by rewrite !lookup_insert_ne by done.
Qed.

Lemma put_wf p nd pn t :
  wf t → rel_path p → p ≠ "" → t !! parent p = Some pn → FIsDir (info pn) = true →
  FPath (info nd) = p → (FIsDir (info nd) = true ↔ is_Some (children nd)) →
  kids nd = match t !! p with Some n => kids n | None => ∅ end →
  wf (put p nd t).
Proof.
  intros Ht Hp Hne Hpn Hd Hpath Hdir Hkids.
  assert (Hl : ∀ q, put p nd t !! q =
    if decide (q = p) then Some nd
    else if decide (q = parent p) then Some (mk_node (info pn) (Some ({[last_name p]} ∪ kids pn)))
    else t !! q) by (intros; by apply lookup_put).
  assert (Hkeep : ∀ q, is_Some (t !! q) → is_Some (put p nd t !! q)).
  { intros q Hq. rewrite Hl. repeat case_decide; by eauto. }
  constructor.
  - destruct (wf_root _ Ht) as (n & Hn & Hnd). rewrite Hl, decide_False by done.
    case_decide as Hq; [|exists n; by split]. exists (mk_node (info pn) (Some ({[last_name p]} ∪ kids pn))). done.
  - intros q n. rewrite Hl. destruct (decide (q = p)) as [->|Hq]; [by intros [= <-]|].
    destruct (decide (q = parent p)) as [->|Hq']; [|by apply Ht].
    intros [= <-]. by apply (wf_key _ Ht _ pn).
  - intros q n. rewrite Hl. destruct (decide (q = p)) as [->|Hq]; [by intros [= <-]|].
    destruct (decide (q = parent p)) as [->|Hq']; [|by apply Ht].
    intros [= <-]. simpl. split; [by eexists|done].
  - intros q n Hqn Hq0. rewrite Hl in Hqn. destruct (decide (q = p)) as [->|Hq].
    { rewrite Hl, decide_False, decide_True by (done || by apply parent_ne).
      eexists. split; [done|]. unfold kids; simpl. by apply elem_of_union_l, elem_of_singleton. }
    assert (∃ n0, t !! q = Some n0) as [n0 Hn0].
    { case_decide as E; [rewrite E; by eexists|by eexists]. }
    destruct (wf_parent _ Ht _ _ Hn0 Hq0) as (qn & Hqpn & Hin). rewrite Hl.
    destruct (decide (parent q = p)) as [E|E].
    { exists nd. split; [done|]. rewrite Hkids, <-E, Hqpn. done. }
    destruct (decide (parent q = parent p)) as [E'|E']; [|by exists qn].
    eexists. split; [done|]. rewrite E' in Hqpn. assert (pn = qn) as -> by congruence.
    unfold kids in Hin |- *; simpl. by apply elem_of_union_r.
  - clear Hpath. intros q n c Hqn Hc. rewrite Hl in Hqn. destruct (decide (q = p)) as [->|Hq].
    + simplify_eq. rewrite Hkids in Hc. destruct (t !! p) as [n0|] eqn:Hn0; [|set_solver].
      destruct (wf_kids _ Ht _ _ _ Hn0 Hc) as [? ?]. split; [done|]. by apply Hkeep.
    + destruct (decide (q = parent p)) as [->|Hq'].
      * simplify_eq. unfold kids in Hc. simpl in Hc. apply elem_of_union in Hc as [->%elem_of_singleton|Hc].
        { destruct (parent_elems p Hp Hne) as (_ & ? & _). split; [done|].
          rewrite child_parent, Hl, decide_True by done. by eexists. }
        destruct (wf_kids _ Ht _ _ _ Hpn Hc) as [? ?]. split; [done|]. by apply Hkeep.
      * destruct (wf_kids _ Ht _ _ _ Hqn Hc) as [? ?]. split; [done|]. by apply Hkeep.
Qed.

Lemma kids_promote n : kids (promoteToDir n) = kids n.
Proof. unfold kids, promoteToDir. simpl. by destruct (children n). Qed.

Lemma promote_wf a n t : wf t → t !! a = Some n → wf (<[a := promoteToDir n]> t).
Proof.
  intros Ht Ha.
  assert (Hsome : ∀ q n', <[a := promoteToDir n]> t !! q = Some n' →
    ∃ n0, t !! q = Some n0 ∧ kids n' = kids n0 ∧ FPath (info n') = FPath (info n0)
      ∧ (q = a → n' = promoteToDir n) ∧ (q ≠ a → n' = n0)).
  { intros q n' [[<- <-]|[Hne Hq]]%lookup_insert_Some.
    - exists n. split_and!; [done|apply kids_promote| |done|done].
      unfold promoteToDir. simpl. by destruct (FIsDir _).
    - exists n'. by split_and!; [done..|intros ->|]. }
  assert (Hkeep : ∀ q, is_Some (t !! q) → is_Some (<[a := promoteToDir n]> t !! q)).
  { intros q Hq. destruct (decide (q = a)) as [->|]; [rewrite lookup_insert_eq; by eexists|].
    by rewrite lookup_insert_ne. }
  assert (Hdirs : ∀ n', FIsDir (info (promoteToDir n')) = true ∧ is_Some (children (promoteToDir n'))).
  { intros n'. unfold promoteToDir. simpl. destruct (FIsDir (info n')) eqn:E, (children n'); simpl;
      split; try done; by eexists. }
  constructor.
  - destruct (wf_root _ Ht) as (n0 & Hn0 & Hd). destruct (decide (a = "")) as [->|Hne].
    + exists (promoteToDir n). rewrite lookup_insert_eq. split; [done|]. apply Hdirs.
    + exists n0. by rewrite lookup_insert_ne.
  - intros q n' (n0 & Hn0 & _ & -> & _)%Hsome. by apply (wf_key _ Ht).
  - intros q n' (n0 & Hn0 & _ & _ & Hq1 & Hq2)%Hsome. destruct (decide (q = a)) as [Hq|Hq].
    + rewrite Hq1 by done. by destruct (Hdirs n).
    + rewrite Hq2 by done. by apply (wf_dir _ Ht q).
  - intros q n' (n0 & Hn0 & _)%Hsome Hq0. destruct (wf_parent _ Ht _ _ Hn0 Hq0) as (pn & Hpn & Hin).
    destruct (Hkeep (parent q)) as [pn' Hpn']; [by eexists|]. exists pn'. split; [done|].
    destruct (Hsome _ _ Hpn') as (pn0 & ? & -> & _). congruence.
  - intros q n' c (n0 & Hn0 & -> & _)%Hsome Hc. destruct (wf_kids _ Ht _ _ _ Hn0 Hc). auto.
Qed.

(** What [ensureAncestors] does: the ancestors are directories afterwards,
    nothing else changes. *)
Lemma ensureAncestors_fuel_spec f p t :
  wf t → rel_path p → p ≠ "" → length (rel_elems p) ≤ f →
  let t' := ensureAncestors_fuel f p t in
  wf t' ∧ (∃ pn, t' !! parent p = Some pn ∧ FIsDir (info pn) = true) ∧
  (∀ q, ¬ (under q p ∧ q ≠ p) → t' !! q = t !! q) ∧
  (∀ q, under q p → q ≠ p →
     abs t' q = if decide (q = "") then abs t q else Some (Spec.as_dir q (abs t q))).
Proof.
  revert p t. induction f as [|f IH]; intros p t Ht Hp Hne Hf; cbv zeta.
  { destruct (parent_elems p Hp Hne) as (He & _). rewrite He, length_app in Hf. simpl in Hf. lia. }
  cbn [ensureAncestors_fuel]. rewrite splitParent_eq.
  pose proof (parent_length p Hp Hne) as Hlen.
  destruct (parent_elems p Hp Hne) as (_ & _ & Hrel).
  assert (Hanc : ∀ q, under q p → q ≠ p → under q (parent p)).
  { intros q Hu Hq. apply under_cases in Hu as [?|[_ ?]]; done. }
  destruct (decide (parent p = "")) as [Hroot|Hroot].
  { split_and!; [done|rewrite Hroot; apply Ht|done|].
    intros q Hu Hq. specialize (Hanc q Hu Hq). rewrite Hroot in Hanc.
    rewrite decide_True; [done|]. apply under_antisymm; [done|apply under_root]. }
  assert (Hpp : under (parent p) p) by by apply under_parent.
  destruct (t !! parent p) as [n|] eqn:Hn.
  - destruct (wf_key _ Ht _ _ Hn) as [_ Hpath]. split_and!.
    + by apply promote_wf.
    + exists (promoteToDir n). rewrite lookup_insert_eq. split; [done|].
      unfold promoteToDir. simpl. by destruct (FIsDir (info n)) eqn:?.
    + intros q Hq. rewrite lookup_insert_ne; [done|]. intros <-. apply Hq.
      split; [done|]. by apply parent_ne.
    + intros q Hu Hq. specialize (Hanc q Hu Hq). unfold abs.
      destruct (decide (q = parent p)) as [->|Hqp].
      * rewrite lookup_insert_eq, decide_False, Hn by done. simpl. f_equal.
        unfold promoteToDir, Spec.as_dir. simpl. by rewrite Hpath.
      * rewrite lookup_insert_ne by done. case_decide; [done|].
        destruct (wf_ancestor t q (parent p) n) as (qn & _ & -> & Hd & _); [done..|].
        simpl. by rewrite Hd.
  - destruct (IH (parent p) t Ht Hrel Hroot ltac:(lia)) as (Ht1 & (gn & Hgn & Hgd) & Hother & Hup).
    set (t1 := ensureAncestors_fuel f (parent p) t) in *.
    set (nd := mk_node (dir_info (parent p)) (Some ∅)).
    change (register (parent p) (<[parent p := nd]> t1)) with (put (parent p) nd t1).
    assert (Hl : ∀ q, put (parent p) nd t1 !! q =
      if decide (q = parent p) then Some nd
      else if decide (q = parent (parent p))
        then Some (mk_node (info gn) (Some ({[last_name (parent p)]} ∪ kids gn)))
      else t1 !! q) by (intros; by apply lookup_put).
    assert (Hgp : under (parent (parent p)) (parent p)) by by apply under_parent.
    pose proof (parent_ne _ Hrel Hroot) as Hgne.
    split_and!.
    + eapply put_wf; [done..| |].
      { simpl. split; [by eexists|done]. }
      rewrite Hother, Hn by tauto. done.
    + exists nd. by rewrite Hl, decide_True.
    + intros q Hq. rewrite Hl. rewrite !decide_False.
      * apply Hother. intros [Hu Hqp]. apply Hq. split; [by etrans|]. intros ->.
        apply (parent_ne p Hp Hne). by apply under_antisymm.
      * intros ->. apply Hq. split; [by etrans|]. intros E. apply (f_equal (length ∘ rel_elems)) in E.
        pose proof (parent_length _ Hrel Hroot). simpl in E. lia.
      * intros ->. apply Hq. split; [done|]. by apply parent_ne.
    + intros q Hu Hq. specialize (Hanc q Hu Hq). unfold abs at 1. rewrite Hl.
      destruct (decide (q = parent p)) as [->|Hqp].
      { rewrite decide_False by done. unfold abs. by rewrite Hn. }
      rewrite <-Hup by done. case_decide as E; [|done]. unfold abs. by rewrite E, Hgn.
Qed.

Section insertion.
Context `{MapRange}.

(** The first step of an insertion: a directory that a file replaces loses
    its descendants. *)
Lemma overwrite_spec p i t :
  wf t → rel_path p →
  let t1 := match t !! p with
            | Some prev =>
              if FIsDir (info prev) && negb (FIsDir i) then pruneChildren p prev t else t
            | None => t
            end in
  wf t1 ∧
  (FIsDir i = false → ∀ n, t1 !! p = Some n → kids n = ∅) ∧
  ∀ q, q ≠ p → t1 !! q = if decide (under p q ∧ FIsDir i = false) then None else t !! q.
Proof.
  intros Ht Hp. cbv zeta.
  assert (Hsame : (∀ n, t !! p = Some n → kids n = ∅) → ∀ q, q ≠ p →
    t !! q = if decide (under p q ∧ FIsDir i = false) then None else t !! q).
  { intros Hk q Hq. case_decide as Hu; [|done]. destruct Hu as [Hu _].
    destruct (t !! q) as [n|] eqn:Hn; [|done].
    destruct (wf_ancestor t p q n) as (pn & c & Hpn & _ & Hc & _); [done..|].
    rewrite (Hk pn) in Hc by done. set_solver. }
  destruct (t !! p) as [prev|] eqn:Hprev.
  - destruct (FIsDir (info prev)) eqn:Hd, (FIsDir i) eqn:Hi; simpl.
    + split_and!; [done..|]. intros q _. rewrite decide_False; [done|]. by intros [_ [=]].
    + destruct (pruneChildren_spec p prev t Ht Hp Hprev Hd) as (Hwf & Hp' & Hq).
      split_and!; [done| |].
      * intros _ n. rewrite Hp'. by intros [= <-].
      * intros q Hqp. rewrite Hq by done. apply decide_ext. naive_solver.
    + split_and!; [done..|]. intros q _. rewrite decide_False; [done|]. by intros [_ [=]].
    + assert (∀ n, t !! p = Some n → kids n = ∅) as Hk.
      { intros n Hn. eapply wf_file_kids; [done..|]. congruence. }
      split_and!; [done|by auto|by apply Hsame; intros ? [= <-]; apply Hk].
  - split_and!; [done|by intros _ n; rewrite Hprev|by apply Hsame].
Qed.

Lemma kids_childrenMap o i :
  (FIsDir i = false → ∀ n, o = Some n → kids n = ∅) →
  default ∅ (childrenMapForInfo o i) = match o with Some n => kids n | None => ∅ end.
Proof.
  unfold childrenMapForInfo. intros Hk. destruct (FIsDir i); simpl.
  - destruct o as [[j [cs|]]|]; done.
  - destruct o as [n|]; [|done]. by rewrite Hk.
Qed.

Lemma insertLocked_spec p i t :
  wf t → rel_path p → p ≠ "" →
  wf (insertLocked p i t) ∧ ∀ q, abs (insertLocked p i t) q = Spec.insert p i (abs t) q.
Proof.
  intros Ht Hp Hne. unfold insertLocked.
  destruct (overwrite_spec p i t Ht Hp) as (Ht1 & Hk1 & Hq1).
  set (t1 := match t !! p with Some _ => _ | None => _ end) in *.
  destruct (ensureAncestors_fuel_spec (length (split_slash p)) p t1 Ht1 Hp Hne)
    as (Ht2 & (pn & Hpn & Hpd) & Hother & Hup).
  { unfold rel_elems. by rewrite decide_False. }
  fold (ensureAncestors p t1) in *. set (t2 := ensureAncestors p t1) in *.
  set (stored := mk_FileInfo p _ _ _ _).
  assert (Hp2 : t2 !! p = t1 !! p) by (apply Hother; naive_solver).
  rewrite Hp2. set (nd := mk_node stored _).
  change (register p (<[p := nd]> t2)) with (put p nd t2).
  split.
  - eapply put_wf; [done..| |].
    + unfold nd, childrenMapForInfo, stored. simpl. destruct (FIsDir i); simpl.
      * split; [|done]. intros _. destruct (t1 !! p) as [n|]; [|by eexists].
        destruct (children n); by eexists.
      * split; [done|by intros []].
    + rewrite Hp2. by apply (kids_childrenMap (t1 !! p) stored).
  - intros q. unfold abs at 1. rewrite (lookup_put p nd pn) by done. unfold Spec.insert.
    destruct (decide (q = p)) as [->|Hqp]; [done|].
    assert (Habs2 : info <$> (if decide (q = parent p)
        then Some (mk_node (info pn) (Some ({[last_name p]} ∪ kids pn))) else t2 !! q) = abs t2 q).
    { unfold abs. destruct (decide (q = parent p)) as [E|E]; [|done]. by rewrite E, Hpn. }
    rewrite Habs2.
    assert (Habs1 : abs t1 q = if decide (under p q ∧ FIsDir i = false) then None else abs t q).
    { unfold abs. rewrite Hq1 by done. by destruct (decide (under p q ∧ FIsDir i = false)). }
    destruct (decide (under q p)) as [Hu|Hu].
    + rewrite Hup by done.
      assert (Hnu : ¬ under p q) by (intros ?; apply Hqp; by apply under_antisymm).
      rewrite Habs1, (decide_False (P := under p q ∧ _)) by tauto.
      destruct (decide (q = "")) as [Hq|Hq]; [by rewrite decide_False by tauto|].
      by rewrite decide_True.
    + rewrite (decide_False (P := q ≠ "" ∧ _)) by tauto. rewrite <-Habs1.
      unfold abs. by rewrite Hother by tauto.
Qed.

(** ** The exported operations *)

Lemma New_wf : wf New.
Proof.
  assert (Hone : ∀ q n, New !! q = Some n → q = "" ∧ n = mk_node (dir_info "") (Some ∅)).
  { unfold New. intros q n [<- <-]%lookup_singleton_Some. done. }
  constructor.
  - eexists. split; [apply lookup_singleton_eq|done].
  - intros q n [-> ->]%Hone. split; [apply rel_path_nil|done].
  - intros q n [-> ->]%Hone. split; [by eexists|done].
  - by intros q n [-> ->]%Hone.
  - intros q n c [-> ->]%Hone Hc. unfold kids in Hc. simpl in Hc. set_solver.
Qed.

Lemma Insert_spec i t t' :
  wf t → Insert (Some i) t = Ok t' →
  wf t' ∧ ∀ q, abs t' q =
    if decide (normalize (FPath i) = "") then abs t q
    else Spec.insert (normalize (FPath i)) i (abs t) q.
Proof.
  intros Ht. unfold Insert. case_decide as Hn; intros [= <-]; [done|].
  apply insertLocked_spec; auto with go.
Qed.

Lemma Delete_spec p t :
  wf t →
  wf (Delete p t) ∧ ∀ q, abs (Delete p t) q =
    if decide (normalize p = "") then abs t q else Spec.delete (normalize p) (abs t) q.
Proof.
  intros Ht. unfold Delete. case_decide as Hn; [done|].
  destruct (deleteLocked_spec (normalize p) t) as [Hwf Hq]; auto with go.
  split; [done|]. intros q. unfold abs, Spec.delete. rewrite Hq. unfold removed.
  repeat case_decide; [done| |done]. by rewrite <-option_fmap_compose.
Qed.

Lemma Lookup_abs p t : Lookup p t = abs t (normalize p).
Proof.
  unfold Lookup, abs. destruct (t !! normalize p); simpl; [|done]. by rewrite cloneInfo_eq.
Qed.

Lemma Apply_wf c t : wf t → wf (fst (Apply c t)).
Proof.
  intros Ht. assert (HI : ∀ i t, wf t →
    wf (fst (match Insert i t with Ok t' => (t', None) | Err e => (t, Some e) end))).
  { intros i t0 Ht0. destruct (Insert i t0) as [t1|] eqn:E; [|done].
    destruct i as [i|]; [|done]. by eapply Insert_spec. }
  unfold Apply. destruct c as [[ty f old]|]; [|done]. simpl.
  destruct ty; simpl; auto.
  - destruct f; [|done]. by apply Delete_spec.
  - apply HI. by apply Delete_spec.
Qed.
End insertion.

(** ** Sequences of operations *)

Inductive op : Type :=
  | OpInsert (i : option FileInfo)
  | OpDelete (p : string)
  | OpApply (c : option FileChange).

Definition apply_op `{MapRange} (t : Tree) (o : op) : Tree :=
  match o with
  | OpInsert i => match Insert i t with Ok t' => t' | Err _ => t end
  | OpDelete p => Delete p t
  | OpApply c => fst (Apply c t)
  end.

Definition run `{MapRange} (ops : list op) : Tree := foldl apply_op New ops.

(** The same on the specification. *)
Definition spec_insert (i : option FileInfo) (m : Spec.files) : Spec.files :=
  match i with
  | Some i => if decide (normalize (FPath i) = "") then m else Spec.insert (normalize (FPath i)) i m
  | None => m
  end.
Definition spec_delete (p : string) (m : Spec.files) : Spec.files :=
  if decide (normalize p = "") then m else Spec.delete (normalize p) m.
Definition spec_op (m : Spec.files) (o : op) : Spec.files :=
  match o with
  | OpInsert i => spec_insert i m
  | OpDelete p => spec_delete p m
  | OpApply None => m
  | OpApply (Some c) =>
    match Ctype c with
    | CHANGE_TYPE_CREATE | CHANGE_TYPE_MODIFY => spec_insert (Cfile c) m
    | CHANGE_TYPE_DELETE => match Cfile c with Some f => spec_delete (FPath f) m | None => m end
    | CHANGE_TYPE_RENAME => spec_insert (Cfile c) (spec_delete (Cold_path c) m)
    | CHANGE_TYPE_UNSPECIFIED | CHANGE_TYPE_other _ => m
    end
  end.
Definition spec_files (ops : list op) : Spec.files :=
  foldl spec_op (λ q, if decide (q = "") then Some (dir_info "") else None) ops.

Section runs.
Context `{MapRange}.

Definition represents (t : Tree) (m : Spec.files) : Prop := wf t ∧ ∀ q, abs t q = m q.

Lemma represents_insert t m i :
  represents t m →
  represents (match Insert i t with Ok t' => t' | Err _ => t end) (spec_insert i m).
Proof.
  intros [Ht Hm]. destruct i as [i|]; [|done].
  destruct (Insert (Some i) t) as [t'|e] eqn:E; [|by unfold Insert in E; case_decide].
  destruct (Insert_spec i t t' Ht E) as [Ht' Hq]. split; [done|]. intros q. rewrite Hq.
  unfold spec_insert. destruct (decide (normalize (FPath i) = "")); [done|].
  unfold Spec.insert. by rewrite Hm.
Qed.

Lemma represents_delete t m p : represents t m → represents (Delete p t) (spec_delete p m).
Proof.
  intros [Ht Hm]. destruct (Delete_spec p t Ht) as [Ht' Hq]. split; [done|].
  intros q. rewrite Hq. unfold spec_delete. destruct (decide (normalize p = "")); [done|].
  unfold Spec.delete. by rewrite Hm.
Qed.

Lemma represents_op t m o : represents t m → represents (apply_op t o) (spec_op m o).
Proof.
  intros Hr. destruct o as [i|p|[[ty f old]|]]; simpl.
  - by apply represents_insert.
  - by apply represents_delete.
  - assert (HI : ∀ t m i, represents t m → represents
      (fst (match Insert i t with Ok t' => (t', None) | Err e => (t, Some e) end)) (spec_insert i m)).
    { intros t0 m0 i H0. pose proof (represents_insert t0 m0 i H0). by destruct (Insert i t0). }
    unfold Apply. simpl. destruct ty; simpl; auto.
    + destruct f; [|done]. by apply represents_delete.
    + apply HI. by apply represents_delete.
  - done.
Qed.

Lemma represents_run ops : represents (run ops) (spec_files ops).
Proof.
  unfold run, spec_files. induction ops as [|o ops IH] using rev_ind.
  - simpl. split; [apply New_wf|]. intros q. unfold abs, New. case_decide as Hq.
    + by rewrite Hq, lookup_singleton_eq.
    + by rewrite lookup_singleton_ne.
  - rewrite !foldl_app. simpl. by apply represents_op.
Qed.

(** ** Properties *)

(** Structure of the tree.  Whatever insertions, deletions and changes
    are applied to a new tree, with whatever paths and in whatever order,
    and however Go orders its map iterations: the root is a directory, every
    node carries its own path, exactly the directories have a children map,
    every node but the root is listed by its parent, which exists, and every
    listed child exists. *)
Theorem tree_structure (ops : list op) : wf (run ops).
Proof. apply represents_run. Qed.

(** C37. What the paths map to.  After any sequence of operations, [Lookup]
    answers as the map from paths to information in which an insertion
    stores the entry under its normalised path, makes every ancestor a
    directory (keeping what is known of an existing one) and, for a file,
    drops the descendants; a deletion drops the path and its descendants; a
    rename deletes, then inserts; and the root cannot be changed. *)
Theorem tree_refines_files (ops : list op) (p : string) :
  Lookup p (run ops) = spec_files ops (normalize p).
Proof. rewrite Lookup_abs. apply represents_run. Qed.

Lemma List_elems t p l :
  wf t → List p t = Some l →
  l = omap (abs t ∘ child (normalize p))
        (range_keys (match t !! normalize p with Some n => kids n | None => ∅ end)).
Proof.
  intros Ht. unfold List. destruct (t !! normalize p) as [n|]; [|done].
  destruct (FIsDir (info n)); simpl; [|done]. intros [= <-].
  apply list_omap_ext, Forall_Forall2_diag, Forall_forall. intros c _.
  simpl. rewrite joinPath_eq. unfold abs. destruct (t !! child _ _); simpl; [|done].
  by rewrite cloneInfo_eq.
Qed.

(** Listing a directory.  After any sequence of operations, [List]
    answers exactly for the paths that hold a directory, and then with the
    entries one level below it, each of them once. *)
Theorem List_direct_children (ops : list op) (p : string) :
  let t := run ops in
  match List p t with
  | None => ∀ i, Lookup p t = Some i → FIsDir i = false
  | Some l =>
    (∃ i, Lookup p t = Some i ∧ FIsDir i = true) ∧ NoDup (FPath <$> l) ∧
    ∀ i, i ∈ l ↔ ∃ q, q ≠ "" ∧ parent q = normalize p ∧ abs t q = Some i
  end.
Proof.
  intros t. assert (Ht : wf t) by apply represents_run. clearbody t.
  destruct (List p t) as [l|] eqn:Hl; cycle 1.
  { intros i. rewrite Lookup_abs. unfold List in Hl. unfold abs.
    destruct (t !! normalize p) as [n|]; [|done]. intros [= <-].
    by destruct (FIsDir (info n)). }
  pose proof (List_elems t p l Ht Hl) as Hel. unfold List in Hl.
  rewrite Lookup_abs. unfold abs at 1.
  destruct (t !! normalize p) as [n|] eqn:Hn; [|done].
  destruct (FIsDir (info n)) eqn:Hd; [simpl in *|done]. split; [by exists (info n)|].
  assert (Hpath : ∀ c i, abs t (child (normalize p) c) = Some i → FPath i = child (normalize p) c).
  { intros c i (nc & Hc & ->)%fmap_Some. by apply (wf_key _ Ht). }
  split.
  - rewrite Hel. apply NoDup_fmap_omap; [apply NoDup_range_keys|].
    intros c1 c2 i1 i2 H1 H2 Hi1%Hpath Hi2%Hpath Heq.
    rewrite elem_of_range_keys in H1, H2.
    destruct (wf_kids _ Ht _ _ _ Hn H1) as [(?&?&?) _], (wf_kids _ Ht _ _ _ Hn H2) as [(?&?&?) _].
    eapply (child_inj (normalize p) (normalize p)); [done..|congruence].
  - intros i. rewrite Hel, list_elem_of_omap. setoid_rewrite elem_of_range_keys. split.
    + intros (c & Hc & Hi). destruct (wf_kids _ Ht _ _ _ Hn Hc) as [(?&?&Hcs) _].
      exists (child (normalize p) c). split_and!; [by apply child_not_root| |done].
      by apply parent_child.
    + intros (q & Hq & Hpar & Hi). pose proof Hi as (nq & Hnq & _)%fmap_Some.
      destruct (wf_key _ Ht _ _ Hnq) as [Hrel _].
      destruct (wf_parent _ Ht _ _ Hnq Hq) as (pn & Hpn & Hin).
      exists (last_name q). rewrite Hpar in Hpn. simplify_eq. split; [done|].
      simpl. by rewrite <-Hpar, child_parent.
Qed.

(** The snapshot of a tree has every entry except the root, once. *)
Theorem Snapshot_complete (ops : list op) :
  let t := run ops in
  NoDup (FPath <$> Snapshot t) ∧
  ∀ i, i ∈ Snapshot t ↔ ∃ q, q ≠ "" ∧ abs t q = Some i.
Proof.
  intros t. assert (Ht : wf t) by apply represents_run. clearbody t. unfold Snapshot.
  assert (Hf : ∀ p i, (if decide (p = "") then None else n ← t !! p; Some (cloneInfo (info n)))
      = Some i ↔ p ≠ "" ∧ abs t p = Some i).
  { intros p i. unfold abs. case_decide; [naive_solver|].
    destruct (t !! p); simpl; rewrite ?cloneInfo_eq; naive_solver. }
  split.
  - apply NoDup_fmap_omap; [apply NoDup_range_keys|].
    intros p1 p2 i1 i2 _ _ [_ (n1 & H1 & ->)%fmap_Some]%Hf [_ (n2 & H2 & ->)%fmap_Some]%Hf.
    destruct (wf_key _ Ht _ _ H1) as [_ ->], (wf_key _ Ht _ _ H2) as [_ ->]. done.
  - intros i. rewrite list_elem_of_omap. setoid_rewrite Hf.
    setoid_rewrite elem_of_range_keys. split; [naive_solver|].
    intros (q & Hq & Hi). exists q. split_and!; [|done..].
    apply elem_of_dom. by apply fmap_Some in Hi as (n & -> & _).
Qed.
End runs.

Example tree_example :
  let f p := OpInsert (Some (mk_FileInfo p 1 0 false 0)) in
  let t := @run elements_range [f "a"; f "a/b/c"; f "x/y"; f "a\b"; OpDelete "/x"] in
  (FPath <$> @Snapshot elements_range t) ≡ₚ ["a"; "a/b"] ∧ @Lookup "a/b/c" t = None ∧
  (FIsDir <$> Lookup "a" t) = Some true.
Proof. vm_compute. split; [|done]. apply NoDup_Permutation; [by apply (bool_decide_unpack _)..|set_solver]. Qed.
