(* ===== verification/Session.v ===== *)
(** * One daemon session: its tree, its cache and its life cycle
    (pkg/session/session.go)

    The state of a [Session] and the methods that work on it.  Each method runs
    its body under the locks of the parts it touches, and is one transition of
    the state here; the exchange of requests and responses, which several
    goroutines share, is in [SessionPending].  The receiver of a method is not
    nil.  [time.Now()] is an argument; an [option Z] is a [time.Time] with
    [None] the zero time. *)
From S2P Require Import Prelude GoPath PathFacts Safepath RelPath Proto.
From S2P Require ContentCache FsTree.
From stdpp Require Import pretty.
From stdpp Require Import options.

Inductive error : Type :=
  | ErrNilRequest
  | ErrNilDaemonMessage
  | ErrMissingInitialFileTree
  | ErrInvalidWorkspaceName
  | ErrDuplicateRequestID
  | ErrSessionClosed
  | ErrSessionReplaced
  | ErrSessionOffline
  | BuildFileTree (e : FsTree.error)   (* "session: build file tree: %w" *)
  | ApplyChange (e : FsTree.error)     (* "session: apply change: %w" *)
  | StreamSend (text : string)         (* "session: stream send: %w" *)
  | StreamRecv (text : string)         (* "session: stream recv: %w" *)
  | ContextDone.                       (* the error of the caller's context *)

#[global] Instance fstree_error_eq_dec : EqDecision FsTree.error.
Proof. solve_decision. Defined.
#[global] Instance error_eq_dec : EqDecision error.
Proof. solve_decision. Defined.

Abbreviation time := (option Z).

(** The fields of [Session], less the ones [SessionPending] has. *)
Record Session : Type := mk_Session {
  userID : string;
  workspaceName : string;
  tree : FsTree.Tree;
  cache : ContentCache.Cache;
  prefetching : gset string;
  closeErr : option error;
  closed : bool;
  offlineUntil : time;
  reqSeq : Z;
  lastHeartbeat : Z;
}.

Definition set_tree (t : FsTree.Tree) (s : Session) : Session :=
  mk_Session (userID s) (workspaceName s) t (cache s) (prefetching s) (closeErr s) (closed s)
    (offlineUntil s) (reqSeq s) (lastHeartbeat s).
Definition set_cache (c : ContentCache.Cache) (s : Session) : Session :=
  mk_Session (userID s) (workspaceName s) (tree s) c (prefetching s) (closeErr s) (closed s)
    (offlineUntil s) (reqSeq s) (lastHeartbeat s).
Definition set_workspaceName (n : string) (s : Session) : Session :=
  mk_Session (userID s) n (tree s) (cache s) (prefetching s) (closeErr s) (closed s)
    (offlineUntil s) (reqSeq s) (lastHeartbeat s).
Definition set_prefetching (p : gset string) (s : Session) : Session :=
  mk_Session (userID s) (workspaceName s) (tree s) (cache s) p (closeErr s) (closed s)
    (offlineUntil s) (reqSeq s) (lastHeartbeat s).
Definition set_close (e : option error) (c : bool) (u : time) (s : Session) : Session :=
  mk_Session (userID s) (workspaceName s) (tree s) (cache s) (prefetching s) e c
    u (reqSeq s) (lastHeartbeat s).
Definition set_reqSeq (n : Z) (s : Session) : Session :=
  mk_Session (userID s) (workspaceName s) (tree s) (cache s) (prefetching s) (closeErr s) (closed s)
    (offlineUntil s) n (lastHeartbeat s).
Definition set_lastHeartbeat (n : Z) (s : Session) : Session :=
  mk_Session (userID s) (workspaceName s) (tree s) (cache s) (prefetching s) (closeErr s) (closed s)
    (offlineUntil s) (reqSeq s) n.

(** [NewSession]; without options the cache has no budget. *)
Definition NewSession (user : string) (cacheMaxBytes : Z) : Session :=
  mk_Session user "" FsTree.New (ContentCache.New cacheMaxBytes) ∅ None false None 0 0.

Definition UserID (s : Session) : string := userID s.
Definition WorkspaceName (s : Session) : string := workspaceName s.

Definition LastHeartbeat (s : Session) : time :=
  if decide (lastHeartbeat s = 0%Z) then None else Some (lastHeartbeat s).

(** ** Life cycle *)

Definition touchHeartbeat (now : Z) (s : Session) : Session := set_lastHeartbeat now s.

Definition closeErrValue (s : Session) : error := default ErrSessionClosed (closeErr s).

(** The first part of [closeWithError]; [SessionPending.closeWithError] has
    what becomes of the pending requests. *)
Definition closeWithError (err : option error) (s : Session) : Session :=
  if closed s then s
  else set_close (Some (default ErrSessionClosed err)) true (offlineUntil s) s.

Definition RetainOffline (until : time) (s : Session) : Session * bool :=
  match until with
  | None => (s, false)
  | Some _ =>
    if decide (closeErr s = Some ErrSessionReplaced) then (s, false)
    else (set_close (Some ErrSessionOffline) (closed s) until s, true)
  end.

(** A zero [now] stands for the present. *)
Definition IsOfflineReadonly (clock : Z) (now : time) (s : Session) : bool :=
  let now := default clock now in
  match offlineUntil s with None => false | Some u => bool_decide (now < u)%Z end.

Definition IsExpired (clock : Z) (now : time) (s : Session) : bool :=
  let now := default clock now in
  match offlineUntil s with None => false | Some u => negb (bool_decide (now < u)%Z) end.

(** ** Requests *)

(** [atomic.Uint64.Add(1)] and [fmt.Sprintf("%s-%d", ...)] *)
Definition nextRequestID (s : Session) : Session * string :=
  let seq := uint64 (reqSeq s + 1) in
  (set_reqSeq seq s, userID s +:+ "-" +:+ pretty (Z.to_N seq)).

Definition prepareRequest (req : option FileRequest) (s : Session) :
    Session * result error FileRequest :=
  match req with
  | None => (s, Err ErrNilRequest)
  | Some req =>
    let '(s, requestID) :=
      if decide (RequestId req = "") then nextRequestID s else (s, RequestId req) in
    (s, Ok (mk_FileRequest requestID (Op req)))
  end.

(** ** Prefetching *)

Definition TryStartPrefetch (relPath : string) (s : Session) : Session * bool :=
  if decide (relPath = "") then (s, false)
  else if decide (relPath ∈ prefetching s) then (s, false)
  else (set_prefetching ({[relPath]} ∪ prefetching s) s, true).

Definition FinishPrefetch (relPath : string) (s : Session) : Session :=
  if decide (relPath = "") then s
  else set_prefetching (prefetching s ∖ {[relPath]}) s.

(** ** Tree and cache *)

Definition signatureFromInfo (i : option FileInfo) : ContentCache.Signature :=
  match i with
  | None => ContentCache.mk_signature 0 0
  | Some i => ContentCache.mk_signature (FSize i) (FModTime i)
  end.

Definition isDirectory (i : option FileInfo) : bool :=
  match i with Some i => FIsDir i | None => false end.

Definition firstNonNil (errs : list (option error)) : option error :=
  match filter is_Some errs with e :: _ => e | [] => None end.

Section operations.
Context `{MapRange}.

Definition Lookup (path : string) (s : Session) : option FileInfo := FsTree.Lookup path (tree s).
Definition List (path : string) (s : Session) : option (list FileInfo) := FsTree.List path (tree s).

Definition InvalidateContent (relPath : string) (s : Session) : Session :=
  set_cache (ContentCache.Invalidate relPath (cache s)) s.
Definition InvalidateContentPrefix (relPath : string) (s : Session) : Session :=
  set_cache (ContentCache.InvalidatePrefix relPath (cache s)) s.
Definition clearContentCache (s : Session) : Session :=
  set_cache (ContentCache.Clear (cache s)) s.

Definition invalidatePath (relPath : string) (recursive : bool) (s : Session) : Session :=
  if recursive then InvalidateContentPrefix relPath s else InvalidateContent relPath s.

Definition invalidateForInfo (i : option FileInfo) (s : Session) : Session :=
  match i with
  | None => s
  | Some i => invalidatePath (FPath i) (FIsDir i) s
  end.

Definition GetCachedContent (relPath : string) (i : option FileInfo) (s : Session) :
    Session * option bytes :=
  match i with
  | None => (s, None)
  | Some _ =>
    let '(c, r) := ContentCache.Get relPath (signatureFromInfo i) (cache s) in (set_cache c s, r)
  end.

Definition PutCachedContent (relPath : string) (i : option FileInfo) (content : bytes) (s : Session) :
    Session * bool :=
  match i with
  | None => (s, false)
  | Some _ =>
    let '(c, r) := ContentCache.Put relPath (signatureFromInfo i) content (cache s) in
    (set_cache c s, r)
  end.

(** The tree is built aside and replaces the old one only when all of it has
    been inserted. *)
Definition replaceTree (fileTree : FileTree) (s : Session) : Session * option error :=
  match foldl (λ t i, t ← t; FsTree.Insert (Some i) t) (Ok FsTree.New) (Files fileTree) with
  | Ok next => (set_tree next s, None)
  | Err e => (s, Some (BuildFileTree e))
  end.

Definition ApplyWriteResult (i : option FileInfo) (s : Session) : Session :=
  match i with
  | None => s
  | Some _ =>
    match FsTree.Insert i (tree s) with
    | Err _ => s
    | Ok t => invalidateForInfo i (set_tree t s)
    end
  end.

Definition ApplyDelete (relPath : string) (s : Session) : Session :=
  let info := FsTree.Lookup relPath (tree s) in
  let s := set_tree (FsTree.Delete relPath (tree s)) s in
  invalidatePath relPath (isDirectory info) s.

Definition ApplyRename (oldRel : string) (newInfo : option FileInfo) (s : Session) : Session :=
  let oldInfo := FsTree.Lookup oldRel (tree s) in
  let s := set_tree (FsTree.Delete oldRel (tree s)) s in
  let finish s := invalidateForInfo newInfo (invalidatePath oldRel (isDirectory oldInfo) s) in
  match newInfo with
  | None => finish s
  | Some _ =>
    match FsTree.Insert newInfo (tree s) with
    | Err _ => s
    | Ok t => finish (set_tree t s)
    end
  end.

Definition applyChange (change : option FileChange) (s : Session) : Session * option error :=
  match change with
  | None => (s, Some (ApplyChange FsTree.ErrNilChange))
  | Some c =>
    match Ctype c with
    | CHANGE_TYPE_CREATE | CHANGE_TYPE_MODIFY =>
      match FsTree.Insert (Cfile c) (tree s) with
      | Err e => (s, Some (ApplyChange e))
      | Ok t => (invalidateForInfo (Cfile c) (set_tree t s), None)
      end
    | CHANGE_TYPE_DELETE =>
      let target := FPath (default zero_info (Cfile c)) in
      let oldInfo := FsTree.Lookup target (tree s) in
      let s := set_tree (FsTree.Delete target (tree s)) s in
      (invalidatePath target (isDirectory oldInfo) s, None)
    | CHANGE_TYPE_RENAME =>
      let oldPath := Cold_path c in
      let oldInfo := FsTree.Lookup oldPath (tree s) in
      let s := set_tree (FsTree.Delete oldPath (tree s)) s in
      match FsTree.Insert (Cfile c) (tree s) with
      | Err e => (s, Some (ApplyChange e))
      | Ok t =>
        let s := set_tree t s in
        let s := invalidatePath oldPath (isDirectory oldInfo) s in
        (invalidateForInfo (Cfile c) s, None)
      end
    | CHANGE_TYPE_UNSPECIFIED | CHANGE_TYPE_other _ =>
      (s, Some (ApplyChange FsTree.ErrUnknownChangeType))
    end
  end.

Definition Bootstrap (now : Z) (msg : option DaemonMessage) (s : Session) : Session * option error :=
  match msg with
  | None => (s, Some ErrNilDaemonMessage)
  | Some (MsgFileTree fileTree) =>
    match Safepath.CleanSegment (Proto.WorkspaceName fileTree) with
    | Err _ => (s, Some ErrInvalidWorkspaceName)
    | Ok workspaceName =>
      match replaceTree fileTree s with
      | (s, Some err) => (s, Some err)
      | (s, None) =>
        let s := set_workspaceName workspaceName s in
        let s := clearContentCache s in
        (touchHeartbeat now s, None)
      end
    end
  | Some _ => (s, Some ErrMissingInitialFileTree)
  end.

(** The state part of [handleDaemonMessage]: a response is given to
    [resolvePending], which does not touch this state. *)
Definition handleDaemonMessage (now : Z) (msg : option DaemonMessage) (s : Session) :
    Session * option error :=
  match msg with
  | None => (s, Some ErrNilDaemonMessage)
  | Some m =>
    let s := touchHeartbeat now s in
    match m with
    | MsgFileTree t => replaceTree t s
    | MsgChange c => applyChange (Some c) s
    | MsgResponse _ => (s, None)
    | MsgHeartbeat _ => (s, None)
    | MsgNone => (s, None)
    end
  end.
End operations.

(** ** Invariant *)

Record wf (s : Session) : Prop := {
  wf_tree : FsTree.wf (tree s);
  wf_cache : ContentCache.wf (cache s);
  wf_closed : closed s = true → is_Some (closeErr s);
}.

(** ** What the cache forgets *)

(** The cached paths that [invalidatePath] drops. *)
Definition dropped (key : string) (recursive : bool) (q : string) : Prop :=
  if recursive then under key q else q = key.

Lemma normalize_same p : ContentCache.normalize p = FsTree.normalize p.
Proof. by rewrite ContentCache.cache_normalize_normal_form, FsTree.normalize_normal_form. Qed.

Section lemmas.
Context `{MapRange}.
Implicit Types (s : Session) (e : ContentCache.entry).

Lemma invalidatePath_spec p r s :
  wf s →
  let s' := invalidatePath p r s in
  s' = set_cache (cache s') s ∧ wf s' ∧
  ∀ e, e ∈ ContentCache.abs (cache s') ↔
    e ∈ ContentCache.abs (cache s) ∧ ¬ dropped (FsTree.normalize p) r (ContentCache.path e).
Proof.
  intros [Ht Hc Hcl]. unfold invalidatePath, InvalidateContentPrefix, InvalidateContent.
  rewrite <-normalize_same. destruct r; simpl; (split; [done|]).
  - destruct (ContentCache.InvalidatePrefix_spec (cache s) p Hc) as (Hc' & _ & Habs).
    split; [by constructor|]. intros e. rewrite Habs. unfold ContentCache.Spec.invalidate_prefix.
    rewrite list_elem_of_filter, <-ContentCache.matchesPrefix_under, not_true_iff_false. tauto.
  - destruct (ContentCache.Invalidate_spec (cache s) p Hc) as (Hc' & _ & Habs).
    split; [by constructor|]. intros e. rewrite Habs. unfold ContentCache.Spec.remove.
    rewrite list_elem_of_filter. tauto.
Qed.

Lemma invalidateForInfo_spec i s :
  wf s →
  let s' := invalidateForInfo i s in
  s' = set_cache (cache s') s ∧ wf s' ∧
  ∀ e, e ∈ ContentCache.abs (cache s') ↔
    e ∈ ContentCache.abs (cache s) ∧
    ∀ j, i = Some j → ¬ dropped (FsTree.normalize (FPath j)) (FIsDir j) (ContentCache.path e).
Proof.
  intros Hs. destruct i as [j|]; simpl.
  - destruct (invalidatePath_spec (FPath j) (FIsDir j) s Hs) as (? & ? & He).
    split_and!; [done..|]. intros e. rewrite He. naive_solver.
  - split; [by destruct s|]. split; [done|]. naive_solver.
Qed.

Lemma wf_set_tree t s : FsTree.wf t → wf s → wf (set_tree t s).
Proof. intros Ht [_ Hc Hcl]. by constructor. Qed.
Lemma wf_set_cache c s : ContentCache.wf c → wf s → wf (set_cache c s).
Proof. intros Hc [Ht _ Hcl]. by constructor. Qed.

Lemma NewSession_wf u n : (n < 2 ^ 62)%Z → wf (NewSession u n).
Proof. intros Hn. constructor; [apply FsTree.New_wf|by apply ContentCache.cache_New_wf|done]. Qed.

(** A file that is in the tree after an insertion or a deletion, at another
    path than the inserted one, was there before. *)
Lemma insert_keeps_file t i t' q j :
  FsTree.wf t → FsTree.Insert (Some i) t = Ok t' →
  FsTree.abs t' q = Some j → FIsDir j = false →
  q ≠ FsTree.normalize (FPath i) → FsTree.abs t q = Some j.
Proof.
  intros Ht Hi. destruct (FsTree.Insert_spec i t t' Ht Hi) as [_ Habs]. rewrite Habs.
  destruct (decide (FsTree.normalize (FPath i) = "")); [done|].
  unfold FsTree.Spec.insert. intros Hq Hd Hne. rewrite decide_False in Hq by done.
  case_decide.
  { simplify_eq. exfalso. revert Hd. unfold FsTree.Spec.as_dir.
      destruct (FsTree.abs t q) as [k|]; [|done].
    destruct (FIsDir k) eqn:E; simpl; congruence. }
  by case_decide.
Qed.

Lemma delete_keeps_file t p q j :
  FsTree.wf t → FsTree.abs (FsTree.Delete p t) q = Some j → FsTree.abs t q = Some j.
Proof.
  intros Ht. destruct (FsTree.Delete_spec p t Ht) as [_ ->].
  repeat case_decide; [done|]. unfold FsTree.Spec.delete. by case_decide.
Qed.

Lemma insert_root t i t' :
  FsTree.wf t → FsTree.Insert (Some i) t = Ok t' → FsTree.normalize (FPath i) = "" → t' = t.
Proof. intros Ht. unfold FsTree.Insert. case_decide; naive_solver. Qed.

(** *** The changes of the tree that the session sees *)
End lemmas.

Inductive event : Type :=
  | EvChange (c : option FileChange)
  | EvWriteResult (i : option FileInfo)
  | EvDelete (relPath : string)
  | EvRename (oldRel : string) (i : option FileInfo).

Definition handle_event `{MapRange} (ev : event) (s : Session) : Session :=
  match ev with
  | EvChange c => fst (applyChange c s)
  | EvWriteResult i => ApplyWriteResult i s
  | EvDelete p => ApplyDelete p s
  | EvRename p i => ApplyRename p i s
  end.

(** Every cached entry of a file was already cached, under the same metadata. *)
Definition coherent_step (s s' : Session) : Prop :=
  ∀ e i, e ∈ ContentCache.abs (cache s') →
    FsTree.abs (tree s') (ContentCache.path e) = Some i → FIsDir i = false →
    e ∈ ContentCache.abs (cache s) ∧ FsTree.abs (tree s) (ContentCache.path e) = Some i.

#[local] Arguments FsTree.Insert : simpl never.
#[local] Arguments FsTree.Delete : simpl never.
#[local] Arguments FsTree.Lookup : simpl never.

Section coherence.
Context `{MapRange}.

Lemma coherent_refl s : coherent_step s s.
Proof. by intros e i. Qed.

Lemma coherent_trans s1 s2 s3 : coherent_step s1 s2 → coherent_step s2 s3 → coherent_step s1 s3.
Proof. intros H1 H2 e i He Hi Hd. destruct (H2 e i He Hi Hd). by apply (H1 e i). Qed.

Lemma coherent_insert s i t :
  wf s → FsTree.Insert i (tree s) = Ok t →
  let s' := invalidateForInfo i (set_tree t s) in
  wf s' ∧ workspaceName s' = workspaceName s ∧ tree s' = t ∧ coherent_step s s'.
Proof.
  intros Hs Hi. destruct i as [i|]; [|done].
  destruct (FsTree.Insert_spec i _ _ (wf_tree _ Hs) Hi) as [Ht _].
  destruct (invalidateForInfo_spec (Some i) (set_tree t s)) as (Heq & Hwf & He);
    [by apply wf_set_tree|].
  split; [done|]. rewrite Heq. split_and!; [done..|]. rewrite <-Heq.
  intros e j [Hin Hnd]%He Hj Hd. rewrite Heq in Hj. simpl in Hj, Hin. split; [done|].
  specialize (Hnd i eq_refl). eapply insert_keeps_file; [apply Hs|done..|].
  intros Hq. apply Hnd. unfold dropped. rewrite Hq. by destruct (FIsDir i).
Qed.

Lemma coherent_delete s p r :
  wf s →
  let s1 := set_tree (FsTree.Delete p (tree s)) s in
  let s' := invalidatePath p r s1 in
  wf s1 ∧ coherent_step s s1 ∧
  wf s' ∧ workspaceName s' = workspaceName s ∧ tree s' = FsTree.Delete p (tree s) ∧ coherent_step s s'.
Proof.
  intros Hs s1 s'. destruct (FsTree.Delete_spec p _ (wf_tree _ Hs)) as [Ht _].
  assert (Hs1 : wf s1) by by apply wf_set_tree.
  destruct (invalidatePath_spec p r s1 Hs1) as (Heq & Hwf & He). fold s' in Heq, Hwf, He.
  assert (Hc1 : coherent_step s s1).
  { intros e j Hin Hj Hd. split; [done|]. eapply delete_keeps_file; [apply Hs|exact Hj]. }
  split_and!; [done..|by rewrite Heq|by rewrite Heq|].
  intros e j [Hin _]%He Hj Hd. rewrite Heq in Hj. by apply Hc1.
Qed.

Lemma coherent_invalidate s p r :
  wf s → let s' := invalidatePath p r s in
  wf s' ∧ workspaceName s' = workspaceName s ∧ tree s' = tree s ∧ coherent_step s s'.
Proof.
  intros Hs. destruct (invalidatePath_spec p r s Hs) as (Heq & Hwf & He). cbv zeta.
  split; [done|]. rewrite Heq. split_and!; [done..|]. rewrite <-Heq.
  intros e j [Hin _]%He Hj Hd. by rewrite Heq in Hj.
Qed.

Lemma handle_event_spec ev s :
  wf s →
  wf (handle_event ev s) ∧ workspaceName (handle_event ev s) = workspaceName s ∧
  coherent_step s (handle_event ev s).
Proof.
  intros Hs. pose proof (coherent_refl s).
  assert (Hren : ∀ old i r, wf (set_tree (FsTree.Delete old (tree s)) s) ∧
    ∀ t, FsTree.Insert (Some i) (FsTree.Delete old (tree s)) = Ok t →
    let s' := invalidateForInfo (Some i) (invalidatePath old r
      (set_tree t (set_tree (FsTree.Delete old (tree s)) s))) in
    wf s' ∧ workspaceName s' = workspaceName s ∧ coherent_step s s').
  { intros old i r. destruct (coherent_delete s old r Hs) as (Hs1 & Hc1 & _).
    split; [done|]. intros t Ht.
    set (s1 := set_tree (FsTree.Delete old (tree s)) s) in *.
    destruct (FsTree.Insert_spec i _ _ (wf_tree _ Hs1) Ht) as [Hwt _].
    destruct (invalidatePath_spec old r (set_tree t s1)) as (Heq1 & Hwf1 & He1);
      [by apply wf_set_tree|].
    set (s2 := invalidatePath old r _) in *.
    destruct (invalidateForInfo_spec (Some i) s2 Hwf1) as (Heq2 & Hwf2 & He2).
    set (s3 := invalidateForInfo _ _) in *. cbv zeta. split; [done|].
    split; [by rewrite Heq2, Heq1|].
    intros e j Hin Hj Hd. apply (He2 e) in Hin as [Hin Hnd]. apply (He1 e) in Hin as [Hin _].
    rewrite Heq2, Heq1 in Hj. simpl in Hj, Hin. apply Hc1; [done| |done].
    specialize (Hnd i eq_refl). eapply insert_keeps_file; [apply Hs1|done..|].
    intros Hq. apply Hnd. unfold dropped. rewrite Hq. by destruct (FIsDir i). }
  destruct ev as [c|i|p|p i]; simpl.
  - destruct c as [[ty f old]|]; [|done]. simpl. destruct ty; simpl; try done.
    + destruct (FsTree.Insert f (tree s)) as [t|] eqn:Hi; [|done]. simpl.
      destruct (coherent_insert s f t Hs Hi) as (? & ? & _ & ?). done.
    + destruct (FsTree.Insert f (tree s)) as [t|] eqn:Hi; [|done]. simpl.
      destruct (coherent_insert s f t Hs Hi) as (? & ? & _ & ?). done.
    + by destruct (coherent_delete s (FPath (default zero_info f))
        (isDirectory (FsTree.Lookup (FPath (default zero_info f)) (tree s))) Hs)
        as (_ & _ & ? & ? & _ & ?).
    + destruct f as [i|]; simpl.
      * destruct (Hren old i (isDirectory (FsTree.Lookup old (tree s)))) as [Hs1 Hok].
        destruct (FsTree.Insert (Some i) _) as [t|] eqn:Hi; simpl; [exact (Hok t eq_refl)|].
        destruct (coherent_delete s old true Hs) as (? & ? & _). done.
      * destruct (coherent_delete s old true Hs) as (? & ? & _). done.
  - destruct i as [i|]; [|done]. simpl.
    destruct (FsTree.Insert (Some i) (tree s)) as [t|] eqn:Hi; [|done].
    by destruct (coherent_insert s (Some i) t Hs Hi) as (? & ? & _ & ?).
  - by destruct (coherent_delete s p (isDirectory (FsTree.Lookup p (tree s))) Hs)
        as (_ & _ & ? & ? & _ & ?).
  - destruct i as [i|]; simpl.
    + unfold ApplyRename. destruct (Hren p i (isDirectory (FsTree.Lookup p (tree s)))) as [Hs1 Hok].
      simpl. destruct (FsTree.Insert (Some i) _) as [t|] eqn:Hi; simpl; [exact (Hok t eq_refl)|].
      destruct (coherent_delete s p true Hs) as (? & ? & _). done.
    + unfold ApplyRename. simpl.
      by destruct (coherent_delete s p (isDirectory (FsTree.Lookup p (tree s))) Hs)
        as (_ & _ & ? & ? & _ & ?).
Qed.
End coherence.

(** The paths an event is about, and whether as a directory. *)
Definition touched `{MapRange} (ev : event) (s : Session) : list (string * bool) :=
  let old p := (p, isDirectory (FsTree.Lookup p (tree s))) in
  let new (i : option FileInfo) := match i with Some i => [(FPath i, FIsDir i)] | None => [] end in
  match ev with
  | EvChange None => []
  | EvChange (Some c) =>
    match Ctype c with
    | CHANGE_TYPE_CREATE | CHANGE_TYPE_MODIFY => new (Cfile c)
    | CHANGE_TYPE_DELETE => [old (FPath (default zero_info (Cfile c)))]
    | CHANGE_TYPE_RENAME =>
      match Cfile c with Some _ => old (Cold_path c) :: new (Cfile c) | None => [] end
    | CHANGE_TYPE_UNSPECIFIED | CHANGE_TYPE_other _ => []
    end
  | EvWriteResult i => new i
  | EvDelete p => [old p]
  | EvRename p i => old p :: new i
  end.

Section touched.
Context `{MapRange}.

Definition forgotten (l : list (string * bool)) (s : Session) : Prop :=
  ∀ e p r, e ∈ ContentCache.abs (cache s) → (p, r) ∈ l →
    ¬ dropped (FsTree.normalize p) r (ContentCache.path e).

Lemma forgotten_info i s :
  wf s → forgotten (match i with Some i => [(FPath i, FIsDir i)] | None => [] end) (invalidateForInfo i s).
Proof.
  intros Hs e p r He Hin. destruct (invalidateForInfo_spec i s Hs) as (_ & _ & Hspec).
  apply Hspec in He as [_ He]. destruct i as [i|]; [|by apply not_elem_of_nil in Hin].
  apply list_elem_of_singleton in Hin. simplify_eq. by apply He.
Qed.

Lemma forgotten_path p r s : wf s → forgotten [(p, r)] (invalidatePath p r s).
Proof.
  intros Hs e p' r' He Hin. destruct (invalidatePath_spec p r s Hs) as (_ & _ & Hspec).
  apply Hspec in He as [_ He]. apply list_elem_of_singleton in Hin. by simplify_eq.
Qed.

Lemma forgotten_both p r i s :
  wf s →
  forgotten ((p, r) :: match i with Some i => [(FPath i, FIsDir i)] | None => [] end)
    (invalidateForInfo i (invalidatePath p r s)).
Proof.
  intros Hs e p' r' He Hin. destruct (invalidatePath_spec p r s Hs) as (_ & Hwf & Hspec).
  apply elem_of_cons in Hin as [Heq|Hin]; [|by eapply forgotten_info].
  destruct (invalidateForInfo_spec i _ Hwf) as (_ & _ & Hspec2).
  apply Hspec2 in He as [He _]. simplify_eq. eapply (forgotten_path p r s); [done..|].
  by apply list_elem_of_singleton.
Qed.

Lemma Insert_Ok i t : ∃ t', FsTree.Insert (Some i) t = Ok t'.
Proof. unfold FsTree.Insert. case_decide; by eexists. Qed.

Lemma wf_inserted s i t : wf s → FsTree.Insert (Some i) (tree s) = Ok t → wf (set_tree t s).
Proof.
  intros Hs Hi. apply wf_set_tree; [|done]. by eapply FsTree.Insert_spec; [apply Hs|].
Qed.

Lemma wf_deleted s p : wf s → wf (set_tree (FsTree.Delete p (tree s)) s).
Proof. intros Hs. apply wf_set_tree; [|done]. apply FsTree.Delete_spec, Hs. Qed.

Lemma touched_forgotten ev s : wf s → forgotten (touched ev s) (handle_event ev s).
Proof.
  intros Hs. assert (Hnil : ∀ s, forgotten [] s).
  { intros s' e p r _ Hin. by apply not_elem_of_nil in Hin. }
  assert (Hins : ∀ i, forgotten (match i with Some i => [(FPath i, FIsDir i)] | None => [] end)
    match FsTree.Insert i (tree s) with
    | Ok t => invalidateForInfo i (set_tree t s) | Err _ => s end).
  { intros [i|]; [|done]. destruct (Insert_Ok i (tree s)) as [t Ht]. rewrite Ht.
    apply (forgotten_info (Some i)). by eapply wf_inserted. }
  destruct ev as [[[ty f old]|]|i|p|p i]; try (simpl; apply Hnil).
  - destruct ty; simpl; try apply Hnil.
    + specialize (Hins f). by destruct (FsTree.Insert f (tree s)).
    + specialize (Hins f). by destruct (FsTree.Insert f (tree s)).
    + apply forgotten_path. by apply wf_deleted.
    + destruct f as [i|]; [|apply Hnil].
      destruct (Insert_Ok i (FsTree.Delete old (tree s))) as [t Ht]. rewrite Ht.
      apply (forgotten_both _ _ (Some i)). eapply wf_inserted; [by apply wf_deleted|done].
  - specialize (Hins i). simpl. destruct i as [f|]; simpl; [|apply Hnil].
    destruct (FsTree.Insert (Some f) (tree s)); exact Hins.
  - apply forgotten_path. by apply wf_deleted.
  - simpl. unfold ApplyRename. destruct i as [i|]; simpl.
    + destruct (Insert_Ok i (FsTree.Delete p (tree s))) as [t Ht]. rewrite Ht.
      apply (forgotten_both _ _ (Some i)). eapply wf_inserted; [by apply wf_deleted|done].
    + apply forgotten_path. by apply wf_deleted.
Qed.
End touched.

(** ** Histories of a session *)

Inductive input : Type :=
  | InBootstrap (now : Z) (msg : option DaemonMessage)
  | InMessage (now : Z) (msg : option DaemonMessage)
  | InEvent (ev : event)
  | InGet (relPath : string) (i : option FileInfo)
  | InPut (relPath : string) (i : option FileInfo) (content : bytes)
  | InTryStartPrefetch (relPath : string)
  | InFinishPrefetch (relPath : string)
  | InPrepareRequest (req : option FileRequest)
  | InClose (err : option error)
  | InRetainOffline (until : time).

Definition step `{MapRange} (s : Session) (i : input) : Session :=
  match i with
  | InBootstrap now m => fst (Bootstrap now m s)
  | InMessage now m => fst (handleDaemonMessage now m s)
  | InEvent ev => handle_event ev s
  | InGet p i => fst (GetCachedContent p i s)
  | InPut p i b => fst (PutCachedContent p i b s)
  | InTryStartPrefetch p => fst (TryStartPrefetch p s)
  | InFinishPrefetch p => FinishPrefetch p s
  | InPrepareRequest r => fst (prepareRequest r s)
  | InClose e => closeWithError e s
  | InRetainOffline u => fst (RetainOffline u s)
  end.

Definition run `{MapRange} (ins : list input) (s : Session) : Session := foldl step s ins.

Section runs.
Context `{MapRange}.

Lemma replaceTree_fold l t :
  FsTree.wf t →
  ∃ t', foldl (λ t i, t ← t; FsTree.Insert (Some i) t) (Ok t) l = Ok t' ∧
    t' = foldl FsTree.apply_op t ((FsTree.OpInsert ∘ Some) <$> l).
Proof.
  revert t. induction l as [|i l IH]; intros t Ht; [by eexists|]. simpl.
  destruct (Insert_Ok i t) as [t1 Ht1]. rewrite Ht1. apply IH.
  by eapply FsTree.Insert_spec.
Qed.

(** The files of a message always make a tree: the one their insertion in
    order makes. *)
Lemma replaceTree_spec ft s :
  replaceTree ft s = (set_tree (FsTree.run ((FsTree.OpInsert ∘ Some) <$> Files ft)) s, None).
Proof.
  unfold replaceTree, FsTree.run.
  destruct (replaceTree_fold (Files ft) FsTree.New FsTree.New_wf) as (t & -> & ->). done.
Qed.

Lemma replaceTree_wf ft s : wf s → wf (fst (replaceTree ft s)).
Proof.
  intros Hs. rewrite replaceTree_spec. apply wf_set_tree; [|done]. apply FsTree.represents_run.
Qed.

Lemma step_wf i s : wf s → wf (step s i).
Proof.
  intros Hs. pose proof Hs as [Ht Hc Hcl].
  assert (Hmsg : ∀ now s, wf s → wf (touchHeartbeat now s)) by (intros now s' [???]; by constructor).
  destruct i as [now m|now m|ev|p i|p i b|p|p|r|e|u]; simpl.
  - destruct m as [[ft| | | |]|]; simpl; try done.
    destruct (Safepath.CleanSegment _) as [n|]; [|done].
    pose proof (replaceTree_wf ft s Hs) as Hr. rewrite replaceTree_spec in *. simpl.
    apply Hmsg. destruct Hr as [Ht' Hc' Hcl']. constructor; [done| |done].
    by apply ContentCache.Clear_spec.
  - destruct m as [[ft|c| | |]|]; simpl; auto.
    + apply replaceTree_wf. auto.
    + exact (proj1 (handle_event_spec (EvChange (Some c)) (touchHeartbeat now s) (Hmsg now s Hs))).
  - by apply handle_event_spec.
  - unfold GetCachedContent. destruct i; [|done].
    pose proof (ContentCache.Get_spec (cache s) p (signatureFromInfo (Some f)) Hc) as Hg.
    destruct (ContentCache.Get _ _ _) as [c r]. destruct Hg as [Hg _]. simpl.
    by apply wf_set_cache.
  - unfold PutCachedContent. destruct i; [|done].
    pose proof (ContentCache.Put_spec (cache s) p (signatureFromInfo (Some f)) b Hc) as Hg.
    destruct (ContentCache.Put _ _ _ _) as [c r]. destruct Hg as [Hg _]. simpl.
    by apply wf_set_cache.
  - unfold TryStartPrefetch. repeat case_decide; by constructor.
  - unfold FinishPrefetch. repeat case_decide; by constructor.
  - unfold prepareRequest, nextRequestID. destruct r as [r|]; [|done].
    case_decide; by constructor.
  - unfold closeWithError. destruct (closed s) eqn:E; [done|]. by constructor.
  - unfold RetainOffline. destruct u; [|done]. case_decide; [done|]. by constructor.
Qed.

Lemma run_wf ins s : wf s → wf (run ins s).
Proof. revert s. induction ins as [|i ins IH]; intros s Hs; [done|]. apply IH. by apply step_wf. Qed.

(** What the events leave alone. *)
Definition fixed (s : Session) : string * string * gset string :=
  (userID s, workspaceName s, prefetching s).

Lemma invalidatePath_fixed p r s : fixed (invalidatePath p r s) = fixed s.
Proof. by destruct r. Qed.

Lemma invalidateForInfo_fixed i s : fixed (invalidateForInfo i s) = fixed s.
Proof. destruct i; [apply invalidatePath_fixed|done]. Qed.

Lemma event_fixed ev s : fixed (handle_event ev s) = fixed s.
Proof.
  assert (Hi : ∀ i t s, fixed (invalidateForInfo i (set_tree t s)) = fixed s).
  { intros. by rewrite invalidateForInfo_fixed. }
  assert (Hp : ∀ p r t s, fixed (invalidatePath p r (set_tree t s)) = fixed s).
  { intros. by rewrite invalidatePath_fixed. }
  assert (Hb : ∀ i p r t t' s, fixed (invalidateForInfo i (invalidatePath p r
    (set_tree t (set_tree t' s)))) = fixed s).
  { intros. by rewrite invalidateForInfo_fixed, Hp. }
  assert (Hins : ∀ i t, fixed match FsTree.Insert i t with
      | Ok t => invalidateForInfo i (set_tree t s) | Err _ => s end = fixed s).
  { intros i t. destruct (FsTree.Insert i t); [apply Hi|done]. }
  assert (Hren : ∀ i p r t t', fixed match FsTree.Insert i t with
      | Ok t => invalidateForInfo i (invalidatePath p r (set_tree t (set_tree t' s)))
      | Err _ => set_tree t' s end = fixed s).
  { intros i p r t t'. destruct (FsTree.Insert i t); [apply Hb|done]. }
  destruct ev as [[[ty f old]|]|i|p|p i].
  - specialize (Hins f (tree s)). specialize (Hren f old
      (isDirectory (FsTree.Lookup old (tree s))) (FsTree.Delete old (tree s))
      (FsTree.Delete old (tree s))).
    destruct ty; [done| | |apply Hp| |done]; simpl.
    + destruct (FsTree.Insert f (tree s)); exact Hins.
    + destruct (FsTree.Insert f (tree s)); exact Hins.
    + destruct (FsTree.Insert f (FsTree.Delete old (tree s))); exact Hren.
  - done.
  - destruct i; [|done]. apply Hins.
  - apply Hp.
  - destruct i; [apply Hren|apply Hp].
Qed.

Lemma event_identity ev s :
  userID (handle_event ev s) = userID s ∧ workspaceName (handle_event ev s) = workspaceName s.
Proof. pose proof (event_fixed ev s) as Hf. unfold fixed in Hf. by simplify_eq. Qed.

Lemma event_prefetching ev s : prefetching (handle_event ev s) = prefetching s.
Proof. pose proof (event_fixed ev s) as Hf. unfold fixed in Hf. by simplify_eq. Qed.

(** ** Properties *)

(** C4. Cache coherence.  In every state a session can reach, whatever
    change the daemon reports and whatever result of a write, a delete or a
    rename is applied: the cached contents of every path the event is about
    (and of the paths below it, when it is a directory) are dropped, even if
    the metadata did not change; and a cached content of a path that still
    is a file was cached before, under metadata the event left alone. *)
Theorem session_change_coherent (u : string) (n : Z) (ins : list input) (ev : event) :
  (n < 2 ^ 62)%Z →
  let s := run ins (NewSession u n) in
  let s' := handle_event ev s in
  forgotten (touched ev s) s' ∧ coherent_step s s'.
Proof.
  intros Hn s s'. assert (Hs : wf s) by by apply run_wf, NewSession_wf.
  split; [by apply touched_forgotten|by apply handle_event_spec].
Qed.

(** Bootstrap.  It succeeds exactly on a file tree whose workspace name
    passes [CleanSegment].  Then the session has that (cleaned) name, an
    empty content cache, a heartbeat, and the tree that the insertion of the
    listed files in order makes; otherwise the session is left as it was. *)
Theorem session_bootstrap (s : Session) (now : Z) (msg : option DaemonMessage) :
  wf s →
  let '(s', err) := Bootstrap now msg s in
  (err = None ↔ ∃ ft name, msg = Some (MsgFileTree ft) ∧
                  Safepath.CleanSegment (Proto.WorkspaceName ft) = Ok name) ∧
  match err with
  | Some _ => s' = s
  | None =>
    (∀ ft, msg = Some (MsgFileTree ft) →
       Safepath.CleanSegment (Proto.WorkspaceName ft) = Ok (workspaceName s') ∧
       ∀ p, Lookup p s' =
            FsTree.spec_files ((FsTree.OpInsert ∘ Some) <$> Files ft) (FsTree.normalize p)) ∧
    ContentCache.abs (cache s') = [] ∧ userID s' = userID s ∧ lastHeartbeat s' = now
  end.
Proof.
  intros Hs. destruct msg as [[ft| | | |]|]; simpl; try (split; [naive_solver|done]).
  destruct (Safepath.CleanSegment (Proto.WorkspaceName ft)) as [name|e] eqn:Hname; cycle 1.
  { split; [|done]. split; [done|]. intros (ft' & name & [= <-] & ?). congruence. }
  rewrite replaceTree_spec. split; [split; [naive_solver|done]|]. split; [|done].
  intros ft' [= <-]. split; [done|]. intros p. unfold Lookup. simpl.
  rewrite FsTree.Lookup_abs. apply FsTree.represents_run.
Qed.

(** The identity of a session is fixed.  Once bootstrapped, no message of
    the daemon (a second file tree with another name included), no change and
    no other operation changes the user id or the workspace name. *)
Theorem session_identity_fixed (s : Session) (ins : list input) :
  wf s → (∀ now m, InBootstrap now m ∉ ins) →
  userID (run ins s) = userID s ∧ workspaceName (run ins s) = workspaceName s.
Proof.
  revert s. induction ins as [|i ins IH]; intros s Hs Hi; [done|].
  assert (Hstep : userID (step s i) = userID s ∧ workspaceName (step s i) = workspaceName s).
  { destruct i as [now m|now m|ev|p i|p i b|p|p|r|e|t]; simpl.
    - destruct (Hi now m). set_solver.
    - destruct m as [[ft|c| | |]|]; simpl; try done; [by rewrite replaceTree_spec|].
      apply (event_identity (EvChange (Some c)) (touchHeartbeat now s)).
    - apply event_identity.
    - unfold GetCachedContent. destruct i; [|done]. by destruct (ContentCache.Get _ _ _).
    - unfold PutCachedContent. destruct i; [|done]. by destruct (ContentCache.Put _ _ _ _).
    - unfold TryStartPrefetch. by repeat case_decide.
    - unfold FinishPrefetch. by repeat case_decide.
    - unfold prepareRequest, nextRequestID. destruct r; [|done]. by case_decide.
    - unfold closeWithError. by destruct (closed s).
    - unfold RetainOffline. destruct t; [|done]. by case_decide. }
  destruct Hstep as [<- <-]. apply IH; [by apply step_wf|set_solver].
Qed.
End runs.

(** ** Offline retention and request ids *)

(** Offline retention.  A session replaced by a newer connection cannot be
    retained, and neither can any for a zero time.  Otherwise it is retained,
    its error is then the offline one, and at every time it is either a
    read-only snapshot or expired, according to whether the time is before the
    limit; a session that was never retained is neither. *)
Theorem session_offline_window (s : Session) (until : time) (clock : Z) (now : time) :
  let '(s', ok) := RetainOffline until s in
  (ok = true ↔ is_Some until ∧ closeErr s ≠ Some ErrSessionReplaced) ∧
  (ok = false → s' = s) ∧
  (ok = true → closeErrValue s' = ErrSessionOffline ∧ closed s' = closed s ∧
     (IsOfflineReadonly clock now s' = true ↔ ∃ u, until = Some u ∧ (default clock now < u)%Z)) ∧
  IsOfflineReadonly clock now s' && IsExpired clock now s' = false ∧
  (IsOfflineReadonly clock now s' || IsExpired clock now s' = true ↔ is_Some (offlineUntil s')).
Proof.
  assert (Hx : ∀ s, IsOfflineReadonly clock now s && IsExpired clock now s = false ∧
    (IsOfflineReadonly clock now s || IsExpired clock now s = true ↔ is_Some (offlineUntil s))).
  { intros s0. unfold IsOfflineReadonly, IsExpired. destruct (offlineUntil s0) as [u|].
    - destruct (bool_decide _); by split_and!.
    - split; [done|]. split; [done|by intros []]. }
  unfold RetainOffline. destruct until as [u|].
  - case_decide as Hr.
    + split_and!; [|done|done|apply Hx..]. split; [done|]. by intros [_ ?].
    + split_and!; [|done| |apply Hx..].
      { split; [|done]. intros _. split; [by eexists|done]. }
      intros _. split_and!; [done..|]. unfold IsOfflineReadonly. simpl.
      rewrite bool_decide_eq_true. split; [by eexists|by intros (u' & [= <-] & ?)].
  - split_and!; [|done|done|apply Hx..]. split; [done|by intros [[] _]].
Qed.

(** The ids of [n] requests in a row that come without an id. *)
Fixpoint take_ids (n : nat) (s : Session) : list string :=
  match n with
  | 0 => []
  | S n => let '(s', id) := nextRequestID s in id :: take_ids n s'
  end.

Lemma take_ids_seq n s id :
  (0 ≤ reqSeq s)%Z → (reqSeq s + Z.of_nat n < 2 ^ 64)%Z → id ∈ take_ids n s →
  ∃ k, (reqSeq s < k)%Z ∧ id = userID s +:+ "-" +:+ pretty (Z.to_N k).
Proof.
  revert s. induction n as [|n IH]; intros s Hs Hn; [by intros ?%not_elem_of_nil|].
  simpl. assert (Hu : uint64 (reqSeq s + 1) = (reqSeq s + 1)%Z) by (apply uint64_id; lia).
  rewrite Hu. intros [->|Hin]%elem_of_cons.
  - exists (reqSeq s + 1)%Z. split; [lia|done].
  - apply IH in Hin as (k & Hk & ->); simpl in *; [|lia..]. exists k. split; [lia|done].
Qed.

(** Request ids.  The ids that a session gives to the requests that come
    without one are all different, until the 64-bit counter wraps around. *)
Theorem request_ids_unique (s : Session) (n : nat) :
  (0 ≤ reqSeq s)%Z → (reqSeq s + Z.of_nat n < 2 ^ 64)%Z → NoDup (take_ids n s).
Proof.
  revert s. induction n as [|n IH]; intros s Hs Hn; [constructor|]. simpl.
  assert (Hu : uint64 (reqSeq s + 1) = (reqSeq s + 1)%Z) by (apply uint64_id; lia).
  rewrite Hu. constructor; [|apply IH; simpl; lia].
  intros (k & Hk & Heq)%take_ids_seq; simpl in *; [|lia..].
  apply str_app_inj_l in Heq. apply str_app_inj_l in Heq.
  apply pretty_N_inj in Heq. lia.
Qed.

(** Prefetch exclusion.  Between a successful [TryStartPrefetch] of a path
    and the [FinishPrefetch] of that path, every other attempt to start it
    fails, whatever else the session does meanwhile; after the finish, it can
    be started again. *)
Theorem prefetch_exclusive `{MapRange} (s : Session) (ins : list input) (p : string) :
  p ≠ "" → InFinishPrefetch p ∉ ins →
  let '(s1, ok) := TryStartPrefetch p s in
  (ok = true ↔ p ∉ prefetching s) ∧
  snd (TryStartPrefetch p (run ins s1)) = false ∧
  snd (TryStartPrefetch p (FinishPrefetch p (run ins s1))) = true.
Proof.
  intros Hp Hi.
  assert (Hin : ∀ ins s, InFinishPrefetch p ∉ ins → p ∈ prefetching s → p ∈ prefetching (run ins s)).
  { clear ins Hi s. induction ins as [|i ins IH]; intros s Hi Hs; [done|].
    apply IH; [set_solver|]. rewrite not_elem_of_cons in Hi. destruct Hi as [Hi _].
    destruct i as [now m|now m|ev|q i|q i b|q|q|r|e|t]; simpl.
    - destruct m as [[ft| | | |]|]; simpl; try done.
      destruct (Safepath.CleanSegment _) as [n|]; [|done]. by rewrite replaceTree_spec.
    - destruct m as [[ft|c| | |]|]; simpl; try done; [by rewrite replaceTree_spec|].
      change (p ∈ prefetching (handle_event (EvChange (Some c)) (touchHeartbeat now s))).
      by rewrite event_prefetching.
    - by rewrite event_prefetching.
    - unfold GetCachedContent. destruct i; [|done]. by destruct (ContentCache.Get _ _ _).
    - unfold PutCachedContent. destruct i; [|done]. by destruct (ContentCache.Put _ _ _ _).
    - unfold TryStartPrefetch. repeat case_decide; try done. simpl. set_solver.
    - unfold FinishPrefetch. case_decide; [done|]. simpl. set_solver.
    - unfold prepareRequest, nextRequestID. destruct r; [|done]. by case_decide.
    - unfold closeWithError. by destruct (closed s).
    - unfold RetainOffline. destruct t; [|done]. by case_decide. }
  unfold TryStartPrefetch at 1. rewrite (decide_False (P := p = "")) by done.
  assert (Hfin : ∀ s', snd (TryStartPrefetch p (FinishPrefetch p s')) = true).
  { intros s'. unfold TryStartPrefetch, FinishPrefetch. rewrite !(decide_False (P := p = "")) by done.
    simpl. rewrite decide_False; [done|]. set_solver. }
  assert (Hbusy : ∀ s', p ∈ prefetching s' → snd (TryStartPrefetch p s') = false).
  { intros s' Hs'. unfold TryStartPrefetch. rewrite (decide_False (P := p = "")) by done.
    by rewrite decide_True. }
  destruct (decide (p ∈ prefetching s)) as [Hs|Hs].
  - split_and!; [by split|apply Hbusy; auto|apply Hfin].
  - split_and!; [by split|apply Hbusy, Hin; [done|]; simpl; set_solver|apply Hfin].
Qed.

(** ** Concrete runs *)

Definition witness_file (p : string) (n : Z) : FileInfo := mk_FileInfo p n 7 false 420.
Definition witness_boot : option DaemonMessage :=
  Some (MsgFileTree (mk_FileTree [witness_file "a/b" 3; witness_file "c" 1] " demo ")).
Definition witness_inputs : list input :=
  [InBootstrap 5 witness_boot;
   InPut "a/b" (Some (witness_file "a/b" 3)) [x01; x02; x03]].

Lemma session_change_coherent_witness :
  let s := @run elements_range witness_inputs (NewSession "u" 100) in
  let s' := @handle_event elements_range
    (EvChange (Some (mk_FileChange CHANGE_TYPE_MODIFY (Some (witness_file "a/b" 3)) ""))) s in
  ContentCache.path <$> ContentCache.abs (cache s) = ["a/b"] ∧
  ContentCache.abs (cache s') = [] ∧ coherent_step s s'.
Proof.
  split; [vm_compute; reflexivity|]. split; [vm_compute; reflexivity|].
  apply (@session_change_coherent elements_range "u" 100 witness_inputs
    (EvChange (Some (mk_FileChange CHANGE_TYPE_MODIFY (Some (witness_file "a/b" 3)) "")))).
  lia.
Defined.

Lemma session_bootstrap_witness :
  let '(s', err) := @Bootstrap elements_range 5 witness_boot (NewSession "u" 100) in
  err = None ∧ workspaceName s' = "demo" ∧ userID s' = "u".
Proof.
  pose proof (@session_bootstrap elements_range (NewSession "u" 100) 5 witness_boot
    (NewSession_wf "u" 100 ltac:(lia))) as Hb.
  destruct (Bootstrap _ _ _) as [s' err] eqn:E. destruct Hb as [Hok Hres].
  assert (err = None) as ->.
  { apply Hok. eexists _, "demo". split; [reflexivity|]. vm_compute. reflexivity. }
  destruct Hres as (Hname & _ & Hu & _). destruct (Hname _ eq_refl) as [Hn _].
  assert (Hc : Safepath.CleanSegment " demo " = Ok "demo") by (vm_compute; reflexivity).
  simpl in Hn. rewrite Hc in Hn. injection Hn as <-. rewrite Hu. repeat split.
Defined.

Lemma session_identity_fixed_witness :
  let s := fst (@Bootstrap elements_range 5 witness_boot (NewSession "u" 100)) in
  let ins := [InMessage 6 (Some (MsgFileTree (mk_FileTree [] "other"))); InClose None] in
  userID (@run elements_range ins s) = "u" ∧ workspaceName (@run elements_range ins s) = "demo".
Proof.
  apply (@session_identity_fixed elements_range (fst (@Bootstrap elements_range 5 witness_boot (NewSession "u" 100)))
    [InMessage 6 (Some (MsgFileTree (mk_FileTree [] "other"))); InClose None]).
  - apply (@run_wf elements_range [InBootstrap 5 witness_boot] (NewSession "u" 100)), NewSession_wf. lia.
  - set_solver.
Defined.

Lemma request_ids_unique_witness :
  take_ids 3 (NewSession "u" 100) = ["u-1"; "u-2"; "u-3"] ∧ NoDup (take_ids 3 (NewSession "u" 100)).
Proof. split; [vm_compute; reflexivity|]. apply (request_ids_unique (NewSession "u" 100) 3); simpl; lia. Defined.

Lemma prefetch_exclusive_witness :
  let s1 := fst (TryStartPrefetch "a/b" (NewSession "u" 100)) in
  snd (TryStartPrefetch "a/b" (@run elements_range [InTryStartPrefetch "c"; InFinishPrefetch "c"] s1)) = false.
Proof.
  apply (@prefetch_exclusive elements_range (NewSession "u" 100)
    [InTryStartPrefetch "c"; InFinishPrefetch "c"] "a/b"); [done|set_solver].
Defined.
