(* ===== verification/SessionPending.v ===== *)
(** * Requests in flight (pkg/session/session.go)

    [Session.Request] runs in the goroutine of its caller, [resolvePending] in
    the receive loop, [closeWithError] in the goroutine of [Serve] or of the
    connection that replaces the session.  They share the map of pending
    requests, each with a channel of capacity one, and the [closed] channel.

    The state has the shared data and the goroutines, each at the point it has
    reached; a step executes one critical section, one channel operation or one
    branch of a [select] of one goroutine.  Sending on a closed channel and
    closing a closed channel panic in Go: they set [panicked] here. *)
From S2P Require Import Prelude Proto.
From S2P Require Session.
From stdpp Require Import options.

Abbreviation error := Session.error.

(** A [chan *FileResponse] of capacity 1; [chan_id] is the id of the request it
    was made for. *)
Record chan : Type := mk_chan {
  chan_id : string;
  buf : option FileResponse;
  chan_closed : bool;
}.

Abbreviation outcome := (result error FileResponse).

Inductive thread : Type :=
  (* Request; [req] is the clone that prepareRequest makes *)
  | TRegister (req : FileRequest)               (* before the test of s.closed *)
  | TRegisterLocked (req : FileRequest)         (* before pendingMu *)
  | TEnqueue (req : FileRequest) (ch : nat)     (* in the select of enqueueRequest *)
  | TAwait (id : string) (ch : nat)             (* in the select of awaitResponse *)
  | TDrop (id : string) (ch : nat) (r : outcome) (* in dropPending, before pendingMu *)
  | TDropClose (id : string) (ch : nat) (r : outcome)   (* before close(ch) *)
  | TReturned (id : string) (r : outcome)
  (* resolvePending *)
  | TResolve (resp : FileResponse)              (* before pendingMu *)
  | TResolveSend (ch : nat) (resp : FileResponse)  (* before ch <- resp *)
  | TResolveClose (ch : nat)                    (* before close(ch) *)
  | TResolved
  (* closeWithError *)
  | TClose (err : option error)                 (* before stateMu *)
  | TCloseSwap                                  (* before pendingMu *)
  | TCloseAll (chs : gset nat)                  (* closing the channels, in any order *)
  | TClosed
  (* Request, having read whether the session is an offline snapshot *)
  | TRequest (offline : bool) (req : FileRequest).

Record State : Type := mk_State {
  pending : gmap string nat;
  chans : gmap nat chan;
  nextCh : nat;
  closed : bool;
  closeErr : option error;
  sendCh : list FileRequest;
  threads : gmap nat thread;
  panicked : bool;
}.

Definition sessionSendBufferSize : nat := 64.

Definition init : State := mk_State ∅ ∅ 0 false None [] ∅ false.

(** The alternatives of a [select], and the next channel of the last loop. *)
Inductive choice : Type :=
  | Go            (* the only way on, or the channel operation of a select *)
  | CtxDone       (* <-ctx.Done() *)
  | SessionClosed (* <-s.closed *)
  | Pick (ch : nat).

(** ** Primitive operations *)

Definition set_thread (tid : nat) (t : thread) (st : State) : State :=
  mk_State (pending st) (chans st) (nextCh st) (closed st) (closeErr st) (sendCh st)
    (<[tid := t]> (threads st)) (panicked st).
Definition set_pending (p : gmap string nat) (st : State) : State :=
  mk_State p (chans st) (nextCh st) (closed st) (closeErr st) (sendCh st) (threads st) (panicked st).
Definition set_chans (c : gmap nat chan) (st : State) : State :=
  mk_State (pending st) c (nextCh st) (closed st) (closeErr st) (sendCh st) (threads st) (panicked st).
Definition panic (st : State) : State :=
  mk_State (pending st) (chans st) (nextCh st) (closed st) (closeErr st) (sendCh st) (threads st) true.

(** [make(chan *FileResponse, 1)], registered in the map *)
Definition make_pending (id : string) (st : State) : State :=
  mk_State (<[id := nextCh st]> (pending st)) (<[nextCh st := mk_chan id None false]> (chans st))
    (S (nextCh st)) (closed st) (closeErr st) (sendCh st) (threads st) (panicked st).

Definition close_chan (ch : nat) (st : State) : State :=
  match chans st !! ch with
  | Some c => if chan_closed c then panic st
              else set_chans (<[ch := mk_chan (chan_id c) (buf c) true]> (chans st)) st
  | None => panic st
  end.

(** [None] when the send blocks *)
Definition send_chan (ch : nat) (resp : FileResponse) (st : State) : option State :=
  match chans st !! ch with
  | Some c =>
    if chan_closed c then Some (panic st)
    else match buf c with
         | None => Some (set_chans (<[ch := mk_chan (chan_id c) (Some resp) false]> (chans st)) st)
         | Some _ => None
         end
  | None => None
  end.

(** [resp, ok := <-ch]: [None] when it blocks, [Some None] when the channel is
    closed and empty *)
Definition recv_chan (ch : nat) (st : State) : option (State * option FileResponse) :=
  match chans st !! ch with
  | Some c =>
    match buf c with
    | Some resp => Some (set_chans (<[ch := mk_chan (chan_id c) None (chan_closed c)]> (chans st)) st, Some resp)
    | None => if chan_closed c then Some (st, None) else None
    end
  | None => None
  end.

Definition closeErrValue (st : State) : error := default Session.ErrSessionClosed (closeErr st).

(** ** The bodies, one step at a time *)

Definition Request (tid : nat) (offline : bool) (req : FileRequest) (st : State) : State :=
  if offline then set_thread tid (TReturned (RequestId req) (Err Session.ErrSessionOffline)) st
  else set_thread tid (TRegister req) st.

Definition registerPending_check (tid : nat) (req : FileRequest) (st : State) : State :=
  if closed st then set_thread tid (TReturned (RequestId req) (Err (closeErrValue st))) st
  else set_thread tid (TRegisterLocked req) st.

Definition registerPending_locked (tid : nat) (req : FileRequest) (st : State) : State :=
  let id := RequestId req in
  match pending st !! id with
  | Some _ => set_thread tid (TReturned id (Err Session.ErrDuplicateRequestID)) st
  | None => set_thread tid (TEnqueue req (nextCh st)) (make_pending id st)
  end.

Definition enqueueRequest (c : choice) (tid : nat) (req : FileRequest) (ch : nat) (st : State) :
    option State :=
  let id := RequestId req in
  match c with
  | CtxDone => Some (set_thread tid (TDrop id ch (Err Session.ContextDone)) st)
  | SessionClosed =>
    if closed st then Some (set_thread tid (TDrop id ch (Err (closeErrValue st))) st) else None
  | Go =>
    if decide (length (sendCh st) < sessionSendBufferSize) then
      Some (set_thread tid (TAwait id ch)
        (mk_State (pending st) (chans st) (nextCh st) (closed st) (closeErr st)
           (sendCh st ++ [req]) (threads st) (panicked st)))
    else None
  | Pick _ => None
  end.

Definition awaitResponse (c : choice) (tid : nat) (id : string) (ch : nat) (st : State) :
    option State :=
  match c with
  | CtxDone => Some (set_thread tid (TDrop id ch (Err Session.ContextDone)) st)
  | SessionClosed =>
    if closed st then Some (set_thread tid (TDrop id ch (Err (closeErrValue st))) st) else None
  | Go =>
    match recv_chan ch st with
    | Some (st', Some resp) => Some (set_thread tid (TDrop id ch (Ok resp)) st')
    | Some (st', None) => Some (set_thread tid (TDrop id ch (Err (closeErrValue st'))) st')
    | None => None
    end
  | Pick _ => None
  end.

Definition dropPending (tid : nat) (id : string) (r : outcome) (st : State) : State :=
  match pending st !! id with
  | Some ch' => set_thread tid (TDropClose id ch' r) (set_pending (delete id (pending st)) st)
  | None => set_thread tid (TReturned id r) st
  end.

Definition resolvePending (tid : nat) (resp : FileResponse) (st : State) : State :=
  match pending st !! ResponseId resp with
  | Some ch => set_thread tid (TResolveSend ch resp) (set_pending (delete (ResponseId resp) (pending st)) st)
  | None => set_thread tid TResolved st
  end.

Definition closeWithError (tid : nat) (err : option error) (st : State) : State :=
  if closed st then set_thread tid TClosed st
  else set_thread tid TCloseSwap
    (mk_State (pending st) (chans st) (nextCh st) true
       (Some (default Session.ErrSessionClosed err)) (sendCh st) (threads st) (panicked st)).

Definition closeWithError_swap (tid : nat) (st : State) : State :=
  set_thread tid (TCloseAll (map_img (pending st))) (set_pending ∅ st).

(** One step of a goroutine, when it can take the alternative. *)
Definition exec (tid : nat) (c : choice) (st : State) : option State :=
  t ← threads st !! tid;
  match t, c with
  | TRequest offline req, Go => Some (Request tid offline req st)
  | TRegister req, Go => Some (registerPending_check tid req st)
  | TRegisterLocked req, Go => Some (registerPending_locked tid req st)
  | TEnqueue req ch, _ => enqueueRequest c tid req ch st
  | TAwait id ch, _ => awaitResponse c tid id ch st
  | TDrop id _ r, Go => Some (dropPending tid id r st)
  | TDropClose id ch r, Go => Some (set_thread tid (TReturned id r) (close_chan ch st))
  | TResolve resp, Go => Some (resolvePending tid resp st)
  | TResolveSend ch resp, Go => set_thread tid (TResolveClose ch) <$> send_chan ch resp st
  | TResolveClose ch, Go => Some (set_thread tid TResolved (close_chan ch st))
  | TClose err, Go => Some (closeWithError tid err st)
  | TCloseSwap, Go => Some (closeWithError_swap tid st)
  | TCloseAll chs, Pick ch =>
    if decide (ch ∈ chs) then Some (set_thread tid (TCloseAll (chs ∖ {[ch]})) (close_chan ch st)) else None
  | TCloseAll chs, Go => if decide (chs = ∅) then Some (set_thread tid TClosed st) else None
  | _, _ => None
  end.

(** The environment starts a request, delivers a response, closes the session,
    or lets the send loop take a message out of the queue. *)
Inductive step : State → State → Prop :=
  | step_exec tid c st st' : exec tid c st = Some st' → step st st'
  | step_request tid offline req st : threads st !! tid = None →
      step st (set_thread tid (TRequest offline req) st)
  | step_response tid resp st : threads st !! tid = None → step st (set_thread tid (TResolve resp) st)
  | step_close tid err st : threads st !! tid = None → step st (set_thread tid (TClose err) st)
  | step_send req rest st : sendCh st = req :: rest →
      step st (mk_State (pending st) (chans st) (nextCh st) (closed st) (closeErr st) rest
                 (threads st) (panicked st)).

Definition reachable_state : State → Prop := reachable (λ st, st = init) step.

(** ** Invariant *)

(** The channels a goroutine has taken out of the map and is going to close. *)
Definition holds (t : thread) : gset nat :=
  match t with
  | TDropClose _ ch _ | TResolveSend ch _ | TResolveClose ch => {[ch]}
  | TCloseAll chs => chs
  | _ => ∅
  end.

(** The channel a request goroutine waits on, with its id, until it has called
    [dropPending]. *)
Definition waits (t : thread) : option (string * nat) :=
  match t with
  | TEnqueue req ch => Some (RequestId req, ch)
  | TAwait id ch => Some (id, ch)
  | TDrop id ch _ => Some (id, ch)
  | _ => None
  end.

(** What is known of a goroutine's own data. *)
Definition thread_ok (chs : gmap nat chan) (t : thread) : Prop :=
  match t with
  | TResolveSend ch resp => ∃ c, chs !! ch = Some c ∧ buf c = None ∧ chan_id c = ResponseId resp
  | TEnqueue req ch => ∃ c, chs !! ch = Some c ∧ chan_id c = RequestId req
  | TAwait id ch => ∃ c, chs !! ch = Some c ∧ chan_id c = id
  | TDrop id _ (Ok resp) | TDropClose id _ (Ok resp) | TReturned id (Ok resp) => ResponseId resp = id
  | _ => True
  end.

Definition is_open (chs : gmap nat chan) (ch : nat) : Prop :=
  ∃ c, chs !! ch = Some c ∧ chan_closed c = false.

Record inv (st : State) : Prop := {
  inv_panic : panicked st = false;
  inv_fresh ch c : chans st !! ch = Some c → ch < nextCh st;
  inv_buf ch c resp : chans st !! ch = Some c → buf c = Some resp → ResponseId resp = chan_id c;
  inv_pending id ch : pending st !! id = Some ch →
    ∃ c, chans st !! ch = Some c ∧ chan_closed c = false ∧ buf c = None ∧ chan_id c = id;
  inv_pending_held id ch tid t : pending st !! id = Some ch → threads st !! tid = Some t → ch ∉ holds t;
  inv_held tid t ch : threads st !! tid = Some t → ch ∈ holds t → is_open (chans st) ch;
  inv_disjoint tid1 tid2 t1 t2 ch : threads st !! tid1 = Some t1 → threads st !! tid2 = Some t2 →
    ch ∈ holds t1 → ch ∈ holds t2 → tid1 = tid2;
  inv_thread tid t : threads st !! tid = Some t → thread_ok (chans st) t;
  inv_waiter id ch : pending st !! id = Some ch →
    ∃ tid t, threads st !! tid = Some t ∧ waits t = Some (id, ch);
}.

(** ** Preservation *)

Lemma lookup_set_thread tid t st tid' :
  threads (set_thread tid t st) !! tid' = if decide (tid' = tid) then Some t else threads st !! tid'.
Proof. simpl. case_decide; subst; [apply lookup_insert_eq|by apply lookup_insert_ne]. Qed.

(** A goroutine moves on without touching the shared data. *)
Lemma inv_move tid t st :
  inv st →
  holds t ⊆ match threads st !! tid with Some t0 => holds t0 | None => ∅ end →
  thread_ok (chans st) t →
  (∀ t0 id ch, threads st !! tid = Some t0 → waits t0 = Some (id, ch) →
     pending st !! id = Some ch → waits t = Some (id, ch)) →
  inv (set_thread tid t st).
Proof.
  intros Hi Hh Hok Hw.
  assert (Hold : ∀ tid' t', threads (set_thread tid t st) !! tid' = Some t' →
    ∀ ch, ch ∈ holds t' → ∃ t0, threads st !! tid' = Some t0 ∧ ch ∈ holds t0).
  { intros tid' t'. rewrite lookup_set_thread. case_decide as Ht; [|naive_solver].
    intros [= <-] ch Hch. apply Hh in Hch. subst tid'. destruct (threads st !! tid); [by eexists|].
    by apply elem_of_empty in Hch. }
  destruct Hi as [? ? ? ? Hph Hhe Hd Hth Hwa]. constructor; simpl; try done.
  - intros id ch tid' t' Hp Ht' Hch. destruct (Hold tid' t' Ht' ch Hch) as (t0 & ? & ?).
    by eapply (Hph id ch tid' t0).
  - intros tid' t' ch Ht' Hch. destruct (Hold tid' t' Ht' ch Hch) as (t0 & ? & ?).
    by eapply (Hhe tid' t0).
  - intros tid1 tid2 t1 t2 ch H1 H2 Hc1 Hc2.
    destruct (Hold _ _ H1 ch Hc1) as (? & ? & ?), (Hold _ _ H2 ch Hc2) as (? & ? & ?).
    by eapply Hd.
  - intros tid' t'. change (<[tid:=t]> (threads st)) with (threads (set_thread tid t st)).
    rewrite lookup_set_thread. case_decide; [by intros [= <-]|by apply Hth].
  - intros id ch Hp. destruct (Hwa id ch Hp) as (tid' & t' & Ht' & Hwt).
    destruct (decide (tid' = tid)) as [->|Hne].
    + exists tid, t. rewrite lookup_insert_eq. split; [done|]. by eapply Hw.
    + exists tid', t'. by rewrite lookup_insert_ne.
Qed.

(** What the goroutines know of the channels survives a close. *)
Lemma thread_ok_mono chs chs' t :
  (∀ ch c, chs !! ch = Some c → ∃ c', chs' !! ch = Some c' ∧ chan_id c' = chan_id c ∧ buf c' = buf c) →
  thread_ok chs t → thread_ok chs' t.
Proof.
  intros Hm. destruct t as [| |req ch|id ch|id ch [resp|]|id ch [resp|]|id [resp|]| |ch resp| | | | | | |];
    simpl; try done.
  - intros (c & Hc & ?). destruct (Hm _ _ Hc) as (c' & ? & ? & ?). exists c'. split; congruence.
  - intros (c & Hc & ?). destruct (Hm _ _ Hc) as (c' & ? & ? & ?). exists c'. split; congruence.
  - intros (c & Hc & ? & ?). destruct (Hm _ _ Hc) as (c' & ? & ? & ?). exists c'. split_and!; congruence.
Qed.

(** A goroutine closes a channel it holds: no panic. *)
Lemma inv_close tid t t0 ch st :
  inv st → threads st !! tid = Some t0 → ch ∈ holds t0 → waits t0 = None →
  holds t ⊆ holds t0 ∖ {[ch]} → (∀ chs, thread_ok chs t) →
  inv (set_thread tid t (close_chan ch st)).
Proof.
  intros Hi Ht0 Hch Hw Hh Hok. pose proof (inv_held _ Hi _ _ _ Ht0 Hch) as (c & Hc & Hopen).
  unfold close_chan. rewrite Hc, Hopen.
  set (chs' := <[ch := _]> (chans st)).
  assert (Hl : ∀ ch', chs' !! ch' = if decide (ch' = ch) then Some (mk_chan (chan_id c) (buf c) true)
    else chans st !! ch').
  { intros ch'. unfold chs'. case_decide; subst; [by rewrite lookup_insert_eq|by rewrite lookup_insert_ne]. }
  assert (Hother : ∀ tid' t' ch', <[tid:=t]> (threads st) !! tid' = Some t' → ch' ∈ holds t' →
    ch' ≠ ch ∧ ∃ t'', threads st !! tid' = Some t'' ∧ ch' ∈ holds t'').
  { intros tid' t' ch'. destruct (decide (tid' = tid)) as [->|Hne].
    - rewrite lookup_insert_eq. intros [= <-] Hin. apply Hh in Hin. split; [set_solver|].
      exists t0. split; [done|]. set_solver.
    - rewrite lookup_insert_ne by done. intros Ht' Hin. split; [|by exists t'].
      intros ->. destruct Hne. by eapply (inv_disjoint _ Hi). }
  assert (Hpne : ∀ id, pending st !! id ≠ Some ch).
  { intros id Hp. by apply (inv_pending_held _ Hi _ _ _ _ Hp Ht0). }
  constructor; simpl.
  - apply Hi.
  - intros ch' c'. rewrite Hl. case_decide; [intros [= <-]; subst; by eapply inv_fresh|by apply (inv_fresh _ Hi)].
  - intros ch' c' resp. rewrite Hl. case_decide; [intros [= <-]; simpl; by eapply (inv_buf _ Hi)|by apply (inv_buf _ Hi)].
  - intros id ch' Hp. destruct (inv_pending _ Hi _ _ Hp) as (c' & Hc' & ?). exists c'.
    rewrite Hl, decide_False; [done|]. intros ->. by apply (Hpne id).
  - intros id ch' tid' t' Hp Ht' Hin. destruct (Hother _ _ _ Ht' Hin) as (_ & t'' & Ht'' & Hin').
    by eapply (inv_pending_held _ Hi).
  - intros tid' t' ch' Ht' Hin. destruct (Hother _ _ _ Ht' Hin) as (Hne & t'' & Ht'' & Hin').
    destruct (inv_held _ Hi _ _ _ Ht'' Hin') as (c' & ? & ?). exists c'. by rewrite Hl, decide_False.
  - intros tid1 tid2 t1 t2 ch' H1 H2 Hin1 Hin2.
    destruct (Hother _ _ _ H1 Hin1) as (_ & ? & ? & ?), (Hother _ _ _ H2 Hin2) as (_ & ? & ? & ?).
    by eapply (inv_disjoint _ Hi).
  - intros tid' t'. destruct (decide (tid' = tid)) as [->|Hne].
    + rewrite lookup_insert_eq. by intros [= <-].
    + rewrite lookup_insert_ne by done. intros Ht'. eapply thread_ok_mono; [|by apply (inv_thread _ Hi tid')].
      intros ch' c' Hc'. rewrite Hl. case_decide; [subst; simplify_eq; by eexists|by exists c'].
  - intros id ch' Hp. destruct (inv_waiter _ Hi _ _ Hp) as (tid' & t' & Ht' & Hwt).
    exists tid', t'. rewrite lookup_insert_ne; [done|]. intros <-. congruence.
Qed.

(** A goroutine takes channels out of the map, in order to close them. *)
Lemma inv_take tid t t0 p' st :
  inv st → threads st !! tid = Some t0 → holds t0 = ∅ →
  p' ⊆ pending st →
  (∀ ch, ch ∈ holds t → ∃ id, pending st !! id = Some ch ∧ p' !! id = None) →
  (∀ id ch, waits t0 = Some (id, ch) → p' !! id = None) →
  thread_ok (chans st) t →
  inv (set_thread tid t (set_pending p' st)).
Proof.
  intros Hi Ht0 Hh0 Hsub Hh Hw Hok.
  assert (Hp' : ∀ id ch, p' !! id = Some ch → pending st !! id = Some ch).
  { intros id ch Hid. by eapply lookup_weaken. }
  assert (Hinj : ∀ id1 id2 ch, pending st !! id1 = Some ch → pending st !! id2 = Some ch → id1 = id2).
  { intros id1 id2 ch H1 H2. destruct (inv_pending _ Hi _ _ H1) as (c1 & ? & _ & _ & ?),
      (inv_pending _ Hi _ _ H2) as (c2 & ? & _ & _ & ?). congruence. }
  assert (Hother : ∀ tid' t' ch, <[tid:=t]> (threads st) !! tid' = Some t' → ch ∈ holds t' →
    (tid' = tid ∧ ∃ id, pending st !! id = Some ch ∧ p' !! id = None) ∨
    (tid' ≠ tid ∧ threads st !! tid' = Some t')).
  { intros tid' t' ch. destruct (decide (tid' = tid)) as [->|Hne].
    - rewrite lookup_insert_eq. intros [= <-] Hin. left. auto.
    - rewrite lookup_insert_ne by done. auto. }
  constructor; simpl.
  - apply Hi.
  - apply Hi.
  - apply Hi.
  - intros id ch Hid. by apply (inv_pending _ Hi), Hp'.
  - intros id ch tid' t' Hid Ht' Hin. destruct (Hother _ _ _ Ht' Hin) as [(-> & id' & H1 & H2)|(? & ?)].
    + pose proof (Hinj id id' ch (Hp' _ _ Hid) H1). congruence.
    + by eapply (inv_pending_held _ Hi); [apply Hp'|..].
  - intros tid' t' ch Ht' Hin. destruct (Hother _ _ _ Ht' Hin) as [(-> & id' & H1 & H2)|(? & ?)].
    + destruct (inv_pending _ Hi _ _ H1) as (c & ? & ? & _). by exists c.
    + by eapply (inv_held _ Hi).
  - intros tid1 tid2 t1 t2 ch H1 H2 Hin1 Hin2.
    destruct (Hother _ _ _ H1 Hin1) as [(-> & id1 & Hp1 & _)|(? & ?)],
      (Hother _ _ _ H2 Hin2) as [(-> & id2 & Hp2 & _)|(? & ?)]; [done|..].
    + by destruct (inv_pending_held _ Hi id1 ch tid2 t2).
    + by destruct (inv_pending_held _ Hi id2 ch tid1 t1).
    + by eapply (inv_disjoint _ Hi).
  - intros tid' t'. destruct (decide (tid' = tid)) as [->|Hne].
    + rewrite lookup_insert_eq. by intros [= <-].
    + rewrite lookup_insert_ne by done. apply Hi.
  - intros id ch Hid. destruct (inv_waiter _ Hi _ _ (Hp' _ _ Hid)) as (tid' & t' & Ht' & Hwt).
    exists tid', t'. rewrite lookup_insert_ne; [done|]. intros <-.
    assert (t' = t0) as -> by congruence. by rewrite (Hw _ _ Hwt) in Hid.
Qed.

(** A new channel is registered for the goroutine that makes it. *)
Lemma inv_register tid req st :
  inv st → pending st !! RequestId req = None →
  threads st !! tid = Some (TRegisterLocked req) →
  inv (set_thread tid (TEnqueue req (nextCh st)) (make_pending (RequestId req) st)).
Proof.
  intros Hi Hnone Ht0. set (id := RequestId req) in *. set (n := nextCh st) in *.
  assert (Hfresh : chans st !! n = None).
  { destruct (chans st !! n) as [c|] eqn:E; [|done]. apply (inv_fresh _ Hi) in E. unfold n in E. lia. }
  assert (Hpne : ∀ id', pending st !! id' ≠ Some n).
  { intros id' Hp. destruct (inv_pending _ Hi _ _ Hp) as (c & ? & _). congruence. }
  assert (Hhne : ∀ tid' t', threads st !! tid' = Some t' → n ∉ holds t').
  { intros tid' t' Ht' Hin. destruct (inv_held _ Hi _ _ _ Ht' Hin) as (c & ? & _). congruence. }
  assert (Hother : ∀ tid' t' ch, <[tid:=TEnqueue req n]> (threads st) !! tid' = Some t' → ch ∈ holds t' →
    tid' ≠ tid ∧ threads st !! tid' = Some t').
  { intros tid' t' ch. destruct (decide (tid' = tid)) as [->|Hne].
    - rewrite lookup_insert_eq. intros [= <-] Hin. by apply elem_of_empty in Hin.
    - by rewrite lookup_insert_ne. }
  constructor; simpl.
  - apply Hi.
  - intros ch c [[<- <-]|[Hne Hc]]%lookup_insert_Some; [unfold n; lia|].
    apply (inv_fresh _ Hi) in Hc. lia.
  - intros ch c resp [[<- <-]|[Hne Hc]]%lookup_insert_Some; [done|by apply (inv_buf _ Hi ch)].
  - intros id' ch [[<- <-]|[Hne Hp]]%lookup_insert_Some.
    + exists (mk_chan id None false). by rewrite lookup_insert_eq.
    + destruct (inv_pending _ Hi _ _ Hp) as (c & Hc & ?). exists c.
      rewrite lookup_insert_ne; [done|]. intros E. rewrite <-E in Hc. unfold n in Hfresh. congruence.
  - intros id' ch tid' t' Hp Ht' Hin. destruct (Hother _ _ _ Ht' Hin) as [Hne Ht].
    apply lookup_insert_Some in Hp as [[<- <-]|[_ Hp]]; [by apply (Hhne tid' t')|].
    by eapply (inv_pending_held _ Hi).
  - intros tid' t' ch Ht' Hin. destruct (Hother _ _ _ Ht' Hin) as [Hne Ht].
    destruct (inv_held _ Hi _ _ _ Ht Hin) as (c & ? & ?). exists c. rewrite lookup_insert_ne; [done|].
    intros E. rewrite <-E in Hin. by apply (Hhne tid' t').
  - intros tid1 tid2 t1 t2 ch H1 H2 Hin1 Hin2.
    destruct (Hother _ _ _ H1 Hin1), (Hother _ _ _ H2 Hin2). by eapply (inv_disjoint _ Hi).
  - intros tid' t'. destruct (decide (tid' = tid)) as [->|Hne].
    + rewrite lookup_insert_eq. intros [= <-]. simpl. exists (mk_chan id None false).
      by rewrite lookup_insert_eq.
    + rewrite lookup_insert_ne by done. intros Ht'. eapply thread_ok_mono; [|by apply (inv_thread _ Hi tid')].
      intros ch c Hc. exists c. rewrite lookup_insert_ne; [done|]. intros E.
      rewrite <-E in Hc. unfold n in Hfresh. congruence.
  - intros id' ch [[<- <-]|[Hne Hp]]%lookup_insert_Some.
    + exists tid, (TEnqueue req n). by rewrite lookup_insert_eq.
    + destruct (inv_waiter _ Hi _ _ Hp) as (tid' & t' & Ht' & Hwt).
      exists tid', t'. rewrite lookup_insert_ne; [done|]. intros <-. by simplify_eq.
Qed.

(** The buffer of a channel changes, for the goroutine that may do it. *)
Lemma inv_buffer tid t t0 ch c b st :
  inv st → threads st !! tid = Some t0 → chans st !! ch = Some c →
  (∀ id, pending st !! id ≠ Some ch) →
  (∀ tid' t' resp, threads st !! tid' = Some t' → t' = TResolveSend ch resp → tid' = tid) →
  (∀ resp, b = Some resp → ResponseId resp = chan_id c) →
  holds t ⊆ holds t0 →
  (∀ id ch', waits t0 = Some (id, ch') → waits t = Some (id, ch')) →
  (∀ chs, thread_ok chs t) →
  inv (set_thread tid t (set_chans (<[ch := mk_chan (chan_id c) b (chan_closed c)]> (chans st)) st)).
Proof.
  intros Hi Ht0 Hc Hpne Hsend Hb Hh Hw Hok.
  set (chs' := <[ch := _]> (chans st)).
  assert (Hl : ∀ ch', chs' !! ch' = if decide (ch' = ch) then Some (mk_chan (chan_id c) b (chan_closed c))
    else chans st !! ch').
  { intros ch'. unfold chs'. case_decide; subst; [by rewrite lookup_insert_eq|by rewrite lookup_insert_ne]. }
  assert (Hother : ∀ tid' t' ch', <[tid:=t]> (threads st) !! tid' = Some t' → ch' ∈ holds t' →
    ∃ t'', threads st !! tid' = Some t'' ∧ ch' ∈ holds t'').
  { intros tid' t' ch'. destruct (decide (tid' = tid)) as [->|Hne].
    - rewrite lookup_insert_eq. intros [= <-] Hin. exists t0. auto.
    - rewrite lookup_insert_ne by done. by exists t'. }
  constructor; simpl.
  - apply Hi.
  - intros ch' c'. rewrite Hl. case_decide; [intros [= <-]; subst; by eapply inv_fresh|by apply (inv_fresh _ Hi)].
  - intros ch' c' resp. rewrite Hl. case_decide; [intros [= <-]; simpl; apply Hb|by apply (inv_buf _ Hi)].
  - intros id ch' Hp. destruct (inv_pending _ Hi _ _ Hp) as (c' & Hc' & ?). exists c'.
    rewrite Hl, decide_False; [done|]. intros ->. by apply (Hpne id).
  - intros id ch' tid' t' Hp Ht' Hin. destruct (Hother _ _ _ Ht' Hin) as (t'' & Ht'' & Hin').
    by eapply (inv_pending_held _ Hi).
  - intros tid' t' ch' Ht' Hin. destruct (Hother _ _ _ Ht' Hin) as (t'' & Ht'' & Hin').
    destruct (inv_held _ Hi _ _ _ Ht'' Hin') as (c' & ? & ?). unfold is_open. rewrite Hl.
    case_decide; [|by exists c']. subst. eexists. split; [done|]. simpl. congruence.
  - intros tid1 tid2 t1 t2 ch' H1 H2 Hin1 Hin2.
    destruct (Hother _ _ _ H1 Hin1) as (? & ? & ?), (Hother _ _ _ H2 Hin2) as (? & ? & ?).
    by eapply (inv_disjoint _ Hi).
  - intros tid' t'. destruct (decide (tid' = tid)) as [->|Hne].
    { rewrite lookup_insert_eq. by intros [= <-]. }
    rewrite lookup_insert_ne by done. intros Ht'. pose proof (inv_thread _ Hi _ _ Ht') as Hok'.
    assert (Hid : ∀ id ch', (∃ c', chans st !! ch' = Some c' ∧ chan_id c' = id) →
      ∃ c', chs' !! ch' = Some c' ∧ chan_id c' = id).
    { intros id ch' (c' & Hc' & Hid'). rewrite Hl. case_decide; [|by exists c'].
      subst ch'. simplify_eq. by eexists. }
    destruct t' as [| |req' ch'|id ch'| | | | |ch' resp| | | | | | |]; simpl in *;
      first [done|by apply Hid|idtac].
    rewrite Hl, decide_False; [done|]. intros ->. apply Hne. by eapply Hsend.
  - intros id ch' Hp. destruct (inv_waiter _ Hi _ _ Hp) as (tid' & t' & Ht' & Hwt).
    destruct (decide (tid' = tid)) as [->|Hne].
    + exists tid, t. rewrite lookup_insert_eq. split; [done|]. apply Hw. congruence.
    + exists tid', t'. by rewrite lookup_insert_ne.
Qed.

(** The queue, and the flags, are not part of the invariant. *)
Lemma inv_flags cl er q st :
  inv st →
  inv (mk_State (pending st) (chans st) (nextCh st) cl er q (threads st) (panicked st)).
Proof. intros Hi. constructor; apply Hi. Qed.

Lemma inv_init : inv init.
Proof. constructor; try done. Qed.

Lemma subseteq_delete (id : string) (p : gmap string nat) : delete id p ⊆ p.
Proof. apply delete_subseteq. Qed.

Lemma exec_inv tid c st st' : inv st → exec tid c st = Some st' → inv st'.
Proof.
  intros Hi. unfold exec. destruct (threads st !! tid) as [t|] eqn:Ht; [simpl|done].
  pose proof (inv_thread _ Hi _ _ Ht) as Hok.
  assert (Hmove : ∀ t', holds t' ⊆ holds t → thread_ok (chans st) t' →
    (∀ id ch, waits t = Some (id, ch) → pending st !! id = Some ch → waits t' = Some (id, ch)) →
    inv (set_thread tid t' st)).
  { intros t' Hh Hok' Hw. apply inv_move; [done|by rewrite Ht|done|].
    intros t0 id ch Ht0. rewrite Ht in Ht0. simplify_eq. apply Hw. }
  destruct t as [req|req|req ch|id ch|id ch r|id ch r|id r|resp|ch resp|ch| |err| |chs| |off req]; simpl in Hok;
    try (by destruct c).
  - destruct c; [|done..]. intros [= <-]. unfold registerPending_check.
    destruct (closed st); by apply Hmove.
  - destruct c; [|done..]. intros [= <-]. unfold registerPending_locked.
    destruct (pending st !! RequestId req) eqn:Hp; [by apply Hmove|by apply inv_register].
  - destruct c; simpl; [case_decide|..|done].
    + intros [= <-]. apply (inv_flags (closed st) (closeErr st) (sendCh st ++ [req]) (set_thread tid (TAwait (RequestId req) ch) st)).
      by apply Hmove.
    + done.
    + intros [= <-]. by apply Hmove.
    + destruct (closed st); [|done]. intros [= <-]. by apply Hmove.
  - destruct c; simpl; [|..|done].
    + unfold recv_chan. destruct (chans st !! ch) as [c|] eqn:Hc; [|done].
      destruct (buf c) as [resp|] eqn:Hb.
      * intros [= <-]. pose proof (inv_buf _ Hi _ _ _ Hc Hb) as Hid.
        destruct Hok as (c' & Hc' & Hid'). assert (c' = c) as -> by congruence.
        eapply (inv_buffer tid _ _ ch c); [done|done|done| | |done|done| |].
        -- intros id' Hp. destruct (inv_pending _ Hi _ _ Hp) as (c' & ? & _ & ? & _). congruence.
        -- intros tid' t' resp' Ht' ->. destruct (inv_thread _ Hi _ _ Ht') as (c' & ? & ? & _). congruence.
        -- by intros id' ch' [= <- <-].
        -- intros chs. simpl. congruence.
      * destruct (chan_closed c); [|done]. intros [= <-]. by apply Hmove.
    + intros [= <-]. by apply Hmove.
    + destruct (closed st); [|done]. intros [= <-]. by apply Hmove.
  - destruct c; [|done..]. intros [= <-]. unfold dropPending.
    destruct (pending st !! id) as [ch'|] eqn:Hp.
    + eapply inv_take; [done|done|done|apply subseteq_delete| | |by destruct r].
      * simpl. intros ch'' ->%elem_of_singleton. exists id. by rewrite lookup_delete_eq.
      * intros id' ch'' [= <- <-]. apply lookup_delete_eq.
    + apply Hmove; [done|by destruct r|]. intros id' ch' [= <- <-]. congruence.
  - destruct c; [|done..]. intros [= <-]. eapply inv_close; [done|done|simpl; set_solver|done|simpl; set_solver|].
    intros chs. by destruct r.
  - destruct c; [|done..]. intros [= <-]. unfold resolvePending.
    destruct (pending st !! ResponseId resp) as [ch|] eqn:Hp; [|by apply Hmove].
    eapply inv_take; [done|done|done|apply subseteq_delete| |done|].
    + simpl. intros ch' ->%elem_of_singleton. exists (ResponseId resp). by rewrite lookup_delete_eq.
    + destruct (inv_pending _ Hi _ _ Hp) as (c & ? & _ & ? & ?). by exists c.
  - destruct c; [|done..]. unfold send_chan.
    destruct Hok as (c & Hc & Hb & Hid). rewrite Hc, Hb.
    destruct (inv_held _ Hi tid _ ch Ht ltac:(simpl; set_solver)) as (c' & Hc' & Hopen).
    assert (c' = c) as -> by congruence. rewrite Hopen. simpl. intros [= <-].
    rewrite <-Hopen.
    eapply (inv_buffer tid _ _ ch c); [done|done|done| | | |done|done|done].
    + intros id Hp. apply (inv_pending_held _ Hi _ _ _ _ Hp Ht). simpl. set_solver.
    + intros tid' t' resp' Ht' ->. eapply (inv_disjoint _ Hi tid' tid _ _ ch Ht' Ht); simpl; set_solver.
    + by intros resp' [= <-].
  - destruct c; [|done..]. intros [= <-]. eapply inv_close; [done|done|simpl; set_solver|done|simpl; set_solver|done].
  - destruct c; [|done..]. intros [= <-]. unfold closeWithError. destruct (closed st); [by apply Hmove|].
    apply (inv_flags true (Some (default Session.ErrSessionClosed err)) (sendCh st) (set_thread tid TCloseSwap st)).
    by apply Hmove.
  - destruct c; [|done..]. intros [= <-]. unfold closeWithError_swap.
    eapply inv_take; [done|done|done|apply map_empty_subseteq| |done|done].
    simpl. intros ch [id Hid]%elem_of_map_img. exists id. by rewrite lookup_empty.
  - destruct c as [| | |ch]; try done; case_decide as Hch; try done; intros [= <-].
    + apply Hmove; [by rewrite Hch|done|done].
    + by eapply inv_close.
  - destruct c; [|done..]. intros [= <-]. unfold Request. destruct off; by apply Hmove.
Qed.

Lemma step_inv st st' : inv st → step st st' → inv st'.
Proof.
  intros Hi Hstep. destruct Hstep as [tid c st st' He|tid off req st Ht|tid resp st Ht|tid err st Ht|req rest st Hq].
  - by eapply exec_inv.
  - apply inv_move; [done|set_solver|done|]. intros t0 id ch Ht0. congruence.
  - apply inv_move; [done|set_solver|done|]. intros t0 id ch Ht0. congruence.
  - apply inv_move; [done|set_solver|done|]. intros t0 id ch Ht0. congruence.
  - by apply inv_flags.
Qed.

Lemma reachable_inv st : reachable_state st → inv st.
Proof.
  intros Hr. eapply (reachable_invariant (λ st, st = init) step inv); [| |done].
  - intros s ->. apply inv_init.
  - intros s s'. apply step_inv.
Qed.

(** ** No channel is forgotten *)

(** A channel that is not closed is in the map, or in the hands of a goroutine
    that is going to close it. *)
Definition tracked (st : State) : Prop :=
  ∀ ch c, chans st !! ch = Some c → chan_closed c = false →
    (∃ id, pending st !! id = Some ch) ∨ (∃ tid t, threads st !! tid = Some t ∧ ch ∈ holds t).

Lemma tracked_update tid t t0 st st' :
  tracked st → threads st !! tid = Some t0 → threads st' = <[tid := t]> (threads st) →
  (∀ ch c', chans st' !! ch = Some c' → chan_closed c' = false →
     ch ∈ holds t ∨ (∃ id, pending st' !! id = Some ch) ∨
     (∃ c, chans st !! ch = Some c ∧ chan_closed c = false) ∧
     (∀ id, pending st !! id = Some ch → ∃ id', pending st' !! id' = Some ch) ∧ ch ∉ holds t0) →
  tracked st'.
Proof.
  intros Htr Ht0 Hth Hall ch c' Hc' Hopen. rewrite Hth.
  destruct (Hall ch c' Hc' Hopen) as [Hin|[Hp|((c & Hc & Ho) & Hkeep & Hnot)]].
  - right. exists tid, t. by rewrite lookup_insert_eq.
  - by left.
  - destruct (Htr ch c Hc Ho) as [[id Hid]|(tid' & t' & Ht' & Hin)]; [left; by eapply Hkeep|].
    right. exists tid', t'. rewrite lookup_insert_ne; [done|]. intros <-. congruence.
Qed.

Lemma tracked_move tid t t0 st :
  tracked st → threads st !! tid = Some t0 → holds t0 ⊆ holds t → tracked (set_thread tid t st).
Proof.
  intros Htr Ht0 Hh. eapply (tracked_update tid t t0 st); [done..|].
  intros ch c Hc Ho. destruct (decide (ch ∈ holds t0)) as [Hin|Hin]; [left; by apply Hh|].
  right; right. split_and!; [by exists c| |done]. intros id Hid. by exists id.
Qed.

Lemma tracked_close tid t t0 ch st :
  inv st → tracked st → threads st !! tid = Some t0 → ch ∈ holds t0 → holds t0 ∖ {[ch]} ⊆ holds t →
  tracked (set_thread tid t (close_chan ch st)).
Proof.
  intros Hi Htr Ht0 Hch Hh. destruct (inv_held _ Hi _ _ _ Ht0 Hch) as (c & Hc & Ho).
  unfold close_chan. rewrite Hc, Ho. eapply (tracked_update tid t t0 st); [done..|].
  simpl. intros ch' c' Hc' Ho'. apply lookup_insert_Some in Hc' as [[<- <-]|[Hne Hc']]; [done|].
  destruct (decide (ch' ∈ holds t0)) as [Hin|Hin]; [left; apply Hh; set_solver|].
  right; right. split_and!; [by exists c'| |done]. intros id Hid. by exists id.
Qed.

Lemma tracked_take tid t t0 p' st :
  tracked st → threads st !! tid = Some t0 → holds t0 = ∅ →
  (∀ id ch, pending st !! id = Some ch → p' !! id = Some ch ∨ ch ∈ holds t) →
  tracked (set_thread tid t (set_pending p' st)).
Proof.
  intros Htr Ht0 Hh Hp. intros ch c Hc Ho. simpl in *.
  destruct (Htr ch c Hc Ho) as [[id Hid]|(tid' & t' & Ht' & Hin)].
  - destruct (Hp id ch Hid) as [?|?]; [left; by exists id|].
    right. exists tid, t. by rewrite lookup_insert_eq.
  - right. exists tid', t'. rewrite lookup_insert_ne; [done|]. intros <-.
    assert (t' = t0) as -> by congruence. rewrite Hh in Hin. by apply elem_of_empty in Hin.
Qed.

(** A change of a buffer, with a goroutine that keeps what it holds. *)
Lemma tracked_buffer tid t t0 ch c b st :
  tracked st → threads st !! tid = Some t0 → chans st !! ch = Some c → holds t0 ⊆ holds t →
  tracked (set_thread tid t (set_chans (<[ch := mk_chan (chan_id c) b (chan_closed c)]> (chans st)) st)).
Proof.
  intros Htr Ht0 Hc Hh. eapply (tracked_update tid t t0 st); [done..|].
  simpl. intros ch' c' Hc' Ho'.
  destruct (decide (ch' ∈ holds t0)) as [Hin|Hin]; [left; by apply Hh|]. right; right.
  split_and!; [|by intros id Hid; exists id|done].
  apply lookup_insert_Some in Hc' as [[<- <-]|[Hne Hc']]; [by exists c|by exists c'].
Qed.

Lemma exec_tracked tid c st st' : inv st → tracked st → exec tid c st = Some st' → tracked st'.
Proof.
  intros Hi Htr. unfold exec. destruct (threads st !! tid) as [t|] eqn:Ht; [simpl|done].
  pose proof (inv_thread _ Hi _ _ Ht) as Hok.
  assert (Hmove : ∀ t', holds t ⊆ holds t' → tracked (set_thread tid t' st)).
  { intros t' Hh. by eapply tracked_move. }
  destruct t as [req|req|req ch|id ch|id ch r|id ch r|id r|resp|ch resp|ch| |err| |chs| |off req]; simpl in Hok;
    try (by destruct c).
  - destruct c; [|done..]. intros [= <-]. unfold registerPending_check.
    destruct (closed st); by apply Hmove.
  - destruct c; [|done..]. intros [= <-]. unfold registerPending_locked.
    destruct (pending st !! RequestId req) eqn:Hp; [by apply Hmove|].
    eapply (tracked_update tid _ _ st); [done|done|done|]. simpl. intros ch c Hc Ho. right.
    apply lookup_insert_Some in Hc as [[<- <-]|[Hne Hc]].
    { left. exists (RequestId req). by rewrite lookup_insert_eq. }
    right. split_and!; [by exists c| |set_solver]. intros id Hid. exists id.
    rewrite lookup_insert_ne; [done|]. intros E. rewrite <-E in Hid. congruence.
  - destruct c; simpl; [case_decide|..|done].
    + intros [= <-]. exact (Hmove (TAwait (RequestId req) ch) ltac:(done)).
    + done.
    + intros [= <-]. by apply Hmove.
    + destruct (closed st); [|done]. intros [= <-]. by apply Hmove.
  - destruct c; simpl; [|..|done].
    + unfold recv_chan. destruct (chans st !! ch) as [c|] eqn:Hc; [|done].
      destruct (buf c) as [resp|] eqn:Hb.
      * intros [= <-]. by eapply tracked_buffer.
      * destruct (chan_closed c); [|done]. intros [= <-]. by apply Hmove.
    + intros [= <-]. by apply Hmove.
    + destruct (closed st); [|done]. intros [= <-]. by apply Hmove.
  - destruct c; [|done..]. intros [= <-]. unfold dropPending.
    destruct (pending st !! id) as [ch'|] eqn:Hp; [|by apply Hmove].
    eapply tracked_take; [done|done|done|]. intros id' ch'' Hid. destruct (decide (id' = id)) as [->|Hne].
    + right. simpl. simplify_eq. set_solver.
    + left. by rewrite lookup_delete_ne.
  - destruct c; [|done..]. intros [= <-]. eapply tracked_close; [done..|simpl; set_solver|simpl; set_solver].
  - destruct c; [|done..]. intros [= <-]. unfold resolvePending.
    destruct (pending st !! ResponseId resp) as [ch|] eqn:Hp; [|by apply Hmove].
    eapply tracked_take; [done|done|done|]. intros id' ch'' Hid.
    destruct (decide (id' = ResponseId resp)) as [->|Hne].
    + right. simpl. simplify_eq. set_solver.
    + left. by rewrite lookup_delete_ne.
  - destruct c; [|done..]. unfold send_chan.
    destruct Hok as (c & Hc & Hb & Hid). rewrite Hc, Hb.
    destruct (inv_held _ Hi tid _ ch Ht ltac:(simpl; set_solver)) as (c' & Hc' & Hopen).
    assert (c' = c) as -> by congruence. rewrite Hopen. simpl. intros [= <-].
    rewrite <-Hopen. by eapply tracked_buffer.
  - destruct c; [|done..]. intros [= <-]. eapply tracked_close; [done..|simpl; set_solver|simpl; set_solver].
  - destruct c; [|done..]. intros [= <-]. unfold closeWithError. destruct (closed st); [by apply Hmove|].
    exact (Hmove TCloseSwap ltac:(done)).
  - destruct c; [|done..]. intros [= <-]. unfold closeWithError_swap.
    eapply tracked_take; [done|done|done|]. intros id ch Hid. right. simpl.
    apply elem_of_map_img. by exists id.
  - destruct c as [| | |ch]; try done; case_decide as Hch; try done; intros [= <-].
    + apply Hmove. simpl. by rewrite Hch.
    + by eapply tracked_close.
  - destruct c; [|done..]. intros [= <-]. unfold Request. destruct off; by apply Hmove.
Qed.

Lemma tracked_spawn tid t st : tracked st → threads st !! tid = None → tracked (set_thread tid t st).
Proof.
  intros Htr Ht ch c Hc Ho. destruct (Htr ch c Hc Ho) as [?|(tid' & t' & Ht' & Hin)]; [by left|right].
  exists tid', t'. simpl. rewrite lookup_insert_ne; [done|]. intros <-. congruence.
Qed.

Lemma reachable_tracked st : reachable_state st → tracked st.
Proof.
  intros Hr. cut (inv st ∧ tracked st); [by intros [_ ?]|].
  eapply (reachable_invariant (λ st, st = init) step (λ st, inv st ∧ tracked st)); [| |done].
  - intros s ->. split; [apply inv_init|]. intros ch c Hc. simpl in Hc. by rewrite lookup_empty in Hc.
  - intros s s' [Hi Htr] Hs. split; [by eapply step_inv|].
    destruct Hs as [tid c st0 st' He|tid off req st0 Ht|tid resp st0 Ht|tid err st0 Ht|req rest st0 Hq];
      [by eapply exec_tracked|by apply tracked_spawn..|exact Htr].
Qed.

(** ** Properties *)

(** The points of a goroutine that are final. *)
Definition finished (t : thread) : bool :=
  match t with TReturned _ _ | TResolved | TClosed => true | _ => false end.
(** The points in a [select], which wait for the daemon or the caller. *)
Definition selecting (t : thread) : bool :=
  match t with TEnqueue _ _ | TAwait _ _ => true | _ => false end.

(** C5. No interleaving of requests, responses and closes makes the program
    panic: a channel is never closed twice and nothing is ever sent on a
    closed channel.  A response that a request returns carries the id of that
    request. *)
Theorem pending_safe (st : State) :
  reachable_state st →
  panicked st = false ∧
  ∀ tid id resp, threads st !! tid = Some (TReturned id (Ok resp)) → ResponseId resp = id.
Proof.
  intros Hi%reachable_inv. split; [apply Hi|]. intros tid id resp Ht.
  exact (inv_thread _ Hi _ _ Ht).
Qed.

(** No goroutine blocks where it must not.  Outside the two selects every
    unfinished goroutine has a next step: in particular the receive loop never
    blocks on the channel of a response.  In a select, a goroutine can leave
    as soon as its context is done or the session is closed; and one that
    awaits its response can take it, or see the channel closed, unless the
    channel is still registered or about to be closed by a goroutine. *)
Theorem pending_progress (st : State) (tid : nat) (t : thread) :
  reachable_state st → threads st !! tid = Some t → finished t = false →
  (selecting t = false → ∃ c st', exec tid c st = Some st') ∧
  (selecting t = true → is_Some (exec tid CtxDone st) ∧
     (closed st = true → is_Some (exec tid SessionClosed st))) ∧
  (∀ id ch, t = TAwait id ch →
     is_Some (exec tid Go st) ∨ (∃ id', pending st !! id' = Some ch) ∨
     (∃ tid' t', threads st !! tid' = Some t' ∧ ch ∈ holds t' ∧ selecting t' = false ∧ finished t' = false)).
Proof.
  intros Hr Ht Hf. pose proof (reachable_inv _ Hr) as Hi. pose proof (reachable_tracked _ Hr) as Htr.
  split_and!.
  - intros Hs. unfold exec. rewrite Ht. simpl.
    destruct t as [req|req|req ch|id ch|id ch r|id ch r|id r|resp|ch resp|ch| |err| |chs| |off req];
      try done; try (by exists Go; eexists).
    + destruct (inv_thread _ Hi _ _ Ht) as (c & Hc & Hb & _).
      destruct (inv_held _ Hi tid _ ch Ht ltac:(simpl; set_solver)) as (c' & Hc' & Hopen).
      exists Go. unfold send_chan. rewrite Hc, Hb. assert (c' = c) as -> by congruence.
      rewrite Hopen. simpl. by eexists.
    + destruct (decide (chs = ∅)) as [He|He].
      * by exists Go; eexists.
      * apply set_choose_L in He as [ch Hch]. exists (Pick ch). eexists. by rewrite decide_True.
  - intros Hs. unfold exec. rewrite Ht. simpl. destruct t; try done; simpl; (split; [by eexists|]);
      intros ->; by eexists.
  - intros id ch ->. unfold exec. rewrite Ht. simpl.
    destruct (inv_thread _ Hi _ _ Ht) as (c & Hc & _). unfold recv_chan. rewrite Hc.
    destruct (buf c); [left; by eexists|]. destruct (chan_closed c) eqn:Hcl; [left; by eexists|]. right.
    destruct (Htr ch c Hc Hcl) as [?|(tid' & t' & Ht' & Hin)]; [by left|right].
    exists tid', t'. split_and!; [done..| |]; by destruct t'; try (apply elem_of_empty in Hin).
Qed.

(** Nothing is left behind.  When every request has returned, no request is
    registered; when every goroutine has finished, every channel that was ever
    made is closed. *)
Theorem pending_quiescent (st : State) :
  reachable_state st →
  ((∀ tid t, threads st !! tid = Some t → waits t = None) → pending st = ∅) ∧
  ((∀ tid t, threads st !! tid = Some t → finished t = true) →
     pending st = ∅ ∧ ∀ ch c, chans st !! ch = Some c → chan_closed c = true).
Proof.
  intros Hr. pose proof (reachable_inv _ Hr) as Hi. pose proof (reachable_tracked _ Hr) as Htr.
  assert (Hp : (∀ tid t, threads st !! tid = Some t → waits t = None) → pending st = ∅).
  { intros Hw. apply map_eq. intros id. rewrite lookup_empty. apply eq_None_not_Some.
    intros [ch Hid]. destruct (inv_waiter _ Hi _ _ Hid) as (tid & t & Ht & Hwt).
    by rewrite (Hw tid t Ht) in Hwt. }
  split; [done|]. intros Hfin.
  assert (Hnil : pending st = ∅).
  { apply Hp. intros tid t Ht. specialize (Hfin tid t Ht). by destruct t. }
  split; [done|]. intros ch c Hc. destruct (chan_closed c) eqn:Ho; [done|].
  destruct (Htr ch c Hc Ho) as [[id Hid]|(tid & t & Ht & Hin)].
  - by rewrite Hnil, lookup_empty in Hid.
  - specialize (Hfin tid t Ht). destruct t; try done; by apply elem_of_empty in Hin.
Qed.

(** ** Concrete schedules *)

Inductive action : Type :=
  | AExec (tid : nat) (c : choice)
  | ARequest (tid : nat) (offline : bool) (req : FileRequest)
  | AResponse (tid : nat) (resp : FileResponse)
  | AClose (tid : nat) (err : option error)
  | ASend.

Definition act (a : action) (st : State) : option State :=
  match a with
  | AExec tid c => exec tid c st
  | ARequest tid offline req =>
    match threads st !! tid with None => Some (set_thread tid (TRequest offline req) st) | Some _ => None end
  | AResponse tid resp =>
    match threads st !! tid with None => Some (set_thread tid (TResolve resp) st) | Some _ => None end
  | AClose tid err =>
    match threads st !! tid with None => Some (set_thread tid (TClose err) st) | Some _ => None end
  | ASend =>
    match sendCh st with
    | _ :: rest => Some (mk_State (pending st) (chans st) (nextCh st) (closed st) (closeErr st) rest
                           (threads st) (panicked st))
    | [] => None
    end
  end.

Fixpoint schedule (l : list action) (st : State) : option State :=
  match l with [] => Some st | a :: l => st' ← act a st; schedule l st' end.

Lemma schedule_reachable l st : schedule l init = Some st → reachable_state st.
Proof.
  assert (Hg : ∀ l st0, reachable_state st0 → schedule l st0 = Some st → reachable_state st).
  { clear l. induction l as [|a l IH]; intros st0 Hr; simpl; [by intros [= <-]|].
    destruct (act a st0) as [st1|] eqn:Ha; [simpl|done]. apply IH.
    eapply reachable_step; [exact Hr|]. destruct a; simpl in Ha.
    - by eapply step_exec.
    - destruct (threads st0 !! tid) eqn:E; simplify_eq. by apply step_request.
    - destruct (threads st0 !! tid) eqn:E; simplify_eq. by apply step_response.
    - destruct (threads st0 !! tid) eqn:E; simplify_eq. by apply step_close.
    - destruct (sendCh st0) eqn:E; simplify_eq. by eapply step_send. }
  apply Hg. by apply reachable_init.
Qed.

(** A request is answered while the session is being closed. *)
Definition witness_schedule : list action :=
  [ARequest 0 false (mk_FileRequest "u-1" (Some (ReqStat "a"))); AExec 0 Go; AExec 0 Go; AExec 0 Go; AExec 0 Go; ASend;
   AResponse 1 (mk_FileResponse "u-1" true "" None); AExec 1 Go; AClose 2 None; AExec 2 Go; AExec 2 Go;
   AExec 1 Go].
Definition witness_end : list action :=
  witness_schedule ++ [AExec 0 Go; AExec 0 Go; AExec 1 Go; AExec 2 Go].

Definition state_after (l : list action) : State := default init (schedule l init).

Lemma state_after_reachable l : is_Some (schedule l init) → reachable_state (state_after l).
Proof. intros [st Hst]. unfold state_after. rewrite Hst. by eapply schedule_reachable. Qed.

Lemma pending_safe_witness :
  panicked (state_after witness_end) = false ∧
  threads (state_after witness_end) !! 0
    = Some (TReturned "u-1" (Ok (mk_FileResponse "u-1" true "" None))).
Proof.
  split; [|vm_compute; reflexivity].
  refine (proj1 (pending_safe (state_after witness_end) (state_after_reachable witness_end _))).
  vm_compute. by eexists.
Defined.

Lemma pending_progress_witness :
  is_Some (exec 0 CtxDone (state_after witness_schedule)).
Proof.
  assert (Hr : reachable_state (state_after witness_schedule)).
  { apply state_after_reachable. vm_compute. by eexists. }
  assert (Ht : threads (state_after witness_schedule) !! 0 = Some (TAwait "u-1" 0))
    by (vm_compute; reflexivity).
  destruct (pending_progress _ 0 _ Hr Ht eq_refl) as (_ & Hs & _).
  exact (proj1 (Hs eq_refl)).
Defined.

Lemma pending_quiescent_witness :
  reachable_state (state_after witness_end) ∧ pending (state_after witness_end) = ∅.
Proof.
  assert (Hr : reachable_state (state_after witness_end)).
  { apply state_after_reachable. vm_compute. by eexists. }
  split; [exact Hr|]. destruct (pending_quiescent (state_after witness_end) Hr) as [Hq _].
  apply Hq. apply (bool_decide_unpack (map_Forall (λ _ t, waits t = None) _)).
  vm_compute. exact I.
Defined.
