(* ===== verification/Auth.v ===== *)
(** * Token authentication (pkg/auth/auth.go)

    A gRPC context carries the incoming metadata and, once an interceptor has
    run, the user id.  [metadata.FromIncomingContext] and [MD.Get] belong to
    gRPC: a context has the result of the first, and the second is the lookup
    function of the metadata. *)
From S2P Require Import Prelude.
From stdpp Require Import options.

Inductive error : Type := ErrMissingMetadata | ErrMissingToken | ErrInvalidToken.

#[export] Instance error_eq_dec : EqDecision error.
Proof. solve_decision. Defined.

(** [metadata.MD], by its [Get] *)
Abbreviation MD := (string → list string).

Record Context : Type := mk_Context {
  incoming : option MD;
  outgoing : option (string * string);   (* the pair of NewOutgoingContext *)
  userIDValue : option string;            (* the value under userIDCtxKey *)
}.

Definition MetadataKey : string := "x-rclaude-token".

(** The interface [Verifier]. *)
Class Verifier := Verify : string → option string.

(** [staticVerifier] *)
Definition NewStaticVerifier (tokens : gmap string string) : Verifier := λ token, tokens !! token.

Definition WithUserID (ctx : Context) (userID : string) : Context :=
  mk_Context (incoming ctx) (outgoing ctx) (Some userID).

Definition UserIDFromContext (ctx : option Context) : option string :=
  match ctx with
  | None => None
  | Some ctx =>
    match userIDValue ctx with
    | Some v => if decide (v = "") then None else Some v
    | None => None
    end
  end.

Definition NewOutgoingContext (ctx : Context) (token : string) : Context :=
  mk_Context (incoming ctx) (Some (MetadataKey, token)) (userIDValue ctx).

(** The gRPC status of an interceptor that refuses, or what the handler returns. *)
Inductive reply (A : Type) : Type :=
  | Unauthenticated (e : error)
  | Handled (a : A).
Arguments Unauthenticated {A} e.
Arguments Handled {A} a.

Section interceptors.
Context `{Verifier}.

Definition FromIncomingContext (ctx : Context) : result error string :=
  match incoming ctx with
  | None => Err ErrMissingMetadata
  | Some md =>
    match md MetadataKey with
    | [] => Err ErrMissingToken
    | token :: _ =>
      if decide (token = "") then Err ErrMissingToken
      else match Verify token with
           | Some uid => Ok uid
           | None => Err ErrInvalidToken
           end
    end
  end.

Definition UnaryServerInterceptor {A} (handler : Context → A) (ctx : Context) : reply A :=
  match FromIncomingContext ctx with
  | Err e => Unauthenticated e
  | Ok uid => Handled (handler (WithUserID ctx uid))
  end.

(** The handler gets the stream with its context replaced. *)
Definition StreamServerInterceptor {A} (handler : Context → A) (ctx : Context) : reply A :=
  match FromIncomingContext ctx with
  | Err e => Unauthenticated e
  | Ok uid => let ws := WithUserID ctx uid in Handled (handler ws)
  end.

(** ** Properties *)

(** Authentication.  A stream handler runs exactly when the first value
    of the token header is not empty and the verifier accepts it, and then
    in a context from which [UserIDFromContext] reads the user the verifier
    named (or nobody, when the verifier names the empty user); every other
    call is refused as unauthenticated, with the error that says why.  The
    unary interceptor decides in the same way. *)
Theorem interceptor_authenticates {A} (handler : Context → A) (ctx : Context) :
  (∀ a, StreamServerInterceptor handler ctx = Handled a ↔
     ∃ md token rest uid, incoming ctx = Some md ∧ md MetadataKey = token :: rest ∧
       token ≠ "" ∧ Verify token = Some uid ∧ a = handler (WithUserID ctx uid) ∧
       UserIDFromContext (Some (WithUserID ctx uid)) = if decide (uid = "") then None else Some uid) ∧
  (∀ e, StreamServerInterceptor handler ctx = Unauthenticated e ↔
     match e with
     | ErrMissingMetadata => incoming ctx = None
     | ErrMissingToken => ∃ md, incoming ctx = Some md ∧
                            (md MetadataKey = [] ∨ head (md MetadataKey) = Some "")
     | ErrInvalidToken => ∃ md token, incoming ctx = Some md ∧ head (md MetadataKey) = Some token ∧
                            token ≠ "" ∧ Verify token = None
     end) ∧
  UnaryServerInterceptor handler ctx = StreamServerInterceptor handler ctx.
Proof.
  assert (Hcases :
    (FromIncomingContext ctx = Err ErrMissingMetadata ∧ incoming ctx = None) ∨
    (FromIncomingContext ctx = Err ErrMissingToken ∧ ∃ md, incoming ctx = Some md ∧
       (md MetadataKey = [] ∨ head (md MetadataKey) = Some "")) ∨
    (∃ md token rest, incoming ctx = Some md ∧ md MetadataKey = token :: rest ∧ token ≠ "" ∧
       FromIncomingContext ctx = match Verify token with
         Some uid => Ok uid | None => Err ErrInvalidToken end)).
  { unfold FromIncomingContext. destruct (incoming ctx) as [md|]; [|by left].
    right. destruct (md MetadataKey) as [|token rest] eqn:Hmd.
    - left. split; [done|]. exists md. auto.
    - case_decide as Ht; [left|right; by exists md, token, rest].
      split; [done|]. exists md. rewrite Hmd, Ht. auto. }
  unfold UnaryServerInterceptor, StreamServerInterceptor, UserIDFromContext. simpl.
  destruct Hcases as [[-> Hmd]|[[-> (md & Hmd & Hm)]|(md & token & rest & Hmd & Hm & Hne & ->)]].
  - rewrite Hmd. split_and!; [|intros []; (split; try done)|done].
    + intros a. split; [done|]. by intros (? & ? & ? & ? & ? & _).
    + by intros (? & ? & _).
    + by intros (? & ? & ? & _).
  - rewrite Hmd. split_and!; [|intros []; (split; try done)|done].
    + intros a. split; [done|]. intros (? & ? & ? & ? & [= <-] & Hk & ? & _).
      rewrite Hk in Hm. simpl in Hm. destruct Hm; congruence.
    + intros _. by exists md.
    + intros (? & ? & [= <-] & Hk & ? & _). destruct Hm as [Hm|Hm]; rewrite ?Hm in Hk; simpl in Hk; congruence.
  - rewrite Hmd. destruct (Verify token) as [uid|] eqn:Hv.
    + split_and!; [|intros []; (split; try done)|done].
      * intros a. split; [intros [= <-]; by exists md, token, rest, uid|].
        intros (? & ? & ? & ? & [= <-] & Hk & ? & Hv' & -> & _). rewrite Hm in Hk. by simplify_eq.
      * intros (? & [= <-] & [Hk|Hk]); rewrite Hm in Hk; simpl in Hk; congruence.
      * intros (? & ? & [= <-] & Hk & ? & Hv'). rewrite Hm in Hk. simpl in Hk. congruence.
    + split_and!; [|intros []; (split; try done)|done].
      * intros a. split; [done|]. intros (? & ? & ? & ? & [= <-] & Hk & ? & Hv' & _).
        rewrite Hm in Hk. congruence.
      * intros (? & [= <-] & [Hk|Hk]); rewrite Hm in Hk; simpl in Hk; congruence.
      * intros _. exists md, token. by rewrite Hm.
Qed.
End interceptors.
