(* ===== verification/Manager.v ===== *)
(** * The session registry and the RemoteFS service
    (pkg/session/manager.go, service.go, and [Serve] of session.go)

    The manager holds pointers to sessions and compares them by identity, so
    sessions live in a heap; a pointer that is not in the heap is nil.  Each
    method holds the lock of the manager for its whole body and is one
    transition.  Every [time.Now()] is an argument. *)
From S2P Require Import Prelude GoPath PathFacts Safepath RelPath Proto.
From S2P Require Session FsTree ContentCache Auth.
From stdpp Require Import pretty.
From stdpp Require Import options.

(** A [*Session]. *)
Abbreviation pointer := nat.

Inductive error : Type :=
  | ErrNilSession
  | ErrEmptyUserID
  | ErrPTYBusy.

#[export] Instance error_eq_dec : EqDecision error.
Proof. solve_decision. Defined.

Record ManagerOptions : Type := mk_options {
  RequestTimeout : Z;
  CacheMaxBytes : Z;
  OfflineReadOnlyTTL : Z;
  PrefetchEnabled : bool;
  PrefetchMaxFileBytes : Z;
  PrefetchMaxFilesPerDir : Z;
}.

Record Manager : Type := mk_Manager {
  sessions : gmap string pointer;
  heap : gmap pointer Session.Session;
  activePTY : gmap string string;
  nextPTYID : Z;
  opts : ManagerOptions;
}.

Definition NewManager (cfg : ManagerOptions) : Manager := mk_Manager ∅ ∅ ∅ 0 cfg.

Definition set_sessions (l : gmap string pointer) (m : Manager) : Manager :=
  mk_Manager l (heap m) (activePTY m) (nextPTYID m) (opts m).
Definition set_session (p : pointer) (s : Session.Session) (m : Manager) : Manager :=
  mk_Manager (sessions m) (<[p := s]> (heap m)) (activePTY m) (nextPTYID m) (opts m).
Definition set_pty (a : gmap string string) (n : Z) (m : Manager) : Manager :=
  mk_Manager (sessions m) (heap m) a n (opts m).

Definition deref (m : Manager) (p : pointer) : option Session.Session := heap m !! p.

(** [s.UserID()] and [s.IsExpired(now)], also for a nil pointer *)
Definition UserID (m : Manager) (p : pointer) : string :=
  match deref m p with Some s => Session.UserID s | None => "" end.
Definition IsExpired (m : Manager) (p : pointer) (now : Z) : bool :=
  match deref m p with Some s => Session.IsExpired now (Some now) s | None => false end.

Definition sessionClosed (m : Manager) (p : pointer) : bool :=
  match deref m p with Some s => Session.closed s | None => true end.

(** [m.NewSession(userID)]: a pointer that is not in use *)
Definition NewSession (userID : string) (m : Manager) : Manager * pointer :=
  let p := fresh (dom (heap m)) in
  (set_session p (Session.NewSession userID (CacheMaxBytes (opts m))) m, p).

Definition removeExpired (now : Z) (userID : string) (expired : pointer) (m : Manager) : Manager :=
  match sessions m !! userID with
  | Some cur =>
    if bool_decide (cur = expired) && IsExpired m cur now
    then set_sessions (delete userID (sessions m)) m else m
  | None => m
  end.

(** The lookup under the read lock and, for an expired session, the removal
    under the write lock, at the second reading of the clock. *)
Definition Get (now1 now2 : Z) (userID : string) (m : Manager) : Manager * option pointer :=
  match sessions m !! userID with
  | None => (m, None)
  | Some s =>
    if IsExpired m s now1 then (removeExpired now2 userID s m, None) else (m, Some s)
  end.

Definition nextPTYSessionIDLocked (userID : string) (m : Manager) : Manager * string :=
  let n := uint64 (nextPTYID m + 1) in
  (set_pty (activePTY m) n m, userID +:+ "-pty-" +:+ pretty (Z.to_N n)).

Definition RegisterPTY (userID : string) (m : Manager) : Manager * result error string :=
  if decide (userID = "") then (m, Err ErrEmptyUserID)
  else match activePTY m !! userID with
       | Some _ => (m, Err ErrPTYBusy)
       | None =>
         let '(m, sessionID) := nextPTYSessionIDLocked userID m in
         (set_pty (<[userID := sessionID]> (activePTY m)) (nextPTYID m) m, Ok sessionID)
       end.

Definition UnregisterPTY (userID sessionID : string) (m : Manager) : Manager * bool :=
  if bool_decide (userID = "") || bool_decide (sessionID = "") then (m, false)
  else match activePTY m !! userID with
       | None => (m, false)
       | Some current =>
         if decide (current ≠ sessionID) then (m, false)
         else (set_pty (delete userID (activePTY m)) (nextPTYID m) m, true)
       end.

Definition Remove (p : option pointer) (m : Manager) : Manager :=
  match p with
  | None => m
  | Some p =>
    if decide (UserID m p = "") then m
    else match sessions m !! UserID m p with
         | Some current =>
           if decide (current = p) then set_sessions (delete (UserID m p) (sessions m)) m else m
         | None => m
         end
  end.

Section operations.
Context `{MapRange}.

Definition pruneExpiredLocked (now : Z) (m : Manager) : Manager :=
  foldl (λ m userID,
    match sessions m !! userID with
    | Some current =>
      if IsExpired m current now then set_sessions (delete userID (sessions m)) m else m
    | None => m
    end) m (range_keys (dom (sessions m))).

(** Returns the session that was registered before. *)
Definition Register (now : Z) (p : option pointer) (m : Manager) :
    Manager * result error (option pointer) :=
  match p with
  | None => (m, Err ErrNilSession)
  | Some p =>
    if decide (UserID m p = "") then (m, Err ErrEmptyUserID)
    else
      let m := pruneExpiredLocked now m in
      let prev := sessions m !! UserID m p in
      (set_sessions (<[UserID m p := p]> (sessions m)) m, Ok prev)
  end.

Definition LookupDaemon (now : Z) (userID : string) (m : Manager) : Manager * option pointer :=
  if decide (userID = "") then (m, None)
  else
    let m := pruneExpiredLocked now m in
    match sessions m !! userID with
    | None => (m, None)
    | Some current => if sessionClosed m current then (m, None) else (m, Some current)
    end.

Definition UserIDs (now : Z) (m : Manager) : Manager * list string :=
  let m := pruneExpiredLocked now m in
  (m, sort_strings (range_keys (dom (sessions m)))).

(** [now1] is when the retention starts, [now2] when expired sessions are
    looked for. *)
Definition HandleDisconnect (now1 now2 : Z) (current : option pointer)
    (serveErr : option Session.error) (m : Manager) : Manager :=
  match current with
  | None => m
  | Some current =>
    if decide (UserID m current = "") then m
    else match sessions m !! UserID m current with
         | None => m
         | Some live =>
           if decide (live ≠ current) then m
           else if bool_decide (serveErr = Some Session.ErrSessionReplaced)
                     || bool_decide (OfflineReadOnlyTTL (opts m) ≤ 0)%Z
           then set_sessions (delete (UserID m current) (sessions m)) m
           else
             let m := match deref m current with
                      | Some s => set_session current
                          (fst (Session.RetainOffline (Some (now1 + OfflineReadOnlyTTL (opts m))%Z) s)) m
                      | None => m
                      end in
             pruneExpiredLocked now2 m
         end
  end.
End operations.

(** [prev.closeWithError(err)] *)
Definition closeWithError (err : option Session.error) (p : pointer) (m : Manager) : Manager :=
  match deref m p with
  | Some s => set_session p (Session.closeWithError err s) m
  | None => m
  end.

(** ** The stream of a session (Serve, runRecvLoop, runSendLoop) *)

(** What [stream.Recv] fails with. *)
Inductive recv_error : Type := RecvEOF | RecvCanceled | RecvOther (text : string).

Definition nilOrWrapped (e : recv_error) : option Session.error :=
  match e with
  | RecvEOF | RecvCanceled => None
  | RecvOther t => Some (Session.StreamRecv t)
  end.

Section serve.
Context `{MapRange}.

(** The messages received, each with the time of its heartbeat, and then the
    error of [Recv], with whether the context was done.  Returns the number
    of messages handled. *)
Fixpoint runRecvLoop (msgs : list (Z * option DaemonMessage)) (ctxDone : bool) (fin : recv_error)
    (s : Session.Session) : Session.Session * option Session.error * nat :=
  match msgs with
  | [] => (s, if ctxDone then None else nilOrWrapped fin, 0)
  | (now, msg) :: msgs' =>
    match Session.handleDaemonMessage now msg s with
    | (s, Some err) => (s, Some err, 1)
    | (s, None) =>
      let '(s, err, n) := runRecvLoop msgs' ctxDone fin s in (s, err, S n)
    end
  end.

(** The messages taken from the queue, each with the error of its [Send] and
    whether the context was done by then; the loop ends with the context.
    Returns the messages sent. *)
Fixpoint runSendLoop (queue : list (option ServerMessage * option (string * bool))) :
    list ServerMessage * option Session.error :=
  match queue with
  | [] => ([], None)
  | (None, _) :: queue' => runSendLoop queue'
  | (Some msg, None) :: queue' => let '(sent, err) := runSendLoop queue' in (msg :: sent, err)
  | (Some _, Some (text, ctxDone)) :: _ =>
    ([], if ctxDone : bool then None else Some (Session.StreamSend text))
  end.

Definition Serve (msgs : list (Z * option DaemonMessage)) (ctxDone : bool) (fin : recv_error)
    (queue : list (option ServerMessage * option (string * bool))) (s : Session.Session) :
    Session.Session * option Session.error :=
  let '(s, recvErr, _) := runRecvLoop msgs ctxDone fin s in
  let '(_, sendErr) := runSendLoop queue in
  let finalErr := Session.firstNonNil [recvErr; sendErr] in
  (Session.closeWithError finalErr s, finalErr).
End serve.

(** ** The RemoteFS service (service.go) *)

Inductive status : Type :=
  | Unauthenticated
  | RecvFailed (text : string)
  | InvalidBootstrap (e : Session.error)
  | InvalidSession (e : error).

Section connect.
Context `{MapRange}.

(** [Connect] up to [Serve]: the pointer of the registered session. *)
Definition Connect_open (now1 now2 : Z) (ctx : option Auth.Context)
    (initial : result string (option DaemonMessage)) (m : Manager) : Manager * result status pointer :=
  match Auth.UserIDFromContext ctx with
  | None => (m, Err Unauthenticated)
  | Some userID =>
    match initial with
    | Err text => (m, Err (RecvFailed text))
    | Ok initial =>
      let '(m, current) := NewSession userID m in
      match deref m current with
      | None => (m, Err (InvalidSession ErrNilSession))
      | Some s =>
        match Session.Bootstrap now1 initial s with
        | (s, Some bootstrapErr) => (set_session current s m, Err (InvalidBootstrap bootstrapErr))
        | (s, None) =>
          let m := set_session current s m in
          match Register now2 (Some current) m with
          | (m, Err err) => (m, Err (InvalidSession err))
          | (m, Ok prev) =>
            let m := match prev with
                     | Some prev => closeWithError (Some Session.ErrSessionReplaced) prev m
                     | None => m
                     end in
            (m, Ok current)
          end
        end
      end
    end
  end.

(** The rest of [Connect], once [Serve] has returned [serveErr]. *)
Definition Connect_close (now1 now2 : Z) (current : pointer) (serveErr : option Session.error)
    (m : Manager) : Manager :=
  HandleDisconnect now1 now2 (Some current) serveErr m.
End connect.

(** ** Lemmas *)

(** A registered pointer is a session of that user. *)
Definition wf (m : Manager) : Prop :=
  ∀ u p, sessions m !! u = Some p → ∃ s, deref m p = Some s ∧ Session.userID s = u ∧ u ≠ "".

Lemma wf_UserID m u p : wf m → sessions m !! u = Some p → UserID m p = u ∧ u ≠ "".
Proof.
  intros Hm Hp. destruct (Hm u p Hp) as (s & Hs & Hu & Hne). unfold UserID. rewrite Hs. done.
Qed.

Lemma set_sessions_twice l l' m1 m : m1 = set_sessions l' m → set_sessions l m1 = set_sessions l m.
Proof. by intros ->. Qed.

Section lemmas.
Context `{MapRange}.

(** Pruning removes the expired sessions and nothing else. *)
Lemma prune_spec now m :
  let m' := pruneExpiredLocked now m in
  m' = set_sessions (sessions m') m ∧
  ∀ u, sessions m' !! u =
    match sessions m !! u with
    | Some p => if IsExpired m p now then None else Some p
    | None => None
    end.
Proof.
  assert (Hgen : ∀ ks m, let m' := foldl (λ m userID,
      match sessions m !! userID with
      | Some current =>
        if IsExpired m current now then set_sessions (delete userID (sessions m)) m else m
      | None => m
      end) m ks in
    m' = set_sessions (sessions m') m ∧
    ∀ u, sessions m' !! u =
      match sessions m !! u with
      | Some p => if bool_decide (u ∈ ks) && IsExpired m p now then None else Some p
      | None => None
      end).
  { clear m. induction ks as [|k ks IH]; intros m; cbn [foldl].
    { split; [by destruct m|]. intros u. by destruct (sessions m !! u). }
    set (m1 := match sessions m !! k with Some _ => _ | None => m end).
    assert (Hm1 : m1 = set_sessions (sessions m1) m ∧ ∀ u, sessions m1 !! u =
      match sessions m !! u with
      | Some p => if bool_decide (u = k) && IsExpired m p now then None else Some p
      | None => None
      end).
    { unfold m1. destruct (sessions m !! k) as [p|] eqn:Hk.
      - destruct (IsExpired m p now) eqn:He.
        + split; [done|]. intros u. simpl. destruct (decide (u = k)) as [->|Hne].
          * by rewrite lookup_delete_eq, Hk, bool_decide_eq_true_2, He.
          * rewrite lookup_delete_ne, bool_decide_eq_false_2 by done. by destruct (sessions m !! u).
        + split; [by destruct m|]. intros u. destruct (sessions m !! u) as [q|] eqn:Hu; [|done].
          case_bool_decide as E; [|done]. simpl. subst u. assert (q = p) as -> by congruence. by rewrite He.
      - split; [by destruct m|]. intros u. destruct (sessions m !! u) as [q|] eqn:Hu; [|done].
        case_bool_decide as E; [|done]. congruence. }
    destruct Hm1 as [Heq1 Hl1]. destruct (IH m1) as [Heq2 Hl2].
    split; [etrans; [exact Heq2|]; by eapply set_sessions_twice|]. intros u. rewrite Hl2, Hl1.
    destruct (sessions m !! u) as [p|]; [|done].
    assert (IsExpired m1 p now = IsExpired m p now) as Hexp by by rewrite Heq1.
    destruct (IsExpired m p now) eqn:He.
    - destruct (decide (u = k)) as [->|Hne].
      + rewrite (bool_decide_eq_true_2 (k = k)) by done.
        rewrite (bool_decide_eq_true_2 (k ∈ k :: ks)) by set_solver. done.
      + rewrite (bool_decide_eq_false_2 (u = k)) by done. simpl. rewrite Hexp.
        rewrite (bool_decide_ext (u ∈ k :: ks) (u ∈ ks)) by set_solver. done.
    - rewrite andb_false_r, Hexp, !andb_false_r. done. }
  unfold pruneExpiredLocked. destruct (Hgen (range_keys (dom (sessions m))) m) as [Heq Hl].
  split; [exact Heq|]. intros u. rewrite Hl. destruct (sessions m !! u) as [p|] eqn:Hu; [|done].
  rewrite bool_decide_eq_true_2; [done|]. rewrite elem_of_range_keys. by eapply elem_of_dom_2.
Qed.

Lemma prune_wf now m : wf m → wf (pruneExpiredLocked now m).
Proof.
  intros Hm. destruct (prune_spec now m) as [Heq Hl]. intros u p. rewrite Hl, Heq.
  destruct (sessions m !! u) as [q|] eqn:Hu; [|done]. destruct (IsExpired m q now); [done|].
  intros [= <-]. by apply Hm.
Qed.

Lemma set_session_wf p s s' m :
  wf m → deref m p = Some s → Session.userID s' = Session.userID s → wf (set_session p s' m).
Proof.
  intros Hm Hp Hu u q Hq. destruct (Hm u q Hq) as (s0 & Hs0 & Hs0u & Hne). unfold deref in *. simpl.
  destruct (decide (q = p)) as [->|Hqp].
  - rewrite lookup_insert_eq. exists s'. split_and!; [done|congruence|done].
  - rewrite lookup_insert_ne by done. by exists s0.
Qed.

Lemma delete_wf u m : wf m → wf (set_sessions (delete u (sessions m)) m).
Proof. intros Hm v q Hq. simpl in Hq. apply lookup_delete_Some in Hq as [_ Hq]. by apply Hm. Qed.

Lemma closeWithError_userID e s : Session.userID (Session.closeWithError e s) = Session.userID s.
Proof. unfold Session.closeWithError. by destruct (Session.closed s). Qed.

Lemma RetainOffline_userID u s : Session.userID (fst (Session.RetainOffline u s)) = Session.userID s.
Proof. unfold Session.RetainOffline. destruct u; [|done]. by case_decide. Qed.

Lemma closeWithError_wf e p m : wf m → wf (closeWithError e p m).
Proof.
  intros Hm. unfold closeWithError. destruct (deref m p) as [s|] eqn:Hs; [|done].
  eapply set_session_wf; [done..|]. apply closeWithError_userID.
Qed.

Lemma HandleDisconnect_wf n1 n2 p e m : wf m → wf (HandleDisconnect n1 n2 p e m).
Proof.
  intros Hm. destruct p as [p|]; [|done]. simpl. case_decide; [done|].
  destruct (sessions m !! UserID m p) as [live|]; [|done]. case_decide; [done|].
  destruct (_ || _); [by apply delete_wf|]. apply prune_wf.
  destruct (deref m p) as [s|] eqn:Hs; [|done]. eapply set_session_wf; [done..|].
  by case_decide.
Qed.
End lemmas.

(** *** Ids of PTY sessions *)

Lemma str_app_cut a a' b b' c :
  str_elem c b = false → str_elem c b' = false →
  a +:+ String c b = a' +:+ String c b' → a = a' ∧ b = b'.
Proof.
  intros Hb Hb'. revert a'. induction a as [|x a IH]; intros [|x' a'];
    rewrite ?str_app_nil_l, ?str_app_cons; intros Heq.
  - by simplify_eq.
  - exfalso. injection Heq as -> ->. rewrite str_elem_app in Hb. simpl in Hb.
    rewrite bool_decide_eq_true_2 in Hb by done. by rewrite orb_true_r in Hb.
  - exfalso. injection Heq as <- <-. rewrite str_elem_app in Hb'. simpl in Hb'.
    rewrite bool_decide_eq_true_2 in Hb' by done. by rewrite orb_true_r in Hb'.
  - injection Heq as -> Heq. by destruct (IH a' Heq) as [-> ->].
Qed.

Lemma pretty_N_char_dash x : bool_decide (pretty_N_char x = "-"%char) = false.
Proof. by destruct x as [|[[[|[]|]|[[]|[]|]|]|[[[]|[]|]|[[]|[]|]|]|]]. Qed.

Lemma pretty_N_no_dash (n : N) : str_elem "-" (pretty n) = false.
Proof.
  assert (Hg : ∀ s, str_elem "-" s = false → str_elem "-" (pretty_N_go n s) = false).
  { induction (N.lt_wf_0 n) as [x _ IH]; intros s Hs.
    destruct (decide (0 < x)%N) as [Hx|Hx].
    - rewrite pretty_N_go_step by done. apply IH; [by apply N.div_lt|]. simpl.
      rewrite Hs, orb_false_r. apply pretty_N_char_dash.
    - assert (x = 0%N) as -> by lia. by rewrite pretty_N_go_0. }
  unfold pretty, pretty_N. case_decide; [done|by apply Hg].
Qed.

Definition pty_id (u : string) (k : Z) : string := u +:+ "-pty-" +:+ pretty (Z.to_N k).

Lemma pty_id_inj u u' k k' : (0 ≤ k)%Z → (0 ≤ k')%Z → pty_id u k = pty_id u' k' → u = u' ∧ k = k'.
Proof.
  intros Hk Hk' Heq. unfold pty_id in Heq.
  change ("-pty-" +:+ ?x) with ("-pty" +:+ String "-" x) in Heq.
  rewrite !str_app_assoc in Heq.
  apply str_app_cut in Heq as [Hu Hp%pretty_N_inj]; [|apply pretty_N_no_dash..].
  apply str_app_inj_r in Hu. split; [done|lia].
Qed.

(** ** Histories of the manager *)

Inductive op : Type :=
  | OpNewSession (userID : string)
  | OpUpdate (p : pointer) (ins : list Session.input)     (* what a session does by itself *)
  | OpRegister (now : Z) (p : option pointer)
  | OpGet (now1 now2 : Z) (userID : string)
  | OpLookupDaemon (now : Z) (userID : string)
  | OpRegisterPTY (userID : string)
  | OpUnregisterPTY (userID sessionID : string)
  | OpRemove (p : option pointer)
  | OpUserIDs (now : Z)
  | OpHandleDisconnect (now1 now2 : Z) (p : option pointer) (e : option Session.error)
  | OpClose (e : option Session.error) (p : pointer).

(** The id that the step has handed out, if any. *)
Definition apply `{MapRange} (o : op) (m : Manager) : Manager * option string :=
  match o with
  | OpNewSession u => (fst (NewSession u m), None)
  | OpUpdate p ins =>
    (match deref m p with Some s => set_session p (Session.run ins s) m | None => m end, None)
  | OpRegister now p => (fst (Register now p m), None)
  | OpGet n1 n2 u => (fst (Get n1 n2 u m), None)
  | OpLookupDaemon now u => (fst (LookupDaemon now u m), None)
  | OpRegisterPTY u =>
    match RegisterPTY u m with (m, Ok id) => (m, Some id) | (m, Err _) => (m, None) end
  | OpUnregisterPTY u id => (fst (UnregisterPTY u id m), None)
  | OpRemove p => (Remove p m, None)
  | OpUserIDs now => (fst (UserIDs now m), None)
  | OpHandleDisconnect n1 n2 p e => (HandleDisconnect n1 n2 p e m, None)
  | OpClose e p => (closeWithError e p m, None)
  end.

Fixpoint run `{MapRange} (ops : list op) (m : Manager) : Manager * list string :=
  match ops with
  | [] => (m, [])
  | o :: ops =>
    let '(m, id) := apply o m in
    let '(m, ids) := run ops m in
    (m, match id with Some id => id :: ids | None => ids end)
  end.

Definition ptys (m : Manager) : gmap string string * Z := (activePTY m, nextPTYID m).

Section ptys.
Context `{MapRange}.

Lemma prune_ptys now m : ptys (pruneExpiredLocked now m) = ptys m.
Proof. destruct (prune_spec now m) as [-> _]. done. Qed.

(** Only the two PTY operations touch the PTY registry. *)
Lemma apply_ptys o m :
  (∀ u, o ≠ OpRegisterPTY u) → (∀ u id, o ≠ OpUnregisterPTY u id) →
  ptys (fst (apply o m)) = ptys m ∧ snd (apply o m) = None.
Proof.
  intros H1 H2.
  destruct o as [u|p ins|now p|n1 n2 u|now u|u|u id|p|now|n1 n2 p e|e p]; (split; [|try done]); simpl;
    try (by destruct (H1 u)); try (by destruct (H2 u id)).
  - done.
  - by destruct (deref m p).
  - destruct p as [p|]; [|done]. simpl. case_decide; [done|]. apply (prune_ptys now m).
  - unfold Get, removeExpired. destruct (sessions m !! u) as [s|]; [|done].
    destruct (IsExpired m s n1); [|done]. by destruct (_ && _).
  - unfold LookupDaemon. case_decide; [done|]. pose proof (prune_ptys now m).
    destruct (sessions _ !! u); [|done]. by destruct (sessionClosed _ _).
  - unfold Remove. destruct p; [|done]. case_decide; [done|].
    destruct (sessions m !! _); [|done]. by case_decide.
  - apply (prune_ptys now m).
  - destruct p as [p|]; [|done]. simpl. case_decide; [done|].
    destruct (sessions m !! _); [|done]. case_decide; [done|]. destruct (_ || _); [done|].
    rewrite prune_ptys. by destruct (deref m p).
  - unfold closeWithError. by destruct (deref m p).
Qed.

Definition active_below (m : Manager) : Prop :=
  (0 ≤ nextPTYID m)%Z ∧
  ∀ u id, activePTY m !! u = Some id → ∃ k, (0 < k ≤ nextPTYID m)%Z ∧ id = pty_id u k.

Lemma apply_pty_ids o m :
  (0 ≤ nextPTYID m < 2 ^ 64 - 1)%Z →
  let '(m', id) := apply o m in
  (nextPTYID m ≤ nextPTYID m' ≤ nextPTYID m + 1)%Z ∧
  (id ≠ None → nextPTYID m' = nextPTYID m + 1)%Z ∧
  ∀ x, id = Some x → ∃ u, x = pty_id u (nextPTYID m').
Proof.
  intros Hn.
  assert (Hother : ptys (fst (apply o m)) = ptys m ∧ snd (apply o m) = None →
    let '(m', id) := apply o m in
    (nextPTYID m ≤ nextPTYID m' ≤ nextPTYID m + 1)%Z ∧
    (id ≠ None → nextPTYID m' = nextPTYID m + 1)%Z ∧
    ∀ x, id = Some x → ∃ u, x = pty_id u (nextPTYID m')).
  { destruct (apply o m) as [m' id]. intros [Hp Hid]. simpl in Hid. subst id.
    apply (f_equal snd) in Hp. simpl in Hp. rewrite Hp. split_and!; [lia..|done|done]. }
  destruct o; try (apply Hother, apply_ptys; done).
  - simpl. unfold RegisterPTY. case_decide; [simpl; split_and!; [lia..|done|done]|].
    destruct (activePTY m !! userID); [simpl; split_and!; [lia..|done|done]|]. simpl.
    rewrite (uint64_id (nextPTYID m + 1)) by lia. split_and!; [lia..|done|].
    intros x [= <-]. by exists userID.
  - simpl. unfold UnregisterPTY. destruct (_ || _); [simpl; split_and!; [lia..|done|done]|].
    destruct (activePTY m !! userID); [|simpl; split_and!; [lia..|done|done]].
    case_decide; simpl; (split_and!; [lia..|done|done]).
Qed.

Lemma run_pty_ids ops m :
  (0 ≤ nextPTYID m)%Z → (nextPTYID m + Z.of_nat (length ops) < 2 ^ 64)%Z →
  ∀ id, id ∈ snd (run ops m) → ∃ u k, id = pty_id u k ∧ (nextPTYID m < k)%Z.
Proof.
  revert m. induction ops as [|o ops IH]; intros m Hm Hl id; simpl; [by intros ?%not_elem_of_nil|].
  pose proof (apply_pty_ids o m ltac:(simpl in Hl; lia)) as Ha.
  destruct (apply o m) as [m1 x]. destruct Ha as (Hr & Hs & Hx).
  specialize (IH m1 ltac:(lia) ltac:(simpl in Hl; lia) id).
  destruct (run ops m1) as [m2 ids]. simpl in *. destruct x as [x|]; [|intros Hin].
  - intros [->|Hin]%elem_of_cons.
    + destruct (Hx x eq_refl) as [u ->]. exists u, (nextPTYID m1). split; [done|].
      rewrite Hs by done. lia.
    + destruct (IH Hin) as (u & k & ? & ?). exists u, k. split; [done|]. lia.
  - destruct (IH Hin) as (u & k & ? & ?). exists u, k. split; [done|]. lia.
Qed.

(** The registry of PTYs after one operation. *)
Lemma apply_activePTY o m u :
  activePTY (fst (apply o m)) !! u =
  match o with
  | OpRegisterPTY v =>
    if decide (v = u ∧ u ≠ "" ∧ activePTY m !! u = None)
    then Some (pty_id u (uint64 (nextPTYID m + 1))) else activePTY m !! u
  | OpUnregisterPTY v id =>
    if decide (v = u ∧ u ≠ "" ∧ id ≠ "" ∧ activePTY m !! u = Some id) then None else activePTY m !! u
  | _ => activePTY m !! u
  end.
Proof.
  assert (Hother : ptys (fst (apply o m)) = ptys m ∧ snd (apply o m) = None →
    activePTY (fst (apply o m)) = activePTY m).
  { intros [Hp _]. by apply (f_equal fst) in Hp. }
  destruct o as [| | | | |v|v id| | | |]; try (rewrite Hother; [done|]; apply apply_ptys; done).
  - simpl. unfold RegisterPTY. destruct (decide (v = "")) as [->|Hv].
    { simpl. rewrite decide_False; [done|]. intros (<- & ? & _). done. }
    destruct (activePTY m !! v) eqn:Hav.
    { simpl. rewrite decide_False; [done|]. intros (<- & _ & ?). congruence. }
    simpl. destruct (decide (v = u)) as [->|Hne].
    + by rewrite lookup_insert_eq, decide_True.
    + rewrite lookup_insert_ne by done. rewrite decide_False; [done|]. by intros (? & _).
  - simpl. unfold UnregisterPTY. destruct (decide (v = "")) as [->|Hv].
    { simpl. rewrite decide_False; [done|]. intros (<- & ? & _). done. }
    rewrite (bool_decide_eq_false_2 (v = "")) by done. simpl.
    case_bool_decide as Hid.
    { rewrite decide_False; [done|]. by intros (_ & _ & ? & _). }
    destruct (activePTY m !! v) as [cur|] eqn:Hav; cycle 1.
    { simpl. rewrite decide_False; [done|]. intros (<- & _ & _ & ?). congruence. }
    destruct (decide (cur ≠ id)) as [Hc|Hc].
    { simpl. rewrite decide_False; [done|]. intros (<- & _ & _ & ?). congruence. }
    simpl. apply dec_stable in Hc. subst cur. destruct (decide (v = u)) as [->|Hne].
    + by rewrite lookup_delete_eq, decide_True.
    + rewrite lookup_delete_ne by done. rewrite decide_False; [done|]. by intros (? & _).
Qed.

(** ** Properties *)

(** PTY ids are unique.  However the operations of the manager are
    mixed, no PTY session id is handed out twice, to whatever users, until
    the 64-bit counter wraps around. *)
Theorem pty_ids_unique (m : Manager) (ops : list op) :
  (0 ≤ nextPTYID m)%Z → (nextPTYID m + Z.of_nat (length ops) < 2 ^ 64)%Z →
  NoDup (snd (run ops m)).
Proof.
  revert m. induction ops as [|o ops IH]; intros m Hm Hl; [constructor|]. simpl.
  pose proof (apply_pty_ids o m ltac:(simpl in Hl; lia)) as Ha.
  destruct (apply o m) as [m1 x]. destruct Ha as (Hr & Hs & Hx).
  pose proof (IH m1 ltac:(lia) ltac:(simpl in Hl; lia)) as Hnd.
  pose proof (run_pty_ids ops m1 ltac:(lia) ltac:(simpl in Hl; lia)) as Hids.
  destruct (run ops m1) as [m2 ids]. simpl in *. destruct x as [x|]; [|done].
  constructor; [|done]. intros Hin. destruct (Hids x Hin) as (u' & k & -> & Hk).
  destruct (Hx _ eq_refl) as [u Heq]. apply pty_id_inj in Heq; lia.
Qed.

(** One PTY per user.  A registered PTY stays the only one of its user
    until it is unregistered with its own id: until then, whatever else
    happens, every attempt to register another for that user is refused as
    busy, and an attempt to unregister with another id is refused and
    changes nothing. *)
Theorem pty_exclusive (m : Manager) (ops : list op) (u id : string) :
  activePTY m !! u = Some id → u ≠ "" → OpUnregisterPTY u id ∉ ops →
  let m' := fst (run ops m) in
  activePTY m' !! u = Some id ∧
  RegisterPTY u m' = (m', Err ErrPTYBusy) ∧
  (∀ id', id' ≠ id → UnregisterPTY u id' m' = (m', false)) ∧
  (id ≠ "" → snd (UnregisterPTY u id m') = true ∧
     is_ok (snd (RegisterPTY u (fst (UnregisterPTY u id m')))) = true).
Proof.
  intros Ha Hu Hops m'. assert (Ha' : activePTY m' !! u = Some id).
  { unfold m'. clear m'. revert m Ha. induction ops as [|o ops IH]; intros m Ha; [done|]. simpl.
    pose proof (apply_activePTY o m u) as Ho. destruct (apply o m) as [m1 x].
    specialize (IH ltac:(set_solver) m1). destruct (run ops m1) as [m2 ids]. simpl in *.
    apply IH. rewrite Ho. rewrite not_elem_of_cons in Hops. destruct Hops as [Hne _].
    destruct o; try done.
    - rewrite decide_False; [done|]. intros (_ & _ & ?). congruence.
    - rewrite decide_False; [done|]. intros (-> & _ & _ & ?). congruence. }
  clearbody m'. split; [done|]. split_and!.
  - unfold RegisterPTY. by rewrite decide_False, Ha'.
  - intros id' Hne. unfold UnregisterPTY. rewrite (bool_decide_eq_false_2 (u = "")) by done. simpl.
    case_bool_decide; [done|]. rewrite Ha', decide_True; done.
  - intros Hid. unfold UnregisterPTY. rewrite (bool_decide_eq_false_2 (u = "")) by done. simpl.
    rewrite bool_decide_eq_false_2, Ha' by done. rewrite decide_False by tauto. simpl. split; [done|].
    unfold RegisterPTY. rewrite decide_False by done. simpl. by rewrite lookup_delete_eq.
Qed.
End ptys.

Section registry.
Context `{MapRange}.

Lemma fresh_not_used (m : Manager) : heap m !! fresh (dom (heap m)) = None.
Proof. apply not_elem_of_dom, is_fresh. Qed.

Lemma bootstrap_userID now msg s :
  Session.userID (fst (Session.Bootstrap now msg s)) = Session.userID s ∧
  Session.closed (fst (Session.Bootstrap now msg s)) = Session.closed s.
Proof.
  destruct msg as [[ft| | | |]|]; simpl; try done.
  destruct (CleanSegment _); [|done]. by rewrite Session.replaceTree_spec.
Qed.

(** A new connection takes over.  When [Connect] gets as far as serving,
    the user is the one the context names, the first message was a valid
    bootstrap, and the session registered for that user is the new one, open
    and bootstrapped.  The session it replaces, if it had not expired, is
    closed as replaced; the other users keep their sessions unless these had
    expired.  From then on the replaced session can do the new one no harm:
    its disconnection, its removal and its expiry change nothing. *)
Theorem connect_takes_over (m m' : Manager) (n1 n2 : Z) (ctx : option Auth.Context)
    (initial : result string (option DaemonMessage)) (p : pointer) :
  wf m → Connect_open n1 n2 ctx initial m = (m', Ok p) →
  ∃ u msg s, Auth.UserIDFromContext ctx = Some u ∧ initial = Ok msg ∧
    heap m !! p = None ∧ sessions m' !! u = Some p ∧ deref m' p = Some s ∧
    Session.Bootstrap n1 msg (Session.NewSession u (CacheMaxBytes (opts m))) = (s, None) ∧
    Session.userID s = u ∧ Session.closed s = false ∧
    (∀ v, v ≠ u → sessions m' !! v =
       match sessions m !! v with Some q => if IsExpired m q n2 then None else Some q | None => None end) ∧
    ∀ q old, sessions m !! u = Some q → deref m q = Some old →
      deref m' q = Some (if IsExpired m q n2 then old
                         else Session.closeWithError (Some Session.ErrSessionReplaced) old) ∧
      (∀ t1 t2 e, HandleDisconnect t1 t2 (Some q) e m' = m') ∧
      Remove (Some q) m' = m' ∧ (∀ t, removeExpired t u q m' = m').
Proof.
  intros Hwf. unfold Connect_open. destruct (Auth.UserIDFromContext ctx) as [u|] eqn:Hu; [|done].
  destruct initial as [msg|]; [|done]. unfold NewSession. set (q0 := fresh (dom (heap m))).
  pose proof (fresh_not_used m) as Hfresh. fold q0 in Hfresh.
  set (s0 := Session.NewSession u (CacheMaxBytes (opts m))).
  unfold deref at 1. simpl heap. rewrite lookup_insert_eq.
  pose proof (bootstrap_userID n1 msg s0) as [Hsu Hsc].
  destruct (Session.Bootstrap n1 msg s0) as [s [e|]] eqn:Hb; [done|]. simpl in Hsu, Hsc.
  set (m1 := set_session q0 s (set_session q0 s0 m)).
  assert (Hune : u ≠ "").
  { unfold Auth.UserIDFromContext in Hu. destruct ctx as [c|]; [|done].
    destruct (Auth.userIDValue c); [|done]. case_decide; [done|]. congruence. }
  assert (Hid : UserID m1 q0 = u).
  { unfold UserID, deref, m1. simpl. rewrite lookup_insert_eq. exact Hsu. }
  unfold Register. rewrite Hid, decide_False by done.
  destruct (prune_spec n2 m1) as [Heq Hl]. set (m2 := pruneExpiredLocked n2 m1) in *.
  assert (Hid2 : UserID m2 q0 = u) by (rewrite Heq; exact Hid). rewrite Hid2.
  assert (Hne : ∀ v q, sessions m !! v = Some q → q ≠ q0).
  { intros v q Hq ->. destruct (Hwf v q0 Hq) as (s1 & Hs1 & _). unfold deref in Hs1. congruence. }
  assert (Hderef : ∀ q, q ≠ q0 → deref m1 q = deref m q).
  { intros q Hq. unfold deref, m1. simpl. by rewrite !lookup_insert_ne. }
  assert (Hexp : ∀ q, q ≠ q0 → IsExpired m1 q n2 = IsExpired m q n2).
  { intros q Hq. unfold IsExpired. by rewrite Hderef. }
  assert (Hl' : ∀ v, sessions m2 !! v =
    match sessions m !! v with Some q => if IsExpired m q n2 then None else Some q | None => None end).
  { intros v. rewrite Hl. simpl. destruct (sessions m !! v) as [q|] eqn:Hv; [|done].
    rewrite Hexp; [done|]. by eapply Hne. }
  set (m3 := set_sessions (<[u := q0]> (sessions m2)) m2).
  assert (Hheap3 : heap m3 = heap m1) by (unfold m3; rewrite Heq; done).
  set (m4 := match sessions m2 !! u with Some prev => _ | None => m3 end).
  assert (Hs4 : sessions m4 = <[u := q0]> (sessions m2)).
  { unfold m4, closeWithError. destruct (sessions m2 !! u) as [prev|]; [|done].
    by destruct (deref m3 prev). }
  assert (Hd4 : ∀ q, deref m4 q =
    match sessions m2 !! u with
    | Some prev => if decide (q = prev)
                   then Session.closeWithError (Some Session.ErrSessionReplaced) <$> deref m1 q
                   else deref m1 q
    | None => deref m1 q
    end).
  { intros q. unfold m4, closeWithError. destruct (sessions m2 !! u) as [prev|]; cycle 1.
    { unfold deref. by rewrite Hheap3. }
    unfold deref. rewrite Hheap3. destruct (heap m1 !! prev) as [sp|] eqn:Hsp.
    - cbn [heap set_session]. rewrite Hheap3. destruct (decide (q = prev)) as [->|Hqp].
      + by rewrite lookup_insert_eq, Hsp.
      + by rewrite lookup_insert_ne.
    - rewrite Hheap3. destruct (decide (q = prev)) as [->|Hqp]; [by rewrite Hsp|done]. }
  intros [= <- <-]. exists u, msg, s.
  assert (Hprev : ∀ prev, sessions m2 !! u = Some prev → prev ≠ q0).
  { intros prev. rewrite Hl'. destruct (sessions m !! u) as [q|] eqn:Hq; [|done].
    destruct (IsExpired m q n2); [done|]. intros [= <-]. by eapply Hne. }
  assert (Hdq0 : deref m4 q0 = Some s).
  { rewrite Hd4. assert (deref m1 q0 = Some s) as -> by (unfold deref, m1; simpl; by rewrite lookup_insert_eq).
    destruct (sessions m2 !! u) as [prev|] eqn:Hp; [|done]. rewrite decide_False; [done|].
    intros <-. by apply (Hprev q0). }
  split_and!; [done..|by rewrite Hs4, lookup_insert_eq|done|done|exact Hsu|exact Hsc| |].
  { intros v Hv. by rewrite Hs4, lookup_insert_ne. }
  intros q old Hq Hold. pose proof (Hne u q Hq) as Hqne.
  assert (Hdq : deref m4 q = Some (if IsExpired m q n2 then old
      else Session.closeWithError (Some Session.ErrSessionReplaced) old)).
  { rewrite Hd4, Hl', Hq. destruct (IsExpired m q n2).
    - by rewrite Hderef.
    - rewrite decide_True by done. rewrite Hderef, Hold by done. done. }
  assert (Huq : UserID m4 q = u).
  { unfold UserID. rewrite Hdq. destruct (Hwf u q Hq) as (so & Hso & Hsou & _).
    assert (so = old) as -> by congruence. unfold Session.UserID.
    destruct (IsExpired m q n2); [done|]. by rewrite closeWithError_userID. }
  assert (Hcur : sessions m4 !! u = Some q0) by by rewrite Hs4, lookup_insert_eq.
  split; [done|]. split_and!.
  - intros t1 t2 e. unfold HandleDisconnect. rewrite Huq, decide_False, Hcur by done.
    by rewrite decide_True by done.
  - unfold Remove. rewrite Huq, decide_False, Hcur by done. by rewrite decide_False by done.
  - intros t. unfold removeExpired. rewrite Hcur. by rewrite bool_decide_eq_false_2 by done.
Qed.
End registry.

Section lifecycle.
Context `{MapRange}.

Lemma IsExpired_retained s until now :
  Session.closeErr s ≠ Some Session.ErrSessionReplaced →
  Session.IsExpired now (Some now) (fst (Session.RetainOffline (Some until) s)) =
    negb (bool_decide (now < until)%Z).
Proof. intros Hs. unfold Session.RetainOffline. by rewrite decide_False. Qed.

(** After a disconnection.  The live session of a user, when its stream
    ends, is dropped at once if it was replaced or if nothing is retained;
    otherwise [Get] goes on returning it exactly until the retention time
    has passed, and at the first [Get] after that it is removed; in that
    window it is an offline snapshot, and once closed it is never offered as
    a live daemon. *)
Theorem offline_retention (m : Manager) (u : string) (p : pointer) (s : Session.Session)
    (n1 n2 : Z) (e : option Session.error) :
  wf m → sessions m !! u = Some p → deref m p = Some s →
  Session.closeErr s ≠ Some Session.ErrSessionReplaced →
  (n2 < n1 + OfflineReadOnlyTTL (opts m))%Z →
  let m' := HandleDisconnect n1 n2 (Some p) e m in
  let limit := (n1 + OfflineReadOnlyTTL (opts m))%Z in
  if bool_decide (e = Some Session.ErrSessionReplaced) || bool_decide (OfflineReadOnlyTTL (opts m) ≤ 0)%Z
  then sessions m' !! u = None
  else ∀ t1 t2, (t1 ≤ t2)%Z →
    snd (Get t1 t2 u m') = (if decide (t1 < limit)%Z then Some p else None) ∧
    sessions (fst (Get t1 t2 u m')) !! u = (if decide (t1 < limit)%Z then Some p else None) ∧
    (∃ s', deref m' p = Some s' ∧
       Session.IsOfflineReadonly t1 (Some t1) s' = bool_decide (t1 < limit)%Z ∧
       Session.closed s' = Session.closed s) ∧
    (Session.closed s = true → snd (LookupDaemon t1 u m') = None).
Proof.
  intros Hwf Hu Hp Hrep Hn m' limit. destruct (wf_UserID m u p Hwf Hu) as [Huid Hune].
  unfold m', HandleDisconnect. rewrite Huid, decide_False, Hu by done.
  rewrite decide_False by (intros E; by apply E). fold limit in Hn.
  destruct (bool_decide (e = _) || bool_decide (_ ≤ 0)%Z) eqn:Hc.
  { simpl. apply lookup_delete_eq. }
  rewrite Hp. fold limit. set (s' := fst (Session.RetainOffline (Some limit) s)).
  set (m1 := set_session p s' m).
  assert (Hexp1 : ∀ t, IsExpired m1 p t = negb (bool_decide (t < limit)%Z)).
  { intros t. unfold IsExpired, deref, m1. simpl. rewrite lookup_insert_eq.
    by apply IsExpired_retained. }
  destruct (prune_spec n2 m1) as [Heq Hl]. set (m2 := pruneExpiredLocked n2 m1) in *.
  assert (Hu2 : sessions m2 !! u = Some p).
  { rewrite Hl. simpl. rewrite Hu, Hexp1. by rewrite (bool_decide_eq_true_2 _ Hn). }
  assert (Hd2 : deref m2 p = Some s').
  { rewrite Heq. unfold deref, m1. simpl. by rewrite lookup_insert_eq. }
  assert (Hexp : ∀ t, IsExpired m2 p t = negb (bool_decide (t < limit)%Z)).
  { intros t. rewrite <-Hexp1. unfold IsExpired. rewrite Hd2. unfold deref, m1. simpl.
    by rewrite lookup_insert_eq. }
  assert (Hs' : Session.closed s' = Session.closed s ∧ Session.offlineUntil s' = Some limit).
  { unfold s', Session.RetainOffline. by rewrite decide_False. }
  destruct Hs' as [Hcl Hoff].
  clear Hc. intros t1 t2 Ht. unfold Get. rewrite Hu2, Hexp. split_and!.
  - case_bool_decide; simpl; [by rewrite decide_True|by rewrite decide_False].
  - case_bool_decide; simpl; [by rewrite decide_True|]. rewrite decide_False by done.
    unfold removeExpired. rewrite Hu2, Hexp, !bool_decide_eq_true_2, bool_decide_eq_false_2 by (done || lia).
    simpl. apply lookup_delete_eq.
  - exists s'. split_and!; [done| |done]. unfold Session.IsOfflineReadonly. by rewrite Hoff.
  - intros Hclosed. unfold LookupDaemon. rewrite decide_False by done.
    destruct (prune_spec t1 m2) as [Heq3 Hl3]. set (m3 := pruneExpiredLocked t1 m2) in *.
    assert (Hd3 : deref m3 p = Some s') by (rewrite Heq3; exact Hd2).
    rewrite Hl3, Hu2. destruct (IsExpired m2 p t1); [done|].
    unfold sessionClosed. by rewrite Hd3, Hcl, Hclosed.
Qed.

(** Live daemons.  [LookupDaemon] answers with the session registered for
    the user exactly when that session is neither expired nor closed. *)
Theorem LookupDaemon_live (m : Manager) (now : Z) (u : string) (p : pointer) :
  wf m →
  snd (LookupDaemon now u m) = Some p ↔
  sessions m !! u = Some p ∧
  ∃ s, deref m p = Some s ∧ Session.closed s = false ∧ Session.IsExpired now (Some now) s = false.
Proof.
  intros Hwf. unfold LookupDaemon. case_decide as Hu.
  { simpl. split; [done|]. intros [Hp _]. by destruct (Hwf u p Hp) as (_ & _ & _ & ?). }
  destruct (prune_spec now m) as [Heq Hl]. set (m1 := pruneExpiredLocked now m) in *.
  rewrite Hl. destruct (sessions m !! u) as [q|] eqn:Hq; [|simpl; split; [done|by intros [? _]]].
  destruct (Hwf u q Hq) as (s & Hs & _). unfold IsExpired. rewrite Hs.
  assert (Hs1 : deref m1 q = Some s) by (rewrite Heq; exact Hs).
  destruct (Session.IsExpired now (Some now) s) eqn:He.
  { simpl. split; [done|]. intros ([= <-] & s' & ? & _ & ?). congruence. }
  unfold sessionClosed. rewrite Hs1. destruct (Session.closed s) eqn:Hc; simpl.
  - split; [done|]. intros ([= <-] & s' & ? & ? & _). congruence.
  - split; [intros [= <-]; split; [done|]; by exists s|by intros [[= <-] _]].
Qed.

(** The list of users.  [UserIDs] returns, sorted and without repetition,
    the users whose session has not expired. *)
Theorem UserIDs_sorted (m : Manager) (now : Z) :
  let ids := snd (UserIDs now m) in
  Sorted String.le ids ∧ NoDup ids ∧
  ∀ u, u ∈ ids ↔ ∃ p, sessions m !! u = Some p ∧ IsExpired m p now = false.
Proof.
  unfold UserIDs, sort_strings. simpl. destruct (prune_spec now m) as [_ Hl].
  set (m1 := pruneExpiredLocked now m) in *. split_and!.
  - apply Sorted_merge_sort, _.
  - rewrite merge_sort_Permutation. apply NoDup_range_keys.
  - intros u. rewrite merge_sort_Permutation, elem_of_range_keys, elem_of_dom, Hl.
    destruct (sessions m !! u) as [p|]; [|split; [by intros []|by intros (? & ? & _)]].
    destruct (IsExpired m p now) eqn:He.
    + split; [by intros []|]. intros (q & [= <-] & ?). congruence.
    + split; [intros _; by exists p|by eexists].
Qed.

(** Serving a stream.  [Serve] applies the messages in the order they
    arrive, up to and including the first one whose handling fails; it
    returns that failure, or else the error of the stream (none when it just
    ended), or else the error of the send loop; and it leaves the session
    closed, with that error unless it had been closed before. *)
Theorem Serve_closes (msgs : list (Z * option DaemonMessage)) (ctxDone : bool) (fin : recv_error)
    (queue : list (option ServerMessage * option (string * bool))) (s : Session.Session) :
  let '(s1, recvErr, n) := runRecvLoop msgs ctxDone fin s in
  let '(s', err) := Serve msgs ctxDone fin queue s in
  n ≤ length msgs ∧
  s1 = Session.run ((λ '(now, m), Session.InMessage now m) <$> take n msgs) s ∧
  (n < length msgs → ∃ e, recvErr = Some e) ∧
  (∀ k now m, k < n → msgs !! k = Some (now, m) → ∀ e,
     snd (Session.handleDaemonMessage now m
       (Session.run ((λ '(now, m), Session.InMessage now m) <$> take k msgs) s)) = Some e →
     recvErr = Some e ∧ S k = n) ∧
  err = (match recvErr with Some e => Some e | None => snd (runSendLoop queue) end) ∧
  Session.closed s' = true ∧
  (Session.closed s1 = false → Session.closeErr s' = Some (default Session.ErrSessionClosed err)).
Proof.
  assert (Hloop : ∀ msgs s, let '(s1, recvErr, n) := runRecvLoop msgs ctxDone fin s in
    n ≤ length msgs ∧
    s1 = Session.run ((λ '(now, m), Session.InMessage now m) <$> take n msgs) s ∧
    (n < length msgs → ∃ e, recvErr = Some e) ∧
    (∀ k now m, k < n → msgs !! k = Some (now, m) → ∀ e,
       snd (Session.handleDaemonMessage now m
         (Session.run ((λ '(now, m), Session.InMessage now m) <$> take k msgs) s)) = Some e →
       recvErr = Some e ∧ S k = n)).
  { clear. induction msgs as [|[now m] msgs IH]; intros s; [simpl; split_and!; [done|done|lia|lia]|].
    cbn [runRecvLoop]. destruct (Session.handleDaemonMessage now m s) as [s2 [e|]] eqn:Hh.
    - split_and!; [simpl; lia| |by eexists|].
      + simpl. by rewrite Hh.
      + intros k now' m' Hk. assert (k = 0) as -> by lia. intros [= <- <-] e'. simpl. rewrite Hh.
        simpl. by intros [= <-].
    - specialize (IH s2). destruct (runRecvLoop msgs ctxDone fin s2) as [[s1 err] n].
      destruct IH as (Hn & Hs1 & Hlt & Hk). split_and!.
      + simpl. lia.
      + rewrite Hs1. simpl. by rewrite Hh.
      + simpl. intros. apply Hlt. lia.
      + intros [|k] now' m' Hk' Hm e; simpl in Hm |- *; rewrite ?Hh.
        * simplify_eq. simpl. rewrite Hh. done.
        * simpl. intros He. destruct (Hk k now' m' ltac:(lia) Hm e He). split; [done|lia]. }
  unfold Serve. specialize (Hloop msgs s).
  destruct (runRecvLoop msgs ctxDone fin s) as [[s1 recvErr] n].
  destruct Hloop as (? & ? & ? & ?). destruct (runSendLoop queue) as [sent sendErr].
  assert (Hf : Session.firstNonNil [recvErr; sendErr] =
    match recvErr with Some e => Some e | None => sendErr end).
  { unfold Session.firstNonNil. rewrite filter_cons. destruct recvErr; simpl; [done|].
    rewrite filter_cons. by destruct sendErr. }
  rewrite Hf. simpl. split_and!; [done..| |].
  - unfold Session.closeWithError. by destruct (Session.closed s1) eqn:E.
  - intros Hcl. unfold Session.closeWithError. by rewrite Hcl.
Qed.
End lifecycle.

(** ** Concrete runs *)

Definition witness_options : ManagerOptions := mk_options 0 100 50 true 10 2.
Definition witness_ctx : option Auth.Context := Some (Auth.mk_Context None None (Some "u")).
Definition witness_connect (m : Manager) : Manager * result status pointer :=
  @Connect_open elements_range 5 6 witness_ctx (Ok Session.witness_boot) m.
(** A manager with one session, whose stream has been closed. *)
Definition witness_manager : Manager :=
  closeWithError None 0 (fst (witness_connect (NewManager witness_options))).

Lemma witness_manager_session :
  ∃ s, deref witness_manager 0 = Some s ∧ Session.userID s = "u" ∧ Session.closed s = true ∧
       Session.closeErr s = Some Session.ErrSessionClosed.
Proof.
  vm_compute. eexists. split; [reflexivity|]. by vm_compute.
Qed.

Lemma witness_manager_wf : wf witness_manager.
Proof.
  intros u p Hp.
  assert (Hs : sessions witness_manager = {[ "u" := 0 ]}) by (vm_compute; reflexivity).
  rewrite Hs in Hp. apply lookup_singleton_Some in Hp as [<- <-].
  destruct witness_manager_session as (s & Hd & Hu & _). by exists s.
Qed.

Lemma pty_ids_unique_witness :
  NoDup (snd (@run elements_range [OpRegisterPTY "a"; OpUnregisterPTY "a" "a-pty-1"; OpRegisterPTY "a"]
                witness_manager)).
Proof. apply pty_ids_unique; vm_compute; intuition discriminate. Defined.

Lemma pty_exclusive_witness :
  snd (RegisterPTY "a" (fst (@run elements_range [OpRegisterPTY "b"; OpUnregisterPTY "a" "b-pty-2"]
                               (fst (RegisterPTY "a" witness_manager))))) = Err ErrPTYBusy.
Proof.
  destruct (@pty_exclusive elements_range (fst (RegisterPTY "a" witness_manager))
    [OpRegisterPTY "b"; OpUnregisterPTY "a" "b-pty-2"] "a" "a-pty-1") as (_ & -> & _).
  - vm_compute. reflexivity.
  - done.
  - set_solver.
  - reflexivity.
Defined.

Lemma connect_takes_over_witness :
  let '(m', r) := witness_connect witness_manager in
  r = Ok 1 ∧ sessions m' !! "u" = Some 1 ∧ @HandleDisconnect elements_range 9 9 (Some 0) None m' = m'.
Proof.
  destruct (witness_connect witness_manager) as [m' r] eqn:Hc.
  assert (Hr : r = Ok 1).
  { change r with (snd (m', r)). rewrite <-Hc. vm_compute. reflexivity. }
  subst r. split; [reflexivity|].
  destruct (@connect_takes_over elements_range witness_manager m' 5 6 witness_ctx (Ok Session.witness_boot) 1
    witness_manager_wf Hc) as (u & msg & s & Hu & _ & _ & Hs & _ & _ & _ & _ & _ & Hold).
  vm_compute in Hu. injection Hu as <-. split; [exact Hs|].
  destruct witness_manager_session as (old & Hd & _).
  destruct (Hold 0 old) as (_ & Hh & _); [vm_compute; reflexivity|exact Hd|]. apply Hh.
Defined.

Lemma offline_retention_witness :
  let m' := @HandleDisconnect elements_range 10 10 (Some 0) None witness_manager in
  snd (Get 59 59 "u" m') = Some 0 ∧ snd (Get 60 60 "u" m') = None.
Proof.
  destruct witness_manager_session as (s & Hd & _ & _ & Hce).
  pose proof (@offline_retention elements_range witness_manager "u" 0 s 10 10 None witness_manager_wf
    ltac:(vm_compute; reflexivity) Hd ltac:(rewrite Hce; discriminate)
    ltac:(vm_compute; reflexivity)) as Ht.
  cbv zeta in Ht. match type of Ht with if ?b then _ else _ =>
    assert (Hc : b = false) by (vm_compute; reflexivity); rewrite Hc in Ht end. split.
  - destruct (Ht 59%Z 59%Z ltac:(lia)) as [-> _]. vm_compute. reflexivity.
  - destruct (Ht 60%Z 60%Z ltac:(lia)) as [-> _]. vm_compute. reflexivity.
Defined.

Lemma LookupDaemon_live_witness :
  snd (@LookupDaemon elements_range 7 "u" witness_manager) ≠ Some 0.
Proof.
  intros Hl. apply (@LookupDaemon_live elements_range witness_manager 7 "u" 0 witness_manager_wf) in Hl as (_ & s & Hd & Hc & _).
  destruct witness_manager_session as (s' & Hd' & _ & Hc' & _). congruence.
Defined.
