(* ===== verification/PtyService.v ===== *)
(** * Serving a terminal (pkg/ptyservice/service.go, app/server/pty_runtime.go)

    [attach] and what it calls, as a monad that records every call of the
    stream, the limiters, the spawner, the host and the registry.  The answers
    of all but the registry are the class [Environment]: each is a function of
    what happened before, so that any behaviour is one.  The registry is the
    class [Registry], which the manager of the sessions implements.  The loop of
    [runAttached] and the goroutines that feed it are steps that interleave. *)
From S2P Require Import Prelude GoPath PtyHost Auth.
From stdpp Require Import options.

Inductive Error_Kind : Type :=
  | KIND_UNSPECIFIED | KIND_UNAUTHENTICATED | KIND_DAEMON_NOT_CONNECTED | KIND_SESSION_BUSY
  | KIND_SPAWN_FAILED | KIND_PROTOCOL | KIND_RATE_LIMITED | KIND_INTERNAL.

(** The errors of the package, and the texts of the others. *)
Inductive error : Type :=
  | StatusUnauthenticated                         (* ErrMissingUserID, as a gRPC status *)
  | ErrNilRegistry
  | ErrNilSpawner
  | ErrAgentRequired
  | ErrNilHost
  | ErrFrameTooLarge
  | ErrFirstFrameAttach
  | errApplicationSent
  | ErrDaemonNotConnected
  | ErrSessionBusy
  | ErrResolveAgent (agent : string) (e : PtyHost.error)
  | ErrPolicy (e : PtyHost.error)
  | ErrStdinLimited (text : string)
  | ErrText (text : string).

#[export] Instance error_eq_dec : EqDecision error.
Proof. solve_decision. Defined.

Record Resize : Type := mk_Resize { cols : Z; rows : Z; x_pixel : Z; y_pixel : Z }.
Record AttachReq : Type := mk_AttachReq {
  session_id : string; initial_size : option Resize; term : string; agent : string; extra_env : list string }.

Inductive ClientFrame : Type :=
  | CAttach (req : AttachReq)
  | CStdin (payload : bytes)
  | CResize (size : Resize)
  | CDetach
  | CNone.

(** The message of an error: its text, or the name of the kind when that is
    empty. *)
Inductive message : Type := MsgError (e : error) | MsgKind (k : Error_Kind).

Inductive ServerFrame : Type :=
  | SAttached (session_id cwd : string)
  | SStdout (payload : bytes)
  | SExited (code signal : Z)
  | SError (kind : Error_Kind) (msg : message).

(** What the service calls, with the answers. *)
Inductive action : Type :=
  | Received (answer : result string ClientFrame)       (* the first Recv *)
  | Registered (userID : string) (sessionID : string)
  | Unregistered (userID : string) (sessionID : string)
  | AttachWaited (err : option string)
  | Spawned (req : SpawnReq) (started : bool)
  | Sent (frame : ServerFrame) (err : option string)
  | InputWaited (n : nat) (err : option string)
  | Wrote (payload : bytes) (err : option string)
  | Resized (size : WindowSize) (err : option string)
  | ShutDown
  | Waited
  | PTYExited (info : ExitInfo) (err : option string).   (* logPTYExited *)

Abbreviation history := (list action).

(** What [Spawn] returns: an error, a nil host, or a host. *)
Inductive spawn_result : Type := SpawnErr (text : string) | SpawnNil | SpawnHost.

Class Environment := {
  ctx : option Auth.Context;                             (* of the stream *)
  recv_first : history → result string ClientFrame;
  send : history → ServerFrame → option string;
  attach_limit : option (history → option string);      (* AttachLimit, if there is one, and its answers *)
  input_limit : option (history → nat → option string);
  spawn : history → SpawnReq → spawn_result;
  stdin_write : history → bytes → option string;
  resize : history → WindowSize → option string;
  environ : list string;                                 (* os.Environ() *)
}.

(** The interface [Registry].  [active] is what the promises are about: the
    sessions of the users.  [Elsewhere] is what the rest of the program may do
    to what is behind the registry (register and lose daemons, let sessions
    expire): none of it may touch the sessions of the users. *)
Class Registry (R : Type) := {
  Elsewhere : Type;
  elsewhere : Elsewhere → R → R;
  LookupDaemon : string → R → R * option string;
  RegisterPTY : string → R → R * result string (option string);    (* [Ok None]: busy *)
  UnregisterPTY : string → string → R → R;
  active : R → gmap string string;
  LookupDaemon_active u r : active (LookupDaemon u r).1 = active r;
  RegisterPTY_active u r :
    match RegisterPTY u r with
    | (r', Ok (Some id)) => u ≠ "" ∧ id ≠ "" ∧ active r !! u = None ∧ active r' = <[u := id]> (active r)
    | (r', Ok None) => is_Some (active r !! u) ∧ active r' = active r
    | (r', Err _) => active r' = active r
    end;
  UnregisterPTY_active u id r :
    active (UnregisterPTY u id r) =
      if decide (u ≠ "" ∧ id ≠ "" ∧ active r !! u = Some id) then delete u (active r) else active r;
  elsewhere_active o r : active (elsewhere o r) = active r;
}.

Record Config : Type := mk_Config {
  hasRegistry : bool;
  hasSpawner : bool;
  Workspace : string;
  EnvWhitelist : list string;
  FrameMax : Z;
  GracefulStop : Z;
}.

Definition DefaultPTYWorkspaceRoot : string := "/workspace".
Definition DefaultPTYEnvPassthrough : list string :=
  ["TERM"; "LANG"; "LC_ALL"; "LC_CTYPE"; "PATH"; "HOME"; "SHELL"; "CLAUDE_CONFIG_DIR"].
Definition DefaultPTYFrameMaxBytes : Z := 64 * 1024.
Definition DefaultPTYGracefulShutdown : Z := 5 * 10 ^ 9.

Definition New (cfg : Config) : result error Config :=
  if negb (hasRegistry cfg) then Err ErrNilRegistry
  else if negb (hasSpawner cfg) then Err ErrNilSpawner
  else Ok (mk_Config true true
    (if decide (Workspace cfg = "") then DefaultPTYWorkspaceRoot else Workspace cfg)
    (if decide (EnvWhitelist cfg = []) then DefaultPTYEnvPassthrough else EnvWhitelist cfg)
    (if decide (FrameMax cfg ≤ 0)%Z then DefaultPTYFrameMaxBytes else FrameMax cfg)
    (if decide (GracefulStop cfg ≤ 0)%Z then DefaultPTYGracefulShutdown else GracefulStop cfg)).

Definition fromProtoSize (size : option Resize) : WindowSize :=
  match size with
  | None => mk_WindowSize 0 0 0 0
  | Some s => mk_WindowSize (cols s) (rows s) (x_pixel s) (y_pixel s)
  end.

Definition resolveAgent `{Unicode, System} (agent : string) : result error string :=
  if decide (trim_space agent = "") then Err ErrAgentRequired
  else map_err (ErrResolveAgent agent) (ResolveBinary agent).

Record spawnPlan : Type := mk_spawnPlan { binary : string; cwd : string; env : list string }.

Definition prepareSpawn `{MapRange, Unicode, System} (s : Config) (environ : list string) (userID workspace : string)
    (attach : AttachReq) : result error spawnPlan :=
  binary ← resolveAgent (agent attach);
  cwd ← map_err ErrPolicy (ResolveCwd (Workspace s) userID workspace);
  Ok (mk_spawnPlan binary cwd (BuildEnv (envMap environ) (EnvWhitelist s) (term attach))).

Definition spawnRequest (s : Config) (plan : spawnPlan) (attach : AttachReq) : SpawnReq :=
  mk_SpawnReq (binary plan) [] (cwd plan) (env plan) (fromProtoSize (initial_size attach)) (GracefulStop s).

(** ** The monad *)

Section service.
Context {R : Type} `{Registry R} `{Environment} `{MapRange, Unicode, System}.

Record World : Type := mk_World { hist : history; reg : R }.

Definition M (A : Type) : Type := World → World * A.

#[global] Instance M_ret : MRet M := λ A a w, (w, a).
#[global] Instance M_bind : MBind M := λ A B f m w, let '(w, a) := m w in f a w.
#[global] Instance M_fmap : FMap M := λ A B f m, m ≫= λ a, mret (f a).

(** A call whose answer depends on the history, and is recorded. *)
Definition call {A} (answer : history → A) (log : A → action) : M A :=
  λ w, let a := answer (hist w) in (mk_World (hist w ++ [log a]) (reg w), a).

Definition Recv : M (result string ClientFrame) := call recv_first Received.
Definition Send (frame : ServerFrame) : M (option string) := call (λ h, send h frame) (Sent frame).
Definition Shutdown : M unit := call (λ _, ()) (λ _, ShutDown).
Definition Wait : M unit := call (λ _, ()) (λ _, Waited).

Definition registry_lookup (userID : string) : M (option string) :=
  λ w, let '(r, a) := LookupDaemon userID (reg w) in (mk_World (hist w) r, a).
Definition registry_register (userID : string) : M (result string (option string)) :=
  λ w, let '(r, a) := RegisterPTY userID (reg w) in
    (mk_World (match a with Ok (Some id) => hist w ++ [Registered userID id] | _ => hist w end) r, a).
Definition registry_unregister (userID sessionID : string) : M unit :=
  λ w, (mk_World (hist w ++ [Unregistered userID sessionID]) (UnregisterPTY userID sessionID (reg w)), ()).

(** ** Errors sent to the client *)

Definition message_of (kind : Error_Kind) (err : error) : message :=
  if decide (err = ErrText "") then MsgKind kind else MsgError err.

Definition sendApplicationError (kind : Error_Kind) (err : error) : M (option string) :=
  Send (SError kind (message_of kind err)).

Definition applicationError (kind : Error_Kind) (err : error) : M error :=
  r ← sendApplicationError kind err;
  mret (match r with Some e => ErrText e | None => errApplicationSent end).

Definition normalizeApplicationStop (err : error) : option error :=
  if decide (err = errApplicationSent) then None else Some err.

(** ** Attaching *)

Definition receiveAttachRequest : M (result error (string * AttachReq)) :=
  match UserIDFromContext ctx with
  | None => mret (Err StatusUnauthenticated)
  | Some userID =>
    first ← Recv;
    match first with
    | Err e => mret (Err (ErrText e))
    | Ok (CAttach attach) => mret (Ok (userID, attach))
    | Ok _ => Err <$> applicationError KIND_PROTOCOL ErrFirstFrameAttach
    end
  end.

Context (s : Config).

Definition reserveSession (userID : string) : M (result error (string * string)) :=
  connected ← registry_lookup userID;
  match connected with
  | None => Err <$> applicationError KIND_DAEMON_NOT_CONNECTED ErrDaemonNotConnected
  | Some workspace =>
    r ← registry_register userID;
    match r with
    | Err e => Err <$> applicationError KIND_INTERNAL (ErrText e)
    | Ok None => Err <$> applicationError KIND_SESSION_BUSY ErrSessionBusy
    | Ok (Some sessionID) => mret (Ok (sessionID, workspace))
    end
  end.

Definition enforceAttachLimit : M (option error) :=
  match attach_limit with
  | None => mret None
  | Some limit =>
    waitErr ← call limit AttachWaited;
    match waitErr with
    | Some e => Some <$> applicationError KIND_RATE_LIMITED (ErrText e)
    | None => mret None
    end
  end.

Definition spawn_call (req : SpawnReq) : M spawn_result :=
  call (λ h, spawn h req) (λ a, Spawned req (match a with SpawnHost => true | _ => false end)).

(** The host itself is what the following calls of the host are about; what
    [startHost] returns of it is left out. *)
Definition startHost (userID workspace : string) (attach : AttachReq) : M (result error string) :=
  match prepareSpawn s environ userID workspace attach with
  | Err e => Err <$> applicationError KIND_SPAWN_FAILED e
  | Ok plan =>
    r ← spawn_call (spawnRequest s plan attach);
    match r with
    | SpawnErr e => Err <$> applicationError KIND_SPAWN_FAILED (ErrText e)
    | SpawnNil => Err <$> applicationError KIND_SPAWN_FAILED ErrNilHost
    | SpawnHost => mret (Ok (cwd plan))
    end
  end.

Definition sendAttachedFrame (sessionID : string) : M (option string) := Send (SAttached sessionID "").

Definition cleanupHost : M unit := _ ← Shutdown; Wait.

(** [attach] up to the call of [runAttached]: it has returned, after what it
    deferred, or a session runs. *)
Inductive opened : Type :=
  | Stopped (err : option error)
  | Running (userID sessionID : string).

Definition attach_deferred (userID sessionID : string) (err : option error) : M opened :=
  _ ← registry_unregister userID sessionID; mret (Stopped err).

Definition attach : M opened :=
  r ← receiveAttachRequest;
  match r with
  | Err e => mret (Stopped (normalizeApplicationStop e))
  | Ok (userID, attach) =>
    r ← reserveSession userID;
    match r with
    | Err e => mret (Stopped (normalizeApplicationStop e))
    | Ok (sessionID, workspace) =>
      limitErr ← enforceAttachLimit;
      match limitErr with
      | Some e => attach_deferred userID sessionID (normalizeApplicationStop e)
      | None =>
        r ← startHost userID workspace attach;
        match r with
        | Err e => attach_deferred userID sessionID (normalizeApplicationStop e)
        | Ok cwd =>
          sendErr ← sendAttachedFrame sessionID;
          match sendErr with
          | Some e => _ ← cleanupHost; attach_deferred userID sessionID (Some (ErrText e))
          | None => mret (Running userID sessionID)
          end
        end
      end
    end
  end.

(** ** The session that runs *)

Inductive read_error : Type := EOF | ReadErr (text : string).
Inductive stdoutEvent : Type := OutData (data : bytes) | OutErr (err : read_error).
Inductive clientEvent : Type := InFrame (frame : ClientFrame) | InErr (err : string).
Record exitEvent : Type := mk_exitEvent { info : ExitInfo; exit_err : option string }.

Record attachRuntime : Type := mk_attachRuntime {
  streamOpen : bool;
  stdoutClosed : bool;
  hostExited : bool;
  exitInfo : ExitInfo;
  shutdownOnce : bool;          (* whether it was used *)
}.

Definition newAttachRuntime : attachRuntime := mk_attachRuntime true false false (mk_ExitInfo 0 0) false.

Definition readyToExit (r : attachRuntime) : bool := hostExited r && stdoutClosed r.

Definition finish (r : attachRuntime) : M (option error) :=
  if streamOpen r then fmap ErrText <$> Send (SExited (Code (exitInfo r)) (Signal (exitInfo r))) else mret None.

Definition shutdown (r : attachRuntime) : M attachRuntime :=
  if shutdownOnce r then mret r
  else _ ← Shutdown; mret (mk_attachRuntime (streamOpen r) (stdoutClosed r) (hostExited r) (exitInfo r) true).

Definition closeStream (r : attachRuntime) : M attachRuntime :=
  shutdown (mk_attachRuntime false (stdoutClosed r) (hostExited r) (exitInfo r) (shutdownOnce r)).

Definition runtime_sendApplicationError (r : attachRuntime) (kind : Error_Kind) (err : error) : M (option error) :=
  if streamOpen r then Some <$> applicationError kind err else mret None.

Definition close_stdout (r : attachRuntime) : attachRuntime :=
  mk_attachRuntime (streamOpen r) true (hostExited r) (exitInfo r) (shutdownOnce r).

(** What a handler does: the new runtime, whether the channel is kept, and the
    error that ends the loop. *)
Definition handled : Type := attachRuntime * bool * option error.

(** Shut the host down, wait for it, and tell the client. *)
Definition fail_session (r : attachRuntime) (kind : Error_Kind) (err : error) : M handled :=
  r ← shutdown r;
  _ ← Wait;
  e ← runtime_sendApplicationError r kind err;
  mret (r, true, e).

Definition handleStdoutError (r : attachRuntime) (err : read_error) : M handled :=
  match err with
  | EOF => mret (close_stdout r, false, None)
  | ReadErr text => fail_session r KIND_INTERNAL (ErrText text)
  end.

(** [None] is a closed channel. *)
Definition handleStdoutEvent (r : attachRuntime) (result : option stdoutEvent) : M handled :=
  match result with
  | None => mret (close_stdout r, false, None)
  | Some (OutErr err) => handleStdoutError r err
  | Some (OutData data) =>
    if bool_decide (data = []) || negb (streamOpen r) then mret (r, true, None)
    else
      err ← Send (SStdout data);
      match err with
      | Some _ => r ← closeStream r; mret (r, true, None)
      | None => mret (r, true, None)
      end
  end.

Definition logPTYExited (result : exitEvent) : M unit := call (λ _, ()) (λ _, PTYExited (info result) (exit_err result)).

Definition handleExitEvent (r : attachRuntime) (result : exitEvent) : M (attachRuntime * option error) :=
  let r := mk_attachRuntime (streamOpen r) (stdoutClosed r) true (info result) (shutdownOnce r) in
  match exit_err result with
  | Some text => e ← runtime_sendApplicationError r KIND_INTERNAL (ErrText text); mret (r, e)
  | None => mret (r, None)
  end.

(** [(done, nil)], or the kind and the error. *)
Abbreviation frame_result := (result (Error_Kind * error) bool).

Definition handleClientStdin (payload : bytes) : M frame_result :=
  if decide (FrameMax s < Z.of_nat (length payload))%Z then mret (Err (KIND_PROTOCOL, ErrFrameTooLarge))
  else
    waitErr ← match input_limit with
              | None => mret None
              | Some limit => call (λ h, limit h (length payload)) (InputWaited (length payload))
              end;
    match waitErr with
    | Some e => mret (Err (KIND_RATE_LIMITED, ErrStdinLimited e))
    | None =>
      err ← call (λ h, stdin_write h payload) (Wrote payload);
      mret (match err with Some e => Err (KIND_INTERNAL, ErrText e) | None => Ok false end)
    end.

Definition handleClientResize (size : Resize) : M frame_result :=
  let ws := fromProtoSize (Some size) in
  err ← call (λ h, resize h ws) (Resized ws);
  mret (match err with Some e => Err (KIND_INTERNAL, ErrText e) | None => Ok false end).

Definition handleClientFrame (frame : ClientFrame) : M frame_result :=
  match frame with
  | CStdin payload => handleClientStdin payload
  | CResize size => handleClientResize size
  | CDetach => mret (Ok true)
  | CAttach _ | CNone => mret (Err (KIND_PROTOCOL, ErrFirstFrameAttach))
  end.

Definition handleClientEvent (r : attachRuntime) (result : option clientEvent) : M handled :=
  match result with
  | None => mret (r, false, None)
  | Some (InErr _) => r ← closeStream r; mret (r, false, None)
  | Some (InFrame frame) =>
    res ← handleClientFrame frame;
    match res with
    | Err (kind, err) => fail_session r kind err
    | Ok true => r ← shutdown r; mret (r, false, None)
    | Ok false => mret (r, true, None)
    end
  end.

(** ** The goroutines *)

(** A goroutine that reads events and sends them on a channel of capacity 8,
    which it closes when it returns. *)
Inductive pump (E : Type) : Type :=
  | PRead
  | PSend (events : list E) (last : bool)
  | PClose
  | PDone.
#[global] Arguments PRead {E}.
#[global] Arguments PSend {E} events last.
#[global] Arguments PClose {E}.
#[global] Arguments PDone {E}.

(** [waitHost] *)
Inductive waiter_pc : Type := WWait | WSend (e : exitEvent) | WDone.

Inductive main_pc : Type := MLoop | MReturned (err : option error).

Definition channelSize : nat := 8.

Record St : Type := mk_St {
  world : World;
  user : string;
  session : string;
  rt : attachRuntime;
  stdout_on : bool;                (* the loop's channel is not nil *)
  client_on : bool;
  stdoutCh : list stdoutEvent;
  stdoutCh_closed : bool;
  clientCh : list clientEvent;
  clientCh_closed : bool;
  exitCh : list exitEvent;
  out_pump : pump stdoutEvent;
  in_pump : pump clientEvent;
  waiter : waiter_pc;
  main : main_pc;
  output : list bytes;             (* what the host was read to have written *)
  input : list ClientFrame;        (* the frames the client was read to have sent *)
  others : list (string * string); (* the other sessions that hold an entry of the registry *)
}.

Definition set_world x t := mk_St x (user t) (session t) (rt t) (stdout_on t) (client_on t) (stdoutCh t) (stdoutCh_closed t) (clientCh t) (clientCh_closed t) (exitCh t) (out_pump t) (in_pump t) (waiter t) (main t) (output t) (input t) (others t).
Definition set_rt x t := mk_St (world t) (user t) (session t) x (stdout_on t) (client_on t) (stdoutCh t) (stdoutCh_closed t) (clientCh t) (clientCh_closed t) (exitCh t) (out_pump t) (in_pump t) (waiter t) (main t) (output t) (input t) (others t).
Definition set_on out inp t := mk_St (world t) (user t) (session t) (rt t) out inp (stdoutCh t) (stdoutCh_closed t) (clientCh t) (clientCh_closed t) (exitCh t) (out_pump t) (in_pump t) (waiter t) (main t) (output t) (input t) (others t).
Definition set_stdoutCh x closed t := mk_St (world t) (user t) (session t) (rt t) (stdout_on t) (client_on t) x closed (clientCh t) (clientCh_closed t) (exitCh t) (out_pump t) (in_pump t) (waiter t) (main t) (output t) (input t) (others t).
Definition set_clientCh x closed t := mk_St (world t) (user t) (session t) (rt t) (stdout_on t) (client_on t) (stdoutCh t) (stdoutCh_closed t) x closed (exitCh t) (out_pump t) (in_pump t) (waiter t) (main t) (output t) (input t) (others t).
Definition set_exitCh x t := mk_St (world t) (user t) (session t) (rt t) (stdout_on t) (client_on t) (stdoutCh t) (stdoutCh_closed t) (clientCh t) (clientCh_closed t) x (out_pump t) (in_pump t) (waiter t) (main t) (output t) (input t) (others t).
Definition set_out_pump x t := mk_St (world t) (user t) (session t) (rt t) (stdout_on t) (client_on t) (stdoutCh t) (stdoutCh_closed t) (clientCh t) (clientCh_closed t) (exitCh t) x (in_pump t) (waiter t) (main t) (output t) (input t) (others t).
Definition set_in_pump x t := mk_St (world t) (user t) (session t) (rt t) (stdout_on t) (client_on t) (stdoutCh t) (stdoutCh_closed t) (clientCh t) (clientCh_closed t) (exitCh t) (out_pump t) x (waiter t) (main t) (output t) (input t) (others t).
Definition set_waiter x t := mk_St (world t) (user t) (session t) (rt t) (stdout_on t) (client_on t) (stdoutCh t) (stdoutCh_closed t) (clientCh t) (clientCh_closed t) (exitCh t) (out_pump t) (in_pump t) x (main t) (output t) (input t) (others t).
Definition set_main x t := mk_St (world t) (user t) (session t) (rt t) (stdout_on t) (client_on t) (stdoutCh t) (stdoutCh_closed t) (clientCh t) (clientCh_closed t) (exitCh t) (out_pump t) (in_pump t) (waiter t) x (output t) (input t) (others t).
Definition set_ghost out inp t := mk_St (world t) (user t) (session t) (rt t) (stdout_on t) (client_on t) (stdoutCh t) (stdoutCh_closed t) (clientCh t) (clientCh_closed t) (exitCh t) (out_pump t) (in_pump t) (waiter t) (main t) out inp (others t).

(** The return of [runAttached], and of [attach] after what it deferred. *)
Definition conclude (err : option error) (t : St) : St :=
  let '(w, _) := registry_unregister (user t) (session t) (world t) in set_main (MReturned err) (set_world w t).

(** The rest of an iteration of the loop, after a handler. *)
Definition continue_with (r : attachRuntime) (out inp : bool) (err : option error) (w : World) (t : St) : St :=
  let t := set_world w (set_rt r t) in
  match err with
  | Some e => conclude (normalizeApplicationStop e) t
  | None => set_on out inp t
  end.

(** A receive: [None] blocks; [Some (None, _)] is a closed channel. *)
Definition receive {E} (ch : list E) (closed : bool) : option (option E * list E) :=
  match ch with
  | e :: rest => Some (Some e, rest)
  | [] => if closed then Some (None, []) else None
  end.

Inductive branch : Type := OnStdout | OnClient | OnExit.

(** The loop of [runAttached], with [processAttachEvent]: the branch is that of
    the select. *)
Definition main_step (b : branch) (t : St) : option St :=
  match main t with
  | MReturned _ => None
  | MLoop =>
    if readyToExit (rt t) then
      let '(w, err) := finish (rt t) (world t) in Some (conclude err (set_world w t))
    else match b with
    | OnStdout =>
      if stdout_on t then
        '(result, rest) ← receive (stdoutCh t) (stdoutCh_closed t);
        let '(w, (r, keep, err)) := handleStdoutEvent (rt t) result (world t) in
        Some (continue_with r keep (client_on t) err w (set_stdoutCh rest (stdoutCh_closed t) t))
      else None
    | OnClient =>
      if client_on t then
        '(result, rest) ← receive (clientCh t) (clientCh_closed t);
        let '(w, (r, keep, err)) := handleClientEvent (rt t) result (world t) in
        Some (continue_with r (stdout_on t) keep err w (set_clientCh rest (clientCh_closed t) t))
      else None
    | OnExit =>
      match exitCh t with
      | [] => None
      | result :: rest =>
        let '(w, (r, err)) := (_ ← logPTYExited result; handleExitEvent (rt t) result) (world t) in
        Some (continue_with r (stdout_on t) (client_on t) err w (set_exitCh rest t))
      end
    end
  end.

(** The steps of a pump but the reads: a send, or the closing of the channel. *)
Definition pump_step {E} (p : pump E) (ch : list E) : option (pump E * list E * bool) :=
  match p with
  | PSend [] last => Some (if last then PClose else PRead, ch, false)
  | PSend (e :: rest) last =>
    if decide (length ch < channelSize) then Some (PSend rest last, ch ++ [e], false) else None
  | PClose => Some (PDone, ch, true)
  | PRead | PDone => None
  end.

(** The buffer of [pumpStdout]. *)
Definition bufferSize : Z := if decide (FrameMax s ≤ 0)%Z then DefaultPTYFrameMaxBytes else FrameMax s.

(** What the other sessions and the rest of the program do to the registry.
    Another session is an [Attach] too: it releases what it has registered, and
    once. *)
Inductive other_call : Type :=
  | OtherLookup (userID : string)
  | OtherRegister (userID : string)
  | OtherRelease (userID sessionID : string)
  | OtherElsewhere (o : Elsewhere).

Definition other_step (c : other_call) (r : R) (live : list (string * string)) : option (R * list (string * string)) :=
  match c with
  | OtherLookup u => Some (fst (LookupDaemon u r), live)
  | OtherRegister u =>
    let '(r, a) := RegisterPTY u r in Some (r, match a with Ok (Some id) => (u, id) :: live | _ => live end)
  | OtherRelease u id =>
    if decide ((u, id) ∈ live) then Some (UnregisterPTY u id r, filter (λ e, e ≠ (u, id)) live) else None
  | OtherElsewhere o => Some (elsewhere o r, live)
  end.

Definition set_others (x : list (string * string)) (t : St) : St :=
  mk_St (world t) (user t) (session t) (rt t) (stdout_on t) (client_on t) (stdoutCh t) (stdoutCh_closed t) (clientCh t) (clientCh_closed t) (exitCh t) (out_pump t) (in_pump t) (waiter t) (main t) (output t) (input t) x.

Inductive label : Type :=
  | LMain (b : branch)
  | LOutPump
  | LInPump
  | LWaiter
  | LRead (data : bytes) (err : option read_error)      (* the host's Read returns *)
  | LRecv (answer : result string ClientFrame)           (* the stream's Recv returns *)
  | LWait (e : exitEvent)                                (* the host's Wait returns *)
  | LOthers (c : other_call).                            (* other sessions use the registry *)

Definition environment (l : label) : bool :=
  match l with LMain _ | LOutPump | LInPump | LWaiter => false | _ => true end.

Definition exec (l : label) (t : St) : option St :=
  match l with
  | LMain b => main_step b t
  | LOutPump =>
    '(p, ch, closed) ← pump_step (out_pump t) (stdoutCh t);
    Some (set_out_pump p (set_stdoutCh ch (stdoutCh_closed t || closed) t))
  | LInPump =>
    '(p, ch, closed) ← pump_step (in_pump t) (clientCh t);
    Some (set_in_pump p (set_clientCh ch (clientCh_closed t || closed) t))
  | LWaiter =>
    match waiter t with
    | WSend e => if decide (length (exitCh t) < 1) then Some (set_waiter WDone (set_exitCh (exitCh t ++ [e]) t)) else None
    | _ => None
    end
  | LRead data err =>
    match out_pump t with
    | PRead =>
      if decide (Z.of_nat (length data) ≤ bufferSize)%Z then
        let events := (if decide (data = []) then [] else [OutData data]) ++
                      match err with Some e => [OutErr e] | None => [] end in
        Some (set_out_pump (PSend events (bool_decide (err ≠ None))) (set_ghost (output t ++ [data]) (input t) t))
      else None
    | _ => None
    end
  | LRecv answer =>
    match in_pump t with
    | PRead =>
      Some match answer with
           | Ok frame => set_in_pump (PSend [InFrame frame] false) (set_ghost (output t) (input t ++ [frame]) t)
           | Err e => set_in_pump (PSend [InErr e] true) t
           end
    | _ => None
    end
  | LWait e => match waiter t with WWait => Some (set_waiter (WSend e) t) | _ => None end
  | LOthers c =>
    '(r, live) ← other_step c (reg (world t)) (others t);
    Some (set_others live (set_world (mk_World (hist (world t)) r) t))
  end.

(** The state when [Attach] is called, has attached, and the goroutines start.
    The entries the registry has when it is called are those of the other
    sessions. *)
Definition start (r : R) : St :=
  match attach (mk_World [] r) with
  | (w, Running userID sessionID) =>
    mk_St w userID sessionID newAttachRuntime true true [] false [] false [] PRead PRead WWait MLoop [] []
      (map_to_list (active r))
  | (w, Stopped err) =>
    mk_St w "" "" newAttachRuntime false false [] false [] false [] PDone PDone WDone (MReturned err) [] []
      (map_to_list (active r))
  end.

Definition step (t t' : St) : Prop := ∃ l, exec l t = Some t'.
Definition reachable_from (r : R) : St → Prop := reachable (eq (start r)) step.
End service.
