(* ===== verification/PtyRegistry.v ===== *)
(** * The manager of the sessions as the registry (app/server/pty_runtime.go)

    [ptyRegistry], with the time at which the manager is asked, keeps what the
    class [Registry] promises.  The module [PtyExample] has a concrete manager,
    client and host, and the runs of the service with them. *)
From S2P Require Import Prelude GoPath Auth Session Manager GoMatch PtyHost PtyService.
From stdpp Require Import options.

Section registry.
Context `{MapRange}.

(** The time, and the manager. *)
Definition ptyRegistry : Type := Z * Manager.Manager.

Definition ptyRegistry_LookupDaemon (userID : string) (r : ptyRegistry) : ptyRegistry * option string :=
  let '(m, daemon) := Manager.LookupDaemon (fst r) userID (snd r) in
  ((fst r, m), p ← daemon; Session.WorkspaceName <$> deref m p).

Definition ptyRegistry_RegisterPTY (userID : string) (r : ptyRegistry) : ptyRegistry * result string (option string) :=
  match Manager.RegisterPTY userID (snd r) with
  | (m, Ok sessionID) => ((fst r, m), Ok (Some sessionID))
  | (m, Err ErrPTYBusy) => ((fst r, m), Ok None)
  | (m, Err _) => ((fst r, m), Err "session: empty user id")
  end.

Definition ptyRegistry_UnregisterPTY (userID sessionID : string) (r : ptyRegistry) : ptyRegistry :=
  (fst r, fst (Manager.UnregisterPTY userID sessionID (snd r))).

(** The rest of the server: time passes, and the manager is called for the
    daemons of the users. *)
Inductive elsewhere_call : Type :=
  | Clock (now : Z)
  | ManagerCall (o : Manager.op).

(** The two operations of the sessions are not among them. *)
Definition is_pty (o : Manager.op) : bool :=
  match o with OpRegisterPTY _ | OpUnregisterPTY _ _ => true | _ => false end.

Definition manager_elsewhere (c : elsewhere_call) (r : ptyRegistry) : ptyRegistry :=
  match c with
  | Clock now => (now, snd r)
  | ManagerCall o => (fst r, if is_pty o then snd r else fst (Manager.apply o (snd r)))
  end.

#[export] Program Instance manager_registry : Registry ptyRegistry := {|
  Elsewhere := elsewhere_call;
  elsewhere := manager_elsewhere;
  LookupDaemon := ptyRegistry_LookupDaemon;
  RegisterPTY := ptyRegistry_RegisterPTY;
  UnregisterPTY := ptyRegistry_UnregisterPTY;
  active r := activePTY (snd r);
|}.
Next Obligation.
  intros u [now m]. unfold ptyRegistry_LookupDaemon. cbn.
  pose proof (apply_ptys (OpLookupDaemon now u) m ltac:(done) ltac:(done)) as [Hp _]. cbn in Hp.
  destruct (Manager.LookupDaemon now u m) as [m' p]. cbn in *. by apply (f_equal fst) in Hp.
Qed.
Next Obligation.
  intros u [now m]. unfold ptyRegistry_RegisterPTY, Manager.RegisterPTY. cbn. case_decide as Hu; [done|].
  destruct (activePTY m !! u) eqn:Ha; cbn; [by split; [eexists|]|]. split_and!; [done| |done..]. by intros [? _]%PathFacts.str_app_nil.
Qed.
Next Obligation.
  intros u id [now m]. unfold ptyRegistry_UnregisterPTY, Manager.UnregisterPTY. cbn.
  destruct (decide (u = "")) as [->|Hu]; [by rewrite decide_False by tauto|].
  destruct (decide (id = "")) as [->|Hid]; [rewrite orb_true_r, decide_False by tauto; done|].
  rewrite !bool_decide_eq_false_2 by done. cbn. destruct (activePTY m !! u) as [cur|] eqn:Ha; [|by rewrite decide_False by naive_solver].
  case_decide as Hc; cbn; [rewrite decide_False; [done|]; naive_solver|]. subst cur. by rewrite decide_True.
Qed.
Next Obligation.
  intros [now'|o] [now m]; [done|]. unfold manager_elsewhere. cbn. destruct (is_pty o) eqn:Ho; [done|].
  destruct (apply_ptys o m) as [Hp _]; [intros; by destruct o..|]. by apply (f_equal fst) in Hp.
Qed.
End registry.

Section runs.
Context {R : Type} `{Registry R} `{Environment} `{MapRange, Unicode, System}.
Context (s : Config).

(** A sequence of steps from the start. *)
Definition run_from (r : R) (ls : list (label (R := R))) : option (St (R := R)) :=
  foldl (λ t l, t ← t; exec s l t) (Some (start s r)) ls.

Lemma run_from_reachable r ls t : run_from r ls = Some t → reachable_from s r t.
Proof.
  unfold run_from. revert t. induction ls as [|l ls IH] using rev_ind; cbn [foldl].
  - intros t Ht. apply reachable_init. by injection Ht.
  - intros t. rewrite foldl_app. cbn [foldl]. destruct (foldl _ _ ls) as [t1|]; [|done]. intros Hl.
    eapply reachable_step; [by apply IH|by exists l].
Qed.
End runs.

(** ** A concrete service *)

Module PtyExample.
(** The tables of [unicode], for ASCII. *)
Definition ascii_letter (r : N) : bool := (((65 <=? r) && (r <=? 90)) || ((97 <=? r) && (r <=? 122)))%N.
Definition ascii_digit (r : N) : bool := ((48 <=? r) && (r <=? 57))%N.
Definition ascii_unicode : Unicode :=
  {| IsLetter := ascii_letter; IsDigit := ascii_digit;
     IsLetter_ascii _ _ := eq_refl; IsDigit_ascii _ _ := eq_refl; IsLetter_error := eq_refl; IsDigit_error := eq_refl |}.

Definition look_path (name : string) : option string :=
  if decide (name = "claude" ∨ name = "/usr/bin/claude") then Some "/usr/bin/claude" else None.
Lemma look_path_abs name p : str_elem slash name = false → look_path name = Some p → is_abs p = true.
Proof. unfold look_path. by case_decide; [intros _ [= <-]|]. Qed.
Definition system : System := {| LookPath := look_path; stat_is_dir _ := Some true; LookPath_abs := look_path_abs |}.

Definition request : AttachReq := mk_AttachReq "" (Some (mk_Resize 80 24 0 0)) "xterm" "claude" [].

(** A client that attaches, a stream that does not fail, no limiters, and a host
    that takes what it is given. *)
Definition environment : Environment :=
  {| ctx := Manager.witness_ctx; recv_first _ := Ok (CAttach request); send _ _ := None;
     attach_limit := None; input_limit := None; spawn _ _ := SpawnHost; stdin_write _ _ := None; resize _ _ := None;
     environ := ["PATH=/usr/bin"; "SECRET=x"; "TERM=dumb"] |}.

Definition config : Config := mk_Config true true "/mnt" DefaultPTYEnvPassthrough 4 DefaultPTYGracefulShutdown.

(** The manager, with the session of the user's daemon. *)
Definition registry : ptyRegistry := (6%Z, fst (witness_connect (NewManager witness_options))).

Abbreviation label := (@PtyService.label _ (manager_registry (H := elements_range))).
Abbreviation St := (St (R := ptyRegistry)).

Definition start : St :=
  @start _ (manager_registry (H := elements_range)) environment elements_range ascii_unicode system config registry.
Definition run : list label → option St :=
  @run_from _ (manager_registry (H := elements_range)) environment elements_range ascii_unicode system config registry.

Definition step : St → St → Prop := @step _ (manager_registry (H := elements_range)) environment config.

Definition elsewhere (c : elsewhere_call) : label := LOthers (@OtherElsewhere _ (manager_registry (H := elements_range)) c).
Definition active_of (t : St) : gmap string string :=
  @active _ (manager_registry (H := elements_range)) (reg (world t)).

(** The client types, the program answers and ends. *)
Definition hello : bytes := ["104"; "105"]%byte.
Definition session_run : list label :=
  [LRecv (Ok (CStdin hello)); LInPump; LMain OnClient; LRead hello None; LOutPump; LOutPump; LMain OnStdout;
   LRead [] (Some EOF); LOutPump; LOutPump; LOutPump; LMain OnStdout;
   LWait (mk_exitEvent (mk_ExitInfo 0 0) None); LWaiter; LMain OnExit; LMain OnExit].

Definition req : SpawnReq :=
  mk_SpawnReq "/usr/bin/claude" [] "/mnt/u/demo" ["PATH=/usr/bin"; "TERM=xterm"] (mk_WindowSize 80 24 0 0) DefaultPTYGracefulShutdown.

Example start_history :
  hist (world start) = [Received (Ok (CAttach request)); Registered "u" "u-pty-1"; Spawned req true; Sent (SAttached "u-pty-1" "") None].
Proof. vm_compute. reflexivity. Qed.

Example session_history :
  (λ t, (drop 4 (hist (world t)), main t)) <$> run session_run =
    Some ([Wrote hello None; Sent (SStdout hello) None; PTYExited (mk_ExitInfo 0 0) None; Sent (SExited 0 0) None;
           Unregistered "u" "u-pty-1"], MReturned None).
Proof. vm_compute. reflexivity. Qed.

(** The program writes more than the channel holds, and the client sends a
    frame that ends the session. *)
Definition flood : list label :=
  concat (replicate 8 [LRead hello None; LOutPump; LOutPump]) ++
  [LRead hello None; LRecv (Ok CNone); LInPump; LMain OnClient].
End PtyExample.

(** The states of the runs are reachable. *)
Abbreviation PtyExample_reachable :=
  (@run_from_reachable _ (manager_registry (H := elements_range)) PtyExample.environment elements_range PtyExample.ascii_unicode
     PtyExample.system PtyExample.config PtyExample.registry).
