(* ===== verification/PtyProtocol.v ===== *)
(** * What serving a terminal promises: the protocol of a session

    An automaton over the calls of [Attach] that says which call may follow
    which, the theorem that every run of the service, however its goroutines
    interleave and whatever the stream, the host and the limiters answer, is
    one of its runs, and what the service promises to the registry. *)
From S2P Require Import Prelude PtyHost Auth PtyService PtyRegistry.
From stdpp Require Import options.

(** The stream, from the client's side: it waits for the first frame, sees the
    output, or has seen the last frame (or the stream has failed). *)
Inductive frames : Type := Opening | Streaming | Ended.

#[export] Instance frames_eq_dec : EqDecision frames.
Proof. solve_decision. Defined.

#[export] Instance ExitInfo_eq_dec : EqDecision ExitInfo.
Proof. solve_decision. Defined.

Record phase : Type := mk_phase {
  registered : option (string * string);   (* the user and the session *)
  released : bool;
  frame_phase : frames;
  spawned : bool;
  shut : bool;                              (* the host was asked to end *)
  ended : bool;                             (* the host has ended *)
  status : option ExitInfo;                 (* the exit status it has reported *)
}.

Definition initial_phase : phase := mk_phase None false Opening false false false None.

Section protocol.
Context (s : Config).

Definition set_frames (f : frames) (p : phase) : phase :=
  mk_phase (registered p) (released p) f (spawned p) (shut p) (ended p) (status p).

(** The frames.  An error that ends a session, and the exit status, are sent
    when the host has ended; nothing is sent after the last frame, or after a
    send has failed. *)
Definition advance_frame (p : phase) (frame : ServerFrame) (err : option string) : option phase :=
  let next f := match err with None => f | Some _ => Ended end in
  match frame, frame_phase p with
  | SAttached sessionID cwd, Opening =>
    if spawned p && bool_decide (snd <$> registered p = Some sessionID) && bool_decide (cwd = "")
    then Some (set_frames (next Streaming) p) else None
  | SStdout payload, Streaming =>
    if decide (payload ≠ [] ∧ (Z.of_nat (length payload) ≤ bufferSize s)%Z) then Some (set_frames (next Streaming) p) else None
  | SExited code signal, Streaming =>
    if ended p && bool_decide (status p = Some (mk_ExitInfo code signal)) then Some (set_frames Ended p) else None
  | SError _ _, (Opening | Streaming) => if spawned p && negb (ended p) then None else Some (set_frames Ended p)
  | _, _ => None
  end.

Definition advance (p : phase) (a : action) : option phase :=
  if released p then None
  else match a with
  | Received _ => match registered p with None => Some p | Some _ => None end
  | Registered u id =>
    match registered p with
    | None => Some (mk_phase (Some (u, id)) false (frame_phase p) (spawned p) (shut p) (ended p) (status p))
    | Some _ => None
    end
  | AttachWaited _ => if bool_decide (registered p ≠ None) && negb (spawned p) then Some p else None
  | Spawned _ started =>
    if bool_decide (registered p ≠ None) && negb (spawned p)
    then Some (mk_phase (registered p) false (frame_phase p) started (shut p) (ended p) (status p)) else None
  | Sent frame err => advance_frame p frame err
  | InputWaited n _ => if spawned p && bool_decide (Z.of_nat n ≤ FrameMax s)%Z then Some p else None
  | Wrote payload _ => if spawned p && bool_decide (Z.of_nat (length payload) ≤ FrameMax s)%Z then Some p else None
  | Resized _ _ => if spawned p then Some p else None
  | ShutDown =>
    if spawned p && negb (shut p)
    then Some (mk_phase (registered p) false (frame_phase p) true true (ended p) (status p)) else None
  | Waited =>
    if spawned p && shut p then Some (mk_phase (registered p) false (frame_phase p) true true true (status p)) else None
  | PTYExited info _ => if spawned p then Some (mk_phase (registered p) false (frame_phase p) true (shut p) true (Some info)) else None
  | Unregistered u id =>
    if bool_decide (registered p = Some (u, id)) && (negb (spawned p) || ended p)
    then Some (mk_phase (registered p) true (frame_phase p) (spawned p) (shut p) (ended p) (status p)) else None
  end.

Fixpoint advance_all (p : phase) (h : history) : option phase :=
  match h with
  | [] => Some p
  | a :: h => p ← advance p a; advance_all p h
  end.
Definition protocol (h : history) : option phase := advance_all initial_phase h.

Lemma advance_all_app p h h' : advance_all p (h ++ h') = p ← advance_all p h; advance_all p h'.
Proof. revert p. induction h as [|a h IH]; intros p; [done|]. simpl. destruct (advance p a); [apply IH|done]. Qed.

Lemma protocol_app h h' : protocol (h ++ h') = p ← protocol h; advance_all p h'.
Proof. apply advance_all_app. Qed.
End protocol.

(** ** Every run follows the protocol *)

Section refinement.
Context {R : Type} `{Registry R} `{Environment} `{MapRange, Unicode, System}.
Context (s : Config).

#[local] Arguments protocol : simpl never.

Abbreviation World := (World (R := R)).
Abbreviation St := (St (R := R)).
Abbreviation M := (M (R := R)).

Lemma protocol_snoc h a p : protocol s h = Some p → protocol s (h ++ [a]) = advance s p a.
Proof. intros Hp. rewrite protocol_app, Hp. simpl. by destruct (advance s p a). Qed.

(** The phase of a session that runs, and what its goroutine knows of it. *)
Record linked (u id : string) (w : World) (r : attachRuntime) (p : phase) : Prop := {
  ln_protocol : protocol s (hist w) = Some p;
  ln_registered : registered p = Some (u, id);
  ln_released : released p = false;
  ln_spawned : spawned p = true;
  ln_stream : streamOpen r = true → frame_phase p = Streaming;
  ln_shut : shut p = shutdownOnce r;
  ln_ended : hostExited r = true → ended p = true;
  ln_status : hostExited r = true → streamOpen r = true → status p = Some (exitInfo r);
}.

(** A session whose host has ended, and that can be released. *)
Definition finished (u id : string) (w : World) : Prop :=
  ∃ p, protocol s (hist w) = Some p ∧ registered p = Some (u, id) ∧ released p = false ∧ ended p = true.

(** The effect of a handler: the registry is not touched, and an error ends the
    loop only when the host has ended. *)
Definition handles (u id : string) (w w' : World) (r' : attachRuntime) (err : option error) : Prop :=
  reg w' = reg w ∧ match err with None => ∃ p', linked u id w' r' p' | Some _ => finished u id w' end.

Lemma linked_call u id w r p a p' :
  linked u id w r p → advance s p a = Some p' →
  registered p' = registered p → released p' = false → spawned p' = true →
  (streamOpen r = true → frame_phase p' = Streaming) → shut p' = shutdownOnce r → (ended p = true → ended p' = true) → status p' = status p →
  linked u id (mk_World (hist w ++ [a]) (reg w)) r p'.
Proof.
  intros Hl Ha Hr Hrel Hsp Hst Hsh He Hex. split; cbn; [|by rewrite Hr; apply Hl|done..| |].
  - rewrite (protocol_snoc _ _ p); [done|apply Hl].
  - intros Hx. apply He, Hl, Hx.
  - rewrite Hex. apply Hl.
Qed.

Lemma shutdown_linked u id w r p w' r' :
  linked u id w r p → shutdown r w = (w', r') →
  reg w' = reg w ∧ shutdownOnce r' = true ∧ streamOpen r' = streamOpen r ∧ stdoutClosed r' = stdoutClosed r ∧
  hostExited r' = hostExited r ∧ ∃ p', linked u id w' r' p' ∧ frame_phase p' = frame_phase p ∧ (ended p = true → ended p' = true).
Proof.
  intros Hl. unfold shutdown. destruct (shutdownOnce r) eqn:Ho.
  { intros [= <- <-]. split_and!; [done..|]. by exists p. }
  intros [= <- <-]. cbn. split_and!; [done..|].
  exists (mk_phase (registered p) false (frame_phase p) true true (ended p) (status p)).
  split; [|done]. pose proof Hl as [E1 E2 E3 E4 E5 E6 E7 E8]. split; cbn; try done.
  rewrite (protocol_snoc _ _ p) by done. unfold advance. by rewrite E3, E4, E6, Ho.
Qed.

Lemma bind_run {A B} (m : M A) (f : A → M B) w w' a : m w = (w', a) → (m ≫= f) w = f a w'.
Proof. intros Hm. unfold mbind, M_bind. by rewrite Hm. Qed.

(** An error is sent, if the stream is open, when the host has ended. *)
Lemma sendApplicationError_handles u id w r p kind e w' err :
  linked u id w r p → ended p = true → runtime_sendApplicationError r kind e w = (w', err) → handles u id w w' r err.
Proof.
  intros Hl He. unfold runtime_sendApplicationError. destruct (streamOpen r) eqn:Ho; [|by intros [= <- <-]; split; [|exists p] ].
  intros [= <- <-]. split; [done|]. exists (set_frames Ended p). split; [|split_and!; [apply Hl..|exact He] ].
  cbn. rewrite (protocol_snoc _ _ p) by apply Hl. unfold advance, advance_frame. rewrite (ln_released _ _ _ _ _ Hl).
  by rewrite (ln_stream _ _ _ _ _ Hl Ho), He, andb_false_r.
Qed.

Lemma fail_session_handles u id w r p kind e w' r' keep err :
  linked u id w r p → fail_session r kind e w = (w', (r', keep, err)) →
  handles u id w w' r' err ∧ stdoutClosed r' = stdoutClosed r ∧ keep = true.
Proof.
  intros Hl. unfold fail_session. destruct (shutdown r w) as [w1 r1] eqn:Hs. rewrite (bind_run _ _ _ _ _ Hs).
  destruct (shutdown_linked _ _ _ _ _ _ _ Hl Hs) as (Hr & Ho & Hst & Hc & Hx & p1 & Hl1 & Hf & _).
  set (w2 := mk_World (hist w1 ++ [Waited]) (reg w1)). rewrite (bind_run _ _ _ w2 ()) by done.
  assert (Hl2 : linked u id w2 r1 (mk_phase (registered p1) false (frame_phase p1) true true true (status p1))).
  { apply (linked_call _ _ _ _ p1); try done; [|apply Hl1].
    unfold advance. by rewrite (ln_released _ _ _ _ _ Hl1), (ln_spawned _ _ _ _ _ Hl1), (ln_shut _ _ _ _ _ Hl1), Ho. }
  destruct (runtime_sendApplicationError r1 kind e w2) as [w3 e'] eqn:He. rewrite (bind_run _ _ _ _ _ He).
  intros [= <- <- <- <-]. split; [|done].
  destruct (sendApplicationError_handles _ _ _ _ _ _ _ _ _ Hl2 eq_refl He) as [Hr3 Hh]. split; [by rewrite Hr3|done].
Qed.

Lemma closeStream_linked u id w r p w' r' :
  linked u id w (mk_attachRuntime false (stdoutClosed r) (hostExited r) (exitInfo r) (shutdownOnce r)) p → closeStream r w = (w', r') →
  handles u id w w' r' None ∧ stdoutClosed r' = stdoutClosed r ∧ streamOpen r' = false.
Proof.
  intros Hl Hs. unfold closeStream in Hs. destruct (shutdown_linked _ _ _ _ _ _ _ Hl Hs) as (Hr & _ & Ho & Hc & _ & p' & Hl' & _).
  split; [|done]. split; [done|]. by exists p'.
Qed.

Lemma linked_close u id w r p : linked u id w r p → linked u id w (close_stdout r) p.
Proof. by intros [? ? ? ? ? ? ? ?]. Qed.

(** The events of the channels are those the pump sends. *)
Definition sized (ev : stdoutEvent) : Prop :=
  match ev with OutData data => data ≠ [] ∧ (Z.of_nat (length data) ≤ bufferSize s)%Z | OutErr _ => True end.

Lemma handleStdoutEvent_handles u id w r p result w' r' keep err :
  linked u id w r p → (∀ ev, result = Some ev → sized ev) →
  handleStdoutEvent r result w = (w', (r', keep, err)) → handles u id w w' r' err.
Proof.
  intros Hl Hsz. destruct result as [[data|[|text]]|]; cbn [handleStdoutEvent handleStdoutError].
  - destruct (_ || _) eqn:Hb; [by intros [= <- <- <- <-]; split; [|exists p]|].
    apply orb_false_iff in Hb as [_ Ho%negb_false_iff]. destruct (Hsz _ eq_refl) as [Hne Hle].
    set (ans := send (hist w) (SStdout data)).
    set (w1 := mk_World (hist w ++ [Sent (SStdout data) ans]) (reg w)). rewrite (bind_run _ _ _ w1 ans) by done.
    assert (Ha : advance s p (Sent (SStdout data) ans) = Some (set_frames (match ans with None => Streaming | Some _ => Ended end) p)).
    { unfold advance, advance_frame. rewrite (ln_released _ _ _ _ _ Hl), (ln_stream _ _ _ _ _ Hl Ho). by rewrite decide_True. }
    destruct ans as [e|].
    + destruct (closeStream r w1) as [w2 r2] eqn:Hc. rewrite (bind_run _ _ _ _ _ Hc). intros [= <- <- <- <-].
      assert (Hl1 : linked u id w1 (mk_attachRuntime false (stdoutClosed r) (hostExited r) (exitInfo r) (shutdownOnce r)) (set_frames Ended p)).
      { split; try apply Hl; [|done..]. cbn. rewrite (protocol_snoc _ _ p) by apply Hl. exact Ha. }
      destruct (closeStream_linked _ _ _ _ _ _ _ Hl1 Hc) as [[Hr Hh] _]. by split.
    + intros [= <- <- <- <-]. split; [done|]. exists (set_frames Streaming p).
      apply (linked_call _ _ _ _ p); try done; by apply Hl.
  - intros [= <- <- <- <-]. split; [done|]. exists p. by apply linked_close.
  - intros Hf. by eapply fail_session_handles.
  - intros [= <- <- <- <-]. split; [done|]. exists p. by apply linked_close.
Qed.

Lemma handleExitEvent_handles u id w r p result w' r' err :
  linked u id w r p → (_ ← logPTYExited result; handleExitEvent r result) w = (w', (r', err)) → handles u id w w' r' err.
Proof.
  intros Hl. set (w1 := mk_World (hist w ++ [PTYExited (info result) (exit_err result)]) (reg w)).
  rewrite (bind_run _ _ _ w1 ()) by done. unfold handleExitEvent.
  set (r1 := mk_attachRuntime (streamOpen r) (stdoutClosed r) true (info result) (shutdownOnce r)).
  set (p1 := mk_phase (registered p) false (frame_phase p) true (shut p) true (Some (info result))).
  assert (Hl1 : linked u id w1 r1 p1).
  { split; cbn; try done; [|apply Hl..]. rewrite (protocol_snoc _ _ p) by apply Hl.
    unfold advance. by rewrite (ln_released _ _ _ _ _ Hl), (ln_spawned _ _ _ _ _ Hl). }
  destruct (exit_err result) as [text|]; [|by intros [= <- <- <-]; split; [|exists p1] ].
  destruct (runtime_sendApplicationError r1 KIND_INTERNAL (ErrText text) w1) as [w2 e] eqn:He.
  rewrite (bind_run _ _ _ _ _ He). intros [= <- <- <-].
  destruct (sendApplicationError_handles _ _ _ _ _ _ _ _ _ Hl1 eq_refl He) as [Hr Hh]. by split.
Qed.
(** A call of the host or a limiter within a session that runs. *)
Lemma linked_record u id w r p a :
  linked u id w r p → advance s p a = Some p → linked u id (mk_World (hist w ++ [a]) (reg w)) r p.
Proof. intros Hl Ha. apply (linked_call _ _ _ _ p); try done; apply Hl. Qed.

Ltac record_step Hl :=
  apply linked_record; [exact Hl|]; unfold advance; rewrite (ln_released _ _ _ _ _ Hl), (ln_spawned _ _ _ _ _ Hl);
  rewrite ?bool_decide_eq_true_2 by lia; done.

Lemma handleClientFrame_linked u id w r p frame w' res :
  linked u id w r p → handleClientFrame s frame w = (w', res) → reg w' = reg w ∧ linked u id w' r p.
Proof.
  intros Hl. destruct frame as [req|payload|size| |]; cbn [handleClientFrame]; try by intros [= <- <-].
  - unfold handleClientStdin. case_decide as Hlen; [by intros [= <- <-]|].
    assert (Hwrote : ∀ w1 w2 res2, linked u id w1 r p →
      (err ← call (λ h, stdin_write h payload) (Wrote payload);
       mret (match err with Some e => Err (KIND_INTERNAL, ErrText e) | None => Ok false end) : M (Prelude.result (Error_Kind * error) bool)) w1 = (w2, res2) →
      reg w2 = reg w1 ∧ linked u id w2 r p).
    { intros w1 w2 res2 Hl1 [= <- <-]. split; [done|]. cbn. record_step Hl1. }
    destruct input_limit as [limit|]; [|rewrite (bind_run _ _ _ w None) by done; by apply Hwrote].
    set (ans := limit (hist w) (length payload)). set (w1 := mk_World (hist w ++ [InputWaited (length payload) ans]) (reg w)).
    assert (Hl1 : linked u id w1 r p) by (subst w1; record_step Hl).
    rewrite (bind_run _ _ _ w1 ans) by done. destruct ans; [by intros [= <- <-]|exact (Hwrote w1 _ _ Hl1)].
  - intros [= <- <-]. split; [done|]. cbn. record_step Hl.
Qed.

Lemma handleClientEvent_handles u id w r p result w' r' keep err :
  linked u id w r p → handleClientEvent s r result w = (w', (r', keep, err)) → handles u id w w' r' err.
Proof.
  intros Hl. destruct result as [[frame|e]|]; cbn [handleClientEvent].
  - destruct (handleClientFrame s frame w) as [w1 res] eqn:Hf. rewrite (bind_run _ _ _ _ _ Hf).
    destruct (handleClientFrame_linked _ _ _ _ _ _ _ _ Hl Hf) as [Hr Hl1].
    destruct res as [[]|[kind e]]; [|by intros [= <- <- <- <-]; split; [|exists p]|].
    + destruct (shutdown r w1) as [w2 r2] eqn:Hs. rewrite (bind_run _ _ _ _ _ Hs). intros [= <- <- <- <-].
      destruct (shutdown_linked _ _ _ _ _ _ _ Hl1 Hs) as (Hr2 & _ & _ & _ & _ & p2 & Hl2 & _).
      split; [by rewrite Hr2|by exists p2].
    + intros Hfs. destruct (fail_session_handles _ _ _ _ _ _ _ _ _ _ _ Hl1 Hfs) as [[Hr2 Hh] _]. split; [by rewrite Hr2|done].
  - destruct (closeStream r w) as [w1 r1] eqn:Hc. rewrite (bind_run _ _ _ _ _ Hc). intros [= <- <- <- <-].
    eapply closeStream_linked in Hc as [Hh _]; [exact Hh|]. destruct Hl as [E1 E2 E3 E4 E5 E6 E7 E8]. by split.
  - intros [= <- <- <- <-]. split; [done|by exists p].
Qed.

Lemma finish_handles u id w r p w' err :
  linked u id w r p → readyToExit r = true → finish r w = (w', err) → reg w' = reg w ∧ finished u id w'.
Proof.
  intros Hl [Hx _]%andb_true_iff. unfold finish. pose proof (ln_ended _ _ _ _ _ Hl Hx) as He.
  destruct (streamOpen r) eqn:Ho; intros [= <- <-].
  - split; [done|]. exists (set_frames Ended p). split; [|split_and!; [apply Hl..|exact He] ]. cbn.
    rewrite (protocol_snoc _ _ p) by apply Hl. unfold advance, advance_frame. rewrite (ln_released _ _ _ _ _ Hl).
    by rewrite (ln_stream _ _ _ _ _ Hl Ho), He, (ln_status _ _ _ _ _ Hl Hx Ho), bool_decide_eq_true_2 by (by destruct (exitInfo r)).
  - split; [done|]. exists p. split_and!; [apply Hl..|exact He].
Qed.

(** ** The flow before the session runs *)

(** What a part of the flow does before a host was started: it stays in the
    phases without a host, and reports an error only after the frame that
    says so. *)
Definition before (w : World) (who : option (string * string)) : Prop :=
  protocol s (hist w) = Some (mk_phase who false Opening false false false None).
Definition refused (w : World) (who : option (string * string)) : Prop :=
  protocol s (hist w) = Some (mk_phase who false Ended false false false None).

Lemma applicationError_refused w who kind e w' err :
  before w who → applicationError kind e w = (w', err) → refused w' who ∧ reg w' = reg w.
Proof.
  intros Hb [= <- <-]. split; [|done]. unfold refused. cbn. by rewrite (protocol_snoc _ _ _ Hb).
Qed.

Lemma before_snoc w who a :
  before w who → advance s (mk_phase who false Opening false false false None) a = Some (mk_phase who false Opening false false false None) →
  before (mk_World (hist w ++ [a]) (reg w)) who.
Proof. intros Hb Ha. unfold before. cbn. by rewrite (protocol_snoc _ _ _ Hb). Qed.

Lemma refuse {A} (g : error → A) w who kind err w' res :
  before w who → (g <$> applicationError kind err : M A) w = (w', res) →
  ∃ e, res = g e ∧ refused w' who ∧ reg w' = reg w.
Proof.
  intros Hb. destruct (applicationError kind err w) as [w1 e] eqn:He. unfold fmap, M_fmap.
  rewrite (bind_run _ _ _ _ _ He). intros [= <- <-]. exists e. split; [done|]. by eapply applicationError_refused.
Qed.

Lemma receiveAttachRequest_before r w' res :
  receiveAttachRequest (mk_World [] r) = (w', res) →
  reg w' = r ∧ match res with Ok _ => before w' None | Err _ => before w' None ∨ refused w' None end.
Proof.
  unfold receiveAttachRequest. destruct (UserIDFromContext ctx) as [u|]; [|by intros [= <- <-]; split; [|left] ].
  set (w1 := mk_World (R := R) [Received (recv_first [])] r). rewrite (bind_run _ _ _ w1 (recv_first [])) by done.
  assert (Hb : before w1 None) by done. destruct (recv_first []) as [frame|e]; [|by intros [= <- <-]; split; [|left] ].
  destruct frame as [a|b|z| |]; [by intros [= <- <-]|..];
    (intros Hx; destruct (refuse _ _ _ _ _ _ _ Hb Hx) as (e & -> & Hr & Hreg); split; [done|by right]).
Qed.

Lemma reserveSession_before u w w' res :
  before w None → reserveSession u w = (w', res) →
  match res with
  | Ok (id, _) => before w' (Some (u, id)) ∧ u ≠ "" ∧ id ≠ "" ∧ active (reg w) !! u = None ∧ active (reg w') = <[u := id]> (active (reg w))
  | Err _ => refused w' None ∧ active (reg w') = active (reg w)
  end.
Proof.
  intros Hb. unfold reserveSession. pose proof (LookupDaemon_active u (reg w)) as Hla.
  destruct (LookupDaemon u (reg w)) as [r1 ws] eqn:Hlook. cbn in Hla. set (w1 := mk_World (hist w) r1).
  rewrite (bind_run _ _ _ w1 ws) by (unfold registry_lookup; by rewrite Hlook). rewrite <-Hla.
  destruct ws as [ws|]; [|intros Hx; destruct (refuse _ w1 _ _ _ _ _ Hb Hx) as (e & -> & Hr & Hreg); by rewrite Hreg].
  pose proof (RegisterPTY_active u r1) as Hra. destruct (RegisterPTY u r1) as [r2 [[id|]|e]] eqn:Hreg.
  - rewrite (bind_run _ _ _ (mk_World (hist w ++ [Registered u id]) r2) (Ok (Some id))) by (unfold registry_register; cbn; by rewrite Hreg).
    intros [= <- <-]. split; [|done]. unfold before. cbn. by rewrite (protocol_snoc _ _ _ Hb).
  - rewrite (bind_run _ _ _ (mk_World (hist w) r2) (Ok None)) by (unfold registry_register; cbn; by rewrite Hreg).
    intros Hx. destruct (refuse _ (mk_World (hist w) r2) _ _ _ _ _ Hb Hx) as (e & -> & Hr & Hreg'). rewrite Hreg'. by destruct Hra.
  - rewrite (bind_run _ _ _ (mk_World (hist w) r2) (Err e)) by (unfold registry_register; cbn; by rewrite Hreg).
    intros Hx. destruct (refuse _ (mk_World (hist w) r2) _ _ _ _ _ Hb Hx) as (e' & -> & Hr & Hreg'). by rewrite Hreg'.
Qed.

Lemma enforceAttachLimit_before who w w' res :
  who ≠ None → before w who → enforceAttachLimit w = (w', res) →
  reg w' = reg w ∧ match res with None => before w' who | Some _ => refused w' who end.
Proof.
  intros Hw Hb. unfold enforceAttachLimit. destruct attach_limit as [limit|]; [|by intros [= <- <-] ].
  set (w1 := mk_World (hist w ++ [AttachWaited (limit (hist w))]) (reg w)). rewrite (bind_run _ _ _ w1 (limit (hist w))) by done.
  assert (Hb1 : before w1 who) by (apply before_snoc; [done|]; unfold advance; cbn; by rewrite bool_decide_eq_true_2).
  destruct (limit (hist w)); [|by intros [= <- <-] ].
  intros Hx. destruct (refuse _ w1 _ _ _ _ _ Hb1 Hx) as (e & -> & Hr & Hreg). by split.
Qed.

Lemma startHost_before u id ws a w w' res :
  before w (Some (u, id)) → startHost s u ws a w = (w', res) →
  reg w' = reg w ∧
  match res with
  | Ok _ => protocol s (hist w') = Some (mk_phase (Some (u, id)) false Opening true false false None)
  | Err _ => refused w' (Some (u, id))
  end.
Proof.
  intros Hb. unfold startHost.
  destruct (prepareSpawn s PtyService.environ u ws a) as [plan|e]; [|intros Hx; destruct (refuse _ w _ _ _ _ _ Hb Hx) as (e' & -> & Hr & Hreg); by split].
  set (req := spawnRequest s plan a). set (ans := spawn (hist w) req).
  set (w1 := mk_World (hist w ++ [Spawned req (match ans with SpawnHost => true | _ => false end)]) (reg w)).
  rewrite (bind_run _ _ _ w1 ans) by done.
  assert (Hp1 : protocol s (hist w1) = Some (mk_phase (Some (u, id)) false Opening (match ans with SpawnHost => true | _ => false end) false false None)).
  { cbn. by rewrite (protocol_snoc _ _ _ Hb). }
  destruct ans; [intros Hx; destruct (refuse _ w1 _ _ _ _ _ Hp1 Hx) as (e' & -> & Hr & Hreg); by split..|]. by intros [= <- <-].
Qed.

(** A session that is over: nothing is registered that was not released, and a
    host that was started has ended. *)
Definition over (w : World) : Prop :=
  ∃ p, protocol s (hist w) = Some p ∧ (registered p ≠ None → released p = true) ∧ (spawned p = true → ended p = true).

Lemma refused_over w : refused w None → over w.
Proof. intros Hr. eexists. by split. Qed.

Lemma release_over u id w w' p :
  protocol s (hist w) = Some p → registered p = Some (u, id) → released p = false → (spawned p = true → ended p = true) →
  registry_unregister u id w = (w', ()) → over w' ∧ active (reg w') = active (UnregisterPTY u id (reg w)).
Proof.
  intros Hp Hr Hrel He [= <-]. split; [|done]. exists (mk_phase (registered p) true (frame_phase p) (spawned p) (shut p) (ended p) (status p)).
  cbn. rewrite (protocol_snoc _ _ p) by done. unfold advance. rewrite Hrel, Hr, bool_decide_eq_true_2 by done.
  destruct (spawned p); [by rewrite He|done].
Qed.

Lemma released_active u id r r0 :
  u ≠ "" → id ≠ "" → active r0 !! u = None → active r = <[u := id]> (active r0) → active (UnregisterPTY u id r) = active r0.
Proof. intros Hu Hid Hn Ha. rewrite UnregisterPTY_active, Ha, lookup_insert_eq, decide_True by done. by apply delete_insert_id. Qed.


(** [attach] up to the loop: either the session runs, registered, with its host
    and its first frame sent, or it is over and the registry is as before. *)
Lemma attach_opens r w o :
  attach s (mk_World [] r) = (w, o) →
  match o with
  | Running u id => (∃ p, linked u id w newAttachRuntime p) ∧ u ≠ "" ∧ id ≠ "" ∧ active r !! u = None ∧ active (reg w) = <[u := id]> (active r)
  | Stopped _ => over w ∧ active (reg w) = active r
  end.
Proof.
  unfold attach. destruct (receiveAttachRequest (mk_World [] r)) as [w1 res1] eqn:H4. rewrite (bind_run _ _ _ _ _ H4).
  apply receiveAttachRequest_before in H4 as [Hr1 Hb1].
  destruct res1 as [[u a]|e]; [|by intros [= <- <-]; rewrite Hr1; split; [|done]; destruct Hb1 as [Hb1|Hb1]; eexists; split].
  destruct (reserveSession u w1) as [w2 res2] eqn:H5. rewrite (bind_run _ _ _ _ _ H5).
  apply (reserveSession_before _ _ _ _ Hb1) in H5. rewrite Hr1 in H5.
  destruct res2 as [[id ws]|e]; [|intros [= <- <-]; destruct H5; by split; [apply refused_over|] ].
  destruct H5 as (Hb2 & Hu0 & Hid0 & Hnone & Hact).
  assert (Hdefer : ∀ w3 w4 o4 err p, protocol s (hist w3) = Some p → registered p = Some (u, id) → released p = false →
    (spawned p = true → ended p = true) → reg w3 = reg w2 → attach_deferred u id err w3 = (w4, o4) →
    o4 = Stopped err ∧ over w4 ∧ active (reg w4) = active r).
  { intros w3 w4 o4 err p Hp Hrg Hrl He Hrw. unfold attach_deferred.
    destruct (registry_unregister u id w3) as [w5 []] eqn:Hu. rewrite (bind_run _ _ _ _ _ Hu). intros [= <- <-].
    destruct (release_over _ _ _ _ _ Hp Hrg Hrl He Hu) as [Ho Ha]. split_and!; [done..|]. rewrite Ha, Hrw. by apply released_active. }
  destruct (enforceAttachLimit w2) as [w3 res3] eqn:H6. rewrite (bind_run _ _ _ _ _ H6).
  apply enforceAttachLimit_before with (who := Some (u, id)) in H6 as [Hr3 Hb3]; [|done..].
  destruct res3 as [e|]; [intros Hd; by destruct (Hdefer _ _ _ _ _ Hb3 eq_refl eq_refl ltac:(done) Hr3 Hd) as (-> & ? & ?)|].
  destruct (startHost s u ws a w3) as [w4 res4] eqn:H7. rewrite (bind_run _ _ _ _ _ H7).
  apply (startHost_before _ _ _ _ _ _ _ Hb3) in H7 as [Hr4 Hb4]. rewrite Hr3 in Hr4.
  destruct res4 as [cwd|e]; [|intros Hd; by destruct (Hdefer _ _ _ _ _ Hb4 eq_refl eq_refl ltac:(done) Hr4 Hd) as (-> & ? & ?)].
  set (ans := send (hist w4) (SAttached id "")). set (w5 := mk_World (hist w4 ++ [Sent (SAttached id "") ans]) (reg w4)).
  rewrite (bind_run _ _ _ w5 ans) by done.
  assert (Hp5 : protocol s (hist w5) = Some (mk_phase (Some (u, id)) false (match ans with None => Streaming | Some _ => Ended end) true false false None)).
  { cbn. rewrite (protocol_snoc _ _ _ Hb4). cbn. by rewrite !bool_decide_eq_true_2. }
  destruct ans as [e|].
  - set (w6 := mk_World ((hist w5 ++ [ShutDown]) ++ [Waited]) (reg w5)). rewrite (bind_run _ _ _ w6 ()) by done.
    assert (Hp6 : protocol s (hist w6) = Some (mk_phase (Some (u, id)) false Ended true true true None)) by (cbn [hist w6]; by rewrite <-app_assoc, protocol_app, Hp5).
    intros Hd. by destruct (Hdefer _ _ _ _ _ Hp6 eq_refl eq_refl ltac:(done) Hr4 Hd) as (-> & ? & ?).
  - intros [= <- <-]. split_and!; [eexists; by split|done..|]. cbn [reg w5]. by rewrite Hr4.
Qed.

(** ** The goroutines *)

Definition queued {E} (p : pump E) : list E := match p with PSend evs _ => evs | _ => [] end.

(** The sessions that hold an entry of the registry. *)
Definition holders (t : St) : list (string * string) :=
  match main t with MLoop => (user t, session t) :: others t | MReturned _ => others t end.

(** Each of them holds the entry of its user, and no two are of one user. *)
Record held (r : R) (live : list (string * string)) : Prop := {
  held_users : NoDup live.*1;
  held_active : ∀ u id, (u, id) ∈ live → active r !! u = Some id;
}.

Lemma held_same r r' live : held r live → active r' = active r → held r' live.
Proof. intros [Hn Ha] He. split; [done|]. intros u id. rewrite He. apply Ha. Qed.

Lemma held_permuted r live live' : held r live → live ≡ₚ live' → held r live'.
Proof. intros [Hn Ha] Hp. split; [by rewrite <-Hp|]. intros u id. rewrite <-Hp. apply Ha. Qed.

Lemma held_register r r' live u id :
  held r live → RegisterPTY u r = (r', Ok (Some id)) → held r' ((u, id) :: live).
Proof.
  intros [Hn Ha] Hr. pose proof (RegisterPTY_active u r) as Hra. rewrite Hr in Hra. destruct Hra as (_ & _ & Hnone & Hact).
  split; cbn.
  - constructor; [|done]. intros ([u' id'] & -> & Hin)%list_elem_of_fmap. apply Ha in Hin. cbn in *. congruence.
  - intros u' id' [ [= -> ->]|Hin]%elem_of_cons; rewrite Hact; [apply lookup_insert_eq|].
    apply Ha in Hin. rewrite lookup_insert_ne; [done|]. congruence.
Qed.

Lemma held_release r live u id : held r ((u, id) :: live) → held (UnregisterPTY u id r) live.
Proof.
  intros [ [Hu Hn]%NoDup_cons Ha]. split; [done|]. intros u' id' Hin.
  rewrite UnregisterPTY_active. case_decide as Hd; [|apply Ha; by right].
  rewrite lookup_delete_ne; [apply Ha; by right|]. intros ->. apply Hu. by apply (list_elem_of_fmap_2 fst live (u', id')).
Qed.

Lemma held_drop u id (live : list (string * string)) :
  NoDup live.*1 → (u, id) ∈ live → live ≡ₚ (u, id) :: filter (λ e, e ≠ (u, id)) live.
Proof.
  intros Hn%NoDup_fmap_1 Hin. apply NoDup_Permutation; [done| |].
  - constructor; [by intros [? _]%list_elem_of_filter|by apply NoDup_filter].
  - intros e. rewrite elem_of_cons, list_elem_of_filter. destruct (decide (e = (u, id))) as [->|]; naive_solver.
Qed.

(** Whatever the others do, every session that holds an entry keeps it: those of
    [mine] are not released by the others. *)
Lemma other_step_held c r live mine r' live' :
  held r (mine ++ live) → other_step c r live = Some (r', live') → held r' (mine ++ live').
Proof.
  intros Hh Hs. destruct c as [u|u|u id|o]; cbn in Hs.
  - simplify_eq. eapply held_same; [done|]. apply LookupDaemon_active.
  - destruct (RegisterPTY u r) as [r1 a] eqn:Hr. simplify_eq. destruct a as [[id|]|e].
    + eapply held_permuted; [by eapply held_register|]. apply Permutation_middle.
    + eapply held_same; [done|]. pose proof (RegisterPTY_active u r) as Hra. rewrite Hr in Hra. apply Hra.
    + eapply held_same; [done|]. pose proof (RegisterPTY_active u r) as Hra. by rewrite Hr in Hra.
  - case_decide as Hin; [|done]. simplify_eq. apply held_release. eapply held_permuted; [done|].
    rewrite Permutation_middle. apply Permutation_app_head, held_drop; [|done].
    pose proof (held_users _ _ Hh) as Hn. rewrite fmap_app in Hn. by apply NoDup_app in Hn as (_ & _ & ?).
  - simplify_eq. eapply held_same; [done|]. apply elsewhere_active.
Qed.

Record good (t : St) : Prop := {
  gd_main : match main t with
            | MLoop => (∃ p, linked (user t) (session t) (world t) (rt t) p) ∧ user t ≠ "" ∧ session t ≠ ""
            | MReturned _ => over (world t)
            end;
  gd_sized : Forall sized (stdoutCh t ++ queued (out_pump t));
  gd_held : held (reg (world t)) (holders t);
}.

Lemma conclude_good err t :
  finished (user t) (session t) (world t) → Forall sized (stdoutCh t ++ queued (out_pump t)) →
  held (reg (world t)) ((user t, session t) :: others t) → good (conclude err t).
Proof.
  intros (p & Hp & Hr & Hrel & He) Hsz Hh. unfold conclude.
  destruct (registry_unregister (user t) (session t) (world t)) as [w' []] eqn:Hu.
  destruct (release_over _ _ _ _ _ Hp Hr Hrel (λ _, He) Hu) as [Ho _]. split; [done..|].
  injection Hu as <-. by apply held_release.
Qed.

Lemma continue_good t r out inp err w :
  main t = MLoop → handles (user t) (session t) (world t) w r err → user t ≠ "" ∧ session t ≠ "" →
  held (reg (world t)) ((user t, session t) :: others t) → Forall sized (stdoutCh t ++ queued (out_pump t)) →
  good (continue_with r out inp err w t).
Proof.
  intros Hm [Hreg Hh] Ha Hld Hsz. unfold continue_with. destruct err as [e|].
  - apply conclude_good; [done..|]. cbn. by rewrite Hreg.
  - split; [|done|]; cbn; [by rewrite Hm|]. unfold holders. cbn. by rewrite Hm, Hreg.
Qed.

(** An iteration of the loop: it ends, or handles an event. *)
Lemma main_step_cases b t t' p :
  main t = MLoop → linked (user t) (session t) (world t) (rt t) p → Forall sized (stdoutCh t ++ queued (out_pump t)) →
  main_step s b t = Some t' →
  (∃ w err, reg w = reg (world t) ∧ finished (user t) (session t) w ∧ t' = conclude err (set_world w t)) ∨
  (∃ r out inp err w t0, handles (user t) (session t) (world t) w r err ∧ t' = continue_with r out inp err w t0 ∧
     user t0 = user t ∧ session t0 = session t ∧ main t0 = MLoop ∧ world t0 = world t ∧ others t0 = others t ∧
     Forall sized (stdoutCh t0 ++ queued (out_pump t0))).
Proof.
  intros Hmain Hl Hsz Hstep. unfold main_step in Hstep. rewrite Hmain in Hstep.
  destruct (readyToExit (rt t)) eqn:Hready.
  { destruct (finish (rt t) (world t)) as [w err] eqn:Hf. simplify_eq. left. exists w, err.
    by destruct (finish_handles _ _ _ _ _ _ _ Hl Hready Hf). }
  right. destruct b.
  - destruct (stdout_on t); [|done]. destruct (receive _ _) as [[result rest]|] eqn:Hrecv; [|done]. cbn in Hstep.
    assert (Hrest : (∀ ev, result = Some ev → sized ev) ∧ Forall sized (rest ++ queued (out_pump t))).
    { unfold receive in Hrecv. destruct (stdoutCh t) as [|ev ch]; [destruct (stdoutCh_closed t); by simplify_eq|].
      simplify_eq. cbn in Hsz. apply Forall_cons in Hsz as [Hev Hsz]. split; [intros ? [= <-]; exact Hev|exact Hsz]. }
    destruct (handleStdoutEvent (rt t) result (world t)) as [w [[r keep] err]] eqn:Hh. simplify_eq.
    do 6 eexists. split_and!; [by eapply handleStdoutEvent_handles; [|apply Hrest|]|done..|apply Hrest].
  - destruct (client_on t); [|done]. destruct (receive _ _) as [[result rest]|] eqn:Hrecv; [|done]. cbn in Hstep.
    destruct (handleClientEvent s (rt t) result (world t)) as [w [[r keep] err]] eqn:Hh. simplify_eq.
    do 6 eexists. split_and!; [by eapply handleClientEvent_handles|done..].
  - destruct (exitCh t) as [|result rest]; [done|].
    destruct ((_ ← logPTYExited result; handleExitEvent (rt t) result) (world t)) as [w [r err]] eqn:Hh. simplify_eq.
    do 6 eexists. split_and!; [by eapply handleExitEvent_handles|done..].
Qed.

Lemma main_step_good b t t' : good t → main_step s b t = Some t' → good t'.
Proof.
  intros [Hm Hsz Hh] Hstep. unfold holders in Hh. destruct (main t) eqn:Hmain; [|unfold main_step in Hstep; by rewrite Hmain in Hstep].
  destruct Hm as [[p Hl] Ha].
  destruct (main_step_cases _ _ _ _ Hmain Hl Hsz Hstep) as [(w & err & Hreg & Hf & ->)|(r & out & inp & err & w & t0 & Hhd & -> & Hu & Hi & Hm0 & Hw & Ho & Hsz0)].
  - apply conclude_good; [done..|]. cbn. by rewrite Hreg.
  - apply continue_good; rewrite ?Hu, ?Hi, ?Hw, ?Ho; done.
Qed.

Lemma exec_good l t t' : good t → exec s l t = Some t' → good t'.
Proof.
  intros Hg Hstep. destruct l as [b| | | |data err|answer|e|c]; cbn [exec] in Hstep.
  - by eapply main_step_good.
  - destruct Hg as [Hm Hsz Hh]. destruct (out_pump t) as [|[|ev evs] last| |] eqn:Hp; cbn in Hstep; try done.
    + destruct last; simplify_eq; split; try done; cbn in *; by rewrite app_nil_r in *.
    + destruct (decide _); [|done]. simplify_eq/=. split; [done| |done]. cbn. rewrite <-app_assoc. done.
    + simplify_eq. by split.
  - destruct Hg as [Hm Hsz Hh]. destruct (pump_step (in_pump t) _) as [[[p ch] closed]|]; [|done]. simplify_eq/=. by split.
  - destruct Hg as [Hm Hsz Hh]. destruct (waiter t); try done. destruct (decide _); [|done]. simplify_eq. by split.
  - destruct Hg as [Hm Hsz Hh]. destruct (out_pump t) eqn:Hp; try done. destruct (decide _) as [Hle|]; [|done]. simplify_eq. split; [done| |done].
    cbn in *. rewrite app_nil_r in Hsz. apply Forall_app. split; [done|]. apply Forall_app. split.
    + case_decide; [constructor|]. by apply Forall_singleton.
    + destruct err; [by apply Forall_singleton|constructor].
  - destruct Hg as [Hm Hsz Hh]. destruct (in_pump t); try done. destruct answer; simplify_eq; by split.
  - destruct Hg as [Hm Hsz Hh]. destruct (waiter t); try done. simplify_eq. by split.
  - destruct Hg as [Hm Hsz Hh]. destruct (other_step c _ _) as [[r live]|] eqn:Ho; [|done]. cbn in Hstep. simplify_eq.
    unfold holders in Hh. split; [|done|].
    + cbn. destruct (main t); [|done]. by destruct Hm as [[p [E1 E2 E3 E4 E5 E6 E7 E8]] Ha]; split; [exists p|].
    + unfold holders. cbn. destruct (main t); [by apply (other_step_held _ _ _ [(user t, session t)] _ _ Hh Ho)|].
      by apply (other_step_held _ _ _ [] _ _ Hh Ho).
Qed.

Lemma start_good r : good (start s r).
Proof.
  unfold start. destruct (attach s (mk_World [] r)) as [w o] eqn:Ha. apply attach_opens in Ha.
  assert (Hheld : held r (map_to_list (active r))).
  { split; [apply NoDup_fst_map_to_list|]. intros u id. apply elem_of_map_to_list. }
  destruct o as [err|u id].
  - split; [apply Ha|constructor|]. eapply held_same; [done|apply Ha].
  - destruct Ha as (Hl & Hu & Hid & Hn & Hact). split; [done|constructor|]. unfold holders. cbn. split; cbn.
    + constructor; [|apply NoDup_fst_map_to_list]. intros ([u' id'] & -> & Hin%elem_of_map_to_list)%list_elem_of_fmap. cbn in *. congruence.
    + intros u' id' [ [= -> ->]|Hin%elem_of_map_to_list]%elem_of_cons; rewrite Hact; [apply lookup_insert_eq|].
      rewrite lookup_insert_ne; [done|]. congruence.
Qed.

Lemma reachable_good r t : reachable_from s r t → good t.
Proof. apply reachable_invariant; [intros ? <-; apply start_good|]. intros t1 t2 Hg [l Hl]. by eapply exec_good. Qed.

(** C6. Serving a terminal follows the protocol.  However the goroutines
    interleave, and whatever the client, the host and the limiters answer, the
    calls made so far are a run of the protocol: the first frame is the
    acknowledgement, sent once a host runs for a registered session, or an
    error; then come output frames that are not empty and within the limit, and
    one last frame, an error or the exit status the host has reported; nothing
    is sent after it or after a send has failed; the host is asked to end at
    most once; the user's session is released once, and only when the host has
    ended.  When [Attach] has returned, what it
    registered is released and the host it started has ended. *)
Theorem session_protocol (r : R) (t : St) :
  reachable_from s r t →
  ∃ p, protocol s (hist (world t)) = Some p ∧
    match main t with
    | MLoop => registered p = Some (user t, session t) ∧ released p = false ∧ spawned p = true
    | MReturned _ => (registered p ≠ None → released p = true) ∧ (spawned p = true → ended p = true)
    end.
Proof.
  intros [Hm _ _]%reachable_good. destruct (main t).
  - destruct Hm as [[p Hl] _]. exists p. split_and!; apply Hl.
  - destruct Hm as (p & Hp & Hr). by exists p.
Qed.

Lemma continue_returns r out inp err w t e :
  main t = MLoop → main (continue_with r out inp err w t) = MReturned e →
  reg (world (continue_with r out inp err w t)) = UnregisterPTY (user t) (session t) (reg w).
Proof. intros Hm. unfold continue_with. destruct err; [done|]. cbn. congruence. Qed.

Lemma exec_returns l t t' err :
  good t → main t = MLoop → exec s l t = Some t' → main t' = MReturned err →
  reg (world t') = UnregisterPTY (user t) (session t) (reg (world t)).
Proof.
  intros [Hmain Hsz _] Hm Hstep Hret. rewrite Hm in Hmain. destruct Hmain as [[p Hl] _].
  destruct l as [b| | | |data e|answer|e|c]; cbn [exec] in Hstep;
    [|exfalso; try (destruct (pump_step _ _) as [[[? ?] ?]|]; [|done]; cbn in Hstep);
      try (destruct (other_step _ _ _) as [[? ?]|]; [|done]; cbn in Hstep); repeat case_match; simplify_eq/=; congruence..].
  destruct (main_step_cases _ _ _ _ Hm Hl Hsz Hstep) as [(w & e & Hr & _ & ->)|(r & out & inp & e & w & t0 & [Hr _] & -> & Hu & Hi & Hm0 & Hw & _)].
  - cbn. by rewrite Hr.
  - rewrite (continue_returns _ _ _ _ _ _ _ Hm0 Hret). by rewrite Hu, Hi, Hr.
Qed.

(** The user of [t] is registered with its session and cannot start another. *)
Definition holds_user (t : St) : Prop :=
  active (reg (world t)) !! user t = Some (session t) ∧
  ∀ r' id, RegisterPTY (user t) (reg (world t)) ≠ (r', Ok (Some id)).

(** C28. The registry.  Other sessions, of this user or of others, look daemons
    up, register and release what they have registered at any time, and the rest
    of the program goes on (a daemon connects, is lost, or its session expires).
    While this session runs its user is registered with it, so that no other
    session of the user can start; when [Attach] returns, the entry is removed
    and nothing else is changed; the other sessions keep the entries they hold,
    while it runs and after; and an [Attach] that ends before leaves the registry
    as it was. *)
Theorem session_registry (r : R) (t : St) :
  reachable_from s r t →
  (main t = MLoop →
     holds_user t ∧
     (∀ l t' err, exec s l t = Some t' → main t' = MReturned err →
        active (reg (world t')) = delete (user t) (active (reg (world t))))) ∧
  (∀ u id, (u, id) ∈ others t → active (reg (world t)) !! u = Some id) ∧
  (∀ err, main (start s r) = MReturned err → active (reg (world (start s r))) = active r).
Proof.
  intros Hg%reachable_good. pose proof (gd_held _ Hg) as [_ Hact]. unfold holders in Hact. split_and!.
  - intros Hm. pose proof (gd_main _ Hg) as Hmain. rewrite Hm in Hmain, Hact. destruct Hmain as (_ & Hu & Hid).
    assert (Ha : active (reg (world t)) !! user t = Some (session t)) by (apply Hact; left). split; [split; [done|]|].
    + intros r' id Hreg. pose proof (RegisterPTY_active (user t) (reg (world t))) as Hra. rewrite Hreg in Hra.
      destruct Hra as (_ & _ & Hn & _). congruence.
    + intros l t' err Hstep Hret. rewrite (exec_returns _ _ _ _ Hg Hm Hstep Hret).
      rewrite UnregisterPTY_active by done. by rewrite decide_True.
  - intros u id Hin. apply Hact. destruct (main t); [by right|done].
  - intros err. unfold start. destruct (attach s (mk_World [] r)) as [w o] eqn:Ha. apply attach_opens in Ha. destruct o; [|done].
    intros _. apply Ha.
Qed.
End refinement.

Lemma session_protocol_witness :
  ∃ t, PtyExample.run PtyExample.session_run = Some t ∧
    ∃ p, protocol PtyExample.config (hist (world t)) = Some p ∧ (registered p ≠ None → released p = true).
Proof.
  assert (Hsome : match PtyExample.run PtyExample.session_run with
    | Some t => match main t with MReturned None => true | _ => false end | None => false end = true) by (vm_compute; reflexivity).
  destruct (PtyExample.run PtyExample.session_run) as [t|] eqn:Hrun; [|discriminate]. exists t. split; [reflexivity|].
  destruct (session_protocol _ _ _ (PtyExample_reachable _ _ Hrun)) as (p & Hp & Hm). exists p. split; [exact Hp|].
  destruct (main t); [discriminate|]. exact (proj1 Hm).
Defined.

(** While the session runs the daemon of its user is lost, another user's session
    comes and goes, and one of the same user is refused. *)
Definition busy_run : list PtyExample.label :=
  [PtyExample.elsewhere (Clock 7);
   PtyExample.elsewhere (ManagerCall (Manager.OpHandleDisconnect 7 7 (Manager.sessions (snd PtyExample.registry) !! "u") (Some Session.ErrSessionReplaced)));
   LOthers (OtherRegister "u"); LOthers (OtherRegister "v"); LOthers (OtherRegister "w"); LOthers (OtherRelease "v" "v-pty-2");
   LRecv (Ok CDetach); LInPump].

Lemma session_registry_witness :
  ∃ t, PtyExample.run busy_run = Some t ∧
    PtyExample.active_of t !! "u" = Some "u-pty-1" ∧
    PtyExample.active_of t !! "w" = Some "w-pty-3".
Proof.
  assert (Hsome : match PtyExample.run busy_run with
    | Some t => match main t with MLoop => bool_decide (user t = "u" ∧ session t = "u-pty-1" ∧ others t = [("w", "w-pty-3")]) | _ => false end
    | None => false end = true) by (vm_compute; reflexivity).
  destruct (PtyExample.run busy_run) as [t|] eqn:Hrun; [|discriminate]. exists t. split; [reflexivity|].
  destruct (session_registry _ _ _ (PtyExample_reachable _ _ Hrun)) as (Hm & Ho & _).
  destruct (main t); [|discriminate]. apply bool_decide_eq_true in Hsome as (Hu & Hi & Hot).
  destruct (Hm eq_refl) as [[Ha _] _]. rewrite Hu, Hi in Ha. split; [exact Ha|]. apply Ho. rewrite Hot. left.
Defined.
