(* ===== verification/PtyStreams.v ===== *)
(** * Serving a terminal: the streams, the command and the end of a session

    What the client sees of the host's output and the host of the client's
    input, which command a session runs, that the loop only waits for the host,
    and that a goroutine can be left behind; the manager of the sessions as the
    registry (app/server/pty_runtime.go). *)
From S2P Require Import Prelude GoPath PathFacts Safepath PtyHost Auth PtyService PtyRegistry PtyProtocol.
From stdpp Require Import options.

Section streams.
Context {R : Type} `{Registry R} `{Environment} `{MapRange, Unicode, System}.
Context (s : Config).

#[local] Arguments protocol : simpl never.

Abbreviation World := (World (R := R)).
Abbreviation St := (St (R := R)).
Abbreviation M := (M (R := R)).

Implicit Types (w : World) (t : St).

(** ** What a part of the service records *)

Definition logs (P : action → Prop) {A} (m : M A) : Prop :=
  ∀ w w' a, m w = (w', a) → ∃ log, hist w' = hist w ++ log ∧ Forall P log.

Lemma logs_impl (P Q : action → Prop) {A} (m : M A) : (∀ a, P a → Q a) → logs P m → logs Q m.
Proof. intros HPQ Hm w w' a Hr. destruct (Hm _ _ _ Hr) as (log & Hh & Hl). exists log. split; [done|]. by eapply Forall_impl. Qed.

Lemma logs_ret P {A} (a : A) : logs P (mret a).
Proof. intros w w' a' [= <- <-]. exists []. by rewrite app_nil_r. Qed.

Lemma logs_bind P {A B} (m : M A) (f : A → M B) : logs P m → (∀ a, logs P (f a)) → logs P (m ≫= f).
Proof.
  intros Hm Hf w w' b. destruct (m w) as [w1 a] eqn:Hr. rewrite (bind_run _ _ _ _ _ Hr). intros Hb.
  destruct (Hm _ _ _ Hr) as (l1 & Hh1 & Hl1), (Hf _ _ _ _ Hb) as (l2 & Hh2 & Hl2). exists (l1 ++ l2).
  split; [by rewrite Hh2, Hh1, app_assoc|by apply Forall_app].
Qed.

Lemma logs_fmap P {A B} (f : A → B) (m : M A) : logs P m → logs P (f <$> m).
Proof. intros Hm. apply logs_bind; [done|]. intros a. apply logs_ret. Qed.

Lemma logs_call P {A} (ans : history → A) (log : A → action) : (∀ a, P (log a)) → logs P (call ans log).
Proof. intros HP w w' a [= <- <-]. eexists. split; [done|]. by apply Forall_singleton. Qed.

Lemma logs_unregister (P : action → Prop) u id : P (Unregistered u id) → logs P (registry_unregister u id).
Proof. intros HP w w' a [= <- <-]. eexists. split; [done|]. by apply Forall_singleton. Qed.

Lemma logs_lookup P u : logs P (registry_lookup u).
Proof. intros w w' a. unfold registry_lookup. destruct (LookupDaemon _ _). intros [= <- <-]. exists []. by rewrite app_nil_r. Qed.

Lemma logs_register (P : action → Prop) u : (∀ id, P (Registered u id)) → logs P (registry_register u).
Proof.
  intros HP w w' a. unfold registry_register. destruct (RegisterPTY _ _) as [r [[id|]|e]]; intros [= <- <-]; cbn.
  - eexists. split; [done|]. by apply Forall_singleton.
  - exists []. by rewrite app_nil_r.
  - exists []. by rewrite app_nil_r.
Qed.

Ltac solve_logs :=
  repeat match goal with
  | |- logs _ (mret _) => apply logs_ret
  | |- logs _ (_ <$> _) => apply logs_fmap
  | |- logs _ (call _ _) => apply logs_call; intros; exact I
  | |- logs _ (registry_unregister _ _) => apply logs_unregister; exact I
  | |- logs _ (registry_register _) => apply logs_register; intros; exact I
  | |- logs _ (registry_lookup _) => apply logs_lookup
  | |- logs _ (_ ≫= _) => apply logs_bind; [|intros ?]
  | |- logs _ (match ?x with _ => _ end) => destruct x
  | H : logs _ ?m |- logs _ ?m => exact H
  | H : ∀ _ _, logs _ (?f _ _) |- logs _ (?f _ _) => apply H
  end.

(** The calls that move no data and start no program. *)
Definition control (a : action) : Prop :=
  match a with
  | Sent (SStdout _) _ | Sent (SExited _ _) _ | Wrote _ _ | Spawned _ _ => False
  | _ => True
  end.

Lemma shutdown_logs r : logs control (shutdown r).
Proof. unfold shutdown, Shutdown. solve_logs. Qed.

Lemma applicationError_logs k e : logs control (applicationError k e).
Proof. unfold applicationError, sendApplicationError, Send. solve_logs. Qed.

Lemma runtime_error_logs r k e : logs control (runtime_sendApplicationError r k e).
Proof. unfold runtime_sendApplicationError. pose proof (applicationError_logs k e). solve_logs. Qed.

Lemma fail_session_logs r k e : logs control (fail_session r k e).
Proof.
  unfold fail_session, Wait. pose proof (shutdown_logs r). apply logs_bind; [done|]. intros r1.
  pose proof (runtime_error_logs r1 k e). solve_logs.
Qed.

Lemma closeStream_logs r : logs control (closeStream r).
Proof. apply shutdown_logs. Qed.

Lemma handleExitEvent_logs r result : logs control (_ ← logPTYExited result; handleExitEvent r result).
Proof.
  apply logs_bind; [unfold logPTYExited; solve_logs|]. intros _. unfold handleExitEvent.
  destruct (exit_err result) as [text|]; [|apply logs_ret]. apply logs_bind; [apply runtime_error_logs|]. intros e. apply logs_ret.
Qed.

(** ** The output *)

Definition delivered (h : history) : bytes :=
  concat (omap (λ a, match a with Sent (SStdout payload) None => Some payload | _ => None end) h).
Definition written (h : history) : list bytes :=
  omap (λ a, match a with Wrote payload _ => Some payload | _ => None end) h.

Definition data_of (evs : list stdoutEvent) : bytes :=
  concat (omap (λ ev, match ev with OutData data => Some data | OutErr _ => None end) evs).

Lemma delivered_app h h' : delivered (h ++ h') = delivered h ++ delivered h'.
Proof. unfold delivered. by rewrite omap_app, concat_app. Qed.
Lemma written_app h h' : written (h ++ h') = written h ++ written h'.
Proof. apply omap_app. Qed.
Lemma data_of_app e e' : data_of (e ++ e') = data_of e ++ data_of e'.
Proof. unfold data_of. by rewrite omap_app, concat_app. Qed.

(** The calls that deliver no output, and are not the last frame. *)
Record silent (w w' : World) : Prop := {
  si_delivered : delivered (hist w') = delivered (hist w);
  si_exited c g e : Sent (SExited c g) e ∈ hist w' → Sent (SExited c g) e ∈ hist w;
}.

Lemma control_logs {A} (m : M A) w w' a :
  logs control m → m w = (w', a) → silent w w' ∧ written (hist w') = written (hist w).
Proof.
  intros Hm Hr. destruct (Hm _ _ _ Hr) as (log & Hh & Hl).
  assert (Hc : delivered log = [] ∧ written log = []).
  { clear -Hl. unfold delivered, written. induction Hl as [|a log Ha _ [IH1 IH2] ]; [done|].
    destruct a as [| | | | |[| | |] [|]| | | | | |]; try done; cbn; by rewrite ?IH1, ?IH2. }
  destruct Hc as [Hd Hw]. rewrite Hh, written_app, Hw, app_nil_r. split; [|done]. split.
  - by rewrite Hh, delivered_app, Hd, app_nil_r.
  - intros c g e. rewrite Hh, elem_of_app. intros [?|Hin]; [done|]. rewrite Forall_forall in Hl. by apply Hl in Hin.
Qed.

Lemma shutdown_fields r w w' r' :
  shutdown r w = (w', r') → streamOpen r' = streamOpen r ∧ stdoutClosed r' = stdoutClosed r ∧ hostExited r' = hostExited r.
Proof. unfold shutdown. destruct (shutdownOnce r); by intros [= <- <-]. Qed.

Lemma fail_session_fields r k e w w' r' keep err :
  fail_session r k e w = (w', (r', keep, err)) →
  streamOpen r' = streamOpen r ∧ stdoutClosed r' = stdoutClosed r ∧ hostExited r' = hostExited r ∧ keep = true ∧
  (streamOpen r = true → err ≠ None).
Proof.
  unfold fail_session. destruct (shutdown r w) as [w1 r1] eqn:Hs. rewrite (bind_run _ _ _ _ _ Hs).
  apply shutdown_fields in Hs as (Ho & Hc & Hx). rewrite (bind_run _ _ _ (mk_World (hist w1 ++ [Waited]) (reg w1)) ()) by done.
  unfold runtime_sendApplicationError. rewrite Ho. destruct (streamOpen r); intros [= <- <- <- <-]; by split_and!.
Qed.

(** Handling an event of the host's output. *)
Definition event_data (result : option stdoutEvent) : bytes := match result with Some ev => data_of [ev] | None => [] end.

Lemma handleStdoutEvent_output r result w w' r' keep err :
  handleStdoutEvent r result w = (w', (r', keep, err)) →
  (∀ c g e, Sent (SExited c g) e ∈ hist w' → Sent (SExited c g) e ∈ hist w) ∧
  written (hist w') = written (hist w) ∧
  (delivered (hist w') = delivered (hist w) ∨
   streamOpen r = true ∧ delivered (hist w') = delivered (hist w) ++ event_data result) ∧
  (streamOpen r' = true → streamOpen r = true) ∧
  (err = None → streamOpen r' = true → delivered (hist w') = delivered (hist w) ++ event_data result) ∧
  hostExited r' = hostExited r ∧
  (if keep then stdoutClosed r' = stdoutClosed r ∧ result ≠ None ∧ result ≠ Some (OutErr EOF)
   else stdoutClosed r' = true ∧ (result = None ∨ result = Some (OutErr EOF))).
Proof.
  destruct result as [[data|[|text]]|]; cbn [handleStdoutEvent handleStdoutError].
  - destruct (_ || _) eqn:Hb.
    { intros [= <- <- <- <-]. split_and!; try done; [by left|]. intros _ Ho. rewrite Ho, orb_false_r in Hb.
      apply bool_decide_eq_true in Hb as ->. by rewrite app_nil_r. }
    apply orb_false_iff in Hb as [_ Ho%negb_false_iff]. set (ans := send (hist w) (SStdout data)).
    set (w1 := mk_World (hist w ++ [Sent (SStdout data) ans]) (reg w)). rewrite (bind_run _ _ _ w1 ans) by done.
    assert (Hx1 : ∀ c g e, Sent (SExited c g) e ∈ hist w1 → Sent (SExited c g) e ∈ hist w) by (intros c g e; set_solver).
    assert (Hw1 : written (hist w1) = written (hist w)) by (cbn [hist w1]; by rewrite written_app, app_nil_r).
    destruct ans as [e|].
    + destruct (closeStream r w1) as [w2 r2] eqn:Hc. rewrite (bind_run _ _ _ _ _ Hc). intros [= <- <- <- <-].
      destruct (control_logs _ _ _ _ (closeStream_logs r) Hc) as [[Hd Hx] Hw]. unfold closeStream in Hc.
      apply shutdown_fields in Hc as (Hf1 & Hf2 & Hf3). cbn in Hf1. rewrite Hf1.
      assert (Hd' : delivered (hist w2) = delivered (hist w)) by (rewrite Hd; cbn [hist w1]; by rewrite delivered_app, app_nil_r).
      split_and!; [by auto|by rewrite Hw|by left|done..].
    + intros [= <- <- <- <-]. cbn [hist w1]. rewrite delivered_app. cbn. split_and!; try done. by right.
  - intros [= <- <- <- <-]. cbn. rewrite app_nil_r. split_and!; try done; [by left|by right].
  - intros Hf. destruct (control_logs _ _ _ _ (fail_session_logs _ _ _) Hf) as [[Hd Hx] Hw].
    apply fail_session_fields in Hf as (Hf1 & Hf2 & Hf3 & -> & Hf4). rewrite Hf1. cbn. rewrite app_nil_r. split_and!; try done. by left.
  - intros [= <- <- <- <-]. cbn. rewrite app_nil_r. split_and!; try done; by left.
Qed.

(** ** The input *)

Definition payloads (fs : list ClientFrame) : list bytes :=
  omap (λ f, match f with CStdin payload => Some payload | _ => None end) fs.
Definition event_frames (result : option clientEvent) : list ClientFrame :=
  match result with Some (InFrame f) => [f] | _ => [] end.
Definition frames_in (evs : list clientEvent) : list ClientFrame :=
  omap (λ ev, match ev with InFrame f => Some f | InErr _ => None end) evs.

Lemma call_control {A} (ans : history → A) (log : A → action) w :
  (∀ a, control (log a)) →
  silent w (call ans log w).1 ∧ written (hist (call ans log w).1) = written (hist w).
Proof. intros Hc. eapply control_logs; [by apply logs_call|apply surjective_pairing]. Qed.

(** The input that a frame adds: the payload, if it is written. *)
Lemma handleClientFrame_input frame w w' res :
  handleClientFrame s frame w = (w', res) →
  silent w w' ∧
  ∃ ws, written (hist w') = written (hist w) ++ ws ∧ ws `sublist_of` payloads [frame] ∧
    (is_ok res = true → ws = payloads [frame]).
Proof.
  assert (Hnone : ∀ w1 frame, silent w w1 → written (hist w1) = written (hist w) → payloads [frame] = [] →
    silent w w1 ∧ ∃ ws, written (hist w1) = written (hist w) ++ ws ∧ ws `sublist_of` payloads [frame] ∧
      (is_ok res = true → ws = payloads [frame])).
  { intros w1 f Hs Hw ->. split; [done|]. exists []. by rewrite Hw, app_nil_r. }
  assert (Hid : silent w w) by by split.
  destruct frame as [req|payload|size| |]; cbn [handleClientFrame]; try by intros [= <- <-]; apply Hnone.
  - unfold handleClientStdin.
    assert (Hskip : ∀ w1 e, silent w w1 → written (hist w1) = written (hist w) → (w1, Err e) = (w', res) →
      silent w w' ∧ ∃ ws, written (hist w') = written (hist w) ++ ws ∧ ws `sublist_of` payloads [CStdin payload] ∧
        (is_ok res = true → ws = payloads [CStdin payload])).
    { intros w1 e Hs Hw [= <- <-]. split; [done|]. exists []. rewrite Hw, app_nil_r. split_and!; [done|apply sublist_nil_l|done]. }
    case_decide; [by apply Hskip|].
    assert (Hwrite : ∀ w1, silent w w1 → written (hist w1) = written (hist w) →
      (err ← call (λ h, stdin_write h payload) (Wrote payload);
       mret (match err with Some e => Err (KIND_INTERNAL, ErrText e) | None => Ok false end) :
         M (Prelude.result (Error_Kind * error) bool)) w1 = (w', res) →
      silent w w' ∧ ∃ ws, written (hist w') = written (hist w) ++ ws ∧ ws `sublist_of` payloads [CStdin payload] ∧
        (is_ok res = true → ws = payloads [CStdin payload])).
    { intros w1 [Hd Hx] Hw [= <- <-]. cbn [hist]. split.
      - split; cbn [hist]; [by rewrite delivered_app, app_nil_r|]. intros c g e Hin. apply (Hx c g e). set_solver.
      - exists [payload]. rewrite written_app, Hw. split_and!; [done|cbn; reflexivity|done]. }
    destruct input_limit as [limit|]; [|rewrite (bind_run _ _ _ w None) by done; by apply Hwrite].
    set (ans := limit (hist w) (length payload)). set (w1 := mk_World (hist w ++ [InputWaited (length payload) ans]) (reg w)).
    assert (silent w w1 ∧ written (hist w1) = written (hist w)) as [Hs1 Hw1]
      by exact (call_control (λ h, limit h (length payload)) (InputWaited (length payload)) w (λ _, I)).
    rewrite (bind_run _ _ _ w1 ans) by done. clearbody w1. destruct ans; intros Hx; [by eapply Hskip|by eapply Hwrite].
  - intros [= <- <-]. pose proof (call_control (λ h, resize h (fromProtoSize (Some size))) (Resized (fromProtoSize (Some size))) w ltac:(done)) as [Hs1 Hw1].
    by apply Hnone.
Qed.

Lemma handleClientEvent_streams r result w w' r' keep err :
  handleClientEvent s r result w = (w', (r', keep, err)) →
  silent w w' ∧ (streamOpen r' = true → streamOpen r = true) ∧ stdoutClosed r' = stdoutClosed r ∧ hostExited r' = hostExited r ∧
  ∃ ws, written (hist w') = written (hist w) ++ ws ∧ ws `sublist_of` payloads (event_frames result) ∧
    (err = None → streamOpen r' = true → ws = payloads (event_frames result)).
Proof.
  destruct result as [[frame|e]|]; cbn [handleClientEvent event_frames].
  - destruct (handleClientFrame s frame w) as [w1 res] eqn:Hf. rewrite (bind_run _ _ _ _ _ Hf).
    destruct (handleClientFrame_input _ _ _ _ Hf) as ([Hd Hx] & ws & Hw & Hsub & Hok).
    assert (Hthen : ∀ w2 r2, silent w1 w2 ∧ written (hist w2) = written (hist w1) →
      streamOpen r2 = streamOpen r ∧ stdoutClosed r2 = stdoutClosed r ∧ hostExited r2 = hostExited r →
      (is_ok res = true ∨ (streamOpen r = true → err ≠ None)) → 
      silent w w2 ∧ (streamOpen r2 = true → streamOpen r = true) ∧ stdoutClosed r2 = stdoutClosed r ∧ hostExited r2 = hostExited r ∧
      ∃ ws, written (hist w2) = written (hist w) ++ ws ∧ ws `sublist_of` payloads [frame] ∧
        (err = None → streamOpen r2 = true → ws = payloads [frame])).
    { intros w2 r2 [[Hd2 Hx2] Hw2] (-> & -> & ->) Hres. split_and!; [|done..|].
      - split; [congruence|]. intros c g e' ?%Hx2. by apply Hx.
      - exists ws. rewrite Hw2. split_and!; [done..|]. intros He Ho. destruct Hres as [Hres|Hres]; [auto|]. by destruct (Hres Ho). }
    assert (Hid : silent w1 w1) by by split.
    destruct res as [[]|[kind e]].
    + destruct (shutdown r w1) as [w2 r2] eqn:Hs. rewrite (bind_run _ _ _ _ _ Hs). intros [= <- <- <- <-].
      apply Hthen; [exact (control_logs _ _ _ _ (shutdown_logs r) Hs)|by eapply shutdown_fields|by left].
    + intros [= <- <- <- <-]. by apply Hthen; [..|left].
    + intros Hfs. pose proof (control_logs _ _ _ _ (fail_session_logs _ _ _) Hfs) as Hc.
      apply fail_session_fields in Hfs as (? & ? & ? & _ & ?). apply Hthen; [done..|by right].
  - destruct (closeStream r w) as [w1 r1] eqn:Hc. rewrite (bind_run _ _ _ _ _ Hc). intros [= <- <- <- <-].
    destruct (control_logs _ _ _ _ (closeStream_logs r) Hc) as [Hs Hw]. apply shutdown_fields in Hc as (Ho & Hcl & Hx).
    rewrite Ho. split_and!; [done..|]. exists []. by rewrite Hw, app_nil_r.
  - intros [= <- <- <- <-]. split_and!; [by split|done..|]. exists []. by rewrite app_nil_r.
Qed.

Lemma handleExitEvent_streams r result w w' r' err :
  (_ ← logPTYExited result; handleExitEvent r result) w = (w', (r', err)) →
  silent w w' ∧ written (hist w') = written (hist w) ∧
  streamOpen r' = streamOpen r ∧ stdoutClosed r' = stdoutClosed r ∧ hostExited r' = true.
Proof.
  intros Hr. destruct (control_logs _ _ _ _ (handleExitEvent_logs r result) Hr) as [Hs Hw]. split; [done|]. split; [done|].
  rewrite (bind_run _ _ _ (mk_World (hist w ++ [PTYExited (info result) (exit_err result)]) (reg w)) ()) in Hr by done.
  unfold handleExitEvent in Hr. destruct (exit_err result); [|by injection Hr as <- <- <-].
  match type of Hr with (?m ≫= _) ?w1 = _ => destruct (m w1) as [w2 e] eqn:He end.
  rewrite (bind_run _ _ _ _ _ He) in Hr. by injection Hr as <- <- <-.
Qed.

(** ** What is under way *)

Definition pending t : list stdoutEvent := stdoutCh t ++ queued (out_pump t).
Definition in_flight t : list ClientFrame := frames_in (clientCh t ++ queued (in_pump t)).

(** The pump will not read again. *)
Definition last_read {E} (p : pump E) : bool := match p with PSend _ true | PClose | PDone => true | _ => false end.

#[local] Arguments pending : simpl never.
#[local] Arguments in_flight : simpl never.
#[local] Arguments delivered : simpl never.
#[local] Arguments written : simpl never.
#[local] Arguments data_of : simpl never.

(** What holds of the streams, while the loop runs ([live]) and after it. *)
Record flow (live : bool) (t : St) : Prop := {
  fl_err pre e post : pending t = pre ++ OutErr e :: post → post = [] ∧ last_read (out_pump t) = true;
  fl_closed : stdoutCh_closed t = true → out_pump t = PDone;
  fl_ended : stdoutClosed (rt t) = true → pending t = [] ∧ last_read (out_pump t) = true;
  fl_prefix : delivered (hist (world t)) `prefix_of` concat (output t);
  fl_open : live = true → streamOpen (rt t) = true →
    delivered (hist (world t)) ++ data_of (pending t) = concat (output t);
  fl_exited c g e : Sent (SExited c g) e ∈ hist (world t) →
    live = false ∧ delivered (hist (world t)) = concat (output t) ∧ last_read (out_pump t) = true;
  fl_input : ∃ consumed, input t = consumed ++ in_flight t ∧ written (hist (world t)) `sublist_of` payloads consumed ∧
    (live = true → streamOpen (rt t) = true → written (hist (world t)) = payloads consumed);
  fl_waiter : live = true → waiter t = WDone → exitCh t ≠ [] ∨ hostExited (rt t) = true;
  fl_on : live = true → stdout_on t = negb (stdoutClosed (rt t));
  fl_done : live = true → out_pump t = PDone → stdoutCh_closed t = true;
}.

Definition in_loop t : bool := match main t with MLoop => true | MReturned _ => false end.

Lemma payloads_app fs gs : payloads (fs ++ gs) = payloads fs ++ payloads gs.
Proof. apply omap_app. Qed.

Lemma flow_conclude live err t : flow live t → flow false (conclude err t).
Proof.
  intros [F1 F2 F3 F4 F5 F6 F7 F8 F9 F10].
  assert (Hd : delivered (hist (world (conclude err t))) = delivered (hist (world t)))
    by exact (eq_trans (delivered_app (hist (world t)) [Unregistered (user t) (session t)]) (app_nil_r _)).
  assert (Hw : written (hist (world (conclude err t))) = written (hist (world t)))
    by exact (eq_trans (written_app (hist (world t)) [Unregistered (user t) (session t)]) (app_nil_r _)).
  split; try done.
  - by rewrite Hd.
  - intros c g e Hin. destruct (F6 c g e) as (_ & ? & ?); [cbn in Hin; set_solver|]. rewrite Hd. by split_and!.
  - destruct F7 as (consumed & Hi & Hsub & _). exists consumed. by rewrite Hw.
Qed.

(** An iteration of the loop handles events [evs] of the output and [fs] of the
    input: what has to be shown of the handler. *)
Record handled_ok (t : St) (evs : list stdoutEvent) (fs : list ClientFrame) (w : World) (r : attachRuntime) (live : bool) : Prop := {
  hd_delivered : delivered (hist w) = delivered (hist (world t)) ∨
    streamOpen (rt t) = true ∧ delivered (hist w) = delivered (hist (world t)) ++ data_of evs;
  hd_open : streamOpen r = true → streamOpen (rt t) = true;
  hd_data : live = true → streamOpen r = true → delivered (hist w) = delivered (hist (world t)) ++ data_of evs;
  hd_exited c g e : Sent (SExited c g) e ∈ hist w → Sent (SExited c g) e ∈ hist (world t);
  hd_input : ∃ ws, written (hist w) = written (hist (world t)) ++ ws ∧ ws `sublist_of` payloads fs ∧
    (live = true → streamOpen r = true → ws = payloads fs);
}.

Lemma flow_handled t t0 evs fs w r out inp live :
  flow true t → output t0 = output t → input t0 = input t → out_pump t0 = out_pump t →
  stdoutCh_closed t0 = stdoutCh_closed t → waiter t0 = waiter t →
  pending t = evs ++ pending t0 → in_flight t = fs ++ in_flight t0 → handled_ok t evs fs w r live →
  (stdoutClosed r = true → pending t0 = [] ∧ last_read (out_pump t) = true) →
  (waiter t = WDone → exitCh t0 ≠ [] ∨ hostExited r = true) →
  out = negb (stdoutClosed r) →
  flow live (set_on out inp (set_world w (set_rt r t0))).
Proof.
  intros [F1 F2 F3 F4 F5 F6 F7 F8 F9 F10] Ho Hi Hp Hc Hwt Hev Hfs [G1 G2 G3 G4 G5] Hcl Hwait Hon.
  assert (Hno : ∀ c g e, Sent (SExited c g) e ∉ hist w) by (intros c g e ?%G4; by destruct (F6 c g e)).
  split; cbn; rewrite ?Ho, ?Hi, ?Hp, ?Hc, ?Hwt; auto.
  - intros pre e post Hpend. change (pending t0 = pre ++ OutErr e :: post) in Hpend. apply (F1 (evs ++ pre) e). by rewrite Hev, Hpend, app_assoc.
  - destruct G1 as [->|[Hso ->] ]; [done|]. rewrite <-F5 by done. rewrite Hev, data_of_app, app_assoc. by apply prefix_app_r.
  - intros Hlive Hso. rewrite (G3 Hlive Hso), <-app_assoc, <-F5, Hev, data_of_app by auto. done.
  - intros c g e ?. by destruct (Hno c g e).
  - destruct F7 as (consumed & Hi' & Hsub & Hall), G5 as (ws & Hws & Hsub' & Hall'). exists (consumed ++ fs).
    rewrite payloads_app, Hws. split_and!.
    + rewrite Hi', Hfs. by rewrite app_assoc.
    + by apply sublist_app.
    + intros Hlive Hso. rewrite Hall, Hall' by auto. done.
Qed.

Lemma flow_continue t t0 evs fs w r out inp err :
  flow true t → main t0 = MLoop → output t0 = output t → input t0 = input t → out_pump t0 = out_pump t →
  stdoutCh_closed t0 = stdoutCh_closed t → waiter t0 = waiter t →
  pending t = evs ++ pending t0 → in_flight t = fs ++ in_flight t0 →
  handled_ok t evs fs w r (bool_decide (err = None)) →
  (stdoutClosed r = true → pending t0 = [] ∧ last_read (out_pump t) = true) →
  (waiter t = WDone → exitCh t0 ≠ [] ∨ hostExited r = true) →
  out = negb (stdoutClosed r) →
  flow (in_loop (continue_with r out inp err w t0)) (continue_with r out inp err w t0).
Proof.
  intros Hf Hm Ho Hi Hp Hc Hwt Hev Hfs Hok Hcl Hwait Hon.
  pose proof (flow_handled t t0 evs fs w r out inp _ Hf Ho Hi Hp Hc Hwt Hev Hfs Hok Hcl Hwait Hon) as Hnew.
  unfold continue_with. destruct err as [e|]; [|unfold in_loop; cbn; by rewrite Hm].
  change (in_loop (conclude _ _)) with false. eapply (flow_conclude false).
  destruct Hnew as [F1 F2 F3 F4 F5 F6 F7 F8 F9 F10]. by split.
Qed.

Lemma receive_spec {E} (ch : list E) closed result rest :
  receive ch closed = Some (result, rest) →
  ch = match result with Some e => e :: rest | None => [] end ∧ (result = None → rest = [] ∧ closed = true).
Proof. unfold receive. destruct ch; [destruct closed|]; by intros [= <- <-]. Qed.

Lemma flow_finish t w err :
  flow true t → readyToExit (rt t) = true → finish (rt t) (world t) = (w, err) → flow false (set_world w t).
Proof.
  intros [F1 F2 F3 F4 F5 F6 F7 F8 F9 F10] [_ Hc]%andb_true_iff. destruct (F3 Hc) as [Hpend Hlast].
  assert (Hno : ∀ c g e, Sent (SExited c g) e ∉ hist (world t)) by (intros c g e ?; by destruct (F6 c g e)).
  destruct F7 as (consumed & Hi & Hsub & _). unfold finish. destruct (streamOpen (rt t)) eqn:Hopen; intros [= <- <-].
  - specialize (F5 eq_refl eq_refl). rewrite Hpend in F5. change (data_of []) with (@nil byte) in F5. rewrite app_nil_r in F5.
    set (a := Sent (SExited _ _) _).
    assert (Hd : delivered (hist (world t) ++ [a]) = delivered (hist (world t))) by exact (eq_trans (delivered_app _ [a]) (app_nil_r _)).
    assert (Hw : written (hist (world t) ++ [a]) = written (hist (world t))) by exact (eq_trans (written_app _ [a]) (app_nil_r _)).
    split; cbn; rewrite ?Hd; try done. exists consumed. by rewrite Hw.
  - split; cbn; try done; [|by exists consumed]. intros c g e ?. by destruct (Hno c g e).
Qed.

Lemma main_step_flow b t t' : main t = MLoop → flow true t → main_step s b t = Some t' → flow (in_loop t') t'.
Proof.
  intros Hm Hf Hstep. unfold main_step in Hstep. rewrite Hm in Hstep. destruct (readyToExit (rt t)) eqn:Hready.
  { destruct (finish (rt t) (world t)) as [w err] eqn:Hfin. simplify_eq. change (in_loop (conclude _ _)) with false.
    eapply (flow_conclude false), flow_finish; [done..|]. exact Hfin. }
  pose proof (fl_on _ _ Hf eq_refl) as Hon. destruct b.
  - destruct (stdout_on t) eqn:Hso; [|done]. destruct (receive _ _) as [[result rest]|] eqn:Hrecv; [|done].
    cbn [mbind option_bind] in Hstep. apply receive_spec in Hrecv as [Hch Hnone].
    destruct (handleStdoutEvent (rt t) result (world t)) as [w [[r keep] err]] eqn:Hh. simplify_eq.
    apply handleStdoutEvent_output in Hh as (H4 & H5 & H6 & H7 & H8 & H9 & H10).
    assert (Hpend : pending t = (match result with Some ev => [ev] | None => [] end) ++ rest ++ queued (out_pump t)).
    { unfold pending. rewrite Hch. destruct result; [done|]. by destruct (Hnone eq_refl) as [-> _]. }
    eapply (flow_continue t _ (match result with Some ev => [ev] | None => [] end) []); try done.
    + assert (Hev : data_of (match result with Some ev => [ev] | None => [] end) = event_data result) by by destruct result.
      split; rewrite ?Hev; try done; [intros He%bool_decide_eq_true; by apply H8|]. exists []. rewrite app_nil_r. by split_and!.
    + intros Hcl. assert (Hlast : result = None ∨ ∃ e, result = Some (OutErr e)).
      { destruct keep; [|destruct H10 as [_ [->| ->] ]; eauto]. destruct H10 as (Hcl' & _). rewrite Hcl' in Hcl. by rewrite Hcl in Hon. }
      destruct Hlast as [->|[e ->] ].
      * destruct (Hnone eq_refl) as [-> Hclosed]. unfold pending. cbn. by rewrite (fl_closed _ _ Hf Hclosed).
      * by apply (fl_err _ _ Hf [] e).
    + rewrite H9. by apply (fl_waiter _ _ Hf).
    + destruct keep; [|by destruct H10 as [-> _] ]. destruct H10 as [-> _]. by rewrite <-Hon.
  - destruct (client_on t); [|done]. destruct (receive _ _) as [[result rest]|] eqn:Hrecv; [|done].
    cbn [mbind option_bind] in Hstep. apply receive_spec in Hrecv as [Hch Hnone].
    destruct (handleClientEvent s (rt t) result (world t)) as [w [[r keep] err]] eqn:Hh. simplify_eq.
    apply handleClientEvent_streams in Hh as ([Hd Hx] & Ho & Hc & He & ws & Hw & Hsub & Hall).
    eapply (flow_continue t _ [] (event_frames result)); try done.
    + unfold in_flight, frames_in. cbn. rewrite Hch, !omap_app. destruct result as [[f|e]|]; cbn; [done..|].
      by destruct (Hnone eq_refl) as [-> _].
    + split; rewrite ?Hd, ?app_nil_r; auto. exists ws. split_and!; [done..|]. intros Herr%bool_decide_eq_true. by apply Hall.
    + rewrite Hc. apply (fl_ended _ _ Hf).
    + rewrite He. by apply (fl_waiter _ _ Hf).
    + by rewrite Hc.
  - destruct (exitCh t) as [|result rest] eqn:Hch; [done|].
    destruct ((_ ← logPTYExited result; handleExitEvent (rt t) result) (world t)) as [w [r err]] eqn:Hh. simplify_eq.
    apply handleExitEvent_streams in Hh as ([Hd Hx] & Hw & Ho & Hc & He).
    eapply (flow_continue t _ [] []); try done.
    + split; rewrite ?Hd, ?app_nil_r, ?Ho; auto. exists []. by rewrite Hw, app_nil_r.
    + rewrite Hc. apply (fl_ended _ _ Hf).
    + by right.
    + by rewrite Hc.
Qed.

(** ** The other goroutines, and the start *)

Lemma omap_frames_app evs evs' : frames_in (evs ++ evs') = frames_in evs ++ frames_in evs'.
Proof. apply omap_app. Qed.

Lemma err_in_suffix l evs pre e post :
  (∀ pre e post, l ≠ pre ++ OutErr e :: post) → l ++ evs = pre ++ OutErr e :: post → ∃ pre', evs = pre' ++ OutErr e :: post.
Proof.
  revert pre. induction l as [|x l IH]; intros pre Hno Hx; [by exists pre|]. destruct pre as [|y pre]; simplify_eq/=.
  - by destruct (Hno [] e l).
  - apply (IH pre); [|done]. intros pre' e' post' ->. by apply (Hno (y :: pre') e' post').
Qed.

Lemma exec_flow l t t' : flow (in_loop t) t → exec s l t = Some t' → flow (in_loop t') t'.
Proof.
  intros Hf Hstep. destruct l as [b| | | |data err|answer|e|r]; cbn [exec] in Hstep.
  - destruct (main t) eqn:Hm; [|unfold main_step in Hstep; by rewrite Hm in Hstep].
    eapply main_step_flow; [done| |done]. by unfold in_loop in Hf; rewrite Hm in Hf.
  - destruct Hf as [F1 F2 F3 F4 F5 F6 F7 F8 F9 F10].
    destruct (out_pump t) as [|[|ev evs] last| |] eqn:Hp; cbn in Hstep; try done.
    + assert (Hpend : ∀ p, queued p = [] → pending (set_out_pump p (set_stdoutCh (stdoutCh t) (stdoutCh_closed t || false) t)) = pending t)
        by (intros p Hq; unfold pending; cbn; by rewrite Hq, Hp).
      assert (Hncl : stdoutCh_closed t = false) by (apply not_true_is_false; intros Hc%F2; congruence).
      simplify_eq. destruct last; split; cbn; rewrite ?Hpend by done; rewrite ?orb_false_r; auto; try congruence; by rewrite Hncl.
    + destruct (decide _); [|done]. cbn in Hstep. simplify_eq. match goal with |- flow _ ?x => set (t1 := x) end.
      assert (Hpend : pending t1 = pending t) by (unfold pending, t1; cbn; rewrite Hp, <-app_assoc; done).
      assert (Hncl : stdoutCh_closed t = false) by (apply not_true_is_false; intros Hc%F2; congruence).
      split; rewrite ?Hpend; cbn; rewrite ?orb_false_r; auto; try congruence; by rewrite Hncl.
    + simplify_eq. match goal with |- flow _ ?x => set (t1 := x) end. assert (Hpend : pending t1 = pending t) by (unfold pending, t1; cbn; by rewrite Hp).
      split; rewrite ?Hpend; cbn; rewrite ?orb_true_r; auto.
  - destruct (pump_step (in_pump t) (clientCh t)) as [[[p ch] closed]|] eqn:Hp; [|done]. cbn in Hstep. simplify_eq.
    match goal with |- flow _ ?x => set (t1 := x) end. assert (Hfl : in_flight t1 = in_flight t).
    { unfold in_flight, pump_step, t1 in *. cbn. destruct (in_pump t) as [|[|f fs] last| |]; try done; cbn in Hp.
      - destruct last; by simplify_eq.
      - destruct (decide _); [|done]. simplify_eq. cbn. by rewrite <-app_assoc.
      - by simplify_eq. }
    destruct Hf as [F1 F2 F3 F4 F5 F6 F7 F8 F9 F10]. split; auto. by rewrite Hfl.
  - destruct (waiter t) eqn:Hw; try done. destruct (decide _); [|done]. simplify_eq.
    destruct Hf as [F1 F2 F3 F4 F5 F6 F7 F8 F9 F10]. split; auto. intros _ _. left. cbn. by destruct (exitCh t).
  - destruct (out_pump t) eqn:Hp; try done. destruct (decide _); [|done]. simplify_eq.
    destruct Hf as [F1 F2 F3 F4 F5 F6 F7 F8 F9 F10]. rewrite Hp in *.
    set (evs := (if decide (data = []) then [] else [OutData data]) ++ match err with Some e => [OutErr e] | None => [] end).
    match goal with |- flow _ ?x => set (t1 := x) end.
    assert (Hpend : pending t1 = pending t ++ evs) by (unfold pending, t1; cbn; by rewrite Hp, app_nil_r).
    assert (Hdata : data_of evs = data).
    { unfold evs. rewrite data_of_app. replace (data_of (match err with Some e => [OutErr e] | None => [] end)) with (@nil byte) by by destruct err.
      case_decide as Hnil; unfold data_of; cbn; [by rewrite Hnil|by rewrite !app_nil_r]. }
    assert (Hnoerr : ∀ pre e post, pending t ≠ pre ++ OutErr e :: post) by (intros pre e post Hx; by destruct (F1 _ _ _ Hx)).
    assert (Hncl : stdoutCh_closed t = false) by (apply not_true_is_false; intros Hc%F2; congruence).
    split; cbn; rewrite ?concat_app; cbn; rewrite ?app_nil_r; auto; try congruence.
    + intros pre e post. rewrite Hpend. intros Hx.
      destruct (err_in_suffix _ _ _ _ _ Hnoerr Hx) as [pre' Hevs]. unfold evs in Hevs.
      destruct (decide (data = [])), err as [e'|], pre' as [|x [|y pre'] ]; simplify_eq/=; try done; by destruct pre'.
    + intros Hc. by destruct (F3 Hc).
    + by apply prefix_app_r.
    + intros Hl Ho. by rewrite Hpend, data_of_app, Hdata, app_assoc, F5.
    + intros c g e Hx. by destruct (F6 _ _ _ Hx) as (_ & _ & ?).
  - destruct (in_pump t) eqn:Hp; try done. destruct Hf as [F1 F2 F3 F4 F5 F6 F7 F8 F9 F10].
    destruct answer as [frame|e]; simplify_eq; split; auto.
    + destruct F7 as (consumed & Hi & Hrest). exists consumed. split; [|done]. cbn. rewrite Hi, <-app_assoc. f_equal.
      unfold in_flight. cbn. rewrite !omap_frames_app, Hp. cbn. by rewrite app_nil_r.
    + destruct F7 as (consumed & Hi & Hrest). exists consumed. split; [|done]. cbn. rewrite Hi. f_equal.
      unfold in_flight. cbn. by rewrite !omap_frames_app, Hp.
  - destruct (waiter t) eqn:Hw; try done. simplify_eq. destruct Hf as [F1 F2 F3 F4 F5 F6 F7 F8 F9 F10]. by split.
  - destruct (other_step _ _ _) as [[r' live]|]; [|done]. cbn in Hstep. simplify_eq. by destruct Hf.
Qed.

(** The calls of [attach] before the loop. *)
Definition opening (a : action) : Prop :=
  match a with Sent (SStdout _) _ | Sent (SExited _ _) _ | Wrote _ _ => False | _ => True end.

Lemma attach_logs : logs opening (attach s).
Proof.
  assert (Hrefuse : ∀ k e, logs opening (applicationError k e))
    by (intros k e; apply (logs_impl control); [by intros []|apply applicationError_logs]).
  unfold attach. apply logs_bind; [unfold receiveAttachRequest, Recv|intros res1]; solve_logs.
  all: unfold reserveSession, enforceAttachLimit, startHost, spawn_call, sendAttachedFrame, Send, cleanupHost, Shutdown, Wait,
    attach_deferred; solve_logs.
Qed.

Lemma start_flow r : flow (in_loop (start s r)) (start s r).
Proof.
  unfold start. destruct (attach s (mk_World [] r)) as [w o] eqn:Ha. apply attach_logs in Ha as (log & Hh & Hl). cbn in Hh.
  assert (Hc : delivered (hist w) = [] ∧ written (hist w) = [] ∧ ∀ c g e, Sent (SExited c g) e ∉ hist w).
  { rewrite Hh. clear -Hl. induction Hl as [|a log Ha _ (IH1 & IH2 & IH3)]; [by split_and!; [..|intros c g e ?%elem_of_nil]|].
    unfold delivered, written in *. destruct a as [| | | | |[| | |] [|]| | | | | |]; try done; cbn; rewrite ?IH1, ?IH2;
      (split_and!; [done..|]; intros c g e Hin%elem_of_cons; destruct Hin as [Hin|Hin]; [done|by apply IH3 in Hin]). }
  destruct Hc as (Hd & Hw & Hx).
  destruct o; split; cbn; rewrite ?Hd, ?Hw; try done;
    first [by intros [] | by intros c g e ?%Hx | by exists [] | idtac].
Qed.

Lemma reachable_flow r t : reachable_from s r t → flow (in_loop t) t.
Proof.
  apply (reachable_invariant _ _ (λ t, flow (in_loop t) t)); [intros ? <-; apply start_flow|].
  intros t1 t2 Hf [l Hl]. by eapply exec_flow.
Qed.

(** The output.  What the client is sent of the output is, byte for byte, a
    prefix of what the host has written; and when the exit status is sent, it
    is all of it: nothing that the program wrote before it ended is lost. *)
Theorem session_output (r : R) (t : St) :
  reachable_from s r t →
  delivered (hist (world t)) `prefix_of` concat (output t) ∧
  ∀ code sig err, Sent (SExited code sig) err ∈ hist (world t) → delivered (hist (world t)) = concat (output t).
Proof.
  intros Hf%reachable_flow. split; [apply Hf|]. intros code sig err Hin. by destruct (fl_exited _ _ Hf _ _ _ Hin) as (_ & ? & _).
Qed.

(** The input.  What is written to the host are payloads the client sent, in
    their order and none twice; as long as the session runs and its stream has
    not failed, they are the first ones, none left out. *)
Theorem session_input (r : R) (t : St) :
  reachable_from s r t →
  written (hist (world t)) `sublist_of` payloads (input t) ∧
  (main t = MLoop → streamOpen (rt t) = true → written (hist (world t)) `prefix_of` payloads (input t)).
Proof.
  intros Hf%reachable_flow. destruct (fl_input _ _ Hf) as (consumed & Hi & Hsub & Hall). rewrite Hi, payloads_app. split.
  - by apply sublist_inserts_r.
  - intros Hm Ho. rewrite Hall; [by apply prefix_app_r|by unfold in_loop; rewrite Hm|done].
Qed.

(** No goroutine of the session can go on by itself. *)
Definition all_wait (t : St) : Prop := ∀ l, PtyService.environment l = false → exec s l t = None.

(** The loop waits for nothing but the host.  While a session runs and no
    goroutine of it can go on, its host has not exited or a read of its output
    is under way: once the program has ended and its output was read to the
    end, the session ends, whatever the client does. *)
Theorem session_progress (r : R) (t : St) :
  reachable_from s r t → main t = MLoop → all_wait t → waiter t = WWait ∨ out_pump t = PRead.
Proof.
  intros Hf%reachable_flow Hm Hstuck. unfold in_loop in Hf. rewrite Hm in Hf.
  assert (Hmain : ∀ b, main_step s b t = None) by (intros b; apply (Hstuck (LMain b) eq_refl)).
  assert (Hnr : readyToExit (rt t) = false).
  { apply not_true_is_false. intros Hr. specialize (Hmain OnExit). unfold main_step in Hmain. rewrite Hm, Hr in Hmain. by destruct (finish _ _). }
  assert (Hexit : exitCh t = []).
  { specialize (Hmain OnExit). unfold main_step in Hmain. rewrite Hm, Hnr in Hmain. destruct (exitCh t); [done|].
    by destruct ((_ ← logPTYExited _; _) _) as [? [? ?]]. }
  assert (Hout : stdout_on t = true → stdoutCh t = [] ∧ stdoutCh_closed t = false).
  { intros Hon. specialize (Hmain OnStdout). unfold main_step in Hmain. rewrite Hm, Hnr, Hon in Hmain.
    unfold receive in Hmain. destruct (stdoutCh t); [destruct (stdoutCh_closed t); [|done]|]; exfalso; clear -Hmain;
      cbn [mbind option_bind] in Hmain; repeat case_match; done. }
  destruct (waiter t) as [|e|] eqn:Hw; [by left| |right].
  { specialize (Hstuck LWaiter eq_refl). cbn in Hstuck. by rewrite Hw, Hexit in Hstuck. }
  destruct (fl_waiter _ _ Hf eq_refl Hw) as [?|Hx]; [done|]. unfold readyToExit in Hnr. rewrite Hx in Hnr. cbn in Hnr.
  pose proof (fl_on _ _ Hf eq_refl) as Hon. rewrite Hnr in Hon. destruct (Hout Hon) as [Hch Hncl].
  specialize (Hstuck LOutPump eq_refl). cbn in Hstuck. rewrite Hch in Hstuck.
  destruct (out_pump t) as [|[|ev evs] last| |] eqn:Hp; try done.
  by rewrite (fl_done _ _ Hf eq_refl Hp) in Hncl.
Qed.

(** ** The command *)

(** The program a session may start: the one the client named, in the directory
    of the user's project, without arguments, and with the environment of the
    allowlist. *)
Definition command_of (r : R) (req : SpawnReq) : Prop :=
  ∃ u ws a, UserIDFromContext ctx = Some u ∧ recv_first [] = Ok (CAttach a) ∧ (LookupDaemon u r).2 = Some ws ∧
    Args req = [] ∧ ResolveCwd (Workspace s) u ws = Ok (Cwd req) ∧ ResolveBinary (agent a) = Ok (Binary req) ∧
    Env req = BuildEnv (envMap PtyService.environ) (EnvWhitelist s) (term a).

Definition spawns (r : R) (a : action) : Prop := match a with Spawned req _ => command_of r req | _ => True end.
Definition no_spawn (a : action) : Prop := match a with Spawned _ _ => False | _ => True end.

Lemma prepareSpawn_Ok u ws a plan :
  prepareSpawn s PtyService.environ u ws a = Ok plan →
  ResolveCwd (Workspace s) u ws = Ok (cwd plan) ∧ ResolveBinary (agent a) = Ok (binary plan) ∧
  env plan = BuildEnv (envMap PtyService.environ) (EnvWhitelist s) (term a).
Proof.
  unfold prepareSpawn. intros (bin & Hbin & Hp)%result_bind_Ok. apply result_bind_Ok in Hp as (dir & Hdir%map_err_Ok & [= <-]).
  unfold resolveAgent in Hbin. destruct (decide _); [done|]. by apply map_err_Ok in Hbin.
Qed.

Lemma fmap_result {A B} (g : A → B) (m : M A) w w' res : (g <$> m) w = (w', res) → ∃ a, res = g a.
Proof. unfold fmap, M_fmap, mbind, M_bind. destruct (m w) as [w1 a]. intros [= <- <-]. by exists a. Qed.

Lemma attach_spawns r w o : attach s (mk_World [] r) = (w, o) → Forall (spawns r) (hist w).
Proof.
  assert (Hc : ∀ A (m : M A), logs no_spawn m → logs (spawns r) m) by (intros A m; apply logs_impl; by intros []).
  assert (Hrefuse : ∀ k e, logs no_spawn (applicationError k e))
    by (intros k e; apply (logs_impl control); [by intros []|apply applicationError_logs]).
  assert (Hrun : ∀ A (m : M A) w1 w2 a, logs (spawns r) m → m w1 = (w2, a) → Forall (spawns r) (hist w1) → Forall (spawns r) (hist w2)).
  { intros A m w1 w2 a Hm Hr Hw. destruct (Hm _ _ _ Hr) as (log & -> & Hl). by apply Forall_app. }
  unfold attach. destruct (receiveAttachRequest (mk_World [] r)) as [w1 res1] eqn:H4. rewrite (bind_run _ _ _ _ _ H4).
  assert (Hw1 : Forall (spawns r) (hist w1)).
  { eapply (Hrun _ receiveAttachRequest); [apply Hc; unfold receiveAttachRequest, Recv; solve_logs|exact H4|constructor]. }
  destruct res1 as [[u a]|e]; [|by intros [= <- <-] ].
  assert (Hu : UserIDFromContext ctx = Some u ∧ recv_first [] = Ok (CAttach a) ∧ reg w1 = r).
  { unfold receiveAttachRequest in H4. destruct (UserIDFromContext ctx) as [u'|]; [|done].
    rewrite (bind_run _ _ _ (mk_World [Received (recv_first [])] r) (recv_first [])) in H4 by done.
    destruct (recv_first []) as [[a'| | | |]|]; first [by apply fmap_result in H4 as [? ?]|discriminate H4|by injection H4 as <- <- <-]. }
  destruct Hu as (Hu & Ha & Hr1). destruct (reserveSession u w1) as [w2 res2] eqn:H5. rewrite (bind_run _ _ _ _ _ H5).
  assert (Hw2 : Forall (spawns r) (hist w2)).
  { eapply (Hrun _ (reserveSession u)); [apply Hc; unfold reserveSession; solve_logs|exact H5|done]. }
  destruct res2 as [[id ws]|e]; [|by intros [= <- <-] ].
  assert (Hws : (LookupDaemon u r).2 = Some ws).
  { unfold reserveSession in H5. destruct (LookupDaemon u r) as [r1 ws'] eqn:Hl.
    rewrite (bind_run _ _ _ (mk_World (hist w1) r1) ws') in H5 by (unfold registry_lookup; by rewrite Hr1, Hl).
    destruct ws' as [ws'|]; [|by apply fmap_result in H5 as [? ?] ].
    destruct (registry_register u (mk_World (hist w1) r1)) as [w3 res3] eqn:Hreg.
    rewrite (bind_run _ _ _ _ _ Hreg) in H5. destruct res3 as [[id'|]|]; first [by apply fmap_result in H5 as [? ?]|by injection H5 as <- <- <-]. }
  intros Hrest. eapply (Hrun _ _ w2); [|exact Hrest|done]. apply logs_bind.
  { apply Hc. unfold enforceAttachLimit. solve_logs. }
  intros limitErr. assert (Hdef : ∀ err, logs (spawns r) (attach_deferred u id err))
    by (intros err; apply Hc; unfold attach_deferred; solve_logs).
  destruct limitErr; [apply Hdef|]. apply logs_bind.
  - unfold startHost. destruct (prepareSpawn _ _ _ _ _) as [plan|e] eqn:Hplan; [|apply Hc; solve_logs].
    apply prepareSpawn_Ok in Hplan as (Hcwd & Hbin & Henv). apply logs_bind; [|intros ans; apply Hc; solve_logs].
    unfold spawn_call. apply logs_call. intros ans. cbn. exists u, ws, a. by split_and!.
  - intros [dir|e]; [|apply Hdef]. apply logs_bind; [apply Hc; unfold sendAttachedFrame, Send; solve_logs|]. intros [e|]; [|apply logs_ret].
    apply logs_bind; [apply Hc; unfold cleanupHost, Shutdown, Wait; solve_logs|]. intros _. apply Hdef.
Qed.

Lemma loop_spawns r w1 w2 {A} (m : M A) a :
  logs no_spawn m → m w1 = (w2, a) → Forall (spawns r) (hist w1) → Forall (spawns r) (hist w2).
Proof.
  intros Hm Hr Hw. destruct (Hm _ _ _ Hr) as (log & -> & Hl). apply Forall_app. split; [done|].
  eapply Forall_impl; [exact Hl|by intros []].
Qed.

Lemma no_spawn_logs {A} (m : M A) : logs control m → logs no_spawn m.
Proof. apply logs_impl. by intros []. Qed.

Lemma handlers_no_spawn r :
  (∀ result, logs no_spawn (handleStdoutEvent r result)) ∧ (∀ result, logs no_spawn (handleClientEvent s r result)) ∧
  (∀ result, logs no_spawn (_ ← logPTYExited result; handleExitEvent r result)) ∧ logs no_spawn (finish r).
Proof.
  assert (Hfail : ∀ k e, logs no_spawn (fail_session r k e)) by (intros; apply no_spawn_logs, fail_session_logs).
  assert (Hclose : logs no_spawn (closeStream r)) by apply no_spawn_logs, closeStream_logs.
  assert (Hshut : logs no_spawn (shutdown r)) by apply no_spawn_logs, shutdown_logs.
  split_and!.
  - intros [[data|[|text]]|]; cbn [handleStdoutEvent handleStdoutError]; unfold Send; solve_logs.
  - intros [[frame|e]|]; cbn [handleClientEvent]; solve_logs.
    destruct frame; cbn [handleClientFrame]; unfold handleClientStdin, handleClientResize; solve_logs.
  - intros result. apply no_spawn_logs, handleExitEvent_logs.
  - unfold finish, Send. solve_logs.
Qed.

Lemma reachable_spawns r t : reachable_from s r t → Forall (spawns r) (hist (world t)).
Proof.
  apply (reachable_invariant _ _ (λ t, Forall (spawns r) (hist (world t)))).
  { intros ? <-. unfold start. destruct (attach s (mk_World [] r)) as [w o] eqn:Ha. apply attach_spawns in Ha. by destruct o. }
  intros t1 t2 Hw [l Hl].
  assert (Hcont : ∀ rt out inp err w t0, Forall (spawns r) (hist w) → Forall (spawns r) (hist (world (continue_with rt out inp err w t0)))).
  { intros rt out inp err w t0 Hw'. unfold continue_with. destruct err; [|done]. cbn. apply Forall_app. split; [done|by repeat constructor]. }
  destruct (handlers_no_spawn (rt t1)) as (N1 & N2 & N3 & N4).
  destruct l as [b| | | |data err|answer|e|r']; cbn [exec] in Hl;
    [|try (destruct (pump_step _ _) as [[[? ?] ?]|]; [|done]; cbn in Hl); try (destruct (other_step _ _ _) as [[? ?]|]; [|done]; cbn in Hl);
      repeat case_match; simplify_eq/=; try done..].
  unfold main_step in Hl. destruct (main t1); [|done]. destruct (readyToExit _).
  { destruct (finish (rt t1) (world t1)) as [w err] eqn:Hf. simplify_eq. cbn. apply Forall_app. split; [exact (loop_spawns _ _ _ _ _ N4 Hf Hw)|by repeat constructor]. }
  destruct b.
  - destruct (stdout_on t1); [|done]. destruct (receive _ _) as [[result rest]|]; [|done]. cbn [mbind option_bind] in Hl.
    destruct (handleStdoutEvent _ result (world t1)) as [w [[rt' keep] err]] eqn:Hh. simplify_eq. apply Hcont. exact (loop_spawns _ _ _ _ _ (N1 result) Hh Hw).
  - destruct (client_on t1); [|done]. destruct (receive _ _) as [[result rest]|]; [|done]. cbn [mbind option_bind] in Hl.
    destruct (handleClientEvent s _ result (world t1)) as [w [[rt' keep] err]] eqn:Hh. simplify_eq. apply Hcont. exact (loop_spawns _ _ _ _ _ (N2 result) Hh Hw).
  - destruct (exitCh t1) as [|result rest]; [done|].
    destruct ((_ ← logPTYExited result; handleExitEvent (rt t1) result) (world t1)) as [w [rt' err]] eqn:Hh. simplify_eq.
    apply Hcont. exact (loop_spawns _ _ _ _ _ (N3 result) Hh Hw).
Qed.

(** C7. The command of a session.  A program is only started for the user the
    stream was authenticated as, when the first frame asks to attach and the
    user's daemon is connected: it is the one the client named, a bare name or a
    path that begins with a slash, a backslash or a drive letter, without
    arguments; it runs in the directory of the user and the project that the
    daemon reported, lexically inside the workspace.  The environment built for
    it has variables of the server that the allowlist allows, and the TERM of
    the client; when it is empty it is not passed on, and the program has the
    environment of the server itself.  Spawn hands all of this to a fixed script
    of the shell, as positional parameters. *)
Theorem session_command (r : R) (t : St) (req : SpawnReq) (started : bool) :
  reachable_from s r t → Spawned req started ∈ hist (world t) →
  command_of r req ∧ IsWithin (Workspace s) (Cwd req) = Ok true ∧
  (∀ kv, kv ∈ Env req → ∃ k v, kv = env_entry k v ∧ allowed (EnvWhitelist s) k ∧
     (k = "TERM" ∨ envMap PtyService.environ !! k = Some v)) ∧
  ∀ cmd size graceful, Spawn req = Ok (cmd, size, graceful) →
    ∃ path, LookPath (trim_space (Binary req)) = Some path ∧ stat_is_dir (Cwd req) = Some true ∧
      cmd = mk_Cmd "/bin/sh" ["-c"; shell_script; "rclaude-pty"; Cwd req; path] "/" (CmdEnv cmd) ∧
      child_environ PtyService.environ cmd = if decide (Env req = []) then PtyService.environ else Env req.
Proof.
  intros Ht Hin. pose proof (reachable_spawns _ _ Ht) as Hall. rewrite Forall_forall in Hall.
  pose proof (Hall _ Hin) as Hc. cbn in Hc. split; [done|].
  destruct Hc as (u & ws & a & _ & _ & _ & Hargs & Hcwd & _ & Henv). pose proof (ResolveCwd_spec (Workspace s) u ws) as Hs.
  rewrite Hcwd in Hs. destruct Hs as (Hr & _ & _ & Ha & _ & He). split_and!.
  - rewrite IsWithin_elems, He by done. rewrite bool_decide_eq_true_2; [done|]. by apply prefix_app_r.
  - intros kv Hkv. rewrite Henv in Hkv.
    apply (BuildEnv_spec PtyService.environ (EnvWhitelist s) (term a)) in Hkv as (k & v & -> & Hk & Hv). exists k, v. naive_solver.
  - intros cmd size graceful Hsp. destruct (Spawn_command _ _ _ _ Hsp) as (path & Hp & Hd & _ & ->); [by apply trim_space_abs|].
    exists path. rewrite Hargs. unfold child_environ. split_and!; [done..|]. cbn. by case_decide.
Qed.

(** ** A goroutine left behind *)

(** A pump that has an event to send and no room for it. *)
Definition blocked {E} (p : pump E) (ch : list E) : Prop :=
  match p with PSend (_ :: _) _ => channelSize ≤ length ch | _ => False end.

Lemma blocked_pump_step {E} (p : pump E) ch : blocked p ch → pump_step p ch = None.
Proof. unfold blocked, pump_step. destruct p as [|[|e evs] last| |]; try done. intros ?. rewrite decide_False by lia. done. Qed.

(** A goroutine that is left behind.  When [Attach] has returned while one of
    its pumps waits for room in its channel, nothing ever takes an event out of
    that channel again: the goroutine never ends, and the host's output is not
    read any more. *)
Theorem pump_left_behind (r : R) (t t' : St) (err : option error) :
  reachable_from s r t → main t = MReturned err → rtc (step s) t t' →
  (blocked (out_pump t) (stdoutCh t) → out_pump t' = out_pump t ∧ output t' = output t) ∧
  (blocked (in_pump t) (clientCh t) → in_pump t' = in_pump t ∧ input t' = input t).
Proof.
  intros _ Hm Hsteps. revert Hm. induction Hsteps as [t|t t1 t' [l Hl] _ IH]; intros Hm; [done|].
  assert (Hm1 : main t1 = MReturned err ∧
    (blocked (out_pump t) (stdoutCh t) → out_pump t1 = out_pump t ∧ output t1 = output t ∧ stdoutCh t1 = stdoutCh t) ∧
    (blocked (in_pump t) (clientCh t) → in_pump t1 = in_pump t ∧ input t1 = input t ∧ clientCh t1 = clientCh t)).
  { destruct l as [b| | | |data e|answer|e|r']; cbn [exec] in Hl.
    - unfold main_step in Hl. by rewrite Hm in Hl.
    - destruct (pump_step (out_pump t) (stdoutCh t)) as [[[p ch] cl]|] eqn:Hp; [|done]. cbn in Hl. simplify_eq.
      split_and!; [done| |done]. intros Hb%blocked_pump_step. congruence.
    - destruct (pump_step (in_pump t) (clientCh t)) as [[[p ch] cl]|] eqn:Hp; [|done]. cbn in Hl. simplify_eq.
      split_and!; [done|done|]. intros Hb%blocked_pump_step. congruence.
    - destruct (waiter t); try done. destruct (decide _); [|done]. by simplify_eq.
    - destruct (out_pump t); try done. destruct (decide _); [|done]. by simplify_eq.
    - destruct (in_pump t); try done. destruct answer; by simplify_eq.
    - destruct (waiter t); try done. by simplify_eq.
    - destruct (other_step _ _ _) as [[r1 live]|]; [|done]. cbn in Hl. by simplify_eq. }
  destruct Hm1 as (Hm1 & Hout & Hin). destruct (IH Hm1) as [IHout IHin]. split.
  - intros Hb. destruct (Hout Hb) as (E1 & E2 & E3). rewrite E1, E2, E3 in IHout. by apply IHout.
  - intros Hb. destruct (Hin Hb) as (E1 & E2 & E3). rewrite E1, E2, E3 in IHin. by apply IHin.
Qed.
End streams.

(** ** Concrete runs *)

Lemma session_run_state :
  ∃ t, PtyExample.run PtyExample.session_run = Some t ∧ Sent (SExited 0 0) None ∈ hist (world t).
Proof.
  pose proof PtyExample.session_history as Hh. destruct (PtyExample.run PtyExample.session_run) as [t|]; [|done].
  exists t. split; [done|]. injection Hh as Hd _. rewrite <-(take_drop 4 (hist (world t))), Hd. apply elem_of_app. right. set_solver.
Qed.

Lemma session_output_witness :
  ∃ t, PtyExample.run PtyExample.session_run = Some t ∧ delivered (hist (world t)) = concat (output t).
Proof.
  destruct session_run_state as (t & Hrun & Hin). exists t. split; [exact Hrun|].
  exact (proj2 (session_output _ _ _ (PtyExample_reachable _ _ Hrun)) _ _ _ Hin).
Defined.

Lemma session_input_witness :
  ∃ t, PtyExample.run PtyExample.session_run = Some t ∧ written (hist (world t)) `sublist_of` payloads (input t).
Proof.
  destruct session_run_state as (t & Hrun & Hin). exists t. split; [exact Hrun|].
  exact (proj1 (session_input _ _ _ (PtyExample_reachable _ _ Hrun))).
Defined.

(** At the start the loop waits for the host. *)
Lemma session_progress_witness : waiter PtyExample.start = WWait ∨ out_pump PtyExample.start = PRead.
Proof.
  apply (session_progress _ _ _ (PtyExample_reachable [] _ eq_refl)); [vm_compute; reflexivity|].
  intros [[]| | | | | | |]; try discriminate; vm_compute; reflexivity.
Defined.

Lemma session_command_witness :
  IsWithin "/mnt" (Cwd PtyExample.req) = Ok true ∧ Args PtyExample.req = [] ∧
  (∃ k v, "PATH=/usr/bin" = env_entry k v ∧ allowed DefaultPTYEnvPassthrough k) ∧
  match @Spawn PtyExample.system PtyExample.req with
  | Ok (cmd, _, _) => child_environ ["SECRET=x"] cmd = Env PtyExample.req
  | Err _ => False
  end.
Proof.
  assert (Hin : Spawned PtyExample.req true ∈ hist (world PtyExample.start)) by (rewrite PtyExample.start_history; set_solver).
  destruct (session_command _ _ _ _ _ (PtyExample_reachable [] _ eq_refl) Hin) as ((u & ws & a & _ & _ & _ & Hargs & _) & Hw & He & _).
  split; [exact Hw|]. split; [exact Hargs|]. split; [|vm_compute; reflexivity].
  destruct (He "PATH=/usr/bin" ltac:(left)) as (k & v & Hkv & Hk & _). exists k, v. by split.
Defined.

(** The program writes more than the channel holds when a frame of the client
    ends the session. *)
Lemma pump_left_behind_witness :
  ∃ t, PtyExample.run PtyExample.flood = Some t ∧ main t = MReturned None ∧
    ∀ t', rtc PtyExample.step t t' → out_pump t' = out_pump t.
Proof.
  assert (Hsome : match PtyExample.run PtyExample.flood with
    | Some t => match main t, out_pump t with
                | MReturned None, PSend (_ :: _) _ => Nat.leb channelSize (length (stdoutCh t))
                | _, _ => false
                end
    | None => false
    end = true) by (vm_compute; reflexivity).
  destruct (PtyExample.run PtyExample.flood) as [t|] eqn:Hrun; [|discriminate Hsome]. exists t. split; [reflexivity|].
  destruct (main t) as [|[err|] ] eqn:Hm; [discriminate Hsome..|]. split; [reflexivity|]. intros t' Hsteps.
  pose proof (PtyExample_reachable _ _ Hrun) as Hreach.
  pose proof (pump_left_behind _ _ _ t' _ Hreach Hm) as Hleft. destruct (Hleft Hsteps) as [Hout _]. apply Hout.
  destruct (out_pump t) as [|[|e evs] last| |]; [discriminate Hsome|discriminate Hsome| |discriminate Hsome..].
  unfold blocked. apply Nat.leb_le. exact Hsome.
Defined.
