(* ===== verification/PtyClient.v ===== *)
(** * The client's side of a terminal (pkg/ptyclient/client.go)

    [Run] with the goroutines it starts: the one that sends, those that read the
    terminal and its sizes, and the one that receives.  Each takes steps that
    interleave; the stream, the terminal and the context of the caller are the
    environment, whose answers are in the labels of the steps. *)
From S2P Require Import Prelude PtyService.
From stdpp Require Import options.

(** The messages are those of the service; a server frame may have no payload. *)
Inductive frame : Type := Payload (f : ServerFrame) | NoPayload.

Inductive error : Type :=
  | ErrNilStream
  | ErrFirstFrameNotAttached
  | ErrStreamClosedUnexpectedly
  | ErrUnexpectedFrame (f : frame)
  | EOF
  | ErrClosedPipe
  | Canceled
  | DeadlineExceeded
  | ErrText (text : string).

#[export] Instance Error_Kind_eq_dec : EqDecision Error_Kind.
Proof. solve_decision. Defined.
#[export] Instance message_eq_dec : EqDecision message.
Proof. solve_decision. Defined.
#[export] Instance ServerFrame_eq_dec : EqDecision ServerFrame.
Proof. solve_decision. Defined.
#[export] Instance frame_eq_dec : EqDecision frame.
Proof. solve_decision. Defined.
#[export] Instance client_error_eq_dec : EqDecision error.
Proof. solve_decision. Defined.

Record WindowSize : Type := mk_WindowSize { Cols : Z; Rows : Z; XPixel : Z; YPixel : Z }.

Record AttachParams : Type := mk_AttachParams {
  SessionID : string; InitialSize : WindowSize; Term : string; Agent : string }.

(** The configuration; the streams of the terminal are in the labels. *)
Record Config : Type := mk_Config { hasStream : bool; hasResizes : bool; Attach : AttachParams; FrameMax : Z }.

Definition defaultStdinChunk : Z := 64 * 1024.

Definition New (cfg : Config) : Config :=
  mk_Config (hasStream cfg) (hasResizes cfg) (Attach cfg)
    (if decide (FrameMax cfg ≤ 0)%Z then defaultStdinChunk else FrameMax cfg).

Definition toProtoSize (ws : WindowSize) : Resize := mk_Resize (Cols ws) (Rows ws) (XPixel ws) (YPixel ws).

Definition attachFrame (params : AttachParams) : ClientFrame :=
  CAttach (mk_AttachReq (SessionID params) (Some (toProtoSize (InitialSize params))) (Term params) (Agent params) []).

Record ExitResult : Type := mk_ExitResult {
  Code : Z; Signal : Z; ServerError : option (Error_Kind * message); ResErr : option error }.
Definition no_result : ExitResult := mk_ExitResult 0 0 None None.

#[export] Instance ExitResult_eq_dec : EqDecision ExitResult.
Proof. solve_decision. Defined.

(** What the client does, with the answers. *)
Inductive action : Type :=
  | Sent (f : ClientFrame) (err : option error)
  | SendClosed
  | Attached                                       (* [OnAttached] *)
  | Output (payload : bytes) (err : option error)
  | StdinClosed.

Abbreviation history := (list action).

(** A request on the channel [outbound]; the acknowledgement goes to the one
    goroutine that may wait for it. *)
Record sendRequest : Type := mk_sendRequest { req_frame : ClientFrame; wants_ack : bool }.

Definition outboundSize : nat := 16.

(** ** The goroutines *)

(** [sendLoop], and the return of the function that runs it: [CloseSend],
    [cancel], and the group. *)
Inductive sender_pc : Type :=
  | SSelect
  | SSending (r : sendRequest)
  | SClose (err : option error)
  | SCancel (err : option error)
  | SReturn (err : option error)
  | SDone.

(** The goroutine of [startSession] that receives the first frame. *)
Inductive first_pc : Type := FIdle | FRecv | FSent (answer : result error frame) | FTaken.

(** [stdinPump] *)
Inductive stdin_pc : Type :=
  | IIdle
  | ICheck
  | IRead
  | IForward (chunk : bytes) (readErr : option error)
  | IReturn (err : option error)
  | IDone.

(** [resizePump] *)
Inductive resize_pc : Type :=
  | ZIdle
  | ZSelect
  | ZForward (f : ClientFrame)
  | ZReturn (err : option error)
  | ZDone.

(** [recvLoop] *)
Inductive recv_pc : Type :=
  | VIdle
  | VRecv
  | VCheck
  | VClose (err : option error)
  | VCancel (err : option error)
  | VReturn (err : option error)
  | VDone.

(** [Run]: [startSession], the first frame, [shutdownBackground] with the
    result, the wait for the group, and the return. *)
Inductive main_pc : Type :=
  | MEnqueue
  | MAck
  | MFirst
  | MStarted (f : frame)
  | MCancel (r : ExitResult)
  | MCloseStdin (r : ExitResult)
  | MGroup (r : ExitResult)
  | MWait
  | MReturned (r : ExitResult).

Record St : Type := mk_St {
  main : main_pc;
  sender : sender_pc;
  first : first_pc;
  stdin : stdin_pc;
  resizer : resize_pc;
  receiver : recv_pc;
  done : option error;                   (* the error of the context, once it is done *)
  interrupted : bool;                    (* the caller's context is done *)
  group_err : option error;              (* the first error of the group *)
  outbound : list sendRequest;
  ack : option (option error);           (* what the acknowledgement channel holds *)
  stdin_closed : bool;
  result : ExitResult;
  hist : history;
  received : list frame;                 (* the frames the stream was read to have *)
  typed : list bytes;                    (* what the terminal was read to have *)
}.

Definition set_main x t := mk_St x (sender t) (first t) (stdin t) (resizer t) (receiver t) (done t) (interrupted t) (group_err t) (outbound t) (ack t) (stdin_closed t) (result t) (hist t) (received t) (typed t).
Definition set_sender x t := mk_St (main t) x (first t) (stdin t) (resizer t) (receiver t) (done t) (interrupted t) (group_err t) (outbound t) (ack t) (stdin_closed t) (result t) (hist t) (received t) (typed t).
Definition set_first x t := mk_St (main t) (sender t) x (stdin t) (resizer t) (receiver t) (done t) (interrupted t) (group_err t) (outbound t) (ack t) (stdin_closed t) (result t) (hist t) (received t) (typed t).
Definition set_stdin x t := mk_St (main t) (sender t) (first t) x (resizer t) (receiver t) (done t) (interrupted t) (group_err t) (outbound t) (ack t) (stdin_closed t) (result t) (hist t) (received t) (typed t).
Definition set_resizer x t := mk_St (main t) (sender t) (first t) (stdin t) x (receiver t) (done t) (interrupted t) (group_err t) (outbound t) (ack t) (stdin_closed t) (result t) (hist t) (received t) (typed t).
Definition set_receiver x t := mk_St (main t) (sender t) (first t) (stdin t) (resizer t) x (done t) (interrupted t) (group_err t) (outbound t) (ack t) (stdin_closed t) (result t) (hist t) (received t) (typed t).
Definition set_done x t := mk_St (main t) (sender t) (first t) (stdin t) (resizer t) (receiver t) x (interrupted t) (group_err t) (outbound t) (ack t) (stdin_closed t) (result t) (hist t) (received t) (typed t).
Definition set_interrupted x t := mk_St (main t) (sender t) (first t) (stdin t) (resizer t) (receiver t) (done t) x (group_err t) (outbound t) (ack t) (stdin_closed t) (result t) (hist t) (received t) (typed t).
Definition set_group_err x t := mk_St (main t) (sender t) (first t) (stdin t) (resizer t) (receiver t) (done t) (interrupted t) x (outbound t) (ack t) (stdin_closed t) (result t) (hist t) (received t) (typed t).
Definition set_outbound x t := mk_St (main t) (sender t) (first t) (stdin t) (resizer t) (receiver t) (done t) (interrupted t) (group_err t) x (ack t) (stdin_closed t) (result t) (hist t) (received t) (typed t).
Definition set_ack x t := mk_St (main t) (sender t) (first t) (stdin t) (resizer t) (receiver t) (done t) (interrupted t) (group_err t) (outbound t) x (stdin_closed t) (result t) (hist t) (received t) (typed t).
Definition set_stdin_closed x t := mk_St (main t) (sender t) (first t) (stdin t) (resizer t) (receiver t) (done t) (interrupted t) (group_err t) (outbound t) (ack t) x (result t) (hist t) (received t) (typed t).
Definition set_result x t := mk_St (main t) (sender t) (first t) (stdin t) (resizer t) (receiver t) (done t) (interrupted t) (group_err t) (outbound t) (ack t) (stdin_closed t) x (hist t) (received t) (typed t).
Definition record x t := mk_St (main t) (sender t) (first t) (stdin t) (resizer t) (receiver t) (done t) (interrupted t) (group_err t) (outbound t) (ack t) (stdin_closed t) (result t) (hist t ++ [x]) (received t) (typed t).
Definition set_received x t := mk_St (main t) (sender t) (first t) (stdin t) (resizer t) (receiver t) (done t) (interrupted t) (group_err t) (outbound t) (ack t) (stdin_closed t) (result t) (hist t) x (typed t).
Definition set_typed x t := mk_St (main t) (sender t) (first t) (stdin t) (resizer t) (receiver t) (done t) (interrupted t) (group_err t) (outbound t) (ack t) (stdin_closed t) (result t) (hist t) (received t) x.

Definition cancel_with (e : error) (t : St) : St :=
  match done t with Some _ => t | None => set_done (Some e) t end.
Definition cancel : St → St := cancel_with Canceled.

(** A function of the group returns: its error, when it is the first, is the
    group's, and cancels the group's context. *)
Definition group_return (err : option error) (t : St) : St :=
  match err, group_err t with
  | Some e, None => cancel (set_group_err (Some e) t)
  | _, _ => t
  end.

Definition closeSend (t : St) : St := record SendClosed t.
Definition closeStdin (t : St) : St := record StdinClosed (set_stdin_closed true t).

Definition normalizeReadErr (err : error) : option error :=
  match err with EOF | ErrClosedPipe | Canceled => None | _ => Some err end.

Definition buildExitResult (r : ExitResult) (waitErr : option error) : ExitResult :=
  if bool_decide (Code r = 0%Z) && bool_decide (Signal r = 0%Z) && match ServerError r with None => true | _ => false end
  then match waitErr with Some e => mk_ExitResult (Code r) (Signal r) (ServerError r) (Some e) | None => r end
  else r.

(** The branch of a select: the context is done, or the other one. *)
Inductive branch : Type := OnDone | OnOther.

(** A select of the end of the context and a send on [outbound]: [Err] is the
    context's error, and [None] blocks. *)
Definition enqueue (b : branch) (r : sendRequest) (t : St) : option (Prelude.result error St) :=
  match b with
  | OnDone => Err <$> done t
  | OnOther => if decide (length (outbound t) < outboundSize) then Some (Ok (set_outbound (outbound t ++ [r]) t)) else None
  end.

Section client.
Context (c : Config).

Definition fail_with (err : error) : ExitResult := mk_ExitResult 0 0 None (Some err).

Definition group_done (t : St) : bool :=
  match sender t, stdin t, resizer t, receiver t with
  | SDone, (IIdle | IDone), (ZIdle | ZDone), (VIdle | VDone) => true
  | _, _, _, _ => false
  end.

(** [startSession] returned a frame: [Run] fails, or starts the pumps. *)
Definition started (f : frame) (t : St) : St :=
  match f with
  | Payload (SError kind msg) => set_main (MCancel (mk_ExitResult 0 0 (Some (kind, msg)) None)) t
  | Payload (SAttached _ _) =>
    set_main MWait (set_stdin ICheck (set_resizer ZSelect (set_receiver VRecv (record Attached t))))
  | _ => set_main (MCancel (fail_with ErrFirstFrameNotAttached)) t
  end.

Definition main_step (b : branch) (t : St) : option St :=
  match main t with
  | MEnqueue =>
    res ← enqueue b (mk_sendRequest (attachFrame (Attach c)) true) t;
    Some match res with
         | Err e => set_main (MCancel (fail_with e)) t
         | Ok t => set_main MAck t
         end
  | MAck =>
    match b with
    | OnDone => e ← done t; Some (set_main (MCancel (fail_with e)) t)
    | OnOther =>
      err ← ack t;
      Some match err with
           | Some e => set_main (MCancel (fail_with e)) (set_ack None t)
           | None => set_main MFirst (set_first FRecv (set_ack None t))
           end
    end
  | MFirst =>
    match b with
    | OnDone => e ← done t; Some (set_main (MCancel (fail_with e)) (closeSend t))
    | OnOther =>
      match first t with
      | FSent (Ok f) => Some (set_main (MStarted f) (set_first FTaken t))
      | FSent (Err e) => Some (set_main (MCancel (fail_with e)) (set_first FTaken t))
      | _ => None
      end
    end
  | MStarted f => Some (started f t)
  | MCancel r => Some (set_main (MCloseStdin r) (cancel t))
  | MCloseStdin r => Some (set_main (MGroup r) (closeStdin t))
  | MGroup r => if group_done t then Some (set_main (MReturned r) t) else None
  | MWait =>
    if group_done t then Some (set_main (MReturned (buildExitResult (result t) (group_err t))) t) else None
  | MReturned _ => None
  end.

(** [sendLoop], but for the answer of [Send]. *)
Definition sender_step (b : branch) (t : St) : option St :=
  match sender t with
  | SSelect =>
    match b with
    | OnDone => _ ← done t; Some (set_sender (SClose None) t)
    | OnOther => match outbound t with [] => None | r :: rest => Some (set_sender (SSending r) (set_outbound rest t)) end
    end
  | SClose err => Some (set_sender (SCancel err) (closeSend t))
  | SCancel err => Some (set_sender (SReturn err) (cancel t))
  | SReturn err => Some (set_sender SDone (group_return err t))
  | SSending _ | SDone => None
  end.

(** [Send] has answered. *)
Definition send_returns (err : option error) (t : St) : option St :=
  match sender t with
  | SSending r =>
    let t := record (Sent (req_frame r) err) t in
    let t := if wants_ack r then set_ack (Some err) t else t in
    Some (set_sender match err with Some e => SClose (Some e) | None => SSelect end t)
  | _ => None
  end.

(** The end of an iteration of [stdinPump]. *)
Definition stdin_after (readErr : option error) : stdin_pc :=
  match readErr with Some e => IReturn (normalizeReadErr e) | None => ICheck end.

Definition stdin_step (b : branch) (t : St) : option St :=
  match stdin t with
  | ICheck => Some (set_stdin match done t with Some _ => IReturn None | None => IRead end t)
  | IForward chunk readErr =>
    match chunk with
    | [] => Some (set_stdin (stdin_after readErr) t)
    | _ =>
      res ← enqueue b (mk_sendRequest (CStdin chunk) false) t;
      Some match res with
           | Err e => set_stdin (IReturn (Some e)) t
           | Ok t => set_stdin (stdin_after readErr) t
           end
    end
  | IReturn err => Some (set_stdin IDone (group_return err t))
  | IIdle | IRead | IDone => None
  end.

(** [Read] of the [bufio.Reader] has answered with a chunk, an error, or both; a
    chunk is what it hands over.  Its buffer has at least 16 bytes: for a
    [FrameMax] below that it may have taken up to 16 bytes of the terminal which
    it hands over in later chunks; from 16 on it reads straight into the chunk. *)
Definition stdin_returns (chunk : bytes) (readErr : option error) (t : St) : option St :=
  match stdin t with
  | IRead =>
    if decide (Z.of_nat (length chunk) ≤ FrameMax c)%Z
    then Some (set_stdin (IForward chunk readErr) (set_typed (typed t ++ [chunk]) t)) else None
  | _ => None
  end.

Definition resize_step (b : branch) (t : St) : option St :=
  match resizer t with
  | ZSelect =>
    match b with
    | OnDone => _ ← done t; Some (set_resizer (ZReturn None) t)
    | OnOther => None
    end
  | ZForward f =>
    res ← enqueue b (mk_sendRequest f false) t;
    Some match res with
         | Err e => set_resizer (ZReturn (Some e)) t
         | Ok t => set_resizer ZSelect t
         end
  | ZReturn err => Some (set_resizer ZDone (group_return err t))
  | ZIdle | ZDone => None
  end.

(** The channel of sizes has a size, or is closed. *)
Definition resize_returns (ws : option WindowSize) (t : St) : option St :=
  match resizer t with
  | ZSelect =>
    if hasResizes c
    then Some (set_resizer match ws with Some ws => ZForward (CResize (toProtoSize ws)) | None => ZReturn None end t)
    else None
  | _ => None
  end.

(** [Ok true] ends the loop.  [Stdout.Write] answers [werr]. *)
Definition handleServerFrame (f : frame) (werr : option error) (t : St) : St * Prelude.result error bool :=
  match f with
  | Payload (SStdout payload) =>
    (record (Output payload werr) t, match werr with Some e => Err e | None => Ok false end)
  | Payload (SExited code signal) =>
    (set_result (mk_ExitResult code signal (ServerError (result t)) (ResErr (result t))) t, Ok true)
  | Payload (SError kind msg) =>
    (set_result (mk_ExitResult (Code (result t)) (Signal (result t)) (Some (kind, msg)) (ResErr (result t))) t, Ok true)
  | _ => (t, Err (ErrUnexpectedFrame f))
  end.

Definition recv_returns (answer : Prelude.result error frame) (werr : option error) (t : St) : option St :=
  match receiver t with
  | VRecv =>
    Some match answer with
         | Err e => set_receiver (VClose (Some (if decide (e = EOF) then ErrStreamClosedUnexpectedly else e))) t
         | Ok f =>
           let '(t, res) := handleServerFrame f werr (set_received (received t ++ [f]) t) in
           set_receiver match res with Err e => VClose (Some e) | Ok true => VClose None | Ok false => VCheck end t
         end
  | _ => None
  end.

Definition recv_step (t : St) : option St :=
  match receiver t with
  | VCheck => Some (set_receiver match done t with Some _ => VClose None | None => VRecv end t)
  | VClose err => Some (set_receiver (VCancel err) (closeStdin t))
  | VCancel err => Some (set_receiver (VReturn err) (cancel t))
  | VReturn err => Some (set_receiver VDone (group_return err t))
  | VIdle | VRecv | VDone => None
  end.

Inductive label : Type :=
  | LMain (b : branch)
  | LSender (b : branch)
  | LStdin (b : branch)
  | LResizer (b : branch)
  | LReceiver
  | LUnblock                                                   (* a read of the closed terminal returns *)
  | LSend (err : option error)                                 (* [Send] returns *)
  | LFirst (answer : Prelude.result error frame)               (* the first [Recv] returns *)
  | LRecv (answer : Prelude.result error frame) (werr : option error)  (* [Recv] returns, and [Stdout.Write] *)
  | LRead (chunk : bytes) (readErr : option error)             (* a read of the terminal returns *)
  | LResize (ws : option WindowSize)                           (* the channel of sizes *)
  | LInterrupt (e : error).                                    (* the caller's context is done *)

Definition environment (l : label) : bool :=
  match l with LMain _ | LSender _ | LStdin _ | LResizer _ | LReceiver | LUnblock => false | _ => true end.

Definition exec (l : label) (t : St) : option St :=
  match l with
  | LMain b => main_step b t
  | LSender b => sender_step b t
  | LStdin b => stdin_step b t
  | LResizer b => resize_step b t
  | LReceiver => recv_step t
  | LUnblock => if stdin_closed t then stdin_returns [] (Some ErrClosedPipe) t else None
  | LSend err => send_returns err t
  | LFirst answer =>
    match first t with
    | FRecv =>
      let t := set_first (FSent answer) t in
      Some match answer with Ok f => set_received (received t ++ [f]) t | Err _ => t end
    | _ => None
    end
  | LRecv answer werr => recv_returns answer werr t
  | LRead chunk readErr => stdin_returns chunk readErr t
  | LResize ws => resize_returns ws t
  | LInterrupt e => match e with Canceled | DeadlineExceeded => Some (set_interrupted true (cancel_with e t)) | _ => None end
  end.

(** The state once [Run] has started the goroutine that sends. *)
Definition start : St :=
  if hasStream c
  then mk_St MEnqueue SSelect FIdle IIdle ZIdle VIdle None false None [] None false no_result [] [] []
  else mk_St (MReturned (fail_with ErrNilStream)) SDone FIdle IIdle ZIdle VIdle None false None [] None false no_result [] [] [].

Definition step (t t' : St) : Prop := ∃ l, exec l t = Some t'.
Definition reachable_state : St → Prop := reachable (eq start) step.
End client.

(** ** Case analysis on the steps *)

Lemma cancel_eq e t : ∃ d, d ≠ None ∧ cancel_with e t = set_done d t.
Proof. unfold cancel_with. destruct (done t) as [d|] eqn:E; [exists (Some d)|by exists (Some e)]. rewrite <-E at 2. by destruct t. Qed.

Lemma group_eq err t : ∃ g d,
  (done t ≠ None → d ≠ None) ∧ (group_err t ≠ None ∨ err ≠ None → g ≠ None) ∧ (err = None → d = done t) ∧
  group_return err t = set_group_err g (set_done d t).
Proof.
  unfold group_return, cancel, cancel_with. destruct err as [e|], (group_err t) as [g|] eqn:Eg.
  2: { cbn. destruct (done t) as [d|] eqn:E; [|by exists (Some e), (Some Canceled)]. exists (Some e), (Some d). split_and!; [done..|].
       rewrite <-E. by destruct t. }
  all: exists (group_err t), (done t); rewrite Eg; split_and!; [done|naive_solver|done|rewrite <-Eg; by destruct t].
Qed.

(** Case analysis on a step. *)
Ltac step_cases H :=
  cbn [exec] in H;
  unfold main_step, sender_step, stdin_step, resize_step, recv_step, send_returns, stdin_returns, resize_returns, recv_returns,
    enqueue, started, handleServerFrame in H;
  repeat (cbn in H; try discriminate H;
    match type of H with
    | context [match ?x with _ => _ end] =>
      lazymatch x with context [match _ with _ => _ end] => fail | _ => destruct x eqn:? end
    | context [fmap _ (done ?t)] => destruct (done t) eqn:?
    | context [mbind _ (done ?t)] => destruct (done t) eqn:?
    | context [mbind _ (ack ?t)] => destruct (ack t) eqn:?
    end);
  cbn in H; try discriminate H; injection H as <-;
  repeat match goal with
  | |- context [cancel ?t] => unfold cancel
  | |- context [cancel_with ?e ?t] => let d := fresh "d" in let Hd := fresh "Hd" in destruct (cancel_eq e t) as (d & Hd & ->)
  | |- context [group_return ?e ?t] =>
    let g := fresh "g" in let d := fresh "d" in let Hd := fresh "Hd" in let Hg := fresh "Hg" in let Hn := fresh "Hn" in destruct (group_eq e t) as (g & d & Hd & Hg & Hn & ->)
  end.
