(* ===== verification/PtyClientProtocol.v ===== *)
(** * What the client of a terminal promises: its protocol

    An automaton over what [Run] does that says which call may follow which, and
    the theorem that every run of the client, however its goroutines interleave
    and whatever the stream and the terminal answer, is one of its runs. *)
From S2P Require Import Prelude PtyService PtyClient.
From stdpp Require Import options.

#[export] Instance Resize_eq_dec : EqDecision Resize.
Proof. solve_decision. Defined.
#[export] Instance AttachReq_eq_dec : EqDecision AttachReq.
Proof. solve_decision. Defined.
#[export] Instance ClientFrame_eq_dec : EqDecision ClientFrame.
Proof. solve_decision. Defined.

(** The stream: the attach frame was sent, the server has accepted it, and
    nothing more may be sent. *)
Record phase : Type := mk_phase { opened : bool; attached : bool; closed : bool }.
Definition initial_phase : phase := mk_phase false false false.

Section protocol.
Context (c : Config).

(** The frames that carry the terminal. *)
Definition data_frame (f : ClientFrame) : bool :=
  match f with
  | CStdin payload => bool_decide (payload ≠ []) && bool_decide (Z.of_nat (length payload) ≤ FrameMax c)%Z
  | CResize _ => true
  | _ => false
  end.

Definition advance (p : phase) (a : action) : option phase :=
  match a with
  | Sent f err =>
    if closed p then None
    else if (if opened p then attached p && data_frame f else bool_decide (f = attachFrame (Attach c)))
    then Some (mk_phase true (attached p) (bool_decide (err ≠ None))) else None
  | SendClosed => Some (mk_phase (opened p) (attached p) true)
  | Attached => if opened p && negb (attached p) then Some (mk_phase true true (closed p)) else None
  | Output _ _ => if attached p then Some p else None
  | StdinClosed => Some p
  end.

Fixpoint advance_all (p : phase) (h : history) : option phase :=
  match h with
  | [] => Some p
  | a :: h => p ← advance p a; advance_all p h
  end.
Definition protocol (h : history) : option phase := advance_all initial_phase h.

Lemma client_advance_all_app p h h' : advance_all p (h ++ h') = p ← advance_all p h; advance_all p h'.
Proof. revert p. induction h as [|a h IH]; intros p; [done|]. simpl. destruct (advance p a); [apply IH|done]. Qed.

Lemma client_protocol_snoc h a : protocol (h ++ [a]) = p ← protocol h; advance p a.
Proof. unfold protocol. rewrite client_advance_all_app. destruct (advance_all _ h) as [p|]; [|done]. simpl. by destruct (advance p a). Qed.

(** After [CloseSend] the phase is closed. *)
Lemma advance_closed p a p' : advance p a = Some p' → closed p = true → closed p' = true.
Proof. destruct a; cbn; intros Ha Hc; rewrite ?Hc in Ha; repeat case_match; by simplify_eq. Qed.

Lemma closed_sent h p : protocol h = Some p → SendClosed ∈ h → closed p = true.
Proof.
  revert p. induction h as [|a h IH] using rev_ind; intros p; [by intros _ ?%elem_of_nil|].
  rewrite client_protocol_snoc. destruct (protocol h) as [p1|]; [|done]. cbn. rewrite elem_of_app, list_elem_of_singleton.
  intros Ha [Hin|<-]; [|by simplify_eq/=]. eapply advance_closed; [done|]. by apply IH.
Qed.

(** ** The invariant *)

Definition is_resize (f : ClientFrame) : bool := match f with CResize _ => true | _ => false end.

(** The requests that are to be sent. *)
Definition queue (t : St) : list sendRequest :=
  match sender t with SSending r => [r] | _ => [] end ++ outbound t.

Definition attach_request : sendRequest := mk_sendRequest (attachFrame (Attach c)) true.
Definition data_request (r : sendRequest) : Prop := wants_ack r = false ∧ data_frame (req_frame r) = true.

Definition pumps_idle (t : St) : Prop := stdin t = IIdle ∧ resizer t = ZIdle ∧ receiver t = VIdle.
Definition failing (t : St) : Prop :=
  match main t with MCancel _ | MCloseStdin _ | MGroup _ | MReturned _ => True | _ => False end.

Record inv (t : St) (p : phase) : Prop := {
  in_protocol : protocol (hist t) = Some p;
  in_attached : attached p = true →
    opened p = true ∧ Forall data_request (queue t) ∧ match main t with MWait | MReturned _ => True | _ => False end;
  in_chunk : match stdin t with IForward chunk _ => (Z.of_nat (length chunk) ≤ FrameMax c)%Z | _ => True end;
  in_resize : match resizer t with ZForward f => is_resize f = true | _ => True end;
  in_opening : attached p = false →
    pumps_idle t ∧ main t ≠ MWait ∧
    (queue t = [] ∨ queue t = [attach_request] ∧ opened p = false ∧ main t ≠ MEnqueue);
  in_main : match main t with MEnqueue => opened p = false | MFirst | MStarted _ => opened p = true | _ => True end;
  in_ack : ack t ≠ None → opened p = true;
  in_sending : ∀ r, sender t = SSending r → closed p = false;
  in_select : sender t = SSelect → closed p = true → failing t ∧ queue t = [] ∧ attached p = false;
}.

Ltac inv_fields := unfold pumps_idle, failing, queue in *; cbn in *.

Lemma inv_cancel e t p : inv t p → inv (cancel_with e t) p.
Proof. intros []. unfold cancel_with. destruct (done t); by split. Qed.

Lemma cancel_set_main x t : set_main x (cancel t) = cancel (set_main x t).
Proof. unfold cancel, cancel_with. cbn. by destruct (done t). Qed.

Lemma cancel_set_sender x t : set_sender x (cancel t) = cancel (set_sender x t).
Proof. unfold cancel, cancel_with. cbn. by destruct (done t). Qed.

Lemma group_set_sender x err t : set_sender x (group_return err t) = group_return err (set_sender x t).
Proof. unfold group_return, cancel, cancel_with. cbn. destruct err, (group_err t); try done. cbn. by destruct (done t). Qed.
Lemma cancel_set_stdin x t : set_stdin x (cancel t) = cancel (set_stdin x t).
Proof. unfold cancel, cancel_with. cbn. by destruct (done t). Qed.
Lemma group_set_stdin x err t : set_stdin x (group_return err t) = group_return err (set_stdin x t).
Proof. unfold group_return, cancel, cancel_with. cbn. destruct err, (group_err t); try done. cbn. by destruct (done t). Qed.
Lemma cancel_set_resizer x t : set_resizer x (cancel t) = cancel (set_resizer x t).
Proof. unfold cancel, cancel_with. cbn. by destruct (done t). Qed.
Lemma group_set_resizer x err t : set_resizer x (group_return err t) = group_return err (set_resizer x t).
Proof. unfold group_return, cancel, cancel_with. cbn. destruct err, (group_err t); try done. cbn. by destruct (done t). Qed.
Lemma cancel_set_receiver x t : set_receiver x (cancel t) = cancel (set_receiver x t).
Proof. unfold cancel, cancel_with. cbn. by destruct (done t). Qed.
Lemma group_set_receiver x err t : set_receiver x (group_return err t) = group_return err (set_receiver x t).
Proof. unfold group_return, cancel, cancel_with. cbn. destruct err, (group_err t); try done. cbn. by destruct (done t). Qed.

Lemma inv_group err t p : inv t p → inv (group_return err t) p.
Proof.
  intros Hi. unfold group_return. destruct err, (group_err t); try done. apply inv_cancel. destruct Hi. by split.
Qed.

(** Everything but what the goroutines are at. *)
Lemma inv_sender x t p :
  inv t p → (∀ r, sender t ≠ SSending r) → (∀ r, x ≠ SSending r) → x ≠ SSelect → inv (set_sender x t) p.
Proof.
  intros [I1 I2 I3 I4 I5 I6 I7 I8 I9] Hs Hx Hx'.
  assert (Hq : queue (set_sender x t) = queue t).
  { unfold queue. cbn. destruct (sender t) eqn:E; try (by destruct (Hs _ eq_refl)); destruct x; try done; by destruct (Hx _ eq_refl). }
  split; rewrite ?Hq; try done; cbn.
  - intros r Hr. by destruct (Hx r).
Qed.

Lemma inv_push r t p t' :
  inv t p → data_request r → attached p = true → sender t' = sender t → outbound t' = outbound t ++ [r] →
  hist t' = hist t → main t' = main t → ack t' = ack t →
  match stdin t' with IForward chunk _ => (Z.of_nat (length chunk) ≤ FrameMax c)%Z | _ => True end →
  match resizer t' with ZForward f => is_resize f = true | _ => True end → inv t' p.
Proof.
  intros [I1 I2 I3 I4 I5 I6 I7 I8 I9] Hr Hatt Hs Ho Hh Hm Ha Hi Hz.
  assert (Hq : queue t' = queue t ++ [r]) by (unfold queue; by rewrite Hs, Ho, app_assoc).
  split; unfold failing; rewrite ?Hq, ?Hm, ?Hh, ?Ha, ?Hs; try done; try congruence.
  - intros _. destruct (I2 Hatt) as (? & ? & ?). split_and!; [done| |done]. by apply Forall_app_2; [|constructor].
  - intros H1 H2. destruct (I9 H1 H2) as (_ & _ & ?). congruence.
Qed.

(** [main] moves on, before the server has accepted. *)
Lemma inv_main x t p :
  inv t p → attached p = false → (failing t → failing (set_main x t)) →
  match x with MWait | MEnqueue => False | MFirst | MStarted _ => opened p = true | _ => True end → inv (set_main x t) p.
Proof.
  intros [I1 I2 I3 I4 I5 I6 I7 I8 I9] Hatt Hf Hx.
  split; try done; cbn.
  - by rewrite Hatt.
  - intros _. destruct (I5 Hatt) as (? & ? & Hq). split_and!; [done|by intros ->|].
    destruct Hq as [?|(? & ? & ?)]; [by left|right]. split_and!; [done..|by intros ->].
  - by destruct x.
  - intros H1 H2. destruct (I9 H1 H2) as (? & ? & ?). split_and!; [by apply Hf|done..].
Qed.

Lemma inv_closeSend t p :
  inv t p → (∀ r, sender t ≠ SSending r) → (sender t = SSelect → failing t ∧ queue t = [] ∧ attached p = false) →
  inv (closeSend t) (mk_phase (opened p) (attached p) true).
Proof.
  intros [I1 I2 I3 I4 I5 I6 I7 I8 I9] Hs Hsel. split; try done; cbn.
  - by rewrite client_protocol_snoc, I1.
  - intros r Hr. by destruct (Hs r).
  - intros H1 _. by apply Hsel.
Qed.

Lemma inv_closeStdin t p : inv t p → inv (closeStdin t) p.
Proof. intros []. split; try done. cbn. by rewrite client_protocol_snoc, in_protocol0. Qed.

Lemma not_attached t p : inv t p → match main t with MWait | MReturned _ => False | _ => True end → attached p = false.
Proof. intros [_ I2 _ _ _ _ _ _ _] Hm. destruct (attached p); [|done]. destruct I2 as (_ & _ & ?); [done|]. by destruct (main t). Qed.

Lemma inv_enqueue_attach t p :
  inv t p → main t = MEnqueue → inv (set_main MAck (set_outbound (outbound t ++ [attach_request]) t)) p.
Proof.
  intros Hi Hm. assert (Hatt : attached p = false) by (apply (not_attached t); [done|by rewrite Hm]).
  destruct Hi as [I1 I2 I3 I4 I5 I6 I7 I8 I9]. rewrite Hm in *.
  destruct (I5 Hatt) as (Hidle & _ & [Hq|(_ & _ & ?)]); [|done].
  split; try done; cbn.
  - by rewrite Hatt.
  - intros _. split_and!; [done..|]. right. split_and!; [|done..]. unfold queue in *. cbn.
    apply app_eq_nil in Hq as [-> ->]. done.
  - intros H1 H2. destruct (I9 H1 H2) as (Hf & _). unfold failing in Hf. by rewrite Hm in Hf.
Qed.

Lemma started_inv f t p : inv t p → main t = MStarted f → ∃ p', inv (started f t) p'.
Proof.
  intros Hi Hm. assert (Hatt : attached p = false) by (apply (not_attached t); [done|by rewrite Hm]).
  assert (Hf : ∀ r, inv (set_main (MCancel r) t) p) by (intros r; by apply inv_main).
  unfold started. destruct f as [ [sid cwd| | | ]|]; eauto.
  destruct Hi as [I1 I2 I3 I4 I5 I6 I7 I8 I9]. rewrite Hm in *.
  destruct (I5 Hatt) as (Hidle & _ & [Hq|(_ & ? & _)]); [|congruence].
  exists (mk_phase true true (closed p)). split; try done; cbn.
  - rewrite client_protocol_snoc, I1. cbn. by rewrite I6, Hatt.
  - intros _. split_and!; [done| |done]. unfold queue in *. cbn. rewrite Hq. constructor.
  - intros H1 H2. destruct (I9 H1 H2) as (Hf' & _). unfold failing in Hf'. by rewrite Hm in Hf'.
Qed.

Lemma main_inv b t t' p : inv t p → main_step c b t = Some t' → ∃ p', inv t' p'.
Proof.
  intros Hi. unfold main_step. destruct (main t) eqn:Hm; intros Hstep.
  1-7: assert (Hatt : attached p = false) by (apply (not_attached t); [done|by rewrite Hm]).
  1-7: assert (Hf : ∀ res, inv (set_main (MCancel res) t) p) by (intros res; by apply inv_main).
  - destruct b; cbn in Hstep.
    + destruct (done t); [|done]. cbn in Hstep. simplify_eq. eauto.
    + destruct (decide _); [|done]. cbn in Hstep. simplify_eq. exists p. by apply inv_enqueue_attach.
  - destruct b; [destruct (done t)|destruct (ack t) as [ [e|]|] eqn:Ha]; try done; cbn in Hstep; simplify_eq; eauto.
    + exists p. apply inv_main; [|done..]. destruct Hi. split; try done; by intros [].
    + exists p. apply inv_main; [|done|unfold failing; cbn; by rewrite Hm|].
      * destruct Hi. split; try done; by intros [].
      * apply (in_ack _ _ Hi). by rewrite Ha.
  - destruct (in_opening _ _ Hi Hatt) as (_ & _ & Hq). pose proof (in_main _ _ Hi) as Hop. rewrite Hm in Hop.
    destruct Hq as [Hq|(_ & ? & _)]; [|congruence].
    destruct b; [destruct (done t); [|done]|destruct (first t) as [| |[f|e]|]; try done]; cbn in Hstep; simplify_eq.
    + eexists. apply (inv_closeSend (set_main _ t)); [apply Hf|..]; cbn.
      * intros r Hr. unfold queue in Hq. by rewrite Hr in Hq.
      * intros _. by split_and!.
    + exists p. apply (inv_main (MStarted f) (set_first FTaken t)); [|done|unfold failing; cbn; by rewrite Hm|done].
      destruct Hi. by split.
    + exists p. specialize (Hf (fail_with e)). destruct Hf. by split.
  - simplify_eq. by apply (started_inv f t p).
  - simplify_eq. exists p. rewrite cancel_set_main. apply inv_cancel, inv_main; [done..|unfold failing; by rewrite Hm|done].
  - simplify_eq. exists p. by apply (inv_closeStdin (set_main _ t)), inv_main.
  - destruct (group_done t); [|done]. simplify_eq. exists p. by apply inv_main.
  - destruct (group_done t); [|done]. simplify_eq. exists p.
    destruct Hi as [I1 I2 I3 I4 I5 I6 I7 I8 I9]. rewrite Hm in *. split; try done; cbn.
    + intros Hatt. by destruct (I5 Hatt) as (_ & ? & _).
    + intros H1 H2. destruct (I9 H1 H2) as (Hf & _). unfold failing in Hf. by rewrite Hm in Hf.
  - done.
Qed.

Lemma sender_inv b t t' p : inv t p → sender_step b t = Some t' → ∃ p', inv t' p'.
Proof.
  intros Hi. unfold sender_step. destruct (sender t) eqn:Hs; intros Hstep; [| |..|done]; simplify_eq.
  - destruct b.
    + destruct (done t); [|done]. cbn in Hstep. simplify_eq. exists p. apply inv_sender; try done. by rewrite Hs.
    + destruct (outbound t) as [|r rest] eqn:Ho; [done|]. simplify_eq. exists p.
      destruct Hi as [I1 I2 I3 I4 I5 I6 I7 I8 I9].
      assert (Hq : queue (set_sender (SSending r) (set_outbound rest t)) = queue t) by (unfold queue; cbn; by rewrite Hs, Ho).
      split; rewrite ?Hq; try done; cbn. intros _ _. apply not_true_is_false. intros Hc.
      destruct (I9 Hs Hc) as (_ & Hq' & _). unfold queue in Hq'. by rewrite Hs, Ho in Hq'.
  - eexists. apply (inv_closeSend (set_sender _ t)); [apply inv_sender|..]; try done. by rewrite Hs.
  - exists p. rewrite cancel_set_sender. apply inv_cancel, inv_sender; try done. by rewrite Hs.
  - exists p. rewrite group_set_sender. apply inv_group, inv_sender; try done. by rewrite Hs.
Qed.

Lemma send_returns_inv err t t' p : inv t p → send_returns err t = Some t' → ∃ p', inv t' p'.
Proof.
  intros [I1 I2 I3 I4 I5 I6 I7 I8 I9]. unfold send_returns. destruct (sender t) as [|r| | | |] eqn:Hs; try done. intros [= <-].
  exists (mk_phase true (attached p) (bool_decide (err ≠ None))).
  set (t' := set_sender _ _). assert (Hh : hist t' = hist t ++ [Sent (req_frame r) err]) by (unfold t'; cbn; by destruct (wants_ack r)).
  assert (Hm : main t' = main t) by (unfold t'; cbn; by destruct (wants_ack r)).
  assert (Hq : queue t = r :: queue t') by (unfold queue, t'; cbn; rewrite Hs; by destruct (wants_ack r), err).
  assert (Hpumps : stdin t' = stdin t ∧ resizer t' = resizer t ∧ receiver t' = receiver t) by (unfold t'; cbn; by destruct (wants_ack r)).
  destruct Hpumps as (Hi & Hz & Hv). rewrite Hq in *.
  assert (Hs' : sender t' = match err with Some e => SClose (Some e) | None => SSelect end) by done. clearbody t'.
  assert (Hcase : attached p = true ∨ attached p = false ∧ r = attach_request ∧ queue t' = [] ∧ opened p = false ∧ main t ≠ MEnqueue).
  { destruct (attached p); [by left|right]. destruct (I5 eq_refl) as (_ & _ & [?|(? & ? & ?)]); by simplify_eq. }
  split; rewrite ?Hm, ?Hi, ?Hz; try done; cbn.
  - rewrite Hh, client_protocol_snoc, I1. cbn. rewrite (I8 r eq_refl). destruct Hcase as [Hatt|(Hatt & -> & _ & -> & _)].
    + destruct (I2 Hatt) as (-> & [ [_ ->] _]%Forall_cons & _). by rewrite Hatt.
    + cbn. by rewrite bool_decide_true.
  - intros Hatt. destruct (I2 Hatt) as (_ & [_ ?]%Forall_cons & ?). done.
  - intros Hatt. destruct (I5 Hatt) as (Hidle & ? & _). unfold pumps_idle. rewrite Hi, Hz, Hv. split_and!; [apply Hidle..|done|].
    left. destruct Hcase as [?|(_ & _ & ? & _)]; [congruence|done].
  - destruct (main t) eqn:Hm'; try done. destruct Hcase as [Hatt|(_ & _ & _ & _ & ?)]; [|done].
    by destruct (I2 Hatt) as (_ & _ & ?).
  - rewrite Hs'. by destruct err.
  - rewrite Hs'. by destruct err.
Qed.

(** The pumps run only when the server has accepted. *)
Lemma running_attached t p : inv t p → ¬ pumps_idle t → attached p = true.
Proof. intros Hi Hr. destruct (attached p) eqn:E; [done|]. by destruct (in_opening _ _ Hi E). Qed.

Lemma inv_stdin x t p :
  inv t p → stdin t ≠ IIdle → match x with IForward chunk _ => (Z.of_nat (length chunk) ≤ FrameMax c)%Z | _ => True end →
  inv (set_stdin x t) p.
Proof.
  intros Hi Hr Hx. assert (Hatt : attached p = true) by (apply (running_attached t); [done|by intros [??]]).
  destruct Hi. split; try done. by rewrite Hatt.
Qed.

Lemma inv_resizer x t p :
  inv t p → resizer t ≠ ZIdle → match x with ZForward f => is_resize f = true | _ => True end → inv (set_resizer x t) p.
Proof.
  intros Hi Hr Hx. assert (Hatt : attached p = true) by (apply (running_attached t); [done|by intros (?&?&?)]).
  destruct Hi. split; try done. by rewrite Hatt.
Qed.

Lemma inv_receiver x t p : inv t p → receiver t ≠ VIdle → inv (set_receiver x t) p.
Proof.
  intros Hi Hr. assert (Hatt : attached p = true) by (apply (running_attached t); [done|by intros (?&?&?)]).
  destruct Hi. split; try done. by rewrite Hatt.
Qed.

Lemma stdin_inv b t t' p : inv t p → stdin_step b t = Some t' → ∃ p', inv t' p'.
Proof.
  intros Hi. unfold stdin_step. destruct (stdin t) as [| | |chunk readErr|err|] eqn:Hs; intros Hstep; try done.
  - simplify_eq. exists p. apply inv_stdin; [done|by rewrite Hs|]. by destruct (done t).
  - assert (Hafter : inv (set_stdin (stdin_after readErr) t) p) by (apply inv_stdin; [done|by rewrite Hs|by destruct readErr]).
    assert (Hatt : attached p = true) by (apply (running_attached t); [done|intros [??]; congruence]).
    destruct chunk as [|ch chunk]; [by simplify_eq; exists p|]. destruct b; cbn in Hstep.
    + destruct (done t); [|done]. cbn in Hstep. simplify_eq. exists p. apply inv_stdin; [done|by rewrite Hs|done].
    + destruct (decide _); [|done]. cbn in Hstep. simplify_eq. exists p. pose proof (in_chunk _ _ Hi) as Hc. rewrite Hs in Hc.
      apply (inv_push (mk_sendRequest (CStdin (ch :: chunk)) false) t); try done.
      * split; [done|]. cbn. by rewrite bool_decide_true.
      * cbn. by destruct readErr.
      * apply Hi.
  - simplify_eq. exists p. rewrite group_set_stdin. apply inv_group, inv_stdin; [done|by rewrite Hs|done].
Qed.

Lemma resize_inv b t t' p : inv t p → resize_step b t = Some t' → ∃ p', inv t' p'.
Proof.
  intros Hi. unfold resize_step. destruct (resizer t) as [| |f|err|] eqn:Hz; intros Hstep; try done.
  - destruct b; [|done]. destruct (done t); [|done]. cbn in Hstep. simplify_eq. exists p. apply inv_resizer; [done|by rewrite Hz|done].
  - assert (Hatt : attached p = true) by (apply (running_attached t); [done|intros (?&?&?); congruence]).
    destruct b; cbn in Hstep.
    + destruct (done t); [|done]. cbn in Hstep. simplify_eq. exists p. apply inv_resizer; [done|by rewrite Hz|done].
    + destruct (decide _); [|done]. cbn in Hstep. simplify_eq. exists p. pose proof (in_resize _ _ Hi) as Hc. rewrite Hz in Hc.
      apply (inv_push (mk_sendRequest f false) t); try done; [by destruct f|apply Hi].
  - simplify_eq. exists p. rewrite group_set_resizer. apply inv_group, inv_resizer; [done|by rewrite Hz|done].
Qed.

Lemma recv_inv t t' p : inv t p → recv_step t = Some t' → ∃ p', inv t' p'.
Proof.
  intros Hi. unfold recv_step. destruct (receiver t) eqn:Hv; intros Hstep; try done; simplify_eq; exists p.
  - apply inv_receiver; [done|by rewrite Hv].
  - apply (inv_closeStdin (set_receiver _ t)), inv_receiver; [done|by rewrite Hv].
  - rewrite cancel_set_receiver. apply inv_cancel, inv_receiver; [done|by rewrite Hv].
  - rewrite group_set_receiver. apply inv_group, inv_receiver; [done|by rewrite Hv].
Qed.

Lemma recv_returns_inv answer werr t t' p : inv t p → recv_returns answer werr t = Some t' → ∃ p', inv t' p'.
Proof.
  intros Hi. unfold recv_returns. destruct (receiver t) eqn:Hv; try done.
  assert (Hatt : attached p = true) by (apply (running_attached t); [done|intros (?&?&?); congruence]).
  intros Hstep. exists p. destruct answer as [f|e]; simplify_eq.
  - assert (Hx : ∀ x, inv (set_receiver x t) p) by (intros x; apply inv_receiver; [done|by rewrite Hv]).
    destruct f as [ [ |payload| | ]|]; cbn; simplify_eq; specialize (Hx (VClose None)); destruct Hx; split; try done; cbn;
      try (intros ?; congruence).
    rewrite client_protocol_snoc, (in_protocol _ _ Hi). cbn. by rewrite Hatt.
  - apply inv_receiver; [done|by rewrite Hv].
Qed.

Lemma stdin_returns_inv chunk readErr t t' p : inv t p → stdin_returns c chunk readErr t = Some t' → ∃ p', inv t' p'.
Proof.
  intros Hi. unfold stdin_returns. destruct (stdin t) eqn:Hs; try done. destruct (decide _); [|done]. intros [= <-].
  exists p. apply (inv_stdin (IForward chunk readErr)) in Hi; [destruct Hi; by split|by rewrite Hs|done].
Qed.

Lemma client_exec_inv l t t' p : inv t p → exec c l t = Some t' → ∃ p', inv t' p'.
Proof.
  intros Hi. destruct l as [b|b|b|b| | |err|answer|answer werr|chunk readErr|ws|e]; cbn [exec]; intros Hstep.
  - by eapply main_inv.
  - by eapply sender_inv.
  - by eapply stdin_inv.
  - by eapply resize_inv.
  - by eapply recv_inv.
  - destruct (stdin_closed t); [|done]. by eapply stdin_returns_inv.
  - by eapply send_returns_inv.
  - exists p. destruct (first t); [done| |done|done]. simplify_eq. destruct answer; destruct Hi; by split.
  - by eapply recv_returns_inv.
  - by eapply stdin_returns_inv.
  - exists p. unfold resize_returns in Hstep. destruct (resizer t) eqn:Hz; try done. destruct (hasResizes c); [|done]. simplify_eq.
    apply inv_resizer; [done|by rewrite Hz|by destruct ws].
  - exists p. destruct e; try done; simplify_eq; [apply (inv_cancel Canceled) in Hi|apply (inv_cancel DeadlineExceeded) in Hi]; destruct Hi; by split.
Qed.

Lemma start_inv : inv (start c) initial_phase.
Proof. unfold start. destruct (hasStream c); split; try done; cbn; intros; split_and!; try done; by left. Qed.

Lemma client_reachable_inv t : reachable_state c t → ∃ p, inv t p.
Proof.
  apply (reachable_invariant _ _ (λ t, ∃ p, inv t p)); [intros ? <-; by eexists; apply start_inv|].
  intros t1 t2 [p Hi] [l Hl]. by eapply client_exec_inv.
Qed.

(** ** What has been done when a goroutine has ended *)

Definition stdin_shut (t : St) : Prop := StdinClosed ∈ hist t ∧ stdin_closed t = true.
Definition over (t : St) : Prop := done t ≠ None.

(** The attach frame is acknowledged, or will be, or the sender has ended. *)
Definition ack_expected (t : St) : Prop :=
  ack t ≠ None ∨ outbound t = [attach_request] ∨ match sender t with SSelect => False | SSending r => r = attach_request | _ => True end.

Definition sender_tidy (t : St) : Prop :=
  match sender t with SCancel _ => SendClosed ∈ hist t | SReturn _ | SDone => SendClosed ∈ hist t ∧ over t | _ => True end.

Definition receiver_tidy (t : St) : Prop :=
  match receiver t with VCancel _ => stdin_shut t | VReturn _ | VDone => stdin_shut t ∧ over t | _ => True end.

Definition main_tidy (t : St) : Prop :=
  match main t with
  | MAck => ack_expected t
  | MFirst => match first t with FRecv | FSent _ => True | _ => False end
  | MCloseStdin _ => over t
  | MGroup _ => stdin_shut t ∧ over t
  | MWait => stdin t ≠ IIdle ∧ resizer t ≠ ZIdle ∧ receiver t ≠ VIdle
  | MReturned _ => group_done t = true ∧ stdin_shut t
  | _ => True
  end.

(** What a step leaves and only adds to. *)
Definition extends (t t' : St) : Prop :=
  (∀ a, a ∈ hist t → a ∈ hist t') ∧ (stdin_closed t = true → stdin_closed t' = true) ∧ (over t → over t').

(** The facts of another goroutine hold on. *)
Lemma extends_sender t t' x :
  extends t t' →
  match x with SCancel _ => SendClosed ∈ hist t | SReturn _ | SDone => SendClosed ∈ hist t ∧ over t | _ => True end →
  match x with SCancel _ => SendClosed ∈ hist t' | SReturn _ | SDone => SendClosed ∈ hist t' ∧ over t' | _ => True end.
Proof. intros (Hh & _ & Ho). destruct x; naive_solver. Qed.

Lemma extends_shut t t' : extends t t' → stdin_shut t → stdin_shut t'.
Proof. intros (Hh & Hs & _) []. split; auto. Qed.

Lemma extends_receiver t t' x :
  extends t t' →
  match x with VCancel _ => stdin_shut t | VReturn _ | VDone => stdin_shut t ∧ over t | _ => True end →
  match x with VCancel _ => stdin_shut t' | VReturn _ | VDone => stdin_shut t' ∧ over t' | _ => True end.
Proof. intros He. pose proof (extends_shut _ _ He). destruct He as (_ & _ & Ho). destruct x; naive_solver. Qed.

Lemma exec_extends l t t' : exec c l t = Some t' → extends t t'.
Proof.
  intros Hstep. destruct l; step_cases Hstep.
  all: split_and!; unfold over in *; cbn; auto; intros ? ?; rewrite elem_of_app; by left.
Qed.

Lemma exec_sender_tidy l t t' : sender_tidy t → exec c l t = Some t' → sender_tidy t'.
Proof.
  intros Ht Hstep. generalize (exec_extends _ _ _ Hstep). destruct l; step_cases Hstep; intros He.
  all: try (eapply (extends_sender t); [exact He|exact Ht]).
  all: unfold sender_tidy, over in *; cbn; rewrite ?Heqs in Ht; cbn in Ht; try done.
  - rewrite elem_of_app, list_elem_of_singleton. by right.
  - naive_solver.
Qed.

Lemma exec_receiver_tidy l t t' : receiver_tidy t → exec c l t = Some t' → receiver_tidy t'.
Proof.
  intros Ht Hstep. generalize (exec_extends _ _ _ Hstep). destruct l; step_cases Hstep; intros He.
  all: try (eapply (extends_receiver t); [exact He|exact Ht]).
  all: unfold receiver_tidy, over, stdin_shut in *; cbn; rewrite ?Heqr in Ht; cbn in Ht; try done.
  - split; [|done]. rewrite elem_of_app, list_elem_of_singleton. by right.
  - naive_solver.
Qed.

(** The steps of the others, for [main]. *)
Lemma main_tidy_others t t' :
  main_tidy t → extends t t' → main t' = main t →
  (main t = MAck → ack_expected t → ack_expected t') →
  (first t = first t' ∨ match first t' with FSent _ => True | _ => False end) →
  (stdin t ≠ IIdle → stdin t' ≠ IIdle) → (resizer t ≠ ZIdle → resizer t' ≠ ZIdle) → (receiver t ≠ VIdle → receiver t' ≠ VIdle) →
  (group_done t = true → group_done t' = true) → main_tidy t'.
Proof.
  unfold main_tidy. intros Ht He -> Hack Hf Hi Hz Hr Hg. pose proof (extends_shut _ _ He) as Hs. destruct He as (_ & _ & Ho).
  destruct (main t); try (destruct Ht as [H1 H2]); auto.
  - destruct Hf as [<-|]; [done|by destruct (first t')].
  - destruct H2. auto.
Qed.

Lemma sender_expected t s l :
  sender t = SSelect → outbound t = s :: l → ack_expected t → ack_expected (set_sender (SSending s) (set_outbound l t)).
Proof. unfold ack_expected. intros -> ->. cbn. intros [?|[ [= -> ->]|[] ] ]; [by left|by right; right]. Qed.

Lemma main_step_tidy b t t' p : inv t p → receiver_tidy t → main_tidy t → main_step c b t = Some t' → main_tidy t'.
Proof.
  intros Hi Hr Ht Hstep. generalize (exec_extends (LMain b) _ _ Hstep). step_cases Hstep; intros He.
  all: unfold main_tidy in *; rewrite ?Heqm in Ht; try exact I.
  - right. left. pose proof (in_opening _ _ Hi) as Hop. destruct Hop as (_ & _ & [Hq|(_ & _ & ?)]); [|unfold queue in Hq|done].
    + apply (not_attached t); [done|by rewrite Heqm].
    + cbn. by apply app_eq_nil in Hq as [_ ->].
  - done.
  - done.
  - split; [|by apply He]. split; [|done]. cbn. rewrite elem_of_app, list_elem_of_singleton. by right.
  - cbn. split; [done|]. apply (extends_shut t); [done|apply Ht].
  - destruct Ht as (_ & _ & Hv). cbn. split; [done|]. apply (extends_shut t); [done|].
    unfold receiver_tidy in Hr. unfold group_done in *. destruct (sender t), (stdin t), (resizer t), (receiver t); try done; by destruct Hr.
Qed.

Lemma exec_main_tidy l t t' p : inv t p → receiver_tidy t → main_tidy t → exec c l t = Some t' → main_tidy t'.
Proof.
  intros Hi Hr Ht. assert (Hidle : main t = MAck → pumps_idle t).
  { intros Hm. apply (in_opening _ _ Hi), (not_attached t); [done|by rewrite Hm]. }
  destruct l; [by eapply main_step_tidy|..]; intros Hstep; generalize (exec_extends _ _ _ Hstep); step_cases Hstep; intros He.
  all: eapply main_tidy_others; [exact Ht|exact He|reflexivity|..]; try done; try (by left); try (by right).
  all: try (intros Hm; destruct (Hidle Hm) as (? & ? & ?); congruence).
  all: try (intros _ Hack; first [by right; right | by left | by apply sender_expected]).
  all: try (by destruct readErr).
  all: unfold group_done; cbn; rewrite ?Heqs, ?Heqr; try (intros; by repeat case_match).
  unfold ack_expected. cbn. rewrite Heqs. intros _ [?|[?| ->] ]; [by left|by right; left|done].
Qed.

Lemma reachable_tidy t :
  hasStream c = true → reachable_state c t → ∃ p, inv t p ∧ sender_tidy t ∧ receiver_tidy t ∧ main_tidy t.
Proof.
  intros Hc. apply (reachable_invariant _ _ (λ t, ∃ p, inv t p ∧ sender_tidy t ∧ receiver_tidy t ∧ main_tidy t)).
  - intros ? <-. exists initial_phase. split; [apply start_inv|]. unfold start. by rewrite Hc.
  - intros t1 t2 (p & Hi & Hs & Hr & Hm) [l Hl]. destruct (client_exec_inv _ _ _ _ Hi Hl) as [p' Hi']. exists p'.
    split_and!; [done|by apply (exec_sender_tidy l t1)|by apply (exec_receiver_tidy l t1)|by apply (exec_main_tidy l t1 t2 p)].
Qed.

(** C11. The client follows its protocol.  However its goroutines interleave, and
    whatever the stream and the terminal answer: the first frame it sends is
    the attach frame of its configuration, and it is sent once; the frames of
    the terminal, which are sizes or input that is not empty and within the
    limit, follow only when the server has accepted; nothing is sent after a
    send has failed or the stream was closed for sending; and output is written
    only for a session the server has accepted.  When [Run] returns, the stream
    was closed for sending, the terminal's reader was closed, and every
    goroutine of the group has ended. *)
Theorem client_protocol (t : St) :
  hasStream c = true → reachable_state c t →
  ∃ p, protocol (hist t) = Some p ∧
    ∀ r, main t = MReturned r → closed p = true ∧ StdinClosed ∈ hist t ∧ group_done t = true.
Proof.
  intros Hc Hr. destruct (reachable_tidy t Hc Hr) as (p & Hi & Hs & _ & Hm). exists p. split; [apply Hi|].
  intros r Hret. unfold main_tidy in Hm. rewrite Hret in Hm. destruct Hm as (Hg & Hshut). split_and!; [|apply Hshut|done].
  unfold sender_tidy, group_done in *. destruct (sender t); try done. apply (closed_sent (hist t)), Hs. apply Hi.
Qed.

(** No goroutine of the client can go on by itself. *)
Definition all_wait (t : St) : Prop := ∀ l, environment l = false → exec c l t = None.

Lemma waiting_receiver t : all_wait t → receiver t = VRecv ∨ receiver t = VIdle ∨ receiver t = VDone.
Proof.
  intros Hw. specialize (Hw LReceiver eq_refl). cbn in Hw. unfold recv_step in Hw. destruct (receiver t); auto; done.
Qed.

Lemma waiting_sender t : all_wait t → (∃ r, sender t = SSending r) ∨ sender t = SSelect ∨ sender t = SDone.
Proof.
  intros Hw. specialize (Hw (LSender OnOther) eq_refl). cbn in Hw. unfold sender_step in Hw. destruct (sender t); eauto; done.
Qed.

(** When the context is done, what waits is over. *)
Lemma waiting_over t : all_wait t → over t → sender t = SSelect ∨ sender t = SDone → sender t = SDone.
Proof.
  intros Hw Ho [Hs|]; [|done]. specialize (Hw (LSender OnDone) eq_refl). cbn in Hw. unfold sender_step in Hw. rewrite Hs in Hw.
  unfold over in Ho. by destruct (done t).
Qed.

Lemma waiting_stdin t : all_wait t → (0 < FrameMax c)%Z → over t → stdin_closed t = true → stdin t ≠ IIdle → stdin t = IDone.
Proof.
  intros Hw HF Ho Hcl Hn. pose proof (Hw (LStdin OnDone) eq_refl) as H1. pose proof (Hw LUnblock eq_refl) as H2.
  cbn in H1, H2. unfold stdin_step in H1. unfold stdin_returns in H2. rewrite Hcl in H2. unfold over in Ho.
  destruct (stdin t) as [| | |chunk e|e|]; try done.
  - rewrite decide_True in H2; [done|]. cbn. lia.
  - destruct chunk; [done|]. cbn in H1. by destruct (done t).
Qed.

Lemma waiting_resizer t : all_wait t → over t → resizer t ≠ ZIdle → resizer t = ZDone.
Proof.
  intros Hw Ho Hn. pose proof (Hw (LResizer OnDone) eq_refl) as H1. cbn in H1. unfold resize_step, enqueue in H1. unfold over in Ho.
  destruct (resizer t) as [| |f|e|]; try done; by destruct (done t).
Qed.

Lemma waiting_ack t : all_wait t → sender_tidy t → sender t = SSelect ∨ sender t = SDone → main t = MAck → main_tidy t → False.
Proof.
  intros Hw Hs Hsend Hmain Hm. unfold main_tidy in Hm. rewrite Hmain in Hm.
  pose proof (Hw (LMain OnOther) eq_refl) as H1. pose proof (Hw (LMain OnDone) eq_refl) as H2. pose proof (Hw (LSender OnOther) eq_refl) as H3.
  cbn in H1, H2, H3. unfold main_step, sender_step in *. rewrite Hmain in *. unfold sender_tidy, over in Hs.
  destruct Hm as [Ha|[Ho|Hx] ].
  - by destruct (ack t) as [ []|].
  - rewrite Ho in H3. destruct Hsend as [E|E]; rewrite E in *; [done|]. destruct Hs as [_ Hd]. by destruct (done t).
  - destruct Hsend as [E|E]; rewrite E in *; [done|]. destruct Hs as [_ Hd]. by destruct (done t).
Qed.

(** The client waits for nothing but the stream.  While [Run] has not returned
    and no goroutine of it can go on, a send is under way, or [Run] waits for
    the first frame, or the loop that receives waits for a frame: neither the
    terminal nor the channel of sizes can hold the client up, and when the
    session is over and no send is under way, [Run] returns. *)
Theorem client_progress (t : St) :
  hasStream c = true → (0 < FrameMax c)%Z → reachable_state c t → all_wait t →
  (∃ r, main t = MReturned r) ∨ (∃ r, sender t = SSending r) ∨ (main t = MFirst ∧ first t = FRecv) ∨ receiver t = VRecv.
Proof.
  intros Hc HF Hr Hw. destruct (reachable_tidy t Hc Hr) as (p & Hi & Hs & Hv & Hm).
  destruct (waiting_receiver t Hw) as [?|Hrec]; [by right; right; right|].
  destruct (waiting_sender t Hw) as [?|Hsend]; [by right; left|].
  destruct (main t) eqn:Hmain; try (specialize (Hw (LMain OnOther) eq_refl); cbn in Hw; unfold main_step in Hw; rewrite Hmain in Hw; done).
  - specialize (Hw (LMain OnOther) eq_refl). cbn in Hw. unfold main_step in Hw. rewrite Hmain in Hw. cbn in Hw.
    assert (Hatt : attached p = false) by (apply (not_attached t); [done|by rewrite Hmain]).
    destruct (in_opening _ _ Hi Hatt) as (_ & _ & [Hq|(_ & _ & ?)]); [|done].
    apply app_eq_nil in Hq as [_ Hq]. rewrite Hq in Hw. by rewrite decide_True in Hw by (unfold outboundSize; cbn; lia).
  - exfalso. by apply (waiting_ack t Hw Hs Hsend).
  - unfold main_tidy in Hm. rewrite Hmain in Hm. destruct (first t) eqn:Hf; try done; [by right; right; left|].
    specialize (Hw (LMain OnOther) eq_refl). cbn in Hw. unfold main_step in Hw. rewrite Hmain, Hf in Hw. by destruct answer.
  - unfold main_tidy in Hm. rewrite Hmain in Hm. destruct Hm as [_ Hover].
    assert (Hidle : pumps_idle t) by (apply (in_opening _ _ Hi), (not_attached t); [done|by rewrite Hmain]).
    destruct Hidle as (Hi1 & Hi2 & Hi3). specialize (Hw (LMain OnOther) eq_refl) as Hw'. cbn in Hw'. unfold main_step, group_done in Hw'.
    rewrite Hmain, (waiting_over t Hw Hover Hsend), Hi1, Hi2, Hi3 in Hw'. done.
  - unfold main_tidy in Hm. rewrite Hmain in Hm. destruct Hm as (Hni & Hnz & Hnv).
    destruct Hrec as [?|Hrec]; [done|]. unfold receiver_tidy in Hv. rewrite Hrec in Hv. destruct Hv as [ [_ Hcl] Hover].
    specialize (Hw (LMain OnOther) eq_refl) as Hw'. cbn in Hw'. unfold main_step, group_done in Hw'.
    by rewrite Hmain, (waiting_over t Hw Hover Hsend), (waiting_stdin t Hw HF Hover Hcl Hni), (waiting_resizer t Hw Hover Hnz), Hrec in Hw'.
  - left. by exists r.
Qed.
End protocol.
