(* ===== verification/PtyClientFlow.v ===== *)
(** * What the client of a terminal does: input, output, result

    What is sent of the input and written of the output, how far the input is
    read ahead, and what [Run] returns. *)
From S2P Require Import Prelude PtyService PtyClient PtyClientProtocol.
From stdpp Require Import options.

(** The input that was sent, and the output that was written. *)
Definition payload_of (f : ClientFrame) : bytes := match f with CStdin payload => payload | _ => [] end.
Definition input_sent (h : history) : bytes :=
  concat (omap (λ a, match a with Sent f _ => Some (payload_of f) | _ => None end) h).
Definition output_written (h : history) : list bytes :=
  omap (λ a, match a with Output payload _ => Some payload | _ => None end) h.

Definition stdouts (fs : list frame) : list bytes :=
  omap (λ f, match f with Payload (SStdout payload) => Some payload | _ => None end) fs.

(** What the last frame says. *)
Definition outcome (fs : list frame) : ExitResult :=
  match last fs with
  | Some (Payload (SExited code signal)) => mk_ExitResult code signal None None
  | Some (Payload (SError kind msg)) => mk_ExitResult 0 0 (Some (kind, msg)) None
  | _ => no_result
  end.

Definition conclusive (fs : list frame) : Prop :=
  match last fs with Some (Payload (SExited _ _ | SError _ _)) => True | _ => False end.

Lemma input_sent_snoc h a :
  input_sent (h ++ [a]) = input_sent h ++ match a with Sent f _ => payload_of f | _ => [] end.
Proof. unfold input_sent. rewrite omap_app, concat_app. f_equal. destruct a; cbn; by rewrite ?app_nil_r. Qed.

Lemma output_written_snoc h a :
  output_written (h ++ [a]) = output_written h ++ match a with Output payload _ => [payload] | _ => [] end.
Proof. unfold output_written. rewrite omap_app. by destruct a. Qed.

Lemma stdouts_snoc fs f :
  stdouts (fs ++ [f]) = stdouts fs ++ match f with Payload (SStdout payload) => [payload] | _ => [] end.
Proof. unfold stdouts. rewrite omap_app. by destruct f as [ []|]. Qed.

Lemma outcome_snoc fs f : outcome (fs ++ [f]) = outcome [f].
Proof. unfold outcome. by rewrite last_snoc. Qed.

Section flow.
Context (c : Config).

(** ** The input *)

Definition queued (t : St) : bytes := concat ((λ r, payload_of (req_frame r)) <$> queue t).
Definition pending (t : St) : bytes := match stdin t with IForward chunk _ => chunk | _ => [] end.
Definition reading (t : St) : Prop := match stdin t with IReturn _ | IDone => False | _ => True end.

Definition flowing (t : St) : bytes := input_sent (hist t) ++ queued t ++ pending t.

(** What was read is sent, queued, or about to be queued, until a chunk is
    dropped because the context is done; then nothing more is read. *)
Definition input_flow (t : St) : Prop :=
  ∃ dropped, concat (typed t) = flowing t ++ dropped ∧ (reading t → dropped = []).

Definition queue_bounded (t : St) : Prop := length (outbound t) ≤ outboundSize.

Lemma exec_queue_bounded l t t' : queue_bounded t → exec c l t = Some t' → queue_bounded t'.
Proof.
  intros Ht Hstep. destruct l; step_cases Hstep; unfold queue_bounded in *; cbn; try done.
  all: rewrite ?length_app; cbn; try lia.
  unfold outboundSize in *. rewrite Heql in Ht. cbn in Ht. lia.
Qed.

Lemma queued_push r t t' :
  sender t' = sender t → outbound t' = outbound t ++ [r] → queued t' = queued t ++ payload_of (req_frame r).
Proof. intros Hs Ho. unfold queued, queue. rewrite Hs, Ho, app_assoc, fmap_app, concat_app. cbn. by rewrite app_nil_r. Qed.

Lemma input_flow_same t t' :
  input_flow t → flowing t' = flowing t → typed t' = typed t → (reading t' → reading t) → input_flow t'.
Proof. intros (dropped & Ht & Hd) Hf Hy Hr. exists dropped. rewrite Hf, Hy. auto. Qed.

#[local] Arguments input_sent : simpl never.
#[local] Arguments payload_of : simpl nomatch.

(** A read of the terminal. *)
Lemma read_flow t chunk readErr :
  input_flow t → stdin t = IRead → input_flow (set_stdin (IForward chunk readErr) (set_typed (typed t ++ [chunk]) t)).
Proof.
  intros (dropped & Ht & Hd) Hs. exists []. split; [|done]. unfold flowing, pending, reading, queued, queue in *. rewrite Hs in *. cbn.
  rewrite concat_app, Ht, Hd by done. cbn. by rewrite !app_nil_r, <-!app_assoc.
Qed.

Lemma exec_input_flow l t t' p : inv c t p → input_flow t → exec c l t = Some t' → input_flow t'.
Proof.
  intros Hi Ht Hstep. pose proof (in_resize _ _ _ Hi) as Hz.
  destruct l; step_cases Hstep; try exact Ht.
  all: try (apply (input_flow_same t); [exact Ht| | reflexivity| unfold reading; cbn; rewrite ?Heqs; auto; fail];
    unfold flowing, queued, pending, queue in *; cbn; rewrite ?input_sent_snoc, ?Heqs, ?Heql, ?fmap_app, ?concat_app; cbn;
    rewrite ?app_nil_r, <-?app_assoc; done).
  - assert (Hidle : stdin t = IIdle).
    { assert (Hatt : attached p = false) by (apply (not_attached c t); [done|by rewrite Heqm]). by destruct (in_opening _ _ _ Hi Hatt) as [ [? _] _]. }
    apply (input_flow_same t); [done| |done|by unfold reading; rewrite Hidle].
    unfold flowing, queued, pending, queue. cbn. by rewrite input_sent_snoc, Hidle, !app_nil_r.
  - apply (input_flow_same t); [done| |done|by unfold reading; rewrite Heqs].
    unfold flowing, queued, pending, queue. cbn. rewrite Heqs. by destruct readErr.
  - destruct Ht as (dropped & Ht & Hd). unfold input_flow, flowing, pending, reading in *. rewrite Heqs in *. exists (b0 :: l ++ dropped).
    split; [|done]. cbn. rewrite Ht. rewrite app_nil_r, <-!app_assoc. done.
  - apply (input_flow_same t); [done| |done|by unfold reading; rewrite Heqs].
    unfold flowing, pending. rewrite (queued_push (mk_sendRequest (CStdin (b0 :: l)) false) t) by done. cbn. rewrite Heqs.
    by destruct readErr; cbn; rewrite app_nil_r.
  - apply (input_flow_same t); [done| |done|by unfold reading].
    unfold flowing, pending. rewrite (queued_push (mk_sendRequest f false) t) by done. cbn.
    destruct f; try done. by rewrite app_nil_r.
  - by apply read_flow.
  - by apply read_flow.
Qed.

(** ** The output, and what the server has said *)

Definition heard_all (t : St) : Prop :=
  output_written (hist t) = stdouts (received t) ∧ result t = outcome (received t) ∧
  (∃ sid cwd rest, received t = Payload (SAttached sid cwd) :: rest) ∧
  match receiver t with VRecv | VCheck => outcome (received t) = no_result | _ => True end.

Definition heard (t : St) : Prop :=
  match receiver t with
  | VIdle =>
    output_written (hist t) = [] ∧ result t = no_result ∧
    match first t with
    | FIdle | FRecv | FSent (Err _) => received t = []
    | FSent (Ok f) => received t = [f]
    | FTaken => length (received t) ≤ 1
    end ∧
    match main t with MEnqueue | MAck => first t = FIdle | MStarted f => first t = FTaken ∧ received t = [f] | MWait => False | _ => True end
  | _ => heard_all t ∧ first t = FTaken ∧ match main t with MWait | MReturned _ => True | _ => False end
  end.

(** The result of a [Run] that fails before the session. *)
Definition refused (r : ExitResult) (t : St) : Prop :=
  ResErr r ≠ None ∨
  ∃ kind msg, r = mk_ExitResult 0 0 (Some (kind, msg)) None ∧ first t = FTaken ∧ received t = [Payload (SError kind msg)].

Definition concluded (t : St) : Prop :=
  match main t with
  | MCancel r | MCloseStdin r | MGroup r => refused r t
  | MReturned r =>
    refused r t ∧ receiver t = VIdle ∨
    receiver t = VDone ∧ sender t = SDone ∧ (stdin t = IDone ∧ resizer t = ZDone) ∧ r = buildExitResult (result t) (group_err t)
  | _ => True
  end.

#[local] Arguments output_written : simpl never.
#[local] Arguments stdouts : simpl never.

Lemma heard_same t t' :
  heard t → output_written (hist t') = output_written (hist t) → result t' = result t → received t' = received t →
  receiver t' = receiver t → first t' = first t → main t' = main t → heard t'.
Proof. unfold heard, heard_all. by intros Ht -> -> -> -> -> ->. Qed.

Lemma main_step_heard b t t' p : inv c t p → heard t → main_step c b t = Some t' → heard t'.
Proof.
  intros Hi Ht Hstep.
  assert (Hidle : match main t with MWait | MReturned _ => False | _ => True end → receiver t = VIdle).
  { intros Hm. apply (in_opening _ _ _ Hi). by apply (not_attached c t). }
  unfold heard, heard_all in *. step_cases Hstep.
  all: rewrite ?Heqm in *; cbn; rewrite ?output_written_snoc, ?app_nil_r; try (rewrite Hidle in * by done).
  all: try (destruct Ht as (Ho & Hr & Hf & Hm); rewrite ?Heqf in *; split_and!; try done; rewrite Hf; cbn; lia).
  - destruct Ht as (Ho & Hr & Hf & Hm). rewrite Hm in Hf. by split_and!.
  - destruct Ht as (Ho & Hr & Hf & Hx & Hm). rewrite Hm, Ho. split_and!; try done. by eexists _, _, [].
  - destruct (receiver t); [by destruct Ht as (_ & _ & _ & [])|exact Ht..].
Qed.

Lemma recv_step_heard t t' : heard t → recv_step t = Some t' → heard t'.
Proof.
  intros Ht Hstep. unfold heard, heard_all in *.
  destruct (receiver t) eqn:Hv; unfold recv_step in Hstep; rewrite Hv in Hstep; simplify_eq/=; destruct Ht as [(H1 & H2 & H3 & H4) [H5 H6] ].
  - destruct (done t); by split_and!.
  - rewrite output_written_snoc, app_nil_r. by split_and!.
  - destruct (cancel_eq Canceled t) as (d & _ & E). unfold cancel. rewrite E. by split_and!.
  - destruct (group_eq err t) as (g & d & _ & _ & _ & ->). by split_and!.
Qed.

Lemma recv_returns_heard answer werr t t' : heard t → recv_returns answer werr t = Some t' → heard t'.
Proof.
  intros Ht Hstep. unfold heard, heard_all in *. unfold recv_returns in Hstep. destruct (receiver t) eqn:Hv; try done.
  destruct Ht as [(H1 & H2 & (sid & cwd & rest & H3) & H4) [H5 H6] ]. destruct answer as [f|e].
  2: { simplify_eq/=. split_and!; try done. by eexists _, _, _. }
  assert (Hhead : ∃ sid cwd rest, received t ++ [f] = Payload (SAttached sid cwd) :: rest) by (rewrite H3; by eexists _, _, _).
  rewrite H4 in H2.
  destruct f as [ [ | | | ]|], werr; cbn in Hstep; simplify_eq; cbn; rewrite ?output_written_snoc, ?stdouts_snoc, ?outcome_snoc, ?H2, ?H1, ?app_nil_r; by split_and!.
Qed.

Lemma exec_heard l t t' p : inv c t p → heard t → exec c l t = Some t' → heard t'.
Proof.
  intros Hi Ht Hstep.
  destruct l; [by eapply main_step_heard| | | |by eapply recv_step_heard| | | |by eapply recv_returns_heard| | |]; step_cases Hstep.
  all: try (apply (heard_same t); [exact Ht|cbn; rewrite ?output_written_snoc, ?app_nil_r; reflexivity|reflexivity..]).
  all: unfold heard, heard_all in *; cbn; rewrite Heqf in Ht.
  - destruct (receiver t); [|by destruct Ht as (_ & ? & _)..]. destruct Ht as (H1 & H2 & -> & H4). split_and!; try done.
    by destruct (main t); destruct_and?.
  - destruct (receiver t); [|by destruct Ht as (_ & ? & _)..]. destruct Ht as (H1 & H2 & -> & H4). split_and!; try done.
    by destruct (main t); destruct_and?.
Qed.

(** What a goroutine other than [main] leaves. *)
Definition quiet (t t' : St) : Prop :=
  main t' = main t ∧
  (receiver t = VIdle → receiver t' = VIdle ∧ (first t = FTaken → first t' = FTaken ∧ received t' = received t)) ∧
  (receiver t = VDone → sender t = SDone → stdin t = IDone → resizer t = ZDone →
     receiver t' = VDone ∧ sender t' = SDone ∧ stdin t' = IDone ∧ resizer t' = ZDone ∧ result t' = result t ∧ group_err t' = group_err t).

Lemma exec_quiet l t t' : exec c l t = Some t' → match l with LMain _ => True | _ => quiet t t' end.
Proof.
  intros Hstep. destruct l; [done|..]; step_cases Hstep; unfold quiet; cbn; (split; [done|split; [intros Hv|intros Hv Hs Hin Hz] ]); try congruence; try (split; [congruence|intros Hf; congruence]).
  all: by split_and!.
Qed.

Lemma refused_quiet r t t' : refused r t → quiet t t' → receiver t = VIdle → refused r t'.
Proof.
  intros [Hr|(kind & msg & Hr & Hf & Hrec)] (_ & Hq & _) Hv; [by left|right]. destruct (Hq Hv) as [_ Hq']. destruct (Hq' Hf) as [H1 H2].
  exists kind, msg. by rewrite H2.
Qed.

Lemma concluded_quiet t t' p : inv c t p → concluded t → quiet t t' → concluded t'.
Proof.
  intros Hi Ht Hq. pose proof Hq as (Hm & Hq1 & Hq2). unfold concluded in *. rewrite Hm.
  assert (Hidle : match main t with MWait | MReturned _ => False | _ => True end → receiver t = VIdle).
  { intros Hx. apply (in_opening _ _ _ Hi). by apply (not_attached c t). }
  destruct (main t) as [| | | |r|r|r| |r] eqn:E; try done.
  1-3: by apply (refused_quiet r t), Hidle.
  destruct Ht as [[Hr Hv]|(Hv & Hs & [Hin Hz] & Hr)].
  - left. split; [by apply (refused_quiet r t)|by apply Hq1].
  - right. destruct (Hq2 Hv Hs Hin Hz) as (-> & -> & -> & -> & -> & ->). by split_and!.
Qed.

Lemma group_done_pcs t :
  group_done t = true → receiver t ≠ VIdle → stdin t ≠ IIdle → resizer t ≠ ZIdle →
  receiver t = VDone ∧ sender t = SDone ∧ stdin t = IDone ∧ resizer t = ZDone.
Proof. unfold group_done. by destruct (sender t), (stdin t), (resizer t), (receiver t). Qed.

Lemma exec_concluded l t t' p : inv c t p → heard t → main_tidy c t → concluded t → exec c l t = Some t' → concluded t'.
Proof.
  intros Hi Hh Hm Ht Hstep.
  destruct l; [|apply (concluded_quiet t t' p Hi Ht); by apply (exec_quiet _ _ _ Hstep)..].
  assert (Hv : match main t with MWait | MReturned _ => False | _ => True end → receiver t = VIdle).
  { intros Hx. apply (in_opening _ _ _ Hi). by apply (not_attached c t). }
  unfold concluded, heard, main_tidy in *. step_cases Hstep; cbn; try done; rewrite ?Heqm in *; try (by left).
  - right. exists kind, msg. rewrite Hv in Hh by done. destruct Hh as (_ & _ & _ & ? & ?). by subst.
  - left. split; [exact Ht|by apply Hv].
  - right. destruct Hm as (H1 & H2 & H3). destruct (group_done_pcs t) as (? & ? & ? & ?); [done..|]. by split_and!.
Qed.

(** ** Why the client stops *)

Definition sender_err (t : St) : option error := match sender t with SClose e | SCancel e | SReturn e => e | _ => None end.
Definition stdin_err (t : St) : option error := match stdin t with IReturn e => e | _ => None end.
Definition resizer_err (t : St) : option error := match resizer t with ZReturn e => e | _ => None end.
Definition receiver_err (t : St) : option error := match receiver t with VClose e | VCancel e | VReturn e => e | _ => None end.

(** A goroutine of the group has failed. *)
Definition failed (t : St) : Prop :=
  group_err t ≠ None ∨ sender_err t ≠ None ∨ stdin_err t ≠ None ∨ resizer_err t ≠ None ∨ receiver_err t ≠ None.

Definition stopped (t : St) : Prop := interrupted t = true ∨ failed t.

Ltac failed_cases :=
  unfold failed, sender_err, stdin_err, resizer_err, receiver_err in *; cbn;
  repeat match goal with E : ?f ?t = _, H : context [?f ?t] |- _ => rewrite E in H end; intuition congruence.

Lemma exec_failed l t t' p : inv c t p → failed t → exec c l t = Some t' → failed t'.
Proof.
  intros Hi Hf Hstep.
  assert (Hidle : match main t with MWait | MReturned _ => False | _ => True end → pumps_idle t).
  { intros Hx. apply (in_opening _ _ _ Hi). by apply (not_attached c t). }
  destruct l; step_cases Hstep; try exact Hf; clear Hi.
  1: destruct Hidle as (H1 & H2 & H3); [done|].
  all: try clear Hidle; try failed_cases.
Qed.

Lemma exec_stopped l t t' p : inv c t p → stopped t → exec c l t = Some t' → stopped t'.
Proof.
  intros Hi [Hs|Hf] Hstep; [left|right; by eapply exec_failed]. destruct l; step_cases Hstep; by cbn.
Qed.

(** [Run] has failed before the session. *)
Definition waived (t : St) : Prop :=
  match main t with MCancel _ | MCloseStdin _ | MGroup _ => True | MReturned _ => receiver t = VIdle | _ => False end.
Definition cancelled (t : St) : Prop := match receiver t with VReturn _ | VDone => True | _ => False end.

(** The context is done for a reason. *)
Definition reasons_done (t : St) : Prop := over t → waived t ∨ stopped t ∨ cancelled t.

(** The goroutine that sends ends without an error only when the context is done. *)
Definition reasons_sender (t : St) : Prop := match sender t with SClose None | SCancel None => over t | _ => True end.

(** The loop that receives ends for a reason. *)
Definition reasons_receiver (t : St) : Prop :=
  match receiver t with
  | VClose _ | VCancel _ | VReturn _ | VDone => conclusive (received t) ∨ stopped t
  | _ => True
  end.

Lemma exec_reasons_sender l t t' : reasons_sender t → exec c l t = Some t' → reasons_sender t'.
Proof.
  intros Hr Hstep. unfold reasons_sender, over in *. destruct l; step_cases Hstep; cbn; try exact Hr.
  all: repeat case_match; simplify_eq; try done; try congruence; auto.
Qed.

Lemma exec_waived l t t' p : inv c t p → waived t → exec c l t = Some t' → waived t'.
Proof.
  intros Hi Hw Hstep. assert (Hidle : match main t with MWait | MReturned _ => False | _ => True end → receiver t = VIdle).
  { intros Hx. apply (in_opening _ _ _ Hi). by apply (not_attached c t). }
  unfold waived in *. destruct l.
  2-12: pose proof (exec_quiet _ _ _ Hstep) as (Hm & Hq & _); rewrite Hm; destruct (main t); try done; by apply Hq.
  step_cases Hstep; cbn; rewrite ?Heqm in Hw; try done. by apply Hidle.
Qed.

Lemma exec_cancelled l t t' p : inv c t p → cancelled t → exec c l t = Some t' → cancelled t'.
Proof.
  intros Hi Hc Hstep. unfold cancelled in *. destruct l; step_cases Hstep; cbn; rewrite ?Heqr in Hc; try done.
  assert (Hatt : attached p = false) by (apply (not_attached c t); [done|by rewrite Heqm]).
  destruct (in_opening _ _ _ Hi Hatt) as [(_ & _ & Hv) _]. by rewrite Hv in Hc.
Qed.

Lemma exec_over l t t' p :
  inv c t p → reasons_sender t → exec c l t = Some t' → over t' → over t ∨ waived t' ∨ stopped t' ∨ cancelled t'.
Proof.
  intros Hi Hs Hstep. unfold reasons_sender, over, waived, cancelled in *. destruct l; step_cases Hstep; cbn; intros Ho; try (by left); auto.
  - destruct err; [|by left]. right. right. left. right. right. left. done.
  - destruct err; [right; right; left; right; left; cbn; auto|left; by rewrite <-Hn].
  - destruct err; [right; right; left; right; left; cbn; auto|left; by rewrite <-Hn].
  - destruct err; [right; right; left; right; left; cbn; auto|left; by rewrite <-Hn].
  - right. right. left. by left.
  - right. right. left. by left.
Qed.

Lemma exec_reasons_done l t t' p : inv c t p → reasons_sender t → reasons_done t → exec c l t = Some t' → reasons_done t'.
Proof.
  intros Hi Hs Hr Hstep Ho. destruct (exec_over _ _ _ _ Hi Hs Hstep Ho) as [Hov|?]; [|done].
  destruct (Hr Hov) as [?|[?|?] ].
  - left. by eapply exec_waived.
  - right. left. by eapply exec_stopped.
  - right. right. by eapply exec_cancelled.
Qed.

Lemma exec_reasons_receiver l t t' p :
  inv c t p → heard t → reasons_done t → reasons_receiver t → exec c l t = Some t' → reasons_receiver t'.
Proof.
  intros Hi Hh Hd Hr Hstep. assert (Hstop := λ H, exec_stopped _ _ _ _ Hi H Hstep).
  assert (Hkeep : conclusive (received t) ∨ stopped t → received t' = received t → conclusive (received t') ∨ stopped t').
  { intros [?|?] E; [left; by rewrite E|right; by apply Hstop]. }
  unfold reasons_receiver in *. destruct l; revert Hstop Hkeep; step_cases Hstep; intros Hstop Hkeep; cbn in *; rewrite ?Heqr in *; try done.
  all: try (destruct (receiver t); auto; fail).
  all: try (right; right; do 4 right; done).
  all: try (left; unfold conclusive; by rewrite last_snoc).
  - right. apply Hstop. destruct Hd as [Hw|[?|Hc] ]; [unfold over; congruence| |done|unfold cancelled in Hc; by rewrite Heqr in Hc].
    exfalso. unfold waived in Hw. destruct (main t) eqn:Hm; try done; try congruence.
    all: assert (Hatt : attached p = false) by (apply (not_attached c t); [done|by rewrite Hm]).
    all: destruct (in_opening _ _ _ Hi Hatt) as [(_ & _ & Hv) _]; congruence.
  - unfold heard in Hh. rewrite Heqf in Hh. destruct (receiver t); try done; by destruct Hh as (_ & ? & _).
Qed.

(** ** What every state satisfies *)

Record sound (t : St) : Prop := {
  so_inv : ∃ p, inv c t p;
  so_main : main_tidy c t;
  so_receiver : receiver_tidy t;
  so_bounded : queue_bounded t;
  so_input : input_flow t;
  so_heard : heard t;
  so_concluded : concluded t;
  so_sender : reasons_sender t;
  so_done : reasons_done t;
  so_reasons : reasons_receiver t;
}.

Lemma start_sound : hasStream c = true → sound (start c).
Proof.
  intros Hc. split; [eexists; apply start_inv|..]; unfold start; rewrite Hc; try done; [|by exists []|by intros []].
  unfold queue_bounded, outboundSize. cbn. lia.
Qed.

Lemma exec_sound l t t' : sound t → exec c l t = Some t' → sound t'.
Proof.
  intros [ [p H1] H2 H3 H4 H5 H6 H7 H8 H9 H10] Hstep. split.
  - by apply (client_exec_inv c l t t' p).
  - by apply (exec_main_tidy c l t t' p).
  - by apply (exec_receiver_tidy c l t).
  - by apply (exec_queue_bounded l t).
  - by apply (exec_input_flow l t t' p).
  - by apply (exec_heard l t t' p).
  - by apply (exec_concluded l t t' p).
  - by apply (exec_reasons_sender l t).
  - by apply (exec_reasons_done l t t' p).
  - by apply (exec_reasons_receiver l t t' p).
Qed.

Lemma reachable_sound t : hasStream c = true → reachable_state c t → sound t.
Proof.
  intros Hc. apply (reachable_invariant _ _ sound); [intros ? <-; by apply start_sound|].
  intros t1 t2 Hs [l Hl]. by eapply exec_sound.
Qed.

(** ** What the client does *)

Lemma heard_accepted t : heard t → 1 < length (received t) → receiver t ≠ VIdle.
Proof.
  unfold heard. intros Hh Hl Hv. rewrite Hv in Hh. destruct Hh as (_ & _ & Hf & _).
  destruct (first t) as [| |[f|e]|]; rewrite ?Hf in Hl; cbn in Hl; lia.
Qed.

Lemma heard_output t : heard t → output_written (hist t) `prefix_of` stdouts (received t).
Proof.
  unfold heard, heard_all. destruct (receiver t); [intros [-> _]; apply prefix_nil|intros [ [-> _] _]; reflexivity..].
Qed.

Lemma heard_all_output t : heard t → receiver t ≠ VIdle → output_written (hist t) = stdouts (received t).
Proof. unfold heard, heard_all. destruct (receiver t); [done|by intros [ [-> _] _]..]. Qed.

Lemma payload_bounded r : data_request c r → (Z.of_nat (length (payload_of (req_frame r))) ≤ Z.max 0 (FrameMax c))%Z.
Proof.
  intros [_ Hd]. destruct (req_frame r); cbn in *; try lia. apply andb_prop in Hd as [_ Hd%bool_decide_eq_true]. lia.
Qed.

Lemma queued_bounded t p :
  inv c t p → queue_bounded t → (Z.of_nat (length (queued t)) ≤ 17 * Z.max 0 (FrameMax c))%Z.
Proof.
  intros Hi Hb. assert (Hl : length (queue t) ≤ 17).
  { unfold queue, queue_bounded, outboundSize in *. rewrite length_app. destruct (sender t); cbn; lia. }
  assert (Hq : Forall (λ r, (Z.of_nat (length (payload_of (req_frame r))) ≤ Z.max 0 (FrameMax c))%Z) (queue t)).
  { destruct (attached p) eqn:Ha.
    - eapply Forall_impl; [apply (in_attached _ _ _ Hi Ha)|apply payload_bounded].
    - destruct (in_opening _ _ _ Hi Ha) as (_ & _ & [->|(-> & _)]); [constructor|]. constructor; [cbn; lia|constructor]. }
  unfold queued. clear -Hl Hq. assert (Hgen : (Z.of_nat (length (concat ((λ r, payload_of (req_frame r)) <$> queue t))) ≤
    Z.of_nat (length (queue t)) * Z.max 0 (FrameMax c))%Z); [|nia].
  clear Hl. induction Hq as [|r q Hr _ IH]; [cbn; lia|]. rewrite fmap_cons, concat_cons, length_app, length_cons. lia.
Qed.

(** C12. Input and output.  The input that is sent is, byte for byte, a prefix of
    what the reader of the terminal has handed over; while the terminal is read,
    what it has handed over and is not yet sent is at most eighteen chunks of the
    configured size, so that a server that does not take its input stops the
    reading; and what is
    written to the terminal are the payloads of the output frames received, in
    their order, all of them in a session the server has accepted. *)
Theorem client_flow (t : St) :
  hasStream c = true → reachable_state c t →
  input_sent (hist t) `prefix_of` concat (typed t) ∧
  (reading t → (Z.of_nat (length (concat (typed t))) ≤ Z.of_nat (length (input_sent (hist t))) + 18 * Z.max 0 (FrameMax c))%Z) ∧
  output_written (hist t) `prefix_of` stdouts (received t) ∧
  (receiver t ≠ VIdle → output_written (hist t) = stdouts (received t)).
Proof.
  intros Hc Hr. destruct (reachable_sound t Hc Hr) as [ [p Hi] _ _ Hb (dropped & Ht & Hd) Hh _ _ _ _]. unfold flowing in Ht. split_and!.
  - exists (queued t ++ pending t ++ dropped). by rewrite Ht, <-!app_assoc.
  - intros Hre. rewrite Ht, (Hd Hre), app_nil_r, !length_app. pose proof (queued_bounded t p Hi Hb).
    assert (Z.of_nat (length (pending t)) ≤ Z.max 0 (FrameMax c))%Z; [|lia].
    pose proof (in_chunk _ _ _ Hi) as Hch. unfold pending. destruct (stdin t); cbn; lia.
  - by apply heard_output.
  - by apply heard_all_output.
Qed.

Lemma buildExitResult_conclusive r e : r ≠ no_result → ResErr r = None → buildExitResult r e = r.
Proof.
  intros Hr He. unfold buildExitResult. destruct r as [code sig err res]. cbn in *. subst res.
  repeat case_bool_decide; try done. destruct err; [done|]. by subst.
Qed.

Lemma outcome_no_error fs : ResErr (outcome fs) = None.
Proof. unfold outcome. by destruct (last fs) as [ [ []|]|]. Qed.

Lemma buildExitResult_None r e : buildExitResult r e = no_result → r = no_result ∧ e = None.
Proof.
  unfold buildExitResult, no_result. destruct r as [code sig err res], e; cbn; repeat case_bool_decide; destruct err; cbn; intros; by simplify_eq.
Qed.

Lemma result_attached t r :
  sound t → main t = MReturned r → receiver t ≠ VIdle →
  receiver t = VDone ∧ ∃ e, r = buildExitResult (outcome (received t)) e.
Proof.
  intros [_ _ _ _ _ Hh Hcl _ _ _] Hm Hv. unfold concluded in Hcl. rewrite Hm in Hcl.
  destruct Hcl as [[_ ?]|(Hd & _ & _ & ->)]; [done|]. split; [done|]. unfold heard, heard_all in Hh. rewrite Hd in Hh.
  destruct Hh as [(_ & -> & _) _]. by eexists.
Qed.

Lemma result_conclusive t r :
  sound t → main t = MReturned r → receiver t ≠ VIdle → outcome (received t) ≠ no_result → r = outcome (received t).
Proof.
  intros Hs Hm Hv Ho. destruct (result_attached t r Hs Hm Hv) as (_ & e & ->).
  apply buildExitResult_conclusive; [done|apply outcome_no_error].
Qed.

(** What [Run] has returned, by what the server has reported. *)
Definition reported (t : St) (r : ExitResult) : Prop :=
  match received t with
  | Payload (SAttached _ _) :: _ => ResErr r ≠ None ∨ r = outcome (received t)
  | _ => ResErr r ≠ None ∨ ∃ kind msg, received t = [Payload (SError kind msg)] ∧ r = outcome (received t)
  end ∧
  (receiver t ≠ VIdle → outcome (received t) ≠ no_result → r = outcome (received t)) ∧
  (r = no_result → interrupted t = true ∨ last (received t) = Some (Payload (SExited 0 0))).

Lemma result_reported (t : St) (r : ExitResult) :
  hasStream c = true → reachable_state c t → main t = MReturned r → reported t r.
Proof.
  unfold reported. intros Hc Hr Hm. destruct (reachable_sound t Hc Hr) as [_ _ _ _ _ Hh Hcl _ _ Hre]. unfold concluded in Hcl. rewrite Hm in Hcl.
  unfold heard in Hh. destruct Hcl as [[Href Hv]|(Hv & Hs & [Hi Hz] & Hb)].
  - destruct Href as [He|(kind & msg & -> & Hf & Hrec)].
    + split_and!; [|done|by intros ->]. destruct (received t) as [|[ [] |] ]; by left.
    + rewrite Hrec. split_and!; [|done|done]. right. by exists kind, msg.
  - rewrite Hv in Hh. destruct Hh as [(_ & Hout & (sid & cwd & rest & Hrec) & _) _]. rewrite Hb, Hout. split_and!.
    + assert (Hx : ResErr (buildExitResult (outcome (received t)) (group_err t)) ≠ None ∨
        buildExitResult (outcome (received t)) (group_err t) = outcome (received t)); [|by rewrite Hrec in Hx |- *].
      destruct (decide (outcome (received t) = no_result)) as [E|E].
      * rewrite E. destruct (group_err t); [by left|by right].
      * right. apply buildExitResult_conclusive; [done|apply outcome_no_error].
    + intros _ Ho. apply buildExitResult_conclusive; [done|apply outcome_no_error].
    + intros [Ho He]%buildExitResult_None. unfold reasons_receiver in Hre. rewrite Hv in Hre.
      destruct Hre as [Hconc|[?|Hf] ]; [right|by left|].
      * unfold conclusive, outcome in *. destruct (last (received t)) as [ [ []|]|]; try done. by injection Ho as -> ->.
      * exfalso. unfold failed, sender_err, stdin_err, resizer_err, receiver_err in Hf. rewrite Hv, Hs, Hi, Hz, He in Hf. naive_solver.
Qed.
End flow.

(** ** Concrete runs *)

Definition run_client (c : Config) (ls : list label) : option St :=
  foldl (λ t l, t ≫= exec c l) (Some (start c)) ls.

Lemma run_client_reachable c ls t : run_client c ls = Some t → reachable_state c t.
Proof.
  unfold run_client. revert t. induction ls as [|l ls IH] using rev_ind; cbn [foldl].
  - intros t Ht. apply reachable_init. by injection Ht.
  - intros t. rewrite foldl_app. cbn [foldl]. destruct (foldl _ _ ls) as [t1|]; [|done]. intros Hl.
    eapply reachable_step; [by apply IH|by exists l].
Qed.

Module ClientExample.
Definition config : Config :=
  New (mk_Config true false (mk_AttachParams "" (mk_WindowSize 80 24 0 0) "xterm" "claude") 4).

Definition hello : bytes := ["104"; "105"]%byte.

(** The handshake. *)
Definition attach_run : list label :=
  [LMain OnOther; LSender OnOther; LSend None; LMain OnOther; LFirst (Ok (Payload (SAttached "u-pty-1" "")));
   LMain OnOther; LMain OnOther].

(** A goroutine that ends, and the end of the group. *)
Definition end_receiver : list label := [LReceiver; LReceiver; LReceiver].
Definition end_others : list label :=
  [LSender OnDone; LSender OnDone; LSender OnDone; LSender OnDone; LResizer OnDone; LResizer OnDone; LMain OnOther].

(** The user types, the program answers and ends. *)
Definition session_run : list label :=
  attach_run ++
  [LStdin OnOther; LRead hello None; LStdin OnOther; LSender OnOther; LSend None;
   LRecv (Ok (Payload (SStdout hello))) None; LReceiver; LRecv (Ok (Payload (SExited 0 0))) None] ++
  end_receiver ++ [LStdin OnOther; LStdin OnOther] ++ end_others.

(** The user types while the program ends: the key is dropped. *)
Definition late_key_run : list label :=
  attach_run ++
  [LStdin OnOther; LRead hello None; LRecv (Ok (Payload (SExited 0 0))) None] ++
  end_receiver ++ [LStdin OnDone; LStdin OnDone] ++ end_others.

(** The same, when the key is sent on the stream the service has ended. *)
Definition late_send_run : list label :=
  attach_run ++
  [LStdin OnOther; LRead hello None; LStdin OnOther; LSender OnOther; LSend (Some EOF);
   LSender OnOther; LSender OnOther; LSender OnOther;
   LRecv (Ok (Payload (SExited 0 0))) None] ++ end_receiver ++
  [LStdin OnOther; LStdin OnOther; LResizer OnDone; LResizer OnDone; LMain OnOther].

Example session_run_result : main <$> run_client config session_run = Some (MReturned no_result).
Proof. vm_compute. reflexivity. Qed.
End ClientExample.

Lemma session_state :
  ∃ t, run_client ClientExample.config ClientExample.session_run = Some t ∧ main t = MReturned no_result ∧ length (received t) = 3.
Proof.
  assert (Hrun : match run_client ClientExample.config ClientExample.session_run with
    | Some t => bool_decide (length (received t) = 3) && match main t with MReturned r => bool_decide (r = no_result) | _ => false end
    | None => false end = true) by (vm_compute; reflexivity).
  destruct (run_client _ _) as [t|]; [|done]. exists t. split; [done|]. apply andb_prop in Hrun as [H1%bool_decide_eq_true H2].
  destruct (main t); try done. apply bool_decide_eq_true in H2 as ->. done.
Qed.

(** The program has ended with the exit status zero, the client was told so and
    nobody has interrupted it, and it returns an error. *)
Definition exit_lost (c : Config) (e : error) : Prop :=
  ∃ t, reachable_state c t ∧ interrupted t = false ∧
    last (received t) = Some (Payload (SExited 0 0)) ∧ main t = MReturned (mk_ExitResult 0 0 None (Some e)).

Lemma client_exit_lost : exit_lost ClientExample.config Canceled ∧ exit_lost ClientExample.config EOF.
Proof.
  assert (Hrun : ∀ ls e, match run_client ClientExample.config ls with
      | Some t => negb (interrupted t) && bool_decide (last (received t) = Some (Payload (SExited 0 0))) &&
                  match main t with MReturned r => bool_decide (r = mk_ExitResult 0 0 None (Some e)) | _ => false end
      | None => false end = true → exit_lost ClientExample.config e).
  { intros ls e Hr. destruct (run_client ClientExample.config ls) as [t|] eqn:Ht; [|done]. exists t.
    apply andb_prop in Hr as [ [H1%negb_true_iff H2%bool_decide_eq_true]%andb_prop H3].
    split_and!; [by eapply run_client_reachable|done..|]. destruct (main t); try done. by apply bool_decide_eq_true in H3 as ->. }
  split; [apply (Hrun ClientExample.late_key_run)|apply (Hrun ClientExample.late_send_run)]; vm_compute; reflexivity.
Qed.

(** C13. The result.  When [Run] returns after the server has accepted: if the last
    frame is an error, or an exit status that is not zero, that is the result,
    whatever else has failed.  When it returns before, the result is the error
    that the server sent as its first frame, or has an error of the client.
    And a result without a failure means that the server has reported the exit
    status zero, or that the caller's context was done.  But the exit status zero
    can be lost: when the program has ended with it and the client was told so, it
    can still return the error that cancelled a key typed meanwhile, or that of
    sending the key on the stream that the service has ended. *)
Theorem client_result :
  (∀ c t r, hasStream c = true → reachable_state c t → main t = MReturned r →
     match received t with
     | Payload (SAttached _ _) :: _ => ResErr r ≠ None ∨ r = outcome (received t)
     | _ => ResErr r ≠ None ∨ ∃ kind msg, received t = [Payload (SError kind msg)] ∧ r = outcome (received t)
     end ∧
     (receiver t ≠ VIdle → outcome (received t) ≠ no_result → r = outcome (received t)) ∧
     (r = no_result → interrupted t = true ∨ last (received t) = Some (Payload (SExited 0 0)))) ∧
  exit_lost ClientExample.config Canceled ∧ exit_lost ClientExample.config EOF.
Proof. split; [intros c t r; apply result_reported|exact client_exit_lost]. Qed.

Lemma client_flow_witness :
  ∃ t, run_client ClientExample.config ClientExample.session_run = Some t ∧ input_sent (hist t) `prefix_of` concat (typed t).
Proof.
  destruct session_state as (t & Hrun & _ & _). exists t. split; [exact Hrun|].
  exact (proj1 (client_flow ClientExample.config t eq_refl (run_client_reachable _ _ _ Hrun))).
Defined.

Lemma client_result_witness :
  ∃ t, run_client ClientExample.config ClientExample.session_run = Some t ∧
    (interrupted t = true ∨ last (received t) = Some (Payload (SExited 0 0))).
Proof.
  destruct session_state as (t & Hrun & Hm & _). exists t. split; [exact Hrun|].
  exact (proj2 (proj2 (proj1 client_result ClientExample.config t no_result eq_refl (run_client_reachable _ _ _ Hrun) Hm)) eq_refl).
Defined.

Lemma client_protocol_witness :
  ∃ t, run_client ClientExample.config ClientExample.session_run = Some t ∧ StdinClosed ∈ hist t.
Proof.
  destruct session_state as (t & Hrun & Hm & _). exists t. split; [exact Hrun|].
  destruct (client_protocol ClientExample.config t eq_refl (run_client_reachable _ _ _ Hrun)) as (p & _ & Hp).
  exact (proj1 (proj2 (Hp _ Hm))).
Defined.

(** The client waits for the service once the session has started. *)
Lemma client_progress_witness :
  ∃ t, run_client ClientExample.config (ClientExample.attach_run ++ [LStdin OnOther]) = Some t ∧ receiver t = VRecv.
Proof.
  destruct (run_client ClientExample.config (ClientExample.attach_run ++ [LStdin OnOther])) as [t|] eqn:Hrun;
    [|exfalso; vm_compute in Hrun; discriminate Hrun].
  exists t. split; [reflexivity|]. pose proof (run_client_reachable _ _ _ Hrun) as Hr.
  assert (Ht : t = ltac:(let x := eval vm_compute in (run_client ClientExample.config (ClientExample.attach_run ++ [LStdin OnOther])) in
    match x with Some ?y => exact y end)) by (vm_compute in Hrun; injection Hrun as <-; reflexivity).
  assert (Hw : all_wait ClientExample.config t) by (rewrite Ht; intros [ []| []| []| []| | | | | | | | ] Hl; try discriminate Hl; reflexivity).
  destruct (client_progress ClientExample.config t eq_refl eq_refl Hr Hw) as [ [r Hm]|[ [r Hm]|[ [Hm _]|Hm] ] ];
    [rewrite Ht in Hm; discriminate Hm..|exact Hm].
Defined.
