(* ===== verification/PtyTerminal.v ===== *)
(** * A terminal session, end to end

    The service (PtyService) and the client (PtyClient) with a stream between
    them that keeps the order of the frames and invents none: what is typed
    reaches the program, what the program prints reaches the terminal, and the
    exit status of the program is that of the client. *)
From S2P Require Import Prelude PtyHost Auth PtyService PtyRegistry PtyProtocol PtyStreams.
From S2P Require PtyClient PtyClientProtocol PtyClientFlow.
From stdpp Require Import options.

(** The frames each side has sent. *)
Definition frames_down (h : PtyService.history) : list ServerFrame :=
  omap (λ a, match a with Sent f None => Some f | _ => None end) h.
Definition frames_up (h : PtyClient.history) : list ClientFrame :=
  omap (λ a, match a with PtyClient.Sent f _ => Some f | _ => None end) h.

Definition prints (fs : list ServerFrame) : list bytes :=
  omap (λ f, match f with SStdout payload => Some payload | _ => None end) fs.

(** The frames of a session: an error, or the acknowledgement, the output, and
    at most one last frame. *)
Definition is_final (f : ServerFrame) : bool := match f with SExited _ _ | SError _ _ => true | _ => false end.
Fixpoint session_tail (fs : list ServerFrame) : bool :=
  match fs with
  | [] => true
  | SStdout _ :: fs => session_tail fs
  | f :: fs => is_final f && match fs with [] => true | _ => false end
  end.
Definition session_frames (fs : list ServerFrame) : bool :=
  match fs with
  | [] | [SError _ _] => true
  | SAttached _ _ :: fs => session_tail fs
  | _ => false
  end.

Lemma session_tail_stdouts outs fs : session_tail fs = true → session_tail ((SStdout <$> outs) ++ fs) = true.
Proof. by induction outs. Qed.

Lemma session_tail_prefix fs gs : session_tail (fs ++ gs) = true → session_tail fs = true.
Proof. induction fs as [|f fs IH]; [done|]. destruct f; cbn; [done|exact IH|by destruct fs..]. Qed.

Lemma session_frames_prefix fs gs : fs `prefix_of` gs → session_frames gs = true → session_frames fs = true.
Proof.
  intros [k ->]. destruct fs as [|f fs]; [done|]. destruct f; cbn; try done; [apply session_tail_prefix|]. by destruct fs.
Qed.

(** Nothing follows a final frame. *)
Lemma session_tail_final fs f gs : session_tail (fs ++ f :: gs) = true → is_final f = true → gs = [].
Proof. induction fs as [|g fs IH]; cbn; [by destruct f, gs|]. destruct g; cbn; [done|exact IH|by destruct fs..]. Qed.

Lemma session_tail_prints fs : session_tail fs = true → ∀ f, last fs = Some f → is_final f = false → fs = SStdout <$> prints fs.
Proof.
  induction fs as [|g fs IH]; [done|]. intros Ht f Hl Hf. destruct g; cbn in Ht; try done; try (destruct fs; [|done]; by injection Hl as <-).
  cbn. destruct fs as [|g fs]; [done|]. f_equal. by apply (IH Ht f).
Qed.

Section terminal.
Context {R : Type} `{Registry R} `{Environment} `{MapRange, Unicode, System}.
Context (s : Config) (c : PtyClient.Config).

(** ** What the protocol says of the frames *)

#[local] Arguments protocol : simpl never.

Definition phase_frames (p : phase) (fs : list ServerFrame) : Prop :=
  match frame_phase p with
  | Opening => fs = []
  | Streaming => ∃ sid cwd outs, fs = SAttached sid cwd :: (SStdout <$> outs)
  | Ended => session_frames fs = true
  end.

Lemma phase_frames_valid p fs : phase_frames p fs → session_frames fs = true.
Proof.
  unfold phase_frames. destruct (frame_phase p); [by intros ->|intros (sid & cwd & outs & ->)|done].
  cbn. rewrite <-(app_nil_r (_ <$> _)). by apply session_tail_stdouts.
Qed.

Lemma frames_down_snoc h a :
  frames_down (h ++ [a]) = frames_down h ++ match a with Sent f None => [f] | _ => [] end.
Proof. unfold frames_down. rewrite omap_app. by destruct a as [| | | | |f []| | | | | |]. Qed.

Lemma advance_frames p a p' fs :
  phase_frames p fs → advance s p a = Some p' → phase_frames p' (fs ++ match a with Sent f None => [f] | _ => [] end).
Proof.
  intros Hf. pose proof (phase_frames_valid p fs Hf) as Hv. unfold phase_frames in *. unfold advance. destruct (released p); [done|].
  destruct a as [| | | | |f err| | | | | |]; try (rewrite app_nil_r; intros Ha;
    replace (frame_phase p') with (frame_phase p) by (repeat case_match; by simplify_eq/=); exact Hf).
  unfold advance_frame. destruct f, (frame_phase p); try done; repeat case_match; try done; intros [= <-]; cbn; rewrite ?app_nil_r; try done.
  - rewrite Hf. by exists session_id, cwd, [].
  - destruct Hf as (sid & cwd & outs & ->). exists sid, cwd, (outs ++ [payload]). by rewrite fmap_app.
  - destruct Hf as (sid & cwd & outs & ->). by apply session_tail_stdouts.
  - by rewrite Hf.
  - destruct Hf as (sid & cwd & outs & ->). by apply session_tail_stdouts.
Qed.

Lemma protocol_frames h p : protocol s h = Some p → phase_frames p (frames_down h).
Proof.
  revert p. induction h as [|a h IH] using rev_ind; intros p Hp; [by injection Hp as <-|].
  rewrite protocol_app in Hp. destruct (protocol s h) as [p1|] eqn:Hp1; [|done]. cbn in Hp.
  destruct (advance s p1 a) as [p2|] eqn:Ha; [|done]. cbn in Hp. simplify_eq.
  rewrite frames_down_snoc. by apply (advance_frames p1); [apply IH|].
Qed.

Lemma delivered_frames h : delivered h = concat (prints (frames_down h)).
Proof.
  unfold delivered, prints, frames_down. induction h as [|a h IH]; [done|].
  destruct a as [| | | | |[] []| | | | | |]; cbn; by rewrite IH.
Qed.

Lemma advance_status p a p' i : advance s p a = Some p' → status p' = Some i → status p = Some i ∨ ∃ e, a = PTYExited i e.
Proof.
  unfold advance, advance_frame. destruct (released p); [done|].
  destruct a; intros; repeat case_match; simplify_eq/=; try (by left); by right; eexists.
Qed.

(** The exit status that is sent was reported by the host. *)
Lemma exit_reported h p code sig err :
  protocol s h = Some p → Sent (SExited code sig) err ∈ h → ∃ e, PTYExited (mk_ExitInfo code sig) e ∈ h.
Proof.
  assert (Hst : ∀ h p i, protocol s h = Some p → status p = Some i → ∃ e, PTYExited i e ∈ h).
  { clear. induction h as [|a h IH] using rev_ind; intros p i Hp Hi; [by injection Hp as <-|].
    rewrite protocol_app in Hp. destruct (protocol s h) as [p1|] eqn:Hp1; [|done]. cbn in Hp.
    destruct (advance s p1 a) as [p2|] eqn:Ha; [|done]. cbn in Hp. simplify_eq.
    destruct (advance_status _ _ _ _ Ha Hi) as [Hs|[e ->] ]; [|exists e; set_solver].
    destruct (IH _ _ eq_refl Hs) as [e He]. exists e. set_solver. }
  revert p. induction h as [|a h IH] using rev_ind; intros p Hp; [by intros ?%elem_of_nil|].
  rewrite protocol_app in Hp. destruct (protocol s h) as [p1|] eqn:Hp1; [|done]. cbn in Hp.
  destruct (advance s p1 a) as [p2|] eqn:Ha; [|done]. cbn in Hp. simplify_eq.
  rewrite elem_of_app, list_elem_of_singleton. intros [Hin|<-].
  - destruct (IH _ eq_refl Hin) as [e He]. exists e. set_solver.
  - unfold advance, advance_frame in Ha. repeat case_match; try done.
    match goal with E : _ && bool_decide _ = true |- _ => apply andb_prop in E as [_ Hs%bool_decide_eq_true] end.
    destruct (Hst _ _ _ Hp1 Hs) as [e He]. exists e. set_solver.
Qed.

(** ** The two sides *)

(** What a stream between a service and a client does: it delivers the frames
    that were sent, in their order, each once, none other; those that were sent
    last may be under way. *)
Record connected (t : PtyService.St (R := R)) (u : PtyClient.St) : Prop := {
  co_request f : recv_first [] = Ok f → head (frames_up (PtyClient.hist u)) = Some f;
  co_up : input t `prefix_of` tail (frames_up (PtyClient.hist u));
  co_down : ∃ fs, PtyClient.received u = PtyClient.Payload <$> fs ∧ fs `prefix_of` frames_down (hist (world t));
}.

Lemma stdouts_prints fs : PtyClientFlow.stdouts (PtyClient.Payload <$> fs) = prints fs.
Proof. unfold PtyClientFlow.stdouts, prints. induction fs as [|[] fs IH]; cbn; by rewrite ?IH. Qed.

Lemma prints_prefix fs gs : fs `prefix_of` gs → prints fs `prefix_of` prints gs.
Proof. intros [k ->]. unfold prints. rewrite omap_app. by apply prefix_app_r. Qed.

Lemma concat_prefix {A} (l k : list (list A)) : l `prefix_of` k → concat l `prefix_of` concat k.
Proof. intros [m ->]. rewrite concat_app. by apply prefix_app_r. Qed.

Lemma input_sent_frames h : PtyClientFlow.input_sent h = concat (PtyClientFlow.payload_of <$> frames_up h).
Proof. unfold PtyClientFlow.input_sent, frames_up. induction h as [|[] h IH]; cbn; by rewrite ?IH. Qed.

Lemma payloads_concat fs : concat (payloads fs) = concat (PtyClientFlow.payload_of <$> fs).
Proof. unfold payloads. induction fs as [|[] fs IH]; cbn; by rewrite ?IH. Qed.

(** The first frame the client sends. *)
Lemma client_frames h p :
  PtyClientProtocol.protocol c h = Some p →
  if PtyClientProtocol.opened p then ∃ fs, frames_up h = PtyClient.attachFrame (PtyClient.Attach c) :: fs else frames_up h = [].
Proof.
  revert p. induction h as [|a h IH] using rev_ind; intros p Hp; [by injection Hp as <-|].
  rewrite PtyClientProtocol.client_protocol_snoc in Hp. destruct (PtyClientProtocol.protocol c h) as [p1|] eqn:Hp1; [|done]. cbn in Hp.
  assert (Hup : frames_up (h ++ [a]) = frames_up h ++ match a with PtyClient.Sent f _ => [f] | _ => [] end).
  { unfold frames_up. rewrite omap_app. by destruct a. }
  specialize (IH p1 eq_refl). rewrite Hup. destruct a as [f err| | | |]; cbn in Hp; rewrite ?app_nil_r.
  - destruct (PtyClientProtocol.closed p1); [done|]. destruct (PtyClientProtocol.opened p1).
    + destruct (_ && _); [|done]. simplify_eq. destruct IH as [fs ->]. by exists (fs ++ [f]).
    + destruct (bool_decide _) eqn:Hf; [|done]. simplify_eq. apply bool_decide_eq_true in Hf as ->. rewrite IH. by exists [].
  - by simplify_eq/=.
  - destruct (PtyClientProtocol.opened p1); cbn in Hp; [|done]. destruct (PtyClientProtocol.attached p1); by simplify_eq/=.
  - destruct (PtyClientProtocol.attached p1); by simplify_eq/=.
  - by simplify_eq/=.
Qed.

Lemma client_head h p f :
  PtyClientProtocol.protocol c h = Some p → head (frames_up h) = Some f → f = PtyClient.attachFrame (PtyClient.Attach c).
Proof. intros Hp%client_frames. destruct (PtyClientProtocol.opened p); [destruct Hp as [fs ->]|rewrite Hp]; [by intros [= <-]|done]. Qed.

Lemma client_tail h p :
  PtyClientProtocol.protocol c h = Some p → PtyClientFlow.input_sent h = concat (payloads (tail (frames_up h))).
Proof.
  intros Hp%client_frames. rewrite input_sent_frames, payloads_concat.
  destruct (PtyClientProtocol.opened p); [by destruct Hp as [fs ->]|by rewrite Hp].
Qed.

(** A final frame is the last the service sends. *)
Lemma final_last fs gs f : fs `prefix_of` gs → session_frames gs = true → last fs = Some f → is_final f = true → fs = gs.
Proof.
  intros [k ->] Hv [fs' ->]%last_Some Hf. rewrite <-app_assoc in Hv. cbn in Hv.
  assert (k = []) as ->; [|by rewrite app_nil_r]. destruct fs' as [|g fs']; cbn in Hv.
  - destruct f; try done. by destruct k.
  - destruct g; try done; [by apply session_tail_final in Hv|by destruct fs'].
Qed.

Lemma reachable_protocol r t : reachable_from s r t → ∃ p, protocol s (hist (world t)) = Some p.
Proof.
  intros [Hm _]%reachable_good. destruct (main t).
  - destruct Hm as [ [p Hl] _]. exists p. apply Hl.
  - destruct Hm as (p & Hp & _). by exists p.
Qed.

(** A terminal, end to end.  Between a service and a client joined by a
    stream, whatever happens on either side: the program that is started is the
    one named on the client's command line; while the session runs and its
    stream is open, what was written to the program is, byte for byte, a prefix
    of what was typed; what was printed on the terminal is a prefix of what the
    program has written; the client gets no frame it does not expect.  When the
    client was told an exit status, the host has reported it, everything the
    program has written was printed, and if it is not zero the client returns
    it. *)
Theorem terminal_end_to_end (r : R) (t : PtyService.St) (u : PtyClient.St) :
  reachable_from s r t → PtyClient.reachable_state c u → PtyClient.hasStream c = true → connected t u →
  (∀ req started, Spawned req started ∈ hist (world t) →
     ResolveBinary (PtyClient.Agent (PtyClient.Attach c)) = Ok (Binary req)) ∧
  (main t = MLoop → streamOpen (rt t) = true → concat (written (hist (world t))) `prefix_of` concat (PtyClient.typed u)) ∧
  concat (PtyClientFlow.output_written (PtyClient.hist u)) `prefix_of` concat (output t) ∧
  (∃ fs, PtyClient.received u = PtyClient.Payload <$> fs ∧ session_frames fs = true) ∧
  ∀ code sig, last (PtyClient.received u) = Some (PtyClient.Payload (SExited code sig)) →
    (∃ e, PTYExited (mk_ExitInfo code sig) e ∈ hist (world t)) ∧
    concat (PtyClientFlow.output_written (PtyClient.hist u)) = concat (output t) ∧
    ∀ res, PtyClient.main u = PtyClient.MReturned res → code ≠ 0%Z ∨ sig ≠ 0%Z → res = PtyClient.mk_ExitResult code sig None None.
Proof.
  intros Ht Hu Hc [Hreq Hup (fs & Hrec & Hdown)]. destruct (reachable_protocol _ _ Ht) as [p Hp]. pose proof (reachable_flow _ _ _ Ht) as Hf.
  pose proof (PtyClientFlow.reachable_sound c u Hc Hu) as Hs. pose proof Hs as [ [q Hq] _ _ _ (dropped & Htyped & _) Hh _ _ _ _].
  pose proof (PtyClientProtocol.in_protocol _ _ _ Hq) as Hpq.
  assert (Hv : session_frames (frames_down (hist (world t))) = true) by by eapply phase_frames_valid, protocol_frames.
  split_and!.
  - intros req started Hin. pose proof (reachable_spawns _ _ _ Ht) as Hall. rewrite Forall_forall in Hall.
    destruct (Hall _ Hin) as (us & ws & a & _ & Ha & _ & _ & _ & Hb & _). apply Hreq, (client_head _ _ _ Hpq) in Ha.
    by injection Ha as ->.
  - intros Hm Ho. destruct (fl_input _ _ Hf) as (consumed & Hi & _ & Hall). unfold in_loop in Hall. rewrite Hm in Hall.
    rewrite Hall by done. trans (PtyClientFlow.input_sent (PtyClient.hist u)).
    + rewrite (client_tail _ _ Hpq). apply concat_prefix. destruct Hup as [k Hk]. rewrite Hk, Hi, !payloads_app, <-app_assoc.
      by apply prefix_app_r.
    + rewrite Htyped. unfold PtyClientFlow.flowing. rewrite <-app_assoc. by apply prefix_app_r.
  - etrans; [apply concat_prefix, PtyClientFlow.heard_output, Hh|]. rewrite Hrec, stdouts_prints.
    etrans; [apply concat_prefix, prints_prefix, Hdown|]. rewrite <-delivered_frames. apply Hf.
  - exists fs. split; [done|]. by eapply session_frames_prefix.
  - intros code sig Hl.
    assert (Hlast : last fs = Some (SExited code sig)) by (rewrite Hrec, fmap_last in Hl; by destruct (last fs); simplify_eq/=).
    pose proof (final_last _ _ _ Hdown Hv Hlast eq_refl) as ->.
    assert (Hin : Sent (SExited code sig) None ∈ hist (world t)).
    { apply last_Some in Hlast as [l' Hl']. assert (Hx : SExited code sig ∈ frames_down (hist (world t))) by (rewrite Hl'; set_solver).
      apply list_elem_of_omap in Hx as (a & Ha & Hx). by destruct a as [| | | | |f []| | | | | |]; simplify_eq/=. }
    assert (Hacc : PtyClient.receiver u ≠ PtyClient.VIdle).
    { apply PtyClientFlow.heard_accepted; [done|]. rewrite Hrec, length_fmap. apply last_Some in Hlast as [l' Hl']. rewrite Hl' in Hv |- *.
      rewrite length_app. destruct l'; [done|cbn; lia]. }
    split_and!.
    + by eapply exit_reported.
    + rewrite PtyClientFlow.heard_all_output, Hrec, stdouts_prints, <-delivered_frames by done. by destruct (fl_exited _ _ Hf _ _ _ Hin) as (_ & ? & _).
    + intros res Hm Hne. assert (Hout : PtyClientFlow.outcome (PtyClient.received u) = PtyClient.mk_ExitResult code sig None None)
        by (unfold PtyClientFlow.outcome; by rewrite Hl).
      rewrite <-Hout. apply (PtyClientFlow.result_conclusive c); [done..|]. rewrite Hout. unfold PtyClient.no_result. intros [= -> ->]. by destruct Hne.
Qed.
End terminal.

Lemma run_result {A B} (f : A → B) (o : option A) x : f <$> o = Some x → ∃ a, o = Some a ∧ f a = x.
Proof. destruct o; [intros [= <-]; by eexists|done]. Qed.

(** The service and the client of the examples, joined. *)
Lemma joined_runs :
  ∃ t u, PtyExample.run PtyExample.session_run = Some t ∧
    PtyClientFlow.run_client PtyClientFlow.ClientExample.config PtyClientFlow.ClientExample.session_run = Some u ∧
    input t = [CStdin PtyExample.hello] ∧ output t = [PtyExample.hello; []] ∧
    frames_down (hist (world t)) = [SAttached "u-pty-1" ""; SStdout PtyExample.hello; SExited 0 0] ∧
    frames_up (PtyClient.hist u) = [CAttach PtyExample.request; CStdin PtyExample.hello] ∧
    PtyClient.received u = PtyClient.Payload <$> [SAttached "u-pty-1" ""; SStdout PtyExample.hello; SExited 0 0].
Proof.
  assert (Ht : (λ t, (input t, output t, frames_down (hist (world t)))) <$> PtyExample.run PtyExample.session_run =
    Some ([CStdin PtyExample.hello], [PtyExample.hello; []], [SAttached "u-pty-1" ""; SStdout PtyExample.hello; SExited 0 0]))
    by (vm_compute; reflexivity).
  assert (Hu : (λ u, (frames_up (PtyClient.hist u), PtyClient.received u)) <$>
      PtyClientFlow.run_client PtyClientFlow.ClientExample.config PtyClientFlow.ClientExample.session_run =
    Some ([CAttach PtyExample.request; CStdin PtyExample.hello],
          PtyClient.Payload <$> [SAttached "u-pty-1" ""; SStdout PtyExample.hello; SExited 0 0])) by (vm_compute; reflexivity).
  destruct (run_result _ _ _ Ht) as (t & Ht' & Hx), (run_result _ _ _ Hu) as (u & Hu' & Hy). clear Ht Hu.
  injection Hx as Hx1 Hx2 Hx3. injection Hy as Hy1 Hy2. exists t, u. split; [exact Ht'|]. split; [exact Hu'|]. by split_and!.
Qed.

Lemma terminal_end_to_end_witness :
  ∃ t u, PtyExample.run PtyExample.session_run = Some t ∧
    concat (PtyClientFlow.output_written (PtyClient.hist u)) = concat (output t).
Proof.
  destruct joined_runs as (t & u & Ht & Hu & Hin & Hout & Hdown & Hup & Hrec). exists t, u. split; [exact Ht|].
  refine (proj1 (proj2 (proj2 (proj2 (proj2 (proj2 (terminal_end_to_end _ _ _ t u (PtyExample_reachable _ _ Ht)
    (PtyClientFlow.run_client_reachable _ _ _ Hu) eq_refl _)))) 0%Z 0%Z _))).
  - split.
    + intros f Hf. rewrite Hup. injection Hf as <-. reflexivity.
    + rewrite Hup, Hin. reflexivity.
    + eexists. split; [exact Hrec|]. rewrite Hdown. reflexivity.
  - rewrite Hrec. reflexivity.
Defined.
