(* ===== verification/Resize.v ===== *)
(** * The sizes of the terminal (pkg/ptyclient/resize_unix.go, resize_windows.go)

    The goroutine that looks at the size of the terminal, when SIGWINCH says that
    it has changed or at every tick of a timer, and puts it into a channel that
    holds four.  It never waits for the channel: a size that finds it full is
    dropped.  The terminal, the signals and ticks, the client that takes the
    sizes and the context are the environment. *)
From S2P Require Import Prelude PtyClient.
From stdpp Require Import options.

(** ** Asking for the size *)

(** [unix.Winsize], four [uint16]. *)
Record Winsize : Type := mk_Winsize { Col : Z; Row : Z; Xpixel : Z; Ypixel : Z }.
(** [Window] of [windows.ConsoleScreenBufferInfo], four [int16]. *)
Record SmallRect : Type := mk_SmallRect { Left : Z; Top : Z; Right : Z; Bottom : Z }.

Definition no_size : WindowSize := mk_WindowSize 0 0 0 0.

#[export] Instance WindowSize_eq_dec : EqDecision WindowSize.
Proof. solve_decision. Defined.

Definition wrap_int16 (z : Z) : Z := (z + 2 ^ 15) `mod` 2 ^ 16 - 2 ^ 15.

(** [None]: the call has failed. *)
Definition querySize_unix (ws : option Winsize) : WindowSize :=
  match ws with
  | None => no_size
  | Some ws => mk_WindowSize (Col ws) (Row ws) (Xpixel ws) (Ypixel ws)
  end.

Definition querySize_windows (info : option SmallRect) : WindowSize :=
  match info with
  | None => no_size
  | Some r =>
    let cols := wrap_int16 (wrap_int16 (Right r - Left r) + 1) in
    let rows := wrap_int16 (wrap_int16 (Bottom r - Top r) + 1) in
    if bool_decide (cols ≤ 0)%Z || bool_decide (rows ≤ 0)%Z then no_size
    else mk_WindowSize cols rows 0 0
  end.

(** ** The goroutine *)

Inductive pc : Type :=
  | QFirst                                                (* before the first look *)
  | QEmit (ws : WindowSize)                               (* the size was read, and is offered to the channel *)
  | QSelect
  | QQuery                                                (* woken, before it looks *)
  | QReturned.

(** [signals] and [ticker.C] are channels of capacity one that are never waited
    for: [wake].  The last three fields are history: the screens there were,
    the sizes offered to the channel with the number that were waiting in it,
    and whether the goroutine has looked since the screen changed. *)
Record St (screen : Type) : Type := mk_St {
  term : screen; raised : bool; wake : bool; done : bool;
  loop : pc; last_size : WindowSize; out : list WindowSize; out_closed : bool;
  taken : list WindowSize;
  screens : list screen; tried : list (WindowSize * nat); looked : bool }.
#[global] Arguments mk_St {screen}.
#[global] Arguments term {screen}.
#[global] Arguments raised {screen}.
#[global] Arguments wake {screen}.
#[global] Arguments done {screen}.
#[global] Arguments loop {screen}.
#[global] Arguments last_size {screen}.
#[global] Arguments out {screen}.
#[global] Arguments out_closed {screen}.
#[global] Arguments taken {screen}.
#[global] Arguments screens {screen}.
#[global] Arguments tried {screen}.
#[global] Arguments looked {screen}.

(** [make(chan WindowSize, 4)] *)
Definition capacity : nat := 4.

Inductive branch : Type := OnDone | OnWake.

Section watcher.
Context {screen : Type} (querySize : screen → WindowSize).
Implicit Types (s : St screen) (x : screen).

Definition start x : St screen := mk_St x false false false QFirst no_size [] false [] [x] [] false.

Definition goto l s : St screen :=
  mk_St (term s) (raised s) (wake s) (done s) l (last_size s) (out s) (out_closed s) (taken s) (screens s) (tried s) (looked s).

(** [select { case out <- size: default: }], in [send] and [emitResize] *)
Definition emitResize (ws : WindowSize) s : St screen :=
  mk_St (term s) (raised s) (wake s) (done s) QSelect (last_size s)
    (if decide (length (out s) < capacity) then out s ++ [ws] else out s) (out_closed s)
    (taken s) (screens s) (tried s ++ [(ws, length (out s))]) (looked s).

(** The size is read and kept for the next steps. *)
Definition look (last : WindowSize) (l : pc) s : St screen :=
  mk_St (term s) (raised s) (wake s) (done s) l last (out s) (out_closed s) (taken s) (screens s) (tried s) true.

Definition woken s : St screen :=
  mk_St (term s) (raised s) false (done s) QQuery (last_size s) (out s) (out_closed s) (taken s) (screens s) (tried s) (looked s).

Definition leave s : St screen :=
  mk_St (term s) (raised s) (wake s) (done s) QReturned (last_size s) (out s) true (taken s) (screens s) (tried s) (looked s).

Definition select_step (b : branch) s : option (St screen) :=
  match b with
  | OnDone => if done s then Some (leave s) else None
  | OnWake => if wake s then Some (woken s) else None
  end.

(** The goroutine of [NewSIGWINCHResize]: [send] at first and at each signal. *)
Definition sigwinch_step (b : branch) s : option (St screen) :=
  match loop s with
  | QFirst | QQuery => Some (look (last_size s) (QEmit (querySize (term s))) s)
  | QEmit ws => Some (emitResize ws s)
  | QSelect => select_step b s
  | QReturned => None
  end.

(** That of [NewPollResize], which ends in [pollResizeLoop]: a size is offered
    when it is not the last one. *)
Definition poll_step (b : branch) s : option (St screen) :=
  match loop s with
  | QFirst => let last := querySize (term s) in Some (look last (QEmit last) s)
  | QEmit ws => Some (emitResize ws s)
  | QSelect => select_step b s
  | QQuery =>
    let current := querySize (term s) in
    Some (if decide (current = last_size s) then look (last_size s) QSelect s
          else look current (QEmit current) s)
  | QReturned => None
  end.

Inductive label : Type :=
  | LStep (b : branch)
  | LChange (x : screen)                                  (* another size of the terminal, and the signal *)
  | LRaise                                                (* the signal is sent by somebody else *)
  | LWake                                                 (* it is delivered, or the timer ticks *)
  | LTake                                                 (* the client takes a size *)
  | LCancel.

(** [polls] says which of the two goroutines it is; only one is told of changes. *)
Definition exec (polls : bool) (l : label) s : option (St screen) :=
  match l with
  | LStep b => if polls then poll_step b s else sigwinch_step b s
  | LChange x => Some (mk_St x (negb polls) (wake s) (done s) (loop s) (last_size s) (out s) (out_closed s) (taken s) (screens s ++ [x]) (tried s) false)
  | LRaise =>
    if polls then None else Some (mk_St (term s) true (wake s) (done s) (loop s) (last_size s) (out s) (out_closed s) (taken s) (screens s) (tried s) (looked s))
  | LWake =>
    if polls || raised s then Some (mk_St (term s) false true (done s) (loop s) (last_size s) (out s) (out_closed s) (taken s) (screens s) (tried s) (looked s)) else None
  | LTake =>
    match out s with
    | ws :: rest => Some (mk_St (term s) (raised s) (wake s) (done s) (loop s) (last_size s) rest (out_closed s) (taken s ++ [ws]) (screens s) (tried s) (looked s))
    | [] => None
    end
  | LCancel => Some (mk_St (term s) (raised s) (wake s) true (loop s) (last_size s) (out s) (out_closed s) (taken s) (screens s) (tried s) (looked s))
  end.

Fixpoint exec_all (polls : bool) (ls : list label) s : option (St screen) :=
  match ls with
  | [] => Some s
  | l :: ls => match exec polls l s with Some s' => exec_all polls ls s' | None => None end
  end.

Inductive reachable (polls : bool) x : St screen → Prop :=
  | reach_start : reachable polls x (start x)
  | reach_step s l s' : reachable polls x s → exec polls l s = Some s' → reachable polls x s'.

Lemma reachable_all polls x ls s s' :
  reachable polls x s → exec_all polls ls s = Some s' → reachable polls x s'.
Proof.
  revert s. induction ls as [|l ls IH]; intros s Hs; simpl; [by intros [= <-]|].
  destruct (exec polls l s) as [s1|] eqn:H1; [|done]. apply IH. by eapply reach_step.
Qed.

(** ** What holds at every step *)

(** The sizes that the channel had room for. *)
Definition sent (h : list (WindowSize * nat)) : list WindowSize := (filter (λ p, p.2 < capacity) h).*1.

(** No size is offered twice in a row. *)
Fixpoint changing (l : list WindowSize) : Prop :=
  match l with a :: (b :: _) as l' => a ≠ b ∧ changing l' | _ => True end.

(** The goroutine waits, and has heard of all changes. *)
Definition quiet (polls : bool) s : Prop :=
  loop s = QSelect ∧ (if polls then looked s = true else raised s = false ∧ wake s = false).

Lemma changing_snoc l a : changing l → last l ≠ Some a → changing (l ++ [a]).
Proof.
  induction l as [|b [|c l] IH]; [done|simpl|].
  - intros _ H. split; [|done]. congruence.
  - intros [H1 H2] H. split; [done|]. by apply IH.
Qed.

(** What the goroutine knows at each of its places. *)
Definition knows (polls : bool) s : Prop :=
  match loop s with
  | QFirst => looked s = false ∧ tried s = []
  | QEmit ws =>
    ws ∈ querySize <$> screens s ∧ (looked s = true → ws = querySize (term s)) ∧
    (polls = true → ws = last_size s ∧ last (tried s).*1 ≠ Some ws)
  | QSelect | QQuery | QReturned =>
    (looked s = true → last (tried s).*1 = Some (querySize (term s))) ∧
    (polls = true → last (tried s).*1 = Some (last_size s))
  end.

Record inv (polls : bool) s : Prop := {
  inv_room : length (out s) ≤ capacity;
  inv_sent : taken s ++ out s = sent (tried s);
  inv_term : term s ∈ screens s;
  inv_seen : Forall (λ ws, ws ∈ querySize <$> screens s) (tried s).*1;
  inv_knows : knows polls s;
  inv_told : polls = false → looked s = false → raised s = true ∨ wake s = true ∨ loop s ∈ [QFirst; QQuery; QReturned];
  inv_changing : polls = true → changing (tried s).*1;
  inv_closed : out_closed s = true → loop s = QReturned ∧ done s = true }.

Arguments sent : simpl never.

Lemma sent_snoc h ws n : sent (h ++ [(ws, n)]) = sent h ++ (if decide (n < capacity) then [ws] else []).
Proof. unfold sent. rewrite filter_app, fmap_app. f_equal. cbn. by case_decide. Qed.

Lemma offered_snoc (h : list (WindowSize * nat)) ws n : (h ++ [(ws, n)]).*1 = h.*1 ++ [ws].
Proof. by rewrite fmap_app. Qed.

Lemma resize_inv_start polls x : inv polls (start x).
Proof. split; cbn; try done; try lia; try constructor; set_solver. Qed.

Lemma resize_inv_emit polls ws s : loop s = QEmit ws → inv polls s → inv polls (emitResize ws s).
Proof.
  intros Hl [Hr Hs Ht Hn Hk Hw Hc Hd]. unfold knows in Hk. rewrite Hl in Hk, Hw, Hd. destruct Hk as (K1 & K2 & K3).
  split; cbn; try done.
  - case_decide; [rewrite length_app; simpl; lia|done].
  - rewrite sent_snoc, <-Hs. case_decide; [by rewrite app_assoc|by rewrite app_nil_r].
  - rewrite offered_snoc. apply Forall_app. split; [done|by constructor].
  - unfold knows. cbn. rewrite offered_snoc, last_snoc. split; intros H; f_equal; [by apply K2|by apply K3].
  - intros H1 H2. destruct (Hw H1 H2) as [?|[?|H]]; [by left|by right; left|]. set_solver.
  - intros H. rewrite offered_snoc. apply changing_snoc; [by apply Hc|by apply K3].
  - intros H. by destruct (Hd H).
Qed.

Lemma resize_inv_look polls s w l :
  (match l with
   | QEmit ws => ws = querySize (term s) ∧ (polls = true → ws = w ∧ last (tried s).*1 ≠ Some ws)
   | QSelect => last (tried s).*1 = Some (querySize (term s)) ∧ (polls = true → w = querySize (term s))
   | _ => False
   end) →
  loop s ≠ QReturned → inv polls s → inv polls (look w l s).
Proof.
  intros Hl Hne [Hr Hs Ht Hn Hk Hw Hc Hd]. split; cbn; try done.
  - unfold knows. cbn. destruct l; try done.
    + destruct Hl as [-> H]. split_and!; [|done..]. by apply list_elem_of_fmap_2.
    + destruct Hl as [H1 H2]. split; [done|]. intros H. rewrite H1. f_equal. symmetry. auto.
  - intros H. by destruct (Hd H).
Qed.

Lemma resize_inv_goto polls s s' l : loop s = QSelect → select_step l s = Some s' → inv polls s → inv polls s'.
Proof.
  intros Hl He [Hr Hs Ht Hn Hk Hw Hc Hd]. unfold knows in Hk. rewrite Hl in Hk, Hw, Hd.
  destruct l; cbn in He.
  - destruct (done s) eqn:Hdn; [|done]. injection He as <-. split; cbn; try done. intros. set_solver.
  - destruct (wake s) eqn:Hwk; [|done]. injection He as <-. split; cbn; try done.
    + intros. set_solver.
    + intros H. by destruct (Hd H).
Qed.

Lemma resize_inv_exec polls s l s' : inv polls s → exec polls l s = Some s' → inv polls s'.
Proof.
  intros Hi He. destruct l as [b|x| | | |]; cbn in He.
  - destruct polls; unfold poll_step, sigwinch_step in He; destruct (loop s) eqn:Hl; try done;
      pose proof (inv_knows _ _ Hi) as Hk; unfold knows in Hk; rewrite Hl in Hk;
      try (by eapply resize_inv_goto); injection He as <-; try (by apply resize_inv_emit).
    + apply resize_inv_look; [|congruence|done]. split; [done|]. intros _. destruct Hk as [_ ->]. done.
    + destruct Hk as [_ Hk]. specialize (Hk eq_refl). case_decide as Hd.
      * apply resize_inv_look; [|congruence|done]. rewrite Hd. done.
      * apply resize_inv_look; [|congruence|done]. rewrite Hk. split; [done|]. intros _. split; [done|]. intros [= E]. by rewrite E in Hd.
    + by apply resize_inv_look; [|congruence|].
    + by apply resize_inv_look; [|congruence|].
  - injection He as <-. destruct Hi as [Hr Hs Ht Hn Hk Hw Hc Hd]. split; cbn; try done.
    + set_solver.
    + eapply Forall_impl; [exact Hn|]. intros ws. rewrite fmap_app. set_solver.
    + unfold knows in *. cbn. destruct (loop s); try (by destruct Hk).
      destruct Hk as (K1 & _ & K3). rewrite fmap_app. split_and!; [set_solver|done|done].
    + intros ->. auto.
  - destruct polls; [done|]. injection He as <-. destruct Hi. split; cbn; auto.
  - destruct (polls || raised s) eqn:Hp; [|done]. injection He as <-. destruct Hi. split; cbn; auto.
  - destruct (out s) as [|ws rest] eqn:Ho; [done|]. injection He as <-.
    destruct Hi as [Hr Hs]. split; cbn; try done; rewrite Ho in *; cbn in *; [lia|].
    by rewrite <-Hs, <-app_assoc.
  - injection He as <-. destruct Hi as [? ? ? ? ? ? ? Hd]. split; cbn; try done. intros H. by destruct (Hd H).
Qed.

Lemma resize_reachable_inv polls x s : reachable polls x s → inv polls s.
Proof. induction 1; [apply resize_inv_start|by eapply resize_inv_exec]. Qed.

(** The sizes the client takes, and those that wait for it, are the sizes the
    terminal had when the goroutine looked, less those that found four waiting;
    at most four wait; the one that polls offers no size twice in a row; the
    channel is closed only when the context has ended; and once the goroutine
    has heard of all changes, the size it offered last is the terminal's. *)
Theorem resize_sizes polls x s : reachable polls x s →
  length (out s) ≤ capacity ∧ taken s ++ out s = sent (tried s) ∧
  Forall (λ ws, ws ∈ querySize <$> screens s) (tried s).*1 ∧
  (polls = true → changing (tried s).*1) ∧ (out_closed s = true → loop s = QReturned ∧ done s = true) ∧
  (quiet polls s → last (tried s).*1 = Some (querySize (term s))).
Proof.
  intros Hr%resize_reachable_inv. destruct Hr as [Hr Hs Ht Hn Hk Hw Hc Hd]. split_and!; try done.
  intros [Hl Hq]. unfold knows in Hk. rewrite Hl in Hk, Hw. apply (proj1 Hk).
  destruct polls; [done|]. destruct (looked s); [done|].
  destruct Hq as [Hq1 Hq2]. destruct (Hw eq_refl eq_refl) as [?|[?|?]]; [congruence..|set_solver].
Qed.

(** Nothing is taken any more as long as the terminal keeps its size. *)
Definition calm (l : label) : bool := match l with LChange _ | LRaise => false | _ => true end.

Definition settled (polls : bool) s : Prop :=
  out s = [] ∧ raised s = false ∧
  match loop s with
  | QSelect => True
  | QQuery => polls = true
  | QReturned => True
  | _ => False
  end ∧ (if polls then last_size s = querySize (term s) else wake s = false).

Lemma settled_step polls l s s' :
  settled polls s → calm l = true → exec polls l s = Some s' → settled polls s' ∧ taken s' = taken s.
Proof.
  intros (Ho & Hr & Hl & Hw) Hc He. unfold settled.
  destruct l as [b|x| | | |]; try done; cbn in He.
  - assert (Hkeep : ∀ p, match p with QSelect | QReturned => True | QQuery => polls = true | _ => False end →
      loop s' = p → out s' = [] → raised s' = false → last_size s' = last_size s → term s' = term s →
      (polls = false → wake s' = false) → taken s' = taken s →
      (out s' = [] ∧ raised s' = false ∧
       match loop s' with QSelect => True | QQuery => polls = true | QReturned => True | _ => False end ∧
       (if polls then last_size s' = querySize (term s') else wake s' = false)) ∧ taken s' = taken s).
    { intros p Hp Hp1 Ho1 Hr1 E1 E2 Hw1 Ht1. rewrite E1, E2, Hp1. destruct polls, p; try done; repeat split; try done; by apply Hw1. }
    destruct polls; unfold poll_step, sigwinch_step in He; destruct (loop s) eqn:Hp; try done.
    + destruct b; cbn in He; [destruct (done s)|destruct (wake s)]; try done; injection He as <-; [by apply (Hkeep QReturned)|by apply (Hkeep QQuery)].
    + rewrite decide_True in He by done. injection He as <-. by apply (Hkeep QSelect).
    + destruct b; cbn in He; [destruct (done s); [|done]|by rewrite Hw in He]. injection He as <-. by apply (Hkeep QReturned).
  - rewrite Hr in He. destruct polls; [|done]. by injection He as <-.
  - by rewrite Ho in He.
  - by injection He as <-.
Qed.

Lemma settled_all polls ls s s' :
  settled polls s → Forall (λ l, calm l = true) ls → exec_all polls ls s = Some s' → taken s' = taken s.
Proof.
  revert s. induction ls as [|l ls IH]; intros s Hs; cbn; [by intros _ [= <-]|].
  intros [Hc Hcs]%Forall_cons. destruct (exec polls l s) as [s1|] eqn:H1; [|done].
  destruct (settled_step _ _ _ _ Hs Hc H1) as [Hs1 <-]. by apply IH.
Qed.

End watcher.

(** ** The newest size is the one that is lost *)

(** A window of [n] columns. *)
Definition window (n : Z) : option Winsize := Some (mk_Winsize n 24 0 0).
Definition console (n : Z) : option SmallRect := Some (mk_SmallRect 0 0 (n - 1) 23).

(** The window is made wider four times while the client takes nothing. *)
Definition drag {screen} (polls : bool) (x : Z → screen) : list (label (screen := screen)) :=
  [LStep OnWake; LStep OnWake] ++
  mjoin ((λ n, [LChange (x (80 + n)%Z); LWake; LStep OnWake; LStep OnWake; LStep OnWake]) <$> [1; 2; 3; 4]%Z) ++
  [LTake; LTake; LTake; LTake].

(** When the client takes the sizes late, the size it has in the end is not the
    terminal's, although the goroutine has heard of all changes; and whatever
    happens next, it is not told before the size changes again. *)
Definition newest_lost {screen} (querySize : screen → WindowSize) (polls : bool) (x : screen) : Prop :=
  ∃ s, reachable querySize polls x s ∧ quiet polls s ∧ out s = [] ∧
    last (taken s) ≠ Some (querySize (term s)) ∧
    ∀ ls s', Forall (λ l, calm l = true) ls → exec_all querySize polls ls s = Some s' → taken s' = taken s.

Lemma drag_loses {screen} (querySize : screen → WindowSize) polls x s :
  exec_all querySize polls (drag polls x) (start (x 80%Z)) = Some s →
  quiet polls s → settled querySize polls s → last (taken s) ≠ Some (querySize (term s)) →
  newest_lost querySize polls (x 80%Z).
Proof.
  intros He Hq Hs Hl. exists s. split_and!; [|done|by destruct Hs|done|].
  - eapply reachable_all; [constructor|exact He].
  - intros ls s'. by apply settled_all.
Qed.

Theorem resize_newest_lost : newest_lost querySize_unix false (window 80) ∧ newest_lost querySize_windows true (console 80).
Proof.
  split; eapply drag_loses; try (vm_compute; reflexivity); repeat split; by vm_compute.
Qed.
