(* ===== verification/Console.v ===== *)
(** * The console of Windows, and other terminals (pkg/ptyattach/terminal_windows.go,
      terminal_other.go)

    [Prepare] sets the modes of the two handles of the console and reads its size,
    undoing what it has done when a later call fails; [restoreConsole] sets the
    modes back.  The console keeps a mode for each handle; which calls fail is up
    to the environment. *)
From S2P Require Import Prelude.
From S2P Require PtyClient Resize.
From stdpp Require Import options.

(** Constants of golang.org/x/sys/windows. *)
Class Windows := {
  ENABLE_PROCESSED_INPUT : Z; ENABLE_LINE_INPUT : Z; ENABLE_ECHO_INPUT : Z;
  ENABLE_VIRTUAL_TERMINAL_INPUT : Z; ENABLE_VIRTUAL_TERMINAL_PROCESSING : Z;
}.

Inductive call : Type := GetMode (fd : Z) | SetMode (fd mode : Z) | GetInfo (fd : Z).

(** The mode of each handle, and the calls that were made. *)
Record console : Type := mk_console { modes : Z → Z; calls : list call }.

(** Which calls fail, after which others, and the window a size is read of. *)
Class Failing := {
  failure : list call → call → option string;
  window_of : list call → Z → Resize.SmallRect;
}.

Inductive error : Type :=
  | ErrQueryStdin (text : string)
  | ErrSetStdin (text : string)
  | ErrQueryStdout (text : string)
  | ErrEnableVT (text : string)
  | ErrInfo (text : string)                                  (* of [GetConsoleScreenBufferInfo] *)
  | ErrInvalidSize (cols rows : Z)
  | ErrQuerySize (err : error)
  | ErrJoined (err : error) (restore : string)
  | ErrUnsupported.

Definition M (A : Type) : Type := console → console * A.
#[global] Instance console_ret : MRet M := λ A a c, (c, a).
#[global] Instance console_bind : MBind M := λ A B f m c, let '(c, a) := m c in f a c.

Record terminalState : Type := mk_terminalState { inputMode : Z; outputMode : Z }.

Section console.
Context `{Windows} `{Failing}.

Definition called (x : call) (c : console) : console := mk_console (modes c) (calls c ++ [x]).

Definition GetConsoleMode (fd : Z) : M (result string Z) := λ c,
  (called (GetMode fd) c, match failure (calls c) (GetMode fd) with Some e => Err e | None => Ok (modes c fd) end).

(** A call that fails changes nothing. *)
Definition SetConsoleMode (fd mode : Z) : M (option string) := λ c,
  let x := SetMode fd mode in
  match failure (calls c) x with
  | Some e => (called x c, Some e)
  | None => (mk_console (λ fd', if decide (fd' = fd) then mode else modes c fd') (calls c ++ [x]), None)
  end.

Definition GetConsoleScreenBufferInfo (fd : Z) : M (result string Resize.SmallRect) := λ c,
  (called (GetInfo fd) c, match failure (calls c) (GetInfo fd) with Some e => Err e | None => Ok (window_of (calls c) fd) end).

Definition IsTerminal (fd : Z) : M bool := mode ← GetConsoleMode fd; mret (match mode with Ok _ => true | Err _ => false end).

Definition raw_input (mode : Z) : Z :=
  Z.lor (Z.ldiff mode (Z.lor (Z.lor ENABLE_ECHO_INPUT ENABLE_LINE_INPUT) ENABLE_PROCESSED_INPUT)) ENABLE_VIRTUAL_TERMINAL_INPUT.
Definition vt_output (mode : Z) : Z := Z.lor mode ENABLE_VIRTUAL_TERMINAL_PROCESSING.

(** The error that made it undo what it has set. *)
Definition undo_input (stdinFD inputMode : Z) (err : error) : M (result error terminalState) :=
  restoreErr ← SetConsoleMode stdinFD inputMode;
  mret (Err match restoreErr with Some r => ErrJoined err r | None => err end).

Definition enableConsoleModes (stdinFD stdoutFD : Z) : M (result error terminalState) :=
  inputMode ← GetConsoleMode stdinFD;
  match inputMode with
  | Err e => mret (Err (ErrQueryStdin e))
  | Ok inputMode =>
    err ← SetConsoleMode stdinFD (raw_input inputMode);
    match err with
    | Some e => mret (Err (ErrSetStdin e))
    | None =>
      outputMode ← GetConsoleMode stdoutFD;
      match outputMode with
      | Err e => undo_input stdinFD inputMode (ErrQueryStdout e)
      | Ok outputMode =>
        err ← SetConsoleMode stdoutFD (vt_output outputMode);
        match err with
        | Some e => undo_input stdinFD inputMode (ErrEnableVT e)
        | None => mret (Ok (mk_terminalState inputMode outputMode))
        end
      end
    end
  end.

(** [state] is never nil here. *)
Definition restoreConsole (stdinFD stdoutFD : Z) (state : terminalState) : M (option string) :=
  err ← SetConsoleMode stdinFD (inputMode state);
  match err with
  | Some e => mret (Some e)
  | None => SetConsoleMode stdoutFD (outputMode state)
  end.

Definition currentWindowSize (fd : Z) : M (result error PtyClient.WindowSize) :=
  info ← GetConsoleScreenBufferInfo fd;
  mret match info with
  | Err e => Err (ErrInfo e)
  | Ok r =>
    let cols := Resize.wrap_int16 (Resize.wrap_int16 (Resize.Right r - Resize.Left r) + 1) in
    let rows := Resize.wrap_int16 (Resize.wrap_int16 (Resize.Bottom r - Resize.Top r) + 1) in
    if bool_decide (cols ≤ 0)%Z || bool_decide (rows ≤ 0)%Z then Err (ErrInvalidSize cols rows)
    else Ok (PtyClient.mk_WindowSize cols rows 0 0)
  end.

Definition Prepare (stdinFD stdoutFD : Z) : M (result error (terminalState * PtyClient.WindowSize)) :=
  state ← enableConsoleModes stdinFD stdoutFD;
  match state with
  | Err e => mret (Err e)
  | Ok state =>
    size ← currentWindowSize stdoutFD;
    match size with
    | Err e =>
      restoreErr ← restoreConsole stdinFD stdoutFD state;
      mret (Err match restoreErr with Some r => ErrJoined (ErrQuerySize e) r | None => ErrQuerySize e end)
    | Ok size => mret (Ok (state, size))
    end
  end.

(** On any other platform *)
Definition Prepare_other : result error (terminalState * PtyClient.WindowSize) := Err ErrUnsupported.
Definition IsTerminal_other (fd : Z) : bool := false.

(** ** What it promises *)

Definition same_modes (c c' : console) : Prop := ∀ fd, modes c' fd = modes c fd.

(** The error says that something could not be undone. *)
Definition joined (e : error) : bool := match e with ErrJoined _ _ => true | _ => false end.

Lemma SetConsoleMode_spec fd mode c :
  let '(c', err) := SetConsoleMode fd mode c in
  ∀ fd', modes c' fd' = match err with None => if decide (fd' = fd) then mode else modes c fd' | Some _ => modes c fd' end.
Proof. unfold SetConsoleMode. by destruct (failure _ _). Qed.

Lemma raw_input_bits mode k : (0 ≤ k)%Z →
  Z.testbit (raw_input mode) k =
  (Z.testbit mode k && negb (Z.testbit ENABLE_ECHO_INPUT k || Z.testbit ENABLE_LINE_INPUT k || Z.testbit ENABLE_PROCESSED_INPUT k))
  || Z.testbit ENABLE_VIRTUAL_TERMINAL_INPUT k.
Proof. intros Hk. unfold raw_input. by rewrite Z.lor_spec, Z.ldiff_spec, !Z.lor_spec. Qed.

(** Both modes are set, and the state has the former ones; or the error says why
    not, and the input's mode is the former one unless setting it back has failed. *)
Lemma enableConsoleModes_spec i o c : i ≠ o →
  let '(c', r) := enableConsoleModes i o c in
  match r with
  | Ok state => state = mk_terminalState (modes c i) (modes c o) ∧
      ∀ fd, modes c' fd = if decide (fd = i) then raw_input (modes c i) else if decide (fd = o) then vt_output (modes c o) else modes c fd
  | Err e => joined e = false → same_modes c c'
  end.
Proof.
  intros Hio. unfold enableConsoleModes, undo_input, GetConsoleMode, SetConsoleMode, mbind, console_bind, mret, console_ret, same_modes. cbn.
  repeat (case_match; simplify_eq/=); try done; try (split; [f_equal|intros fd]); intros; repeat case_decide; congruence.
Qed.

(** A size that is read is positive and is the one the watcher would read. *)
Lemma currentWindowSize_spec fd c :
  let '(c', r) := currentWindowSize fd c in
  same_modes c c' ∧
  match r with
  | Ok size => size = Resize.querySize_windows (Some (window_of (calls c) fd)) ∧ (0 < PtyClient.Cols size < 2 ^ 15)%Z ∧ (0 < PtyClient.Rows size < 2 ^ 15)%Z
  | Err (ErrInvalidSize _ _) => Resize.querySize_windows (Some (window_of (calls c) fd)) = Resize.no_size
  | Err e => ∃ text, e = ErrInfo text
  end.
Proof.
  assert (Hwrap : ∀ z, (Resize.wrap_int16 z < 2 ^ 15)%Z) by (intros z; unfold Resize.wrap_int16; pose proof (Z.mod_pos_bound (z + 2 ^ 15) (2 ^ 16)); lia).
  unfold currentWindowSize, GetConsoleScreenBufferInfo, mbind, console_bind, mret, console_ret, Resize.querySize_windows. cbn.
  destruct (failure _ _) as [e|]; cbn; [split; [done|by eexists]|].
  repeat case_bool_decide; cbn; (split; [done|]); try done. split_and!; try done; try lia; apply Hwrap.
Qed.

(** What is prepared can be restored.  When [Prepare] succeeds both handles are in
    the modes of an attached terminal and no other handle is touched, and the size
    is positive; restoring then, whatever was done to the modes meanwhile, gives
    both their former modes unless it returns an error.  When it fails, no mode is
    changed unless the error says that undoing has failed too. *)
Theorem Prepare_restores i o c : i ≠ o →
  let '(c1, r) := Prepare i o c in
  match r with
  | Ok (state, size) =>
    modes c1 i = raw_input (modes c i) ∧ modes c1 o = vt_output (modes c o) ∧
    (∀ fd, fd ≠ i → fd ≠ o → modes c1 fd = modes c fd) ∧
    (0 < PtyClient.Cols size < 2 ^ 15)%Z ∧ (0 < PtyClient.Rows size < 2 ^ 15)%Z ∧
    ∀ c2, (∀ fd, fd ≠ i → fd ≠ o → modes c2 fd = modes c fd) →
      let '(c3, err) := restoreConsole i o state c2 in err = None → same_modes c c3
  | Err e => joined e = false → same_modes c c1
  end.
Proof.
  intros Hio. unfold Prepare, mbind, console_bind, mret, console_ret.
  pose proof (enableConsoleModes_spec i o c Hio) as Hen. destruct (enableConsoleModes i o c) as [c1 [state|e] ]; [|done].
  destruct Hen as [-> Hm]. pose proof (currentWindowSize_spec o c1) as Hsize.
  destruct (currentWindowSize o c1) as [c2 [size|e] ]; destruct Hsize as [Hsame Hsize].
  - unfold same_modes in Hsame. destruct Hsize as (_ & Hc & Hr). repeat split; try lia.
    + rewrite Hsame, Hm. by rewrite decide_True.
    + rewrite Hsame, Hm. by rewrite decide_False, decide_True by congruence.
    + intros fd Hi Ho. rewrite Hsame, Hm. by rewrite !decide_False by congruence.
    + intros c3 Hother. unfold restoreConsole, SetConsoleMode, mbind, console_bind, mret, console_ret, same_modes. cbn.
      repeat (case_match; simplify_eq/=); try done; intros _ fd; repeat case_decide; subst; auto.
  - unfold restoreConsole, SetConsoleMode, mbind, console_bind, mret, console_ret, same_modes in *. cbn.
    repeat (case_match; simplify_eq/=); try done; intros _ fd; repeat case_decide; subst; try done;
      rewrite Hsame, Hm; by rewrite !decide_False by congruence.
Qed.
End console.

(** An attached console whose size cannot be read. *)
Module ConsoleExample.
Definition windows : Windows := {|
  ENABLE_PROCESSED_INPUT := 1; ENABLE_LINE_INPUT := 2; ENABLE_ECHO_INPUT := 4;
  ENABLE_VIRTUAL_TERMINAL_INPUT := 512; ENABLE_VIRTUAL_TERMINAL_PROCESSING := 4 |}.
Definition failing (broken : bool) : Failing := {|
  failure _ x := match x with GetInfo _ => if broken then Some "handle" else None | _ => None end;
  window_of _ _ := Resize.mk_SmallRect 0 0 119 29 |}.
Definition console : console := mk_console (λ fd, if decide (fd = 0)%Z then 503%Z else 3%Z) [].

Example prepared :
  let '(c, r) := Prepare (H := windows) (H0 := failing false) 0 1 console in
  (modes c 0, modes c 1, r) = (1008, 7, Ok (mk_terminalState 503 3, PtyClient.mk_WindowSize 120 30 0 0))%Z.
Proof. vm_compute. reflexivity. Qed.

Example undone :
  let '(c, r) := Prepare (H := windows) (H0 := failing true) 0 1 console in
  (modes c 0, modes c 1, r) = (503, 3, Err (ErrQuerySize (ErrInfo "handle")))%Z.
Proof. vm_compute. reflexivity. Qed.

Lemma Prepare_restores_witness : 0%Z ≠ 1%Z ∧
  let '(c1, r) := Prepare (H := windows) (H0 := failing true) 0 1 console in
  match r with Ok _ => False | Err e => joined e = false → same_modes console c1 end.
Proof.
  split; [done|]. pose proof (Prepare_restores (H := windows) (H0 := failing true) 0 1 console ltac:(done)) as HP.
  vm_compute in HP |- *. exact HP.
Defined.
End ConsoleExample.
