(* ===== verification/PtyAgent.v ===== *)
(** * The agent's process and the terminal, end to end

    The process of PtyProcess behind the service of PtyService, whose client is
    that of PtyClient: what the agent writes to its terminal on the server is what
    appears on the terminal of the machine, and the status it ends with is the one
    the client is told. *)
From S2P Require Import Prelude PtyHost Auth PtyService PtyRegistry PtyProtocol PtyStreams PtyTerminal.
From S2P Require PtyClient PtyClientProtocol PtyClientFlow PtyProcess.
From stdpp Require Import options.

Section agent.
Context {R : Type} `{Registry R} `{Environment} `{MapRange, Unicode, System}.
Context (s : Config) (c : PtyClient.Config).

(** The host of a session: the service reads its [Stdout], and nobody else does;
    the last read is the one that the end of the pipe has answered; and what [Wait]
    has answered is what the service logs. *)
Record hosted (t : PtyService.St (R := R)) (h : PtyProcess.Host) : Prop := {
  ho_read : concat (output t) = PtyProcess.got h;
  ho_last : last_read (out_pump t) = true → PtyProcess.pipe_end h ≠ None;
  ho_wait info err : PTYExited info err ∈ hist (world t) → PtyProcess.Wait None h = Some (info, err);
}.

Lemma told_sent (t : PtyService.St (R := R)) u code sig : connected t u → last (PtyClient.received u) = Some (PtyClient.Payload (SExited code sig)) →
  Sent (SExited code sig) None ∈ hist (world t).
Proof.
  intros [_ _ (fs & Hrec & Hdown)] Hl.
  assert (Hlast : last fs = Some (SExited code sig)) by (rewrite Hrec, fmap_last in Hl; by destruct (last fs); simplify_eq/=).
  assert (Hin : SExited code sig ∈ frames_down (hist (world t))).
  { apply last_Some in Hlast as [l ->]. destruct Hdown as [k ->]. set_solver. }
  apply list_elem_of_omap in Hin as (a & Ha & Hx). by destruct a as [| | | | |f []| | | | | |]; simplify_eq/=.
Qed.

(** C10. An agent and a terminal, end to end.  Between the agent's process, the
    service that hosts it and a client joined to it by a stream, whatever each of
    them does: the program that is started is the one named on the client's command
    line; while the session runs and its stream is open, what was written to it is
    the beginning of what was typed; and what is on the client's terminal is the
    beginning of what the process has written to its own.  When the client was told an exit status, the
    process has ended and its status is that one; and unless the process was killed
    or its output could not be read to the end, everything it has written is on the
    client's terminal, and the client returns that status when it is not zero. *)
Theorem agent_end_to_end (r : R) (t : PtyService.St) (u : PtyClient.St) (h : PtyProcess.Host) :
  reachable_from s r t → PtyClient.reachable_state c u → PtyClient.hasStream c = true → connected t u →
  PtyProcess.reachable h → hosted t h →
  (∀ req started, Spawned req started ∈ hist (world t) →
     ResolveBinary (PtyClient.Agent (PtyClient.Attach c)) = Ok (Binary req)) ∧
  (main t = MLoop → streamOpen (rt t) = true → concat (written (hist (world t))) `prefix_of` concat (PtyClient.typed u)) ∧
  concat (PtyClientFlow.output_written (PtyClient.hist u)) `prefix_of` PtyProcess.written h ∧
  ∀ code sig, last (PtyClient.received u) = Some (PtyClient.Payload (SExited code sig)) →
    (∃ w err e, PtyProcess.child h = PtyProcess.Reaped w ∧ classifyExit err (Some w) = (mk_ExitInfo code sig, e)) ∧
    (PtyProcess.pipe_end h = Some None → ¬ PtyProcess.killed h →
       concat (PtyClientFlow.output_written (PtyClient.hist u)) = PtyProcess.written h) ∧
    PtyProcess.pipe_end h ≠ None ∧
    ∀ res, PtyClient.main u = PtyClient.MReturned res → code ≠ 0%Z ∨ sig ≠ 0%Z → res = PtyClient.mk_ExitResult code sig None None.
Proof.
  intros Ht Hu Hc Hcon Hh [Hread Hlast Hwait].
  destruct (terminal_end_to_end s c r t u Ht Hu Hc Hcon) as (Hreq & Hin & Hout & _ & Htold).
  pose proof (PtyProcess.host_inv h Hh) as Hinv. split; [exact Hreq|]. split; [exact Hin|]. split.
  - etrans; [exact Hout|]. rewrite Hread, <-(PtyProcess.in_bytes _ Hinv). by apply prefix_app_r.
  - intros code sig Hl. destruct (Htold code sig Hl) as ([e He] & Hall & Hres).
    destruct (fl_exited _ _ (reachable_flow _ _ _ Ht) _ _ _ (told_sent t u code sig Hcon Hl)) as (_ & _ & Hpump).
    split_and!; [|intros Heof Hk|by apply Hlast|done].
    + apply Hwait in He. unfold PtyProcess.Wait in He. pose proof (PtyProcess.in_exit _ Hinv) as Hx.
      destruct (PtyProcess.child h) as [|w|w]; [by rewrite Hx in He..|]. destruct Hx as [err Hx]. rewrite Hx in He. exists w, err, e.
      split; [done|congruence].
    + rewrite Hall, Hread. by apply PtyProcess.host_complete.
Qed.
End agent.

(** ** Example: the session of the examples, with its process *)

Definition exits_logged (h : PtyService.history) : list (ExitInfo * option string) :=
  omap (λ a, match a with PTYExited i e => Some (i, e) | _ => None end) h.

Definition agent_run : list PtyProcess.label :=
  [PtyProcess.ChildWrites PtyExample.hello; PtyProcess.ChildExits 0; PtyProcess.Hangs; PtyProcess.Drains 2 None;
   PtyProcess.Reads 2; PtyProcess.Drains 0 None; PtyProcess.Drains 0 None; PtyProcess.Drains 0 None; PtyProcess.Reaps WaitNil].

Lemma agent_process : ∃ h, PtyProcess.reachable h ∧ PtyProcess.got h = PtyExample.hello ∧
  PtyProcess.pipe_end h = Some None ∧ PtyProcess.hist h = [] ∧ PtyProcess.exit h = Some (mk_ExitInfo 0 0, None).
Proof.
  assert (Hr : match PtyProcess.run agent_run PtyProcess.spawned with
    | Some h => (PtyProcess.got h, PtyProcess.pipe_end h, PtyProcess.hist h, PtyProcess.exit h) =
        (PtyExample.hello, Some None, [], Some (mk_ExitInfo 0 0, None))
    | None => False end) by (vm_compute; reflexivity).
  destruct (PtyProcess.run agent_run PtyProcess.spawned) as [h|] eqn:E; [|destruct Hr]. injection Hr as H1 H2 H3 H4.
  exists h. split; [by exists agent_run|]. by split_and!.
Qed.

Lemma session_exits : exits_logged <$> ((λ t, hist (world t)) <$> PtyExample.run PtyExample.session_run) = Some [(mk_ExitInfo 0 0, None)].
Proof. vm_compute. reflexivity. Qed.

(** What the process has written, "hi", is on the terminal of the client. *)
Lemma agent_end_to_end_witness :
  ∃ t u h, PtyExample.run PtyExample.session_run = Some t ∧ PtyProcess.reachable h ∧ PtyProcess.got h = PtyExample.hello ∧
    concat (PtyClientFlow.output_written (PtyClient.hist u)) = PtyProcess.written h.
Proof.
  destruct joined_runs as (t & u & Ht & Hu & Hin & Hout & Hdown & Hup & Hrec).
  destruct agent_process as (h & Hh & Hgot & Hend & Hhist & Hexit). exists t, u, h. split; [exact Ht|]. split; [exact Hh|]. split; [exact Hgot|].
  assert (Hex : exits_logged (hist (world t)) = [(mk_ExitInfo 0 0, None)]).
  { pose proof session_exits as Hx. rewrite Ht in Hx. by injection Hx. }
  refine (proj1 (proj2 (proj2 (proj2 (proj2 (agent_end_to_end _ _ _ t u h (PtyExample_reachable _ _ Ht)
    (PtyClientFlow.run_client_reachable _ _ _ Hu) eq_refl _ Hh _))) 0%Z 0%Z _)) Hend _).
  - split.
    + intros f Hf. rewrite Hup. injection Hf as <-. reflexivity.
    + rewrite Hup, Hin. reflexivity.
    + eexists. split; [exact Hrec|]. rewrite Hdown. reflexivity.
  - split.
    + rewrite Hout, Hgot. reflexivity.
    + intros _. rewrite Hend. discriminate.
    + intros info err Hlog. assert (Hx : (info, err) ∈ exits_logged (hist (world t))).
      { apply list_elem_of_omap. exists (PTYExited info err). by split. }
      rewrite Hex in Hx. apply list_elem_of_singleton in Hx as [= -> ->]. unfold PtyProcess.Wait. by rewrite Hexit.
  - rewrite Hrec. reflexivity.
  - unfold PtyProcess.killed. rewrite Hhist. by intros ?%Exists_nil.
Defined.
