(* ===== verification/OsFs.v ===== *)
(** * What the daemon asks of the operating system

    The functions of package [os] that the syncer calls are system calls; the
    file system behind them is not part of the program.  A call is a value of
    [syscall], and the class [FileSystem] has the state of the file system and
    the effect and result of every call; nothing is assumed of it, so other
    processes may change files between two calls.  The class [Quiet] says that
    they do not: a call that only looks leaves the state as it is.

    The handlers run in a small state monad, whose state also has the locks
    the request holds, the record of its own writes and a trace of the calls
    made, each with the locks and the record of that moment.  [hoare] is the
    logic the handlers are verified in: what is true of every call made and of
    the result. *)
From S2P Require Import Prelude GoPath Safepath.
From stdpp Require Import options.

(** [error] as the handlers use it: its text, and whether it
    [errors.Is(err, fs.ErrNotExist)]. *)
Record os_error : Type := mk_os_error { error_text : string; not_exist : bool }.

#[export] Instance os_error_eq_dec : EqDecision os_error.
Proof. solve_decision. Defined.

(** [fs.FileInfo]: [Size], [ModTime().Unix()], [IsDir], [Mode()&ModeSymlink != 0]
    and [Mode().Perm()]. *)
Record OsInfo : Type := mk_OsInfo {
  i_size : Z;
  i_mtime : Z;
  i_is_dir : bool;
  i_symlink : bool;
  i_perm : Z;
}.

#[export] Instance OsInfo_eq_dec : EqDecision OsInfo.
Proof. solve_decision. Defined.

(** What [filepath.WalkDir] finds below an entry: the entry's name, whether it
    is a directory, what [d.Info()] answers, and for a directory the entries
    [ReadDir] returns, with its error. *)
Inductive dtree : Type :=
  | DNode (name : string) (is_dir : bool) (info : result os_error OsInfo)
          (entries : list dtree) (read_err : option os_error).

Definition d_is_dir (d : dtree) : bool := match d with DNode _ b _ _ _ => b end.
Definition d_info (d : dtree) : result os_error OsInfo := match d with DNode _ _ i _ _ => i end.

Definition dname (d : dtree) : string := match d with DNode n _ _ _ _ => n end.
Definition dentries (d : dtree) : list dtree := match d with DNode _ _ _ es _ => es end.

Lemma dtree_nested_ind (P : dtree → Prop) :
  (∀ n b i es r, (∀ d, d ∈ es → P d) → P (DNode n b i es r)) → ∀ d, P d.
Proof.
  intros HP. fix IH 1. intros [n b i es r]. apply HP.
  induction es as [|d es IHes]; intros d' Hd'.
  - exfalso. clear IH. by apply not_elem_of_nil in Hd'.
  - apply elem_of_cons in Hd' as [->|Hd']; [apply IH|]. clear IH. by apply IHes.
Qed.

Inductive syscall : Type :=
  | SLstat (path : string)
  | SStat (path : string)
  | SReadlink (path : string)
  | SEvalSymlinks (path : string)
  | SReadFile (path : string)
  | SReadDir (path : string)
  | SWalkDir (path : string)
  | SOpenWrite (path : string) (append : bool) (mode : Z)
  | SWrite (fd : nat) (content : bytes)
  | SWriteAt (fd : nat) (content : bytes) (offset : Z)
  | SClose (fd : nat)
  | SMkdir (path : string) (mode : Z)
  | SMkdirAll (path : string) (mode : Z)
  | SRemove (path : string)
  | SRename (old new : string)
  | STruncate (path : string) (size : Z).

Definition ret (s : syscall) : Type :=
  match s with
  | SLstat _ | SStat _ => OsInfo
  | SReadlink _ | SEvalSymlinks _ => string
  | SReadFile _ => bytes
  | SReadDir _ => list (string * result os_error OsInfo)
  | SWalkDir _ => dtree
  | SOpenWrite _ _ _ => nat
  | _ => unit
  end.

(** The calls that can change the file system. *)
Definition mutates (s : syscall) : bool :=
  match s with
  | SLstat _ | SStat _ | SReadlink _ | SEvalSymlinks _ | SReadFile _ | SReadDir _ | SWalkDir _ => false
  | _ => true
  end.

(** The calls that reach the contents of a file or directory by its path. *)
Definition data_paths (s : syscall) : list string :=
  match s with
  | SReadFile p | SReadDir p | SWalkDir p | SOpenWrite p _ _ | SMkdir p _ | SMkdirAll p _
  | SRemove p | STruncate p _ => [p]
  | SRename p q => [p; q]
  | _ => []
  end.

Class FileSystem := {
  World : Type;
  do_call : ∀ s : syscall, World → World * result os_error (ret s);
}.

Class Quiet `{FileSystem} : Prop :=
  do_call_readonly s w : mutates s = false → fst (do_call s w) = w.

(** [%q] of a path in an error message: [strconv.Quote]. *)
Class Quoting := quote : string → string.

Section monad.
Context `{FileSystem}.

Record Env : Type := mk_Env {
  world : World;
  held : list string;                    (* the lock keys this request holds *)
  remembered : list (list string);       (* the calls of selfWrites.Remember *)
  trace : list (syscall * list string * list (list string));
}.

Definition M (A : Type) : Type := Env → Env * A.

#[global] Instance M_ret : MRet M := λ A a e, (e, a).
#[global] Instance M_bind : MBind M := λ A B f m e, let '(e, a) := m e in f a e.
#[global] Instance M_fmap : FMap M := λ A B f m, m ≫= λ a, mret (f a).

(** A system call. *)
Definition call (s : syscall) : M (result os_error (ret s)) := λ e,
  let '(w, r) := do_call s (world e) in
  (mk_Env w (held e) (remembered e) (trace e ++ [(s, held e, remembered e)]), r).

Definition remember (paths : list string) : M unit := λ e,
  (mk_Env (world e) (held e) (remembered e ++ [paths]) (trace e), tt).

(** The keys [LockMany(paths...)] takes, in this order: the paths with forward
    slashes, each once. *)
Definition lock_keys (paths : list string) : list string :=
  sort_strings (foldl (λ keys path,
    let key := ToSlash path in if decide (key ∈ keys) then keys else keys ++ [key]) [] paths).

Lemma lock_keys_fold paths acc :
  NoDup acc →
  let keys := foldl (λ keys path,
    let key := ToSlash path in if decide (key ∈ keys) then keys else keys ++ [key]) acc paths in
  NoDup keys ∧ ∀ k, k ∈ keys ↔ k ∈ acc ∨ k ∈ ToSlash <$> paths.
Proof.
  revert acc. induction paths as [|p paths IH]; intros acc Hacc; [split; [done|set_solver]|].
  cbn [foldl]. cbv zeta. destruct (decide (ToSlash p ∈ acc)) as [Hin|Hin].
  - destruct (IH acc Hacc) as [Hnd Hk]. split; [done|]. intros k. rewrite Hk, fmap_cons, elem_of_cons.
    naive_solver.
  - destruct (IH (acc ++ [ToSlash p])) as [Hnd Hk].
    { apply NoDup_app. split_and!; [done| |apply NoDup_singleton]. intros x Hx ->%list_elem_of_singleton. done. }
    split; [done|]. intros k. rewrite Hk, fmap_cons, elem_of_cons, elem_of_app, list_elem_of_singleton. tauto.
Qed.

Lemma elem_of_lock_keys p paths : p ∈ paths → ToSlash p ∈ lock_keys paths.
Proof.
  intros Hp. unfold lock_keys, sort_strings. rewrite merge_sort_Permutation.
  apply lock_keys_fold; [constructor|]. right. by apply list_elem_of_fmap_2.
Qed.

(** [unlock := locker.LockMany(paths...); defer unlock()] around the rest of
    the handler; how the locks are taken and released is in Locker. *)
Definition with_locks {A} (paths : list string) (body : M A) : M A := λ e,
  let keys := lock_keys paths in
  let '(e', a) := body (mk_Env (world e) (held e ++ keys) (remembered e) (trace e)) in
  (mk_Env (world e') (held e) (remembered e') (trace e'), a).

(** [x, err := m; if err != nil { return ..., err }] *)
Definition try {E A B} (m : M (result E A)) (k : A → M (result E B)) : M (result E B) :=
  m ≫= λ r, match r with Ok a => k a | Err e => mret (Err e) end.

(** ** What holds of every run *)

(** The locks held and the record of own writes. *)
Definition ctx : Type := list string * list (list string).
Definition ctx_of (e : Env) : ctx := (held e, remembered e).
Definition entry : Type := syscall * list string * list (list string).

(** The record of own writes grows from [rm] to [rm'], and what it was at the
    calls [t] made on the way is still in it. *)
Definition grows (rm rm' : list (list string)) (t : list entry) : Prop :=
  rm `prefix_of` rm' ∧ Forall (λ x, snd x `prefix_of` rm') t.

Lemma grows_refl rm : grows rm rm [].
Proof. by split. Qed.

Lemma grows_app rm rm1 rm2 t1 t2 : grows rm rm1 t1 → grows rm1 rm2 t2 → grows rm rm2 (t1 ++ t2).
Proof.
  intros [H1 Ht1] [H2 Ht2]. split; [by etrans|]. apply Forall_app. split; [|done].
  eapply Forall_impl; [exact Ht1|]. intros x Hx. etrans; [exact Hx|exact H2].
Qed.

(** Started in a context where [P] holds, [m] makes only calls where [Q] holds,
    and ends with a context and a result where [R] holds. *)
Definition hoare {A} (P : ctx → Prop) (Q : entry → Prop) (m : M A) (R : ctx → A → Prop) : Prop :=
  ∀ e, P (ctx_of e) →
    R (ctx_of (fst (m e))) (snd (m e)) ∧
    ∃ t, trace (fst (m e)) = trace e ++ t ∧ Forall Q t ∧ grows (remembered e) (remembered (fst (m e))) t.

Lemma hoare_ret {A} (P : ctx → Prop) Q (a : A) (R : ctx → A → Prop) :
  (∀ c, P c → R c a) → hoare P Q (mret a) R.
Proof. intros HR e HP. split; [by apply HR|]. exists []. rewrite app_nil_r. do 2 (split; [done|]). apply grows_refl. Qed.

Lemma hoare_bind {A B} P Q (m : M A) (f : A → M B) (R : ctx → A → Prop) R' :
  hoare P Q m R → (∀ a, hoare (λ c, R c a) Q (f a) R') → hoare P Q (m ≫= f) R'.
Proof.
  intros Hm Hf e HP. unfold mbind, M_bind. destruct (Hm e HP) as (HR & t1 & Ht1 & HQ1 & Hg1).
  destruct (m e) as [e1 a]. simpl in *. destruct (Hf a e1 HR) as (HR' & t2 & Ht2 & HQ2 & Hg2).
  split; [done|]. exists (t1 ++ t2). rewrite Ht2, Ht1, app_assoc.
  split; [done|]. split; [by apply Forall_app|by eapply grows_app].
Qed.

Lemma hoare_conseq {A} (P P' : ctx → Prop) (Q Q' : entry → Prop) (m : M A) (R R' : ctx → A → Prop) :
  hoare P' Q' m R' →
  (∀ c, P c → P' c) → (∀ x, Q' x → Q x) → (∀ c a, R' c a → R c a) → hoare P Q m R.
Proof.
  intros Hm HP HQ HR e He. destruct (Hm e (HP _ He)) as (Hr & t & Ht & Hq & Hg).
  split; [by apply HR|]. exists t. split; [done|]. split; [by eapply Forall_impl|done].
Qed.

(** What the context says of the past can be used as a hypothesis. *)
Lemma hoare_pure {A} (P P' : ctx → Prop) (φ : Prop) Q (m : M A) R :
  (∀ c, P' c → P c ∧ φ) → (φ → hoare P Q m R) → hoare P' Q m R.
Proof. intros HP Hm e He. destruct (HP _ He). by apply Hm. Qed.

Lemma hoare_try {E A B} P Q (m : M (result E A)) (k : A → M (result E B)) (R : ctx → result E A → Prop) R' :
  hoare P Q m R →
  (∀ a, hoare (λ c, R c (Ok a)) Q (k a) R') → (∀ c e, R c (Err e) → R' c (Err e)) →
  hoare P Q (try m k) R'.
Proof.
  intros Hm Hk He. eapply hoare_bind; [exact Hm|]. intros [a|e]; [apply Hk|]. apply hoare_ret. auto.
Qed.

Lemma hoare_call P (Q : entry → Prop) s :
  (∀ h rm, P (h, rm) → Q (s, h, rm)) → hoare P Q (call s) (λ c _, P c).
Proof.
  intros HQ e HP. unfold call. destruct (do_call s (world e)) as [w r]. simpl. split; [done|].
  eexists. split; [done|]. split; [|by repeat constructor]. constructor; [|done]. by apply HQ.
Qed.

Lemma hoare_remember (P : ctx → Prop) Q paths (R : ctx → unit → Prop) :
  (∀ h rm, P (h, rm) → R (h, rm ++ [paths]) tt) → hoare P Q (remember paths) R.
Proof.
  intros HR e HP. simpl. split; [by apply HR|]. exists []. rewrite app_nil_r.
  do 2 (split; [done|]). split; [by apply prefix_app_r|done].
Qed.

Lemma hoare_locks {A} (P : ctx → Prop) Q paths (body : M A) h0 (R : ctx → A → Prop) :
  (∀ c, P c → fst c = h0) →
  hoare (λ c, fst c = h0 ++ lock_keys paths ∧ P (h0, snd c)) Q body (λ c a, R (h0, snd c) a) →
  hoare P Q (with_locks paths body) R.
Proof.
  intros Hh Hb e HP. unfold with_locks. specialize (Hb (mk_Env (world e) (held e ++ lock_keys paths) (remembered e) (trace e))).
  pose proof (Hh _ HP) as Hheld. simpl in Hheld. subst h0.
  destruct (body _) as [e' a]. unfold ctx_of in *. simpl in *. by apply Hb.
Qed.

(** A computation that makes no call that can change a file. *)
Definition looks {A} (m : M A) : Prop :=
  hoare (λ _, True) (λ '(s, _, _), mutates s = false ∧ data_paths s = []) m (λ _ _, True).
End monad.
Arguments M {_} A.
Arguments Env {_}.

Notation "x ←? m ; k" := (try m (λ x, k))
  (at level 20, m at level 100, k at level 200, right associativity) : go_scope.

(** ** [filepath.WalkDir] *)

(** What a callback answers: go on, [fs.SkipDir], or another error. *)
Inductive walked (E : Type) : Type := WOk | WSkipDir | WErr (e : E).
Arguments WOk {E}.
Arguments WSkipDir {E}.
Arguments WErr {E} e.

Section walk.
Context {St E : Type} (fn : St → string → dtree → option os_error → St * walked E).

Fixpoint walkDir (path : string) (d : dtree) (st : St) {struct d} : St * walked E :=
  let '(st, r) := fn st path d None in
  match d with
  | DNode _ is_dir _ entries read_err =>
    match r with
    | WErr e => (st, WErr e)
    | WSkipDir => (st, if is_dir then WOk else WSkipDir)
    | WOk =>
      if negb is_dir then (st, WOk)
      else
        let walk_entries := fix go (ds : list dtree) (st : St) : St * walked E :=
          match ds with
          | [] => (st, WOk)
          | d1 :: ds' =>
            match walkDir (filepath_join [path; dname d1]) d1 st with
            | (st, WErr e) => (st, WErr e)
            | (st, WSkipDir) => (st, WOk)
            | (st, WOk) => go ds' st
            end
          end in
        match read_err with
        | None => walk_entries entries st
        | Some err =>
          match fn st path d (Some err) with
          | (st, WErr e) => (st, WErr e)
          | (st, WSkipDir) => (st, WOk)
          | (st, WOk) => walk_entries entries st
          end
        end
    end
  end.

(** The loop over the entries of a directory. *)
Fixpoint walkEntries (path : string) (ds : list dtree) (st : St) : St * walked E :=
  match ds with
  | [] => (st, WOk)
  | d1 :: ds' =>
    match walkDir (filepath_join [path; dname d1]) d1 st with
    | (st, WErr e) => (st, WErr e)
    | (st, WSkipDir) => (st, WOk)
    | (st, WOk) => walkEntries path ds' st
    end
  end.

Lemma walkDir_eq path n is_dir i entries read_err st :
  let d := DNode n is_dir i entries read_err in
  walkDir path d st =
  match fn st path d None with
  | (st, WErr e) => (st, WErr e)
  | (st, WSkipDir) => (st, if is_dir then WOk else WSkipDir)
  | (st, WOk) =>
    if negb is_dir then (st, WOk)
    else
      match read_err with
      | None => walkEntries path entries st
      | Some err =>
        match fn st path d (Some err) with
        | (st, WErr e) => (st, WErr e)
        | (st, WSkipDir) => (st, WOk)
        | (st, WOk) => walkEntries path entries st
        end
      end
  end.
Proof.
  cbv zeta. cbn [walkDir]. destruct (fn st path _ None) as [st1 [| |e]]; [|done..].
  destruct is_dir; [|done]. cbn [negb].
  assert (Hgo : ∀ st, (fix go (ds : list dtree) (st : St) : St * walked E :=
      match ds with
      | [] => (st, WOk)
      | d1 :: ds' =>
        match walkDir (filepath_join [path; dname d1]) d1 st with
        | (st, WErr e) => (st, WErr e)
        | (st, WSkipDir) => (st, WOk)
        | (st, WOk) => go ds' st
        end
      end) entries st = walkEntries path entries st).
  { induction entries as [|d1 ds IH]; intros st'; [done|]. cbn [walkEntries].
    destruct (walkDir _ d1 st') as [st2 [| |]]; [apply IH|done..]. }
  destruct read_err as [err|]; [|apply Hgo].
  destruct (fn st1 path _ (Some err)) as [st2 [| |]]; [apply Hgo|done..].
Qed.

(** [filepath.WalkDir(root, fn)], from what [os.Lstat] and the directories
    below answer. *)
Definition WalkDir (root : string) (d : dtree) (st : St) : St * walked E :=
  match walkDir root d st with
  | (st, WSkipDir) => (st, WOk)
  | p => p
  end.
End walk.

(** ** Calls that only look, when nothing else changes the files *)

Section quiet.
Context `{FileSystem}.

Definition look (w : World) (s : syscall) : result os_error (ret s) := snd (do_call s w).

(** Started when the files are [w], [m] leaves them so and answers as [R] says. *)
Definition asks {A} (w : World) (m : M A) (R : A → Prop) : Prop :=
  ∀ e, world e = w → world (fst (m e)) = w ∧ R (snd (m e)).

Lemma asks_ret {A} w (a : A) (R : A → Prop) : R a → asks w (mret a) R.
Proof. intros HR e <-. done. Qed.

Lemma asks_bind {A B} w (m : M A) (f : A → M B) (R : A → Prop) R' :
  asks w m R → (∀ a, R a → asks w (f a) R') → asks w (m ≫= f) R'.
Proof.
  intros Hm Hf e He. unfold mbind, M_bind. destruct (Hm e He) as [Hw HR].
  destruct (m e) as [e1 a]. by apply (Hf a).
Qed.

Lemma asks_try {E A B} w (m : M (result E A)) (k : A → M (result E B)) R R' :
  asks w m R → (∀ a, R (Ok a) → asks w (k a) R') → (∀ e, R (Err e) → R' (Err e)) →
  asks w (try m k) R'.
Proof.
  intros Hm Hk He. eapply asks_bind; [exact Hm|]. intros [a|e] HR; [by apply Hk|].
  apply asks_ret. auto.
Qed.

Lemma asks_try_ret {E A B} w (a : A) (k : A → M (result E B)) R' :
  asks w (k a) R' → asks w (try (mret (Ok a)) k) R'.
Proof. done. Qed.

Lemma asks_call `{!Quiet} w s : mutates s = false → asks w (call s) (λ r, r = look w s).
Proof.
  intros Hs e <-. unfold call, look. pose proof (do_call_readonly s (world e) Hs).
  by destruct (do_call s (world e)).
Qed.

Lemma asks_conseq {A} w (m : M A) (R R' : A → Prop) :
  asks w m R → (∀ a, R a → R' a) → asks w m R'.
Proof. intros Hm HR e He. destruct (Hm e He). auto. Qed.

Lemma asks_and {A} w (m : M A) (R R' : A → Prop) :
  asks w m R → asks w m R' → asks w m (λ a, R a ∧ R' a).
Proof. intros H1 H2 e He. destruct (H1 e He), (H2 e He). auto. Qed.
End quiet.

(** ** A small file system for the examples

    Files, directories and links by their absolute path; only the calls the
    examples make do something. *)
Module Toy.
Inductive tnode : Type := TFile (content : bytes) | TDir | TLink (target : string).

Definition world : Type := list (string * tnode).

Definition enoent : os_error := mk_os_error "no such file or directory" true.
Definition find (w : world) (p : string) : option tnode :=
  (λ r, snd (snd r)) <$> list_find (λ x, fst x = p) w.
Definition info (n : tnode) : OsInfo :=
  match n with
  | TFile c => mk_OsInfo (Z.of_nat (length c)) 0 false false 420
  | TDir => mk_OsInfo 0 0 true false 493
  | TLink _ => mk_OsInfo 0 0 false true 511
  end.
(** The entries of directory [p], in the order of [w]. *)
Definition children (w : world) (p : string) : list (string * result os_error OsInfo) :=
  omap (λ '(q, n), if decide (path_dir q = p) then Some (path_base q, Ok (info n)) else None) w.

Definition do (s : syscall) (w : world) : world * result os_error (OsFs.ret s) :=
  match s as s return world * result os_error (OsFs.ret s) with
  | SLstat p => (w, match find w p with Some n => Ok (info n) | None => Err enoent end)
  | SStat p => (w, match find w p with Some n => Ok (info n) | None => Err enoent end)
  | SReadlink p => (w, match find w p with Some (TLink t) => Ok t | _ => Err enoent end)
  | SEvalSymlinks p => (w, Ok p)
  | SReadFile p => (w, match find w p with Some (TFile c) => Ok c | _ => Err enoent end)
  | SReadDir p => (w, Ok (children w p))
  | SWalkDir p => (w, match find w p with
      | Some n => Ok (DNode (path_base p) (i_is_dir (info n)) (Ok (info n))
                        ((λ '(q, i), DNode q false i [] None) <$> children w p) None)
      | None => Err enoent end)
  | SOpenWrite p _ _ => (w, Ok 0)
  | SWrite _ _ => (w, Ok tt)
  | SWriteAt _ _ _ => (w, Ok tt)
  | SClose _ => (w, Ok tt)
  | SMkdir p _ => (w ++ [(p, TDir)], Ok tt)
  | SMkdirAll p _ => (w ++ [(p, TDir)], Ok tt)
  | SRemove p => (filter (λ x, fst x ≠ p) w, match find w p with Some _ => Ok tt | None => Err enoent end)
  | SRename p q => (((λ '(x, n), (if decide (x = p) then q else x, n)) <$> w), Ok tt)
  | STruncate p n => (w, Ok tt)
  end.

#[global] Instance fs : FileSystem := {| World := world; do_call := do |}.
#[global] Instance quiet : Quiet.
Proof. by intros [] w. Qed.
#[global] Instance quoting : Quoting := λ s, String "034" (s +:+ String "034" "").

Definition start (w : world) : Env := mk_Env (H := fs) w [] [] [].
End Toy.
