(* ===== verification/Sensitive.v ===== *)
(** * Sensitive paths (pkg/syncer/sensitive_filter.go)

    The filter that keeps credentials out of what the daemon shows.  The glob
    matching is done by the doublestar package; what it answers is the class
    [Doublestar]. *)
From S2P Require Import Prelude GoPath PathFacts Safepath RelPath.
From stdpp Require Import options.

Class Doublestar := {
  ValidatePattern : string → bool;
  MatchUnvalidated : string → string → bool;
  DoublestarMatch : string → string → result unit bool;
}.

Inductive error : Type := ErrInvalidSensitivePattern (raw : string).

Definition defaultSensitivePatterns : list string :=
  [".env"; ".env.*"; "*.pem"; "*.key"; "*.p12"; "*.pfx"; "*.crt"; "*.cer"; "*.p8";
   "id_rsa"; "id_dsa"; "id_ecdsa"; "id_ed25519"; "*_secret"; "*_secret.*"].

Record SensitiveFilter : Type := mk_filter { patterns : list string }.

Definition normalizePattern (pattern : string) : string :=
  replace_byte bslash slash (trim_space pattern).

Definition normalizeRelativePath (relPath : string) : string :=
  let relPath := ToSlash relPath in
  if bool_decide (relPath = "") || bool_decide (relPath = ".") || bool_decide (relPath = "/") then ""
  else
    let cleaned := trim_prefix "/" (path_clean relPath) in
    if decide (cleaned = ".") then "" else cleaned.

(** [for parent := path.Dir(relPath); parent != "." && ...; parent = path.Dir(parent)]:
    a parent has one element less. *)
Fixpoint parents_from (fuel : nat) (relPath parent : string) : list string :=
  match fuel with
  | 0 => []
  | S f =>
    if bool_decide (parent = ".") || bool_decide (parent = "/") || bool_decide (parent = relPath) then []
    else parent :: parents_from f relPath (path_dir parent)
  end.

Definition pathCandidates (relPath : string) : list string :=
  relPath :: parents_from (length (split_slash relPath)) relPath (path_dir relPath).

Section filter.
Context `{Doublestar}.

Definition NewSensitiveFilter (extra : list string) : result error SensitiveFilter :=
  patterns ← foldl (λ acc raw,
      patterns ← acc;
      let pattern := normalizePattern raw in
      if bool_decide (pattern = "") || negb (ValidatePattern pattern)
      then Err (ErrInvalidSensitivePattern raw) else Ok (patterns ++ [pattern]))
    (Ok defaultSensitivePatterns) extra;
  Ok (mk_filter patterns).

Definition matchSensitivePattern (candidate pattern : string) : bool :=
  let target := if contains "/" pattern then candidate else path_base candidate in
  if MatchUnvalidated pattern target then true
  else if contains "/" pattern && has_suffix "/**" pattern
       then bool_decide (candidate = trim_suffix "/**" pattern)
       else false.

Definition Match (f : option SensitiveFilter) (relPath : string) : bool :=
  match f with
  | None => false
  | Some f =>
    match patterns f with
    | [] => false
    | _ =>
      let relPath := normalizeRelativePath relPath in
      if decide (relPath = "") then false
      else existsb (λ candidate, existsb (matchSensitivePattern candidate) (patterns f))
             (pathCandidates relPath)
    end
  end.

(** [isSensitivePath] of handle.go *)
Definition isSensitivePath (f : option SensitiveFilter) (relPath : string) : bool :=
  match f with Some _ => Match f relPath | None => false end.
End filter.

(** ** The candidates are the path and its ancestors *)

Lemma sensitive_normalize_normal_form p : normalizeRelativePath p = normal_form p.
Proof.
  unfold normalizeRelativePath.
  destruct (decide (p = "")) as [->|Hp]; [done|]. rewrite <-normal_form_clean by done.
  do 3 (let E := fresh in case_bool_decide as E; [rewrite E; vm_compute; reflexivity|]).
  reflexivity.
Qed.

(** The elements of a normal form can be cleaned again without change. *)
Definition normal_elems (l : list string) : Prop := ok_stack false (reverse l).

Lemma normal_elems_clean p : normal_elems (clean_elems p).
Proof.
  destruct (clean_elems_split p) as (n & g & -> & Hg). unfold normal_elems.
  rewrite reverse_app, reverse_replicate. apply ok_stack_split.
  exists n, (reverse g). split_and!; [done|by apply Forall_reverse|done].
Qed.

Lemma normal_elems_rel l : normal_elems l → Forall rel_seg l.
Proof.
  intros (n & g & Hl & Hg & _)%ok_stack_split. rewrite <-(reverse_involutive l), Hl.
  apply Forall_reverse, Forall_app. split; [auto with go|]. by apply Forall_replicate.
Qed.

Lemma normal_elems_snoc l x : normal_elems (l ++ [x]) → normal_elems l.
Proof.
  unfold normal_elems. rewrite reverse_app. simpl. intros (n & g & Hl & Hg & Hn)%ok_stack_split.
  apply ok_stack_split. destruct g as [|y g].
  - destruct n as [|n]; [done|]. simpl in Hl. injection Hl as -> Hl. by exists n, [].
  - simpl in Hl. injection Hl as -> Hl. apply Forall_cons in Hg as [_ Hg]. by exists n, g.
Qed.

Lemma path_dir_snoc l x :
  normal_elems (l ++ [x]) →
  path_dir (join_slash (l ++ [x])) = if decide (l = []) then "." else join_slash l.
Proof.
  intros Hn. pose proof (normal_elems_rel _ Hn) as Hrel.
  apply Forall_app in Hrel as [Hl Hx]. apply Forall_cons in Hx as [(Hx0&Hxd&Hxs) _].
  unfold path_dir. destruct (decide (l = [])) as [->|Hne].
  - simpl. by rewrite (proj2 (cut_last_slash_None x) Hxs).
  - rewrite join_slash_app by done. change (join_slash [x]) with x.
    rewrite cut_last_slash_app by done. unfold path_clean.
    assert (Hj : join_slash l ≠ "") by (intros ?%join_slash_nil; auto with go).
    rewrite (decide_False (P := join_slash l +:+ "/" = "")) by by intros [? _]%str_app_nil.
    assert (Hs : split_slash (join_slash l +:+ "/") = l ++ [""]).
    { change ("/") with ("/" +:+ ""). rewrite split_slash_app, split_join by auto with go. done. }
    assert (Hr : has_prefix "/" (join_slash l +:+ "/") = false).
    { destruct l as [|y l]; [done|]. apply Forall_cons in Hl as [(Hy0&_&Hys) _].
      destruct y as [|c y]; [done|]. apply not_true_iff_false. intros [r Hr]%has_prefix_spec.
      simpl in Hys. apply orb_false_elim in Hys as [Hc _]. apply bool_decide_eq_false in Hc.
      apply Hc. rewrite slash_app in Hr.
      destruct l; simpl in Hr; rewrite ?str_app_cons in Hr; by injection Hr. }
    rewrite Hr, Hs, resolve_app.
    rewrite (resolve_clean false l) by by apply normal_elems_snoc in Hn.
    simpl. rewrite reverse_involutive. by rewrite (decide_False (P := join_slash l = "")).
Qed.

(** The nonempty prefixes of a list of elements, longest first. *)
Fixpoint ancestors (l : list string) : list (list string) :=
  match l with
  | [] => []
  | x :: l' => ((x ::.) <$> ancestors l') ++ [[x]]
  end.

Lemma ancestors_snoc l x : ancestors (l ++ [x]) = (l ++ [x]) :: ancestors l.
Proof. induction l as [|y l IH]; [done|]. simpl. by rewrite IH. Qed.

Lemma elem_of_ancestors l k : k ∈ ancestors l ↔ k ≠ [] ∧ k `prefix_of` l.
Proof.
  induction l as [|x l IH] using rev_ind.
  - simpl. split; [by intros ?%not_elem_of_nil|]. by intros [? ?%prefix_nil_inv].
  - rewrite ancestors_snoc, elem_of_cons, IH. split.
    + intros [->|[? ?]]; [split; [by destruct l|done]|]. split; [done|by apply prefix_app_r].
    + intros [Hk [r Hr]]. destruct r as [|y r _] using rev_ind.
      * left. by rewrite app_nil_r in Hr.
      * right. split; [done|]. rewrite app_assoc in Hr. apply app_inj_tail in Hr as [-> _].
        by exists r.
Qed.

Lemma parents_from_ancestors l q f :
  normal_elems l → normal_elems q → length l < length q → length l ≤ f →
  parents_from f (join_slash q) (if decide (l = []) then "." else join_slash l)
  = join_slash <$> ancestors l.
Proof.
  revert l. induction f as [|f IH]; intros l Hl Hq Hlt Hf.
  - destruct l; [done|]. simpl in Hf. lia.
  - destruct l as [|x l _] using rev_ind; [done|].
    rewrite (decide_False (P := l ++ [x] = [])) by by destruct l.
    cbn [parents_from]. pose proof (normal_elems_rel _ Hl) as Hrel.
    pose proof (join_rel_dot _ Hrel) as Hdot.
    assert (Hroot : join_slash (l ++ [x]) ≠ "/").
    { intros E. apply (f_equal split_slash) in E. rewrite split_join in E; [|by destruct l|by auto with go].
      change (split_slash "/") with [""; ""] in E. rewrite E in Hrel.
      by apply Forall_cons in Hrel as [(?&_) _]. }
    assert (Hneq : join_slash (l ++ [x]) ≠ join_slash q).
    { intros E%join_slash_inj; [|by apply rel_seg_ne|by apply rel_seg_ne, normal_elems_rel].
      rewrite E in Hlt. lia. }
    rewrite !bool_decide_eq_false_2 by done. simpl. rewrite ancestors_snoc. simpl. f_equal.
    rewrite path_dir_snoc by done. rewrite length_app in Hlt, Hf. simpl in Hlt, Hf.
    apply IH; [by eapply normal_elems_snoc|done|lia|lia].
Qed.

Lemma pathCandidates_spec p :
  normal_form p ≠ "" → pathCandidates (normal_form p) = join_slash <$> ancestors (clean_elems p).
Proof.
  intros Hp. pose proof (normal_elems_clean p) as Hn. unfold normal_form in *.
  destruct (clean_elems p) as [|x l _] using rev_ind; [done|].
  pose proof (normal_elems_rel _ Hn) as Hrel.
  unfold pathCandidates. rewrite ancestors_snoc. simpl. f_equal.
  rewrite path_dir_snoc by done. rewrite split_join; [|by destruct l|by auto with go].
  apply parents_from_ancestors; [by eapply normal_elems_snoc|done|..];
    rewrite length_app; simpl; lia.
Qed.

Section properties.
Context `{Doublestar}.

Definition pattern_hits (f : SensitiveFilter) (q : string) : Prop :=
  ∃ pattern, pattern ∈ patterns f ∧ matchSensitivePattern q pattern = true.

Lemma Match_spec f p :
  Match (Some f) p = true ↔
  ∃ q, q ≠ "" ∧ under q (normal_form p) ∧ rel_path q ∧ pattern_hits f q.
Proof.
  unfold Match. rewrite sensitive_normalize_normal_form.
  assert (Hany : (∃ q, q ≠ "" ∧ under q (normal_form p) ∧ rel_path q ∧ pattern_hits f q) ↔
    existsb (λ candidate, existsb (matchSensitivePattern candidate) (patterns f))
      (join_slash <$> ancestors (clean_elems p)) = true).
  { rewrite existsb_exists. pose proof (clean_elems_rel p) as Hrel. split.
    - intros (q & Hq & Hu & Hr & pat & Hpat & Hm). exists q. split.
      + apply list_elem_of_In, list_elem_of_fmap. exists (rel_elems q).
        split; [by rewrite join_rel_elems|]. apply elem_of_ancestors.
        split; [by rewrite rel_elems_nil|]. unfold under in Hu. by rewrite rel_elems_normal_form in Hu.
      + apply existsb_exists. exists pat. split; [by apply list_elem_of_In|done].
    - intros (q & Hq%list_elem_of_In & Hm). apply list_elem_of_fmap in Hq as (k & -> & Hk).
      apply elem_of_ancestors in Hk as [Hk0 Hk].
      assert (Hkrel : Forall rel_seg k) by (destruct Hk as [r Hr]; rewrite Hr in Hrel; by apply Forall_app in Hrel as [? _]).
      exists (join_slash k). split_and!.
      + intros ?%join_slash_nil; auto with go.
      + unfold under. by rewrite rel_elems_normal_form, rel_elems_join.
      + unfold rel_path. by rewrite rel_elems_join.
      + apply existsb_exists in Hm as (pat & Hpat & Hm). exists pat.
        split; [by apply list_elem_of_In|done]. }
  rewrite Hany. destruct (patterns f) as [|pat ps] eqn:Hps.
  { split; [done|]. rewrite existsb_exists. by intros (? & _ & ?). }
  destruct (decide (normal_form p = "")) as [Hp|Hp].
  - assert (clean_elems p = []) as ->; [|done].
    by rewrite <-rel_elems_normal_form, Hp.
  - by rewrite pathCandidates_spec.
Qed.

(** The sensitive filter sees the whole path.  A path is sensitive exactly
    when it, or one of the directories it is in, is hit by a pattern, whatever
    the spelling of the path; so everything below a sensitive path is
    sensitive, and the workspace root is not. *)
Theorem sensitive_inherited (f : SensitiveFilter) (p q : string) :
  (Match (Some f) p = true ↔
     ∃ a, a ≠ "" ∧ under a (normal_form p) ∧ rel_path a ∧ pattern_hits f a) ∧
  (normal_form p = normal_form q → Match (Some f) p = Match (Some f) q) ∧
  (Match (Some f) p = true → under (normal_form p) (normal_form q) → Match (Some f) q = true) ∧
  (normal_form p = "" → Match (Some f) p = false).
Proof.
  split_and!.
  - apply Match_spec.
  - intros E. apply eq_bool_prop_intro. rewrite !Is_true_true, !Match_spec. by rewrite E.
  - rewrite !Match_spec. intros (a & Ha & Hu & Hr & Hh) Hpq. exists a. split_and!; [done|by etrans|done..].
  - intros Hp. apply not_true_iff_false. rewrite Match_spec. intros (a & Ha & Hu & _).
    apply Ha. rewrite Hp in Hu. apply under_antisymm; [done|apply under_root].
Qed.

Lemma NewSensitiveFilter_fold extra acc :
  match foldl (λ acc raw,
      patterns ← acc;
      let pattern := normalizePattern raw in
      if bool_decide (pattern = "") || negb (ValidatePattern pattern)
      then Err (ErrInvalidSensitivePattern raw) else Ok (patterns ++ [pattern])) (Ok acc) extra with
  | Ok ps => ps = acc ++ (normalizePattern <$> extra) ∧
      Forall (λ raw, normalizePattern raw ≠ "" ∧ ValidatePattern (normalizePattern raw) = true) extra
  | Err (ErrInvalidSensitivePattern raw) =>
      raw ∈ extra ∧ (normalizePattern raw = "" ∨ ValidatePattern (normalizePattern raw) = false)
  end.
Proof.
  revert acc. induction extra as [|raw extra IH]; intros acc; [by rewrite app_nil_r|]. cbn [foldl].
  cbn [mbind result_bind].
  destruct (bool_decide (normalizePattern raw = "") || negb (ValidatePattern (normalizePattern raw))) eqn:E.
  - assert (Hfix : ∀ l, foldl (λ (acc : result error (list string)) raw,
        patterns ← acc;
        let pattern := normalizePattern raw in
        if bool_decide (pattern = "") || negb (ValidatePattern pattern)
        then Err (ErrInvalidSensitivePattern raw) else Ok (patterns ++ [pattern]))
        (Err (ErrInvalidSensitivePattern raw)) l = Err (ErrInvalidSensitivePattern raw)).
    { induction l; done. }
    rewrite Hfix. split; [set_solver|].
    apply orb_true_iff in E as [E|E]; [left; by apply bool_decide_eq_true in E|right; by apply negb_true_iff].
  - specialize (IH (acc ++ [normalizePattern raw])). destruct (foldl _ _ extra) as [ps|[raw']].
    + destruct IH as [-> IH]. apply orb_false_iff in E as [E1 E2].
      apply bool_decide_eq_false in E1. apply negb_false_iff in E2.
      split; [|by constructor]. rewrite <-app_assoc. done.
    + destruct IH as [? ?]. split; [set_solver|done].
Qed.

(** Building the filter.  It fails exactly when some extra pattern is blank
    or not a valid glob, and names such a pattern; otherwise the built-in
    patterns are all in it, followed by the extra ones, trimmed and with
    forward slashes. *)
Theorem NewSensitiveFilter_spec (extra : list string) :
  match NewSensitiveFilter extra with
  | Ok f => patterns f = defaultSensitivePatterns ++ (normalizePattern <$> extra) ∧
      Forall (λ raw, normalizePattern raw ≠ "" ∧ ValidatePattern (normalizePattern raw) = true) extra
  | Err (ErrInvalidSensitivePattern raw) =>
      raw ∈ extra ∧ (normalizePattern raw = "" ∨ ValidatePattern (normalizePattern raw) = false)
  end.
Proof.
  unfold NewSensitiveFilter. pose proof (NewSensitiveFilter_fold extra defaultSensitivePatterns) as Hf.
  destruct (foldl _ _ extra) as [ps|[raw]]; exact Hf.
Qed.
End properties.

(** A glob that is a literal, and a star in front of one: enough for the
    examples. *)
Module ToyGlob.
Definition glob (pattern target : string) : bool :=
  match pattern with
  | String "*" suffix => has_suffix suffix target
  | _ => bool_decide (pattern = target)
  end.
#[global] Instance doublestar : Doublestar :=
  {| ValidatePattern _ := true; MatchUnvalidated := glob; DoublestarMatch p t := Ok (glob p t) |}.
Definition filter : option SensitiveFilter := Some (mk_filter defaultSensitivePatterns).
End ToyGlob.
