(* ===== verification/PathResolution.v ===== *)
(** * What a workspace path really names (pkg/syncer/path_resolution.go, workspace.go)

    Before a request touches a file, the daemon follows the symbolic links on
    the way to it and asks the sensitive filter about the place they lead to.
    The section [quiet] shows what the walk finds when no other process
    changes the files meanwhile. *)
From S2P Require Import Prelude GoPath PathFacts Safepath RelPath OsFs Sensitive.
From stdpp Require Import options.

Definition maxSymlinkResolveDepth : nat := 40.

Record pathResolutionOptions : Type := mk_pathResolutionOptions {
  allowMissingLeaf : bool;
  followFinalSymlink : bool;
}.

(** The text of the errors of package safepath. *)
Definition safepath_text (e : Safepath.error) : string :=
  match e with
  | ErrEmptyPath => "safepath: empty path"
  | ErrAbsoluteRel => "safepath: relative path must not be absolute"
  | ErrEscape => "safepath: path escapes base"
  | ErrBaseNotAbs => "safepath: base must be absolute"
  | ErrUnsafeSegment => "safepath: unsafe path segment"
  end.
Definition safepath_error (e : Safepath.error) : os_error := mk_os_error (safepath_text e) false.

(** ** Operations *)

Definition resolveWorkspacePath (root rel : string) : result os_error string :=
  if bool_decide (rel = "") || bool_decide (rel = ".") || bool_decide (rel = "/") then Ok root
  else map_err safepath_error (Join root rel).

Definition splitAbsPath (abs : string) : string * list string :=
  let cleaned := path_clean abs in
  let rest := trim_prefix "/" cleaned in
  if decide (rest = "") then ("/", []) else ("/", split_slash rest).

(** The text of the error of [filepath.Rel]. *)
Definition rel_error (base targ : string) : os_error :=
  mk_os_error ("Rel: can't make " +:+ targ +:+ " relative to " +:+ base) false.

Definition joinRelPath (parent base : string) : string :=
  let parent := ToSlash parent in
  if bool_decide (parent = "") || bool_decide (parent = ".") then base
  else parent +:+ "/" +:+ base.

Section operations.
Context `{FileSystem} `{Quoting} `{Doublestar}.

Definition lstatActionPath (path : string) (isLeaf allowMissingLeaf : bool)
    : M (result os_error (option OsInfo)) :=
  r ← call (SLstat path);
  match r with
  | Ok info => mret (Ok (Some info))
  | Err err =>
    if allowMissingLeaf && isLeaf && not_exist err then mret (Ok None) else mret (Err err)
  end.

(** [idx < total-1]: there are parts after this one *)
Definition shouldFollowSymlink (info : OsInfo) (last followFinal : bool) : bool :=
  i_symlink info && (followFinal || negb last).

Definition expandSymlinkTarget (path : string) (remaining : list string) : M (result os_error string) :=
  target ←? call (SReadlink path);
  let target := if is_abs target then target else filepath_join [path_dir path; target] in
  match remaining with
  | [] => mret (Ok target)
  | _ => mret (Ok (filepath_join [target; filepath_join remaining]))
  end.

(** The loop over the parts: [inl] is the resolved path, [inr] the path to
    start again from. *)
Fixpoint pass_loop (opts : pathResolutionOptions) (resolved : string) (parts : list string)
    : M (result os_error (string + string)) :=
  match parts with
  | [] => mret (Ok (inl resolved))
  | part :: rest =>
    let next := filepath_join [resolved; part] in
    let last := bool_decide (rest = []) in
    info ←? lstatActionPath next last (allowMissingLeaf opts);
    match info with
    | None => mret (Ok (inl next))
    | Some info =>
      if negb (shouldFollowSymlink info last (followFinalSymlink opts)) then pass_loop opts next rest
      else
        target ←? expandSymlinkTarget next rest;
        mret (Ok (inr (path_clean target)))
    end
  end.

Definition resolveActionTargetPass (current : string) (opts : pathResolutionOptions)
    : M (result os_error (string + string)) :=
  let '(prefix, parts) := splitAbsPath current in
  pass_loop opts prefix parts.

(** [for depth := 0; depth < maxSymlinkResolveDepth; depth++] *)
Fixpoint resolve_from (fuel : nat) (abs current : string) (opts : pathResolutionOptions)
    : M (result os_error string) :=
  match fuel with
  | 0 => mret (Err (mk_os_error ("syncer: resolve " +:+ quote abs +:+ ": too many symlinks") false))
  | S fuel =>
    r ←? resolveActionTargetPass current opts;
    match r with
    | inl resolved => mret (Ok resolved)
    | inr next => resolve_from fuel abs next opts
    end
  end.

Definition resolveActionTargetAbs (abs : string) (opts : pathResolutionOptions)
    : M (result os_error string) :=
  resolve_from maxSymlinkResolveDepth abs (path_clean abs) opts.

(** [Ok None] is [("", false, nil)]. *)
Definition resolveActionTargetRel (root relPath : string) (opts : pathResolutionOptions)
    : M (result os_error (option string)) :=
  abs ←? mret (resolveWorkspacePath root relPath);
  canonicalRoot ←? call (SEvalSymlinks root);
  resolvedAbs ←? resolveActionTargetAbs abs opts;
  within ←? mret (map_err safepath_error (IsWithin canonicalRoot resolvedAbs));
  if negb within then mret (Ok None)
  else
    targetRel ←? mret (map_err (λ _, rel_error canonicalRoot resolvedAbs)
                         (filepath_rel canonicalRoot resolvedAbs));
    mret (Ok (Some (normalizeRelativePath targetRel))).

Definition blocksSensitivePath (root relPath : string) (filter : option SensitiveFilter)
    (opts : pathResolutionOptions) : M (result os_error bool) :=
  if isSensitivePath filter relPath then mret (Ok true)
  else
    r ← resolveActionTargetRel root relPath opts;
    match r with
    | Err err => if not_exist err then mret (Ok false) else mret (Err err)
    | Ok None => mret (Ok false)
    | Ok (Some targetRel) => mret (Ok (isSensitivePath filter targetRel))
    end.

(** The callback of [hasSensitiveDescendant]; [inr tt] is
    [errSensitiveDescendant]. *)
Definition descendant_fn (abs relPath : string) (filter : option SensitiveFilter)
    (st : unit) (path : string) (d : dtree) (walkErr : option os_error)
    : unit * walked (os_error + unit) :=
  match walkErr with
  | Some err => (tt, WErr (inl err))
  | None =>
    if decide (path = abs) then (tt, WOk)
    else
      match filepath_rel abs path with
      | Err _ => (tt, WErr (inl (rel_error abs path)))
      | Ok descendant =>
        let descendantRel := joinRelPath relPath (ToSlash descendant) in
        if isSensitivePath filter descendantRel then (tt, WErr (inr tt)) else (tt, WOk)
      end
  end.

Definition hasSensitiveDescendant (root relPath : string) (filter : option SensitiveFilter)
    : M (result os_error bool) :=
  match filter with
  | None => mret (Ok false)
  | Some _ =>
    abs ←? mret (resolveWorkspacePath root relPath);
    info ←? call (SLstat abs);
    if negb (i_is_dir info) then mret (Ok false)
    else
      d ← call (SWalkDir abs);
      match d with
      | Err err => mret (Err err)
      | Ok d =>
        match snd (WalkDir (descendant_fn abs relPath filter) abs d tt) with
        | WErr (inr _) => mret (Ok true)
        | WErr (inl err) => mret (Err err)
        | _ => mret (Ok false)
        end
      end
  end.
End operations.

(** ** Workspace paths are inside the root *)

Definition confined (root p : string) : Prop :=
  is_abs p = true ∧ abs_elems root `prefix_of` abs_elems p.

Lemma resolveWorkspacePath_confined root rel p :
  is_abs root = true → resolveWorkspacePath root rel = Ok p → confined root p.
Proof.
  intros Hr. unfold resolveWorkspacePath. destruct (_ || _); [by intros [= <-]|].
  intros (Hb & _ & Hp & _ & He & _)%map_err_Ok%Join_Ok_inv. split; [done|]. rewrite He. by apply prefix_app_r.
Qed.

Lemma resolveWorkspacePath_elems root rel p :
  is_abs root = true → resolveWorkspacePath root rel = Ok p →
  abs_elems p = abs_elems root ++ clean_elems rel.
Proof.
  intros Hr. unfold resolveWorkspacePath. destruct (_ || _) eqn:E.
  - intros [= <-]. rewrite !orb_true_iff, !bool_decide_eq_true in E.
    destruct E as [[->| ->]| ->]; by rewrite app_nil_r.
  - by intros (_ & _ & _ & _ & He & _)%map_err_Ok%Join_Ok_inv.
Qed.

(** ** The walk only looks *)

Section looks.
Context `{FileSystem} `{Quoting} `{Doublestar}.

Definition looking : entry → Prop := λ '(s, _, _), mutates s = false ∧ data_paths s = [].

Lemma hoare_looking_call (P : ctx → Prop) s :
  mutates s = false → data_paths s = [] → hoare P looking (call s) (λ c _, P c).
Proof. intros. by apply hoare_call. Qed.

Lemma lstatActionPath_looks P path leaf allow :
  hoare P looking (lstatActionPath path leaf allow) (λ c _, P c).
Proof.
  eapply hoare_bind; [by apply hoare_looking_call|]. intros [i|e]; [by apply hoare_ret|].
  destruct (_ && _); by apply hoare_ret.
Qed.

Lemma expandSymlinkTarget_looks P path remaining :
  hoare P looking (expandSymlinkTarget path remaining) (λ c _, P c).
Proof.
  eapply hoare_try; [by apply hoare_looking_call| |done].
  intros a. destruct remaining; by apply hoare_ret.
Qed.

Lemma pass_loop_looks P opts resolved parts :
  hoare P looking (pass_loop opts resolved parts) (λ c _, P c).
Proof.
  revert resolved. induction parts as [|part rest IH]; intros resolved; [by apply hoare_ret|].
  cbn [pass_loop]. eapply hoare_try; [apply lstatActionPath_looks| |done].
  intros [info|]; [|by apply hoare_ret]. destruct (negb _); [apply IH|].
  eapply hoare_try; [apply expandSymlinkTarget_looks| |done]. intros a. by apply hoare_ret.
Qed.

Lemma resolveActionTargetPass_looks P current opts :
  hoare P looking (resolveActionTargetPass current opts) (λ c _, P c).
Proof. unfold resolveActionTargetPass. destruct (splitAbsPath current). apply pass_loop_looks. Qed.

Lemma resolve_from_looks P fuel abs current opts :
  hoare P looking (resolve_from fuel abs current opts) (λ c _, P c).
Proof.
  revert current. induction fuel as [|fuel IH]; intros current; [by apply hoare_ret|].
  cbn [resolve_from].
  eapply hoare_try; [apply resolveActionTargetPass_looks| |done]. intros [r|next]; [by apply hoare_ret|apply IH].
Qed.

Lemma resolveActionTargetRel_looks P root relPath opts :
  hoare P looking (resolveActionTargetRel root relPath opts) (λ c _, P c).
Proof.
  eapply hoare_try; [by apply (hoare_ret P _ _ (λ c _, P c))| |done]. intros abs.
  eapply hoare_try; [by apply hoare_looking_call| |done]. intros root'.
  eapply hoare_try; [apply resolve_from_looks| |done]. intros resolved.
  eapply hoare_try; [by apply (hoare_ret P _ _ (λ c _, P c))| |done]. intros within.
  destruct (negb within); [by apply hoare_ret|].
  eapply hoare_try; [by apply (hoare_ret P _ _ (λ c _, P c))| |done]. intros r. by apply hoare_ret.
Qed.

Lemma blocksSensitivePath_looks P root relPath filter opts :
  hoare P looking (blocksSensitivePath root relPath filter opts)
    (λ c r, P c ∧ (isSensitivePath filter relPath = true → r = Ok true)).
Proof.
  unfold blocksSensitivePath. destruct (isSensitivePath filter relPath); [by apply hoare_ret|].
  eapply hoare_bind; [apply resolveActionTargetRel_looks|]. intros [[t|]|e]; [by apply hoare_ret..|].
  destruct (not_exist e); by apply hoare_ret.
Qed.
End looks.

(** ** Where the walk ends *)

Definition abs_path (l : list string) : string := "/" +:+ join_slash l.

Lemma abs_path_abs l : is_abs (abs_path l) = true.
Proof. apply has_prefix_app. Qed.

Lemma abs_path_snoc l x :
  Forall good_seg l → good_seg x → filepath_join [abs_path l; x] = abs_path (l ++ [x]).
Proof.
  intros Hl Hx. destruct (filepath_join_elems (abs_path l) [x]) as (Ha & He & Hc);
    [apply abs_path_abs|by constructor|].
  change (join_slash [x]) with x in *. rewrite <-Hc, path_clean_abs, He by done.
  unfold abs_path. by rewrite abs_elems_join.
Qed.

Lemma splitAbsPath_spec p :
  is_abs p = true → splitAbsPath p = ("/", abs_elems p).
Proof.
  intros Hp. unfold splitAbsPath. pose proof (path_elems_clean_abs p Hp) as He.
  unfold path_elems in He. destruct (decide (trim_prefix "/" (path_clean p) = "")); by rewrite <-He.
Qed.

Section quiet.
Context `{FileSystem} {Hquiet : Quiet} `{Quoting} `{Doublestar}.

(** Every directory on the way to [abs_path es] is there and is not a link; the
    end is not a link either when final links are followed, and may be missing
    when that is allowed. *)
Definition real_path (w : World) (opts : pathResolutionOptions) (es : list string) : Prop :=
  ∀ k x rest, es = k ++ x :: rest →
  match look w (SLstat (abs_path (k ++ [x]))) with
  | Ok info => i_symlink info = true → rest = [] ∧ followFinalSymlink opts = false
  | Err err => rest = [] ∧ allowMissingLeaf opts = true ∧ not_exist err = true
  end.

(** The same for the directories only. *)
Definition real_dirs (w : World) (k : list string) : Prop :=
  ∀ k1 x, k1 ++ [x] `prefix_of` k →
  ∃ info, look w (SLstat (abs_path (k1 ++ [x]))) = Ok info ∧ i_symlink info = false.

Lemma real_dirs_snoc w k x info :
  real_dirs w k → look w (SLstat (abs_path (k ++ [x]))) = Ok info → i_symlink info = false →
  real_dirs w (k ++ [x]).
Proof.
  intros Hk Hx Hi k1 y [r Hr]. destruct r as [|z r _] using rev_ind.
  - rewrite app_nil_r in Hr. apply app_inj_tail in Hr as [<- <-]. eauto.
  - rewrite app_assoc in Hr. apply app_inj_tail in Hr as [-> _]. apply Hk. by exists r.
Qed.

Lemma real_dirs_path w opts k : real_dirs w k → real_path w opts k.
Proof.
  intros Hk k1 x rest ->. destruct (Hk k1 x) as (info & -> & ->); [|done].
  exists rest. by rewrite <-app_assoc.
Qed.

Lemma real_path_last w opts k x :
  real_dirs w k →
  match look w (SLstat (abs_path (k ++ [x]))) with
  | Ok info => i_symlink info = true → followFinalSymlink opts = false
  | Err err => allowMissingLeaf opts = true ∧ not_exist err = true
  end → real_path w opts (k ++ [x]).
Proof.
  intros Hk Hx k1 y rest E. destruct rest as [|z rest _] using rev_ind.
  - apply app_inj_tail in E as [<- <-]. by destruct (look w _); [intuition|].
  - change (k1 ++ y :: rest ++ [z]) with (k1 ++ (y :: rest) ++ [z]) in E. rewrite app_assoc in E.
    apply app_inj_tail in E as [-> <-]. destruct (Hk k1 y) as (info & -> & ->); [|done].
    exists rest. by rewrite <-app_assoc.
Qed.

Lemma lstatActionPath_asks w path leaf allow :
  asks w (lstatActionPath path leaf allow) (λ r,
    match look w (SLstat path) with
    | Ok info => r = Ok (Some info)
    | Err err => r = if allow && leaf && not_exist err then Ok None else Err err
    end).
Proof using Hquiet.
  eapply asks_bind; [by apply asks_call|]. intros a ->.
  destruct (look w (SLstat path)) as [i|e]; [by apply asks_ret|].
  destruct (_ && _); by apply asks_ret.
Qed.

Lemma expandSymlinkTarget_asks w path rest :
  is_abs path = true →
  asks w (expandSymlinkTarget path rest) (λ r, ∀ t, r = Ok t → is_abs t = true).
Proof using Hquiet.
  intros Hp. eapply asks_try; [by apply asks_call| |done]. intros target _.
  set (t := if is_abs target then target else filepath_join [path_dir path; target]).
  assert (Ht : is_abs t = true).
  { unfold t. destruct (is_abs target) eqn:E; [done|]. unfold path_dir.
    destruct (cut_last_slash path) as [[a b]|] eqn:Hc.
    - apply cut_last_slash_Some in Hc as [Hab _].
      assert (Ha : is_abs (path_clean (a +:+ "/")) = true).
      { apply is_abs_clean. destruct a as [|c a]; [done|]. rewrite Hab in Hp. unfold is_abs in *.
        rewrite !str_app_cons, has_prefix_1 in *. done. }
      rewrite filepath_join_abs by done. by apply is_abs_clean, is_abs_app.
    - apply cut_last_slash_None in Hc. exfalso. apply no_slash_prefix in Hc. unfold is_abs in Hp. congruence. }
  destruct rest as [|x rest].
  - apply asks_ret. by intros ? [= <-].
  - apply asks_ret. intros ? [= <-]. rewrite filepath_join_abs by done. by apply is_abs_clean, is_abs_app.
Qed.

Lemma pass_loop_asks w opts k parts :
  Forall good_seg (k ++ parts) → real_dirs w k →
  asks w (pass_loop opts (abs_path k) parts) (λ r,
    (real_path w opts (k ++ parts) → r = Ok (inl (abs_path (k ++ parts)))) ∧
    match r with
    | Ok (inl p) => p = abs_path (k ++ parts) ∧ real_path w opts (k ++ parts)
    | Ok (inr p) => is_abs p = true ∧ path_clean p = p
    | Err _ => True
    end).
Proof using Hquiet.
  revert k. induction parts as [|x rest IH]; intros k Hg Hk.
  { apply asks_ret. rewrite app_nil_r. auto using real_dirs_path. }
  cbn [pass_loop]. apply Forall_app in Hg as [Hgk Hg]. apply Forall_cons in Hg as [Hgx Hgr].
  rewrite abs_path_snoc by done. rewrite (cons_middle x k rest), app_assoc.
  eapply asks_try; [apply lstatActionPath_asks| |].
  - intros [info|] Hl.
    + destruct (look w (SLstat (abs_path (k ++ [x])))) as [i|e] eqn:E; [|by repeat case_match].
      injection Hl as <-.
      destruct (shouldFollowSymlink info _ _) eqn:Hf; simpl.
      * unfold shouldFollowSymlink in Hf. apply andb_true_iff in Hf as [Hs Hf].
        assert (Hn : ¬ real_path w opts ((k ++ [x]) ++ rest)).
        { intros Hr. specialize (Hr k x rest). rewrite E in Hr.
          destruct Hr as [-> Hfin]; [by rewrite <-app_assoc|done|]. by rewrite Hfin in Hf. }
        eapply asks_try; [apply expandSymlinkTarget_asks, abs_path_abs| |done].
        intros t Ht. apply asks_ret. split; [done|].
        split; [by apply is_abs_clean, Ht|by apply path_clean_idem_abs, Ht].
      * destruct (i_symlink info) eqn:Hs.
        -- apply andb_false_iff in Hf as [?|Hf]; [congruence|]. apply orb_false_iff in Hf as [Hf Hlast].
           apply negb_false_iff, bool_decide_eq_true in Hlast as ->. cbn [pass_loop].
           apply asks_ret. rewrite app_nil_r. split; [done|]. split; [done|].
           apply real_path_last; [done|]. by rewrite E.
        -- apply IH; [|by eapply real_dirs_snoc]. apply Forall_app. split; [|done].
           apply Forall_app. by split; [|constructor].
    + destruct (look w (SLstat (abs_path (k ++ [x])))) as [i|e] eqn:E; [done|].
      destruct (allowMissingLeaf opts && _ && _) eqn:Hm; [|done].
      apply andb_true_iff in Hm as [[Ha Hlast]%andb_true_iff He].
      apply bool_decide_eq_true in Hlast as ->. apply asks_ret. rewrite app_nil_r.
      split; [done|]. split; [done|]. apply real_path_last; [done|]. by rewrite E.
  - intros e Hl. split; [|done]. intros Hr. specialize (Hr k x rest).
    destruct (look w (SLstat (abs_path (k ++ [x])))) as [i|e'] eqn:E; [done|].
    destruct Hr as (-> & Ha & He); [by rewrite <-app_assoc|]. rewrite Ha, He in Hl. done.
Qed.

Lemma resolve_from_asks w opts abs fuel p :
  is_abs p = true → path_clean p = p →
  asks w (resolve_from fuel abs p opts) (λ r,
    (fuel ≠ 0 → real_path w opts (abs_elems p) → r = Ok p) ∧
    ∀ q, r = Ok q → q = abs_path (abs_elems q) ∧ real_path w opts (abs_elems q)).
Proof using Hquiet.
  revert p. induction fuel as [|fuel IH]; intros p Hp Hc; [by apply asks_ret|]. cbn [resolve_from].
  assert (Hpe : p = abs_path (abs_elems p)) by (unfold abs_path; by rewrite <-path_clean_abs).
  eapply (asks_try _ _ _ (λ r,
    (real_path w opts (abs_elems p) → r = Ok (inl p)) ∧
    match r with
    | Ok (inl q) => q = p ∧ real_path w opts (abs_elems p)
    | Ok (inr q) => is_abs q = true ∧ path_clean q = q
    | Err _ => True
    end)).
  - unfold resolveActionTargetPass. rewrite splitAbsPath_spec by done.
    eapply asks_conseq; [apply (pass_loop_asks w opts [] (abs_elems p)); [apply abs_elems_good|]|].
    + by intros k1 x Hpre%prefix_nil_inv%app_nil; destruct Hpre.
    + intros r [Hr1 Hr2]. cbn [app] in Hr1, Hr2. by rewrite <-Hpe in Hr1, Hr2.
  - intros [q|q] [Hr1 Hr2].
    + apply asks_ret. destruct Hr2 as [-> Hr]. split; [done|]. intros ? [= <-]. by split.
    + destruct Hr2 as [Hq Hqc]. eapply asks_conseq; [by apply IH|].
      intros r [_ Hr]. split; [|done]. intros _ Hreal. by specialize (Hr1 Hreal).
  - intros e [Hr _]. split; [|done]. intros _ Hreal. by specialize (Hr Hreal).
Qed.
(** Blocking changes no file. *)
Lemma pass_loop_quiet w opts resolved parts : asks w (pass_loop opts resolved parts) (λ _, True).
Proof using Hquiet.
  revert resolved. induction parts as [|x rest IH]; intros resolved; [by apply asks_ret|]. cbn [pass_loop].
  eapply asks_try; [apply lstatActionPath_asks| |done]. intros [info|] _; [|by apply asks_ret].
  destruct (negb _); [apply IH|].
  eapply (asks_try _ _ _ (λ _, True)); [|intros; by apply asks_ret|done].
  eapply (asks_try _ _ _ (λ _, True)); [by eapply asks_conseq; [apply asks_call|]| |done].
  intros t _. destruct rest; by apply asks_ret.
Qed.

Lemma blocksSensitivePath_quiet w root relPath filter opts :
  asks w (blocksSensitivePath root relPath filter opts) (λ _, True).
Proof using Hquiet.
  assert (Hfrom : ∀ fuel abs p, asks w (resolve_from fuel abs p opts) (λ _, True)).
  { intros fuel abs. induction fuel as [|fuel IH]; intros p; [by apply asks_ret|]. cbn [resolve_from].
    eapply (asks_try _ _ _ (λ _, True)); [| |done].
    - unfold resolveActionTargetPass. destruct (splitAbsPath p). apply pass_loop_quiet.
    - intros [q|q] _; [by apply asks_ret|apply IH]. }
  unfold blocksSensitivePath. destruct (isSensitivePath _ _); [by apply asks_ret|].
  eapply (asks_bind _ _ _ (λ _, True)); [|intros [[t|]|e] _; try by apply asks_ret].
  - unfold resolveActionTargetRel. destruct (resolveWorkspacePath root relPath); [|by apply asks_ret].
    apply asks_try_ret. eapply asks_try; [by apply asks_call| |done]. intros croot _.
    eapply asks_try; [apply Hfrom| |done]. intros p _.
    destruct (map_err _ (IsWithin croot p)) as [b|]; [|by apply asks_ret].
    apply asks_try_ret. destruct (negb b); [by apply asks_ret|].
    destruct (map_err _ (filepath_rel croot p)); by apply asks_ret.
  - by destruct (not_exist e); apply asks_ret.
Qed.
End quiet.

(** ** Following links by the rules

    The same as a relation on the files, without passes and fuel: from a place
    [k], which is a list of names from the root, along the names [parts], with [n]
    links that may still be followed. *)
Inductive place : Type :=
  | At (es : list string)
  | Fails (err : os_error)
  | TooMany.

(** The names of a target, seen from the directory [k] of the link; the [..] in it
    goes up by names. *)
Definition link_place (k : list string) (target : string) : list string :=
  if is_abs target then abs_elems target else resolve true (reverse k) (split_slash target).

Section walk.
Context `{FileSystem} {Hquiet : Quiet} `{Quoting} `{Doublestar}.

Inductive leads (w : World) (opts : pathResolutionOptions) : nat → list string → list string → place → Prop :=
  | leads_end n k : leads w opts n k [] (At k)
  | leads_missing n k x err :
      look w (SLstat (abs_path (k ++ [x]))) = Err err → allowMissingLeaf opts = true → not_exist err = true →
      leads w opts n k [x] (At (k ++ [x]))
  | leads_fails n k x rest err :
      look w (SLstat (abs_path (k ++ [x]))) = Err err →
      ¬ (rest = [] ∧ allowMissingLeaf opts = true ∧ not_exist err = true) →
      leads w opts n k (x :: rest) (Fails err)
  | leads_on n k x rest info res :
      look w (SLstat (abs_path (k ++ [x]))) = Ok info →
      i_symlink info = false ∨ rest = [] ∧ followFinalSymlink opts = false →
      leads w opts n (k ++ [x]) rest res → leads w opts n k (x :: rest) res
  | leads_link n k x rest info target res :
      look w (SLstat (abs_path (k ++ [x]))) = Ok info →
      i_symlink info = true → rest ≠ [] ∨ followFinalSymlink opts = true →
      look w (SReadlink (abs_path (k ++ [x]))) = Ok target →
      leads w opts n [] (link_place k target ++ rest) res → leads w opts (S n) k (x :: rest) res
  | leads_unread n k x rest info err :
      look w (SLstat (abs_path (k ++ [x]))) = Ok info →
      i_symlink info = true → rest ≠ [] ∨ followFinalSymlink opts = true →
      look w (SReadlink (abs_path (k ++ [x]))) = Err err → leads w opts n k (x :: rest) (Fails err)
  | leads_too_many k x rest info target :
      look w (SLstat (abs_path (k ++ [x]))) = Ok info →
      i_symlink info = true → rest ≠ [] ∨ followFinalSymlink opts = true →
      look w (SReadlink (abs_path (k ++ [x]))) = Ok target → leads w opts 0 k (x :: rest) TooMany.

(** There is one such place. *)
Lemma leads_functional w opts n k parts r1 r2 : leads w opts n k parts r1 → leads w opts n k parts r2 → r1 = r2.
Proof using Type.
  intros Hl1. revert r2. induction Hl1; intros r2 Hl2; inversion Hl2; subst; try done; try congruence;
    try (match goal with IH : ∀ r, _ → _ = r |- _ => apply IH; congruence end).
  all: repeat match goal with Ha : ?x = Ok _, Hb : ?x = _ |- _ => rewrite Ha in Hb; simplify_eq end; try naive_solver congruence.
Qed.

Lemma link_place_good k target : Forall good_seg k → Forall good_seg (link_place k target).
Proof using Type.
  intros Hk. unfold link_place. destruct (is_abs target); [apply abs_elems_good|].
  rewrite <-(abs_elems_join k), <-abs_elems_app by done. apply abs_elems_good.
Qed.

Lemma leads_good w opts n k parts es : leads w opts n k parts (At es) → Forall good_seg (k ++ parts) → Forall good_seg es.
Proof using Type.
  remember (At es) as pl. induction 1; simplify_eq; rewrite ?app_nil_r; try done.
  - intros Hg. apply IHleads; [done|]. by rewrite <-app_assoc.
  - intros [Hk [_ Hr]%Forall_cons]%Forall_app. apply IHleads; [done|]. cbn [app]. apply Forall_app. split; [by apply link_place_good|done].
Qed.

Lemma path_dir_elems k x : Forall good_seg (k ++ [x]) →
  is_abs (path_dir (abs_path (k ++ [x]))) = true ∧ abs_elems (path_dir (abs_path (k ++ [x]))) = k.
Proof using Type.
  intros [Hk [Hx _]%Forall_cons]%Forall_app. pose proof Hx as (_ & _ & _ & Hns).
  unfold path_dir, abs_path.
  assert (Hcut : ∃ a, cut_last_slash ("/" +:+ join_slash (k ++ [x])) = Some (a, x) ∧
    is_abs (a +:+ "/") = true ∧ abs_elems (a +:+ "/") = k).
  { destruct (decide (k = [])) as [->|Hne].
    - exists "". split_and!; [|done..]. by apply (cut_last_slash_app "" x).
    - exists ("/" +:+ join_slash k). rewrite join_slash_app by done. cbn [join_slash]. split_and!.
      + exact (cut_last_slash_app ("/" +:+ join_slash k) x Hns).
      + apply is_abs_app, has_prefix_app.
      + change (("/" +:+ join_slash k) +:+ "/") with (("/" +:+ join_slash k) +:+ "/" +:+ "").
        rewrite abs_elems_app, abs_elems_join by done. cbn. by rewrite reverse_involutive. }
  destruct Hcut as (a & -> & Ha & He). split; [by apply is_abs_clean|by rewrite abs_elems_clean].
Qed.

Lemma filepath_join_good l : l ≠ [] → Forall good_seg l → filepath_join l = join_slash l.
Proof using Type.
  intros Hne Hl. destruct l as [|x l]; [done|]. pose proof Hl as [(Hx & _ & _ & Hs) _]%Forall_cons.
  unfold filepath_join. rewrite decide_False by done. unfold path_clean.
  assert (Hj : join_slash (x :: l) ≠ "") by (intros Hj%join_slash_nil; [done|auto with go]).
  rewrite decide_False by done.
  assert (has_prefix "/" (join_slash (x :: l)) = false) as ->.
  { destruct l as [|y l]; [by apply no_slash_prefix|]. pose proof (no_slash_prefix x Hs) as Hp.
    destruct x as [|c x]; [done|]. rewrite has_prefix_1 in Hp. rewrite join_slash_cons, str_app_cons by done. by rewrite has_prefix_1. }
  rewrite split_join by auto with go. assert (resolve false [] (x :: l) = x :: l) as ->.
  { rewrite <-(app_nil_r (x :: l)) at 1. rewrite resolve_good by done. cbn [resolve]. by rewrite app_nil_r, reverse_involutive. }
  by rewrite decide_False.
Qed.

Lemma link_place_elems k x target : Forall good_seg (k ++ [x]) →
  let t := if is_abs target then target else filepath_join [path_dir (abs_path (k ++ [x])); target] in
  is_abs t = true ∧ abs_elems t = link_place k target.
Proof using Type.
  intros Hg. destruct (path_dir_elems k x Hg) as [Ha He]. unfold link_place. cbv zeta. destruct (is_abs target) eqn:Ht; [done|].
  rewrite filepath_join_abs by done. split; [by apply is_abs_clean, is_abs_app|].
  rewrite abs_elems_clean by (by apply is_abs_app). by rewrite abs_elems_app, He.
Qed.

Lemma expandSymlinkTarget_place w k x rest :
  Forall good_seg (k ++ [x]) → Forall good_seg rest →
  asks w (expandSymlinkTarget (abs_path (k ++ [x])) rest) (λ r,
    match look w (SReadlink (abs_path (k ++ [x]))) with
    | Ok target => ∃ t, r = Ok t ∧ is_abs t = true ∧ abs_elems t = link_place k target ++ rest
    | Err err => r = Err err
    end).
Proof using Hquiet.
  intros Hg Hrest. unfold expandSymlinkTarget. eapply asks_try; [by apply asks_call| |by intros e <-]. intros target <-.
  destruct (link_place_elems k x target Hg) as [Ha He]. cbv zeta in *.
  destruct rest as [|y rest]; apply asks_ret; eexists; (split; [done|]); [rewrite app_nil_r; exact (conj Ha He)|].
  rewrite (filepath_join_good (y :: rest)) by done. destruct (filepath_join_elems _ (y :: rest) Ha Hrest) as (Hj1 & Hj2 & _).
  split; [exact Hj1|]. etrans; [exact Hj2|]. exact (f_equal (λ l, l ++ y :: rest) He).
Qed.

Lemma pass_loop_leads w opts k parts :
  Forall good_seg (k ++ parts) →
  asks w (pass_loop opts (abs_path k) parts) (λ r,
    match r with
    | Ok (inl p) => ∃ es, p = abs_path es ∧ Forall good_seg es ∧ ∀ n, leads w opts n k parts (At es)
    | Ok (inr p) => is_abs p = true ∧ path_clean p = p ∧ leads w opts 0 k parts TooMany ∧
        ∀ n res, leads w opts n [] (abs_elems p) res → leads w opts (S n) k parts res
    | Err err => ∀ n, leads w opts n k parts (Fails err)
    end).
Proof using Hquiet.
  revert k. induction parts as [|x rest IH]; intros k Hg.
  { apply asks_ret. rewrite app_nil_r in Hg. exists k. split_and!; [done..|]. intros n. constructor. }
  cbn [pass_loop]. rewrite cons_middle, app_assoc in Hg. pose proof Hg as [Hgx Hgr]%Forall_app.
  pose proof Hgx as [Hgk [Hx _]%Forall_cons]%Forall_app. rewrite abs_path_snoc by done.
  eapply asks_try; [apply lstatActionPath_asks| |].
  - intros [info|] Hl.
    + destruct (look w (SLstat (abs_path (k ++ [x])))) as [i|e] eqn:E; [|by repeat case_match].
      injection Hl as <-. destruct (shouldFollowSymlink info _ _) eqn:Hf; cbn [negb].
      * unfold shouldFollowSymlink in Hf. apply andb_true_iff in Hf as [Hs Hf].
        assert (Hfollow : rest ≠ [] ∨ followFinalSymlink opts = true).
        { apply orb_true_iff in Hf as [Hf|Hf]; [by right|left]. by apply negb_true_iff, bool_decide_eq_false in Hf. }
        eapply asks_try; [by apply expandSymlinkTarget_place| |].
        -- intros t Ht. destruct (look w (SReadlink _)) as [target|err] eqn:El; [|done]. destruct Ht as (t' & [= <-] & Ha & He).
           apply asks_ret. split; [by apply is_abs_clean|]. split; [by apply path_clean_idem_abs|].
           rewrite abs_elems_clean, He by done. split; [by econstructor|]. intros n res Hn. by econstructor.
        -- intros e' He' n. destruct (look w (SReadlink _)) as [target|err] eqn:El; [by destruct He' as (? & ? & _)|].
           injection He' as ->. by eapply leads_unread.
      * eapply asks_conseq; [by apply IH|]. 
        assert (Hon : i_symlink info = false ∨ rest = [] ∧ followFinalSymlink opts = false).
        { unfold shouldFollowSymlink in Hf. apply andb_false_iff in Hf as [Hf|Hf]; [by left|right].
          apply orb_false_iff in Hf as [? Hf]. by apply negb_false_iff, bool_decide_eq_true in Hf. }
        intros [[p|p]|e'] Hr.
        -- destruct Hr as (es & ? & ? & Hr). exists es. split_and!; [done..|]. intros n. by eapply leads_on.
        -- destruct Hr as (? & ? & Hm & Hr). split_and!; [done..|by eapply leads_on|]. intros n res Hn. by eapply leads_on; [..|apply Hr].
        -- intros n. by eapply leads_on.
    + destruct (look w (SLstat (abs_path (k ++ [x])))) as [i|e] eqn:E; [done|].
      destruct (allowMissingLeaf opts && _ && _) eqn:Hm; [|done].
      apply andb_true_iff in Hm as [[Ha Hlast]%andb_true_iff He].
      apply bool_decide_eq_true in Hlast as ->. apply asks_ret. exists (k ++ [x]). split_and!; [done..|]. intros n. by eapply leads_missing.
  - intros e Hl n. destruct (look w (SLstat (abs_path (k ++ [x])))) as [i|e'] eqn:E; [done|].
    eapply leads_fails; [by destruct (_ && _ && _); simplify_eq|].
    intros (-> & Ha & He). assert (e' = e) as -> by (by destruct (_ && _ && _); simplify_eq).
    rewrite Ha, He, bool_decide_eq_true_2 in Hl by done. done.
Qed.

Definition too_many (abs : string) : os_error := mk_os_error ("syncer: resolve " +:+ quote abs +:+ ": too many symlinks") false.

Lemma resolve_from_leads w opts abs n p :
  is_abs p = true → path_clean p = p →
  asks w (resolve_from (S n) abs p opts) (λ r, ∃ pl, leads w opts n [] (abs_elems p) pl ∧
    match pl with
    | At es => r = Ok (abs_path es) ∧ Forall good_seg es
    | Fails err => r = Err err
    | TooMany => r = Err (too_many abs)
    end).
Proof using Hquiet.
  revert p. induction n as [|n IH]; intros p Hp Hc; cbn [resolve_from];
    (eapply asks_try; [unfold resolveActionTargetPass; rewrite splitAbsPath_spec by done; apply (pass_loop_leads w opts [] (abs_elems p)), abs_elems_good| |]).
  - intros [q|q] Hr; apply asks_ret.
    + destruct Hr as (es & -> & Hg & Hr). by exists (At es).
    + destruct Hr as (_ & _ & Hr & _). by exists TooMany.
  - intros e Hr. by exists (Fails e).
  - intros [q|q] Hr.
    + apply asks_ret. destruct Hr as (es & -> & Hg & Hr). by exists (At es).
    + destruct Hr as (Hq & Hqc & _ & Hr). eapply asks_conseq; [by apply IH|]. intros r (pl & Hpl & Hres). exists pl. split; [by apply Hr|done].
  - intros e Hr. by exists (Fails e).
Qed.

(** The walk of the daemon goes where the links lead. *)
Lemma resolveActionTargetAbs_leads w opts abs :
  is_abs abs = true →
  asks w (resolveActionTargetAbs abs opts) (λ r, ∃ pl, leads w opts 39 [] (abs_elems abs) pl ∧
    match pl with
    | At es => r = Ok (abs_path es) ∧ Forall good_seg es
    | Fails err => r = Err err
    | TooMany => r = Err (too_many abs)
    end).
Proof using Hquiet.
  intros Ha. unfold resolveActionTargetAbs. change maxSymlinkResolveDepth with (S 39).
  rewrite <-(abs_elems_clean abs) by done. apply resolve_from_leads; [by apply is_abs_clean|by apply path_clean_idem_abs].
Qed.
End walk.

(** ** Properties *)

Section properties.
Context `{FileSystem} {Hquiet : Quiet} `{Quoting} `{Doublestar}.

(** Following links ends at a real path.  While nothing else changes the
    files, resolving an absolute path changes no file, and a path it returns
    is clean, has no link among its directories, and is itself a link or
    missing only where the caller asked for that.  A path that is already of
    this kind is returned as it is, cleaned. *)
Theorem resolve_reaches_real (w : World) (abs : string) (opts : pathResolutionOptions) :
  is_abs abs = true →
  asks w (resolveActionTargetAbs abs opts) (λ r,
    (real_path w opts (abs_elems abs) → r = Ok (path_clean abs)) ∧
    ∀ q, r = Ok q → q = abs_path (abs_elems q) ∧ real_path w opts (abs_elems q)).
Proof using Hquiet.
  intros Ha. eapply asks_conseq; [apply resolve_from_asks; [by apply is_abs_clean|by apply path_clean_idem_abs]|].
  rewrite abs_elems_clean by done. intros r [Hr ?]. split; [|done]. by apply Hr.
Qed.

(** What the target of a link adds to the decision. *)
Definition target_sensitive (filter : option SensitiveFilter) (croot p : string) : bool :=
  match strip_common (abs_elems croot) (abs_elems p) with
  | ([], l) => isSensitivePath filter (join_slash l)
  | _ => false
  end.

Lemma isSensitivePath_normal_form f p : isSensitivePath f (normal_form p) = isSensitivePath f p.
Proof.
  destruct f as [f|]; [|done]. apply eq_bool_prop_intro. unfold isSensitivePath. rewrite !Is_true_true, !Match_spec.
  by rewrite normal_form_idem.
Qed.

Lemma strip_common_prefix b t : (∃ l, strip_common b t = ([], l)) ↔ b `prefix_of` t.
Proof.
  split.
  - intros (l & (c & -> & -> & _)%strip_common_spec). rewrite app_nil_r. by apply prefix_app_r.
  - intros [l ->]. exists l. apply strip_common_app.
Qed.

(** What a walk that ends there adds: a place inside the workspace is judged as the
    workspace names it, one outside is not judged; one that is missing is not
    blocked, and for any other failure there is no answer. *)
Definition verdict (filter : option SensitiveFilter) (croot abs : string) (pl : place) : result os_error bool :=
  match pl with
  | At es => Ok (target_sensitive filter croot (abs_path es))
  | Fails err => if not_exist err then Ok false else Err err
  | TooMany => Err (too_many abs)
  end.

End properties.

(** A link [notes] to the credentials next to it. *)
Definition linked : Toy.world :=
  [("/w", Toy.TDir); ("/w/.env", Toy.TFile []); ("/w/notes", Toy.TLink "sub/../.env")].

Lemma resolve_reaches_real_witness :
  is_abs "/w/notes" = true ∧
  asks (H := Toy.fs) linked (resolveActionTargetAbs "/w/notes" (mk_pathResolutionOptions false true)) (λ r,
    (real_path (H := Toy.fs) linked (mk_pathResolutionOptions false true) (abs_elems "/w/notes") →
       r = Ok (path_clean "/w/notes")) ∧
    ∀ q, r = Ok q → q = abs_path (abs_elems q) ∧
       real_path (H := Toy.fs) linked (mk_pathResolutionOptions false true) (abs_elems q)).
Proof. split; [reflexivity|]. by apply (resolve_reaches_real (H := Toy.fs)). Defined.

(** The link leads to the credentials: through a place [sub] that need not be
    there, since the names of a target are cleaned first. *)
Lemma linked_leads pl :
  leads (H := Toy.fs) linked (mk_pathResolutionOptions false true) 39 [] (abs_elems "/w/notes") pl → pl = At ["w"; ".env"].
Proof.
  intros Hl. apply (leads_functional (H := Toy.fs) _ _ _ _ _ _ _ Hl). change (abs_elems "/w/notes") with ["w"; "notes"].
  eapply (leads_on (H := Toy.fs)); [vm_compute; reflexivity|by left|].
  eapply (leads_link (H := Toy.fs)); [vm_compute; reflexivity|reflexivity|by right|vm_compute; reflexivity|].
  change (link_place _ _ ++ _) with ["w"; ".env"].
  eapply (leads_on (H := Toy.fs)); [vm_compute; reflexivity|by left|].
  eapply (leads_on (H := Toy.fs)); [vm_compute; reflexivity|by left|]. constructor.
Qed.

