(* ===== verification/Handle.v ===== *)
(** * File requests on the daemon (pkg/syncer/handle.go, handle_write.go, audit.go, workspace.go)

    [Handle] answers one request of the server on the local workspace.  It is
    written in the monad of OsFs; a call that takes the locks or records the
    daemon's own write is in the trace's context, so what a handler did before
    it touched a file can be read off the trace.  The properties are about
    every request: where in the file system it can go, what it does before it
    changes a file, and what it answers. *)
From S2P Require Import Prelude GoPath PathFacts Safepath RelPath Proto OsFs Sensitive PathResolution.
From stdpp Require Import options.

(** A nil [Locker] or [Auditor] is [false].  A nil [SelfWrites] needs no case:
    its [Remember] does nothing. *)
Record HandleOptions : Type := mk_HandleOptions {
  Root : string;
  MaxReadSize : Z;
  Locker : bool;
  Filter : option SensitiveFilter;
  Auditor : bool;
}.

(** [audit.Record] *)
Record AuditRecord : Type := mk_AuditRecord {
  a_time : Z;
  a_request_id : string;
  a_operation : string;
  a_path : string;
  a_target : string;
  a_bytes : Z;
  a_success : bool;
  a_error : string;
}.

(** ** Responses *)

Definition errResponse (reqID msg : string) : FileResponse := mk_FileResponse reqID false msg None.
Definition successWithInfo (reqID : string) (info : FileInfo) : FileResponse :=
  mk_FileResponse reqID true "" (Some (ResInfo (Some info))).
Definition successNoResult (reqID : string) : FileResponse := mk_FileResponse reqID true "" None.

Definition fileInfoFromFS (rel : string) (fi : OsInfo) : FileInfo :=
  mk_FileInfo (ToSlash rel) (i_size fi) (i_mtime fi) (i_is_dir fi) (i_perm fi).

(** The texts of [syscall.ENOENT] and [fs.ErrPermission]. *)
Definition ENOENT : string := "no such file or directory".
Definition ErrPermission : string := "permission denied".

(** [data[lo:hi]], for bounds in the range of the slice *)
Definition slice (data : bytes) (lo hi : Z) : bytes :=
  take (Z.to_nat (hi - lo)) (drop (Z.to_nat lo) data).

(** The bounds [sliceContent] computes, in [int64]. *)
Definition slice_bounds (total offset length : Z) : Z * Z :=
  let offset := if bool_decide (offset < 0)%Z then 0%Z else offset in
  if bool_decide (total ≤ offset)%Z then (0, 0)%Z
  else if bool_decide (0 < length)%Z && bool_decide (length < int64 (total - offset))%Z
       then (offset, int64 (offset + length)) else (offset, total).

Definition sliceContent (data : bytes) (offset length : Z) : bytes :=
  let '(lo, hi) := slice_bounds (Z.of_nat (base.length data)) offset length in slice data lo hi.

Section handlers.
Context `{FileSystem} `{Quoting} `{Doublestar}.

Definition formatErr (op path err : string) : string :=
  "syncer: " +:+ op +:+ " " +:+ quote path +:+ ": " +:+ err.
Definition formatRenameErr (oldPath newPath err : string) : string :=
  "syncer: rename " +:+ quote oldPath +:+ "->" +:+ quote newPath +:+ ": " +:+ err.
Definition unsafe_path (err : os_error) : string := "syncer: unsafe path: " +:+ error_text err.

(** [err != nil && !errors.Is(err, fs.ErrNotExist)], and the value beside it. *)
Definition block_error (b : result os_error bool) : option os_error :=
  match b with Err err => if not_exist err then None else Some err | Ok _ => None end.
Definition is_blocked (b : result os_error bool) : bool :=
  match b with Ok b => b | Err _ => false end.

(** ** Reads *)

Definition handleRead (reqID : string) (r : option ReadFileReq) (opts : HandleOptions) : M FileResponse :=
  match r with
  | None => mret (errResponse reqID "syncer: nil read request")
  | Some r =>
    match resolveWorkspacePath (Root opts) (rd_path r) with
    | Err err => mret (errResponse reqID (unsafe_path err))
    | Ok abs =>
      b ← blocksSensitivePath (Root opts) (rd_path r) (Filter opts) (mk_pathResolutionOptions false true);
      match block_error b with
      | Some err => mret (errResponse reqID (formatErr "read" (rd_path r) (error_text err)))
      | None =>
        if is_blocked b then mret (errResponse reqID (formatErr "read" (rd_path r) ENOENT)) else
        data ← call (SReadFile abs);
        match data with
        | Err err => mret (errResponse reqID (formatErr "read" (rd_path r) (error_text err)))
        | Ok data =>
          let sliced := sliceContent data (rd_offset r) (rd_length r) in
          let sliced :=
            if bool_decide (0 < MaxReadSize opts)%Z
               && bool_decide (MaxReadSize opts < Z.of_nat (length sliced))%Z
            then slice sliced 0 (MaxReadSize opts) else sliced in
          mret (mk_FileResponse reqID true "" (Some (ResContent sliced)))
        end
      end
    end
  end.

Definition handleStat (reqID : string) (r : option string) (opts : HandleOptions) : M FileResponse :=
  match r with
  | None => mret (errResponse reqID "syncer: nil stat request")
  | Some path =>
    match resolveWorkspacePath (Root opts) path with
    | Err err => mret (errResponse reqID (unsafe_path err))
    | Ok abs =>
      b ← blocksSensitivePath (Root opts) path (Filter opts) (mk_pathResolutionOptions false false);
      match block_error b with
      | Some err => mret (errResponse reqID (formatErr "stat" path (error_text err)))
      | None =>
        if is_blocked b then mret (errResponse reqID (formatErr "stat" path ENOENT)) else
        fi ← call (SLstat abs);
        match fi with
        | Err err => mret (errResponse reqID (formatErr "stat" path (error_text err)))
        | Ok fi => mret (successWithInfo reqID (fileInfoFromFS path fi))
        end
      end
    end
  end.

(** The loop of [handleListDir]. *)
Definition list_entries (filter : option SensitiveFilter) (path : string)
    (entries : list (string * result os_error OsInfo)) : list FileInfo :=
  omap (λ '(name, info),
    match info with
    | Err _ => None
    | Ok info =>
      let relPath := joinRelPath path name in
      if isSensitivePath filter relPath then None else Some (fileInfoFromFS relPath info)
    end) entries.

Definition handleListDir (reqID : string) (r : option string) (opts : HandleOptions) : M FileResponse :=
  match r with
  | None => mret (errResponse reqID "syncer: nil list_dir request")
  | Some path =>
    match resolveWorkspacePath (Root opts) path with
    | Err err => mret (errResponse reqID (unsafe_path err))
    | Ok abs =>
      b ← blocksSensitivePath (Root opts) path (Filter opts) (mk_pathResolutionOptions false true);
      match block_error b with
      | Some err => mret (errResponse reqID (formatErr "list" path (error_text err)))
      | None =>
        if is_blocked b then mret (errResponse reqID (formatErr "list" path ENOENT)) else
        entries ← call (SReadDir abs);
        match entries with
        | Err err => mret (errResponse reqID (formatErr "list" path (error_text err)))
        | Ok entries =>
          mret (mk_FileResponse reqID true ""
            (Some (ResEntries (Some (mk_FileTree (list_entries (Filter opts) path entries) "")))))
        end
      end
    end
  end.

Definition handleReadLike (reqID : string) (op : option Operation) (opts : HandleOptions)
    : M (option FileResponse) :=
  match op with
  | Some (ReqRead r) => Some <$> handleRead reqID (Some r) opts
  | Some (ReqStat p) => Some <$> handleStat reqID (Some p) opts
  | Some (ReqListDir p) => Some <$> handleListDir reqID (Some p) opts
  | _ => mret None
  end.

(** ** Changes *)

(** The absolute path, or the response that refuses it. *)
Definition resolveMutatingPath (reqID op relPath : string) (opts : HandleOptions)
    (resolveOpts : pathResolutionOptions) : M (result FileResponse string) :=
  match resolveWorkspacePath (Root opts) relPath with
  | Err err => mret (Err (errResponse reqID (unsafe_path err)))
  | Ok abs =>
    b ← blocksSensitivePath (Root opts) relPath (Filter opts) resolveOpts;
    match block_error b with
    | Some err => mret (Err (errResponse reqID (formatErr op relPath (error_text err))))
    | None =>
      if is_blocked b then mret (Err (errResponse reqID (formatErr op relPath ErrPermission)))
      else mret (Ok abs)
    end
  end.

Definition resolveRenamePaths (reqID : string) (r : RenameReq) (opts : HandleOptions)
    : M (result FileResponse (string * string)) :=
  oldAbs ←? resolveMutatingPath reqID "rename" (rn_old_path r) opts (mk_pathResolutionOptions false false);
  newAbs ←? resolveMutatingPath reqID "rename" (rn_new_path r) opts (mk_pathResolutionOptions true false);
  hasSensitiveChildren ← hasSensitiveDescendant (Root opts) (rn_old_path r) (Filter opts);
  match block_error hasSensitiveChildren with
  | Some err => mret (Err (errResponse reqID (formatErr "rename" (rn_old_path r) (error_text err))))
  | None =>
    if is_blocked hasSensitiveChildren
    then mret (Err (errResponse reqID (formatRenameErr (rn_old_path r) (rn_new_path r) ErrPermission)))
    else mret (Ok (oldAbs, newAbs))
  end.

Definition defaultWriteMode (mode : Z) : Z := if bool_decide (mode = 0%Z) then 420%Z (* 0o644 *) else mode.

(** [deps.locker.LockMany(paths...)], deferred release, and
    [deps.selfWrites.Remember(paths...)], in front of the rest of a handler. *)
Definition locked (opts : HandleOptions) (paths : list string) (body : M FileResponse) : M FileResponse :=
  let body := _ ← remember paths; body in
  if Locker opts then with_locks paths body else body.

Definition openWriteTarget (abs : string) (mode : Z) (appendMode : bool) : M (result os_error nat) :=
  call (SOpenWrite abs appendMode mode).

Definition writeContent (file : nat) (content : bytes) (offset : Z) (appendMode : bool)
    : M (result os_error unit) :=
  if appendMode then call (SWrite file content) else call (SWriteAt file content offset).

Definition closeAfterWrite (file : nat) (writeErr : result os_error unit) : M (result os_error unit) :=
  closeErr ← call (SClose file);
  match writeErr with Err err => mret (Err err) | Ok _ => mret closeErr end.

(** [lstatToFileInfo], and the response built from it. *)
Definition info_response (reqID abs rel : string) (format : string → string) : M FileResponse :=
  fi ← call (SLstat abs);
  match fi with
  | Err err => mret (errResponse reqID (format (error_text err)))
  | Ok fi => mret (successWithInfo reqID (fileInfoFromFS rel fi))
  end.

Definition or_refuse {A} (m : M (result FileResponse A)) (k : A → M FileResponse) : M FileResponse :=
  r ← m; match r with Err resp => mret resp | Ok a => k a end.

Definition handleWrite (reqID : string) (r : option WriteFileReq) (opts : HandleOptions) : M FileResponse :=
  match r with
  | None => mret (errResponse reqID "syncer: nil write request")
  | Some r =>
    let path := wr_path r in
    if negb (wr_append r) && bool_decide (wr_offset r < 0)%Z
    then mret (errResponse reqID (formatErr "write" path "invalid argument"))
    else
      or_refuse (resolveMutatingPath reqID "write" path opts (mk_pathResolutionOptions true true)) (λ abs,
      locked opts [path] (
        file ← openWriteTarget abs (defaultWriteMode (wr_mode r)) (wr_append r);
        match file with
        | Err err => mret (errResponse reqID (formatErr "write" path (error_text err)))
        | Ok file =>
          writeErr ← writeContent file (wr_content r) (wr_offset r) (wr_append r);
          err ← closeAfterWrite file writeErr;
          match err with
          | Err err => mret (errResponse reqID (formatErr "write" path (error_text err)))
          | Ok _ => info_response reqID abs path (formatErr "write" path)
          end
        end))
  end.

Definition handleMkdir (reqID : string) (r : option MkdirReq) (opts : HandleOptions) : M FileResponse :=
  match r with
  | None => mret (errResponse reqID "syncer: nil mkdir request")
  | Some r =>
    let path := mk_path r in
    or_refuse (resolveMutatingPath reqID "mkdir" path opts (mk_pathResolutionOptions true false)) (λ abs,
    locked opts [path] (
      err ← (if mk_recursive r then call (SMkdirAll abs 493) else call (SMkdir abs 493));
      match err with
      | Err err => mret (errResponse reqID (formatErr "mkdir" path (error_text err)))
      | Ok _ => info_response reqID abs path (formatErr "mkdir" path)
      end))
  end.

Definition handleDelete (reqID : string) (r : option string) (opts : HandleOptions) : M FileResponse :=
  match r with
  | None => mret (errResponse reqID "syncer: nil delete request")
  | Some path =>
    or_refuse (resolveMutatingPath reqID "delete" path opts (mk_pathResolutionOptions false false)) (λ abs,
    locked opts [path] (
      err ← call (SRemove abs);
      match err with
      | Err err => mret (errResponse reqID (formatErr "delete" path (error_text err)))
      | Ok _ => mret (successNoResult reqID)
      end))
  end.

Definition handleRename (reqID : string) (r : option RenameReq) (opts : HandleOptions) : M FileResponse :=
  match r with
  | None => mret (errResponse reqID "syncer: nil rename request")
  | Some r =>
    or_refuse (resolveRenamePaths reqID r opts) (λ '(oldAbs, newAbs),
    locked opts [rn_old_path r; rn_new_path r] (
      renameErr ← call (SRename oldAbs newAbs);
      match renameErr with
      | Err err => mret (errResponse reqID (formatRenameErr (rn_old_path r) (rn_new_path r) (error_text err)))
      | Ok _ => info_response reqID newAbs (rn_new_path r) (formatRenameErr (rn_old_path r) (rn_new_path r))
      end))
  end.

Definition handleTruncate (reqID : string) (r : option TruncateReq) (opts : HandleOptions) : M FileResponse :=
  match r with
  | None => mret (errResponse reqID "syncer: nil truncate request")
  | Some r =>
    let path := tr_path r in
    if bool_decide (tr_size r < 0)%Z
    then mret (errResponse reqID (formatErr "truncate" path "invalid argument"))
    else
      or_refuse (resolveMutatingPath reqID "truncate" path opts (mk_pathResolutionOptions false true)) (λ abs,
      locked opts [path] (
        err ← call (STruncate abs (tr_size r));
        match err with
        | Err err => mret (errResponse reqID (formatErr "truncate" path (error_text err)))
        | Ok _ => info_response reqID abs path (formatErr "truncate" path)
        end))
  end.

Definition handleMutating (reqID : string) (op : option Operation) (opts : HandleOptions) : M FileResponse :=
  match op with
  | Some (ReqWrite r) => handleWrite reqID (Some r) opts
  | Some (ReqDelete p) => handleDelete reqID (Some p) opts
  | Some (ReqMkdir r) => handleMkdir reqID (Some r) opts
  | Some (ReqRename r) => handleRename reqID (Some r) opts
  | Some (ReqTruncate r) => handleTruncate reqID (Some r) opts
  | _ => mret (errResponse reqID "syncer: unknown operation")
  end.
End handlers.

(** ** Audit *)

Definition fillReadLikeAudit (rec : AuditRecord) (op : option Operation) (resp : FileResponse)
    : option AuditRecord :=
  let fill operation path bytes :=
    Some (mk_AuditRecord (a_time rec) (a_request_id rec) operation path (a_target rec) bytes
            (a_success rec) (a_error rec)) in
  match op with
  | Some (ReqRead r) => fill "read" (rd_path r) (Z.of_nat (length (GetContent resp)))
  | Some (ReqStat p) => fill "stat" p (a_bytes rec)
  | Some (ReqListDir p) => fill "list_dir" p (a_bytes rec)
  | _ => None
  end.

Definition fillMutatingAudit (rec : AuditRecord) (op : option Operation) : AuditRecord :=
  let fill operation path target bytes :=
    mk_AuditRecord (a_time rec) (a_request_id rec) operation path target bytes
      (a_success rec) (a_error rec) in
  match op with
  | Some (ReqWrite r) => fill "write" (wr_path r) (a_target rec) (Z.of_nat (length (wr_content r)))
  | Some (ReqDelete p) => fill "delete" p (a_target rec) (a_bytes rec)
  | Some (ReqMkdir r) => fill "mkdir" (mk_path r) (a_target rec) (a_bytes rec)
  | Some (ReqRename r) => fill "rename" (rn_old_path r) (rn_new_path r) (a_bytes rec)
  | Some (ReqTruncate r) => fill "truncate" (tr_path r) (a_target rec) (tr_size r)
  | _ => fill "unknown" (a_path rec) (a_target rec) (a_bytes rec)
  end.

(** The records handed to the auditor, at time [now]. *)
Definition auditRequest (a : bool) (now : Z) (req : FileRequest) (resp : FileResponse) : list AuditRecord :=
  if negb a then []
  else
    let rec := mk_AuditRecord now (RequestId req) "" "" "" 0 (Success resp) (ErrorText resp) in
    match fillReadLikeAudit rec (Op req) resp with
    | Some rec => [rec]
    | None => [fillMutatingAudit rec (Op req)]
    end.

Definition Handle `{FileSystem} `{Quoting} `{Doublestar} (now : Z) (req : option FileRequest)
    (opts : HandleOptions) : M (FileResponse * list AuditRecord) :=
  match req with
  | None => mret (errResponse "" "syncer: nil request", [])
  | Some req =>
    let reqID := RequestId req in
    resp ← handleReadLike reqID (Op req) opts;
    resp ← match resp with Some resp => mret resp | None => handleMutating reqID (Op req) opts end;
    mret (resp, auditRequest (Auditor opts) now req resp)
  end.

(** ** What the calls and the answers of a request are like *)

(** The paths a request names. *)
Definition op_paths (op : Operation) : list string :=
  match op with
  | ReqRead r => [rd_path r]
  | ReqWrite r => [wr_path r]
  | ReqStat p | ReqListDir p | ReqDelete p => [p]
  | ReqMkdir r => [mk_path r]
  | ReqRename r => [rn_old_path r; rn_new_path r]
  | ReqTruncate r => [tr_path r]
  end.

(** The result a successful response carries. *)
Definition fits (op : Operation) (res : option Result) : Prop :=
  match op, res with
  | ReqRead _, Some (ResContent _) => True
  | ReqStat p, Some (ResInfo (Some i)) => FPath i = ToSlash p
  | ReqListDir _, Some (ResEntries (Some _)) => True
  | ReqWrite r, Some (ResInfo (Some i)) => FPath i = ToSlash (wr_path r)
  | ReqMkdir r, Some (ResInfo (Some i)) => FPath i = ToSlash (mk_path r)
  | ReqRename r, Some (ResInfo (Some i)) => FPath i = ToSlash (rn_new_path r)
  | ReqTruncate r, Some (ResInfo (Some i)) => FPath i = ToSlash (tr_path r)
  | ReqDelete _, None => True
  | _, _ => False
  end.

Definition refusal (reqID : string) (r : FileResponse) : Prop :=
  ResponseId r = reqID ∧ Success r = false ∧ Res r = None ∧ ∃ t, ErrorText r = "syncer: " +:+ t.

Lemma refusal_err reqID t : refusal reqID (errResponse reqID ("syncer: " +:+ t)).
Proof. repeat split. by exists t. Qed.

Section calls.
Context `{FileSystem} `{Quoting} `{Doublestar}.
Context (opts : HandleOptions) (op : Operation) (reqID : string) (c0 : ctx).
Context (Hroot : is_abs (Root opts) = true).

Definition all_clear : Prop := ∀ q, q ∈ op_paths op → isSensitivePath (Filter opts) q = false.

(** The file is one the request names. *)
Definition names (p : string) : Prop := ∃ q, q ∈ op_paths op ∧ resolveWorkspacePath (Root opts) q = Ok p.

(** The call reaches data only inside the root, and only for a request that
    names no sensitive path; it changes something only with the request's locks
    held, after the write was recorded, and at the paths the request names. *)
Definition call_ok : entry → Prop := λ '(s, h, rm),
  (∀ p, p ∈ data_paths s → confined (Root opts) p) ∧
  (data_paths s ≠ [] → all_clear) ∧
  (mutates s = true → all_clear ∧
     h = (if Locker opts then fst c0 ++ lock_keys (op_paths op) else fst c0) ∧
     rm = snd c0 ++ [op_paths op] ∧ ∀ p, p ∈ data_paths s → names p).

Definition answer_ok (r : FileResponse) : Prop :=
  refusal reqID r ∨
  ResponseId r = reqID ∧ Success r = true ∧ ErrorText r = "" ∧ fits op (Res r) ∧ all_clear.

Lemma looking_ok x : looking x → call_ok x.
Proof.
  destruct x as [[s h] rm]. intros [Hm Hd]. split_and!; [|by rewrite Hd|congruence].
  intros p Hp. rewrite Hd in Hp. by apply not_elem_of_nil in Hp.
Qed.

Lemma hoare_looks {A} (m : M A) P R : hoare P looking m R → hoare P call_ok m R.
Proof. intros Hm. by eapply hoare_conseq; [exact Hm|..|done]; [|apply looking_ok]. Qed.

Lemma hoare_look_call P s :
  mutates s = false → data_paths s = [] → hoare P call_ok (call s) (λ c _, P c).
Proof. intros. by apply hoare_looks, hoare_looking_call. Qed.

Lemma hoare_call_bind {B} P s (f : result os_error (ret s) → M B) R :
  (∀ h rm, P (h, rm) → call_ok (s, h, rm)) →
  (∀ a, hoare P call_ok (f a) R) → hoare P call_ok (call s ≫= f) R.
Proof. intros Hs Hf. eapply hoare_bind; [by apply hoare_call|]. exact Hf. Qed.

Lemma hoare_look_bind {B} P s (f : result os_error (ret s) → M B) R :
  mutates s = false → data_paths s = [] →
  (∀ a, hoare P call_ok (f a) R) → hoare P call_ok (call s ≫= f) R.
Proof. intros Hs Hd Hf. eapply hoare_bind; [by apply hoare_look_call|]. exact Hf. Qed.

(** A refusal ends the handler. *)
Lemma hoare_refuse (P : ctx → Prop) (R : ctx → FileResponse → Prop) t :
  (∀ c r, P c → refusal reqID r → R c r) →
  hoare P call_ok (mret (errResponse reqID ("syncer: " +:+ t))) R.
Proof. intros HR. apply hoare_ret. intros c Hc. apply HR; [done|apply refusal_err]. Qed.

Lemma is_blocked_clear b path :
  (isSensitivePath (Filter opts) path = true → b = Ok true) → block_error b = None →
  is_blocked b = false → isSensitivePath (Filter opts) path = false.
Proof.
  intros Hb He Hf. apply not_true_iff_false. intros Hs. rewrite (Hb Hs) in Hf. done.
Qed.

Lemma resolveMutatingPath_hoare (P : ctx → Prop) name path ropts :
  hoare P call_ok (resolveMutatingPath reqID name path opts ropts) (λ c r, P c ∧
    match r with
    | Err resp => refusal reqID resp
    | Ok abs => resolveWorkspacePath (Root opts) path = Ok abs ∧ isSensitivePath (Filter opts) path = false
    end).
Proof using Hroot.
  unfold resolveMutatingPath. destruct (resolveWorkspacePath (Root opts) path) as [abs|err] eqn:Habs.
  - eapply hoare_bind; [apply hoare_looks, blocksSensitivePath_looks|]. intros b. cbn beta.
    destruct (block_error b) as [err|] eqn:He.
    + apply hoare_ret. intros c [Hc _]. split; [done|apply refusal_err].
    + destruct (is_blocked b) eqn:Hb.
      * apply hoare_ret. intros c [Hc _]. split; [done|apply refusal_err].
      * apply hoare_ret. intros c [Hc Hs]. split; [done|].
        split; [done|by eapply is_blocked_clear].
  - apply hoare_ret. intros c Hc. split; [done|apply refusal_err].
Qed.

Lemma or_refuse_hoare {A} (P : ctx → Prop) (m : M (result FileResponse A)) k (G : A → Prop) R :
  hoare P call_ok m (λ c r, P c ∧ match r with Err resp => refusal reqID resp | Ok a => G a end) →
  (∀ c r, P c → refusal reqID r → R c r) →
  (∀ a, G a → hoare P call_ok (k a) R) →
  hoare P call_ok (or_refuse m k) R.
Proof.
  intros Hm HR Hk. eapply hoare_bind; [exact Hm|]. intros [a|resp]; cbn beta iota.
  - intros e [He Hg]. by apply Hk.
  - apply hoare_ret. intros c [Hc Hr]. auto.
Qed.

(** The part of a handler under the locks. *)
Lemma locked_hoare (body : M FileResponse) :
  (let c1 := (if Locker opts then fst c0 ++ lock_keys (op_paths op) else fst c0, snd c0 ++ [op_paths op]) in
   hoare (λ c, c = c1) call_ok body (λ c r, c = c1 ∧ answer_ok r)) →
  hoare (λ c, c = c0) call_ok (locked opts (op_paths op) body)
    (λ c r, c = (fst c0, snd c0 ++ [op_paths op]) ∧ answer_ok r).
Proof.
  intros Hb. unfold locked. cbv zeta in *. destruct (Locker opts).
  - eapply (hoare_locks _ _ _ _ (fst c0)); [by intros c ->|]. eapply hoare_bind.
    + apply (hoare_remember _ _ _ (λ c _, c = (fst c0 ++ lock_keys (op_paths op), snd c0 ++ [op_paths op]))).
      intros h rm [Hh Hc]. simpl in *. apply (f_equal snd) in Hc. simpl in Hc. by rewrite Hh, Hc.
    + intros u. eapply hoare_conseq; [exact Hb|done|done|]. intros c a [-> Ha]. done.
  - eapply hoare_bind; [|intros u; exact Hb].
    apply (hoare_remember _ _ _ (λ c _, c = (fst c0, snd c0 ++ [op_paths op]))). intros h rm Hc. by rewrite <-(f_equal fst Hc), <-(f_equal snd Hc).
Qed.

Lemma info_response_hoare (P : ctx → Prop) abs rel f :
  (∀ t, ∃ t', f t = "syncer: " +:+ t') → all_clear →
  (∀ i, FPath i = ToSlash rel → fits op (Some (ResInfo (Some i)))) →
  hoare P call_ok (info_response reqID abs rel f) (λ c r, P c ∧ answer_ok r).
Proof.
  intros Hf Hc Hfit. apply (hoare_look_bind _ (SLstat abs)); [done..|].
  intros [i|err]; apply hoare_ret; intros c HP; (split; [done|]).
  - right. split_and!; try done. by apply Hfit.
  - left. destruct (Hf (error_text err)) as [t ->]. apply refusal_err.
Qed.
End calls.

(** ** Handlers, one by one *)

Section handlers_ok.
Context `{FileSystem} `{Quoting} `{Doublestar}.
Context (opts : HandleOptions) (reqID : string) (c0 : ctx).
Context (Hroot : is_abs (Root opts) = true).

(** Reads leave the context as it is. *)
Definition read_post (op : Operation) : ctx → FileResponse → Prop := λ c r,
  c = c0 ∧ answer_ok opts op reqID r.
(** Changes add at most one write to the record. *)
Definition write_post (op : Operation) : ctx → FileResponse → Prop := λ c r,
  fst c = fst c0 ∧ (snd c = snd c0 ∨ snd c = snd c0 ++ [op_paths op]) ∧ answer_ok opts op reqID r.

Lemma read_prefix_hoare op name path ropts abs (k : M FileResponse) :
  op_paths op = [path] → resolveWorkspacePath (Root opts) path = Ok abs →
  (confined (Root opts) abs → all_clear opts op →
   hoare (λ c, c = c0) (call_ok opts op c0) k (read_post op)) →
  hoare (λ c, c = c0) (call_ok opts op c0)
    (b ← blocksSensitivePath (Root opts) path (Filter opts) ropts;
     match block_error b with
     | Some err => mret (errResponse reqID (formatErr name path (error_text err)))
     | None => if is_blocked b then mret (errResponse reqID (formatErr name path ENOENT)) else k
     end) (read_post op).
Proof using Hroot.
  intros Hop Habs Hk. eapply hoare_bind; [apply hoare_looks, blocksSensitivePath_looks|]. intros b. cbn beta.
  destruct (block_error b) as [err|] eqn:He.
  { apply hoare_refuse. intros c r [Hc _] Hr. split; [done|by left]. }
  destruct (is_blocked b) eqn:Hb.
  { apply hoare_refuse. intros c r [Hc _] Hr. split; [done|by left]. }
  intros e [He0 Hs]. apply Hk; [by eapply resolveWorkspacePath_confined| |done].
  intros q Hq. rewrite Hop, list_elem_of_singleton in Hq. subst q. by eapply is_blocked_clear.
Qed.

Lemma read_refuse op t :
  hoare (λ c, c = c0) (call_ok opts op c0) (mret (errResponse reqID ("syncer: " +:+ t))) (read_post op).
Proof. apply hoare_refuse. intros c r Hc Hr. split; [done|by left]. Qed.

Lemma read_answer op res :
  all_clear opts op → fits op res →
  hoare (λ c, c = c0) (call_ok opts op c0) (mret (mk_FileResponse reqID true "" res)) (read_post op).
Proof. intros Hc Hf. apply hoare_ret. intros c ->. split; [done|by right]. Qed.

(** A call that reads data inside the root. *)
Lemma data_call_ok op s h rm :
  mutates s = false → all_clear opts op → (∀ p, p ∈ data_paths s → confined (Root opts) p) →
  call_ok opts op c0 (s, h, rm).
Proof. intros Hm Hc Hp. split_and!; [done|done|congruence]. Qed.

Lemma handleRead_hoare r :
  hoare (λ c, c = c0) (call_ok opts (ReqRead r) c0) (handleRead reqID (Some r) opts) (read_post (ReqRead r)).
Proof using Hroot.
  unfold handleRead. destruct (resolveWorkspacePath (Root opts) (rd_path r)) as [abs|e] eqn:Ha;
    [|apply read_refuse].
  eapply read_prefix_hoare; [done..|]. intros Hin Hclear.
  apply hoare_call_bind with (s := SReadFile abs).
  - intros h rm _. apply data_call_ok; [done..|]. by intros p ->%list_elem_of_singleton.
  - intros [data|e]; [by apply read_answer|apply read_refuse].
Qed.

Lemma handleStat_hoare p :
  hoare (λ c, c = c0) (call_ok opts (ReqStat p) c0) (handleStat reqID (Some p) opts) (read_post (ReqStat p)).
Proof using Hroot.
  unfold handleStat. destruct (resolveWorkspacePath (Root opts) p) as [abs|e] eqn:Ha; [|apply read_refuse].
  eapply read_prefix_hoare; [done..|]. intros Hin Hclear.
  apply hoare_look_bind with (s := SLstat abs); [done..|].
  intros [fi|e]; [by apply read_answer|apply read_refuse].
Qed.

Lemma handleListDir_hoare p :
  hoare (λ c, c = c0) (call_ok opts (ReqListDir p) c0) (handleListDir reqID (Some p) opts) (read_post (ReqListDir p)).
Proof using Hroot.
  unfold handleListDir. destruct (resolveWorkspacePath (Root opts) p) as [abs|e] eqn:Ha; [|apply read_refuse].
  eapply read_prefix_hoare; [done..|]. intros Hin Hclear.
  apply hoare_call_bind with (s := SReadDir abs).
  - intros h rm _. apply data_call_ok; [done..|]. by intros q ->%list_elem_of_singleton.
  - intros [data|e]; [by apply read_answer|apply read_refuse].
Qed.

(** ** Changes *)

(** The context while the locks are held. *)
Definition locked_ctx (op : Operation) : ctx :=
  (if Locker opts then fst c0 ++ lock_keys (op_paths op) else fst c0, snd c0 ++ [op_paths op]).

Lemma locked_write_post op body :
  hoare (λ c, c = locked_ctx op) (call_ok opts op c0) body
    (λ c r, c = locked_ctx op ∧ answer_ok opts op reqID r) →
  hoare (λ c, c = c0) (call_ok opts op c0) (locked opts (op_paths op) body) (write_post op).
Proof.
  intros Hb. eapply hoare_conseq; [by apply (locked_hoare opts op reqID c0)|done..|].
  intros c r [-> Ha]. split_and!; [done|by right|done].
Qed.

(** A call made with the locks held, inside the root. *)
Lemma locked_call_ok op s h rm :
  (h, rm) = locked_ctx op → all_clear opts op →
  (∀ p, p ∈ data_paths s → names opts op p) → call_ok opts op c0 (s, h, rm).
Proof using Hroot.
  unfold locked_ctx. intros [= -> ->] Hc Hp. split_and!; [|done|done]. intros p (q & _ & Hq)%Hp.
  by eapply resolveWorkspacePath_confined.
Qed.

Lemma write_refuse op t :
  hoare (λ c, c = c0) (call_ok opts op c0) (mret (errResponse reqID ("syncer: " +:+ t))) (write_post op).
Proof. apply hoare_refuse. intros c r -> Hr. split_and!; [done|by left|by left]. Qed.

Lemma locked_refuse op t :
  hoare (λ c, c = locked_ctx op) (call_ok opts op c0) (mret (errResponse reqID ("syncer: " +:+ t)))
    (λ c r, c = locked_ctx op ∧ answer_ok opts op reqID r).
Proof. apply hoare_refuse. intros c r -> Hr. split; [done|by left]. Qed.

Lemma resolve_clear op name path ropts (k : string → M FileResponse) :
  op_paths op = [path] →
  (∀ abs, names opts op abs → all_clear opts op →
     hoare (λ c, c = c0) (call_ok opts op c0) (k abs) (write_post op)) →
  hoare (λ c, c = c0) (call_ok opts op c0)
    (or_refuse (resolveMutatingPath reqID name path opts ropts) k) (write_post op).
Proof using Hroot.
  intros Hop Hk. eapply or_refuse_hoare; [by apply resolveMutatingPath_hoare|..].
  - intros c r -> Hr. split_and!; [done|by left|by left].
  - intros abs [Hin Hs]. apply Hk.
    + exists path. split; [|done]. rewrite Hop. by left.
    + intros q Hq. rewrite Hop, list_elem_of_singleton in Hq. by subst.
Qed.

Ltac confined_call := intros h rm Hc; apply locked_call_ok; [by rewrite <-Hc|done|set_solver].

Lemma handleWrite_hoare r :
  hoare (λ c, c = c0) (call_ok opts (ReqWrite r) c0) (handleWrite reqID (Some r) opts) (write_post (ReqWrite r)).
Proof using Hroot.
  unfold handleWrite. destruct (negb _ && _); [apply write_refuse|].
  apply resolve_clear; [done|]. intros abs Hin Hclear. apply (locked_write_post (ReqWrite r)).
  apply hoare_call_bind with (s := SOpenWrite abs (wr_append r) (defaultWriteMode (wr_mode r)));
    [confined_call|].
  intros [fd|e]; [|apply locked_refuse].
  eapply (hoare_bind _ _ _ _ (λ c _, c = locked_ctx (ReqWrite r))).
  { unfold writeContent. destruct (wr_append r).
    - refine (hoare_call _ _ (SWrite fd _) _). confined_call.
    - refine (hoare_call _ _ (SWriteAt fd _ _) _). confined_call. }
  intros err. eapply (hoare_bind _ _ _ _ (λ c _, c = locked_ctx (ReqWrite r))).
  { apply hoare_call_bind with (s := SClose fd); [confined_call|].
    intros err'. destruct err; by apply hoare_ret. }
  intros [u|e]; [|apply locked_refuse].
  apply info_response_hoare; [by eexists|done|done].
Qed.

Lemma handleMkdir_hoare r :
  hoare (λ c, c = c0) (call_ok opts (ReqMkdir r) c0) (handleMkdir reqID (Some r) opts) (write_post (ReqMkdir r)).
Proof using Hroot.
  unfold handleMkdir. apply resolve_clear; [done|]. intros abs Hin Hclear.
  apply (locked_write_post (ReqMkdir r)).
  eapply (hoare_bind _ _ _ _ (λ c _, c = locked_ctx (ReqMkdir r))).
  { destruct (mk_recursive r).
    - refine (hoare_call _ _ (SMkdirAll abs _) _). confined_call.
    - refine (hoare_call _ _ (SMkdir abs _) _). confined_call. }
  intros [u|e]; [|apply locked_refuse].
  apply info_response_hoare; [by eexists|done|done].
Qed.

Lemma handleDelete_hoare p :
  hoare (λ c, c = c0) (call_ok opts (ReqDelete p) c0) (handleDelete reqID (Some p) opts) (write_post (ReqDelete p)).
Proof using Hroot.
  unfold handleDelete. apply resolve_clear; [done|]. intros abs Hin Hclear.
  apply (locked_write_post (ReqDelete p)).
  apply hoare_call_bind with (s := SRemove abs); [confined_call|].
  intros [u|e]; [|apply locked_refuse].
  apply hoare_ret. intros c ->. split; [done|by right].
Qed.

Lemma handleTruncate_hoare r :
  hoare (λ c, c = c0) (call_ok opts (ReqTruncate r) c0) (handleTruncate reqID (Some r) opts) (write_post (ReqTruncate r)).
Proof using Hroot.
  unfold handleTruncate. destruct (bool_decide _); [apply write_refuse|].
  apply resolve_clear; [done|]. intros abs Hin Hclear. apply (locked_write_post (ReqTruncate r)).
  apply hoare_call_bind with (s := STruncate abs (tr_size r)); [confined_call|].
  intros [u|e]; [|apply locked_refuse].
  apply info_response_hoare; [by eexists|done|done].
Qed.

Lemma hasSensitiveDescendant_hoare r (P : ctx → Prop) :
  all_clear opts (ReqRename r) →
  hoare P (call_ok opts (ReqRename r) c0)
    (hasSensitiveDescendant (Root opts) (rn_old_path r) (Filter opts)) (λ c _, P c).
Proof using Hroot.
  intros Hclear. unfold hasSensitiveDescendant. destruct (Filter opts) as [f|] eqn:Hf; [|by apply hoare_ret].
  destruct (resolveWorkspacePath (Root opts) (rn_old_path r)) as [abs|e] eqn:Ha; [|by apply hoare_ret].
  pose proof (resolveWorkspacePath_confined _ _ _ Hroot Ha) as Hin. change (mret (Ok abs)) with (mret (M := M) (Ok (E := os_error) abs)).
  unfold try at 1. unfold mbind, M_bind, mret, M_ret.
  apply hoare_look_bind with (s := SLstat abs); [done..|].
  intros [info|e]; [|by apply hoare_ret]. destruct (negb _); [by apply hoare_ret|].
  apply hoare_call_bind with (s := SWalkDir abs).
  { intros h rm _. apply data_call_ok; [done..|]. by intros p ->%list_elem_of_singleton. }
  intros [d|e]; [|by apply hoare_ret]. by destruct (snd _) as [| |[?|?]]; apply hoare_ret.
Qed.

Lemma resolveRenamePaths_hoare r :
  hoare (λ c, c = c0) (call_ok opts (ReqRename r) c0) (resolveRenamePaths reqID r opts) (λ c res, c = c0 ∧
    match res with
    | Err resp => refusal reqID resp
    | Ok (a, b) => names opts (ReqRename r) a ∧ names opts (ReqRename r) b ∧ all_clear opts (ReqRename r)
    end).
Proof using Hroot.
  unfold resolveRenamePaths. eapply hoare_try; [by apply resolveMutatingPath_hoare| |by intros c e].
  intros a. cbn beta iota. eapply hoare_try; [apply resolveMutatingPath_hoare, Hroot| |].
  2: { intros c e [[? _] ?]. done. }
  intros b. cbn beta iota. eapply (hoare_pure (λ c, c = c0)).
  { intros c [[-> Ha] Hb]. split; [done|]. exact (conj Ha Hb). }
  intros [[Ha Hsa] [Hb Hsb]].
  assert (Hclear : all_clear opts (ReqRename r)).
  { intros q Hq. simpl in Hq. apply elem_of_cons in Hq as [->|Hq%list_elem_of_singleton]; [done|by subst]. }
  eapply hoare_bind; [by apply hasSensitiveDescendant_hoare|]. intros res. cbn beta.
  destruct (block_error res); [apply hoare_ret; intros c ->; split; [done|apply refusal_err]|].
  destruct (is_blocked res); apply hoare_ret; intros c ->; split; try done; [apply refusal_err|].
  split_and!; [eexists; split; [by left|done]|eexists; split; [by right; left|done]|done].
Qed.

Lemma handleRename_hoare r :
  hoare (λ c, c = c0) (call_ok opts (ReqRename r) c0) (handleRename reqID (Some r) opts) (write_post (ReqRename r)).
Proof using Hroot.
  unfold handleRename. eapply or_refuse_hoare; [eapply hoare_conseq; [apply resolveRenamePaths_hoare|done|done|]|..].
  - intros c [[a b]|resp] H'; [|exact H']. split; [apply H'|].
    exact (proj2 H' : (λ '(a, b), names opts (ReqRename r) a ∧ names opts (ReqRename r) b ∧ all_clear opts (ReqRename r)) (a, b)).
  - intros c r' -> Hr. split_and!; [done|by left|by left].
  - intros [a b] (Ha & Hb & Hclear). apply (locked_write_post (ReqRename r)).
    apply hoare_call_bind with (s := SRename a b); [confined_call|].
    intros [u|e]; [|apply locked_refuse].
    apply info_response_hoare; [by eexists|done|done].
Qed.
End handlers_ok.

(** ** Properties *)

Lemma slice_bounds_spec total offset length :
  (0 ≤ total)%Z → in_int64 total → in_int64 length →
  let '(lo, hi) := slice_bounds total offset length in
  (0 ≤ lo ≤ hi)%Z ∧ (hi ≤ total)%Z ∧
  lo = (if bool_decide (Z.max 0 offset < total)%Z then Z.max 0 offset else 0%Z) ∧
  (hi - lo)%Z = Z.min (if bool_decide (0 < length)%Z then length else total) (Z.max 0 (total - Z.max 0 offset))%Z.
Proof.
  intros H0 Ht Hl. unfold slice_bounds. unfold in_int64 in *.
  replace (if bool_decide (offset < 0)%Z then 0%Z else offset) with (Z.max 0 offset) by (case_bool_decide; lia).
  set (o := Z.max 0 offset). assert (0 ≤ o)%Z by lia. clearbody o.
  destruct (decide (total ≤ o)%Z).
  { rewrite !bool_decide_eq_true_2, bool_decide_eq_false_2 by lia. repeat split; try lia. case_bool_decide; lia. }
  rewrite bool_decide_eq_false_2, (bool_decide_eq_true_2 (o < total)%Z) by lia.
  rewrite int64_id by (unfold in_int64; lia).
  destruct (decide (0 < length)%Z) as [Hp|Hp].
  - rewrite (bool_decide_eq_true_2 (0 < length)%Z) by lia. simpl.
    destruct (decide (length < total - o)%Z).
    + rewrite bool_decide_eq_true_2 by lia. rewrite int64_id by (unfold in_int64; lia). repeat split; lia.
    + rewrite bool_decide_eq_false_2 by lia. repeat split; lia.
  - rewrite (bool_decide_eq_false_2 (0 < length)%Z) by lia. simpl. repeat split; lia.
Qed.

(** Slicing a read.  For every offset and length of the wire, the bounds are
    inside the contents, so the slice cannot panic and nothing wraps around;
    the result is the contents from the offset on (a negative one is 0), cut
    to the length when it is positive. *)
Theorem sliceContent_spec (data : bytes) (offset length : Z) :
  in_int64 (Z.of_nat (base.length data)) → in_int64 length →
  let '(lo, hi) := slice_bounds (Z.of_nat (base.length data)) offset length in
  (0 ≤ lo ≤ hi)%Z ∧ (hi ≤ Z.of_nat (base.length data))%Z ∧
  sliceContent data offset length =
    let rest := drop (Z.to_nat (Z.max 0 offset)) data in
    if bool_decide (0 < length)%Z then take (Z.to_nat length) rest else rest.
Proof.
  intros Hd Hl. unfold sliceContent, slice.
  pose proof (slice_bounds_spec (Z.of_nat (base.length data)) offset length ltac:(lia) Hd Hl) as Hb.
  destruct (slice_bounds _ _ _) as [lo hi]. destruct Hb as (H0 & Hhi & Hlo & Hlen). split_and!; [lia..|].
  rewrite Hlen, Hlo. set (o := Z.max 0 offset). assert (0 ≤ o)%Z by lia. clearbody o. clear Hlo Hlen H0 Hhi.
  cbv zeta. destruct (decide (o < Z.of_nat (base.length data))%Z).
  - rewrite (bool_decide_eq_true_2 (o < _)%Z) by lia. case_bool_decide.
    + destruct (decide (length ≤ Z.of_nat (base.length data) - o)%Z).
      * f_equal. lia.
      * rewrite !take_ge by (rewrite length_drop; lia). done.
    + rewrite take_ge by (rewrite length_drop; lia). done.
  - rewrite (bool_decide_eq_false_2 (o < _)%Z) by lia.
    rewrite (drop_ge data (Z.to_nat o)) by lia.
    replace (Z.to_nat _) with 0; [by rewrite take_0, take_nil; case_bool_decide|].
    case_bool_decide; lia.
Qed.

Lemma sliceContent_spec_witness :
  in_int64 3 ∧ sliceContent [x01; x02; x03] 1 max_int64 = [x02; x03].
Proof.
  split; [done|].
  exact (proj2 (proj2 (sliceContent_spec [x01; x02; x03] 1 max_int64 ltac:(done) ltac:(done)))).
Defined.

Section properties.
Context `{FileSystem} `{Quoting} `{Doublestar}.

Lemma handler_hoare opts op reqID c0 :
  is_abs (Root opts) = true →
  hoare (λ c, c = c0) (call_ok opts op c0)
    (resp ← handleReadLike reqID (Some op) opts;
     match resp with Some resp => mret resp | None => handleMutating reqID (Some op) opts end)
    (write_post opts reqID c0 op).
Proof.
  intros Hroot.
  assert (Hread : ∀ m, hoare (λ c, c = c0) (call_ok opts op c0) m (read_post opts reqID c0 op) →
    hoare (λ c, c = c0) (call_ok opts op c0)
      (resp ← Some <$> m; match resp with Some resp => mret resp | None => handleMutating reqID (Some op) opts end)
      (write_post opts reqID c0 op)).
  { intros m Hm. eapply (hoare_bind _ _ _ _ (λ c r, ∃ r', r = Some r' ∧ c = c0 ∧ answer_ok opts op reqID r')).
    - eapply hoare_bind; [exact Hm|]. intros a. apply hoare_ret. intros c [-> Ha]. eauto.
    - intros [r|]; [|by intros e (? & ? & _)]. apply hoare_ret. intros c (r' & [= <-] & -> & Ha).
      split_and!; [done|by left|done]. }
  destruct op.
  - by apply Hread, handleRead_hoare.
  - by apply (handleWrite_hoare opts reqID c0).
  - by apply Hread, handleStat_hoare.
  - by apply Hread, handleListDir_hoare.
  - by apply (handleDelete_hoare opts reqID c0).
  - by apply (handleMkdir_hoare opts reqID c0).
  - by apply (handleRename_hoare opts reqID c0).
  - by apply (handleTruncate_hoare opts reqID c0).
Qed.

Lemma Handle_hoare opts now req op c0 :
  is_abs (Root opts) = true → Op req = Some op →
  hoare (λ c, c = c0) (call_ok opts op c0) (Handle now (Some req) opts)
    (λ c '(r, recs), write_post opts (RequestId req) c0 op c r ∧
       recs = auditRequest (Auditor opts) now req r).
Proof.
  intros Hroot Hop e He. destruct (handler_hoare opts op (RequestId req) c0 Hroot e He) as [Hr Ht].
  set (m := handleReadLike (RequestId req) (Some op) opts ≫= _) in Hr, Ht.
  assert (E : Handle now (Some req) opts e =
    (fst (m e), (snd (m e), auditRequest (Auditor opts) now req (snd (m e))))).
  { unfold Handle, m, mbind, M_bind. rewrite Hop.
    destruct (handleReadLike _ _ _ e) as [e1 [resp|]]; [done|].
    by destruct (handleMutating _ _ _ e1). }
  by rewrite E.
Qed.

(** What a request did and answered. *)
Definition handled (now : Z) (req : FileRequest) (opts : HandleOptions) (e : Env) : Env * FileResponse :=
  let '(e', (r, _)) := Handle now (Some req) opts e in (e', r).

(** The calls made while going from [e] to [e']. *)
Definition calls (e e' : Env) (Q : entry → Prop) : Prop :=
  ∃ t, trace e' = trace e ++ t ∧ Forall Q t.

Lemma calls_impl e e' (P Q : entry → Prop) : calls e e' P → (∀ x, P x → Q x) → calls e e' Q.
Proof. intros (t & Ht & HP) HPQ. exists t. split; [done|]. eapply Forall_impl; [exact HP|exact HPQ]. Qed.

Lemma handled_calls opts now req op e :
  is_abs (Root opts) = true → Op req = Some op →
  write_post opts (RequestId req) (ctx_of e) op (ctx_of (fst (handled now req opts e))) (snd (handled now req opts e)) ∧
  calls e (fst (handled now req opts e)) (call_ok opts op (ctx_of e)).
Proof.
  intros Hroot Hop. destruct (Handle_hoare opts now req op (ctx_of e) Hroot Hop e eq_refl) as [Hr Ht].
  unfold handled, calls. destruct (Handle _ _ _ _) as [e' [r recs]]. split; [apply Hr|].
  destruct Ht as (t & Ht & Hq & _). by exists t.
Qed.

(** The paths that calls which can change something were made at. *)
Definition targets (t : list entry) : list string :=
  t ≫= λ '(s, _, _), if mutates s then data_paths s else [].

(** What a request changed was recorded before. *)
Lemma handled_targets opts now req e : is_abs (Root opts) = true →
  let e' := fst (handled now req opts e) in
  ∃ new written, trace e' = trace e ++ new ∧ remembered e' = remembered e ++ written ∧
    ∀ p, p ∈ targets new → ∃ op, Op req = Some op ∧ written = [op_paths op] ∧ names opts op p.
Proof.
  intros Hroot. cbn zeta. destruct (Op req) as [op|] eqn:Hop; [|unfold handled, Handle; rewrite Hop].
  2: { exists [], []. split_and!; [by rewrite app_nil_r..|]. by intros p Hp%not_elem_of_nil. }
  destruct (Handle_hoare opts now req op (ctx_of e) Hroot Hop e eq_refl) as [Hr (new & Ht & Hok & _ & Hg)].
  unfold handled. destruct (Handle _ _ _ _) as [e' [r recs] ]. destruct Hr as [(_ & Hrm & _) _]. cbn in *.
  assert (Hw : ∀ p, p ∈ targets new → remembered e' = remembered e ++ [op_paths op] ∧ names opts op p).
  { unfold targets. intros p ([ [s h] rm] & Hp & Hin)%list_elem_of_bind. destruct (mutates s) eqn:Hs; [|by apply not_elem_of_nil in Hp].
    rewrite Forall_forall in Hok, Hg. destruct (Hok _ Hin) as (_ & _ & Hm). destruct (Hm Hs) as (_ & _ & -> & Hn).
    split; [|by apply Hn]. destruct Hrm as [Hrm|Hrm]; [|done]. specialize (Hg _ Hin). cbn in Hg. rewrite Hrm in Hg.
    apply prefix_length in Hg. rewrite length_app in Hg. cbn in Hg. lia. }
  destruct Hrm as [Hrm|Hrm].
  - exists new, []. split_and!; [done|by rewrite app_nil_r|]. intros p [Hp _]%Hw. rewrite Hrm in Hp.
    apply (f_equal length) in Hp. rewrite length_app in Hp. cbn in Hp. lia.
  - exists new, [op_paths op]. split_and!; [done..|]. intros p [_ Hn]%Hw. by exists op.
Qed.

(** A request that names a sensitive path *)
Lemma handled_sensitive opts now req op e :
  is_abs (Root opts) = true → Op req = Some op → ¬ all_clear opts op →
  refusal (RequestId req) (snd (handled now req opts e)) ∧
  calls e (fst (handled now req opts e)) (λ '(s, _, _), mutates s = false ∧ data_paths s = []).
Proof.
  intros Hroot Hop Hclear. destruct (handled_calls opts now req op e Hroot Hop) as [(_ & _ & Hr) Ht].
  split; [by destruct Hr as [?|(_ & _ & _ & _ & ?)]|].
  eapply calls_impl; [exact Ht|]. intros [[s h] rm] (_ & Hd & Hm). split.
  - apply not_true_iff_false. intros Hmut. by destruct (Hm Hmut).
  - destruct (data_paths s); [done|]. by destruct Hclear; apply Hd.
Qed.

(** C1. Requests stay in the workspace.  Whatever the request and whatever the
    file system answers, every path whose contents, entries or existence the
    daemon reads or changes for it is the workspace root or lies below it. *)
Theorem Handle_confined (now : Z) (req : FileRequest) (opts : HandleOptions) (e : Env) :
  is_abs (Root opts) = true →
  calls e (fst (handled now req opts e))
    (λ '(s, _, _), ∀ p, p ∈ data_paths s → confined (Root opts) p).
Proof.
  intros Hroot. destruct (Op req) as [op|] eqn:Hop.
  - destruct (handled_calls opts now req op e Hroot Hop) as [_ Ht].
    eapply calls_impl; [exact Ht|]. intros [[s h] rm] Hx. apply Hx.
  - unfold handled, calls, Handle. rewrite Hop. exists []. by rewrite app_nil_r.
Qed.

(** C2. Sensitive paths are out of reach.  A request that names a path the
    sensitive filter matches is refused, and no call made for it touches the
    data of any path or changes anything. *)
Theorem Handle_refuses_sensitive (now : Z) (req : FileRequest) (opts : HandleOptions) (e : Env)
    (op : Operation) (p : string) :
  is_abs (Root opts) = true → Op req = Some op → p ∈ op_paths op →
  isSensitivePath (Filter opts) p = true →
  Success (snd (handled now req opts e)) = false ∧
  calls e (fst (handled now req opts e)) (λ '(s, _, _), mutates s = false ∧ data_paths s = []).
Proof.
  intros Hroot Hop Hp Hs.
  assert (Hclear : ¬ all_clear opts op) by (intros Hc; specialize (Hc p Hp); congruence).
  destruct (handled_sensitive opts now req op e Hroot Hop Hclear) as [Hr Hc]. split; [apply Hr|exact Hc].
Qed.

(** Changes are made under the locks.  Every call that can change a file is
    made while the request holds exactly the locks of the paths it names, once
    they have been recorded as the daemon's own write; when the request has
    been answered the locks it took are released, and its own write was
    recorded at most once. *)
Theorem Handle_changes_locked (now : Z) (req : FileRequest) (opts : HandleOptions) (e : Env)
    (op : Operation) :
  is_abs (Root opts) = true → Locker opts = true → Op req = Some op →
  calls e (fst (handled now req opts e))
    (λ '(s, h, rm), mutates s = true →
       h = held e ++ lock_keys (op_paths op) ∧ rm = remembered e ++ [op_paths op]) ∧
  held (fst (handled now req opts e)) = held e ∧
  (remembered (fst (handled now req opts e)) = remembered e ∨
   remembered (fst (handled now req opts e)) = remembered e ++ [op_paths op]).
Proof.
  intros Hroot Hl Hop. destruct (handled_calls opts now req op e Hroot Hop) as [(Hh & Hrm & _) Ht].
  split_and!; [|done|done]. eapply calls_impl; [exact Ht|].
  intros [[s h] rm] (_ & _ & Hm) Hmut. destruct (Hm Hmut) as (_ & -> & -> & _). by rewrite Hl.
Qed.

(** C38. Every request is answered, and audited once.  The response carries the
    id of the request; it is either a refusal, with a text of the syncer and
    no result, or a success without a text whose result is of the kind the
    operation asks for, about the path the operation names.  With an auditor,
    exactly one record is handed to it, with the id, the outcome and the path
    of the request. *)
Theorem Handle_answers (now : Z) (req : FileRequest) (opts : HandleOptions) (e : Env) :
  is_abs (Root opts) = true →
  let '(_, (r, recs)) := Handle now (Some req) opts e in
  (refusal (RequestId req) r ∨
   ResponseId r = RequestId req ∧ Success r = true ∧ ErrorText r = "" ∧
   ∃ op, Op req = Some op ∧ fits op (Res r)) ∧
  (Auditor opts = false → recs = []) ∧
  (Auditor opts = true → ∃ rec, recs = [rec] ∧ a_request_id rec = RequestId req ∧
     a_success rec = Success r ∧ a_error rec = ErrorText r ∧
     match Op req with
     | Some op => op_paths op = a_path rec :: (if decide (a_operation rec = "rename") then [a_target rec] else [])
     | None => a_operation rec = "unknown"
     end).
Proof.
  intros Hroot.
  assert (Haudit : ∀ r, let recs := auditRequest (Auditor opts) now req r in
    (Auditor opts = false → recs = []) ∧
    (Auditor opts = true → ∃ rec, recs = [rec] ∧ a_request_id rec = RequestId req ∧
     a_success rec = Success r ∧ a_error rec = ErrorText r ∧
     match Op req with
     | Some op => op_paths op = a_path rec :: (if decide (a_operation rec = "rename") then [a_target rec] else [])
     | None => a_operation rec = "unknown"
     end)).
  { intros r. unfold auditRequest. destruct (Auditor opts); [|done]. split; [done|]. intros _.
    destruct (Op req) as [[]|]; by eexists. }
  destruct (Op req) as [op|] eqn:Hop.
  - destruct (Handle_hoare opts now req op (ctx_of e) Hroot Hop e eq_refl) as (Hr & _).
    destruct (Handle _ _ _ _) as [e' [r recs]]. destruct Hr as [(_ & _ & Ha) Hrecs]. simpl in Hrecs. subst recs.
    split; [|apply Haudit]. destruct Ha as [Ha|(?&?&?&?&_)]; [by left|right; eauto 10].
  - unfold Handle. rewrite Hop. split; [|apply Haudit]. left. apply (refusal_err _ "unknown operation").
Qed.

(** A listing shows what is there and nothing sensitive.  While nothing else
    changes the files, a listing that succeeds has, in the order of the
    directory, one entry for each name the directory has whose attributes can
    be read and that the filter does not match; and a read that succeeds
    returns the slice of the file asked for, cut to the largest read allowed. *)
Theorem Handle_reads (w : World) (reqID : string) (opts : HandleOptions)
    `{!Quiet} (path : string) (r : ReadFileReq) :
  asks w (handleListDir reqID (Some path) opts) (λ resp, Success resp = true →
    ∃ abs entries, resolveWorkspacePath (Root opts) path = Ok abs ∧
      look w (SReadDir abs) = Ok entries ∧
      Files <$> GetEntries resp = Some (list_entries (Filter opts) path entries) ∧
      ∀ i, i ∈ list_entries (Filter opts) path entries ↔
        ∃ name fi, (name, Ok fi) ∈ entries ∧ isSensitivePath (Filter opts) (joinRelPath path name) = false ∧
          i = fileInfoFromFS (joinRelPath path name) fi) ∧
  asks w (handleRead reqID (Some r) opts) (λ resp, Success resp = true →
    ∃ abs data, resolveWorkspacePath (Root opts) (rd_path r) = Ok abs ∧
      look w (SReadFile abs) = Ok data ∧
      GetContent resp = let s := sliceContent data (rd_offset r) (rd_length r) in
        if bool_decide (0 < MaxReadSize opts)%Z then take (Z.to_nat (MaxReadSize opts)) s else s).
Proof.
  split.
  - unfold handleListDir. destruct (resolveWorkspacePath _ _) as [abs|]; [|by apply asks_ret].
    eapply asks_bind; [apply blocksSensitivePath_quiet|]. intros b _.
    destruct (block_error b); [by apply asks_ret|]. destruct (is_blocked b); [by apply asks_ret|].
    eapply asks_bind; [by apply (asks_call w (SReadDir abs))|]. intros [entries|] He; [|by apply asks_ret].
    apply asks_ret. intros _. exists abs, entries. split_and!; [done..|]. intros i.
    unfold list_entries. rewrite list_elem_of_omap. split.
    + intros ([name [fi|]] & Hin & Hi); [|done]. destruct (isSensitivePath _ _) eqn:Hs; [done|].
      injection Hi as <-. eauto.
    + intros (name & fi & Hin & Hs & ->). exists (name, Ok fi). by rewrite Hs.
  - unfold handleRead. destruct (resolveWorkspacePath _ _) as [abs|]; [|by apply asks_ret].
    eapply asks_bind; [apply blocksSensitivePath_quiet|]. intros b _.
    destruct (block_error b); [by apply asks_ret|]. destruct (is_blocked b); [by apply asks_ret|].
    eapply asks_bind; [by apply (asks_call w (SReadFile abs))|]. intros [data|] He; [|by apply asks_ret].
    apply asks_ret. intros _. exists abs, data. split_and!; [done..|]. simpl. unfold GetContent. simpl.
    set (s := sliceContent _ _ _). unfold slice. case_bool_decide as Hm; [|done]. simpl.
    rewrite Z.sub_0_r. change (Z.to_nat 0) with 0. rewrite drop_0.
    case_bool_decide; [done|]. by rewrite take_ge by lia.
Qed.
End properties.

(** ** Examples *)

Module HandleExample.
Definition files : Toy.world :=
  [("/w", Toy.TDir); ("/w/a.go", Toy.TFile [x61; x62; x63; x64]); ("/w/.env", Toy.TFile [x73])].
Definition opts : HandleOptions := mk_HandleOptions "/w" 3 true ToyGlob.filter true.
Definition read (p : string) : FileRequest := mk_FileRequest "r1" (Some (ReqRead (mk_ReadFileReq p 1 0))).
Definition remove (p : string) : FileRequest := mk_FileRequest "r2" (Some (ReqDelete p)).

Example read_file :
  snd (handled (H := Toy.fs) 0 (read "./a.go") opts (Toy.start files)) =
    mk_FileResponse "r1" true "" (Some (ResContent [x62; x63; x64])).
Proof. vm_compute. reflexivity. Qed.

Example list_dir :
  option_map (λ t, map FPath (Files t))
    (GetEntries (snd (handled (H := Toy.fs) 0 (mk_FileRequest "r" (Some (ReqListDir ""))) opts (Toy.start files))))
  = Some ["a.go"].
Proof. vm_compute. reflexivity. Qed.
End HandleExample.
Import HandleExample.

Lemma Handle_confined_witness :
  is_abs (Root opts) = true ∧
  calls (H := Toy.fs) (Toy.start files) (fst (handled 0 (remove "a.go") opts (Toy.start files)))
    (λ '(s, _, _), ∀ p, p ∈ data_paths s → confined (Root opts) p).
Proof. split; [reflexivity|]. by apply (Handle_confined (H := Toy.fs)). Defined.

Lemma Handle_refuses_sensitive_witness :
  isSensitivePath (Filter opts) "sub/.env" = true ∧
  Success (snd (handled (H := Toy.fs) 0 (read "sub/.env") opts (Toy.start files))) = false ∧
  calls (H := Toy.fs) (Toy.start files) (fst (handled 0 (read "sub/.env") opts (Toy.start files)))
    (λ '(s, _, _), mutates s = false ∧ data_paths s = []).
Proof.
  split; [vm_compute; reflexivity|].
  apply (Handle_refuses_sensitive (H := Toy.fs) 0 (read "sub/.env") opts (Toy.start files)
    (ReqRead (mk_ReadFileReq "sub/.env" 1 0)) "sub/.env");
    [reflexivity|reflexivity|by apply list_elem_of_singleton|vm_compute; reflexivity].
Defined.

Lemma Handle_changes_locked_witness :
  is_abs (Root opts) = true ∧
  held (fst (handled (H := Toy.fs) 0 (remove "a.go") opts (Toy.start files))) = [].
Proof.
  split; [reflexivity|].
  by destruct (Handle_changes_locked (H := Toy.fs) 0 (remove "a.go") opts (Toy.start files) (ReqDelete "a.go"))
    as (_ & ? & _).
Defined.

Lemma Handle_answers_witness :
  is_abs (Root opts) = true ∧
  let '(_, (r, recs)) := Handle (H := Toy.fs) 0 (Some (remove "a.go")) opts (Toy.start files) in
  Success r = true ∧ length recs = 1.
Proof.
  split; [reflexivity|].
  pose proof (Handle_answers (H := Toy.fs) 0 (remove "a.go") opts (Toy.start files) eq_refl) as Ha.
  assert (Hs : Success (snd (handled (H := Toy.fs) 0 (remove "a.go") opts (Toy.start files))) = true)
    by (vm_compute; reflexivity).
  unfold handled in Hs.
  destruct (Handle 0 (Some (remove "a.go")) opts (Toy.start files)) as [e' [r recs]].
  destruct Ha as (_ & _ & Ha). destruct (Ha eq_refl) as (rec & -> & _). split; [exact Hs|reflexivity].
Defined.

Lemma Handle_reads_witness :
  asks (H := Toy.fs) files (handleRead "r1" (Some (mk_ReadFileReq "a.go" 1 0)) opts) (λ resp, Success resp = true →
    ∃ abs data, resolveWorkspacePath (Root opts) "a.go" = Ok abs ∧
      look (H := Toy.fs) files (SReadFile abs) = Ok data ∧
      GetContent resp = let s := sliceContent data 1 0 in
        if bool_decide (0 < MaxReadSize opts)%Z then take (Z.to_nat (MaxReadSize opts)) s else s).
Proof.
  exact (proj2 (Handle_reads (H := Toy.fs) files "r1" opts "" (mk_ReadFileReq "a.go" 1 0))).
Defined.
