(* ===== verification/LogX.v ===== *)
(** * The log files (pkg/logx/logx.go)

    Where a logger writes, what it rotates, how it is closed, and how it travels
    in a context.  The encoders, the levels and the rotation are zap's and
    lumberjack's, the home directory and making directories the system's. *)
From S2P Require Import Prelude GoPath.
From stdpp Require Import options.

Class Logging := {
  Level : Type;
  InfoLevel : Level;
  ParseLevel : string → result string Level;
  UserHomeDir : result string string;
  TempDir : string;
  MkdirAll : string → option string;
}.

Inductive Format : Type := FormatJSON | FormatText.

Definition DefaultFilename : string := "rclaude.log".
Definition DefaultMaxSizeMB : Z := 100.
Definition DefaultMaxBackups : Z := 3.
Definition DefaultMaxAgeDays : Z := 7.

(** [FormatOf] is a string; [Output]: a writer is injected. *)
Record Options : Type := mk_Options {
  LevelOf : string; FormatOf : string; Dir : string; Filename : string;
  MaxSizeMB : Z; MaxBackups : Z; MaxAgeDays : Z; Output : bool }.

Inductive error : Type :=
  | ErrParseLevel (level text : string)              (* "logx: parse log level %q: %w" *)
  | ErrCreateDir (dir text : string).                (* "logx: create log dir %q: %w" *)

(** [*lumberjack.Logger], or the injected writer. *)
Inductive sink : Type :=
  | Injected
  | File (path : string) (max_size max_backups max_age : Z).

Section logger.
Context `{Logging}.

(** [strings.EqualFold] with "text", whose letters have no other folding than
    their capitals. *)
Definition normalizeFormat (f : string) : Format := if decide (to_lower f = "text") then FormatText else FormatJSON.

Definition positiveOrDefault (v fallback : Z) : Z := if decide (0 < v)%Z then v else fallback.

Definition DefaultDir : string :=
  match UserHomeDir with
  | Err _ => filepath_join [TempDir; "rclaude"; "logs"]
  | Ok home => if decide (home = "") then filepath_join [TempDir; "rclaude"; "logs"] else filepath_join [home; ".rclaude"; "logs"]
  end.

Definition parseLevel (level : string) : result error Level :=
  if decide (trim_space level = "") then Ok InfoLevel
  else map_err (ErrParseLevel level) (ParseLevel (to_lower (trim_space level))).

(** The sink, and whether there is something to close. *)
Definition openSink (opts : Options) : result error (sink * bool) :=
  if Output opts then Ok (Injected, false)
  else
    let dir := if decide (Dir opts = "") then DefaultDir else Dir opts in
    match MkdirAll dir with
    | Some text => Err (ErrCreateDir dir text)
    | None =>
      let name := if decide (Filename opts = "") then DefaultFilename else Filename opts in
      Ok (File (filepath_join [dir; name]) (positiveOrDefault (MaxSizeMB opts) DefaultMaxSizeMB)
            (positiveOrDefault (MaxBackups opts) DefaultMaxBackups) (positiveOrDefault (MaxAgeDays opts) DefaultMaxAgeDays), true)
    end.

Record FileLogger : Type := mk_FileLogger { lg_level : Level; lg_format : Format; lg_sink : sink; closer : bool }.

Definition New (opts : Options) : result error FileLogger :=
  level ← parseLevel (LevelOf opts);
  '(s, closer) ← openSink opts;
  Ok (mk_FileLogger level (normalizeFormat (FormatOf opts)) s closer).

(** [Close], given the answers of [Sync] and of the closer: the calls it makes and
    the errors it joins. *)
Inductive call : Type := Sync | CloseFile.
Definition FileLogger_Close (l : FileLogger) (sync close : option string) : list call * list string :=
  let errs := option_list sync in
  if closer l then ([Sync; CloseFile], errs ++ option_list close) else ([Sync], errs).
End logger.

(** ** Loggers in contexts *)

(** A nil logger is [None]; a context has its values, the last set first. *)
Section contexts.
Context {Logger : Type} (Nop : Logger).

Definition WithContext (ctx : list Logger) (l : option Logger) : list Logger :=
  match l with None => ctx | Some l => l :: ctx end.
Definition FromContext (ctx : option (list Logger)) : Logger :=
  match ctx with Some (l :: _) => l | _ => Nop end.

Lemma FromContext_WithContext ctx l :
  FromContext (Some (WithContext ctx l)) = match l with Some l => l | None => FromContext (Some ctx) end.
Proof. by destruct l. Qed.
End contexts.

(** ** Facts *)

Section facts.
Context `{Logging}.

(** A logger writes to a file, unless a writer was injected: never to a terminal.
    Its directory was made, and what it keeps is bounded. *)
Lemma New_file opts l : New opts = Ok l → Output opts = false →
  ∃ dir size backups age, lg_sink l = File (filepath_join [dir; if decide (Filename opts = "") then DefaultFilename else Filename opts]) size backups age ∧
    MkdirAll dir = None ∧ (0 < size ∧ 0 < backups ∧ 0 < age)%Z ∧ closer l = true.
Proof.
  unfold New. intros (level & _ & Hs)%result_bind_Ok Ho. unfold openSink in Hs. rewrite Ho in Hs.
  set (dir := if decide (Dir opts = "") then DefaultDir else Dir opts) in Hs.
  destruct (MkdirAll dir) as [t|] eqn:Hm; [done|]. injection Hs as <-. cbn. exists dir. do 3 eexists. split; [done|]. split; [done|].
  unfold positiveOrDefault, DefaultMaxSizeMB, DefaultMaxBackups, DefaultMaxAgeDays. repeat case_decide; lia.
Qed.

(** Nothing is made when the level is wrong; and the default level is info. *)
Lemma New_level opts l : New opts = Ok l →
  (trim_space (LevelOf opts) = "" ∧ lg_level l = InfoLevel) ∨ ParseLevel (to_lower (trim_space (LevelOf opts))) = Ok (lg_level l).
Proof.
  unfold New. intros (level & Hl & Hs)%result_bind_Ok. destruct (openSink opts) as [ [s c]|]; [|done]. injection Hs as <-. cbn.
  unfold parseLevel in Hl. case_decide; [left; by simplify_eq|right]. by destruct (ParseLevel _); simplify_eq/=.
Qed.

(** Closing closes the file also when flushing it failed, and reports both. *)
Lemma Close_both l sync close : closer l = true →
  FileLogger_Close l sync close = ([Sync; CloseFile], option_list sync ++ option_list close).
Proof. unfold FileLogger_Close. by intros ->. Qed.
End facts.
