(* ===== verification/Config.v ===== *)
(** * The configuration (pkg/config/config.go)

    The two configurations, their defaults and the checks that also fill in what
    is left out.  Reading the YAML file and the environment, and decoding them
    over the defaults, is the viper package's.  Durations are nanoseconds. *)
From S2P Require Import Prelude GoPath.
From stdpp Require Import options.

Definition second : Z := 1000000000.

Definition DefaultRequestTimeout : Z := 10 * second.
Definition DefaultSelfWriteTTL : Z := 2 * second.
Definition DefaultOfflineReadOnlyTTL : Z := 300 * second.
Definition DefaultPrefetchEnabled : bool := true.
Definition DefaultPrefetchMaxFileBytes : Z := 100 * 1024.
Definition DefaultPrefetchMaxFilesPerDir : Z := 16.
Definition DefaultAuditTable : string := "file_audit_log".
Definition DefaultAuditQueueSize : Z := 256.

Inductive error : Type :=
  | ErrEmptyServerAddress
  | ErrEmptyListen
  | ErrEmptyTokens
  | ErrMountpointNotAbs
  | ErrAuditDriverInvalid
  | ErrAuditDSNRequired
  | ErrAuditTableInvalid
  | ReadFailed (path text : string)             (* "config: read %q: %w" *)
  | UnmarshalFailed (path text : string).       (* "config: unmarshal %q: %w" *)

#[export] Instance config_error_eq_dec : EqDecision error.
Proof. solve_decision. Defined.

(** ** The data *)

Record ServerTLSConfig : Type := mk_ServerTLSConfig {
  TLSEnabled : bool; ServerName : string; CAFile : string; InsecureSkipVerify : bool }.

Record ServerEndpoint : Type := mk_ServerEndpoint { Address : string; Token : string; TLS : ServerTLSConfig }.

Record Workspace : Type := mk_Workspace { Exclude : list string; SensitivePatterns : list string }.

Record AuditConfig : Type := mk_AuditConfig {
  Enabled : bool; Driver : string; DSN : string; Table : string; QueueSize : Z }.

Record DaemonConfig : Type := mk_DaemonConfig {
  Server : ServerEndpoint; WorkspaceOf : Workspace; Audit : AuditConfig; SelfWriteTTL : Z }.

Record PrefetchConfig : Type := mk_PrefetchConfig { PrefetchEnabled : bool; MaxFileBytes : Z; MaxFilesPerDir : Z }.

Record ServerConfig : Type := mk_ServerConfig {
  Listen : string;
  Tokens : gmap string string;          (* [Auth.Tokens] *)
  Mountpoint : string;                  (* [FUSE.Mountpoint] *)
  MaxBytes : Z;                         (* [Cache.MaxBytes] *)
  Prefetch : PrefetchConfig;
  RequestTimeout : Z;
  OfflineReadOnlyTTL : Z }.

(** ** The checks *)

Fixpoint all_chars (f : ascii → bool) (s : string) : bool :=
  match s with EmptyString => true | String c s => f c && all_chars f s end.

(** The regular expression [^[A-Za-z0-9_]+$]. *)
Definition identifier_char (c : ascii) : bool :=
  byte_in "A" "Z" c || byte_in "a" "z" c || byte_in "0" "9" c || bool_decide (c = "_"%char).
Definition auditTablePattern (s : string) : bool :=
  negb (bool_decide (s = "")) && all_chars identifier_char s.

Definition IsSupportedAuditDriver (driver : string) : bool :=
  bool_decide (to_lower (trim_space driver) ∈ ["sqlite"; "sqlite3"; "mysql"; "postgres"; "postgresql"; "pgsql"]).

(** [Validate] also changes the configuration it is given, whatever it answers:
    the defaults of [validateAudit], and then its checks. *)
Definition fill_audit (a : AuditConfig) : AuditConfig :=
  let a := if decide (Table a = "") then mk_AuditConfig (Enabled a) (Driver a) (DSN a) DefaultAuditTable (QueueSize a) else a in
  if decide (QueueSize a ≤ 0)%Z then mk_AuditConfig (Enabled a) (Driver a) (DSN a) (Table a) DefaultAuditQueueSize else a.

Definition check_audit (a : AuditConfig) : option error :=
  if negb (Enabled a) then None
  else if negb (IsSupportedAuditDriver (Driver a)) then Some ErrAuditDriverInvalid
  else if decide (trim_space (DSN a) = "") then Some ErrAuditDSNRequired
  else if negb (auditTablePattern (Table a)) then Some ErrAuditTableInvalid
  else None.

Definition validateAudit (a : AuditConfig) : AuditConfig * option error :=
  let a := fill_audit a in (a, check_audit a).

Definition DaemonConfig_Validate (c : DaemonConfig) : DaemonConfig * option error :=
  if decide (trim_space (Address (Server c)) = "") then (c, Some ErrEmptyServerAddress)
  else
    let ttl := if decide (SelfWriteTTL c ≤ 0)%Z then DefaultSelfWriteTTL else SelfWriteTTL c in
    let '(a, err) := validateAudit (Audit c) in
    (mk_DaemonConfig (Server c) (WorkspaceOf c) a ttl, err).

Definition ServerConfig_Validate (c : ServerConfig) : ServerConfig * option error :=
  if decide (trim_space (Listen c) = "") then (c, Some ErrEmptyListen)
  else if decide (size (Tokens c) = 0) then (c, Some ErrEmptyTokens)
  else if negb (is_abs (Mountpoint c)) then (c, Some ErrMountpointNotAbs)
  else if decide (RequestTimeout c ≤ 0)%Z
    then (mk_ServerConfig (Listen c) (Tokens c) (Mountpoint c) (MaxBytes c) (Prefetch c) DefaultRequestTimeout (OfflineReadOnlyTTL c), None)
    else (c, None).

(** ** The defaults *)

Definition no_tls : ServerTLSConfig := mk_ServerTLSConfig false "" "" false.

Definition defaultDaemonConfig : DaemonConfig :=
  mk_DaemonConfig (mk_ServerEndpoint "" "" no_tls) (mk_Workspace [] [])
    (mk_AuditConfig false "" "" DefaultAuditTable DefaultAuditQueueSize) DefaultSelfWriteTTL.

Definition defaultServerConfig : ServerConfig :=
  mk_ServerConfig "" ∅ "" 0 (mk_PrefetchConfig DefaultPrefetchEnabled DefaultPrefetchMaxFileBytes DefaultPrefetchMaxFilesPerDir)
    DefaultRequestTimeout DefaultOfflineReadOnlyTTL.

(** ** Loading *)

(** A viper instance set up for a file: reading it, and decoding what was read
    over a configuration, of which the keys that are not set keep their value. *)
Class Viper := {
  Settings : Type;
  ReadInConfig : string → result string Settings;
  UnmarshalDaemon : Settings → DaemonConfig → result string DaemonConfig;
  UnmarshalServer : Settings → ServerConfig → result string ServerConfig;
}.

Section load.
Context `{Viper}.

Definition loadYAML {A : Type} (unmarshal : Settings → A → result string A) (path : string) (out : A) : result error A :=
  v ← map_err (ReadFailed path) (ReadInConfig path);
  map_err (UnmarshalFailed path) (unmarshal v out).

Definition validated {A : Type} (r : A * option error) : result error A :=
  match r with (c, None) => Ok c | (_, Some e) => Err e end.

Definition LoadDaemon (path : string) : result error DaemonConfig :=
  cfg ← loadYAML UnmarshalDaemon path defaultDaemonConfig; validated (DaemonConfig_Validate cfg).

Definition LoadServer (path : string) : result error ServerConfig :=
  cfg ← loadYAML UnmarshalServer path defaultServerConfig; validated (ServerConfig_Validate cfg).
End load.

(** ** Well-formed configurations *)

(** What the rest of the program relies on. *)
Record audit_usable (a : AuditConfig) : Prop := {
  au_driver : IsSupportedAuditDriver (Driver a) = true;
  au_dsn : trim_space (DSN a) ≠ "";
  au_table : auditTablePattern (Table a) = true;
}.

Record valid_audit (a : AuditConfig) : Prop := {
  va_table : Table a ≠ "";
  va_queue : (0 < QueueSize a)%Z;
  va_enabled : Enabled a = true → audit_usable a;
}.

Record valid_daemon (c : DaemonConfig) : Prop := {
  vd_address : trim_space (Address (Server c)) ≠ "";
  vd_ttl : (0 < SelfWriteTTL c)%Z;
  vd_audit : valid_audit (Audit c);
}.

Record valid_server (c : ServerConfig) : Prop := {
  vs_listen : trim_space (Listen c) ≠ "";
  vs_tokens : Tokens c ≠ ∅;
  vs_mountpoint : is_abs (Mountpoint c) = true;
  vs_timeout : (0 < RequestTimeout c)%Z;
}.

Lemma check_audit_None a : check_audit a = None ↔ (Enabled a = true → audit_usable a).
Proof.
  unfold check_audit. destruct (Enabled a); cbn; [|done].
  destruct (IsSupportedAuditDriver (Driver a)) eqn:Hd; cbn; [|split; [done|intros Hu; destruct (Hu eq_refl); congruence] ].
  destruct (decide (trim_space (DSN a) = "")) as [Hs|Hs]; [split; [done|intros Hu; by destruct (Hu eq_refl)]|].
  destruct (auditTablePattern (Table a)) eqn:Ht; cbn; [done|]. split; [done|intros Hu; destruct (Hu eq_refl); congruence].
Qed.

Lemma fill_audit_set a : Table (fill_audit a) ≠ "" ∧ (0 < QueueSize (fill_audit a))%Z.
Proof. unfold fill_audit. unfold DefaultAuditQueueSize. repeat case_decide; cbn in *; (split; [done|lia]). Qed.

Lemma fill_audit_id a : Table a ≠ "" → (0 < QueueSize a)%Z → fill_audit a = a.
Proof. intros Ht Hq. unfold fill_audit. rewrite (decide_False (P := Table a = "")) by done. apply decide_False. lia. Qed.

Lemma fill_audit_Enabled a : Enabled (fill_audit a) = Enabled a.
Proof. unfold fill_audit. by repeat case_decide. Qed.

Lemma validateAudit_accepts a : validateAudit a = (a, None) ↔ valid_audit a.
Proof.
  unfold validateAudit. cbn zeta. pose proof (fill_audit_set a) as [Ht Hq]. split.
  - intros [= Hf Hc]. rewrite Hf in *. constructor; [done..|]. by apply check_audit_None.
  - intros [Ht' Hq' Hu]. rewrite fill_audit_id by done. by rewrite (proj2 (check_audit_None a) Hu).
Qed.

Lemma DaemonConfig_Validate_accepts c : DaemonConfig_Validate c = (c, None) ↔ valid_daemon c.
Proof.
  unfold DaemonConfig_Validate. destruct c as [sv ws a ttl]. cbn [Server Audit WorkspaceOf SelfWriteTTL]. destruct (decide (trim_space (Address sv) = "")) as [E|E].
  { split; [done|by intros []]. }
  pose proof (validateAudit_accepts a) as Ha. split.
  - destruct (validateAudit a) as [a' err] eqn:Hv. intros [= -> Ht ->]. constructor; cbn; [done| |by apply Ha].
    case_decide; unfold DefaultSelfWriteTTL, second in *; lia.
  - intros [_ Ht Hva]. cbn [SelfWriteTTL Audit] in Ht, Hva. rewrite (proj2 Ha Hva). by rewrite decide_False by lia.
Qed.

Lemma DaemonConfig_Validate_valid c c' : DaemonConfig_Validate c = (c', None) → valid_daemon c'.
Proof.
  unfold DaemonConfig_Validate. destruct (decide (trim_space (Address (Server c)) = "")) as [E|E]; [done|].
  unfold validateAudit. intros [= <- Hc]. constructor; cbn; [done| |].
  - case_decide; unfold DefaultSelfWriteTTL, second in *; lia.
  - destruct (fill_audit_set (Audit c)). constructor; [done..|]. by apply check_audit_None.
Qed.

Lemma ServerConfig_Validate_accepts c : ServerConfig_Validate c = (c, None) ↔ valid_server c.
Proof.
  unfold ServerConfig_Validate. destruct (decide (trim_space (Listen c) = "")) as [E|E]; [split; [done|by intros []]|].
  destruct (decide (size (Tokens c) = 0)) as [E2|E2].
  { split; [done|]. intros [_ Hn _ _]. by apply map_size_empty_inv in E2. }
  destruct (is_abs (Mountpoint c)) eqn:E3; cbn; [|split; [done|intros []; congruence] ].
  destruct (decide (RequestTimeout c ≤ 0)%Z) as [E4|E4].
  - split; [|by intros [_ _ _ ?]; lia]. intros [= Hc]. destruct c. cbn in *. by simplify_eq.
  - split; [intros _|done]. constructor; [done| |done|lia]. intros Ht. rewrite Ht in E2. by rewrite map_size_empty in E2.
Qed.

Lemma ServerConfig_Validate_valid c c' : ServerConfig_Validate c = (c', None) → valid_server c'.
Proof.
  unfold ServerConfig_Validate. destruct (decide (trim_space (Listen c) = "")); [done|].
  destruct (decide (size (Tokens c) = 0)) as [|Hn]; [done|]. destruct (is_abs (Mountpoint c)) eqn:Ha; [|done]. cbn.
  assert (Tokens c ≠ ∅) by (intros E; rewrite E in Hn; by rewrite map_size_empty in Hn).
  destruct (decide (RequestTimeout c ≤ 0)%Z); intros [= <-]; constructor; cbn; try done. lia.
Qed.

Section load_facts.
Context `{Viper}.

Lemma loaded_daemon path c : LoadDaemon path = Ok c → valid_daemon c.
Proof.
  unfold LoadDaemon. intros (d & _ & Hv)%result_bind_Ok. destruct (DaemonConfig_Validate d) as [c' [e|]] eqn:Hd; [done|].
  injection Hv as ->. by eapply DaemonConfig_Validate_valid.
Qed.

Lemma loaded_server path c : LoadServer path = Ok c → valid_server c.
Proof.
  unfold LoadServer. intros (d & _ & Hv)%result_bind_Ok. destruct (ServerConfig_Validate d) as [c' [e|]] eqn:Hd; [done|].
  injection Hv as ->. by eapply ServerConfig_Validate_valid.
Qed.

(** C23. What is loaded is well-formed.  A configuration that was loaded has an
    address or tokens, positive times and queue sizes, an absolute mount point,
    and when auditing is enabled a driver, a source and a table the audit store
    takes; and [Validate] accepts exactly the well-formed configurations without
    changing them, so that checking a loaded configuration again, as the daemon
    does, changes nothing. *)
Theorem loaded_valid (path : string) (c : DaemonConfig) (d : ServerConfig) :
  (LoadDaemon path = Ok c → valid_daemon c) ∧ (LoadServer path = Ok d → valid_server d) ∧
  (DaemonConfig_Validate c = (c, None) ↔ valid_daemon c) ∧ (ServerConfig_Validate d = (d, None) ↔ valid_server d).
Proof.
  split_and!; [apply loaded_daemon|apply loaded_server|apply DaemonConfig_Validate_accepts|apply ServerConfig_Validate_accepts].
Qed.
End load_facts.

(** A viper that reads settings that were put down as changes of the defaults. *)
Module ConfigExample.
Definition viper : Viper := {|
  Settings := string * string;
  ReadInConfig path := if decide (path = "daemon.yaml") then Ok ("host:9326", "PostgreSQL ") else Err "no such file";
  UnmarshalDaemon v c := Ok (mk_DaemonConfig (mk_ServerEndpoint (fst v) "" no_tls) (WorkspaceOf c)
    (mk_AuditConfig true (snd v) "postgres://h/db" "" (QueueSize (Audit c))) 0);
  UnmarshalServer v c := Ok c |}.

Definition audit : AuditConfig := mk_AuditConfig true "PostgreSQL " "postgres://h/db" "file_audit_log" 256.

Example load_daemon :
  LoadDaemon (H := viper) "daemon.yaml" =
    Ok (mk_DaemonConfig (mk_ServerEndpoint "host:9326" "" no_tls) (mk_Workspace [] []) audit DefaultSelfWriteTTL).
Proof. vm_compute. reflexivity. Qed.
Example load_missing : LoadServer (H := viper) "server.yaml" = Err (ReadFailed "server.yaml" "no such file").
Proof. vm_compute. reflexivity. Qed.
Example load_incomplete : LoadServer (H := viper) "daemon.yaml" = Err ErrEmptyListen.
Proof. vm_compute. reflexivity. Qed.
End ConfigExample.
