(* ===== verification/RateLimit.v ===== *)
(** * The rate limiters (pkg/ratelimit/limiter.go)

    A bucket of tokens in IEEE double precision, as the code has it, and the calls
    of [Wait] that share it, as steps of goroutines that interleave: one step for
    the section under the mutex and one for the time it waits.  Times are
    nanoseconds; what a conversion to an integer does out of range is left to the
    architecture, as Go does. *)
From S2P Require Import Prelude.
From Stdlib Require Import SpecFloat.
From stdpp Require Import options.

(** ** float64 *)

Abbreviation float64 := spec_float.
Definition prec : Z := 53.
Definition emax : Z := 1024.

Definition float64_of (z : Z) : float64 := binary_normalize prec emax z 0 false.
Definition f_add : float64 → float64 → float64 := SFadd prec emax.
Definition f_sub : float64 → float64 → float64 := SFsub prec emax.
Definition f_mul : float64 → float64 → float64 := SFmul prec emax.
Definition f_div : float64 → float64 → float64 := SFdiv prec emax.
Definition f_lt : float64 → float64 → bool := SFltb.

Class Arch := duration_out_of_range : float64 → Z.

(** [int64(math.Ceil(f))], in two steps in the code; [None]: out of range *)
Definition ceil (f : float64) : option Z :=
  match f with
  | S754_zero _ => Some 0%Z
  | S754_finite s m e =>
    let v := cond_Zopp s (Zpos m) in
    let z := if decide (0 ≤ e)%Z then (v * 2 ^ e)%Z else (- ((- v) / 2 ^ (- e)))%Z in
    if decide (- 2 ^ 63 ≤ z < 2 ^ 63)%Z then Some z else None
  | S754_infinity _ | S754_nan => None
  end.

Definition Second : Z := 1000000000.

(** [Duration.Seconds] *)
Definition Seconds (d : Z) : float64 :=
  f_add (float64_of (Z.quot d Second)) (f_div (float64_of (Z.rem d Second)) (float64_of Second)).

(** ** The limiter *)

(** [last]: [None] is the zero time. *)
Record Limiter : Type := mk_Limiter { rate : Z; burst : float64; tokens : float64; last : option Z }.

Definition New (now rate burst : Z) : Limiter :=
  if decide (rate ≤ 0)%Z then mk_Limiter 0 (S754_zero false) (S754_zero false) None
  else
    let effectiveBurst := if decide (burst ≤ 0)%Z then rate else burst in
    mk_Limiter rate (float64_of effectiveBurst) (float64_of effectiveBurst) (Some now).

(** A [ByteLimiter] holds a limiter, and its [WaitBytes] is [Wait]. *)
Definition NewBytesPerSecondBurst (now limit burst : Z) : Limiter := New now limit burst.
Definition NewBytesPerSecond (now limit : Z) : Limiter := NewBytesPerSecondBurst now limit limit.
Definition NewPTYAttachLimiter (now qps burst : Z) : Limiter := New now qps burst.
Definition NewPTYStdinLimiter (now bps burst : Z) : Limiter := NewBytesPerSecondBurst now bps burst.

Definition Enabled (l : Limiter) : bool := bool_decide (0 < rate l)%Z.

Definition refillLocked (now : Z) (l : Limiter) : Limiter :=
  if negb (Enabled l) then l
  else
    match last l with
    | None => mk_Limiter (rate l) (burst l) (tokens l) (Some now)
    | Some t =>
      let elapsed := (now - t)%Z in
      if decide (elapsed ≤ 0)%Z then l
      else
        let tokens := f_add (tokens l) (f_mul (float64_of (rate l)) (Seconds elapsed)) in
        mk_Limiter (rate l) (burst l) (if f_lt (burst l) tokens then burst l else tokens) (Some now)
    end.

Definition minFloat64 (a b : float64) : float64 := if f_lt a b then a else b.

Definition zero : float64 := S754_zero false.
Definition one : float64 := float64_of 1.
#[global] Arguments one : simpl never.
#[global] Arguments float64_of : simpl never.

Section waiting.
Context `{Arch}.

Definition durationForUnits (units : float64) (rate : Z) : Z :=
  if SFleb units zero || bool_decide (rate ≤ 0)%Z then 0
  else
    let nanos := f_mul (f_div units (float64_of rate)) (float64_of Second) in
    match ceil nanos with
    | Some z => if decide (z < 1)%Z then 1%Z else z
    | None => duration_out_of_range nanos
    end.

(** The section under the mutex: what remains, and how long to wait for more. *)
Definition take (now : Z) (remaining : float64) (l : Limiter) : Limiter * float64 * Z :=
  let l := refillLocked now l in
  let '(l, remaining) :=
    if f_lt zero (tokens l) then
      let consume := minFloat64 remaining (tokens l) in
      (mk_Limiter (rate l) (burst l) (f_sub (tokens l) consume) (last l), f_sub remaining consume)
    else (l, remaining) in
  let waitFor :=
    if f_lt zero remaining then
      let nextChunk := minFloat64 remaining (burst l) in
      let need := f_sub nextChunk (tokens l) in
      durationForUnits (if f_lt need one then one else need) (rate l)
    else 0%Z in
  (l, remaining, waitFor).

(** A call of [Wait]: before the mutex, waiting, or returned. *)
Inductive waiter : Type :=
  | WLock (remaining : float64)
  | WSleep (remaining : float64) (waitFor : Z)
  | WReturned (err : option string).

(** The call of [Wait] for [n] units. *)
Definition Wait (l : Limiter) (n : Z) : waiter :=
  if negb (Enabled l) || bool_decide (n ≤ 0)%Z then WReturned None
  else if f_lt zero (float64_of n) then WLock (float64_of n) else WReturned None.

(** [Wait], under the mutex *)
Definition wait_step (now : Z) (w : waiter) (l : Limiter) : option (waiter * Limiter) :=
  match w with
  | WLock remaining =>
    let '(l, remaining, waitFor) := take now remaining l in
    Some (if f_lt zero remaining then WSleep remaining waitFor else WReturned None, l)
  | _ => None
  end.

(** [waitContext]: the context's error, or the time has passed *)
Definition waitContext (err : option string) (w : waiter) : option waiter :=
  match w with
  | WSleep remaining _ => Some match err with Some e => WReturned (Some e) | None => WLock remaining end
  | _ => None
  end.

(** The limiter and the calls that share it. *)
Inductive label : Type := LWait (n : Z) | LTake (i : nat) (now : Z) | LWoken (i : nat) (err : option string).

Definition exec (lb : label) (s : Limiter * list waiter) : option (Limiter * list waiter) :=
  let '(l, ws) := s in
  match lb with
  | LWait n => Some (l, ws ++ [Wait l n])
  | LTake i now => w ← ws !! i; '(w, l) ← wait_step now w l; Some (l, <[i := w]> ws)
  | LWoken i err => w ← ws !! i; w ← waitContext err w; Some (l, <[i := w]> ws)
  end.

Fixpoint run (ls : list label) (s : Limiter * list waiter) : option (Limiter * list waiter) :=
  match ls with [] => Some s | lb :: ls => s ← exec lb s; run ls s end.
End waiting.

(** ** Facts *)

Lemma refill_keeps now l : rate (refillLocked now l) = rate l ∧ burst (refillLocked now l) = burst l.
Proof. unfold refillLocked. destruct (negb (Enabled l)), (last l); [done..| |done]. by case_decide. Qed.

(** The bucket does not overflow: what time has added is cut at the burst. *)
Lemma refill_capped now t l : Enabled l = true → last l = Some t → (t < now)%Z →
  f_lt (burst l) (tokens (refillLocked now l)) = false ∨ tokens (refillLocked now l) = burst l.
Proof.
  intros He Hl Ht. unfold refillLocked. rewrite He, Hl. cbn. rewrite decide_False by lia. cbn.
  destruct (f_lt (burst l) (f_add _ _)) eqn:E; [by right|by left].
Qed.

(** Time that does not pass adds nothing. *)
Lemma refill_idle now t l : last l = Some t → (now ≤ t)%Z → refillLocked now l = l.
Proof. intros Hl Ht. unfold refillLocked. rewrite Hl. destruct (negb (Enabled l)); [done|]. by rewrite decide_True by lia. Qed.

Lemma one_eq : one = S754_finite false 4503599627370496 (-52).
Proof. vm_compute. reflexivity. Qed.

Lemma at_least_one need : SFleb (if f_lt need one then one else need) zero = false.
Proof.
  rewrite one_eq. destruct need as [ [] | [] | | [] m e]; try reflexivity. by destruct (f_lt (S754_finite false m e) _).
Qed.

Section facts.
Context `{Arch}.

(** A wait that is not out of range lasts at least a nanosecond. *)
Lemma durationForUnits_pos units rate : SFleb units zero = false → (0 < rate)%Z →
  (1 ≤ durationForUnits units rate)%Z ∨
  durationForUnits units rate = duration_out_of_range (f_mul (f_div units (float64_of rate)) (float64_of Second)).
Proof.
  intros Hu Hr. unfold durationForUnits. rewrite Hu, bool_decide_eq_false_2 by lia. cbn [orb].
  destruct (ceil _) as [z|]; [left; case_decide; lia|by right].
Qed.

Lemma take_waits now remaining l l' remaining' d : Enabled l = true → take now remaining l = (l', remaining', d) →
  rate l' = rate l ∧ burst l' = burst l ∧
  (f_lt zero remaining' = false → d = 0%Z) ∧
  (f_lt zero remaining' = true → (1 ≤ d)%Z ∨ ∃ f, d = duration_out_of_range f).
Proof.
  intros He. unfold take. destruct (refill_keeps now l) as [Hr Hb]. apply bool_decide_eq_true in He.
  destruct (f_lt zero (tokens (refillLocked now l))); intros [= <- <- <-]; cbn; (split_and!; [done..| |]).
  all: destruct (f_lt zero _) eqn:E; (done || intros _).
  all: match goal with |- context [durationForUnits (if f_lt ?n one then _ else _) ?r] =>
    destruct (durationForUnits_pos (if f_lt n one then one else n) r (at_least_one n)) as [?|Hd] end; [congruence|by left|right; rewrite Hd; by eexists].
Qed.

(** A limiter that is off lets everything pass, and so does nothing of units. *)
Lemma Wait_off l n : Enabled l = false ∨ (n ≤ 0)%Z → Wait l n = WReturned None.
Proof. unfold Wait. intros [->|Hn]; [done|]. by rewrite (bool_decide_eq_true_2 (n ≤ 0)%Z), orb_true_r. Qed.

(** The calls of a limiter: an error is the context's, and who waits has units left
    and a time to wait. *)
Definition waiting_ok (w : waiter) : Prop :=
  match w with
  | WSleep remaining d => f_lt zero remaining = true ∧ ((1 ≤ d)%Z ∨ ∃ f, d = duration_out_of_range f)
  | _ => True
  end.

Lemma exec_waiting lb s s' : Enabled (fst s) = true → exec lb s = Some s' → Forall waiting_ok (snd s) →
  Enabled (fst s') = true ∧ rate (fst s') = rate (fst s) ∧ burst (fst s') = burst (fst s) ∧ Forall waiting_ok (snd s').
Proof.
  destruct s as [l ws]. cbn. intros He Hs Hw. destruct lb as [n|i now|i err]; cbn in Hs.
  - injection Hs as <-. cbn. split_and!; [done..|]. apply Forall_app. split; [done|]. constructor; [|done]. unfold Wait. by repeat case_match.
  - destruct (ws !! i) as [w|] eqn:Hi; [|done]. cbn in Hs. destruct w as [r| |]; try done. cbn in Hs.
    destruct (take now r l) as [ [l1 r1] d] eqn:Ht. cbn in Hs. injection Hs as <-. cbn.
    destruct (take_waits _ _ _ _ _ _ He Ht) as (Hr & Hb & _ & Hd). split_and!; [|done..|].
    + unfold Enabled in *. by rewrite Hr.
    + apply Forall_insert; [done|]. destruct (f_lt zero r1) eqn:E; [|done]. split; [done|]. by apply Hd.
  - destruct (ws !! i) as [w|] eqn:Hi; [|done]. cbn in Hs. destruct w as [|r d|]; try done. cbn in Hs. injection Hs as <-. cbn.
    split_and!; [done..|]. apply Forall_insert; [done|]. by destruct err.
Qed.

Lemma run_waiting ls s s' : Enabled (fst s) = true → run ls s = Some s' → Forall waiting_ok (snd s) →
  rate (fst s') = rate (fst s) ∧ burst (fst s') = burst (fst s) ∧ Forall waiting_ok (snd s').
Proof.
  revert s. induction ls as [|lb ls IH]; intros s He; cbn; [by intros [= ->]|]. destruct (exec lb s) as [s1|] eqn:E; [|done]. cbn.
  intros Hr Hw. destruct (exec_waiting _ _ _ He E Hw) as (He1 & <- & <- & Hw1). by apply IH.
Qed.

(** ** Examples: the cases of the tests *)

(** 150 units of a bucket of 100 that gains 1000 per second: 50 ms. *)
Example wait_over_burst :
  run [LWait 150; LTake 0 0] (New 0 1000 100, []) = Some (mk_Limiter 1000 (float64_of 100) zero (Some 0%Z), [WSleep (float64_of 50) 50000000]) ∧
  snd <$> run [LWait 150; LTake 0 0; LWoken 0 None; LTake 0 50000000] (New 0 1000 100, []) = Some [WReturned None].
Proof. split; vm_compute; reflexivity. Qed.

(** A context that ends while waiting. *)
Example wait_context :
  snd <$> run [LWait 2; LTake 0 0; LWoken 0 (Some "context deadline exceeded")] (New 0 1 1, []) =
    Some [WReturned (Some "context deadline exceeded")].
Proof. vm_compute. reflexivity. Qed.

(** Two calls share the bucket: the second waits for what the first has taken. *)
Example wait_shared :
  (λ '(l, ws), ws) <$> run [LWait 1; LWait 1; LTake 0 0; LTake 1 0] (NewPTYAttachLimiter 0 1 1, []) =
    Some [WReturned None; WSleep (float64_of 1) 1000000000].
Proof. vm_compute. reflexivity. Qed.

Example disabled : Enabled (New 0 0 0) = false ∧ Wait (New 0 0 0) 1 = WReturned None.
Proof. by split. Qed.
End facts.
