(* ===== verification/AuditStore.v ===== *)
(** * The store of audit records (pkg/audit/sqlstore.go)

    Opening the database that a configuration names, and writing records to it.
    The database is the environment: what each call answers may depend on every
    call that was made before.  A run of an operation is its list of calls. *)
From S2P Require Import Prelude GoPath Handle Config.
From stdpp Require Import options.

(** ** The database *)

Inductive arg : Type := AInt (z : Z) | AString (s : string).

(** The calls of database/sql. *)
Inductive call : Type :=
  | DBOpen (driverName dsn : string)
  | DBPing
  | DBExec (stmt : string) (args : list arg)
  | DBClose.

#[export] Instance arg_eq_dec : EqDecision arg.
Proof. solve_decision. Defined.
#[export] Instance call_eq_dec : EqDecision call.
Proof. solve_decision. Defined.

(** The error a call answers with, after the calls before it. *)
Class Database := answer : list call → call → option string.

Inductive error : Type :=
  | ErrUnsupportedDriver (driver : string)
  | ErrInvalidTable (table : string)
  | OpenFailed (driver text : string)
  | PingFailed (text : string)
  | CreateFailed (table text : string)
  | InsertFailed (text : string)
  | CloseFailed (text : string)
  | Joined (err : error) (closeErr : string).           (* [errors.Join] *)

(** Errors of the database, as opposed to those of the options. *)
Fixpoint database_error (e : error) : bool :=
  match e with
  | ErrUnsupportedDriver _ | ErrInvalidTable _ => false
  | Joined e _ => database_error e
  | _ => true
  end.

(** Computations that make calls. *)
Definition Db (A : Type) : Type := list call → list call * A.
#[global] Instance db_ret : MRet Db := λ A a h, (h, a).
#[global] Instance db_bind : MBind Db := λ A B f m h, let '(h, a) := m h in f a h.

Record SQLOptions : Type := mk_SQLOptions { opt_driver : string; opt_dsn : string; opt_table : string }.

Record sqlDialect : Type := mk_sqlDialect { driverName : string; createDDL : string; insertStmt : string }.

(** The connection is the one the calls are made on. *)
Record SQLStore : Type := mk_SQLStore { store_insert : string }.

(** ** The dialects *)

Definition DefaultTable : string := "file_audit_log".

Definition sqlite : sqlDialect := mk_sqlDialect "sqlite"
  "CREATE TABLE IF NOT EXISTS %s (
			id INTEGER PRIMARY KEY AUTOINCREMENT,
			created_at_ms BIGINT NOT NULL,
			request_id TEXT NOT NULL,
			operation TEXT NOT NULL,
			path TEXT NOT NULL,
			target TEXT NOT NULL,
			bytes BIGINT NOT NULL,
			success SMALLINT NOT NULL,
			error TEXT NOT NULL
		)"
  "INSERT INTO %s (created_at_ms, request_id, operation, path, target, bytes, success, error) VALUES (?, ?, ?, ?, ?, ?, ?, ?)".

Definition mysql : sqlDialect := mk_sqlDialect "mysql"
  "CREATE TABLE IF NOT EXISTS %s (
			id BIGINT NOT NULL AUTO_INCREMENT PRIMARY KEY,
			created_at_ms BIGINT NOT NULL,
			request_id VARCHAR(128) NOT NULL,
			operation VARCHAR(32) NOT NULL,
			path TEXT NOT NULL,
			target TEXT NOT NULL,
			bytes BIGINT NOT NULL,
			success SMALLINT NOT NULL,
			error TEXT NOT NULL
		)"
  "INSERT INTO %s (created_at_ms, request_id, operation, path, target, bytes, success, error) VALUES (?, ?, ?, ?, ?, ?, ?, ?)".

Definition postgres : sqlDialect := mk_sqlDialect "pgx"
  "CREATE TABLE IF NOT EXISTS %s (
			id BIGSERIAL PRIMARY KEY,
			created_at_ms BIGINT NOT NULL,
			request_id TEXT NOT NULL,
			operation TEXT NOT NULL,
			path TEXT NOT NULL,
			target TEXT NOT NULL,
			bytes BIGINT NOT NULL,
			success SMALLINT NOT NULL,
			error TEXT NOT NULL
		)"
  "INSERT INTO %s (created_at_ms, request_id, operation, path, target, bytes, success, error) VALUES ($1, $2, $3, $4, $5, $6, $7, $8)".

Definition dialectFor (driver : string) : result error sqlDialect :=
  let name := to_lower (trim_space driver) in
  if bool_decide (name ∈ ["sqlite"; "sqlite3"]) then Ok sqlite
  else if bool_decide (name ∈ ["mysql"]) then Ok mysql
  else if bool_decide (name ∈ ["postgres"; "postgresql"; "pgsql"]) then Ok postgres
  else Err (ErrUnsupportedDriver driver).

(** The regular expression is that of the configuration. *)
Definition tableNamePattern : string → bool := auditTablePattern.

Definition tableOrDefault (table : string) : result error string :=
  if decide (table = "") then Ok DefaultTable
  else if negb (tableNamePattern table) then Err (ErrInvalidTable table)
  else Ok table.

(** [fmt.Sprintf] of a format with one [%s]. *)
Fixpoint sprintf (format arg : string) : string :=
  match format with
  | String "%" (String "s" rest) => arg +:+ rest
  | String c rest => String c (sprintf rest arg)
  | EmptyString => EmptyString
  end.

(** ** Operations *)

Section store.
Context `{Database}.

Definition db_call (c : call) : Db (option string) := λ h, (h ++ [c], answer h c).

Definition initSchema (dialect : sqlDialect) (table : string) : Db (option error) :=
  err ← db_call DBPing;
  match err with
  | Some e => mret (Some (PingFailed e))
  | None =>
    err ← db_call (DBExec (sprintf (createDDL dialect) table) []);
    mret match err with Some e => Some (CreateFailed table e) | None => None end
  end.

Definition closeOnError (err : error) : Db error :=
  closeErr ← db_call DBClose;
  mret match closeErr with Some e => Joined err e | None => err end.

Definition OpenSQL (opts : SQLOptions) : Db (result error SQLStore) :=
  match dialectFor (opt_driver opts) with
  | Err err => mret (Err err)
  | Ok dialect =>
    match tableOrDefault (opt_table opts) with
    | Err err => mret (Err err)
    | Ok table =>
      err ← db_call (DBOpen (driverName dialect) (opt_dsn opts));
      match err with
      | Some e => mret (Err (OpenFailed (opt_driver opts) e))
      | None =>
        err ← initSchema dialect table;
        match err with
        | Some err => err ← closeOnError err; mret (Err err)
        | None => mret (Ok (mk_SQLStore (sprintf (insertStmt dialect) table)))
        end
      end
    end
  end.

(** The time of a record is in nanoseconds. *)
Definition UnixMilli (t : Z) : Z := (t `div` 1000000)%Z.

Definition record_args (rec : AuditRecord) : list arg :=
  [AInt (UnixMilli (a_time rec)); AString (a_request_id rec); AString (a_operation rec); AString (a_path rec);
   AString (a_target rec); AInt (a_bytes rec); AInt (if a_success rec then 1 else 0)%Z; AString (a_error rec)].

Definition Save (s : SQLStore) (rec : option AuditRecord) : Db (option error) :=
  match rec with
  | None => mret None
  | Some rec =>
    err ← db_call (DBExec (store_insert s) (record_args rec));
    mret match err with Some e => Some (InsertFailed e) | None => None end
  end.

Definition Close (s : SQLStore) : Db (option error) :=
  err ← db_call DBClose;
  mret match err with Some e => Some (CloseFailed e) | None => None end.

(** What a recorder does with its store: the records, one after the other. *)
Fixpoint saves (s : SQLStore) (recs : list AuditRecord) : Db unit :=
  match recs with
  | [] => mret tt
  | rec :: recs => _ ← Save s (Some rec); saves s recs
  end.
End store.

(** ** The options *)

Lemma dialectFor_supported driver : IsSupportedAuditDriver driver = is_ok (dialectFor driver).
Proof.
  unfold IsSupportedAuditDriver, dialectFor. generalize (to_lower (trim_space driver)). intros name.
  destruct (decide (name ∈ ["sqlite"; "sqlite3"; "mysql"; "postgres"; "postgresql"; "pgsql"])) as [Hin|Hn].
  - rewrite bool_decide_true by done. rewrite !elem_of_cons in Hin.
    destruct Hin as [-> |[-> |[-> |[-> |[-> |[-> |[]%not_elem_of_nil] ] ] ] ] ]; reflexivity.
  - rewrite bool_decide_false by done. rewrite !bool_decide_false by (rewrite !elem_of_cons in *; tauto). done.
Qed.

Lemma dialectFor_known driver d : dialectFor driver = Ok d → d ∈ [sqlite; mysql; postgres].
Proof. unfold dialectFor. repeat case_bool_decide; intros [= <-]; set_solver. Qed.

Lemma dialectFor_Err driver e : dialectFor driver = Err e → database_error e = false.
Proof. unfold dialectFor. repeat case_bool_decide; intros; by simplify_eq. Qed.

Lemma tableOrDefault_Ok table t :
  tableOrDefault table = Ok t → auditTablePattern t = true ∧ (t = table ∨ table = "" ∧ t = DefaultTable).
Proof.
  unfold tableOrDefault, tableNamePattern. case_decide as Ht; [intros [= <-]; split; [reflexivity|by right]|].
  destruct (auditTablePattern table) eqn:E; cbn; [|done]. intros [= <-]. by split; [|left].
Qed.

Lemma tableOrDefault_Err table e : tableOrDefault table = Err e → database_error e = false.
Proof. unfold tableOrDefault. repeat case_match; intros; by simplify_eq. Qed.

Lemma tableOrDefault_keeps table : table ≠ "" → tableOrDefault table = Ok table ↔ auditTablePattern table = true.
Proof.
  intros Ht. unfold tableOrDefault, tableNamePattern. rewrite decide_False by done.
  destruct (auditTablePattern table); cbn; split; congruence.
Qed.

(** The text of a format after its verb, and so of a statement after the name of
    the table. *)
Fixpoint after_verb (format : string) : string :=
  match format with
  | String "%" (String "s" rest) => rest
  | String _ rest => after_verb rest
  | EmptyString => EmptyString
  end.
Definition ddl_rest (d : sqlDialect) : string := after_verb (createDDL d).
Definition insert_rest (d : sqlDialect) : string := after_verb (insertStmt d).

Lemma dialect_texts d t :
  d ∈ [sqlite; mysql; postgres] →
  sprintf (createDDL d) t = "CREATE TABLE IF NOT EXISTS " +:+ t +:+ ddl_rest d ∧
  sprintf (insertStmt d) t = "INSERT INTO " +:+ t +:+ insert_rest d.
Proof.
  rewrite !elem_of_cons. intros [-> |[-> |[-> |[]%not_elem_of_nil] ] ]; split; reflexivity.
Qed.

Section store_facts.
Context `{Database}.

Lemma saves_calls s recs h :
  fst (saves s recs h) = h ++ ((λ rec, DBExec (store_insert s) (record_args rec)) <$> recs).
Proof.
  revert h. induction recs as [|rec recs IH]; intros h; cbn; [by rewrite app_nil_r|].
  unfold mbind, db_bind, Save, db_call, mret, db_ret. cbn. rewrite IH. by rewrite <-app_assoc.
Qed.

(** The calls of [OpenSQL], on each of its branches. *)
Lemma OpenSQL_calls opts h :
  let '(h', r) := OpenSQL opts h in
  match r with
  | Ok s => ∃ d t, dialectFor (opt_driver opts) = Ok d ∧ tableOrDefault (opt_table opts) = Ok t ∧
      store_insert s = sprintf (insertStmt d) t ∧
      h' = h ++ [DBOpen (driverName d) (opt_dsn opts); DBPing; DBExec (sprintf (createDDL d) t) []]
  | Err e =>
    ((dialectFor (opt_driver opts) = Err e ∨ tableOrDefault (opt_table opts) = Err e) ∧ database_error e = false ∧ h' = h) ∨
    (database_error e = true ∧ ∃ name mid,
       h' = h ++ DBOpen name (opt_dsn opts) :: mid ∧ (mid = [] ∨ mid = [DBPing; DBClose] ∨ ∃ ddl, mid = [DBPing; DBExec ddl []; DBClose]) ∧
       (mid = [] ↔ ∃ text, e = OpenFailed (opt_driver opts) text))
  end.
Proof.
  unfold OpenSQL. destruct (dialectFor (opt_driver opts)) as [d|e] eqn:Hd; [|left; by eauto using dialectFor_Err].
  destruct (tableOrDefault (opt_table opts)) as [t|e] eqn:Ht; [|left; by eauto using tableOrDefault_Err].
  unfold initSchema, closeOnError, db_call, mbind, db_bind, mret, db_ret.
  repeat (case_match; simplify_eq/=); rewrite <-?app_assoc; cbn.
  all: try (right; split; [done|]; eexists _, _; split; [reflexivity|]; split; naive_solver).
  eexists _, _. split_and!; reflexivity.
Qed.

(** Opening the store, and what is executed.  When [OpenSQL] fails because of
    its options no call was made; when it fails later, the database was closed
    if it had been opened, and that was the last call.  When it succeeds, it has
    executed one statement; then records are saved by one statement each, in
    order, whose text is the same for all of them, and the table's name, which
    is an identifier, is all that the texts take from the options: what requests
    put into records is passed as arguments only. *)
Theorem store_statements (opts : SQLOptions) (recs : list AuditRecord) (h : list call) :
  let '(h', r) := OpenSQL opts h in
  match r with
  | Ok s =>
    ∃ d t, d ∈ [sqlite; mysql; postgres] ∧ auditTablePattern t = true ∧
      (t = opt_table opts ∨ opt_table opts = "" ∧ t = DefaultTable) ∧
      fst (saves s recs h') = h ++
        [DBOpen (driverName d) (opt_dsn opts); DBPing; DBExec ("CREATE TABLE IF NOT EXISTS " +:+ t +:+ ddl_rest d) []] ++
        ((λ rec, DBExec ("INSERT INTO " +:+ t +:+ insert_rest d) (record_args rec)) <$> recs)
  | Err e =>
    if database_error e
    then ∃ name mid, h' = h ++ DBOpen name (opt_dsn opts) :: mid ∧
      ((∃ text, e = OpenFailed (opt_driver opts) text) ∧ mid = [] ∨ last mid = Some DBClose)
    else h' = h
  end.
Proof.
  pose proof (OpenSQL_calls opts h) as Hc. destruct (OpenSQL opts h) as [h' [s|e] ].
  - destruct Hc as (d & t & Hd & Ht & Hs & ->). exists d, t. apply dialectFor_known in Hd. apply tableOrDefault_Ok in Ht as [Ht Heq].
    destruct (dialect_texts d t Hd) as [Hddl Hins]. split_and!; [done..|]. by rewrite saves_calls, Hs, Hddl, Hins, <-app_assoc.
  - destruct Hc as [(_ & -> & ->)|(-> & name & mid & -> & Hm & Hiff)]; [done|]. exists name, mid. split; [done|].
    destruct Hm as [-> |[-> |[ddl ->] ] ]; [left|by right..]. split; [by apply Hiff|done].
Qed.

Lemma check_audit_options (a : AuditConfig) :
  Enabled a = true → Table a ≠ "" →
  check_audit a = None ↔
  (∃ d, dialectFor (Driver a) = Ok d) ∧ tableOrDefault (Table a) = Ok (Table a) ∧ trim_space (DSN a) ≠ "".
Proof.
  intros Hen Ht. rewrite check_audit_None, tableOrDefault_keeps by done. split.
  - intros Hu. destruct (Hu Hen) as [Hd Hs Hp]. rewrite dialectFor_supported in Hd. split_and!; [|done..].
    destruct (dialectFor (Driver a)) as [d|]; [by exists d|done].
  - intros ([d Hd] & Hp & Hs) _. constructor; [|done..]. by rewrite dialectFor_supported, Hd.
Qed.

Lemma OpenSQL_accepted opts h d t e :
  dialectFor (opt_driver opts) = Ok d → tableOrDefault (opt_table opts) = Ok t →
  snd (OpenSQL opts h) = Err e → database_error e = true.
Proof.
  intros Hd Hp He. pose proof (OpenSQL_calls opts h) as Hc. destruct (OpenSQL opts h) as [h' r]. cbn in He. subst r.
  destruct Hc as [( [Hx|Hx] & _)|[Hdb _] ]; [congruence..|done].
Qed.

(** Configuration and store agree.  The checks of the configuration accept the
    options of an enabled audit exactly when the store has a dialect for the
    driver, takes the table as it is and the source is not blank; and with
    options that were accepted, opening the store can only fail in the
    database. *)
Theorem config_store_agree (a : AuditConfig) (h : list call) :
  Enabled a = true → Table a ≠ "" →
  (check_audit a = None ↔
     (∃ d, dialectFor (Driver a) = Ok d) ∧ tableOrDefault (Table a) = Ok (Table a) ∧ trim_space (DSN a) ≠ "") ∧
  (check_audit a = None →
   ∀ e, snd (OpenSQL (mk_SQLOptions (Driver a) (DSN a) (Table a)) h) = Err e → database_error e = true).
Proof.
  intros Hen Ht. pose proof (check_audit_options a Hen Ht) as Hiff. split; [done|]. rewrite Hiff.
  intros ([d Hd] & Hp & _) e. by apply (OpenSQL_accepted _ _ d (Table a)).
Qed.
End store_facts.

(** A database that refuses one of its calls. *)
Module StoreExample.
Definition refusing (n : nat) : Database := λ h c, if decide (length h = n) then Some "refused" else None.
Definition opts : SQLOptions := mk_SQLOptions " SQLite3" "audit.db" "log_1".
Definition config : AuditConfig := mk_AuditConfig true " SQLite3" "audit.db" "log_1" 256.

Example open_refused :
  OpenSQL (H := refusing 1) opts [] = ([DBOpen "sqlite" "audit.db"; DBPing; DBClose], Err (PingFailed "refused")).
Proof. vm_compute. reflexivity. Qed.
Example bad_table :
  OpenSQL (H := refusing 9) (mk_SQLOptions "mysql" "dsn" "log; DROP TABLE x") [] = ([], Err (ErrInvalidTable "log; DROP TABLE x")).
Proof. vm_compute. reflexivity. Qed.
End StoreExample.

Lemma config_store_agree_witness :
  snd (OpenSQL (H := StoreExample.refusing 2) StoreExample.opts []) ≠ Err (ErrInvalidTable "log_1").
Proof.
  intros He. pose proof (proj2 (config_store_agree (H := StoreExample.refusing 2) StoreExample.config [] eq_refl ltac:(done)) eq_refl _ He) as Hd.
  discriminate Hd.
Defined.
