(* ===== verification/Transport.v ===== *)
(** * Connecting to the server (pkg/transport/client.go)

    [Dial], the credentials it makes, and [OpenStream]; and [dialTLS], with which
    the daemon (pkg/syncer) and the terminal (pkg/ptyattach) turn the
    configuration into its options.  Reading files, certificates and gRPC are
    the environment; a connection is what gRPC was told to make. *)
From S2P Require Import Prelude.
From S2P Require Config.
From stdpp Require Import options.

(** What the package calls. *)
Class Network := {
  CertPool : Type;
  ReadFile : string → result string bytes;
  AppendCertsFromPEM : bytes → option CertPool;      (* [None]: no certificate *)
  NewClient : string → option string;                (* the error for an address *)
  OpenRPC : string → string → option string;         (* opening a method's stream with a token *)
}.

Record TLSConfig : Type := mk_TLSConfig { ServerName : string; CAFile : string; InsecureSkipVerify : bool }.

Record DialOptions : Type := mk_DialOptions { Address : string; HasDialer : bool; TLS : option TLSConfig }.

Inductive error : Type :=
  | ErrEmptyAddress
  | ErrNilConn
  | ErrReadCA (file text : string)                   (* "transport: read ca file %q: %w" *)
  | ErrCAFileEmpty (file : string)
  | ErrDial (address text : string)                  (* "transport: dial %q: %w" *)
  | ErrOpenStream (text : string).                   (* "transport: open stream: %w" *)

(** [dialTLS], of both packages *)
Definition dialTLS (cfg : Config.ServerTLSConfig) : option TLSConfig :=
  if negb (Config.TLSEnabled cfg) then None
  else Some (mk_TLSConfig (Config.ServerName cfg) (Config.CAFile cfg) (Config.InsecureSkipVerify cfg)).

(** ** Operations *)

Definition second : Z := Config.second.
Definition DefaultGRPCKeepaliveTime : Z := 30 * second.
Definition DefaultGRPCKeepaliveTimeout : Z := 10 * second.
Definition DefaultGRPCKeepaliveMinTime : Z := 10 * second.

(** [tls.VersionTLS12] *)
Definition VersionTLS12 : Z := 771.

Section transport.
Context `{Network}.

(** [*tls.Config], as far as it is set; without roots, those of the system. *)
Record tls_config : Type := mk_tls_config {
  MinVersion : Z; tc_ServerName : string; tc_InsecureSkipVerify : bool; RootCAs : option CertPool }.

Inductive credentials : Type := Insecure | NewTLS (c : tls_config).

Record keepalive : Type := mk_keepalive { Time : Z; Timeout : Z; PermitWithoutStream : bool }.

Record ClientConn : Type := mk_ClientConn {
  cc_address : string; cc_creds : credentials; cc_keepalive : keepalive; cc_dialer : bool }.

Definition loadCertPool (caFile : string) : result error CertPool :=
  pem ← map_err (ErrReadCA caFile) (ReadFile caFile);
  match AppendCertsFromPEM pem with None => Err (ErrCAFileEmpty caFile) | Some pool => Ok pool end.

Definition transportCredentials (cfg : option TLSConfig) : result error credentials :=
  match cfg with
  | None => Ok Insecure
  | Some cfg =>
    let tlsCfg := mk_tls_config VersionTLS12 (ServerName cfg) (InsecureSkipVerify cfg) in
    if decide (CAFile cfg = "") then Ok (NewTLS (tlsCfg None))
    else pool ← loadCertPool (CAFile cfg); Ok (NewTLS (tlsCfg (Some pool)))
  end.

Definition Dial (opts : DialOptions) : result error ClientConn :=
  if decide (Address opts = "") then Err ErrEmptyAddress
  else
    creds ← transportCredentials (TLS opts);
    let conn := mk_ClientConn (Address opts) creds
      (mk_keepalive DefaultGRPCKeepaliveTime DefaultGRPCKeepaliveTimeout true) (HasDialer opts) in
    match NewClient (Address opts) with
    | Some text => Err (ErrDial (Address opts) text)
    | None => Ok conn
    end.

(** The stream of a connection, with the token its metadata carries. *)
Definition OpenStream (conn : option ClientConn) (token : string) : result error (ClientConn * string) :=
  match conn with
  | None => Err ErrNilConn
  | Some conn =>
    match OpenRPC "Connect" token with Some text => Err (ErrOpenStream text) | None => Ok (conn, token) end
  end.

(** What a configuration asks of the security of a connection. *)
Definition secured (cfg : Config.ServerTLSConfig) (c : credentials) : Prop :=
  if Config.TLSEnabled cfg then
    ∃ t, c = NewTLS t ∧ (VersionTLS12 ≤ MinVersion t)%Z ∧ tc_ServerName t = Config.ServerName cfg ∧
      tc_InsecureSkipVerify t = Config.InsecureSkipVerify cfg ∧
      match RootCAs t with
      | None => Config.CAFile cfg = ""
      | Some pool => Config.CAFile cfg ≠ "" ∧ ∃ pem, ReadFile (Config.CAFile cfg) = Ok pem ∧ AppendCertsFromPEM pem = Some pool
      end
  else c = Insecure.

Lemma transportCredentials_secured cfg c : transportCredentials (dialTLS cfg) = Ok c → secured cfg c.
Proof.
  unfold secured, dialTLS. destruct (Config.TLSEnabled cfg); cbn; [|by intros [= <-]].
  case_decide as Hca; [by intros [= <-]; eexists; split_and!|].
  intros (pool & Hp & [= <-])%result_bind_Ok. unfold loadCertPool in Hp. apply result_bind_Ok in Hp as (pem & Hr & Hp).
  apply map_err_Ok in Hr. destruct (AppendCertsFromPEM pem) eqn:Ha; [|done]. injection Hp as ->.
  eexists. split; [reflexivity|]. cbn. split_and!; try done. by exists pem.
Qed.

(** C22. A connection is as secure as the configuration says.  With TLS enabled, a
    connection is made only over TLS, of version 1.2 or later, for the host that
    was named, with the certificates checked unless the configuration says
    otherwise, and against the roots of the named file alone: a file that cannot
    be read or has no certificate is an error, and never leads to the roots of
    the system or to a connection in the clear.  Without TLS it is in the clear.
    Pings keep it alive while no stream is open, less often than the server
    allows. *)
Theorem Dial_secured (cfg : Config.ServerTLSConfig) (address : string) (dialer : bool) (conn : ClientConn) :
  Dial (mk_DialOptions address dialer (dialTLS cfg)) = Ok conn →
  address ≠ "" ∧ cc_address conn = address ∧ secured cfg (cc_creds conn) ∧
  PermitWithoutStream (cc_keepalive conn) = true ∧ (DefaultGRPCKeepaliveMinTime < Time (cc_keepalive conn))%Z.
Proof.
  unfold Dial. cbn. case_decide as Ha; [done|]. intros (creds & Hc & Hd)%result_bind_Ok.
  destruct (NewClient address); [done|]. injection Hd as <-. split_and!; try done. by apply transportCredentials_secured.
Qed.
End transport.

(** A network with one file of certificates, whose pool is its contents. *)
Module TransportExample.
Definition network : Network := {|
  CertPool := bytes;
  ReadFile path := if decide (path = "ca.pem") then Ok ["045"%byte] else if decide (path = "empty.pem") then Ok [] else Err "no such file";
  AppendCertsFromPEM pem := match pem with [] => None | _ => Some pem end;
  NewClient _ := None;
  OpenRPC _ _ := None |}.

Definition tls (ca : string) : Config.ServerTLSConfig := Config.mk_ServerTLSConfig true "rclaude.example.com" ca false.

Example dial_empty_ca :
  Dial (H := network) (mk_DialOptions "1.2.3.4:443" false (dialTLS (tls "empty.pem"))) = Err (ErrCAFileEmpty "empty.pem").
Proof. reflexivity. Qed.
Example dial_missing_ca :
  Dial (H := network) (mk_DialOptions "1.2.3.4:443" false (dialTLS (tls "x.pem"))) = Err (ErrReadCA "x.pem" "no such file").
Proof. reflexivity. Qed.
End TransportExample.

Lemma Dial_secured_witness :
  ∃ conn, Dial (H := TransportExample.network) (mk_DialOptions "1.2.3.4:443" false (dialTLS (TransportExample.tls "ca.pem"))) = Ok conn ∧
    secured (H := TransportExample.network) (TransportExample.tls "ca.pem") (cc_creds (H := TransportExample.network) conn).
Proof.
  eexists. split; [reflexivity|].
  exact (proj1 (proj2 (proj2 (Dial_secured (H := TransportExample.network) (TransportExample.tls "ca.pem") "1.2.3.4:443" false _ eq_refl)))).
Defined.
