(* ===== verification/PtyAttach.v ===== *)
(** * Attaching the local terminal (pkg/ptyattach/attach.go, terminal_unix.go)

    [runCommand] puts the terminal into raw mode, connects, runs the client of
    PtyClient and undoes all of it; what the client returns becomes an exit
    status.  The terminal, the connection and the client are the environment,
    whose answers may depend on everything done before; a run is the list of
    what was done, with the answers. *)
From S2P Require Import Prelude GoPath PtyService.
From S2P Require Config Transport PtyClient.
From stdpp Require Import options.

(** ** The terminal *)

Record termios : Type := mk_termios { Iflag : Z; Oflag : Z; Cflag : Z; Lflag : Z; Cc : list Z }.
#[export] Instance termios_eq_dec : EqDecision termios.
Proof. solve_decision. Defined.

(** The constants of golang.org/x/sys/unix, which depend on the platform. *)
Class Unix := {
  IGNBRK : Z; BRKINT : Z; PARMRK : Z; ISTRIP : Z; INLCR : Z; IGNCR : Z; ICRNL : Z; IXON : Z;
  OPOST : Z;
  ECHO : Z; ECHONL : Z; ICANON : Z; ISIG : Z; IEXTEN : Z;
  CSIZE : Z; PARENB : Z; CS8 : Z;
  VMIN : nat; VTIME : nat;
}.

Definition lor_all (flags : list Z) : Z := foldl Z.lor 0%Z flags.

(** The mode that [makeRaw] sets, from the one it has read. *)
Definition raw_mode `{Unix} (t : termios) : termios :=
  mk_termios
    (Z.ldiff (Iflag t) (lor_all [IGNBRK; BRKINT; PARMRK; ISTRIP; INLCR; IGNCR; ICRNL; IXON]))
    (Z.ldiff (Oflag t) OPOST)
    (Z.lor (Z.ldiff (Cflag t) (lor_all [CSIZE; PARENB])) CS8)
    (Z.ldiff (Lflag t) (lor_all [ECHO; ECHONL; ICANON; ISIG; IEXTEN]))
    (<[VTIME := 0%Z]> (<[VMIN := 1%Z]> (Cc t))).

(** ** Errors, and what was done *)

Inductive error : Type :=
  | ErrTTYRequired
  | ErrEmptyServerToken
  | ErrConfig (err : Config.error)
  | ErrMakeRaw (text : string)
  | ErrQuerySize (text : string) (restore : option string)
  | ErrDial (err : Transport.error)
  | ErrAttachPTY (text : string)
  | ErrRestore (text : string)
  | ErrJoined (err : error) (restore : string)
  | ErrClose (text : string)
  | ErrRun (err : PtyClient.error)
  | ExitError (code : Z) (message : string) (quiet : bool).

Record loadedConfig : Type := mk_loadedConfig {
  Address : string; Token : string; FrameMax : Z; TLS : option Transport.TLSConfig }.

Record commandDeps : Type := mk_commandDeps {
  hasStdin : bool; hasStdout : bool; stdinFD : Z; stdoutFD : Z; termName : string; agent : string }.

(** [Dialed] and [Opened]: whether the connection was made, and its stream. *)
Inductive action : Type :=
  | GotTermios (fd : Z) (answer : result string termios)
  | SetTermios (fd : Z) (t : termios) (err : option string)
  | GotWinsize (fd : Z) (answer : result string PtyClient.WindowSize)
  | Dialed (address : string) (tls : option Transport.TLSConfig) (ok : bool)
  | Opened (token : string) (ok : bool)
  | Closed (err : option string)
  | BridgeStarted
  | BridgeStopped
  | Ran (cfg : PtyClient.Config) (res : PtyClient.ExitResult)
  | ResetWritten (err : option string).

Abbreviation history := (list action).

Class Device := {
  answer_termios : history → Z → result string termios;
  answer_set : history → Z → termios → option string;
  answer_winsize : history → Z → result string PtyClient.WindowSize;
  answer_close : history → option string;
  answer_run : history → PtyClient.Config → PtyClient.ExitResult;
  answer_write : history → option string;
}.

Definition M (A : Type) : Type := history → history * A.
#[global] Instance attach_ret : MRet M := λ A a h, (h, a).
#[global] Instance attach_bind : MBind M := λ A B f m h, let '(h, a) := m h in f a h.

(** ** The exit status *)

(** [status.FromError] and the text of a server's error are the libraries'. *)
Class Texts := {
  FromError : PtyClient.error → option (Z * string);       (* the code and the message of a gRPC status *)
  GetMessage : message → string;
}.

(** [codes.Unauthenticated] *)
Definition Unauthenticated : Z := 16.

Definition defaultTerm : string := "xterm-256color".
Definition DefaultPTYFrameMaxBytes : Z := 64 * 1024.

Definition serverErrorExitCode (kind : Error_Kind) : Z :=
  match kind with
  | KIND_DAEMON_NOT_CONNECTED => 2
  | KIND_SESSION_BUSY => 3
  | KIND_SPAWN_FAILED => 4
  | KIND_RATE_LIMITED => 5
  | KIND_PROTOCOL => 6
  | _ => 1
  end.

Definition spawnFailedMessage (detail : string) : string :=
  let msg := "failed to start remote agent process on Server" in
  let detail := trim_space detail in
  (if decide (detail = "") then msg else msg +:+ ": " +:+ detail) +:+
  "; check the -g/--agent name resolves on the Server (PATH or absolute path), /workspace/<user_id>, and Server-side agent login".

Definition commandTermName (termName : string) : string :=
  let termName := trim_space termName in if decide (termName = "") then defaultTerm else termName.

Definition max_int : Z := 2 ^ 63 - 1.
Definition clientFrameMax (n : Z) : Z :=
  if decide (n ≤ 0)%Z then DefaultPTYFrameMaxBytes else if decide (n > max_int)%Z then max_int else n.

Section status.
Context `{Texts}.

Definition serverErrorMessage (kind : Error_Kind) (msg : message) : string :=
  match kind with
  | KIND_SPAWN_FAILED => spawnFailedMessage (GetMessage msg)
  | _ =>
    let text := trim_space (GetMessage msg) in
    if negb (bool_decide (text = "")) then text
    else match kind with
         | KIND_DAEMON_NOT_CONNECTED => "daemon offline, run daemon first"
         | KIND_SESSION_BUSY => "another agent session is active"
         | KIND_RATE_LIMITED => "too many attach requests"
         | KIND_PROTOCOL => "protocol error"
         | KIND_UNAUTHENTICATED => "auth failed"
         | _ => "remote pty attach failed"
         end
  end.

Definition grpcStatusExitCode (code : Z) : Z := 1.

Definition grpcStatusMessage (st : Z * string) : string :=
  let '(code, text) := st in
  if decide (code = Unauthenticated) then "auth failed"
  else let msg := trim_space text in if decide (msg = "") then "remote pty attach failed" else msg.

(** [None] is the exit status zero. *)
Definition exitStatusFromResult (r : PtyClient.ExitResult) : option error :=
  match PtyClient.ServerError r with
  | Some (kind, msg) => Some (ExitError (serverErrorExitCode kind) (serverErrorMessage kind msg) false)
  | None =>
    match PtyClient.ResErr r with
    | Some err =>
      match FromError err with
      | Some st => Some (ExitError (grpcStatusExitCode (fst st)) (grpcStatusMessage st) false)
      | None => match err with PtyClient.Canceled => Some (ExitError 130 "" true) | _ => Some (ErrRun err) end
      end
    | None =>
      if decide (PtyClient.Signal r > 0)%Z then Some (ExitError (128 + PtyClient.Signal r) "" true)
      else if decide (PtyClient.Code r = 0)%Z then None
      else Some (ExitError (PtyClient.Code r) "" true)
    end
  end.
End status.

(** ** Running the command *)

Section run.
Context `{Unix} `{Device} `{Texts} `{Transport.Network} `{Config.Viper}.

Definition get_termios (fd : Z) : M (result string termios) := λ h,
  let a := answer_termios h fd in (h ++ [GotTermios fd a], a).
Definition set_termios (fd : Z) (t : termios) : M (option string) := λ h,
  let a := answer_set h fd t in (h ++ [SetTermios fd t a], a).
Definition currentWindowSize (fd : Z) : M (result string PtyClient.WindowSize) := λ h,
  let a := answer_winsize h fd in (h ++ [GotWinsize fd a], a).
Definition close_conn : M (option string) := λ h, let a := answer_close h in (h ++ [Closed a], a).
Definition run_client (cfg : PtyClient.Config) : M PtyClient.ExitResult := λ h,
  let a := answer_run h cfg in (h ++ [Ran cfg a], a).
Definition note (a : action) : M unit := λ h, (h ++ [a], tt).

Definition loadClientConfigFromDaemon (path : string) : result error loadedConfig :=
  cfg ← map_err ErrConfig (Config.LoadDaemon path);
  let token := trim_space (Config.Token (Config.Server cfg)) in
  if decide (token = "") then Err ErrEmptyServerToken
  else Ok (mk_loadedConfig (trim_space (Config.Address (Config.Server cfg))) token DefaultPTYFrameMaxBytes
             (Transport.dialTLS (Config.TLS (Config.Server cfg)))).

Definition IsTerminal (fd : Z) : M bool := t ← get_termios fd; mret (is_ok t).

Definition validateCommandTTY (deps : commandDeps) : M (option error) :=
  i ← IsTerminal (stdinFD deps);
  if negb i then mret (Some ErrTTYRequired)
  else o ← IsTerminal (stdoutFD deps); mret (if negb o then Some ErrTTYRequired else None).

Definition makeRaw (fd : Z) : M (result string termios) :=
  t ← get_termios fd;
  match t with
  | Err e => mret (Err e)
  | Ok t => err ← set_termios fd (raw_mode t); mret match err with Some e => Err e | None => Ok t end
  end.

Definition restore (fd : Z) (state : termios) : M (option string) := set_termios fd state.

(** [Prepare]: the mode to restore, and the size. *)
Definition Prepare (stdinFD stdoutFD : Z) : M (result error (termios * PtyClient.WindowSize)) :=
  state ← makeRaw stdinFD;
  match state with
  | Err e => mret (Err (ErrMakeRaw e))
  | Ok state =>
    size ← currentWindowSize stdoutFD;
    match size with
    | Err e => restoreErr ← restore stdinFD state; mret (Err (ErrQuerySize e restoreErr))
    | Ok size => mret (Ok (state, size))
    end
  end.

Definition closeIgnoringError : M unit := _ ← close_conn; mret tt.

Definition openRemotePTYStream (token : string) : M (result error unit) :=
  let answer := Transport.OpenRPC "Attach" token in
  _ ← note (Opened token (match answer with None => true | Some _ => false end));
  mret match answer with Some e => Err (ErrAttachPTY e) | None => Ok tt end.

Definition dialRemotePTY (cfg : loadedConfig) : M (result error unit) :=
  let conn := Transport.Dial (Transport.mk_DialOptions (Address cfg) false (TLS cfg)) in
  _ ← note (Dialed (Address cfg) (TLS cfg) (is_ok conn));
  match conn with
  | Err e => mret (Err (ErrDial e))
  | Ok _ =>
    stream ← openRemotePTYStream (Token cfg);
    match stream with
    | Err e => _ ← closeIgnoringError; mret (Err e)
    | Ok _ => mret (Ok tt)
    end
  end.

(** What [closeCommandRuntime] undoes, and what the client is run with. *)
Record commandRuntime : Type := mk_commandRuntime {
  rt_state : termios; rt_size : PtyClient.WindowSize; rt_bridge : bool; rt_frameMax : Z }.

Definition prepareCommandRuntime (deps : commandDeps) (cfg : loadedConfig) : M (result error commandRuntime) :=
  session ← Prepare (stdinFD deps) (stdoutFD deps);
  match session with
  | Err e => mret (Err e)
  | Ok (state, size) =>
    dialed ← dialRemotePTY cfg;
    match dialed with
    | Err e =>
      restoreErr ← restore (stdinFD deps) state;
      mret (Err match restoreErr with Some r => ErrJoined e r | None => e end)
    | Ok _ =>
      _ ← (if hasStdin deps then note BridgeStarted else mret tt);
      mret (Ok (mk_commandRuntime state size (hasStdin deps) (clientFrameMax (FrameMax cfg))))
    end
  end.

Definition writeTerminalReset (deps : commandDeps) : M unit :=
  if hasStdout deps then λ h, (h ++ [ResetWritten (answer_write h)], tt) else mret tt.

(** The error of the command once everything is undone. *)
Definition closeCommandRuntime (deps : commandDeps) (rt : commandRuntime) (err : option error) : M (option error) :=
  _ ← (if rt_bridge rt then note BridgeStopped else mret tt);
  closeErr ← close_conn;
  let err := match err, closeErr with None, Some e => Some (ErrClose e) | _, _ => err end in
  _ ← writeTerminalReset deps;
  restoreErr ← restore (stdinFD deps) (rt_state rt);
  mret match err, restoreErr with None, Some e => Some (ErrRestore e) | _, _ => err end.

Definition client_config (deps : commandDeps) (rt : commandRuntime) : PtyClient.Config :=
  PtyClient.New (PtyClient.mk_Config true true
    (PtyClient.mk_AttachParams "" (rt_size rt) (commandTermName (termName deps)) (agent deps)) (rt_frameMax rt)).

Definition runCommand (deps : commandDeps) (path : string) : M (option error) :=
  match loadClientConfigFromDaemon path with
  | Err e => mret (Some e)
  | Ok cfg =>
    ttyErr ← validateCommandTTY deps;
    match ttyErr with
    | Some e => mret (Some e)
    | None =>
      rt ← prepareCommandRuntime deps cfg;
      match rt with
      | Err e => mret (Some e)
      | Ok rt =>
        result ← run_client (client_config deps rt);
        closeCommandRuntime deps rt (exitStatusFromResult result)
      end
    end
  end.
End run.

(** ** The protocol of a run *)

(** The mode that was read last; the mode to restore, while the terminal is raw;
    whether it was restored; the connection; its stream; the bridge; whether
    the client has run; the reset of the terminal. *)
Record phase : Type := mk_phase {
  seen : option termios; raw : option termios; connected : bool; attached : bool; bridged : bool; has_run : bool; was_reset : bool }.
Definition initial_phase : phase := mk_phase None None false false false false false.

Section protocol.
Context `{Unix} (deps : commandDeps).

(** What may be done next. *)
Definition advance (p : phase) (a : action) : option phase :=
  match a with
  | GotTermios _ t =>
    if raw p then None
    else Some (mk_phase (match t with Ok t => Some t | Err _ => None end) None (connected p) (attached p) (bridged p) (has_run p) (was_reset p))
  | SetTermios fd t err =>
    if negb (bool_decide (fd = stdinFD deps)) then None
    else
      match raw p, seen p with
      | None, Some old =>
        if bool_decide (t = raw_mode old) && negb (has_run p)
        then Some (mk_phase None (match err with None => Some old | Some _ => None end) (connected p) (attached p) (bridged p) (has_run p) (was_reset p))
        else None
      | Some old, _ =>
        if bool_decide (t = old) && negb (connected p) && negb (bridged p) && implb (has_run p && hasStdout deps) (was_reset p)
        then Some (mk_phase None None (connected p) (attached p) (bridged p) (has_run p) (was_reset p)) else None
      | None, None => None
      end
  | GotWinsize _ _ => if raw p then (if connected p then None else Some p) else None
  | Dialed _ _ ok =>
    if raw p then
      if connected p || has_run p then None
      else Some (mk_phase (seen p) (raw p) ok (attached p) (bridged p) (has_run p) (was_reset p))
    else None
  | Opened _ ok =>
    if connected p && negb (attached p)
    then Some (mk_phase (seen p) (raw p) (connected p) ok (bridged p) (has_run p) (was_reset p)) else None
  | BridgeStarted =>
    if attached p && negb (has_run p) && negb (bridged p)
    then Some (mk_phase (seen p) (raw p) (connected p) (attached p) true (has_run p) (was_reset p)) else None
  | Ran _ _ =>
    if connected p && attached p && negb (has_run p)
    then Some (mk_phase (seen p) (raw p) (connected p) (attached p) (bridged p) true (was_reset p)) else None
  | BridgeStopped =>
    if bridged p && has_run p
    then Some (mk_phase (seen p) (raw p) (connected p) (attached p) false (has_run p) (was_reset p)) else None
  | Closed _ =>
    if connected p && negb (bridged p) && implb (attached p) (has_run p)
    then Some (mk_phase (seen p) (raw p) false (attached p) (bridged p) (has_run p) (was_reset p)) else None
  | ResetWritten _ =>
    if has_run p && negb (connected p) && negb (was_reset p)
    then Some (mk_phase (seen p) (raw p) (connected p) (attached p) (bridged p) (has_run p) true) else None
  end.

Definition protocol (h : history) : option phase := foldl (λ p a, p ← p; advance p a) (Some initial_phase) h.

(** Nothing is left of the run: the terminal is not raw, or was told to be as it
    was, there is no connection and no bridge. *)
Definition undone (p : phase) : Prop :=
  raw p = None ∧ connected p = false ∧ bridged p = false ∧ (has_run p = true → was_reset p = hasStdout deps).
End protocol.

Section run_facts.
Context `{Unix} `{Device} `{Texts} `{Transport.Network} `{Config.Viper}.

Lemma attach_protocol_snoc deps h a : protocol deps (h ++ [a]) = protocol deps h ≫= λ p, advance deps p a.
Proof. unfold protocol. by rewrite foldl_app. Qed.

(** Extends the history by what the protocol allows. *)
Ltac advances :=
  rewrite ?attach_protocol_snoc;
  repeat match goal with Hp : protocol _ _ = Some _ |- _ => rewrite Hp end; cbn;
  rewrite ?bool_decide_true by done; cbn; rewrite ?bool_decide_true by done; cbn.

Lemma validate_protocol deps h p :
  protocol deps h = Some p → raw p = None →
  let '(h', err) := validateCommandTTY deps h in
  ∃ seen, protocol deps h' = Some (mk_phase seen None (connected p) (attached p) (bridged p) (has_run p) (was_reset p)).
Proof.
  intros Hp Hr. unfold validateCommandTTY, IsTerminal, get_termios, mbind, attach_bind, mret, attach_ret. cbn.
  repeat case_match; simplify_eq/=; advances; rewrite ?Hr; cbn; by eexists.
Qed.

Lemma Prepare_protocol deps h s :
  protocol deps h = Some (mk_phase s None false false false false false) →
  let '(h', r) := Prepare (stdinFD deps) (stdoutFD deps) h in
  match r with
  | Ok (state, _) => protocol deps h' = Some (mk_phase None (Some state) false false false false false)
  | Err _ => ∃ s, protocol deps h' = Some (mk_phase s None false false false false false)
  end.
Proof.
  intros Hp. unfold Prepare, makeRaw, restore, get_termios, set_termios, currentWindowSize, mbind, attach_bind, mret, attach_ret. cbn.
  repeat case_match; simplify_eq/=; advances; try done; by eexists.
Qed.

Lemma dialRemotePTY_protocol deps cfg h state :
  protocol deps h = Some (mk_phase None (Some state) false false false false false) →
  let '(h', r) := dialRemotePTY cfg h in
  protocol deps h' = Some (mk_phase None (Some state) (is_ok r) (is_ok r) false false false).
Proof.
  intros Hp. unfold dialRemotePTY, openRemotePTYStream, closeIgnoringError, close_conn, note, mbind, attach_bind, mret, attach_ret. cbn.
  repeat case_match; simplify_eq/=; advances; done.
Qed.

Lemma prepareCommandRuntime_protocol deps cfg h s :
  protocol deps h = Some (mk_phase s None false false false false false) →
  let '(h', r) := prepareCommandRuntime deps cfg h in
  match r with
  | Ok rt => rt_bridge rt = hasStdin deps ∧
      protocol deps h' = Some (mk_phase None (Some (rt_state rt)) true true (hasStdin deps) false false)
  | Err _ => ∃ s, protocol deps h' = Some (mk_phase s None false false false false false)
  end.
Proof.
  intros Hp. unfold prepareCommandRuntime, mbind, attach_bind. pose proof (Prepare_protocol deps h s Hp) as Hprep.
  destruct (Prepare _ _ h) as [h1 [ [state size]|e] ]; [|done].
  pose proof (dialRemotePTY_protocol deps cfg h1 state Hprep) as Hdial.
  destruct (dialRemotePTY cfg h1) as [h2 [ []|e] ]; cbn in Hdial; unfold restore, set_termios, note, mret, attach_ret; cbn.
  - destruct (hasStdin deps) eqn:Hi; cbn; rewrite ?Hi; (split; [done|]); advances; done.
  - advances. by eexists.
Qed.

Lemma closeCommandRuntime_protocol deps rt err h :
  protocol deps h = Some (mk_phase None (Some (rt_state rt)) true true (rt_bridge rt) true false) →
  let '(h', res) := closeCommandRuntime deps rt err h in
  protocol deps h' = Some (mk_phase None None false true false true (hasStdout deps)) ∧ (∀ e, err = Some e → res = Some e).
Proof.
  intros Hp. unfold closeCommandRuntime, close_conn, writeTerminalReset, restore, set_termios, note, mbind, attach_bind, mret, attach_ret.
  destruct (rt_bridge rt), (hasStdout deps) eqn:Ho; cbn; (split; [|intros e ->; by repeat case_match]);
    advances; rewrite ?Ho; cbn; advances; by rewrite ?Ho.
Qed.

(** The runs of the client. *)
Definition runs (h : history) : list (PtyClient.Config * PtyClient.ExitResult) :=
  omap (λ a, match a with Ran cfg r => Some (cfg, r) | _ => None end) h.

Lemma elem_of_runs h cfg r : Ran cfg r ∈ h → (cfg, r) ∈ runs h.
Proof. intros Hin. unfold runs. apply list_elem_of_omap. by eexists. Qed.

Lemma not_run deps h p : protocol deps h = Some p → has_run p = false → runs h = [].
Proof.
  revert p. induction h as [|a h IH] using rev_ind; intros p; [done|]. rewrite attach_protocol_snoc.
  destruct (protocol deps h) as [q|]; [|done]. specialize (IH q eq_refl). intros Ha Hr. unfold runs. rewrite omap_app.
  fold (runs h). destruct a; cbn in *; repeat (case_match; simplify_eq/=); rewrite ?IH by done; done.
Qed.

Lemma closeCommandRuntime_runs deps rt err h : runs (fst (closeCommandRuntime deps rt err h)) = runs h.
Proof.
  unfold closeCommandRuntime, close_conn, writeTerminalReset, restore, set_termios, note, mbind, attach_bind, mret, attach_ret.
  destruct (rt_bridge rt), (hasStdout deps); cbn; unfold runs; rewrite !omap_app; cbn; by rewrite !app_nil_r.
Qed.

Lemma commandTermName_set name : commandTermName name ≠ "".
Proof. unfold commandTermName. by case_decide. Qed.

Lemma clientFrameMax_range n : (0 < clientFrameMax n ≤ max_int)%Z.
Proof. unfold clientFrameMax, DefaultPTYFrameMaxBytes, max_int. repeat case_decide; lia. Qed.

Lemma client_config_spec deps rt :
  PtyClient.Agent (PtyClient.Attach (client_config deps rt)) = agent deps ∧
  PtyClient.Term (PtyClient.Attach (client_config deps rt)) ≠ "".
Proof. split; [done|apply commandTermName_set]. Qed.

(** C17. What an attach sets up it undoes.  A run of the command, whatever fails
    in it: the terminal is put into raw mode before the connection is made, and
    the mode that was read is set again in the end, on every path; a connection
    that was made is closed, once; the client runs at most once, on an open
    stream and a raw terminal, for the program that was named and with a
    terminal type; after it has run the modes of the terminal's emulator are
    reset.  What goes wrong while undoing never hides how the session ended, and
    the command succeeds only when the client has returned the exit status
    zero. *)
Theorem attach_undone (deps : commandDeps) (path : string) :
  let '(h, err) := runCommand deps path [] in
  (∃ p, protocol deps h = Some p ∧ undone deps p) ∧
  (∀ cfg r, Ran cfg r ∈ h →
     PtyClient.Agent (PtyClient.Attach cfg) = agent deps ∧ PtyClient.Term (PtyClient.Attach cfg) ≠ "" ∧
     (∀ e, exitStatusFromResult r = Some e → err = Some e)) ∧
  (err = None → ∃ cfg r, Ran cfg r ∈ h ∧ exitStatusFromResult r = None).
Proof.
  assert (Hsame : ∀ h p e, protocol deps h = Some p → undone deps p → has_run p = false →
    (∃ p, protocol deps h = Some p ∧ undone deps p) ∧
    (∀ cfg r, Ran cfg r ∈ h → PtyClient.Agent (PtyClient.Attach cfg) = agent deps ∧
       PtyClient.Term (PtyClient.Attach cfg) ≠ "" ∧ (∀ e', exitStatusFromResult r = Some e' → Some e = Some e')) ∧
    (Some e = None → ∃ cfg r, Ran cfg r ∈ h ∧ exitStatusFromResult r = None)).
  { intros h p e Hp Hu Hr. split_and!; [by exists p| |done]. intros cfg r Hin%elem_of_runs. rewrite (not_run _ _ _ Hp Hr) in Hin. by apply not_elem_of_nil in Hin. }
  unfold runCommand. destruct (loadClientConfigFromDaemon path) as [cfg|e]; [|by apply (Hsame [] initial_phase)].
  unfold mbind, attach_bind, mret, attach_ret. pose proof (validate_protocol deps [] initial_phase eq_refl eq_refl) as Hv.
  destruct (validateCommandTTY deps []) as [h1 [e|] ]; destruct Hv as [s Hv]; [by eapply Hsame|].
  pose proof (prepareCommandRuntime_protocol deps cfg h1 s Hv) as Hprep.
  destruct (prepareCommandRuntime deps cfg h1) as [h2 [rt|e] ]; [|destruct Hprep as [s' Hp]; by eapply Hsame].
  destruct Hprep as [Hb Hp]. unfold run_client. set (res := answer_run h2 (client_config deps rt)).
  assert (Hrun : protocol deps (h2 ++ [Ran (client_config deps rt) res]) =
    Some (mk_phase None (Some (rt_state rt)) true true (rt_bridge rt) true false)) by (rewrite attach_protocol_snoc, Hp, Hb; done).
  pose proof (closeCommandRuntime_protocol deps rt (exitStatusFromResult res) _ Hrun) as Hc.
  pose proof (closeCommandRuntime_runs deps rt (exitStatusFromResult res) (h2 ++ [Ran (client_config deps rt) res])) as Hruns.
  destruct (closeCommandRuntime _ _ _ _) as [h3 err]. destruct Hc as [Hc Herr]. cbn [fst] in Hruns. split_and!; [by eexists| |].
  - intros cfg' r Hin%elem_of_runs. rewrite Hruns in Hin. unfold runs in Hin. rewrite omap_app in Hin. fold (runs h2) in Hin.
    rewrite (not_run _ _ _ Hp eq_refl) in Hin. apply list_elem_of_singleton in Hin as [= -> ->].
    split_and!; [apply client_config_spec..|done].
  - intros ->. exists (client_config deps rt), res. split.
    + assert (Hin : (client_config deps rt, res) ∈ runs h3); [|by apply list_elem_of_omap in Hin as ([] & ? & ?); simplify_eq].
      rewrite Hruns. unfold runs. rewrite omap_app. set_solver.
    + destruct (exitStatusFromResult res) as [e|]; [|done]. by specialize (Herr e eq_refl).
Qed.
End run_facts.

(** ** The bridge of the standard input

    Each run of the command copies the standard input into a pipe of its own, by
    a goroutine that outlives the run: it ends only when a write fails.  A
    coordinator that tries the terminal again leaves one behind for each
    attempt.  The reads of a file are served in the order they were called in,
    so a chunk that is typed goes to the oldest goroutine that reads. *)
Record bridge : Type := mk_bridge { reading : bool; pipe_closed : bool; delivered : list bytes }.

Definition newPTYStdinBridge : bridge := mk_bridge true false [].
Definition stopBridge (b : bridge) : bridge := mk_bridge (reading b) true (delivered b).

(** [io.Copy], when its read has returned a chunk: a write to a closed pipe fails
    and ends it; otherwise the client has read the chunk, and it reads again. *)
Definition copy_chunk (chunk : bytes) (b : bridge) : bridge :=
  if pipe_closed b then mk_bridge false true (delivered b) else mk_bridge true false (delivered b ++ [chunk]).

(** A chunk is typed while the bridges, the oldest first, read. *)
Fixpoint type_chunk (chunk : bytes) (bs : list bridge) : list bridge :=
  match bs with
  | [] => []
  | b :: bs => if reading b then copy_chunk chunk b :: bs else b :: type_chunk chunk bs
  end.

Lemma type_chunk_open chunk bs b :
  Forall (λ b, reading b = false) bs → reading b = true → type_chunk chunk (bs ++ [b]) = bs ++ [copy_chunk chunk b].
Proof. induction 1 as [|x bs Hx _ IH]; cbn; [by intros ->|]. intros Hb. rewrite Hx. by rewrite IH. Qed.

Lemma type_chunk_stopped chunk done n rest :
  Forall (λ b, reading b = false) done →
  type_chunk chunk (done ++ replicate (S n) (stopBridge newPTYStdinBridge) ++ rest) =
  (done ++ [mk_bridge false true [] ]) ++ replicate n (stopBridge newPTYStdinBridge) ++ rest.
Proof.
  induction 1 as [|x done Hx _ IH]; cbn; [done|]. rewrite Hx. f_equal. exact IH.
Qed.

Lemma typed_delivered chunks done b :
  Forall (λ b, reading b = false) done → reading b = true → pipe_closed b = false →
  last (foldl (λ bs c, type_chunk c bs) (done ++ [b]) chunks) = Some (mk_bridge true false (delivered b ++ chunks)).
Proof.
  revert b. induction chunks as [|c chunks IH]; intros b Hd Hr Hc; cbn.
  - rewrite last_snoc, app_nil_r. by destruct b; cbn in *; subst.
  - rewrite type_chunk_open by done. unfold copy_chunk. rewrite Hc. rewrite IH by done. cbn. by rewrite <-app_assoc.
Qed.

(** Attempts that have failed eat input.  When the terminal was attached after
    [n] attempts in which the client had run, each of which left its bridge
    reading, then of the chunks that are typed the first [n] are lost, and the
    others are delivered in order; with no attempt before, all are. *)
Theorem bridge_loses_input (n : nat) (chunks : list bytes) :
  delivered <$> last (foldl (λ bs c, type_chunk c bs) (replicate n (stopBridge newPTYStdinBridge) ++ [newPTYStdinBridge]) chunks) =
  Some (drop n chunks).
Proof.
  enough (Hgen : ∀ done, Forall (λ b, reading b = false) done →
    delivered <$> last (foldl (λ bs c, type_chunk c bs) (done ++ replicate n (stopBridge newPTYStdinBridge) ++ [newPTYStdinBridge]) chunks) =
    Some (drop n chunks)) by exact (Hgen [] (Forall_nil_2 _)).
  revert n. induction chunks as [|c chunks IH]; intros n done Hd.
  - cbn. rewrite drop_nil, app_assoc, last_snoc. done.
  - destruct n as [|n].
    + cbn [replicate app]. by rewrite typed_delivered.
    + cbn [foldl]. rewrite type_chunk_stopped by done. rewrite IH; [done|].
      apply Forall_app. split; [done|]. by apply Forall_singleton.
Qed.

(** ** Example: a session that ends with an exit status *)

Module AttachExample.
#[export] Instance linux : Unix := {|
  IGNBRK := 1; BRKINT := 2; PARMRK := 8; ISTRIP := 32; INLCR := 64; IGNCR := 128; ICRNL := 256; IXON := 1024;
  OPOST := 1; ECHO := 8; ECHONL := 64; ICANON := 2; ISIG := 1; IEXTEN := 32768; CSIZE := 48; PARENB := 256; CS8 := 48;
  VMIN := 6; VTIME := 5 |}%Z.
#[export] Instance texts : Texts := {| FromError _ := None; GetMessage _ := "" |}.
Definition cooked : termios := mk_termios 17664 5 1215 35387 (replicate 19 0%Z).

(** The size of the window is unknown when [sized] is false; the client returns [res]. *)
Definition device (sized : bool) (res : PtyClient.ExitResult) : Device := {|
  answer_termios _ _ := Ok cooked; answer_set _ _ _ := None;
  answer_winsize _ _ := if sized then Ok (PtyClient.mk_WindowSize 80 24 0 0) else Err "no size";
  answer_close _ := None; answer_run _ _ := res; answer_write _ := None |}.

#[export] Instance viper : Config.Viper := {|
  Config.Settings := unit;
  Config.ReadInConfig _ := Ok tt;
  Config.UnmarshalDaemon _ c := Ok (Config.mk_DaemonConfig (Config.mk_ServerEndpoint "host:9326" " token " Config.no_tls)
    (Config.WorkspaceOf c) (Config.Audit c) (Config.SelfWriteTTL c));
  Config.UnmarshalServer _ c := Ok c |}.

Definition attach (sized : bool) (res : PtyClient.ExitResult) : history * option error :=
  runCommand (H0 := device sized res) (H2 := Transport.TransportExample.network)
    (mk_commandDeps true true 0 1 "" "claude") "daemon.yaml" [].

Example attach_exit : snd (attach true (PtyClient.mk_ExitResult 0 2 None None)) = Some (ExitError 130 "" true).
Proof. vm_compute. reflexivity. Qed.
Example attach_history : length (fst (attach true PtyClient.no_result)) = 13 ∧
  last (fst (attach true PtyClient.no_result)) = Some (SetTermios 0 cooked None).
Proof. vm_compute. done. Qed.
Example attach_no_size :
  fst (attach false PtyClient.no_result) =
    [GotTermios 0 (Ok cooked); GotTermios 1 (Ok cooked); GotTermios 0 (Ok cooked); SetTermios 0 (raw_mode cooked) None;
     GotWinsize 1 (Err "no size"); SetTermios 0 cooked None].
Proof. vm_compute. reflexivity. Qed.
End AttachExample.
