(* ===== verification/Recorder.v ===== *)
(** * The audit recorder (pkg/audit/recorder.go)

    Requests hand their records to a [Recorder], which keeps them in a bounded
    queue; one goroutine takes them from it and writes them to a store.
    Each call of [Record] and [Close] is a goroutine of the model, and each of
    their operations on the mutex, on the channels and on the flag is a step;
    the goroutines and the writer interleave freely.  The store is the
    environment: [Save] and its [Close] return when they like, with the error
    they like. *)
From S2P Require Import Prelude Handle.
From stdpp Require Import options.

Definition DefaultQueueSize : Z := 256.

#[export] Instance AuditRecord_eq_dec : EqDecision AuditRecord.
Proof. solve_decision. Defined.

(** An error of the store; the recorder only passes it on or logs it. *)
Definition error : Type := string.

(** Where a call of [Record] or of [Close] is.  The lock of the mutex is for
    writing a wait for the other writers, after which no reader gets in any
    more, and a wait for the readers that are inside. *)
Inductive thread : Type :=
  | RLock (rec : AuditRecord)
  | RCheck (rec : AuditRecord)
  | RSend (rec : AuditRecord)
  | RUnlock
  | RDone
  | CLock
  | CPending
  | CSwap
  | CCloseQueue
  | CUnlock (alreadyClosed : bool)
  | CWait (alreadyClosed : bool)
  | CStore
  | CDone (err : option error).

(** The goroutine [run]: receiving from the queue, in [Save] with a record,
    about to close [done], and at its end. *)
Inductive writer_pc : Type :=
  | WTake
  | WSave (rec : AuditRecord)
  | WEnd
  | WDone.

(** What happened to the records and to the store. *)
Inductive event : Type :=
  | Accepted (rec : AuditRecord)
  | Dropped (rec : AuditRecord)                  (* with a warning *)
  | Ignored (rec : AuditRecord)
  | Refusing                                     (* [r.closed = true] *)
  | Saving (rec : AuditRecord)
  | Saved (rec : AuditRecord) (err : option error)
  | StoreClosed (err : option error).

Record Recorder : Type := mk_Recorder {
  queueSize : nat;
  queue : list AuditRecord;
  queue_closed : bool;
  done_closed : bool;
  readers : nat;                  (* of the mutex *)
  writing : bool;                 (* a goroutine has or waits for the mutex for writing *)
  closed : bool;
  store_open : bool;
  writer : writer_pc;
  threads : list thread;
  hist : list event;
  panicked : bool;
}.

(** ** Operations *)

Definition NewRecorder (size : Z) : Recorder :=
  mk_Recorder (Z.to_nat (if decide (size ≤ 0)%Z then DefaultQueueSize else size))
    [] false false 0 false false true WTake [] [] false.

Definition set_queue x s := mk_Recorder (queueSize s) x (queue_closed s) (done_closed s) (readers s) (writing s) (closed s) (store_open s) (writer s) (threads s) (hist s) (panicked s).
Definition set_queue_closed x s := mk_Recorder (queueSize s) (queue s) x (done_closed s) (readers s) (writing s) (closed s) (store_open s) (writer s) (threads s) (hist s) (panicked s).
Definition set_done_closed x s := mk_Recorder (queueSize s) (queue s) (queue_closed s) x (readers s) (writing s) (closed s) (store_open s) (writer s) (threads s) (hist s) (panicked s).
Definition set_readers x s := mk_Recorder (queueSize s) (queue s) (queue_closed s) (done_closed s) x (writing s) (closed s) (store_open s) (writer s) (threads s) (hist s) (panicked s).
Definition set_writing x s := mk_Recorder (queueSize s) (queue s) (queue_closed s) (done_closed s) (readers s) x (closed s) (store_open s) (writer s) (threads s) (hist s) (panicked s).
Definition set_closed x s := mk_Recorder (queueSize s) (queue s) (queue_closed s) (done_closed s) (readers s) (writing s) x (store_open s) (writer s) (threads s) (hist s) (panicked s).
Definition set_store_open x s := mk_Recorder (queueSize s) (queue s) (queue_closed s) (done_closed s) (readers s) (writing s) (closed s) x (writer s) (threads s) (hist s) (panicked s).
Definition set_writer x s := mk_Recorder (queueSize s) (queue s) (queue_closed s) (done_closed s) (readers s) (writing s) (closed s) (store_open s) x (threads s) (hist s) (panicked s).
Definition set_threads x s := mk_Recorder (queueSize s) (queue s) (queue_closed s) (done_closed s) (readers s) (writing s) (closed s) (store_open s) (writer s) x (hist s) (panicked s).
Definition log x s := mk_Recorder (queueSize s) (queue s) (queue_closed s) (done_closed s) (readers s) (writing s) (closed s) (store_open s) (writer s) (threads s) (hist s ++ [x]) (panicked s).
Definition panic s := mk_Recorder (queueSize s) (queue s) (queue_closed s) (done_closed s) (readers s) (writing s) (closed s) (store_open s) (writer s) (threads s) (hist s) true.

Definition goto (i : nat) (t : thread) (s : Recorder) : Recorder := set_threads (<[i := t]> (threads s)) s.

(** The select of [Record]: a send that is dropped when the queue is full; to
    send on a closed channel ends the process. *)
Definition send (rec : AuditRecord) (s : Recorder) : Recorder :=
  if queue_closed s then panic s
  else if decide (length (queue s) < queueSize s) then log (Accepted rec) (set_queue (queue s ++ [rec]) s)
  else log (Dropped rec) s.

(** [close(r.queue)]; to close a closed channel ends the process. *)
Definition close_queue (s : Recorder) : Recorder :=
  if queue_closed s then panic s else set_queue_closed true s.

(** The calls the program makes. *)
Definition Record_call (rec : option AuditRecord) : thread :=
  match rec with Some rec => RLock rec | None => RDone end.
Definition Close_call : thread := CLock.

(** [Record], one step *)
Definition record_step (i : nat) (t : thread) (s : Recorder) : option Recorder :=
  match t with
  | RLock rec => if writing s then None else Some (goto i (RCheck rec) (set_readers (S (readers s)) s))
  | RCheck rec => Some (if closed s then goto i RUnlock (log (Ignored rec) s) else goto i (RSend rec) s)
  | RSend rec => Some (goto i RUnlock (send rec s))
  | RUnlock => Some (goto i RDone (set_readers (pred (readers s)) s))
  | _ => None
  end.

(** [Close], one step; the last one returns the answer of the store's [Close]. *)
Definition close_step (i : nat) (t : thread) (s : Recorder) : option Recorder :=
  match t with
  | CLock => if writing s then None else Some (goto i CPending (set_writing true s))
  | CPending => if decide (readers s = 0) then Some (goto i CSwap s) else None
  | CSwap =>
    Some (if closed s then goto i (CUnlock true) s else goto i CCloseQueue (log Refusing (set_closed true s)))
  | CCloseQueue => Some (goto i (CUnlock false) (close_queue s))
  | CUnlock already => Some (goto i (CWait already) (set_writing false s))
  | CWait already =>
    if done_closed s then Some (goto i (if already then CDone None else CStore) s) else None
  | _ => None
  end.

(** [run], up to the call of [Save] and after it *)
Definition run_step (s : Recorder) : option Recorder :=
  match writer s with
  | WTake =>
    match queue s with
    | rec :: rest => Some (set_writer (WSave rec) (log (Saving rec) (set_queue rest s)))
    | [] => if queue_closed s then Some (set_writer WEnd s) else None
    end
  | WEnd => Some (set_writer WDone (if done_closed s then panic s else set_done_closed true s))
  | WSave _ | WDone => None
  end.

Inductive label : Type :=
  | LRecord (rec : option AuditRecord)                (* a goroutine calls [Record] *)
  | LClose                                            (* a goroutine calls [Close] *)
  | LThread (i : nat)
  | LWriter
  | LSaveReturns (err : option error)                 (* [store.Save] returns *)
  | LStoreCloses (i : nat) (err : option error).      (* [store.Close] returns *)

(** The steps that are not up to the callers or to the store. *)
Definition internal (l : label) : bool := match l with LThread _ | LWriter => true | _ => false end.

Definition exec (l : label) (s : Recorder) : option Recorder :=
  match l with
  | LRecord rec => Some (set_threads (threads s ++ [Record_call rec]) s)
  | LClose => Some (set_threads (threads s ++ [Close_call]) s)
  | LThread i =>
    t ← threads s !! i;
    match record_step i t s with Some s' => Some s' | None => close_step i t s end
  | LWriter => run_step s
  | LSaveReturns err =>
    match writer s with WSave rec => Some (set_writer WTake (log (Saved rec err) s)) | _ => None end
  | LStoreCloses i err =>
    match threads s !! i with
    | Some CStore => Some (goto i (CDone err) (log (StoreClosed err) (set_store_open false s)))
    | _ => None
    end
  end.

Definition step (s s' : Recorder) : Prop := ∃ l, exec l s = Some s'.
Definition reachable_from (size : Z) : Recorder → Prop := reachable (eq (NewRecorder size)) step.

(** ** What a recorder promises: a bounded queue in front of a store *)

Record phase : Type := mk_phase {
  waiting : list AuditRecord;
  in_hand : option AuditRecord;
  accepting : bool;
  open : bool;
}.
Definition initial_phase : phase := mk_phase [] None true true.

(** A record is accepted while there is room, and dropped only when there is
    none; the store gets the records one at a time, in the order they were
    accepted in, and is closed once, when it has got them all. *)
Definition advance (size : nat) (p : phase) (e : event) : option phase :=
  match e, p with
  | Accepted rec, mk_phase q h true o => if decide (length q < size) then Some (mk_phase (q ++ [rec]) h true o) else None
  | Dropped _, mk_phase q h true o => if decide (length q < size) then None else Some p
  | Ignored _, mk_phase q h false o => Some p
  | Refusing, mk_phase q h true o => Some (mk_phase q h false o)
  | Saving rec, mk_phase (rec' :: q) None a true => if decide (rec = rec') then Some (mk_phase q (Some rec) a true) else None
  | Saved rec _, mk_phase q (Some rec') a o => if decide (rec = rec') then Some (mk_phase q None a o) else None
  | StoreClosed _, mk_phase [] None false true => Some (mk_phase [] None false false)
  | _, _ => None
  end.

Definition protocol (size : nat) (h : list event) : option phase :=
  foldl (λ p e, p ← p; advance size p e) (Some initial_phase) h.

Definition accepted (h : list event) : list AuditRecord := omap (λ e, match e with Accepted rec => Some rec | _ => None end) h.
Definition handed_over (h : list event) : list AuditRecord := omap (λ e, match e with Saving rec => Some rec | _ => None end) h.

Lemma recorder_protocol_snoc size h e : protocol size (h ++ [e]) = protocol size h ≫= λ p, advance size p e.
Proof. unfold protocol. by rewrite foldl_app. Qed.

Lemma protocol_order size h p : protocol size h = Some p → accepted h = handed_over h ++ waiting p.
Proof.
  revert p. induction h as [|e h IH] using rev_ind; intros p.
  { unfold protocol. cbn. by intros [= <-]. }
  rewrite recorder_protocol_snoc. destruct (protocol size h) as [q|]; [|done]. cbn. specialize (IH q eq_refl).
  unfold accepted, handed_over in *. rewrite !omap_app. cbn.
  destruct e, q as [w hd [|] [|] ]; intros Hp; simplify_eq/=; repeat (case_match; simplify_eq/=);
    by rewrite ?app_nil_r, IH, ?app_nil_r, <-?app_assoc.
Qed.

(** ** The invariant *)

Definition inside (t : thread) : bool := match t with RCheck _ | RSend _ | RUnlock => true | _ => false end.
Definition exclusive (t : thread) : bool := match t with CPending | CSwap | CCloseQueue | CUnlock _ => true | _ => false end.
(** The call of [Close] that closes the queue, and will close the store. *)
Definition closing (t : thread) : bool :=
  match t with CCloseQueue | CUnlock false | CWait false | CStore => true | _ => false end.
Definition flagging (t : thread) : bool := match t with CCloseQueue => true | _ => false end.

Definition count (f : thread → bool) (ts : list thread) : nat := sum_list_with (λ t, Nat.b2n (f t)) ts.

Lemma count_threads_app f ts t : count f (ts ++ [t]) = count f ts + Nat.b2n (f t).
Proof. unfold count. rewrite sum_list_with_app. cbn. lia. Qed.

Lemma count_insert f ts i t t' :
  ts !! i = Some t → count f (<[i := t']> ts) + Nat.b2n (f t) = count f ts + Nat.b2n (f t').
Proof.
  revert i. induction ts as [|u ts IH]; intros [|i] Hi; simplify_eq/=; [lia|]. specialize (IH i Hi). unfold count in *. cbn. lia.
Qed.

Lemma count_one f ts i t : ts !! i = Some t → f t = true → 1 ≤ count f ts.
Proof.
  revert i. induction ts as [|u ts IH]; intros [|i] Hi Hf; simplify_eq/=; unfold count in *; cbn; [rewrite Hf; cbn; lia|].
  specialize (IH i Hi Hf). lia.
Qed.

Lemma count_threads_pos f ts : 0 < count f ts → ∃ i t, ts !! i = Some t ∧ f t = true.
Proof.
  induction ts as [|u ts IH]; unfold count in *; cbn; [lia|]. destruct (f u) eqn:Hu; [by exists 0, u|].
  intros (i & t & Hi & Ht)%IH. by exists (S i), t.
Qed.

Lemma count_two f ts i j t u :
  i ≠ j → ts !! i = Some t → ts !! j = Some u → f t = true → f u = true → 2 ≤ count f ts.
Proof.
  revert i j. induction ts as [|x ts IH]; intros [|i] [|j] Hij Hi Hj Ht Hu; simplify_eq/=; try done; unfold count in *; cbn.
  - pose proof (count_one f ts j u Hj Hu). rewrite Ht. unfold count in *. cbn. lia.
  - pose proof (count_one f ts i t Hi Ht). rewrite Hu. unfold count in *. cbn. lia.
  - specialize (IH i j ltac:(lia) Hi Hj Ht Hu). lia.
Qed.

#[local] Arguments count : simpl never.
#[local] Arguments protocol : simpl never.

(** What a goroutine knows where it is. *)
Definition knows (s : Recorder) (t : thread) : Prop :=
  match t with
  | RSend _ => closed s = false
  | CSwap => readers s = 0
  | CCloseQueue => readers s = 0 ∧ closed s = true ∧ queue_closed s = false
  | CUnlock _ => readers s = 0 ∧ closed s = true ∧ queue_closed s = true
  | CWait _ => closed s = true ∧ queue_closed s = true
  | CStore | CDone _ => closed s = true ∧ done_closed s = true
  | _ => True
  end.

Definition phase_of (s : Recorder) : phase :=
  mk_phase (queue s) (match writer s with WSave rec => Some rec | _ => None end) (negb (closed s)) (store_open s).

Record inv (s : Recorder) : Prop := {
  in_panic : panicked s = false;
  in_protocol : protocol (queueSize s) (hist s) = Some (phase_of s);
  in_readers : readers s = count inside (threads s);
  in_writing : Nat.b2n (writing s) = count exclusive (threads s);
  in_closing : Nat.b2n (closed s) = count closing (threads s) + Nat.b2n (negb (store_open s));
  in_knows i t : threads s !! i = Some t → knows s t;
  in_flag : Nat.b2n (closed s) = Nat.b2n (queue_closed s) + count flagging (threads s);
  in_store : store_open s = false → done_closed s = true;
  in_end : writer s = WEnd ∨ writer s = WDone → queue_closed s = true ∧ queue s = [];
  in_done : done_closed s = true ↔ writer s = WDone;
}.

Lemma NewRecorder_inv size : inv (NewRecorder size).
Proof. constructor; cbn; try done; by intros [?|?]. Qed.

Lemma in_queue s : inv s → queue_closed s = true → closed s = true.
Proof. intros Hs Hq. pose proof (in_flag _ Hs) as Hf. rewrite Hq in Hf. destruct (closed s); [done|cbn in Hf; lia]. Qed.

(** The other goroutines keep what they know. *)
Definition others_know (i : nat) (s s' : Recorder) : Prop :=
  ∀ j u, j ≠ i → threads s !! j = Some u → knows s u → knows s' u.

Lemma knows_goto i t t' s s' :
  threads s !! i = Some t → threads s' = threads s → others_know i s s' → (∀ j u, threads s !! j = Some u → knows s u) →
  knows s' t' → ∀ j u, threads (goto i t' s') !! j = Some u → knows s' u.
Proof.
  intros Hi Hts Ho Hk Hn j u. cbn. rewrite Hts. destruct (decide (i = j)) as [<-|Hij].
  - rewrite list_lookup_insert_eq by by eapply lookup_lt_Some. by intros [= <-].
  - rewrite list_lookup_insert_ne by done. intros Hj. by eapply Ho, Hk.
Qed.

Lemma exclusive_alone i j s t u :
  inv s → threads s !! i = Some t → exclusive t = true → threads s !! j = Some u → exclusive u = true → j = i.
Proof.
  intros Hs Hi Ht Hj Hu. destruct (decide (j = i)) as [?|Hij]; [done|].
  pose proof (count_two exclusive _ _ _ _ _ Hij Hj Hi Hu Ht). pose proof (in_writing _ Hs). destruct (writing s); cbn in *; lia.
Qed.

Lemma no_exclusive j s u : inv s → writing s = false → threads s !! j = Some u → exclusive u = false.
Proof.
  intros Hs Hw Hj. destruct (exclusive u) eqn:Hu; [|done]. pose proof (count_one exclusive _ _ _ Hj Hu).
  pose proof (in_writing _ Hs) as Hc. rewrite Hw in Hc. cbn in Hc. lia.
Qed.

Lemma nobody_inside j s u : inv s → readers s = 0 → threads s !! j = Some u → inside u = false.
Proof.
  intros Hs Hr Hj. destruct (inside u) eqn:Hu; [|done]. pose proof (count_one inside _ _ _ Hj Hu).
  pose proof (in_readers _ Hs). lia.
Qed.

Lemma goto_inv i t t' s s' :
  inv s → threads s !! i = Some t → threads s' = threads s → panicked s' = false →
  protocol (queueSize s') (hist s') = Some (phase_of s') →
  readers s' + Nat.b2n (inside t) = readers s + Nat.b2n (inside t') →
  Nat.b2n (writing s') + Nat.b2n (exclusive t) = Nat.b2n (writing s) + Nat.b2n (exclusive t') →
  Nat.b2n (closed s') + Nat.b2n (negb (store_open s)) + Nat.b2n (closing t) =
    Nat.b2n (closed s) + Nat.b2n (negb (store_open s')) + Nat.b2n (closing t') →
  others_know i s s' → knows s' t' →
  Nat.b2n (closed s') + Nat.b2n (queue_closed s) + Nat.b2n (flagging t) =
    Nat.b2n (closed s) + Nat.b2n (queue_closed s') + Nat.b2n (flagging t') →
  (store_open s' = false → done_closed s' = true) →
  (writer s' = WEnd ∨ writer s' = WDone → queue_closed s' = true ∧ queue s' = []) →
  (done_closed s' = true ↔ writer s' = WDone) →
  inv (goto i t' s').
Proof.
  intros Hs Hi Hts Hp Hh Hr Hw Hc Ho Hk Hq Hst He Hd.
  pose proof (count_insert inside _ i t t' Hi). pose proof (count_insert exclusive _ i t t' Hi). pose proof (count_insert closing _ i t t' Hi).
  pose proof (count_insert flagging _ i t t' Hi). destruct Hs as [_ _ Hr0 Hw0 Hc0 Hk0 Hf0 _ _ _]. constructor; cbn; rewrite ?Hts; try done; try lia.
  rewrite <-Hts. by eapply (knows_goto i t t' s s').
Qed.

Lemma protocol_log s p e : protocol (queueSize s) (hist s) = Some p → protocol (queueSize s) (hist s ++ [e]) = advance (queueSize s) p e.
Proof. intros Hp. by rewrite recorder_protocol_snoc, Hp. Qed.

(** A condition of [goto_inv] that the step does not touch. *)
Ltac known Hs := destruct Hs as [? ? ? ? ? ? ? ? ? ?]; solve [done | lia | by auto | by intros ? [] ].

Lemma record_step_inv i t s s' : inv s → threads s !! i = Some t → record_step i t s = Some s' → inv s'.
Proof.
  intros Hs Hi Hstep. pose proof (in_knows _ Hs _ _ Hi) as Hk. unfold record_step in Hstep.
  pose proof (in_protocol _ Hs) as Hprot.
  destruct t as [rec|rec|rec| | | | | | | | | | ]; try discriminate Hstep.
  - destruct (writing s) eqn:Hw; [discriminate Hstep|]. injection Hstep as <-.
    eapply goto_inv; try done; cbn; try known Hs.
    intros j u Hj Hu Hk0. pose proof (no_exclusive _ _ _ Hs Hw Hu). by destruct u.
  - destruct (closed s) eqn:Hc; injection Hstep as <-; eapply goto_inv; try done; cbn; try known Hs.
    rewrite (protocol_log _ _ _ Hprot). unfold phase_of. cbn. by rewrite Hc.
  - injection Hstep as <-. unfold send. cbn in Hk.
    assert (queue_closed s = false) as Hq by (destruct (queue_closed s) eqn:E; [|done]; pose proof (in_queue _ Hs E); congruence).
    rewrite Hq. destruct (decide (length (queue s) < queueSize s)) as [Hl|Hl].
    + eapply goto_inv; try done; cbn; try known Hs.
      * rewrite (protocol_log _ _ _ Hprot). unfold phase_of. cbn. rewrite Hk. cbn. by rewrite decide_True.
      * intros He. destruct (in_end _ Hs He). congruence.
    + eapply goto_inv; try done; cbn; try known Hs.
      rewrite (protocol_log _ _ _ Hprot). unfold phase_of. cbn. rewrite Hk. cbn. by rewrite decide_False.
  - injection Hstep as <-. pose proof (count_one inside _ _ _ Hi eq_refl). pose proof (in_readers _ Hs).
    eapply goto_inv; try done; cbn; try known Hs.
    intros j u Hj Hu Hk0. destruct u; cbn in *; try done; try lia; by destruct Hk0 as (-> & ? & ?).
Qed.

Lemma close_step_inv i t s s' : inv s → threads s !! i = Some t → close_step i t s = Some s' → inv s'.
Proof.
  intros Hs Hi Hstep. pose proof (in_knows _ Hs _ _ Hi) as Hk. unfold close_step in Hstep. pose proof (in_protocol _ Hs) as Hprot.
  destruct t as [| | | | | | | | |already|already| |]; try discriminate Hstep.
  - destruct (writing s) eqn:Hw; [discriminate Hstep|]. injection Hstep as <-. eapply goto_inv; try done; cbn; try known Hs.
    by rewrite Hw.
  - destruct (decide (readers s = 0)) as [Hr|]; [|discriminate Hstep]. injection Hstep as <-. eapply goto_inv; try done; cbn; known Hs.
  - destruct (closed s) eqn:Hc; injection Hstep as <-; eapply goto_inv; try done; cbn; try known Hs.
    + split_and!; [done..|]. destruct (queue_closed s) eqn:Hq; [done|]. exfalso. pose proof (in_flag _ Hs) as Hf.
      rewrite Hq, Hc in Hf. cbn in Hf. destruct (count_threads_pos flagging (threads s)) as (j & u & Hj & Hu); [lia|].
      assert (j = i) as -> by (apply (exclusive_alone i j s CSwap u); [done..|by destruct u]). by rewrite Hi in Hj; simplify_eq.
    + rewrite (protocol_log _ _ _ Hprot). unfold phase_of. cbn. by rewrite Hc.
    + by rewrite Hc.
    + intros j u Hj Hu Hk0. pose proof (nobody_inside _ _ _ Hs Hk Hu). destruct u; try done; cbn in *; naive_solver.
    + split_and!; [done..|]. destruct (queue_closed s) eqn:E; [|done]. pose proof (in_queue _ Hs E). congruence.
    + rewrite Hc. cbn. lia.
  - injection Hstep as <-. destruct Hk as (Hr & Hc & Hq). unfold close_queue. rewrite Hq. eapply goto_inv; try done; cbn; try known Hs.
    + intros j u Hj Hu Hk0. assert (Hn : exclusive u = false).
      { destruct (exclusive u) eqn:E; [|done]. destruct Hj. by apply (exclusive_alone i j s CCloseQueue u). }
      destruct u; cbn in *; try done; naive_solver.
    + rewrite Hq. cbn. lia.
    + intros He. destruct (in_end _ Hs He). by split.
  - injection Hstep as <-. destruct Hk as (Hr & Hc & Hq). pose proof (count_one exclusive _ _ _ Hi eq_refl). pose proof (in_writing _ Hs).
    eapply goto_inv; try done; cbn; try known Hs. destruct (writing s), already; cbn in *; lia.
  - destruct (done_closed s) eqn:Hd; [|done]. injection Hstep as <-. destruct Hk as [Hc Hq].
    destruct already; eapply goto_inv; try done; cbn; try known Hs.
Qed.

(** The goroutine that writes does not touch what the calls rely on. *)
Lemma writer_inv s s' :
  inv s → threads s' = threads s → readers s' = readers s → writing s' = writing s → closed s' = closed s →
  queue_closed s' = queue_closed s → store_open s' = store_open s → panicked s' = false →
  (done_closed s = true → done_closed s' = true) →
  protocol (queueSize s') (hist s') = Some (phase_of s') →
  (writer s' = WEnd ∨ writer s' = WDone → queue_closed s' = true ∧ queue s' = []) →
  (done_closed s' = true ↔ writer s' = WDone) → inv s'.
Proof.
  intros [_ _ Hr Hw Hc Hk Hf Hst _ _] Et Er Ew Ec Eq Es Hp Hd Hh He Hdone.
  constructor; rewrite ?Et, ?Er, ?Ew, ?Ec, ?Eq, ?Es in *; try done; [|by auto].
  intros i t Hi. specialize (Hk i t Hi). destruct t; cbn in *; rewrite ?Er, ?Ec, ?Eq; naive_solver.
Qed.

Lemma run_step_inv s s' : inv s → run_step s = Some s' → inv s'.
Proof.
  intros Hs Hstep. pose proof (in_protocol _ Hs) as Hprot. pose proof (in_done _ Hs) as Hd. pose proof (in_end _ Hs) as He.
  unfold run_step in Hstep. destruct (writer s) as [|rec| |] eqn:Hw; try done.
  - assert (Hn : done_closed s = false) by (destruct (done_closed s); [by discriminate (proj1 Hd eq_refl)|done]).
    destruct (queue s) as [|rec rest] eqn:Hq.
    + destruct (queue_closed s) eqn:Hc; [|done]. injection Hstep as <-. eapply writer_inv; try done; cbn; try known Hs.
      * rewrite Hprot. unfold phase_of. cbn. by rewrite Hw.
      * by rewrite Hn.
    + injection Hstep as <-. eapply writer_inv; try done; cbn; try known Hs.
      * rewrite (protocol_log _ _ _ Hprot). unfold phase_of. cbn. rewrite Hw, Hq. cbn.
        destruct (store_open s) eqn:Ho; [by rewrite decide_True|]. pose proof (in_store _ Hs Ho). congruence.
      * by intros [|].
      * by rewrite Hn.
  - injection Hstep as <-. destruct He as [Hc Hq]; [by left|].
    destruct (done_closed s) eqn:Hn; [by discriminate (proj1 Hd eq_refl)|]. eapply writer_inv; try done; cbn; try known Hs.
    rewrite Hprot. unfold phase_of. cbn. by rewrite Hw.
Qed.

Lemma call_inv t s : inv s → t = RDone ∨ t = CLock ∨ (∃ rec, t = RLock rec) → inv (set_threads (threads s ++ [t]) s).
Proof.
  intros [? ? Hr Hw Hc Hk Hf ? ? ?] Ht.
  assert (inside t = false ∧ exclusive t = false ∧ closing t = false ∧ flagging t = false ∧ ∀ s, knows s t) as (H1 & H2 & H3 & H4 & H5)
    by (destruct Ht as [-> |[-> |[rec ->] ] ]; done).
  constructor; cbn; rewrite ?count_threads_app, ?H1, ?H2, ?H3, ?H4; cbn; try done; try lia.
  intros i u Hi. apply lookup_app_Some in Hi as [Hi|[_ Hi] ]; [by apply (Hk i)|].
  apply list_lookup_singleton_Some in Hi as [_ ->]. apply H5.
Qed.

Lemma record_exec_inv l s s' : inv s → exec l s = Some s' → inv s'.
Proof.
  intros Hs Hstep. destruct l as [rec| |i| |err|i err]; cbn in Hstep.
  - injection Hstep as <-. apply call_inv; [done|]. destruct rec; [by right; right; eexists|by left].
  - injection Hstep as <-. apply call_inv; [done|by right; left].
  - destruct (threads s !! i) as [t|] eqn:Hi; [|done]. cbn in Hstep. destruct (record_step i t s) eqn:Hr.
    + injection Hstep as <-. by eapply record_step_inv.
    + by eapply close_step_inv.
  - by eapply run_step_inv.
  - destruct (writer s) as [|rec| |] eqn:Hw; try done. injection Hstep as <-. pose proof (in_protocol _ Hs) as Hprot.
    pose proof (in_done _ Hs) as Hd. eapply writer_inv; try done; cbn; try known Hs.
    + rewrite (protocol_log _ _ _ Hprot). unfold phase_of. cbn. rewrite Hw. cbn. by rewrite decide_True.
    + by intros [|].
    + rewrite Hd, Hw. done.
  - destruct (threads s !! i) as [[]|] eqn:Hi; try done. injection Hstep as <-. destruct (in_knows _ Hs _ _ Hi) as [Hc Hd].
    pose proof (proj1 (in_done _ Hs) Hd) as Hw. destruct (in_end _ Hs) as [Hq Hqe]; [by right|].
    pose proof (count_one closing _ _ _ Hi eq_refl) as H1. pose proof (in_closing _ Hs) as H2. rewrite Hc in H2.
    assert (Ho : store_open s = true) by (destruct (store_open s); [done|cbn in H2; lia]).
    eapply goto_inv; try done; cbn; try known Hs.
    + rewrite (protocol_log _ _ _ (in_protocol _ Hs)). unfold phase_of. cbn. by rewrite Hqe, Hw, Hc, Ho.
    + rewrite Ho. cbn. lia.
Qed.

Lemma reachable_recorder size s : reachable_from size s → inv s ∧ queueSize s = queueSize (NewRecorder size).
Proof.
  apply (reachable_invariant _ _ (λ s, inv s ∧ queueSize s = queueSize (NewRecorder size))).
  - intros ? <-. split; [apply NewRecorder_inv|done].
  - intros s1 s2 [Hs Hz] [l Hl]. split; [by eapply record_exec_inv|]. rewrite <-Hz. clear -Hl.
    destruct l; cbn in Hl; unfold record_step, close_step, run_step, send, close_queue, mbind, option_bind in Hl;
      simplify_eq/=; try done; repeat (case_match; simplify_eq/=; try done).
Qed.

Lemma protocol_bounded size h p : protocol size h = Some p → length (waiting p) ≤ size.
Proof.
  revert p. induction h as [|e h IH] using rev_ind; intros p; [unfold protocol; cbn; intros [= <-]; cbn; lia|].
  rewrite recorder_protocol_snoc. destruct (protocol size h) as [q|]; [|done]. cbn. specialize (IH q eq_refl).
  destruct e, q as [w hd [|] [|] ]; intros Hp; simplify_eq/=; repeat (case_match; simplify_eq/=); rewrite ?length_app; cbn; lia.
Qed.

(** A run of the goroutines of the recorder alone is short. *)
Definition rank (t : thread) : nat :=
  match t with
  | RLock _ => 4 | RCheck _ => 3 | RSend _ => 2 | RUnlock => 1 | RDone => 0
  | CLock => 7 | CPending => 6 | CSwap => 5 | CCloseQueue => 4 | CUnlock _ => 3 | CWait _ => 2 | CStore => 1 | CDone _ => 0
  end.
Definition writer_rank (w : writer_pc) : nat := match w with WTake => 2 | WEnd => 1 | WSave _ | WDone => 0 end.
Definition work (s : Recorder) : nat := sum_list_with rank (threads s) + writer_rank (writer s).

Lemma rank_insert ts i t t' : ts !! i = Some t → rank t' < rank t → sum_list_with rank (<[i := t']> ts) < sum_list_with rank ts.
Proof. revert i. induction ts as [|u ts IH]; intros [|i] Hi Hr; simplify_eq/=; [lia|]. specialize (IH i Hi Hr). lia. Qed.

Lemma rank_bound ts : sum_list_with rank ts ≤ 7 * length ts.
Proof. induction ts as [|t ts IH]; cbn; [lia|]. assert (rank t ≤ 7) by (destruct t; cbn; lia). lia. Qed.

Lemma internal_works l s s' : internal l = true → exec l s = Some s' → work s' < work s.
Proof.
  intros Hl Hstep. destruct l as [| |i| | |]; try done; cbn in Hstep; unfold work.
  - destruct (threads s !! i) as [t|] eqn:Hi; [|done]. cbn in Hstep.
    assert (∃ t' s1, s' = goto i t' s1 ∧ threads s1 = threads s ∧ writer s1 = writer s ∧ rank t' < rank t) as (t' & s1 & -> & Et & Ew & Hr).
    { destruct t; cbn in Hstep; unfold send, close_queue in Hstep; simplify_eq; repeat (case_match; simplify_eq; try done);
        do 2 eexists; (split; [reflexivity|split_and!; [done..|cbn; lia] ]). }
    cbn. rewrite Et, Ew. pose proof (rank_insert _ _ _ _ Hi Hr). lia.
  - unfold run_step in Hstep. destruct (writer s); try done; repeat (case_match; simplify_eq/=; try done); lia.
Qed.

Fixpoint run_recorder (ls : list label) (s : Recorder) : option Recorder :=
  match ls with [] => Some s | l :: ls => s ← exec l s; run_recorder ls s end.

Lemma run_recorder_reachable size ls s s' : reachable_from size s → run_recorder ls s = Some s' → reachable_from size s'.
Proof.
  revert s. induction ls as [|l ls IH]; cbn; intros s Hs Hr; [by injection Hr as <-|].
  destruct (exec l s) as [s1|] eqn:Hl; [|done]. apply (IH s1); [|done]. eapply reachable_step; [done|by exists l].
Qed.

Lemma run_works ls s s' : Forall (λ l, internal l = true) ls → run_recorder ls s = Some s' → length ls + work s' ≤ work s.
Proof.
  revert s. induction ls as [|l ls IH]; cbn; intros s Hls Hr; [injection Hr as <-; lia|].
  apply Forall_cons in Hls as [Hl Hls]. destruct (exec l s) as [s1|] eqn:He; [|done].
  pose proof (internal_works _ _ _ Hl He). specialize (IH s1 Hls Hr). lia.
Qed.

(** No goroutine of the recorder can go on by itself. *)
Definition all_wait (s : Recorder) : Prop := ∀ l, internal l = true → exec l s = None.

Lemma waiting_outside s i t : all_wait s → threads s !! i = Some t → inside t = false.
Proof.
  intros Hw Hi. specialize (Hw (LThread i) eq_refl). cbn in Hw. rewrite Hi in Hw. by destruct t; cbn in Hw; try case_match.
Qed.

Lemma waiting_shared s : inv s → all_wait s → readers s = 0 ∧ writing s = false.
Proof.
  intros Hs Hw. assert (Hr : readers s = 0).
  { rewrite (in_readers _ Hs). destruct (count inside (threads s)) eqn:E; [done|].
    destruct (count_threads_pos inside (threads s)) as (i & t & Hi & Ht); [lia|]. by rewrite (waiting_outside _ _ _ Hw Hi) in Ht. }
  split; [done|]. destruct (writing s) eqn:E; [|done]. pose proof (in_writing _ Hs) as Hc. rewrite E in Hc. cbn in Hc.
  destruct (count_threads_pos exclusive (threads s)) as (i & t & Hi & Ht); [lia|]. specialize (Hw (LThread i) eq_refl). cbn in Hw.
  rewrite Hi in Hw. destruct t; try done; cbn in Hw. by rewrite decide_True in Hw.
Qed.

Lemma waiting_writer s : inv s → all_wait s → queue_closed s = true → done_closed s = false → ∃ rec, writer s = WSave rec.
Proof.
  intros Hs Hw Hq Hd. specialize (Hw LWriter eq_refl). cbn in Hw. unfold run_step in Hw. pose proof (in_done _ Hs) as Hdone.
  destruct (writer s) as [|rec| |] eqn:E; [|by eexists|done|]; [destruct (queue s); [by rewrite Hq in Hw|done]|].
  by rewrite (proj2 Hdone eq_refl) in Hd.
Qed.

(** ** Properties *)

(** C20. The recorder is a bounded queue in front of the store.  However the calls
    and the writer interleave, no channel is used after it was closed or closed
    twice, and what happens is a run of the protocol of such a queue: a record is
    dropped only when the queue is full and ignored only once the recorder was
    asked to close; the store gets one record at a time, in the order they were
    accepted in, and is closed at most once, and then with nothing left to save.
    When a call of [Close] has returned, every record that was ever accepted was
    given to the store. *)
Theorem recorder_protocol (size : Z) (s : Recorder) :
  reachable_from size s →
  panicked s = false ∧ protocol (queueSize (NewRecorder size)) (hist s) = Some (phase_of s) ∧
  length (queue s) ≤ queueSize (NewRecorder size) ∧
  accepted (hist s) = handed_over (hist s) ++ queue s ∧
  ∀ i err, threads s !! i = Some (CDone err) →
    closed s = true ∧ phase_of s = mk_phase [] None false (store_open s) ∧ handed_over (hist s) = accepted (hist s).
Proof.
  intros [Hs Hz]%reachable_recorder. pose proof (in_protocol _ Hs) as Hp. rewrite Hz in Hp.
  pose proof (protocol_order _ _ _ Hp) as Ho. split_and!; [apply Hs|done|apply (protocol_bounded _ _ _ Hp)|done|].
  intros i err Hi. destruct (in_knows _ Hs _ _ Hi) as [Hc Hd]. pose proof (proj1 (in_done _ Hs) Hd) as Hw.
  destruct (in_end _ Hs (or_intror Hw)) as [_ Hq]. unfold phase_of in *. rewrite Hw, Hq, Hc in *. cbn in Ho.
  by rewrite app_nil_r in Ho.
Qed.

(** Recording waits neither for the store nor for other calls that wait.  Left
    to themselves, while the store does not answer, the goroutines of the
    recorder take a bounded number of steps, and when none of them can go on,
    every call of [Record] has returned; what has not returned are calls of
    [Close], of which the one that closed the queue waits for the store's
    [Close], and the others, or it, for a record that is being saved. *)
Theorem recorder_progress (size : Z) (s s' : Recorder) (ls : list label) :
  reachable_from size s → Forall (λ l, internal l = true) ls → run_recorder ls s = Some s' →
  length ls ≤ 7 * length (threads s) + 2 ∧
  (all_wait s' → ∀ i t, threads s' !! i = Some t →
    match t with
    | RDone | CDone _ | CStore => True
    | CWait _ => ∃ rec, writer s' = WSave rec
    | _ => False
    end).
Proof.
  intros Hs Hls Hrun. pose proof (run_works _ _ _ Hls Hrun) as Hlen. apply (run_recorder_reachable _ _ _ _ Hs) in Hrun.
  apply reachable_recorder in Hrun as [Hinv _]. split.
  { unfold work in Hlen. pose proof (rank_bound (threads s)). assert (writer_rank (writer s) ≤ 2) by (destruct (writer s); cbn; lia). lia. }
  intros Hw i t Hi. destruct (waiting_shared _ Hinv Hw) as [Hr Hx]. pose proof (in_knows _ Hinv _ _ Hi) as Hk.
  pose proof (Hw (LThread i) eq_refl) as Hstep. cbn in Hstep. rewrite Hi in Hstep.
  destruct t; cbn in Hstep, Hk; rewrite ?Hx, ?Hr in Hstep; try done.
  destruct (done_closed s') eqn:Hd; [done|]. by apply waiting_writer, Hd; [| |apply Hk].
Qed.

(** ** Examples *)

Module RecorderExample.
Definition record_of (path : string) : AuditRecord := mk_AuditRecord 0 "1" "delete" path "" 0 true "".

(** With a queue for one record: the first is being saved, the second waits, the
    third is dropped, the recorder is asked to close, and a fourth is ignored. *)
Definition busy_run : list label :=
  [LRecord (Some (record_of "a"))] ++ replicate 4 (LThread 0) ++ [LWriter] ++
  [LRecord (Some (record_of "b"))] ++ replicate 4 (LThread 1) ++
  [LRecord (Some (record_of "c"))] ++ replicate 4 (LThread 2) ++
  [LClose] ++ replicate 5 (LThread 3) ++
  [LRecord (Some (record_of "d"))].
Definition ignored_run : list label := replicate 3 (LThread 4).
Definition end_run : list label :=
  [LSaveReturns None; LWriter; LSaveReturns (Some "disk full"); LWriter; LWriter; LThread 3; LStoreCloses 3 None].

Example busy_hist :
  hist <$> run_recorder (busy_run ++ ignored_run ++ end_run) (NewRecorder 1) =
  Some [Accepted (record_of "a"); Saving (record_of "a"); Accepted (record_of "b"); Dropped (record_of "c"); Refusing;
        Ignored (record_of "d"); Saved (record_of "a") None; Saving (record_of "b"); Saved (record_of "b") (Some "disk full");
        StoreClosed None].
Proof. vm_compute. reflexivity. Qed.
End RecorderExample.

Lemma new_reachable size ls s : run_recorder ls (NewRecorder size) = Some s → reachable_from size s.
Proof. apply run_recorder_reachable. by apply reachable_init. Qed.

Lemma example_states :
  ∃ s s' s'', run_recorder RecorderExample.busy_run (NewRecorder 1) = Some s ∧
    run_recorder RecorderExample.ignored_run s = Some s' ∧ run_recorder RecorderExample.end_run s' = Some s'' ∧
    threads s'' !! 3 = Some (CDone None) ∧ length (accepted (hist s'')) = 2 ∧ closed s'' = true ∧
    Forall (λ t, t = RDone ∨ ∃ err, t = CDone err) (threads s'').
Proof.
  do 3 eexists. split; [vm_compute; reflexivity|]. do 2 (split; [vm_compute; reflexivity|]). split_and!; try done.
  repeat (apply Forall_cons; split; [by (left; reflexivity) || (right; eexists; reflexivity)|]). by apply Forall_nil.
Qed.

Lemma recorder_protocol_witness :
  ∃ s, reachable_from 1 s ∧ threads s !! 3 = Some (CDone None) ∧ length (accepted (hist s)) = 2 ∧
    handed_over (hist s) = accepted (hist s).
Proof.
  destruct example_states as (s & s' & s'' & H1 & H2 & H3 & H4 & H5 & _). exists s''.
  assert (Hs : reachable_from 1 s'') by (eapply run_recorder_reachable, H3; eapply run_recorder_reachable, H2; by eapply new_reachable).
  destruct (recorder_protocol 1 s'' Hs) as (_ & _ & _ & _ & Hclosed).
  split; [exact Hs|]. split; [exact H4|]. split; [exact H5|]. exact (proj2 (proj2 (Hclosed 3 None H4))).
Defined.

Lemma recorder_progress_witness :
  ∃ s s', reachable_from 1 s ∧ run_recorder RecorderExample.ignored_run s = Some s' ∧
    length RecorderExample.ignored_run ≤ 7 * length (threads s) + 2 ∧
    (all_wait s' → ∀ i rec, threads s' !! i ≠ Some (RSend rec)).
Proof.
  destruct example_states as (s & s' & s'' & H1 & H2 & H3 & H4 & H5 & _). exists s, s'. apply new_reachable in H1.
  destruct (recorder_progress 1 s s' RecorderExample.ignored_run H1 ltac:(repeat constructor) H2) as [Hn Hw].
  split; [exact H1|]. split; [exact H2|]. split; [exact Hn|]. intros H i rec Hi. exact (Hw H i _ Hi).
Defined.
