(* ===== verification/SelfWrite.v ===== *)
(** * The record of the daemon's own writes (pkg/syncer/selfwrite.go)

    A change the daemon made for the server would come back to it as a file
    event; the filter suppresses the events of the paths it has written within
    the last [ttl].  Every operation holds the mutex, so each is one
    transition; the times are those [nowFn] returned. *)
From S2P Require Import Prelude GoPath Safepath.
From stdpp Require Import options.

Record selfWriteFilter : Type := mk_selfWriteFilter {
  ttl : Z;
  entries : gmap string Z;
}.

Definition newSelfWriteFilter (ttl : Z) : selfWriteFilter := mk_selfWriteFilter ttl ∅.

Definition Remember (now : Z) (paths : list string) (f : option selfWriteFilter) : option selfWriteFilter :=
  match f with
  | None => None
  | Some f =>
    if bool_decide (ttl f ≤ 0)%Z then Some f
    else
      let expiry := (now + ttl f)%Z in
      Some (mk_selfWriteFilter (ttl f)
        (foldl (λ m path, <[ToSlash path := expiry]> m) (entries f) paths))
  end.

(** [for candidate, expiry := range f.entries]: the deletions do not depend on
    the order. *)
Definition prune (now : Z) (m : gmap string Z) : gmap string Z := filter (λ '(_, expiry), now < expiry)%Z m.

Definition ShouldSuppress (now : Z) (path : string) (f : option selfWriteFilter)
    : option selfWriteFilter * bool :=
  match f with
  | None => (None, false)
  | Some f =>
    if bool_decide (ttl f ≤ 0)%Z then (Some f, false)
    else
      let key := ToSlash path in
      let m := prune now (entries f) in
      (Some (mk_selfWriteFilter (ttl f) m),
       match m !! key with Some expiry => bool_decide (now < expiry)%Z | None => false end)
  end.

Definition size (f : selfWriteFilter) : nat := base.size (entries f).

(** ** The window of a write

    The history of a filter, and what it should answer. *)

Inductive event : Type := Wrote (paths : list string) | Asked (path : string).

Definition history : Type := list (Z * event).

(** Running a history on the filter; the answers in order. *)
Fixpoint run (f : option selfWriteFilter) (h : history) : option selfWriteFilter * list bool :=
  match h with
  | [] => (f, [])
  | (now, Wrote paths) :: h' => run (Remember now paths f) h'
  | (now, Asked path) :: h' =>
    let '(f', b) := ShouldSuppress now path f in
    let '(f'', bs) := run f' h' in (f'', b :: bs)
  end.

(** Some write to the path is younger than the time to live. *)
Definition recent (ttl : Z) (past : history) (now : Z) (path : string) : bool :=
  existsb (λ '(t, e),
    match e with
    | Wrote paths => bool_decide (ToSlash path ∈ ToSlash <$> paths) && bool_decide (now < t + ttl)%Z
    | Asked _ => false
    end) past.

Fixpoint spec_run (ttl : Z) (past h : history) : list bool :=
  match h with
  | [] => []
  | (now, Wrote paths) :: h' => spec_run ttl (past ++ [(now, Wrote paths)]) h'
  | (now, Asked path) :: h' =>
    recent ttl past now path :: spec_run ttl (past ++ [(now, Asked path)]) h'
  end.

(** The clock does not go back. *)
Definition ordered (h : history) : Prop := StronglySorted Z.le (fst <$> h).

Lemma Remember_lookup (expiry : Z) paths (m : gmap string Z) k :
  foldl (λ m path, <[ToSlash path := expiry]> m) m paths !! k =
  if bool_decide (k ∈ ToSlash <$> paths) then Some expiry else m !! k.
Proof.
  revert m. induction paths as [|p paths IH]; intros m; [done|]. cbn [foldl]. rewrite IH, fmap_cons.
  destruct (decide (k ∈ ToSlash <$> paths)) as [Hin|Hin].
  - rewrite (bool_decide_eq_true_2 _ Hin), bool_decide_eq_true_2; [done|]. apply elem_of_cons. by right.
  - rewrite (bool_decide_eq_false_2 _ Hin). destruct (decide (k = ToSlash p)) as [->|Hne].
    + rewrite lookup_insert_eq, bool_decide_eq_true_2; [done|]. apply elem_of_cons. by left.
    + rewrite lookup_insert_ne by done. rewrite bool_decide_eq_false_2; [done|].
      rewrite elem_of_cons. naive_solver.
Qed.

(** The entries say when the last write of each path expires, for every write
    not yet expired at the last time the filter was used. *)
Definition tracks (ttl : Z) (past : history) (last : Z) (m : gmap string Z) : Prop :=
  ∀ k t', (last ≤ t')%Z →
    (match m !! k with Some e => bool_decide (t' < e)%Z | None => false end) =
    existsb (λ '(t, e),
      match e with
      | Wrote paths => bool_decide (k ∈ ToSlash <$> paths) && bool_decide (t' < t + ttl)%Z
      | Asked _ => false
      end) past.

Lemma tracks_wrote ttl past last m now paths :
  (0 < ttl)%Z → tracks ttl past last m → (last ≤ now)%Z → Forall (λ t, t ≤ now)%Z (fst <$> past) →
  tracks ttl (past ++ [(now, Wrote paths)]) now
    (foldl (λ m path, <[ToSlash path := (now + ttl)%Z]> m) m paths).
Proof.
  intros Httl Ht Hl Hpast k t' Ht'. rewrite Remember_lookup, existsb_app. simpl. rewrite orb_false_r.
  destruct (decide (k ∈ ToSlash <$> paths)) as [Hin|Hin].
  - rewrite !(bool_decide_eq_true_2 (k ∈ _)) by done. simpl.
    destruct (decide (t' < now + ttl)%Z).
    + rewrite bool_decide_eq_true_2 by done. by rewrite orb_true_r.
    + rewrite bool_decide_eq_false_2 by done. rewrite orb_false_r. symmetry.
      apply not_true_iff_false. rewrite existsb_exists. intros ([t [ps|]] & Hx & Hb); [|done].
      apply andb_true_iff in Hb as [_ Hb%bool_decide_eq_true].
      rewrite Forall_forall in Hpast. specialize (Hpast t). simpl in Hpast.
      assert (t ≤ now)%Z; [|lia]. apply Hpast, list_elem_of_fmap. exists (t, Wrote ps). by rewrite list_elem_of_In.
  - rewrite !(bool_decide_eq_false_2 (k ∈ _)) by done. simpl. rewrite orb_false_r. apply Ht. lia.
Qed.

Lemma tracks_asked ttl past last m now path :
  tracks ttl past last m → (last ≤ now)%Z →
  tracks ttl (past ++ [(now, Asked path)]) now (prune now m).
Proof.
  intros Ht Hl k t' Ht'. rewrite existsb_app. simpl. rewrite orb_false_r.
  rewrite <-(Ht k t') by lia. unfold prune. destruct (m !! k) as [e|] eqn:He.
  - destruct (decide (now < e)%Z).
    + by rewrite (proj2 (map_lookup_filter_Some _ m k e)) by done.
    + rewrite (proj2 (map_lookup_filter_None _ m k)).
      * symmetry. apply bool_decide_eq_false_2. lia.
      * right. intros e' He'. rewrite He in He'. by injection He' as <-.
  - by rewrite (proj2 (map_lookup_filter_None _ m k)) by by left.
Qed.

Lemma prune_lookup now m k :
  match prune now m !! k with Some e => bool_decide (now < e)%Z | None => false end =
  match m !! k with Some e => bool_decide (now < e)%Z | None => false end.
Proof.
  unfold prune. destruct (m !! k) as [e|] eqn:He.
  - destruct (decide (now < e)%Z).
    + by rewrite (proj2 (map_lookup_filter_Some _ m k e)) by done.
    + rewrite (proj2 (map_lookup_filter_None _ m k)).
      * symmetry. by apply bool_decide_eq_false_2.
      * right. intros e' He'. rewrite He in He'. by injection He' as <-.
  - by rewrite (proj2 (map_lookup_filter_None _ m k)) by by left.
Qed.

Lemma run_tracks ttl past last m h :
  (0 < ttl)%Z → tracks ttl past last m → Forall (λ t, t ≤ last)%Z (fst <$> past) →
  Forall (λ t, last ≤ t)%Z (fst <$> h) → ordered h →
  snd (run (Some (mk_selfWriteFilter ttl m)) h) = spec_run ttl past h.
Proof.
  intros Httl. revert past last m. induction h as [|[now e] h IH]; intros past last m Ht Hp Hh Hord; [done|].
  apply Forall_cons in Hh as [Hnow Hh]. apply StronglySorted_inv in Hord as [Hord Hle]. simpl in Hnow.
  assert (Hp' : ∀ e', Forall (λ t, t ≤ now)%Z (fst <$> past ++ [(now, e')])).
  { intros e'. rewrite fmap_app. apply Forall_app. split; [|by constructor].
    eapply Forall_impl; [exact Hp|]. intros ? ?. simpl in *. lia. }
  assert (Hp0 : Forall (λ t, t ≤ now)%Z (fst <$> past)) by (eapply Forall_impl; [exact Hp|]; simpl; lia).
  destruct e as [paths|path].
  - cbn [run spec_run]. unfold Remember. cbn [SelfWrite.ttl entries].
    rewrite bool_decide_eq_false_2 by lia.
    apply (IH _ now); [by eapply tracks_wrote|apply Hp'|exact Hle|exact Hord].
  - cbn [run spec_run]. unfold ShouldSuppress. cbn [SelfWrite.ttl entries].
    rewrite bool_decide_eq_false_2 by lia. rewrite prune_lookup.
    specialize (IH (past ++ [(now, Asked path)]) now (prune now m)).
    destruct (run _ h) as [f' bs]. simpl in *. rewrite IH; [|by eapply tracks_asked|apply Hp'|exact Hle|exact Hord].
    f_equal. by apply (Ht (ToSlash path)).
Qed.

(** The window of suppression.  However writes and questions alternate, as
    long as the clock does not go back, the filter answers that an event is to
    be suppressed exactly when one of the writes it was told of was to that
    path (with forward slashes) less than the time to live ago; a write that
    expired and was pruned is never missed. *)
Theorem selfwrite_window (ttl : Z) (h : history) :
  (0 < ttl)%Z → ordered h →
  snd (run (Some (newSelfWriteFilter ttl)) h) = spec_run ttl [] h.
Proof.
  intros Httl Hord. destruct h as [|[t e] h]; [done|].
  apply (run_tracks ttl [] t); [done| |done| |done].
  - intros k t' _. by rewrite lookup_empty.
  - apply StronglySorted_inv in Hord as [_ Hle]. constructor; [simpl; lia|exact Hle].
Qed.

Lemma selfwrite_window_witness :
  ordered [(0, Wrote ["a\b"]); (5, Asked "a/b"); (20, Asked "a/b")]%Z ∧
  snd (run (Some (newSelfWriteFilter 10)) [(0, Wrote ["a\b"]); (5, Asked "a/b"); (20, Asked "a/b")]%Z)
    = [true; false].
Proof.
  assert (Ho : ordered [(0, Wrote ["a\b"]); (5, Asked "a/b"); (20, Asked "a/b")]%Z)
    by (repeat constructor; done).
  split; [exact Ho|].
  rewrite (selfwrite_window 10 [(0, Wrote ["a\b"]); (5, Asked "a/b"); (20, Asked "a/b")]%Z); [|lia|exact Ho].
  vm_compute. reflexivity.
Defined.

(** The filter forgets.  After a question at time [now] only writes that have
    not expired are kept, and a filter that is nil, or whose time to live is
    not positive, suppresses nothing and stays as it is. *)
Theorem selfwrite_forgets (f : selfWriteFilter) (now : Z) (path : string) (paths : list string) :
  match fst (ShouldSuppress now path (Some f)) with
  | Some f' => ttl f' = ttl f ∧ size f' ≤ size f ∧
      ((0 < ttl f)%Z → ∀ k e, entries f' !! k = Some e ↔ entries f !! k = Some e ∧ (now < e)%Z)
  | None => False
  end ∧
  ShouldSuppress now path None = (None, false) ∧ Remember now paths None = None ∧
  ((ttl f ≤ 0)%Z → ShouldSuppress now path (Some f) = (Some f, false) ∧ Remember now paths (Some f) = Some f).
Proof.
  unfold ShouldSuppress, Remember. split_and!; try done.
  - destruct (decide (ttl f ≤ 0)%Z).
    + rewrite bool_decide_eq_true_2 by done. simpl. split_and!; [done|done|lia].
    + rewrite bool_decide_eq_false_2 by done. cbn [fst]. cbn [ttl entries]. split_and!; [done| |].
      * unfold size. cbn [entries]. apply map_subseteq_size, map_filter_subseteq.
      * intros _ k e. unfold prune. by rewrite map_lookup_filter_Some.
  - intros Hle. by rewrite bool_decide_eq_true_2.
Qed.
