(* ===== verification/Locker.v ===== *)
(** * Locking paths (pkg/syncer/locker.go)

    Requests are handled by goroutines of one daemon that share a
    [pathLocker].  [Lock] takes the locker's own mutex to find or make the
    entry of the key and to count its users, then the mutex of the entry;
    unlocking goes the other way and drops an entry nobody uses.  Each part
    that runs under one mutex is a step of a goroutine, and the goroutines
    interleave freely.  The heap tells entries of one key made at different
    times apart. *)
From S2P Require Import Prelude GoPath Safepath OsFs.
From stdpp Require Import options.

Record pathEntry : Type := mk_pathEntry { locked : bool; refCount : Z }.

(** Where a goroutine is that runs [unlock := LockMany(paths...); ...; unlock()]:
    about to lock the next of [todo], waiting for the mutex of an entry,
    unlocking the entries that are left, about to give up an entry whose mutex
    it has unlocked, or done.  [TLock done []] is inside, with all its locks. *)
Inductive thread : Type :=
  | TLock (done : list (string * nat)) (todo : list string)
  | TWait (done : list (string * nat)) (key : string) (entry : nat) (todo : list string)
  | TUnlock (rest : list (string * nat))
  | TDrop (key : string) (entry : nat) (rest : list (string * nat))
  | TDone.

#[export] Instance thread_eq_dec : EqDecision thread.
Proof. solve_decision. Defined.

Record state : Type := mk_state {
  locks : gmap string nat;
  heap : gmap nat pathEntry;
  threads : list thread;
  panicked : bool;
}.

(** ** Operations *)

Definition newPathLocker (paths : list (list string)) : state :=
  mk_state ∅ ∅ ((λ ps, TLock [] (lock_keys ps)) <$> paths) false.

Definition incr (e : pathEntry) : pathEntry := mk_pathEntry (locked e) (refCount e + 1).
Definition decr (e : pathEntry) : pathEntry := mk_pathEntry (locked e) (refCount e - 1).

(** [Lock], up to [l.mu.Unlock()]: the entry of the key, made if there is none. *)
Definition acquire (key : string) (s : state) : state * nat :=
  let '(s, entry) :=
    match locks s !! key with
    | Some entry => (s, entry)
    | None =>
      let entry := fresh (dom (heap s)) in
      (mk_state (<[key := entry]> (locks s)) (<[entry := mk_pathEntry false 0]> (heap s))
         (threads s) (panicked s), entry)
    end in
  (mk_state (locks s) (alter incr entry (heap s)) (threads s) (panicked s), entry).

(** [entry.mu.Lock()]; [None] while the mutex is taken *)
Definition mutex_lock (entry : nat) (s : state) : option state :=
  match heap s !! entry with
  | Some e =>
    if locked e then None
    else Some (mk_state (locks s) (<[entry := mk_pathEntry true (refCount e)]> (heap s))
                 (threads s) (panicked s))
  | None => None
  end.

(** [entry.mu.Unlock()]; to unlock a mutex that is not locked ends the process *)
Definition mutex_unlock (entry : nat) (s : state) : state :=
  match heap s !! entry with
  | Some e =>
    mk_state (locks s) (<[entry := mk_pathEntry false (refCount e)]> (heap s)) (threads s)
      (panicked s || negb (locked e))
  | None => mk_state (locks s) (heap s) (threads s) true
  end.

(** the rest of the function [Lock] returns *)
Definition drop_entry (key : string) (entry : nat) (s : state) : state :=
  let heap' := alter decr entry (heap s) in
  let gone := match heap' !! entry with Some e => bool_decide (refCount e = 0%Z) | None => false end in
  mk_state (if gone then delete key (locks s) else locks s) heap' (threads s) (panicked s).

Definition goto (i : nat) (t : thread) (s : state) : state :=
  mk_state (locks s) (heap s) (<[i := t]> (threads s)) (panicked s).

(** One step of goroutine [i]; [None] when it waits or is done. *)
Definition exec (i : nat) (s : state) : option state :=
  match threads s !! i with
  | Some (TLock done (key :: todo)) =>
    let '(s, entry) := acquire key s in Some (goto i (TWait done key entry todo) s)
  | Some (TLock done []) => Some (goto i (TUnlock (reverse done)) s)
  | Some (TWait done key entry todo) =>
    goto i (TLock (done ++ [(key, entry)]) todo) <$> mutex_lock entry s
  | Some (TUnlock ((key, entry) :: rest)) => Some (goto i (TDrop key entry rest) (mutex_unlock entry s))
  | Some (TUnlock []) => Some (goto i TDone s)
  | Some (TDrop key entry rest) => Some (goto i (TUnlock rest) (drop_entry key entry s))
  | Some TDone | None => None
  end.

Definition step (s s' : state) : Prop := ∃ i, exec i s = Some s'.

(** ** Who uses an entry *)

(** The entries a goroutine has counted itself in, and those whose mutex it has. *)
Definition uses (t : thread) : list (string * nat) :=
  match t with
  | TLock done _ => done
  | TWait done key entry _ => (key, entry) :: done
  | TUnlock rest => rest
  | TDrop key entry rest => (key, entry) :: rest
  | TDone => []
  end.
Definition holds (t : thread) : list (string * nat) :=
  match t with
  | TLock done _ | TWait done _ _ _ => done
  | TUnlock rest | TDrop _ _ rest => rest
  | TDone => []
  end.

(** How often an entry is in such a list. *)
Definition count (e : nat) (l : list (string * nat)) : nat := length (filter (λ x, snd x = e) l).

Definition total_of (f : thread → list (string * nat)) (e : nat) (ts : list thread) : nat :=
  sum_list_with (λ t, count e (f t)) ts.

Lemma count_nil e : count e [] = 0.
Proof. done. Qed.

Lemma count_cons e k e' l : count e ((k, e') :: l) = (if decide (e' = e) then 1 else 0) + count e l.
Proof. unfold count. rewrite filter_cons. simpl. by destruct (decide (e' = e)). Qed.

Lemma count_app e l1 l2 : count e (l1 ++ l2) = count e l1 + count e l2.
Proof. unfold count. by rewrite filter_app, length_app. Qed.

Lemma count_reverse e l : count e (reverse l) = count e l.
Proof. induction l as [|[k x] l IH]; [done|]. rewrite reverse_cons, count_app, IH, !count_cons, count_nil. lia. Qed.

Lemma count_pos e k l : (k, e) ∈ l → 0 < count e l.
Proof.
  intros Hl. unfold count. destruct (filter _ l) as [|x l'] eqn:E; [|simpl; lia].
  exfalso. assert ((k, e) ∈ filter (λ x, snd x = e) l) as Hin by by apply list_elem_of_filter.
  rewrite E in Hin. by apply not_elem_of_nil in Hin.
Qed.

Lemma count_elem e l : 0 < count e l → ∃ k, (k, e) ∈ l.
Proof.
  unfold count. destruct (filter _ l) as [|[k x] l'] eqn:E; simpl; [lia|]. intros _.
  assert ((k, x) ∈ filter (λ x, snd x = e) l) as Hin by (rewrite E; by left).
  apply list_elem_of_filter in Hin as [<- Hin]. eauto.
Qed.

Lemma sum_list_with_insert {A} (f : A → nat) l i x y :
  l !! i = Some x → sum_list_with f (<[i := y]> l) + f x = sum_list_with f l + f y.
Proof.
  revert i. induction l as [|z l IH]; intros [|i]; simpl; [done..| |].
  - intros [= ->]. lia.
  - intros Hi. specialize (IH i Hi). lia.
Qed.

Lemma sum_list_with_elem {A} (f : A → nat) l i x : l !! i = Some x → f x ≤ sum_list_with f l.
Proof.
  revert i. induction l as [|z l IH]; intros [|i]; simpl; [done..| |]; [intros [= ->]; lia|].
  intros Hi. specialize (IH i Hi). lia.
Qed.

Lemma sum_list_with_two {A} (f : A → nat) l i j x y :
  i ≠ j → l !! i = Some x → l !! j = Some y → f x + f y ≤ sum_list_with f l.
Proof.
  revert i j. induction l as [|z l IH]; intros [|i] [|j] Hij; simpl; try done.
  - intros [= ->] Hj. pose proof (sum_list_with_elem f l j y Hj). lia.
  - intros Hi [= ->]. pose proof (sum_list_with_elem f l i x Hi). lia.
  - intros Hi Hj. specialize (IH i j ltac:(lia) Hi Hj). lia.
Qed.

Lemma sum_list_with_pos {A} (f : A → nat) l : 0 < sum_list_with f l → ∃ i x, l !! i = Some x ∧ 0 < f x.
Proof.
  induction l as [|z l IH]; simpl; [lia|]. intros Hp. destruct (decide (0 < f z)).
  - by exists 0, z.
  - destruct IH as (i & x & Hi & Hx); [lia|]. by exists (S i), x.
Qed.

(** ** The invariant *)

(** The keys a goroutine has locked, is locking and has yet to lock. *)
Definition keys_of (t : thread) : option (list string) :=
  match t with
  | TLock done todo => Some ((fst <$> done) ++ todo)
  | TWait done key _ todo => Some ((fst <$> done) ++ key :: todo)
  | _ => None
  end.

Record inv (paths : list (list string)) (s : state) : Prop := {
  inv_uses i t k e : threads s !! i = Some t → (k, e) ∈ uses t → locks s !! k = Some e;
  inv_entry k e : locks s !! k = Some e → ∃ en, heap s !! e = Some en ∧ (0 < refCount en)%Z;
  inv_inj k k' e : locks s !! k = Some e → locks s !! k' = Some e → k = k';
  inv_refs e en : heap s !! e = Some en → refCount en = Z.of_nat (total_of uses e (threads s));
  inv_locked e en : heap s !! e = Some en → Nat.b2n (locked en) = total_of holds e (threads s);
  inv_keys i t ks : threads s !! i = Some t → keys_of t = Some ks →
    ∃ ps, paths !! i = Some ps ∧ ks = lock_keys ps;
  inv_calm : panicked s = false;
}.

(** The total of an entry after one goroutine has moved. *)
Lemma total_goto f e ts i t t' :
  ts !! i = Some t → total_of f e (<[i := t']> ts) + count e (f t) = total_of f e ts + count e (f t').
Proof. intros Hi. by apply (sum_list_with_insert (λ t, count e (f t))). Qed.

Lemma total_elem f e ts i t : ts !! i = Some t → count e (f t) ≤ total_of f e ts.
Proof. intros Hi. by apply (sum_list_with_elem (λ t, count e (f t)) ts i). Qed.

Lemma lookup_threads (ts : list thread) i t j t' :
  <[i := t]> ts !! j = Some t' → (j = i ∧ t' = t) ∨ (j ≠ i ∧ ts !! j = Some t').
Proof. intros [(-> & -> & _)|[? ?]]%list_lookup_insert_Some; auto. Qed.

Lemma holds_uses t x : x ∈ holds t → x ∈ uses t.
Proof. destruct t; simpl; set_solver. Qed.

Lemma inv_new paths : inv paths (newPathLocker paths).
Proof.
  split; simpl.
  - intros i t k e. rewrite list_lookup_fmap. destruct (paths !! i); [|done].
    intros [= <-] ?%not_elem_of_nil. done.
  - intros k e. by rewrite lookup_empty.
  - intros k k' e. by rewrite lookup_empty.
  - intros e en. by rewrite lookup_empty.
  - intros e en. by rewrite lookup_empty.
  - intros i t ks. rewrite list_lookup_fmap. destruct (paths !! i) as [ps|]; [|done].
    intros [= <-] [= <-]. eauto.
  - done.
Qed.

Section preservation.
Context (paths : list (list string)).

(** A move that uses and holds the same entries. *)
Lemma inv_goto s i t t' :
  inv paths s → threads s !! i = Some t → uses t' ≡ₚ uses t → holds t' ≡ₚ holds t →
  (keys_of t' = keys_of t ∨ keys_of t' = None) → inv paths (goto i t' s).
Proof.
  intros Hs Hi Hu Hh Hk.
  assert (Hc : ∀ f e, f t' ≡ₚ f t → total_of f e (<[i := t']> (threads s)) = total_of f e (threads s)).
  { intros f e Hf. pose proof (total_goto f e (threads s) i t t' Hi).
    assert (count e (f t') = count e (f t)) by (unfold count; by rewrite Hf). lia. }
  split; simpl.
  - intros j t1 k e [[-> ->]|[Hj ?]]%lookup_threads.
    + rewrite Hu. by apply (inv_uses _ _ Hs i).
    + by apply (inv_uses _ _ Hs j).
  - apply (inv_entry _ _ Hs).
  - apply (inv_inj _ _ Hs).
  - intros e en. rewrite Hc by done. apply (inv_refs _ _ Hs).
  - intros e en. rewrite Hc by done. apply (inv_locked _ _ Hs).
  - intros j t1 ks [[-> ->]|[Hj ?]]%lookup_threads; [|by apply (inv_keys _ _ Hs j)].
    destruct Hk as [-> | ->]; [by apply (inv_keys _ _ Hs i)|done].
  - apply (inv_calm _ _ Hs).
Qed.

(** Entries nobody has counted himself in are not in the heap with users. *)
Lemma total_new s e : inv paths s → heap s !! e = None → total_of uses e (threads s) = 0 ∧ total_of holds e (threads s) = 0.
Proof.
  intros Hs He.
  assert (∀ f, (∀ t x, x ∈ f t → x ∈ uses t) → total_of f e (threads s) = 0) as Hf.
  { intros f Hf. destruct (decide (total_of f e (threads s) = 0)) as [|Hne]; [done|].
    destruct (sum_list_with_pos (λ t, count e (f t)) (threads s)) as (i & t & Hi & Hc); [unfold total_of in *; lia|].
    apply count_elem in Hc as [k Hk%Hf]. apply (inv_uses _ _ Hs i) in Hk; [|done].
    apply (inv_entry _ _ Hs) in Hk as (en & ? & _). congruence. }
  split; apply Hf; [done|apply holds_uses].
Qed.

(** What taking part in an entry changes. *)
Lemma acquire_spec s key :
  inv paths s →
  let '(s', entry) := acquire key s in
  threads s' = threads s ∧ panicked s' = panicked s ∧
  (∀ k, locks s' !! k = if decide (k = key) then Some entry else locks s !! k) ∧
  (∀ k, locks s !! k = Some entry → k = key) ∧
  (∀ e, locks s !! key = Some e → e = entry) ∧
  (∀ e, e ≠ entry → heap s' !! e = heap s !! e) ∧
  ∃ en, heap s' !! entry = Some en ∧ refCount en = (1 + Z.of_nat (total_of uses entry (threads s)))%Z ∧
    Nat.b2n (locked en) = total_of holds entry (threads s).
Proof.
  intros Hs. unfold acquire. destruct (locks s !! key) as [entry|] eqn:Hk; simpl.
  - destruct (inv_entry _ _ Hs _ _ Hk) as (en & Hen & _). split_and!; [done|done|..].
    + intros k. by destruct (decide (k = key)) as [->|].
    + intros k Hk'. by apply (inv_inj _ _ Hs k key entry).
    + by intros e [= <-].
    + intros e He. by rewrite lookup_alter_ne.
    + exists (incr en). rewrite lookup_alter_eq, Hen. simpl.
      rewrite (inv_refs _ _ Hs _ _ Hen), (inv_locked _ _ Hs _ _ Hen). split_and!; [done|lia|done].
  - set (entry := fresh (dom (heap s))).
    assert (Hnew : heap s !! entry = None) by (apply not_elem_of_dom, is_fresh).
    destruct (total_new s entry Hs Hnew) as [Hu Hh]. split_and!; [done|done|..].
    + intros k. destruct (decide (k = key)) as [->|]; [by rewrite lookup_insert_eq|by rewrite lookup_insert_ne].
    + intros k He. destruct (inv_entry _ _ Hs _ _ He) as (en & Hen & _). congruence.
    + done.
    + intros e He. by rewrite lookup_alter_ne, lookup_insert_ne.
    + exists (incr (mk_pathEntry false 0)). rewrite lookup_alter_eq, lookup_insert_eq, Hu, Hh. done.
Qed.

Lemma inv_acquire s i done key todo :
  inv paths s → threads s !! i = Some (TLock done (key :: todo)) →
  let '(s', entry) := acquire key s in inv paths (goto i (TWait done key entry todo) s').
Proof.
  intros Hs Hi. pose proof (acquire_spec s key Hs) as Ha. destruct (acquire key s) as [s' entry].
  destruct Ha as (Hth & Hp & Hl & Hinj & Hkey & Hheap & en & Hen & Href & Hlk).
  pose proof (λ e, total_goto uses e (threads s) i _ (TWait done key entry todo) Hi) as Hu.
  pose proof (λ e, total_goto holds e (threads s) i _ (TWait done key entry todo) Hi) as Hh.
  simpl in Hu, Hh. setoid_rewrite count_cons in Hu.
  assert (Hold : ∀ k e, locks s !! k = Some e → locks s' !! k = Some e).
  { intros k e He. rewrite Hl. destruct (decide (k = key)) as [->|]; [|done]. by rewrite (Hkey e). }
  split; simpl; rewrite ?Hth, ?Hp; try apply (inv_calm _ _ Hs).
  - intros j t k e [[-> ->]|[_ Hj]]%lookup_threads Hin.
    + simpl in Hin. apply elem_of_cons in Hin as [[= -> ->]|Hin].
      * by rewrite Hl, decide_True.
      * by apply Hold, (inv_uses _ _ Hs i _ k e Hi).
    + by apply Hold, (inv_uses _ _ Hs j _ k e Hj).
  - intros k e. rewrite Hl. destruct (decide (k = key)) as [->|Hne].
    + intros [= <-]. exists en. split; [done|lia].
    + intros He. rewrite Hheap by (intros ->; by apply Hne, Hinj). by apply (inv_entry _ _ Hs k).
  - intros k k' e. rewrite !Hl. destruct (decide (k = key)) as [->|], (decide (k' = key)) as [->|].
    + done.
    + intros [= <-] He. by apply Hinj in He.
    + intros He [= <-]. by apply Hinj in He.
    + apply (inv_inj _ _ Hs).
  - intros e en' He. specialize (Hu e). destruct (decide (entry = e)) as [<-|Hne].
    + rewrite Hen in He. injection He as <-. lia.
    + rewrite Hheap in He by done. rewrite (inv_refs _ _ Hs e en' He). lia.
  - intros e en' He. specialize (Hh e). destruct (decide (entry = e)) as [<-|Hne].
    + rewrite Hen in He. injection He as <-. lia.
    + rewrite Hheap in He by done. rewrite (inv_locked _ _ Hs e en' He). lia.
  - intros j t ks [[-> ->]|[_ Hj]]%lookup_threads; [|by apply (inv_keys _ _ Hs j)].
    exact (inv_keys _ _ Hs i _ ks Hi).
Qed.

(** The mutex of an entry changes hands. *)
Lemma inv_mutex s i t t' e en b :
  inv paths s → threads s !! i = Some t → heap s !! e = Some en →
  uses t' ≡ₚ uses t → (keys_of t' = keys_of t ∨ keys_of t' = None) →
  (∀ e', Nat.b2n (if decide (e' = e) then b else false) + count e' (holds t) =
         Nat.b2n (if decide (e' = e) then locked en else false) + count e' (holds t')) →
  inv paths (goto i t' (mk_state (locks s) (<[e := mk_pathEntry b (refCount en)]> (heap s)) (threads s) (panicked s))).
Proof.
  intros Hs Hi He Hu Hk Hh.
  assert (Huse : ∀ e', total_of uses e' (<[i := t']> (threads s)) = total_of uses e' (threads s)).
  { intros e'. pose proof (total_goto uses e' (threads s) i t t' Hi).
    assert (count e' (uses t') = count e' (uses t)) by (unfold count; by rewrite Hu). lia. }
  pose proof (λ e', total_goto holds e' (threads s) i t t' Hi) as Hhold.
  split; simpl.
  - intros j t1 k e' [[-> ->]|[_ Hj]]%lookup_threads.
    + rewrite Hu. by apply (inv_uses _ _ Hs i).
    + by apply (inv_uses _ _ Hs j).
  - intros k e' Hk'. destruct (inv_entry _ _ Hs k e' Hk') as (en' & Hen' & Hp).
    destruct (decide (e' = e)) as [->|Hne].
    + rewrite He in Hen'. injection Hen' as <-. rewrite lookup_insert_eq. by eexists.
    + exists en'. by rewrite lookup_insert_ne by done.
  - apply (inv_inj _ _ Hs).
  - intros e' en'. rewrite Huse. destruct (decide (e' = e)) as [->|Hne].
    + rewrite lookup_insert_eq. intros [= <-]. by apply (inv_refs _ _ Hs e en).
    + rewrite lookup_insert_ne by done. by apply (inv_refs _ _ Hs).
  - intros e' en'. specialize (Hh e'). specialize (Hhold e'). destruct (decide (e' = e)) as [->|Hne].
    + rewrite lookup_insert_eq. intros [= <-]. simpl. pose proof (inv_locked _ _ Hs e en He). lia.
    + rewrite lookup_insert_ne by done. intros Hen'. pose proof (inv_locked _ _ Hs e' en' Hen'). simpl in Hh. lia.
  - intros j t1 ks [[-> ->]|[_ Hj]]%lookup_threads; [|by apply (inv_keys _ _ Hs j)].
    destruct Hk as [-> | ->]; [by apply (inv_keys _ _ Hs i)|done].
  - apply (inv_calm _ _ Hs).
Qed.

(** A goroutine that holds an entry finds its mutex locked. *)
Lemma holds_locked s i t k e :
  inv paths s → threads s !! i = Some t → (k, e) ∈ holds t →
  ∃ en, heap s !! e = Some en ∧ locked en = true.
Proof.
  intros Hs Hi Hin. pose proof (inv_uses _ _ Hs i t k e Hi (holds_uses _ _ Hin)) as Hl.
  destruct (inv_entry _ _ Hs k e Hl) as (en & Hen & _). exists en. split; [done|].
  pose proof (inv_locked _ _ Hs e en Hen). pose proof (total_elem holds e (threads s) i t Hi).
  apply count_pos in Hin. destruct (locked en); [done|]. simpl in *. lia.
Qed.

Lemma inv_drop s i k e rest :
  inv paths s → threads s !! i = Some (TDrop k e rest) → inv paths (goto i (TUnlock rest) (drop_entry k e s)).
Proof.
  intros Hs Hi. assert (Hl : locks s !! k = Some e) by (apply (inv_uses _ _ Hs i _ k e Hi); by left).
  destruct (inv_entry _ _ Hs k e Hl) as (en & Hen & Hpos).
  pose proof (λ e', total_goto uses e' (threads s) i _ (TUnlock rest) Hi) as Hu.
  pose proof (λ e', total_goto holds e' (threads s) i _ (TUnlock rest) Hi) as Hh.
  simpl in Hu, Hh. setoid_rewrite count_cons in Hu.
  unfold drop_entry. rewrite lookup_alter_eq, Hen. simpl.
  pose proof (inv_refs _ _ Hs e en Hen) as Href.
  set (locks' := if bool_decide (refCount en - 1 = 0)%Z then delete k (locks s) else locks s).
  assert (Hsub : ∀ k' e', locks' !! k' = Some e' → locks s !! k' = Some e' ∧
    (e' = e → refCount en - 1 ≠ 0)%Z).
  { unfold locks'. intros k' e'. case_bool_decide as Hz; [|naive_solver].
    intros [Hne He']%lookup_delete_Some. split; [done|]. intros ->.
    by destruct Hne; apply (inv_inj _ _ Hs _ _ e). }
  assert (Hkeep : ∀ k' e', locks s !! k' = Some e' → 0 < total_of uses e' (<[i:=TUnlock rest]> (threads s)) →
    locks' !! k' = Some e').
  { unfold locks'. intros k' e' Hk' Hpos'. case_bool_decide as Hz; [|done].
    rewrite lookup_delete_ne; [done|]. intros ->. rewrite Hl in Hk'. injection Hk' as <-.
    specialize (Hu e). rewrite decide_True in Hu by done. lia. }
  split; simpl.
  - intros j t k' e' Hj Hin. apply Hkeep.
    + apply lookup_threads in Hj as [[-> ->]|[_ Hj]]; [|by apply (inv_uses _ _ Hs j _ k' e' Hj)].
      apply (inv_uses _ _ Hs i _ k' e' Hi). by right.
    + pose proof (total_elem uses e' _ j t Hj). apply count_pos in Hin. lia.
  - intros k' e' [Hk' Hz]%Hsub. destruct (inv_entry _ _ Hs k' e' Hk') as (en' & Hen' & Hp).
    destruct (decide (e' = e)) as [->|Hne].
    + rewrite lookup_alter_eq, Hen. eexists. split; [done|]. simpl. specialize (Hz eq_refl). lia.
    + exists en'. by rewrite lookup_alter_ne by done.
  - intros k1 k2 e' [Hk1 _]%Hsub [Hk2 _]%Hsub. by apply (inv_inj _ _ Hs k1 k2 e').
  - intros e' en'. specialize (Hu e'). destruct (decide (e' = e)) as [->|Hne].
    + rewrite lookup_alter_eq, Hen. intros [= <-]. simpl. rewrite decide_True in Hu by done. lia.
    + rewrite lookup_alter_ne by done. intros Hen'. rewrite (inv_refs _ _ Hs e' en' Hen').
      rewrite decide_False in Hu by done. lia.
  - intros e' en'. specialize (Hh e'). destruct (decide (e' = e)) as [->|Hne].
    + rewrite lookup_alter_eq, Hen. intros [= <-]. simpl. rewrite (inv_locked _ _ Hs e en Hen). lia.
    + rewrite lookup_alter_ne by done. intros Hen'. rewrite (inv_locked _ _ Hs e' en' Hen'). lia.
  - intros j t ks [[-> ->]|[_ Hj]]%lookup_threads; [done|by apply (inv_keys _ _ Hs j)].
  - apply (inv_calm _ _ Hs).
Qed.

Lemma inv_exec s i s' : inv paths s → exec i s = Some s' → inv paths s'.
Proof.
  intros Hs. unfold exec. destruct (threads s !! i) as [[done [|key todo]|done key e todo|[|[k e] rest]|k e rest|]|] eqn:Hi;
    try done.
  - intros [= <-]. eapply inv_goto; [done..| | |by right]; simpl; apply reverse_Permutation.
  - pose proof (inv_acquire s i done key todo Hs Hi). destruct (acquire key s) as [s1 e]. by intros [= <-].
  - unfold mutex_lock. destruct (heap s !! e) as [en|] eqn:He; [|done]. destruct (locked en) eqn:Hlk; [done|].
    intros [= <-]. eapply inv_mutex; [done..| | |].
    + simpl. by rewrite Permutation_app_comm.
    + left. simpl. by rewrite fmap_app, <-app_assoc.
    + intros e'. simpl. rewrite count_app, count_cons, count_nil, Hlk.
      destruct (decide (e' = e)) as [->|Hne]; [by rewrite decide_True; simpl; try lia|].
      rewrite decide_False by done. simpl. lia.
  - intros [= <-]. eapply inv_goto; [done..|by right].
  - intros [= <-]. destruct (holds_locked s i _ k e Hs Hi) as (en & Hen & Hlk); [by left|].
    unfold mutex_unlock. rewrite Hen, Hlk, orb_false_r. eapply inv_mutex; [done..| |].
    + by right.
    + intros e'. simpl. rewrite count_cons, Hlk.
      destruct (decide (e' = e)) as [->|Hne]; [by rewrite decide_True|]. by rewrite decide_False.
  - intros [= <-]. by apply inv_drop.
  - done.
  - done.
Qed.
End preservation.

(** ** Runs *)

(** The states the goroutines reach, one goroutine for each list of paths. *)
Definition reachable_locker (paths : list (list string)) : state → Prop :=
  reachable (λ s, s = newPathLocker paths) step.

Lemma locker_reachable_inv paths s : reachable_locker paths s → inv paths s.
Proof.
  apply reachable_invariant.
  - intros ? ->. apply inv_new.
  - intros s1 s2 Hs [i Hi]. by eapply inv_exec.
Qed.

(** The goroutine is between locking the key and unlocking it. *)
Definition has_lock (t : thread) (k : string) : Prop := k ∈ fst <$> holds t.

(** C29. Locks exclude.  Whatever the interleaving, two goroutines are never both
    between locking and unlocking the same key, although entries come and go;
    a goroutine that runs its body has the locks of all its paths; and no
    mutex is ever unlocked that is not locked. *)
Theorem locker_excludes (paths : list (list string)) (s : state) :
  reachable_locker paths s →
  (∀ i j ti tj k, threads s !! i = Some ti → threads s !! j = Some tj →
     has_lock ti k → has_lock tj k → i = j) ∧
  (∀ i done, threads s !! i = Some (TLock done []) →
     ∃ ps, paths !! i = Some ps ∧ ∀ p, p ∈ ps → has_lock (TLock done []) (ToSlash p)) ∧
  panicked s = false.
Proof.
  intros Hs%locker_reachable_inv. split_and!; [|..|apply (inv_calm _ _ Hs)].
  - intros i j ti tj k Hi Hj ([k1 e1] & -> & Hin1)%list_elem_of_fmap ([k2 e2] & Hk & Hin2)%list_elem_of_fmap.
    simpl in Hk. subst k2. simpl in *. destruct (decide (i = j)) as [|Hne]; [done|exfalso].
    pose proof (inv_uses _ _ Hs i ti _ _ Hi (holds_uses _ _ Hin1)) as Hl1.
    pose proof (inv_uses _ _ Hs j tj _ _ Hj (holds_uses _ _ Hin2)) as Hl2.
    rewrite Hl1 in Hl2. injection Hl2 as <-.
    destruct (inv_entry _ _ Hs _ _ Hl1) as (en & Hen & _).
    pose proof (inv_locked _ _ Hs _ _ Hen).
    pose proof (sum_list_with_two (λ t, count e1 (holds t)) _ i j ti tj Hne Hi Hj).
    apply count_pos in Hin1. apply count_pos in Hin2. unfold total_of in *. destruct (locked en); simpl in *; lia.
  - intros i done Hi. destruct (inv_keys _ _ Hs i _ _ Hi eq_refl) as (ps & Hps & Hk).
    exists ps. split; [done|]. intros p Hp. unfold has_lock. simpl. rewrite app_nil_r in Hk. rewrite Hk.
    by apply elem_of_lock_keys.
Qed.

(** ** Progress *)

Lemma lock_keys_sorted paths : StronglySorted String.le (lock_keys paths) ∧ NoDup (lock_keys paths).
Proof.
  unfold lock_keys, sort_strings. split; [apply (StronglySorted_merge_sort _)|].
  rewrite merge_sort_Permutation. apply lock_keys_fold. constructor.
Qed.

(** A goroutine that waits holds only smaller keys. *)
Lemma waits_above paths s i done k e todo k0 :
  inv paths s → threads s !! i = Some (TWait done k e todo) → k0 ∈ fst <$> done →
  String.le k0 k ∧ k0 ≠ k.
Proof.
  intros Hs Hi Hk0. destruct (inv_keys _ _ Hs i _ _ Hi eq_refl) as (ps & _ & Hks).
  destruct (lock_keys_sorted ps) as [Hsort Hnd]. rewrite <-Hks in Hsort, Hnd. split.
  - eapply StronglySorted_app_1_elem_of; [exact Hsort|done|by left].
  - intros ->. apply NoDup_app in Hnd as (_ & Hnd & _). by apply (Hnd k); [|left].
Qed.

(** Of the waiting goroutines, one waits for a greatest key. *)
Definition waits_for (t : thread) : option string :=
  match t with TWait _ k _ _ => Some k | _ => None end.

Lemma greatest_waiting (ts : list thread) i t k :
  ts !! i = Some t → waits_for t = Some k →
  ∃ j t' k', ts !! j = Some t' ∧ waits_for t' = Some k' ∧
    ∀ l t'' k'', ts !! l = Some t'' → waits_for t'' = Some k'' → String.le k'' k'.
Proof.
  revert i t k. induction ts as [|t0 ts IH]; intros i t k Hi Hk; [done|].
  destruct (decide (Exists (λ t, is_Some (waits_for t)) ts)) as [Hyes|Hno].
  - apply Exists_exists in Hyes as (t1 & (i1 & Hi1)%list_elem_of_lookup & k1 & Hk1).
    destruct (IH i1 t1 k1 Hi1 Hk1) as (j & t' & k' & Hj & Hk' & Hmax).
    destruct (waits_for t0) as [k0|] eqn:Hk0.
    + destruct (total String.le k0 k') as [Hle|Hle].
      * exists (S j), t', k'. split_and!; [done..|]. intros [|l] t'' k''; simpl; [|by apply Hmax].
        intros [= <-] Hk''. rewrite Hk0 in Hk''. by injection Hk'' as <-.
      * exists 0, t0, k0. split_and!; [done..|]. intros [|l] t'' k''; simpl.
        -- intros [= <-] Hk''. rewrite Hk0 in Hk''. by injection Hk'' as <-.
        -- intros Hl Hk''. etrans; [by eapply Hmax|done].
    + exists (S j), t', k'. split_and!; [done..|]. intros [|l] t'' k''; simpl; [|by apply Hmax].
      intros [= <-] Hk''. congruence.
  - rewrite Exists_exists in Hno.
    assert (Hno' : ∀ i t k, ts !! i = Some t → waits_for t = Some k → False).
    { intros i1 t1 k1 Hi1 Hk1. apply Hno. exists t1. split; [by eapply list_elem_of_lookup_2|by eexists]. }
    destruct i as [|i]; [|by exfalso; eapply Hno'].
    injection Hi as ->. exists 0, t, k. split_and!; [done..|]. intros [|l] t'' k''; simpl.
    + intros [= <-] Hk''. rewrite Hk in Hk''. by injection Hk'' as <-.
    + intros Hl Hk''. by exfalso; eapply Hno'.
Qed.

(** The steps a goroutine has left, at most. *)
Definition work (t : thread) : nat :=
  match t with
  | TLock done todo => 4 * length todo + 2 * length done + 2
  | TWait done _ _ todo => 4 * length todo + 2 * length done + 5
  | TUnlock rest => 2 * length rest + 1
  | TDrop _ _ rest => 2 * length rest + 2
  | TDone => 0
  end.
Definition work_left (s : state) : nat := sum_list_with work (threads s).

Lemma exec_work s i s' : exec i s = Some s' → work_left s' < work_left s.
Proof.
  unfold work_left. intros He.
  assert (Hgoto : ∀ t t' ts, ts !! i = Some t → work t' < work t →
    sum_list_with work (<[i := t']> ts) < sum_list_with work ts).
  { intros t t' ts Hi Hw. pose proof (sum_list_with_insert work ts i t t' Hi). lia. }
  unfold exec in He.
  destruct (threads s !! i) as [[done [|key todo]|done key e todo|[|[k e] rest]|k e rest|]|] eqn:Hi; try by inversion He.
  - injection He as <-. apply (Hgoto _ _ _ Hi). simpl. rewrite length_reverse. lia.
  - unfold acquire in He. destruct (locks s !! key); injection He as <-; apply (Hgoto _ _ _ Hi); simpl; lia.
  - unfold mutex_lock in He. destruct (heap s !! e) as [en|]; [|done]. destruct (locked en); [done|].
    injection He as <-. apply (Hgoto _ _ _ Hi). simpl. rewrite length_app. simpl. lia.
  - injection He as <-. apply (Hgoto _ _ _ Hi). simpl. lia.
  - injection He as <-. unfold mutex_unlock. destruct (heap s !! e); apply (Hgoto _ _ _ Hi); simpl; lia.
  - injection He as <-. apply (Hgoto _ _ _ Hi). simpl. lia.
Qed.

Lemma mk_is_Some_Some {A} (a : A) : is_Some (Some a).
Proof. by exists a. Qed.

(** A goroutine that neither waits nor is done can step. *)
Lemma exec_running s i t :
  threads s !! i = Some t → t ≠ TDone → waits_for t = None → is_Some (exec i s).
Proof.
  intros Hi Hd Hw. unfold exec. rewrite Hi.
  destruct t as [done [|key todo]|done key e todo|[|[k e] rest]|k e rest|].
  - apply mk_is_Some_Some.
  - destruct (acquire key s). apply mk_is_Some_Some.
  - done.
  - apply mk_is_Some_Some.
  - apply mk_is_Some_Some.
  - apply mk_is_Some_Some.
  - done.
Qed.

(** The goroutine that waits for the greatest key is not in the way of itself. *)
Lemma greatest_runs paths s i done k e todo :
  inv paths s → threads s !! i = Some (TWait done k e todo) →
  (∀ l t k', threads s !! l = Some t → waits_for t = Some k' → String.le k' k) →
  ∃ j, is_Some (exec j s).
Proof.
  intros Hs Hi Hmax.
  assert (Hl : locks s !! k = Some e) by (apply (inv_uses _ _ Hs i _ k e Hi); by left).
  destruct (inv_entry _ _ Hs k e Hl) as (en & Hen & _). destruct (locked en) eqn:Hlk.
  - pose proof (inv_locked _ _ Hs e en Hen) as Hh. rewrite Hlk in Hh. simpl in Hh.
    destruct (sum_list_with_pos (λ t, count e (holds t)) (threads s)) as (j & t & Hj & Hc); [unfold total_of in Hh; lia|].
    apply count_elem in Hc as [k0 Hk0].
    pose proof (inv_uses _ _ Hs j t k0 e Hj (holds_uses _ _ Hk0)) as Hl0.
    rewrite (inv_inj _ _ Hs k0 k e Hl0 Hl) in Hk0. exists j.
    destruct (waits_for t) as [k'|] eqn:Hw.
    + destruct t as [|done' key' e' todo'| | |]; try done. injection Hw as ->.
      destruct (waits_above paths s j done' k' e' todo' k Hs Hj) as [Hle Hne].
      { by apply (list_elem_of_fmap_2 fst) in Hk0. }
      destruct Hne. apply (anti_symm String.le); [done|]. by apply (Hmax j _ k' Hj).
    + apply (exec_running s j t Hj); [|done]. intros ->. by apply not_elem_of_nil in Hk0.
  - exists i. unfold exec. rewrite Hi. unfold mutex_lock. rewrite Hen, Hlk. simpl. eauto.
Qed.

(** C32. Locking does not deadlock and leaves nothing behind.  Because every
    goroutine takes its keys in order, at any time some goroutine can go on
    unless all are done; every step is one fewer that is left, so any schedule
    ends; and when all are done no entry is left in the locker. *)
Theorem locker_progress (paths : list (list string)) (s : state) :
  reachable_locker paths s →
  ((∃ j s', exec j s = Some s') ∨ ((∀ i t, threads s !! i = Some t → t = TDone) ∧ locks s = ∅)) ∧
  (∀ j s', exec j s = Some s' → work_left s' < work_left s).
Proof.
  intros Hs%locker_reachable_inv. split; [|intros j s'; apply exec_work].
  destruct (decide (Forall (λ t, t = TDone) (threads s))) as [Hall|Hsome].
  { right. rewrite Forall_lookup in Hall. split; [done|]. apply map_eq. intros k. rewrite lookup_empty.
    destruct (locks s !! k) as [e|] eqn:Hk; [exfalso|done].
    destruct (inv_entry _ _ Hs k e Hk) as (en & Hen & Hp). rewrite (inv_refs _ _ Hs e en Hen) in Hp.
    destruct (sum_list_with_pos (λ t, count e (uses t)) (threads s)) as (i & t & Hi & Hc); [unfold total_of in Hp; lia|].
    rewrite (Hall i t Hi) in Hc. simpl in Hc. rewrite count_nil in Hc. lia. }
  left. apply not_Forall_Exists, Exists_exists in Hsome as (t & (i & Hi)%list_elem_of_lookup & Hd); [|apply _].
  assert (∃ j, is_Some (exec j s)) as (j & s' & Hj); [|eauto].
  destruct (waits_for t) as [k|] eqn:Hw; [|by eauto using exec_running].
  destruct (greatest_waiting (threads s) i t k Hi Hw) as (l & t' & k' & Hl & Hw' & Hmax).
  destruct t' as [|done' key' e' todo'| | |]; try done. injection Hw' as ->.
  by apply (greatest_runs paths s l done' k' e' todo').
Qed.

(** Two renames that take the same locks in opposite orders. *)
Definition two_renames : list (list string) := [["b"; "a"]; ["a"; "b"]].

Lemma two_renames_reach :
  reachable_locker two_renames (default (newPathLocker []) (exec 1 (default (newPathLocker []) (exec 0 (newPathLocker two_renames))))).
Proof.
  eapply reachable_step; [eapply reachable_step; [by apply reachable_init|]|].
  - exists 0. vm_compute. reflexivity.
  - exists 1. vm_compute. reflexivity.
Qed.

Lemma locker_excludes_witness :
  panicked (default (newPathLocker []) (exec 1 (default (newPathLocker []) (exec 0 (newPathLocker two_renames))))) = false.
Proof. exact (proj2 (proj2 (locker_excludes two_renames _ two_renames_reach))). Defined.

Lemma locker_progress_witness :
  let s := default (newPathLocker []) (exec 1 (default (newPathLocker []) (exec 0 (newPathLocker two_renames)))) in
  (∃ j s', exec j s = Some s') ∨ ((∀ i t, threads s !! i = Some t → t = TDone) ∧ locks s = ∅).
Proof. exact (proj1 (locker_progress two_renames _ two_renames_reach)). Defined.
