(* ===== verification/Scan.v ===== *)
(** * The initial scan of the workspace (pkg/syncer/scan.go, workspace.go)

    What directories may be shared, and the list of files the daemon sends
    when it connects.  The walk itself is [filepath.WalkDir] of OsFs over the
    tree the file system shows. *)
From S2P Require Import Prelude GoPath PathFacts Safepath RelPath Proto OsFs Sensitive PathResolution Handle.
From stdpp Require Import options.

(** ** The workspace root *)

Inductive workspace_error : Type :=
  | ErrWorkspaceRootRequired
  | ErrWorkspaceRootNotAbs
  | ErrWorkspaceRootNotDir (root : string)
  | ErrWorkspaceNameUnsafe (name : string)
  | ErrWorkspaceRootUnscoped (root : string)
  | ErrGetwd (err : os_error).

(** [guardWorkspaceRoot], given what [os.UserHomeDir] returns *)
Definition guardWorkspaceRoot (home : result os_error string) (root : string) : option workspace_error :=
  let cleaned := path_clean root in
  if decide (cleaned = "/") then Some (ErrWorkspaceRootUnscoped root)
  else match home with
       | Ok home => if decide (path_clean home = cleaned) then Some (ErrWorkspaceRootUnscoped root) else None
       | Err _ => None
       end.

Section workspace.
Context `{FileSystem}.

Definition ValidateWorkspaceRoot (root : string) : M (result workspace_error string) :=
  if decide (root = "") then mret (Err ErrWorkspaceRootRequired)
  else if negb (is_abs root) then mret (Err ErrWorkspaceRootNotAbs)
  else
    info ← call (SStat root);
    if match info with Ok i => negb (i_is_dir i) | Err _ => true end
    then mret (Err (ErrWorkspaceRootNotDir root))
    else
      match CleanSegment (path_base (path_clean root)) with
      | Ok name => mret (Ok name)
      | Err _ => mret (Err (ErrWorkspaceNameUnsafe (path_base (path_clean root))))
      end.

(** [ResolveWorkspaceRoot], given what [os.Getwd] and [os.UserHomeDir] return *)
Definition ResolveWorkspaceRoot (cwd home : result os_error string) : M (result workspace_error string) :=
  match cwd with
  | Err err => mret (Err (ErrGetwd err))
  | Ok cwd =>
    match guardWorkspaceRoot home cwd with
    | Some err => mret (Err err)
    | None =>
      name ← ValidateWorkspaceRoot cwd;
      match name with Err err => mret (Err err) | Ok _ => mret (Ok cwd) end
    end
  end.
End workspace.

(** ** The scan *)

Record ScanOptions : Type := mk_ScanOptions {
  s_root : string;
  s_excludes : list string;
  s_filter : option SensitiveFilter;
}.

Inductive scan_error : Type :=
  | ErrRootNotAbsolute
  | ErrRootNotDirectory
  | ErrStatRoot (err : os_error)
  | ErrWalk (err : os_error).

Section scan.
Context `{FileSystem} `{Doublestar}.

Definition matchExclude (rel : string) (patterns : list string) : bool :=
  let base := path_base rel in
  existsb (λ pattern,
    let target := if negb (contains "/" pattern) then base else rel in
    match DoublestarMatch pattern target with Ok true => true | _ => false end) patterns.

Definition dirEntryToFileInfo (rel : string) (info : OsInfo) : FileInfo :=
  mk_FileInfo rel (i_size info) (i_mtime info) (i_is_dir info) (i_perm info).

Definition scanRelativePath (root p : string) : option string :=
  match filepath_rel root p with Err _ => None | Ok rel => Some (ToSlash rel) end.

Definition scanEntry (root p : string) (d : dtree) (walkErr : option os_error) (excludes : list string)
    (filter : option SensitiveFilter) : option FileInfo * bool :=
  if match walkErr with Some _ => true | None => false end || bool_decide (p = root) then (None, false)
  else
    match scanRelativePath root p with
    | None => (None, false)
    | Some rel =>
      if Match filter rel then (None, d_is_dir d)
      else if matchExclude rel excludes then (None, d_is_dir d)
      else match d_info d with
           | Err _ => (None, false)
           | Ok info => (Some (dirEntryToFileInfo rel info), false)
           end
    end.

Definition scanWalkFn (opts : ScanOptions) (out : list FileInfo) (p : string) (d : dtree)
    (walkErr : option os_error) : list FileInfo * walked os_error :=
  let '(entry, skipDir) := scanEntry (s_root opts) p d walkErr (s_excludes opts) (s_filter opts) in
  if skipDir : bool then (out, WSkipDir)
  else match entry with Some e => (out ++ [e], WOk) | None => (out, WOk) end.

Definition validateScanRoot (root : string) : M (option scan_error) :=
  if negb (is_abs root) then mret (Some ErrRootNotAbsolute)
  else
    info ← call (SStat root);
    match info with
    | Err err => mret (Some (ErrStatRoot err))
    | Ok info => if negb (i_is_dir info) then mret (Some ErrRootNotDirectory) else mret None
    end.

(** When the root itself cannot be examined the callback is called with the
    error, and lets it pass. *)
Definition Scan (opts : ScanOptions) : M (result scan_error (list FileInfo)) :=
  err ← validateScanRoot (s_root opts);
  match err with
  | Some err => mret (Err err)
  | None =>
    d ← call (SWalkDir (s_root opts));
    match d with
    | Err _ => mret (Ok [])
    | Ok d =>
      match WalkDir (scanWalkFn opts) (s_root opts) d [] with
      | (_, WErr err) => mret (Err (ErrWalk err))
      | (out, _) => mret (Ok out)
      end
    end
  end.

(** ** What a scan lists *)

(** An entry that is not shown, and if it is a directory not entered. *)
Definition hidden (opts : ScanOptions) (rel : string) : bool :=
  Match (s_filter opts) rel || matchExclude rel (s_excludes opts).

(** The slash form of the names that lead to an entry. *)
Definition slash_path (names : list string) : string := ToSlash (join_slash names).

Fixpoint shown (opts : ScanOptions) (names : list string) (d : dtree) : list FileInfo :=
  match d with
  | DNode _ is_dir info entries _ =>
    let rel := slash_path names in
    if hidden opts rel then []
    else
      match info with Ok i => [dirEntryToFileInfo rel i] | Err _ => [] end ++
      (if is_dir then concat (map (λ d1, shown opts (names ++ [dname d1]) d1) entries) else [])
  end.

Definition shown_entries (opts : ScanOptions) (names : list string) (ds : list dtree) : list FileInfo :=
  concat (map (λ d1, shown opts (names ++ [dname d1]) d1) ds).

(** The names [ReadDir] returns are single elements. *)
Inductive proper_tree : dtree → Prop :=
  | proper_node n b i es r :
      (∀ d, d ∈ es → good_seg (dname d)) → (∀ d, d ∈ es → proper_tree d) → proper_tree (DNode n b i es r).
End scan.

(** ** Paths of a walk *)

(** The walk is at the entry the names lead to. *)
Definition walk_at (root path : string) (names : list string) : Prop :=
  is_abs path = true ∧ path_clean path = path ∧ abs_elems path = abs_elems root ++ names ∧ Forall good_seg names.

Lemma walk_at_rel root path names :
  is_abs root = true → walk_at root path names → names ≠ [] →
  path ≠ root ∧ filepath_rel root path = Ok (join_slash names).
Proof.
  intros Hr (Hp & Hc & He & Hg) Hne.
  assert (Hneq : abs_elems path ≠ abs_elems root).
  { rewrite He. intros E. rewrite <-(app_nil_r (abs_elems root)) in E at 2. by apply app_inv_head in E. }
  split; [by intros ->|].
  rewrite (filepath_rel_abs root path [] names) by (rewrite ?He, ?strip_common_app; done).
  by rewrite decide_False.
Qed.

Lemma walk_at_child root path names name :
  is_abs root = true → (path = root ∧ names = [] ∨ walk_at root path names) → good_seg name →
  walk_at root (filepath_join [path; name]) (names ++ [name]).
Proof.
  intros Hr Hw Hn.
  assert (Hp : is_abs path = true ∧ abs_elems path = abs_elems root ++ names ∧ Forall good_seg names).
  { destruct Hw as [[-> ->]|(?&?&?&?)]; [by rewrite app_nil_r|done]. }
  destruct Hp as (Hp & He & Hg).
  destruct (filepath_join_elems path [name] Hp) as (Ha & Hel & Hc); [by constructor|].
  change (join_slash [name]) with name in *. rewrite He, <-app_assoc in Hel.
  split_and!; [done..|]. apply Forall_app. split; [done|by constructor].
Qed.

(** ** The walk computes the listing *)

Section walk.
Context `{FileSystem} `{Doublestar}.
Context (opts : ScanOptions) (Hroot : is_abs (s_root opts) = true).

Lemma scanWalkFn_spec out path names d :
  walk_at (s_root opts) path names → names ≠ [] →
  scanWalkFn opts out path d None =
    if hidden opts (slash_path names) then (out, if d_is_dir d then WSkipDir else WOk)
    else (out ++ match d_info d with Ok i => [dirEntryToFileInfo (slash_path names) i] | Err _ => [] end, WOk).
Proof using Hroot.
  intros Hw Hne. destruct (walk_at_rel _ _ _ Hroot Hw Hne) as [Hpr Hrel].
  unfold scanWalkFn, scanEntry, scanRelativePath. simpl. rewrite bool_decide_eq_false_2 by done.
  rewrite Hrel. unfold hidden, slash_path.
  destruct (Match _ _); simpl; [by destruct (d_is_dir d)|].
  destruct (matchExclude _ _); simpl; [by destruct (d_is_dir d)|].
  destruct (d_info d); [done|by rewrite app_nil_r].
Qed.

Lemma scanWalkFn_err out path d err : scanWalkFn opts out path d (Some err) = (out, WOk).
Proof. done. Qed.

(** The walk below a directory, once the walk of each entry is known. *)
Lemma walkEntries_spec path names ds out :
  (path = s_root opts ∧ names = [] ∨ walk_at (s_root opts) path names) →
  (∀ d, d ∈ ds → good_seg (dname d) ∧
     ∀ path names out, walk_at (s_root opts) path names → names ≠ [] →
       ∃ r, walkDir (scanWalkFn opts) path d out = (out ++ shown opts names d, r) ∧ r = WOk) →
  walkEntries (scanWalkFn opts) path ds out = (out ++ shown_entries opts names ds, WOk).
Proof using Hroot.
  intros Hw. revert out. induction ds as [|d ds IH]; intros out Hds; [by rewrite app_nil_r|].
  cbn [walkEntries]. destruct (Hds d) as [Hn Hd]; [by left|].
  destruct (Hd (filepath_join [path; dname d]) (names ++ [dname d]) out) as (r & -> & ->);
    [by apply walk_at_child|by destruct names|].
  rewrite IH by (intros d' Hd'; apply Hds; by right).
  unfold shown_entries. simpl. by rewrite app_assoc.
Qed.

Lemma walkDir_shown d :
  proper_tree d → ∀ path names out, walk_at (s_root opts) path names → names ≠ [] →
  ∃ r, walkDir (scanWalkFn opts) path d out = (out ++ shown opts names d, r) ∧ r = WOk.
Proof using Hroot.
  induction 1 as [n b i es re Hes Hpt IH]. intros path names out Hw Hne.
  rewrite walkDir_eq, (scanWalkFn_spec out path names) by done. cbn [shown d_is_dir d_info].
  destruct (hidden opts (slash_path names)).
  { exists WOk. rewrite app_nil_r. by destruct b. }
  exists WOk. split; [|done]. destruct b; cbn [negb].
  - assert (Hsub : ∀ out, walkEntries (scanWalkFn opts) path es out = (out ++ shown_entries opts names es, WOk)).
    { intros out'. apply walkEntries_spec; [by right|]. intros d Hd. split; [by apply Hes|by apply IH]. }
    destruct re as [err|]; [rewrite scanWalkFn_err|]; rewrite Hsub; by rewrite <-app_assoc.
  - by rewrite app_nil_r.
Qed.

Lemma WalkDir_shown d :
  proper_tree d →
  WalkDir (scanWalkFn opts) (s_root opts) d [] =
    (if d_is_dir d then shown_entries opts [] (dentries d) else [], WOk).
Proof using Hroot.
  intros Hd. destruct Hd as [n b i es re Hes Hpt]. unfold WalkDir. rewrite walkDir_eq.
  unfold scanWalkFn at 1, scanEntry. simpl. rewrite bool_decide_eq_true_2 by done.
  destruct b; [|done]. cbn [negb].
  rewrite walkEntries_spec with (names := []); [|by left|].
  - by destruct re.
  - intros d Hd. split; [by apply Hes|]. by apply walkDir_shown, Hpt.
Qed.
End walk.

(** ** Properties *)

(** The names lead, through directories, from these entries to [d]. *)
Inductive at_path : list dtree → list string → dtree → Prop :=
  | at_here ds d : d ∈ ds → at_path ds [dname d] d
  | at_below ds d names d' :
      d ∈ ds → d_is_dir d = true → at_path (dentries d) names d' → at_path ds (dname d :: names) d'.

Lemma at_path_one ds names d' : at_path ds names d' ↔ ∃ d, d ∈ ds ∧ at_path [d] names d'.
Proof.
  split.
  - destruct 1 as [ds d Hd|ds d names d' Hd Hb Hp]; exists d; (split; [done|]).
    + apply (at_here [d]). by left.
    + by apply (at_below [d] d); [left| |].
  - intros (d & Hd & Hp).
    inversion Hp as [? ? Hin|? d0 ? ? Hin Hb Hp']; simplify_eq; apply list_elem_of_singleton in Hin; subst.
    + by apply at_here.
    + by apply (at_below _ d).
Qed.

Section properties.
Context `{FileSystem} `{Doublestar}.

(** No directory on the way, nor the entry itself, is hidden. *)
Definition not_hidden (opts : ScanOptions) (pre names : list string) : Prop :=
  ∀ k, k ≠ [] → k `prefix_of` names → hidden opts (slash_path (pre ++ k)) = false.

Lemma not_hidden_cons opts pre x names :
  not_hidden opts pre (x :: names) ↔ hidden opts (slash_path (pre ++ [x])) = false ∧ not_hidden opts (pre ++ [x]) names.
Proof.
  unfold not_hidden. split.
  - intros Hh. split; [apply Hh; [done|by exists names]|]. intros k Hk Hp. rewrite <-app_assoc.
    apply Hh; [done|]. by apply prefix_cons.
  - intros [Hx Hh] k Hk Hp. destruct k as [|y k]; [done|]. pose proof (prefix_cons_inv_1 _ _ _ _ Hp) as ->.
    apply prefix_cons_inv_2 in Hp. destruct k as [|z k]; [done|].
    specialize (Hh (z :: k) ltac:(done) Hp). by rewrite <-app_assoc in Hh.
Qed.

Lemma elem_of_shown opts d pre i :
  i ∈ shown opts (pre ++ [dname d]) d ↔
  ∃ names d' fi, at_path [d] names d' ∧ d_info d' = Ok fi ∧
    i = dirEntryToFileInfo (slash_path (pre ++ names)) fi ∧ not_hidden opts pre names.
Proof.
  revert pre. induction d as [n b info es re IH] using dtree_nested_ind. intros pre. cbn [shown dname].
  assert (Hnil : not_hidden opts (pre ++ [n]) []) by (intros [|? ?] ? ?%prefix_nil_inv; done).
  destruct (hidden opts (slash_path (pre ++ [n]))) eqn:Hh.
  { split; [by intros ?%not_elem_of_nil|]. intros (names & d' & fi & Hp & _ & _ & Hn). exfalso.
    inversion Hp as [? ? Hd|? d ? ? Hd]; simplify_eq; apply list_elem_of_singleton in Hd; subst;
      apply not_hidden_cons in Hn as [Hn _]; simpl in Hn; congruence. }
  rewrite elem_of_app. split.
  - intros [Hi|Hi].
    + destruct info as [fi|]; [|by apply not_elem_of_nil in Hi]. apply list_elem_of_singleton in Hi as ->.
      exists [n], (DNode n b (Ok fi) es re), fi. split_and!; [|done..|by apply not_hidden_cons].
      exact (at_here [DNode n b (Ok fi) es re] _ ltac:(by left)).
    + destruct b; [|by apply not_elem_of_nil in Hi].
      apply list_elem_of_In, in_concat in Hi as (l & Hl & Hi). apply in_map_iff in Hl as (d & <- & Hd).
      apply list_elem_of_In in Hd, Hi. apply (IH d Hd) in Hi as (names & d' & fi & Hp & Hfi & -> & Hn).
      exists (n :: names), d', fi. split_and!; [|done|by rewrite <-app_assoc|by apply not_hidden_cons].
      refine (at_below _ (DNode n true info es re) _ _ _ _ _); [by left|done|].
      apply at_path_one. eauto.
  - intros (names & d' & fi & Hp & Hfi & -> & Hn).
    inversion Hp as [? ? Hin|? d0 names' ? Hin Hb Hp']; simplify_eq; apply list_elem_of_singleton in Hin; subst; simpl in *.
    + left. rewrite Hfi. by apply list_elem_of_singleton.
    + right. rewrite Hb. apply not_hidden_cons in Hn as [_ Hn].
      apply at_path_one in Hp' as (d1 & Hd1 & Hp1). apply list_elem_of_In, in_concat.
      exists (shown opts ((pre ++ [n]) ++ [dname d1]) d1). split.
      * apply in_map_iff. exists d1. by rewrite <-list_elem_of_In.
      * apply list_elem_of_In, IH; [done|]. exists names', d', fi. by rewrite <-app_assoc.
Qed.

Lemma elem_of_shown_entries opts ds i :
  i ∈ shown_entries opts [] ds ↔
  ∃ names d' fi, at_path ds names d' ∧ d_info d' = Ok fi ∧
    i = dirEntryToFileInfo (slash_path names) fi ∧ not_hidden opts [] names.
Proof.
  unfold shown_entries. rewrite list_elem_of_In, in_concat. split.
  - intros (l & Hl & Hi). apply in_map_iff in Hl as (d & <- & Hd). apply list_elem_of_In in Hd, Hi.
    apply (elem_of_shown opts d []) in Hi as (names & d' & fi & Hp & Hi). exists names, d', fi. split; [|done].
    apply at_path_one. eauto.
  - intros (names & d' & fi & Hp & Hi).
    apply at_path_one in Hp as (d1 & Hd1 & Hp1). exists (shown opts ([] ++ [dname d1]) d1). split.
    + apply in_map_iff. exists d1. by rewrite <-list_elem_of_In.
    + apply list_elem_of_In, elem_of_shown. eauto 10.
Qed.
End properties.

Section scan_properties.
Context `{FileSystem} {Hquiet : Quiet} `{Doublestar}.

(** The scan is complete and discreet.  While nothing else changes the
    files, a scan of a directory succeeds, and lists exactly the entries below
    the root whose attributes can be read and that neither are sensitive or
    excluded nor lie in a directory that is: each with its slash path from the
    root. *)
Theorem Scan_lists (w : World) (opts : ScanOptions) (d : dtree) :
  look w (SWalkDir (s_root opts)) = Ok d → proper_tree d →
  asks w (Scan opts) (λ r,
    match r with
    | Ok files =>
        is_abs (s_root opts) = true ∧
        (∃ info, look w (SStat (s_root opts)) = Ok info ∧ i_is_dir info = true) ∧
        (d_is_dir d = false → files = []) ∧
        (d_is_dir d = true → ∀ i, i ∈ files ↔
           ∃ names d' fi, at_path (dentries d) names d' ∧ d_info d' = Ok fi ∧
             i = dirEntryToFileInfo (slash_path names) fi ∧ not_hidden opts [] names)
    | Err ErrRootNotAbsolute => is_abs (s_root opts) = false
    | Err ErrRootNotDirectory => ∃ info, look w (SStat (s_root opts)) = Ok info ∧ i_is_dir info = false
    | Err (ErrStatRoot err) => look w (SStat (s_root opts)) = Err err
    | Err (ErrWalk _) => False
    end).
Proof using Hquiet.
  intros Hd Hproper. unfold Scan.
  eapply (asks_bind _ _ _ (λ r,
    match r with
    | None => is_abs (s_root opts) = true ∧ ∃ info, look w (SStat (s_root opts)) = Ok info ∧ i_is_dir info = true
    | Some ErrRootNotAbsolute => is_abs (s_root opts) = false
    | Some ErrRootNotDirectory => ∃ info, look w (SStat (s_root opts)) = Ok info ∧ i_is_dir info = false
    | Some (ErrStatRoot err) => look w (SStat (s_root opts)) = Err err
    | Some (ErrWalk _) => False
    end)).
  - unfold validateScanRoot. destruct (is_abs (s_root opts)); cbn [negb]; [|by apply asks_ret].
    eapply asks_bind; [by apply (asks_call w (SStat (s_root opts)))|]. intros [info|err] E; [|by apply asks_ret].
    destruct (i_is_dir info) eqn:Hi; apply asks_ret; simpl; eauto.
  - intros [err|] Hr; [by apply asks_ret|]. destruct Hr as [Habs Hinfo].
    eapply asks_bind; [by apply (asks_call w (SWalkDir (s_root opts)))|]. intros r ->. rewrite Hd.
    rewrite WalkDir_shown by done. apply asks_ret. split_and!; [done..| |].
    + by intros ->.
    + intros -> i. apply elem_of_shown_entries.
Qed.

(** What may be shared.  Only the start directory itself is ever taken as the
    workspace root; it is an existing directory with an absolute path, is
    neither the root of the file system nor the home directory, and its last
    name is a safe segment, which names the workspace on the server. *)
Theorem ResolveWorkspaceRoot_guards (w : World) (cwd home : result os_error string) (r : string) :
  asks w (ResolveWorkspaceRoot cwd home) (λ res, res = Ok r →
    cwd = Ok r ∧ is_abs r = true ∧ abs_elems r ≠ [] ∧
    (∀ h, home = Ok h → path_clean h ≠ path_clean r) ∧
    (∃ info, look w (SStat r) = Ok info ∧ i_is_dir info = true) ∧
    ∃ name, CleanSegment (path_base (path_clean r)) = Ok name ∧
      asks w (ValidateWorkspaceRoot r) (λ res, res = Ok name)).
Proof using Hquiet.
  unfold ResolveWorkspaceRoot. destruct cwd as [cwd|err]; [|by apply asks_ret].
  destruct (guardWorkspaceRoot home cwd) as [err|] eqn:Hg; [by apply asks_ret|].
  unfold guardWorkspaceRoot in Hg. destruct (decide (path_clean cwd = "/")) as [|Hroot]; [done|].
  assert (Hv : asks w (ValidateWorkspaceRoot cwd) (λ res, match res with
    | Ok name => is_abs cwd = true ∧ (∃ info, look w (SStat cwd) = Ok info ∧ i_is_dir info = true) ∧
        CleanSegment (path_base (path_clean cwd)) = Ok name
    | Err _ => True end)).
  { unfold ValidateWorkspaceRoot. case_decide; [by apply asks_ret|].
    destruct (is_abs cwd) eqn:Ha; [|by apply asks_ret]. cbn [negb].
    eapply asks_bind; [by apply (asks_call w (SStat cwd))|]. intros [info|err] E; [|by apply asks_ret].
    destruct (i_is_dir info) eqn:Hi; [|by apply asks_ret]. cbn [negb].
    destruct (CleanSegment _) eqn:Hs; apply asks_ret; eauto 10. }
  eapply asks_bind; [exact (asks_and _ _ _ _ Hv Hv)|]. intros [name|err] [Hn _]; [|by apply asks_ret].
  apply asks_ret. intros [= <-]. destruct Hn as (Ha & Hinfo & Hs). split_and!; [done..| | |done|].
  - intros He. apply Hroot. by rewrite path_clean_abs, He.
  - intros h ->. by destruct (decide (path_clean h = path_clean cwd)).
  - exists name. split; [done|]. unfold ValidateWorkspaceRoot.
    rewrite decide_False by (by intros ->). rewrite Ha. cbn [negb]. destruct Hinfo as (info & E & Hi).
    eapply asks_bind; [by apply (asks_call w (SStat cwd))|]. intros res ->. rewrite E, Hi, Hs. by apply asks_ret.
Qed.
End scan_properties.

Module ScanExample.
Definition files : Toy.world :=
  [("/w", Toy.TDir); ("/w/a.go", Toy.TFile [x61]); ("/w/.env", Toy.TFile [x73]); ("/w/x.log", Toy.TFile [])].
Definition opts : ScanOptions := mk_ScanOptions "/w" ["*.log"] ToyGlob.filter.
Definition tree : dtree :=
  match look (H := Toy.fs) files (SWalkDir "/w") with Ok d => d | Err _ => DNode "" false (Err Toy.enoent) [] None end.

Example scanned : map FPath (match snd (Scan (H := Toy.fs) opts (Toy.start files)) with Ok l => l | _ => [] end) = ["a.go"].
Proof. vm_compute. reflexivity. Qed.
Lemma tree_proper : proper_tree tree.
Proof.
  let t := eval vm_compute in tree in change (proper_tree t).
  constructor; intros d Hd; repeat (apply elem_of_cons in Hd as [->|Hd]); try by apply not_elem_of_nil in Hd.
  all: try (constructor; intros ? ?%not_elem_of_nil; done).
  all: apply (bool_decide_unpack _); vm_compute; exact I.
Qed.
End ScanExample.

Lemma Scan_lists_witness :
  proper_tree ScanExample.tree ∧
  asks (H := Toy.fs) ScanExample.files (Scan ScanExample.opts) (λ r, r ≠ Err (ErrWalk Toy.enoent)).
Proof.
  pose proof ScanExample.tree_proper as Hp.
  split; [exact Hp|].
  eapply asks_conseq; [apply (Scan_lists (H := Toy.fs) ScanExample.files ScanExample.opts ScanExample.tree);
    [vm_compute; reflexivity|exact Hp]|].
  by intros [l|[]] Hr.
Defined.

Lemma ResolveWorkspaceRoot_guards_witness :
  asks (H := Toy.fs) ScanExample.files (ResolveWorkspaceRoot (Ok "/w") (Ok "/home/u")) (λ res, res = Ok "/w" → is_abs "/w" = true).
Proof.
  eapply asks_conseq; [apply (ResolveWorkspaceRoot_guards (H := Toy.fs) ScanExample.files (Ok "/w") (Ok "/home/u") "/w")|].
  intros res Hr E. exact (proj1 (proj2 (Hr E))).
Defined.
