(* ===== verification/Watch.v ===== *)
(** * File events (pkg/syncer/watch.go)

    The daemon watches the directories it shows and sends a change for each
    event it does not suppress.  Package fsnotify delivers the events; adding a
    directory to its watcher is a call whose answer is a parameter. *)
From S2P Require Import Prelude GoPath PathFacts Safepath RelPath Proto OsFs Sensitive PathResolution Handle SelfWrite Scan.
From stdpp Require Import options.

(** The bits of [fsnotify.Op] the code tests. *)
Record Op : Type := mk_Op { has_create : bool; has_write : bool; has_remove : bool; has_rename : bool }.

Record Event : Type := mk_Event { ev_name : string; ev_op : Op }.

(** [Root], [Excludes] and [SensitiveFilter] of [WatchOptions]; its other fields
    are the loop's arguments. *)
Abbreviation WatchOptions := ScanOptions (only parsing).

(** [watcher.Add], given the directories added before. *)
Class Watcher := watcher_add : list string → string → option os_error.

Inductive watch_error : Type :=
  | ErrNilEvents
  | ErrWatchRootNotAbsolute
  | ErrInitialAdd (err : os_error).

Definition toChangeType (op : Op) : ChangeType :=
  if has_create op then CHANGE_TYPE_CREATE
  else if has_write op then CHANGE_TYPE_MODIFY
  else if has_remove op then CHANGE_TYPE_DELETE
  else if has_rename op then CHANGE_TYPE_DELETE
  else CHANGE_TYPE_UNSPECIFIED.

Definition watchRelativePath (root name : string) : option string :=
  match filepath_rel root name with
  | Err _ => None
  | Ok rel =>
    let rel := ToSlash rel in
    if bool_decide (rel = "") || bool_decide (rel = ".") then None else Some rel
  end.

Section watch.
Context `{FileSystem} `{Doublestar} `{Watcher}.

Definition shouldSkipWatchedDir (root path : string) (excludes : list string)
    (filter : option SensitiveFilter) : bool :=
  if decide (path = root) then false
  else
    match filepath_rel root path with
    | Err _ => false
    | Ok rel =>
      let rel := ToSlash rel in
      if Match filter rel then true else matchExclude rel excludes
    end.

(** The callback of [addTreeRecursively]; the state is what has been added. *)
Definition add_fn (opts : WatchOptions) (added : list string) (path : string) (d : dtree)
    (walkErr : option os_error) : list string * walked os_error :=
  match walkErr with
  | Some _ => (added, WOk)
  | None =>
    if negb (d_is_dir d) then (added, WOk)
    else if shouldSkipWatchedDir (s_root opts) path (s_excludes opts) (s_filter opts) then (added, WSkipDir)
    else match watcher_add added path with
         | Some err => (added, WErr err)
         | None => (added ++ [path], WOk)
         end
  end.

Definition addTreeRecursively (opts : WatchOptions) : M (list string * option os_error) :=
  d ← call (SWalkDir (s_root opts));
  match d with
  | Err _ => mret ([], None)
  | Ok d =>
    match WalkDir (add_fn opts) (s_root opts) d [] with
    | (added, WErr err) => mret (added, Some err)
    | (added, _) => mret (added, None)
    end
  end.

Definition lookupChangedInfo (root rel : string) (changeType : ChangeType) : M FileInfo :=
  let bare := mk_FileInfo rel 0 0 false 0 in
  if decide (changeType = CHANGE_TYPE_DELETE) then mret bare
  else
    match Join root rel with
    | Err _ => mret bare
    | Ok abs =>
      fi ← call (SLstat abs);
      match fi with
      | Err _ => mret bare
      | Ok fi => mret (mk_FileInfo rel (i_size fi) (i_mtime fi) (i_is_dir fi) (i_perm fi))
      end
    end.

(** The change, whether its directory is to be watched, and the filter, at time [now]. *)
Definition watchChangeFromEvent (opts : WatchOptions) (now : Z) (sw : option selfWriteFilter) (ev : Event)
    : M (option (FileChange * bool) * option selfWriteFilter) :=
  match watchRelativePath (s_root opts) (ev_name ev) with
  | None => mret (None, sw)
  | Some rel =>
    if matchExclude rel (s_excludes opts) then mret (None, sw)
    else if Match (s_filter opts) rel then mret (None, sw)
    else
      let '(sw, suppress) := ShouldSuppress now rel sw in
      if suppress : bool then mret (None, sw)
      else
        let changeType := toChangeType (ev_op ev) in
        if decide (changeType = CHANGE_TYPE_UNSPECIFIED) then mret (None, sw)
        else
          info ← lookupChangedInfo (s_root opts) rel changeType;
          let change := mk_FileChange changeType (Some info) "" in
          mret (Some (change, bool_decide (changeType = CHANGE_TYPE_CREATE) && FIsDir info), sw)
  end.

(** The state of the loop: the directories watched, the filter of own writes,
    and the changes sent. *)
Record watch_state : Type := mk_watch_state {
  w_added : list string;
  w_self : option selfWriteFilter;
  w_sent : list FileChange;
}.

(** [delivered] says whether the change is taken before the context ends. *)
Definition handleWatchEvent (opts : WatchOptions) (now : Z) (delivered : bool) (ev : Event) (st : watch_state)
    : M watch_state :=
  r ← watchChangeFromEvent opts now (w_self st) ev;
  let '(res, sw) := r in
  match res with
  | None => mret (mk_watch_state (w_added st) sw (w_sent st))
  | Some (change, watchDir) =>
    let added :=
      if watchDir : bool then
        match watcher_add (w_added st) (ev_name ev) with
        | None => w_added st ++ [ev_name ev]
        | Some _ => w_added st        (* logged *)
        end
      else w_added st in
    mret (mk_watch_state added sw (if delivered : bool then w_sent st ++ [change] else w_sent st))
  end.

(** What the loop's [select] receives. *)
Inductive signal : Type :=
  | SDone                            (* the context ended *)
  | SError                           (* an error of the watcher, logged *)
  | SClosed                          (* one of the watcher's channels closed *)
  | SEvent (now : Z) (delivered : bool) (ev : Event).

(** [true]: the loop has returned *)
Fixpoint runWatchLoop (opts : WatchOptions) (signals : list signal) (st : watch_state) : M (watch_state * bool) :=
  match signals with
  | [] => mret (st, false)
  | SDone :: _ | SClosed :: _ => mret (st, true)
  | SError :: rest => runWatchLoop opts rest st
  | SEvent now delivered ev :: rest =>
    st ← handleWatchEvent opts now delivered ev st;
    runWatchLoop opts rest st
  end.

(** [Watch] with a non-nil [Events] channel; the watcher is made without error. *)
Definition Watch (opts : WatchOptions) (sw : option selfWriteFilter) (signals : list signal)
    : M (result watch_error watch_state) :=
  if negb (is_abs (s_root opts)) then mret (Err ErrWatchRootNotAbsolute)
  else
    a ← addTreeRecursively opts;
    match a with
    | (_, Some err) => mret (Err (ErrInitialAdd err))
    | (added, None) =>
      r ← runWatchLoop opts signals (mk_watch_state added sw []);
      mret (Ok (fst r))
    end.
End watch.

(** ** What is watched *)

Section watched.
Context `{FileSystem} `{Doublestar}.

(** The directories a scan enters, below a directory at [path]. *)
Fixpoint entered (opts : ScanOptions) (path : string) (names : list string) (d : dtree) : list string :=
  match d with
  | DNode _ is_dir _ entries _ =>
    if negb is_dir || hidden opts (slash_path names) then []
    else path :: concat (map (λ d1, entered opts (filepath_join [path; dname d1]) (names ++ [dname d1]) d1) entries)
  end.

Definition entered_entries (opts : ScanOptions) (path : string) (names : list string) (ds : list dtree) : list string :=
  concat (map (λ d1, entered opts (filepath_join [path; dname d1]) (names ++ [dname d1]) d1) ds).
End watched.

Section walk.
Context `{FileSystem} `{Doublestar} `{Watcher}.
Context (opts : ScanOptions) (Hroot : is_abs (s_root opts) = true).
Context (Hadd : ∀ added path, watcher_add added path = None).

Lemma add_fn_spec added path names d :
  walk_at (s_root opts) path names → names ≠ [] →
  add_fn opts added path d None =
    if negb (d_is_dir d) then (added, WOk)
    else if hidden opts (slash_path names) then (added, WSkipDir)
    else (added ++ [path], WOk).
Proof using Hroot Hadd.
  intros Hw Hne. destruct (walk_at_rel _ _ _ Hroot Hw Hne) as [Hpr Hrel].
  unfold add_fn, shouldSkipWatchedDir. destruct (negb (d_is_dir d)); [done|].
  rewrite decide_False by done. rewrite Hrel. unfold hidden, slash_path.
  destruct (Match _ _); [done|]. destruct (matchExclude _ _); [done|]. simpl. by rewrite Hadd.
Qed.

Lemma walkEntries_add path names ds added :
  (path = s_root opts ∧ names = [] ∨ walk_at (s_root opts) path names) →
  (∀ d, d ∈ ds → good_seg (dname d) ∧
     ∀ path names added, walk_at (s_root opts) path names → names ≠ [] →
       walkDir (add_fn opts) path d added = (added ++ entered opts path names d, WOk)) →
  walkEntries (add_fn opts) path ds added = (added ++ entered_entries opts path names ds, WOk).
Proof using Hroot.
  intros Hw. revert added. induction ds as [|d ds IH]; intros added Hds; [by rewrite app_nil_r|].
  cbn [walkEntries]. destruct (Hds d) as [Hn Hd]; [by left|].
  rewrite (Hd (filepath_join [path; dname d]) (names ++ [dname d]) added);
    [|by apply walk_at_child|by destruct names].
  rewrite IH by (intros d' Hd'; apply Hds; by right).
  unfold entered_entries. simpl. by rewrite app_assoc.
Qed.

Lemma walkDir_entered d :
  proper_tree d → ∀ path names added, walk_at (s_root opts) path names → names ≠ [] →
  walkDir (add_fn opts) path d added = (added ++ entered opts path names d, WOk).
Proof using Hroot Hadd.
  induction 1 as [n b i es re Hes Hpt IH]. intros path names added Hw Hne.
  rewrite walkDir_eq, (add_fn_spec added path names) by done. cbn [entered d_is_dir].
  destruct b; cbn [negb orb]; [|by rewrite app_nil_r].
  destruct (hidden opts (slash_path names)); [by rewrite app_nil_r|].
  assert (Hsub : ∀ added, walkEntries (add_fn opts) path es added = (added ++ entered_entries opts path names es, WOk)).
  { intros a. apply walkEntries_add; [by right|]. intros d Hd. split; [by apply Hes|by apply IH]. }
  destruct re as [err|]; cbn [add_fn]; rewrite Hsub; by rewrite <-app_assoc.
Qed.
End walk.

(** The absolute path of an entry below the root. *)
Definition entry_path (root : string) (names : list string) : string := abs_path (abs_elems root ++ names).

Lemma walk_at_path root path names : walk_at root path names → path = entry_path root names.
Proof. intros (Ha & Hc & He & _). unfold entry_path, abs_path. by rewrite <-He, <-path_clean_abs. Qed.

Section watched_elems.
Context `{FileSystem} `{Doublestar}.
Context (opts : ScanOptions) (Hroot : is_abs (s_root opts) = true).

Lemma elem_of_entered d :
  proper_tree d → good_seg (dname d) → ∀ path pre p,
  (path = s_root opts ∧ pre = [] ∨ walk_at (s_root opts) path pre) →
  p ∈ entered opts (filepath_join [path; dname d]) (pre ++ [dname d]) d ↔
  ∃ names d', at_path [d] names d' ∧ d_is_dir d' = true ∧ not_hidden opts pre names ∧
    p = entry_path (s_root opts) (pre ++ names).
Proof using Hroot.
  induction 1 as [n b info es re Hes Hpt IH]. intros Hn path pre p Hw. cbn [entered dname] in *.
  pose proof (walk_at_child _ _ _ n Hroot Hw Hn) as Hw'.
  assert (Hnil : not_hidden opts (pre ++ [n]) []) by (intros [|? ?] ? ?%prefix_nil_inv; done).
  destruct b; cbn [negb orb].
  2: { split; [by intros ?%not_elem_of_nil|]. intros (names & d' & Hp & Hd & _). exfalso.
    inversion Hp as [? ? Hin|? d0 ? ? Hin Hb]; simplify_eq; apply list_elem_of_singleton in Hin; by subst. }
  destruct (hidden opts (slash_path (pre ++ [n]))) eqn:Hh.
  { split; [by intros ?%not_elem_of_nil|]. intros (names & d' & Hp & _ & Hnh & _). exfalso.
    inversion Hp as [? ? Hd|? d ? ? Hd]; simplify_eq; apply list_elem_of_singleton in Hd; subst;
      apply not_hidden_cons in Hnh as [Hnh _]; simpl in Hnh; congruence. }
  rewrite elem_of_cons. split.
  - intros [->|Hp].
    + exists [n], (DNode n true info es re). split_and!; [|done|by apply not_hidden_cons|by apply walk_at_path].
      exact (at_here [DNode n true info es re] _ ltac:(by left)).
    + apply list_elem_of_In, in_concat in Hp as (l & Hl & Hp). apply in_map_iff in Hl as (d & <- & Hd).
      apply list_elem_of_In in Hd, Hp.
      apply (IH d Hd (Hes d Hd)) in Hp as (names & d' & Hat & Hdir & Hnh & ->); [|by right].
      exists (n :: names), d'. split_and!; [|done|by apply not_hidden_cons|by rewrite <-app_assoc].
      refine (at_below _ (DNode n true info es re) _ _ _ _ _); [by left|done|]. apply at_path_one. eauto.
  - intros (names & d' & Hat & Hdir & Hnh & ->).
    inversion Hat as [? ? Hin|? d0 names' ? Hin Hb Hp']; simplify_eq; apply list_elem_of_singleton in Hin; subst; simpl in *.
    + left. symmetry. by apply walk_at_path.
    + right. apply not_hidden_cons in Hnh as [_ Hnh].
      apply at_path_one in Hp' as (d1 & Hd1 & Hp1). apply list_elem_of_In, in_concat.
      exists (entered opts (filepath_join [filepath_join [path; n]; dname d1]) ((pre ++ [n]) ++ [dname d1]) d1). split.
      * apply in_map_iff. exists d1. by rewrite <-list_elem_of_In.
      * apply list_elem_of_In, IH; [done|by apply Hes|by right|]. exists names', d'. by rewrite <-app_assoc.
Qed.
End watched_elems.

(** ** Properties *)

Section properties.
Context `{FileSystem} {Hquiet : Quiet} `{Doublestar} `{Watcher}.

(** The watch covers the scan.  While nothing else changes the files and the
    watcher accepts every directory, the directories watched at the start are
    the root and exactly the directories below it that are neither hidden nor
    in a hidden one, so an entry a scan lists is in a watched directory, and
    nothing hidden is watched. *)
Theorem watch_covers_scan (w : World) (opts : ScanOptions) (d : dtree) :
  is_abs (s_root opts) = true → look w (SWalkDir (s_root opts)) = Ok d → proper_tree d → d_is_dir d = true →
  (∀ added path, watcher_add added path = None) →
  asks w (addTreeRecursively opts) (λ '(added, err), err = None ∧
    (∀ p, p ∈ added ↔ p = s_root opts ∨
       ∃ names d', at_path (dentries d) names d' ∧ d_is_dir d' = true ∧ not_hidden opts [] names ∧
         p = entry_path (s_root opts) names)).
Proof using Hquiet.
  intros Hroot Hd Hpt Hdir Hadd. unfold addTreeRecursively.
  eapply asks_bind; [by apply (asks_call w (SWalkDir (s_root opts)))|]. intros r ->. rewrite Hd.
  destruct Hpt as [n b info es re Hes Hpt]. simpl in Hdir. subst b. unfold WalkDir. rewrite walkDir_eq.
  assert (Hfirst : add_fn opts [] (s_root opts) (DNode n true info es re) None = ([s_root opts], WOk)).
  { unfold add_fn, shouldSkipWatchedDir. simpl. rewrite decide_True by done. by rewrite Hadd. }
  rewrite Hfirst. cbn [negb].
  assert (Hsub : walkEntries (add_fn opts) (s_root opts) es [s_root opts] =
    ([s_root opts] ++ entered_entries opts (s_root opts) [] es, WOk)).
  { apply walkEntries_add; [done|by left|]. intros d Hd'. split; [by apply Hes|].
    apply walkDir_entered; [done..|by apply Hpt]. }
  assert (E : match re with
    | Some err => match add_fn opts [s_root opts] (s_root opts) (DNode n true info es re) (Some err) with
        | (st, WErr e) => (st, WErr e) | (st, WSkipDir) => (st, WOk)
        | (st, WOk) => walkEntries (add_fn opts) (s_root opts) es st end
    | None => walkEntries (add_fn opts) (s_root opts) es [s_root opts] end =
    ([s_root opts] ++ entered_entries opts (s_root opts) [] es, WOk)) by by destruct re.
  rewrite E. apply asks_ret. split; [done|]. intros p. rewrite elem_of_app, list_elem_of_singleton.
  apply or_iff_compat_l. unfold entered_entries. rewrite list_elem_of_In, in_concat. split.
  - intros (l & Hl & Hp). apply in_map_iff in Hl as (d & <- & Hd'). apply list_elem_of_In in Hd', Hp.
    apply (elem_of_entered opts Hroot d (Hpt d Hd') (Hes d Hd') (s_root opts) [] p) in Hp as (names & d' & Hat & Hp);
      [|by left].
    exists names, d'. split; [|done]. apply at_path_one. eauto.
  - intros (names & d' & Hat & Hp). apply at_path_one in Hat as (d1 & Hd1 & Hat).
    exists (entered opts (filepath_join [s_root opts; dname d1]) ([] ++ [dname d1]) d1). split.
    + apply in_map_iff. exists d1. by rewrite <-list_elem_of_In.
    + apply list_elem_of_In, elem_of_entered; [done|by apply Hpt|by apply Hes|by left|eauto].
Qed.
End properties.

Section loop.
Context `{FileSystem} `{Doublestar} `{Watcher}.

(** A change is about an event: the path of a file that is not hidden, and the
    kind of the event. *)
Definition change_of (opts : ScanOptions) (ev : Event) (c : FileChange) : Prop :=
  ∃ rel info, watchRelativePath (s_root opts) (ev_name ev) = Some rel ∧ hidden opts rel = false ∧
    Ctype c = toChangeType (ev_op ev) ∧ Ctype c ≠ CHANGE_TYPE_UNSPECIFIED ∧
    Cfile c = Some info ∧ FPath info = rel ∧
    (Ctype c = CHANGE_TYPE_DELETE → info = mk_FileInfo rel 0 0 false 0).

Lemma lookupChangedInfo_path root rel ct e :
  FPath (snd (lookupChangedInfo root rel ct e)) = rel ∧
  (ct = CHANGE_TYPE_DELETE → snd (lookupChangedInfo root rel ct e) = mk_FileInfo rel 0 0 false 0).
Proof.
  unfold lookupChangedInfo. destruct (decide (ct = CHANGE_TYPE_DELETE)); [done|].
  destruct (Join root rel) as [abs|]; [|done]. unfold mbind, M_bind.
  destruct (call (SLstat abs) e) as [e' [fi|]]; done.
Qed.

Lemma watchChange_spec opts now sw ev e :
  let '(res, sw') := snd (watchChangeFromEvent opts now sw ev e) in
  (sw' = sw ∨ ∃ rel, sw' = fst (ShouldSuppress now rel sw)) ∧
  ∀ c b, res = Some (c, b) → change_of opts ev c ∧
    ∃ rel, watchRelativePath (s_root opts) (ev_name ev) = Some rel ∧ snd (ShouldSuppress now rel sw) = false.
Proof.
  unfold watchChangeFromEvent. destruct (watchRelativePath _ _) as [rel|] eqn:Hrel; [|by simpl; split; eauto].
  destruct (matchExclude rel _) eqn:Hex; [by simpl; split; eauto|]. destruct (Match _ rel) eqn:Hm; [by simpl; split; eauto|].
  destruct (ShouldSuppress now rel sw) as [sw' b] eqn:Hs.
  assert (Hsw : sw' = fst (ShouldSuppress now rel sw)) by by rewrite Hs.
  destruct b; [by simpl; split; eauto|]. destruct (decide _) as [|Hct]; [by simpl; split; eauto|].
  unfold mbind, M_bind. pose proof (lookupChangedInfo_path (s_root opts) rel (toChangeType (ev_op ev)) e) as [Hp Hd].
  destruct (lookupChangedInfo _ _ _ e) as [e' info]. simpl in *. split; [eauto|].
  intros c b [= <- <-]. split; [|by exists rel; rewrite Hs].
  exists rel, info. split_and!; try done. unfold hidden. by rewrite Hm, Hex.
Qed.

Definition events (signals : list signal) : list Event :=
  omap (λ s, match s with SEvent _ _ ev => Some ev | _ => None end) signals.

Lemma runWatchLoop_sent opts signals st e :
  ∃ new, w_sent (fst (snd (runWatchLoop opts signals st e))) = w_sent st ++ new ∧
    ∃ evs, evs `sublist_of` events signals ∧ Forall2 (change_of opts) evs new.
Proof.
  revert st e. induction signals as [|[| | |now dl ev] signals IH]; intros st e.
  - exists []. rewrite app_nil_r. eauto using sublist_nil_l.
  - exists []. rewrite app_nil_r. eauto using sublist_nil_l.
  - apply IH.
  - exists []. rewrite app_nil_r. eauto using sublist_nil_l.
  - cbn [runWatchLoop]. unfold handleWatchEvent. unfold mbind at 1, M_bind at 1. unfold mbind at 1, M_bind at 1.
    pose proof (watchChange_spec opts now (w_self st) ev e) as Hspec.
    destruct (watchChangeFromEvent opts now (w_self st) ev e) as [e1 [res sw']]. simpl in Hspec.
    destruct Hspec as [_ Hc]. destruct res as [[c b]|].
    + destruct (Hc c b eq_refl) as [Hch _]. unfold mret, M_ret.
      set (st' := mk_watch_state _ sw' _). destruct (IH st' e1) as (new & Hnew & evs & Hsub & Hall).
      destruct dl.
      * exists (c :: new). split; [rewrite Hnew; simpl; by rewrite <-app_assoc|].
        exists (ev :: evs). split; [by constructor|by constructor].
      * exists new. split; [by rewrite Hnew|]. exists evs. split; [by constructor|done].
    + unfold mret, M_ret. destruct (IH (mk_watch_state (w_added st) sw' (w_sent st)) e1) as (new & Hnew & evs & Hsub & Hall).
      exists new. split; [done|]. exists evs. split; [by constructor|done].
Qed.

(** Only visible changes are sent, in order.  Whatever the watcher delivers,
    each change the loop sends stands for one of the events, in their order;
    its path is that of a file below the root that is neither sensitive nor
    excluded, its kind is that of the event, and a deletion carries nothing
    else. *)
Theorem watch_discreet (opts : ScanOptions) (signals : list signal) (added : list string)
    (sw : option selfWriteFilter) (e : Env) :
  ∃ evs, evs `sublist_of` events signals ∧
    Forall2 (change_of opts) evs
      (w_sent (fst (snd (runWatchLoop opts signals (mk_watch_state added sw []) e)))).
Proof.
  destruct (runWatchLoop_sent opts signals (mk_watch_state added sw []) e) as (new & -> & evs & Hs & Ha).
  by exists evs.
Qed.

(** The filter still knows of a write to [key] that expires at [expiry]. *)
Definition knows (sw : option selfWriteFilter) (key : string) (expiry : Z) : Prop :=
  ∃ f, sw = Some f ∧ (0 < ttl f)%Z ∧ entries f !! key = Some expiry.

Lemma knows_ask sw key expiry now rel :
  knows sw key expiry → (now < expiry)%Z →
  knows (fst (ShouldSuppress now rel sw)) key expiry ∧
  (ToSlash rel = key → snd (ShouldSuppress now rel sw) = true).
Proof.
  intros (f & -> & Httl & Hk) Hnow. unfold ShouldSuppress. rewrite bool_decide_eq_false_2 by lia. cbn [fst snd].
  assert (Hp : prune now (entries f) !! key = Some expiry).
  { unfold prune. by apply map_lookup_filter_Some. }
  split; [by eexists|]. intros ->. rewrite Hp. by apply bool_decide_eq_true_2.
Qed.

(** The daemon's own writes do not come back.  Once a write to a path has
    been recorded, and as long as the events are received before its time to
    live is over, no change is sent whose path is that of the write. *)
Theorem watch_own_writes (opts : ScanOptions) (signals : list signal) (st : watch_state) (e : Env)
    (f : selfWriteFilter) (t : Z) (paths : list string) (p : string) :
  (0 < ttl f)%Z → p ∈ paths → w_self st = Remember t paths (Some f) → w_sent st = [] →
  Forall (λ s, match s with SEvent now _ _ => (now < t + ttl f)%Z | _ => True end) signals →
  Forall (λ c, FPath <$> Cfile c ≠ Some (ToSlash p))
    (w_sent (fst (snd (runWatchLoop opts signals st e)))).
Proof.
  intros Httl Hp Hst Hsent Hsig.
  assert (Hkn : knows (w_self st) (ToSlash p) (t + ttl f)).
  { rewrite Hst. unfold Remember. rewrite bool_decide_eq_false_2 by lia. eexists. split; [done|]. split; [done|].
    cbn [entries]. rewrite Remember_lookup. rewrite bool_decide_eq_true_2; [done|]. by apply list_elem_of_fmap_2. }
  assert (Hall : Forall (λ c, FPath <$> Cfile c ≠ Some (ToSlash p)) (w_sent st)) by by rewrite Hsent.
  clear Hst Hsent. revert st e Hkn Hall. induction signals as [|s signals IH]; intros st e Hkn Hall; [done|].
  apply Forall_cons in Hsig as [Hs Hsig]. destruct s as [| | |now dl ev]; [done|by apply IH|done|].
  cbn [runWatchLoop]. unfold handleWatchEvent. unfold mbind at 1, M_bind at 1. unfold mbind at 1, M_bind at 1.
  pose proof (watchChange_spec opts now (w_self st) ev e) as Hspec.
  destruct (watchChangeFromEvent opts now (w_self st) ev e) as [e1 [res sw']]. simpl in Hspec.
  destruct Hspec as [Hsw Hc].
  assert (Hkn' : knows sw' (ToSlash p) (t + ttl f)).
  { destruct Hsw as [->|[rel ->]]; [done|]. exact (proj1 (knows_ask _ _ _ _ rel Hkn Hs)). }
  destruct res as [[c b]|]; unfold mret, M_ret; apply IH; try done.
  cbn [w_sent]. destruct dl; [|done]. apply Forall_app. split; [done|]. constructor; [|done].
  destruct (Hc c b eq_refl) as [(rel & info & Hrel & _ & _ & _ & Hf & Hpath & _) (rel' & Hrel' & Hns)].
  rewrite Hrel in Hrel'. injection Hrel' as <-. rewrite Hf. simpl. intros [= E].
  destruct (knows_ask _ _ _ _ rel Hkn Hs) as [_ Hyes]. rewrite Hyes in Hns; [done|].
  rewrite <-Hpath, E. apply ToSlash_idem.
Qed.
End loop.

(** ** Examples *)

#[local] Instance accepts_all : Watcher := λ _ _, None.

Lemma watch_covers_scan_witness :
  proper_tree ScanExample.tree ∧
  asks (H := Toy.fs) ScanExample.files (addTreeRecursively ScanExample.opts) (λ '(added, _), "/w" ∈ added).
Proof.
  pose proof ScanExample.tree_proper as Hp.
  split; [exact Hp|].
  eapply asks_conseq; [apply (watch_covers_scan (H := Toy.fs) ScanExample.files ScanExample.opts ScanExample.tree);
    [reflexivity|vm_compute; reflexivity|exact Hp|vm_compute; reflexivity|done]|].
  intros [added err] [_ Hr]. apply Hr. by left.
Defined.

Lemma watch_own_writes_witness :
  let st := mk_watch_state [] (Remember 0 ["a.go"] (Some (newSelfWriteFilter 10))) [] in
  let ev := SEvent 3 true (mk_Event "/w/a.go" (mk_Op false true false false)) in
  Forall (λ c, FPath <$> Cfile c ≠ Some "a.go")
    (w_sent (fst (snd (runWatchLoop (H := Toy.fs) ScanExample.opts [ev; ev] st (Toy.start ScanExample.files))))).
Proof.
  cbv zeta. apply (watch_own_writes (H := Toy.fs) _ _ _ _ (newSelfWriteFilter 10) 0 ["a.go"] "a.go");
    [reflexivity|by left|reflexivity|reflexivity|by repeat constructor].
Defined.
