(* ===== verification/Daemon.v ===== *)
(** * The daemon's connection to the server (pkg/syncer/daemon.go)

    One session sends the file tree and then serves the stream with five
    goroutines; the loop around it decides what happens when a session ends.
    Dialling, the stream and the backoff policy are the environment: an
    [attempt] has what they answered.  The receive loop runs the handlers of
    Handle; the others only move messages into and out of the send queue. *)
From S2P Require Import Prelude GoPath Safepath Proto OsFs Sensitive PathResolution Handle Scan.
From stdpp Require Import options.

(** ** The receive loop *)

(** What [stream.Recv()] returns, and whether the answer to a request still gets
    into the send queue before the context ends. *)
Inductive received : Type :=
  | RecvError
  | RecvMessage (m : ServerMessage) (now : Z) (queued : bool).

(** Still waiting for a message, returned nil, or returned the receive error. *)
Inductive loop_end : Type := Waiting | Stopped | Failed.

Section recv.
Context `{FileSystem} `{Quoting} `{Doublestar}.

Definition queueDaemonMessage (queued : bool) (q : list DaemonMessage) (m : DaemonMessage) : list DaemonMessage :=
  if queued then q ++ [m] else q.

Fixpoint runRecvLoop (opts : HandleOptions) (msgs : list received) (q : list DaemonMessage)
    : M (list DaemonMessage * loop_end) :=
  match msgs with
  | [] => mret (q, Waiting)
  | RecvError :: _ => mret (q, Failed)
  | RecvMessage m now queued :: rest =>
    match m with
    | SrvRequest req =>
      r ← Handle now (Some req) opts;
      let '(response, _) := r in
      let q' := queueDaemonMessage queued q (MsgResponse response) in
      if negb queued then mret (q', Stopped) else runRecvLoop opts rest q'
    | SrvHeartbeat _ | SrvNone => runRecvLoop opts rest q
    end
  end.

(** The ids of the requests received before the first error. *)
Fixpoint request_ids (msgs : list received) : list string :=
  match msgs with
  | [] | RecvError :: _ => []
  | RecvMessage (SrvRequest req) _ _ :: rest => RequestId req :: request_ids rest
  | RecvMessage _ _ _ :: rest => request_ids rest
  end.

Definition response_ids (q : list DaemonMessage) : list string :=
  omap (λ m, match m with MsgResponse r => Some (ResponseId r) | _ => None end) q.

Lemma Handle_id now req opts e :
  is_abs (Root opts) = true → ResponseId (fst (snd (Handle now (Some req) opts e))) = RequestId req.
Proof.
  intros Hroot. destruct (Op req) as [op|] eqn:Hop; [|unfold Handle; by rewrite Hop].
  destruct (Handle_hoare opts now req op (ctx_of e) Hroot Hop e eq_refl) as [Hr _].
  destruct (Handle _ _ _ _) as [e' [r recs]]. by destruct Hr as [(_ & _ & [(? & _)|(? & _)]) _].
Qed.

Lemma response_ids_app q r : response_ids (q ++ [MsgResponse r]) = response_ids q ++ [ResponseId r].
Proof. unfold response_ids. by rewrite omap_app. Qed.

(** Requests are answered one by one, in order.  The receive loop handles the
    requests in the order they arrive and queues one response for each, with
    its id, before it receives the next; it leaves out requests only after a
    response could no longer be queued, and then it stops. *)
Theorem recv_answers_in_order (opts : HandleOptions) (msgs : list received) (q : list DaemonMessage) (e : Env) :
  is_abs (Root opts) = true →
  let '(q', fin) := snd (runRecvLoop opts msgs q e) in
  ∃ k, response_ids q' = response_ids q ++ take k (request_ids msgs) ∧
    (fin ≠ Stopped → response_ids q' = response_ids q ++ request_ids msgs).
Proof.
  intros Hroot. revert q e. induction msgs as [|[|m now queued] msgs IH]; intros q e.
  - exists 0. rewrite take_0. split; [|intros Hf]; by rewrite ?app_nil_r.
  - exists 0. rewrite take_0. split; [|intros Hf]; by rewrite ?app_nil_r.
  - destruct m as [req|t|]; [|apply IH|apply IH]. cbn [runRecvLoop request_ids]. unfold mbind, M_bind.
    pose proof (Handle_id now req opts e Hroot) as Hid.
    destruct (Handle now (Some req) opts e) as [e1 [r recs]]. simpl in Hid.
    destruct queued; cbn [negb queueDaemonMessage].
    + specialize (IH (q ++ [MsgResponse r]) e1). destruct (snd (runRecvLoop opts msgs _ e1)) as [q' fin].
      destruct IH as (k & Hk & Hfin). rewrite response_ids_app, <-app_assoc, Hid in Hk, Hfin.
      by exists (S k).
    + exists 0. rewrite take_0. split; [by rewrite app_nil_r|]. by intros [].
Qed.
End recv.

Lemma recv_answers_in_order_witness :
  response_ids (fst (snd (runRecvLoop (H := Toy.fs) HandleExample.opts
    [RecvMessage (SrvRequest (HandleExample.read "a.go")) 0 true; RecvMessage SrvNone 0 true;
     RecvMessage (SrvRequest (HandleExample.remove "a.go")) 0 true] [] (Toy.start HandleExample.files)))) = ["r1"; "r2"].
Proof.
  pose proof (recv_answers_in_order (H := Toy.fs) HandleExample.opts
    [RecvMessage (SrvRequest (HandleExample.read "a.go")) 0 true; RecvMessage SrvNone 0 true;
     RecvMessage (SrvRequest (HandleExample.remove "a.go")) 0 true] [] (Toy.start HandleExample.files) eq_refl) as Hr.
  assert (Hfin : snd (snd (runRecvLoop (H := Toy.fs) HandleExample.opts
    [RecvMessage (SrvRequest (HandleExample.read "a.go")) 0 true; RecvMessage SrvNone 0 true;
     RecvMessage (SrvRequest (HandleExample.remove "a.go")) 0 true] [] (Toy.start HandleExample.files))) = Waiting)
    by (vm_compute; reflexivity).
  destruct (snd (runRecvLoop _ _ _ _)) as [q' fin]. simpl in Hfin. subst fin.
  destruct Hr as (k & _ & Hr). by apply Hr.
Defined.

(** ** One session *)

(** The errors of a session; [errors.Is] of a stream error with
    [context.Canceled] and with [io.EOF] are its flags. *)
Record stream_error : Type := mk_stream_error { is_canceled : bool; is_eof : bool; se_text : string }.

Inductive daemon_error : Type :=
  | ErrDialServer (text : string)
  | ErrOpenStream (text : string)
  | ErrInitialScan (err : scan_error)
  | ErrSendTree (text : string)
  | ErrStream (err : stream_error)
  | ErrReconnectExhausted (err : daemon_error).

(** [group.Wait()], when the five goroutines end in this order: the first error
    is kept, and every goroutine that ends with an error has cancelled the
    session's context first. *)
Fixpoint group_wait (finished : list (option stream_error)) (cancelled : bool) (first : option stream_error)
    : bool * option stream_error :=
  match finished with
  | [] => (cancelled, first)
  | None :: rest => group_wait rest cancelled first
  | Some err :: rest => group_wait rest true (match first with Some f => Some f | None => Some err end)
  end.

(** [cancelled]: the session's context has ended from outside *)
Definition serveStream (cancelled : bool) (finished : list (option stream_error)) : option daemon_error :=
  let '(cancelled, err) := group_wait finished cancelled None in
  if cancelled || match err with Some e => is_canceled e | None => false end then None
  else match err with
       | Some e => if is_eof e then Some (ErrStream e) else Some (ErrStream e)
       | None => None
       end.

(** What one attempt to connect meets. *)
Record attempt : Type := mk_attempt {
  at_cancelled_before : bool;              (* [ctx.Err()] when the iteration starts *)
  at_dial : option string;
  at_open : option string;
  at_scan : result scan_error (list FileInfo);
  at_send : option string;
  at_finished : list (option stream_error);
  at_cancelled_during : bool;              (* [ctx] ended by the end of the session *)
  at_waited : bool;                        (* the retry timer fires before [ctx] ends *)
}.

Record RunOptions : Type := mk_RunOptions {
  StartupFailFast : bool;
  HasOnReady : bool;
  WorkspaceName : string;
}.

(** [runtimeDeps.everEstablished], the calls of [OnReady], and the file trees sent. *)
Record runtimeDeps : Type := mk_runtimeDeps {
  everEstablished : bool;
  ready_calls : nat;
  trees_sent : list FileTree;
}.

Definition markEstablished (opts : RunOptions) (deps : runtimeDeps) : runtimeDeps :=
  if everEstablished deps then deps
  else mk_runtimeDeps true (if HasOnReady opts then S (ready_calls deps) else ready_calls deps) (trees_sent deps).

Definition runSession (opts : RunOptions) (a : attempt) (deps : runtimeDeps)
    : runtimeDeps * (bool * option daemon_error) :=
  match at_dial a with
  | Some t => (deps, (false, Some (ErrDialServer t)))
  | None =>
    match at_open a with
    | Some t => (deps, (false, Some (ErrOpenStream t)))
    | None =>
      match at_scan a with
      | Err e => (deps, (false, Some (ErrInitialScan e)))
      | Ok tree =>
        match at_send a with
        | Some t => (deps, (false, Some (ErrSendTree t)))
        | None =>
          let deps := mk_runtimeDeps (everEstablished deps) (ready_calls deps)
                        (trees_sent deps ++ [mk_FileTree tree (WorkspaceName opts)]) in
          let deps := markEstablished opts deps in
          (deps, (true, serveStream (at_cancelled_during a) (at_finished a)))
        end
      end
    end
  end.

(** ** The loop *)

(** [*backoff.ExponentialBackOff]; [None] is [backoff.Stop]. *)
Class BackOff := {
  Retry : Type;
  Reset : Retry → Retry;
  NextBackOff : Retry → Retry * option Z;
}.

Section loop.
Context `{BackOff}.

Definition nextRetryDelay (retry : Retry) (established : bool) (err : daemon_error)
    : Retry * result daemon_error Z :=
  let retry := if established then Reset retry else retry in
  let '(retry, delay) := NextBackOff retry in
  match delay with
  | None => (retry, Err (ErrReconnectExhausted err))
  | Some delay => (retry, Ok delay)
  end.

(** The result is [stop, err]. *)
Definition runDaemonIteration (opts : RunOptions) (a : attempt) (st : Retry * runtimeDeps)
    : (Retry * runtimeDeps) * (bool * option daemon_error) :=
  let '(retry, deps) := st in
  if at_cancelled_before a then (st, (true, None))
  else
    let '(deps, (established, err)) := runSession opts a deps in
    match err with
    | None => ((retry, deps), (true, None))
    | Some err =>
      if at_cancelled_during a then ((retry, deps), (true, None))
      else if StartupFailFast opts && negb (everEstablished deps) then ((retry, deps), (true, Some err))
      else
        let '(retry, delay) := nextRetryDelay retry established err in
        match delay with
        | Err err => ((retry, deps), (true, Some err))
        | Ok _ => if negb (at_waited a) then ((retry, deps), (true, None)) else ((retry, deps), (false, None))
        end
    end.

(** The loop, over the attempts it may make; [None]: it has not returned yet. *)
Fixpoint runDaemonLoop (opts : RunOptions) (attempts : list attempt) (st : Retry * runtimeDeps)
    : (Retry * runtimeDeps) * option (option daemon_error) :=
  match attempts with
  | [] => (st, None)
  | a :: rest =>
    let '(st, (stop, err)) := runDaemonIteration opts a st in
    if stop : bool then (st, Some err) else runDaemonLoop opts rest st
  end.

Definition fresh_deps : runtimeDeps := mk_runtimeDeps false 0 [].

Lemma group_wait_cancels finished cancelled first :
  (first ≠ None → cancelled = true) →
  snd (group_wait finished cancelled first) ≠ None → fst (group_wait finished cancelled first) = true.
Proof.
  revert cancelled first. induction finished as [|[e|] fin IH]; intros c f Hc; simpl; [done| |by apply IH].
  by apply IH.
Qed.

Lemma serveStream_nil cancelled finished : serveStream cancelled finished = None.
Proof.
  unfold serveStream. destruct (group_wait finished cancelled None) as [c err] eqn:E.
  pose proof (group_wait_cancels finished cancelled None ltac:(done)) as Hc. rewrite E in Hc. simpl in Hc.
  destruct err as [e|]; [by rewrite Hc|]. by destruct (c || false).
Qed.

(** An established session stops the loop without an error. *)
Lemma iteration_established opts a st st' stop err :
  runDaemonIteration opts a st = (st', (stop, err)) →
  (trees_sent (snd st') = trees_sent (snd st) ∧ everEstablished (snd st') = everEstablished (snd st) ∧
     ready_calls (snd st') = ready_calls (snd st)) ∨
  (stop = true ∧ err = None ∧ everEstablished (snd st') = true ∧
     length (trees_sent (snd st')) = S (length (trees_sent (snd st))) ∧
     (everEstablished (snd st) = false →
        ready_calls (snd st') = (if HasOnReady opts then 1 else 0) + ready_calls (snd st))).
Proof.
  unfold runDaemonIteration. destruct st as [retry deps]. destruct (at_cancelled_before a).
  { intros [= <- <- <-]. by left. }
  unfold runSession. destruct (at_dial a), (at_open a), (at_scan a), (at_send a);
    try (unfold nextRetryDelay; destruct (NextBackOff _) as [? [?|]];
      repeat case_match; intros; simplify_eq/=; by left).
  rewrite serveStream_nil. intros [= <- <- <-]. right. unfold markEstablished. simpl.
  destruct (everEstablished deps) eqn:He; simpl; rewrite length_app; simpl; split_and!; try done; try lia.
  intros _. by destruct (HasOnReady opts).
Qed.

(** C33. The daemon serves one session.  Whatever happens to the attempts, at most
    one of them gets as far as sending the file tree; [OnReady] is then called
    once; and as soon as that session ends, for whatever reason, the loop
    returns without an error and without another attempt.  Attempts are
    repeated only while none has been established. *)
Theorem daemon_single_session (opts : RunOptions) (attempts : list attempt) (retry : Retry) :
  let '((_, deps), res) := runDaemonLoop opts attempts (retry, fresh_deps) in
  length (trees_sent deps) ≤ 1 ∧
  ready_calls deps = (if HasOnReady opts then length (trees_sent deps) else 0) ∧
  (everEstablished deps = true ↔ length (trees_sent deps) = 1) ∧
  (length (trees_sent deps) = 1 → res = Some None).
Proof.
  assert (Hgen : ∀ deps, trees_sent deps = [] → everEstablished deps = false → ready_calls deps = 0 →
    let '((_, deps), res) := runDaemonLoop opts attempts (retry, deps) in
    length (trees_sent deps) ≤ 1 ∧
    ready_calls deps = (if HasOnReady opts then length (trees_sent deps) else 0) ∧
    (everEstablished deps = true ↔ length (trees_sent deps) = 1) ∧
    (length (trees_sent deps) = 1 → res = Some None)); [|by apply Hgen].
  revert retry. induction attempts as [|a attempts IH]; intros retry deps Ht He Hr; cbn [runDaemonLoop].
  { rewrite Ht, He, Hr. simpl. split_and!; [lia|by destruct (HasOnReady opts)|done|done]. }
  destruct (runDaemonIteration opts a (retry, deps)) as [[retry' deps'] [stop err]] eqn:E.
  apply iteration_established in E as [(Ht' & He' & Hr')|(-> & -> & He' & Ht' & Hr')]; simpl in *.
  - destruct stop; [|by apply IH; congruence].
    rewrite Ht', He', Hr', Ht, He, Hr. simpl. split_and!; [lia|by destruct (HasOnReady opts)|done|done].
  - rewrite Ht' , He', Hr', Ht, Hr by done. simpl. split_and!; [lia|by destruct (HasOnReady opts)|done|done].
Qed.

(** Failing to start.  While no session has been established, the first
    failed attempt ends the loop with its error when the daemon is to fail
    fast; otherwise it is retried for as long as the backoff policy gives a
    delay, and the loop ends with an error only when it gives none. *)
Theorem daemon_startup_failure (opts : RunOptions) (a : attempt) (retry : Retry) (deps : runtimeDeps) :
  at_cancelled_before a = false → at_cancelled_during a = false → everEstablished deps = false →
  match snd (runSession opts a deps) with
  | (established, Some err) =>
    established = false ∧
    if StartupFailFast opts
    then runDaemonIteration opts a (retry, deps) = ((retry, deps), (true, Some err))
    else match NextBackOff retry with
         | (retry', Some _) => runDaemonIteration opts a (retry, deps) = ((retry', deps), (negb (at_waited a), None))
         | (retry', None) => runDaemonIteration opts a (retry, deps) = ((retry', deps), (true, Some (ErrReconnectExhausted err)))
         end
  | (established, None) => established = true
  end.
Proof.
  intros Hb Hd He. unfold runDaemonIteration. rewrite Hb, Hd.
  assert (Hs : (∃ err, runSession opts a deps = (deps, (false, Some err))) ∨
    ∃ deps', runSession opts a deps = (deps', (true, None))).
  { unfold runSession. destruct (at_dial a), (at_open a), (at_scan a), (at_send a); eauto.
    right. rewrite serveStream_nil. eauto. }
  destruct Hs as [[err ->]|[deps' ->]]; [|done]. simpl. split; [done|]. rewrite He, andb_true_r.
  destruct (StartupFailFast opts); [done|]. unfold nextRetryDelay.
  destruct (NextBackOff retry) as [retry' [d|]]; [|done]. by destruct (at_waited a).
Qed.
End loop.

(** A policy that gives up after some retries. *)
Definition countdown : BackOff :=
  {| Retry := nat; Reset n := n; NextBackOff n := match n with 0 => (0, None) | S n => (n, Some 1%Z) end |}.

Definition refused : attempt := mk_attempt false (Some "refused") None (Ok []) None [] false true.

Lemma daemon_startup_failure_witness :
  runDaemonIteration (H := countdown) (mk_RunOptions false true "w") refused (1, fresh_deps) = ((0, fresh_deps), (false, None)).
Proof.
  exact (proj2 (daemon_startup_failure (H := countdown) (mk_RunOptions false true "w") refused 1 fresh_deps
    eq_refl eq_refl eq_refl)).
Defined.
