(* ===== verification/DaemonRun.v ===== *)
(** * Running the daemon (pkg/syncer/daemon.go: Run, prepareRun, newAuditor, closeAuditor)

    What [Run] checks and opens before the loop of Daemon starts, and the trail
    of a request through the recorder into the database.  The context is never
    nil and the logger is left out. *)
From S2P Require Import Prelude GoPath Safepath OsFs Sensitive Handle Scan Daemon.
From S2P Require Config AuditStore Recorder.
From stdpp Require Import options.

Inductive run_error : Type :=
  | ErrNilConfig
  | ErrValidate (err : Config.error)
  | ErrWorkspace (err : workspace_error)
  | ErrSensitive (err : Sensitive.error)
  | ErrAudit (err : AuditStore.error)
  | ErrLoop (err : daemon_error).

(** A store and the recorder in front of it. *)
Record auditor : Type := mk_auditor { aud_store : AuditStore.SQLStore; aud_recorder : Recorder.Recorder }.

(** What the sessions of a run share, and the configuration as [Validate] left it. *)
Record deps : Type := mk_deps {
  dep_config : Config.DaemonConfig;
  dep_filter : SensitiveFilter;
  dep_auditor : option auditor;
  dep_root : string;
  dep_name : string;
}.

Section run.
Context `{FileSystem} `{Quoting} `{Doublestar} `{AuditStore.Database}.

Definition sql_options (cfg : Config.AuditConfig) : AuditStore.SQLOptions :=
  AuditStore.mk_SQLOptions (Config.Driver cfg) (Config.DSN cfg) (Config.Table cfg).

Definition newAuditor (cfg : Config.AuditConfig) : AuditStore.Db (result run_error (option auditor)) :=
  if negb (Config.Enabled cfg) then mret (Ok None)
  else
    store ← AuditStore.OpenSQL (sql_options cfg);
    mret match store with
         | Err e => Err (ErrAudit e)
         | Ok store => Ok (Some (mk_auditor store (Recorder.NewRecorder (Config.QueueSize cfg))))
         end.

(** [h] are the calls of the database before. *)
Definition prepareRun (cfg : option Config.DaemonConfig) (root : string) (h : list AuditStore.call)
    : M (list AuditStore.call * result run_error deps) :=
  match cfg with
  | None => mret (h, Err ErrNilConfig)
  | Some cfg =>
    match Config.DaemonConfig_Validate cfg with
    | (_, Some err) => mret (h, Err (ErrValidate err))
    | (cfg, None) =>
      name ← ValidateWorkspaceRoot root;
      match name with
      | Err err => mret (h, Err (ErrWorkspace err))
      | Ok name =>
        match NewSensitiveFilter (Config.SensitivePatterns (Config.WorkspaceOf cfg)) with
        | Err err => mret (h, Err (ErrSensitive err))
        | Ok filter =>
          let '(h, auditor) := newAuditor (Config.Audit cfg) h in
          mret (h, match auditor with Err err => Err err | Ok auditor => Ok (mk_deps cfg filter auditor root name) end)
        end
      end
    end
  end.
End run.

(** ** The trail of the records *)

(** What a recorder does to the database: each call of its store is a call of
    the store's method, one after the other. *)
Section trail.
Context `{AuditStore.Database}.

Fixpoint trail (store : AuditStore.SQLStore) (h : list Recorder.event) : AuditStore.Db unit :=
  match h with
  | [] => mret tt
  | Recorder.Saving rec :: h => _ ← AuditStore.Save store (Some rec); trail store h
  | Recorder.StoreClosed _ :: h => _ ← AuditStore.Close store; trail store h
  | _ :: h => trail store h
  end.

Lemma trail_app store h1 h2 calls : fst (trail store (h1 ++ h2) calls) = fst (trail store h2 (fst (trail store h1 calls))).
Proof.
  revert calls. induction h1 as [|e h1 IH]; intros calls; [done|]. cbn [app trail].
  destruct e; apply IH.
Qed.

(** The statement that inserts a record, for the text [stmt]: its arguments are
    in the order of the columns. *)
Definition insert_of (stmt : string) (rec : AuditRecord) : AuditStore.call :=
  AuditStore.DBExec stmt
    [AuditStore.AInt (a_time rec `div` 1000000); AuditStore.AString (a_request_id rec); AuditStore.AString (a_operation rec);
     AuditStore.AString (a_path rec); AuditStore.AString (a_target rec); AuditStore.AInt (a_bytes rec);
     AuditStore.AInt (if a_success rec then 1 else 0)%Z; AuditStore.AString (a_error rec)].

Lemma trail_protocol store size h p calls :
  Recorder.protocol size h = Some p →
  fst (trail store h calls) =
    calls ++ (insert_of (AuditStore.store_insert store) <$> Recorder.handed_over h) ++ (if Recorder.open p then [] else [AuditStore.DBClose]).
Proof.
  revert p. induction h as [|e h IH] using rev_ind; intros p.
  { unfold Recorder.protocol. cbn. intros [= <-]. by rewrite app_nil_r. }
  rewrite Recorder.recorder_protocol_snoc. destruct (Recorder.protocol size h) as [q|]; [|done]. cbn. specialize (IH q eq_refl).
  rewrite trail_app. unfold Recorder.handed_over in *. rewrite !omap_app, fmap_app. rewrite IH. clear IH.
  destruct e, q as [w hd [|] [|] ]; intros Hp; simplify_eq/=; repeat (case_match; simplify_eq/=);
    rewrite ?app_nil_r, <-?app_assoc; done.
Qed.
End trail.

(** The text of the statement, for a dialect and a table. *)
Definition insert_text (d : AuditStore.sqlDialect) (table : string) : string :=
  "INSERT INTO " +:+ table +:+ " (created_at_ms, request_id, operation, path, target, bytes, success, error) VALUES " +:+
  (if decide (AuditStore.driverName d = "pgx") then "($1, $2, $3, $4, $5, $6, $7, $8)" else "(?, ?, ?, ?, ?, ?, ?, ?)").

Lemma insert_text_dialect d t : d ∈ [AuditStore.sqlite; AuditStore.mysql; AuditStore.postgres] →
  AuditStore.sprintf (AuditStore.insertStmt d) t = insert_text d t.
Proof. rewrite !elem_of_cons. intros [-> |[-> |[-> |[]%not_elem_of_nil] ] ]; reflexivity. Qed.

(** All calls have returned, one of them of [Close]. *)
Lemma recorder_finished s :
  Recorder.inv s → Forall (λ t, t = Recorder.RDone ∨ ∃ err, t = Recorder.CDone err) (Recorder.threads s) →
  Recorder.closed s = true → Recorder.store_open s = false ∧ Recorder.queue s = [].
Proof.
  intros Hs Hdone Hclosed.
  assert (Hn : Recorder.count Recorder.closing (Recorder.threads s) = 0).
  { destruct (Recorder.count _ _) eqn:E; [done|]. destruct (Recorder.count_threads_pos Recorder.closing (Recorder.threads s)) as (i & t & Hi & Ht); [lia|].
    rewrite Forall_lookup in Hdone. by destruct (Hdone i t Hi) as [-> |[err ->] ]. }
  pose proof (Recorder.in_closing _ Hs) as Hc. rewrite Hclosed, Hn in Hc. destruct (Recorder.store_open s) eqn:Ho; [done|].
  split; [done|]. apply (Recorder.in_end _ Hs). right. by apply (Recorder.in_done _ Hs), (Recorder.in_store _ Hs).
Qed.

Section run_facts.
Context `{FileSystem} `{Quoting} `{Doublestar} `{AuditStore.Database}.

Lemma ValidateWorkspaceRoot_Ok root e e' name :
  ValidateWorkspaceRoot root e = (e', Ok name) → is_abs root = true ∧ CleanSegment (path_base (path_clean root)) = Ok name.
Proof.
  unfold ValidateWorkspaceRoot. destruct (decide (root = "")); [by intros [=]|]. destruct (is_abs root); [|by intros [=]]. cbn [negb].
  unfold mbind, M_bind. destruct (call (SStat root) e) as [e1 [info|err] ]; [|by intros [=]].
  destruct (i_is_dir info); [|by intros [=]]. cbn [negb]. destruct (CleanSegment _); [|by intros [=]]. by intros [= <- <-].
Qed.

(** The database after an operation that has failed. *)
Definition left_closed (h h' : list AuditStore.call) : Prop :=
  h' = h ∨ (∃ name dsn, h' = h ++ [AuditStore.DBOpen name dsn]) ∨ last h' = Some AuditStore.DBClose.

Lemma newAuditor_calls cfg h :
  let '(h', r) := newAuditor cfg h in
  match r with
  | Ok None => Config.Enabled cfg = false ∧ h' = h
  | Ok (Some a) =>
    Config.Enabled cfg = true ∧ aud_recorder a = Recorder.NewRecorder (Config.QueueSize cfg) ∧
    ∃ d t, AuditStore.dialectFor (Config.Driver cfg) = Ok d ∧ AuditStore.tableOrDefault (Config.Table cfg) = Ok t ∧
      AuditStore.store_insert (aud_store a) = insert_text d t ∧
      h' = h ++ [AuditStore.DBOpen (AuditStore.driverName d) (Config.DSN cfg); AuditStore.DBPing;
                 AuditStore.DBExec (AuditStore.sprintf (AuditStore.createDDL d) t) [] ]
  | Err e =>
    left_closed h h' ∧
    ∃ err, e = ErrAudit err ∧ Config.Enabled cfg = true ∧ snd (AuditStore.OpenSQL (sql_options cfg) h) = Err err
  end.
Proof.
  unfold newAuditor. destruct (Config.Enabled cfg); cbn [negb]; [|done].
  unfold mbind, AuditStore.db_bind. pose proof (AuditStore.OpenSQL_calls (sql_options cfg) h) as Hc.
  destruct (AuditStore.OpenSQL (sql_options cfg) h) as [h' [store|err] ]; cbn.
  - destruct Hc as (d & t & Hd & Ht & Hs & ->). split_and!; [done..|]. exists d, t.
    rewrite <-insert_text_dialect by (by eapply AuditStore.dialectFor_known). done.
  - split; [|by eexists]. destruct Hc as [(_ & _ & ->)|(_ & name & mid & -> & [-> |[-> |[ddl ->] ] ] & _)].
    + by left.
    + right; left. by eexists _, _.
    + right; right. by rewrite last_app.
    + right; right. by rewrite last_app.
Qed.

(** Preparing a run.  [prepareRun] succeeds only for a configuration that is
    well-formed once its defaults are filled in, a workspace that is an absolute
    directory with a safe name, and patterns that make a filter; then a store is
    open exactly when auditing is enabled.  When it fails, no database is left
    open; for any reason but the audit store the database was not touched, and
    the store has failed in the database, not for its options. *)
Theorem prepareRun_checks (cfg : option Config.DaemonConfig) (root : string) (h : list AuditStore.call) (e : Env) :
  let '(_, (h', r)) := prepareRun cfg root h e in
  match r with
  | Ok d =>
    (∃ c, cfg = Some c ∧ Config.DaemonConfig_Validate c = (dep_config d, None)) ∧ Config.valid_daemon (dep_config d) ∧
    is_abs root = true ∧ dep_root d = root ∧ CleanSegment (path_base (path_clean root)) = Ok (dep_name d) ∧
    NewSensitiveFilter (Config.SensitivePatterns (Config.WorkspaceOf (dep_config d))) = Ok (dep_filter d) ∧
    match dep_auditor d with
    | None => Config.Enabled (Config.Audit (dep_config d)) = false ∧ h' = h
    | Some _ => Config.Enabled (Config.Audit (dep_config d)) = true ∧ ∃ name mid, h' = h ++ AuditStore.DBOpen name (Config.DSN (Config.Audit (dep_config d))) :: mid ∧ AuditStore.DBClose ∉ mid
    end
  | Err (ErrAudit err) => AuditStore.database_error err = true ∧ left_closed h h'
  | Err _ => h' = h
  end.
Proof.
  unfold prepareRun. destruct cfg as [cfg|]; [|done]. destruct (Config.DaemonConfig_Validate cfg) as [c [err|] ] eqn:Hv; [done|].
  pose proof (Config.DaemonConfig_Validate_valid _ _ Hv) as Hvalid.
  unfold mbind, M_bind. destruct (ValidateWorkspaceRoot root e) as [e1 [name|err] ] eqn:Hw; [|done].
  apply ValidateWorkspaceRoot_Ok in Hw as [Habs Hname].
  destruct (NewSensitiveFilter _) as [filter|err] eqn:Hf; [|done].
  pose proof (newAuditor_calls (Config.Audit c) h) as Ha. destruct (newAuditor (Config.Audit c) h) as [h' [a|err] ]; cbn.
  - split_and!; try done; [by exists cfg|]. destruct a as [a|]; [|done]. destruct Ha as (Hen & _ & d & t & _ & _ & _ & ->).
    split; [done|]. eexists _, _. split; [reflexivity|]. set_solver.
  - destruct Ha as (Hl & err' & -> & Hen & Hsql). split; [|done]. destruct Hvalid as [_ _ [Ht _ Hu] ].
    apply (proj2 (Config.check_audit_None _)), (AuditStore.check_audit_options _ Hen Ht) in Hu as ([d Hd] & Hp & _).
    exact (AuditStore.OpenSQL_accepted (sql_options (Config.Audit c)) h d _ err' Hd Hp Hsql).
Qed.

(** C21. The trail of the audit.  The calls of the database that a run makes for its
    audit are those that open the store and create its table, with the dialect of
    the configuration's driver and its table; then, for each call of the store that
    the recorder has made, what the store's method does: one insert for each record
    that was accepted, of all its fields in the order of the columns, in the order
    the records were accepted in, as far as the recorder has got, and nothing else;
    and when all calls of the recorder have returned and it was closed, every
    accepted record was inserted and the database was closed, once and last. *)
Theorem audit_trail (cfg : Config.AuditConfig) (h h' : list AuditStore.call) (a : auditor) (s : Recorder.Recorder) :
  newAuditor cfg h = (h', Ok (Some a)) → Recorder.reachable_from (Config.QueueSize cfg) s →
  let calls := fst (trail (aud_store a) (Recorder.hist s) h') in
  ∃ d t, AuditStore.dialectFor (Config.Driver cfg) = Ok d ∧ AuditStore.tableOrDefault (Config.Table cfg) = Ok t ∧
    h' = h ++ [AuditStore.DBOpen (AuditStore.driverName d) (Config.DSN cfg); AuditStore.DBPing;
               AuditStore.DBExec (AuditStore.sprintf (AuditStore.createDDL d) t) [] ] ∧
    (∃ saved, saved `prefix_of` Recorder.accepted (Recorder.hist s) ∧
       calls = h' ++ (insert_of (insert_text d t) <$> saved) ++ (if Recorder.store_open s then [] else [AuditStore.DBClose])) ∧
    (Forall (λ t, t = Recorder.RDone ∨ ∃ err, t = Recorder.CDone err) (Recorder.threads s) → Recorder.closed s = true →
     calls = h' ++ (insert_of (insert_text d t) <$> Recorder.accepted (Recorder.hist s)) ++ [AuditStore.DBClose]).
Proof.
  intros Ha [Hs _]%Recorder.reachable_recorder. pose proof (newAuditor_calls cfg h) as Hc. rewrite Ha in Hc.
  destruct Hc as (_ & _ & d & t & Hd & Ht & Hins & Hopen). pose proof (Recorder.in_protocol _ Hs) as Hp.
  pose proof (Recorder.protocol_order _ _ _ Hp) as Ho. pose proof (trail_protocol (aud_store a) _ _ _ h' Hp) as Htr.
  change (Recorder.open (Recorder.phase_of s)) with (Recorder.store_open s) in Htr.
  change (Recorder.waiting (Recorder.phase_of s)) with (Recorder.queue s) in Ho.
  rewrite Hins in Htr. exists d, t. cbn zeta. rewrite Htr.
  split_and!; [done..|exists (Recorder.handed_over (Recorder.hist s)); split; [by eexists|done]|].
  intros Hdone Hclosed. destruct (recorder_finished s Hs Hdone Hclosed) as [Hst Hq]. by rewrite Ho, Hst, Hq, app_nil_r.
Qed.
End run_facts.

(** ** Examples *)

Module RunExample.
#[export] Instance db : AuditStore.Database := λ _ _, None.
Definition audit : Config.AuditConfig := Config.mk_AuditConfig true "sqlite" "audit.db" "log" 1.
Definition config (audit : Config.AuditConfig) : Config.DaemonConfig :=
  Config.mk_DaemonConfig (Config.mk_ServerEndpoint "host:9326" "token" Config.no_tls) (Config.mk_Workspace [] []) audit 0.

(** The checks of [prepareRun], on a workspace of the file system of the examples. *)
Definition prepare (cfg : option Config.DaemonConfig) (root : string) :=
  snd (prepareRun (H := Toy.fs) cfg root [] (Toy.start HandleExample.files)).

Example prepare_ok : is_ok (snd (prepare (Some (config audit)) "/w")) = true ∧ length (fst (prepare (Some (config audit)) "/w")) = 3.
Proof. vm_compute. by split. Qed.
Example prepare_driver :
  prepare (Some (config (Config.mk_AuditConfig true "oracle" "x" "" 0))) "/w" = ([], Err (ErrValidate Config.ErrAuditDriverInvalid)).
Proof. vm_compute. reflexivity. Qed.
Example prepare_relative : prepare (Some (config audit)) "w" = ([], Err (ErrWorkspace ErrWorkspaceRootNotAbs)).
Proof. vm_compute. reflexivity. Qed.
End RunExample.

Lemma audit_trail_witness :
  ∃ a s h, newAuditor (H2 := RunExample.db) RunExample.audit [] = (h, Ok (Some a)) ∧
    Recorder.reachable_from 1 s ∧ length (Recorder.accepted (Recorder.hist s)) = 2 ∧
    fst (trail (H := RunExample.db) (aud_store a) (Recorder.hist s) h) =
      h ++ (insert_of "INSERT INTO log (created_at_ms, request_id, operation, path, target, bytes, success, error) VALUES (?, ?, ?, ?, ?, ?, ?, ?)"
              <$> Recorder.accepted (Recorder.hist s)) ++ [AuditStore.DBClose].
Proof.
  destruct Recorder.example_states as (s & s' & s'' & H1 & H2 & H3 & H4 & H5 & H6 & H7).
  assert (Hs : Recorder.reachable_from 1 s'').
  { eapply Recorder.run_recorder_reachable, H3. eapply Recorder.run_recorder_reachable, H2. by eapply Recorder.new_reachable. }
  destruct (newAuditor RunExample.audit []) as [h [ [a|]|] ] eqn:E; [|vm_compute in E; discriminate E..].
  exists a, s'', h. split; [exact eq_refl|]. split; [exact Hs|]. split; [exact H5|].
  destruct (audit_trail RunExample.audit [] h a s'' E Hs) as (d & t & Hd & Ht & _ & _ & Hall).
  vm_compute in Hd. injection Hd as <-. vm_compute in Ht. injection Ht as <-. exact (Hall H7 H6).
Defined.
