(* ===== verification/DaemonStream.v ===== *)
(** * The goroutines of a session of the daemon (pkg/syncer/daemon.go, serveStream)

    The five goroutines that serve the stream, as steps that interleave: the
    send loop, the receive loop with the handlers of Handle, the watch loop of
    Watch, the forwarding of its changes and the heartbeat, with the two
    channels between them, the filter of own writes they share and their
    context.  One step is one operation on a channel or on the stream, or the
    work on one request or one file event, which is done in one piece. *)
From S2P Require Import Prelude GoPath PathFacts Safepath RelPath Proto OsFs Sensitive PathResolution Handle SelfWrite Scan Watch Daemon DaemonRun.
From S2P Require Config.
From stdpp Require Import options.

Definition daemonOutgoingBufferSize : nat := 64.
Definition daemonWatchEventBufferSize : nat := 64.

(** Where each goroutine is; what it holds is about to be put on a channel or
    sent.  The watcher starts with adding the directories. *)
Inductive sender_pc : Type := XSelect | XSend (m : DaemonMessage) | XEnded.
Inductive receiver_pc : Type := RRecv | RQueue (r : FileResponse) | REnded.
Inductive watcher_pc : Type := WStart | WSelect | WDeliver (c : FileChange) | WEnded.
Inductive forwarder_pc : Type := FSelect | FQueue (c : FileChange) | FEnded.
Inductive heart_pc : Type := HSelect | HQueue (timestamp : Z) | HEnded.

Record goroutines : Type := mk_goroutines {
  sender : sender_pc; receiver : receiver_pc; watcher : watcher_pc; forwarder : forwarder_pc; heart : heart_pc }.

(** The files that the calls of a request were to change, and the file events
    that were looked at, with the change each has led to. *)
Inductive log_entry : Type := Wrote (paths : list string) | Saw (ev : Event) (c : option FileChange).

(** [cancelled]: the context of the session has ended, which is also the one of
    the stream and of the group.  [finished]: what the goroutines returned, in
    the order they did.  The last fields are what has happened. *)
Record history : Type := mk_history {
  sent : list DaemonMessage;
  requests : list FileRequest;
  handled : list FileResponse;
  audited : list AuditRecord;
  log : list (Z * log_entry);
}.

Section machine.
Context `{FileSystem} `{Quoting} `{Doublestar} `{Watcher}.

Record St : Type := mk_St {
  env : Env;
  selfWrites : option selfWriteFilter;
  added : list string;
  sendQueue : list DaemonMessage;
  watchEvents : list FileChange;
  pcs : goroutines;
  cancelled : bool;
  finished : list (option stream_error);
  past : history;
}.

Definition set_sender x s : St :=
  mk_St (env s) (selfWrites s) (added s) (sendQueue s) (watchEvents s)
    (mk_goroutines x (receiver (pcs s)) (watcher (pcs s)) (forwarder (pcs s)) (heart (pcs s))) (cancelled s) (finished s) (past s).
Definition set_receiver x s : St :=
  mk_St (env s) (selfWrites s) (added s) (sendQueue s) (watchEvents s)
    (mk_goroutines (sender (pcs s)) x (watcher (pcs s)) (forwarder (pcs s)) (heart (pcs s))) (cancelled s) (finished s) (past s).
Definition set_watcher x s : St :=
  mk_St (env s) (selfWrites s) (added s) (sendQueue s) (watchEvents s)
    (mk_goroutines (sender (pcs s)) (receiver (pcs s)) x (forwarder (pcs s)) (heart (pcs s))) (cancelled s) (finished s) (past s).
Definition set_forwarder x s : St :=
  mk_St (env s) (selfWrites s) (added s) (sendQueue s) (watchEvents s)
    (mk_goroutines (sender (pcs s)) (receiver (pcs s)) (watcher (pcs s)) x (heart (pcs s))) (cancelled s) (finished s) (past s).
Definition set_heart x s : St :=
  mk_St (env s) (selfWrites s) (added s) (sendQueue s) (watchEvents s)
    (mk_goroutines (sender (pcs s)) (receiver (pcs s)) (watcher (pcs s)) (forwarder (pcs s)) x) (cancelled s) (finished s) (past s).
Definition set_queue q s : St :=
  mk_St (env s) (selfWrites s) (added s) q (watchEvents s) (pcs s) (cancelled s) (finished s) (past s).
Definition set_events q s : St :=
  mk_St (env s) (selfWrites s) (added s) (sendQueue s) q (pcs s) (cancelled s) (finished s) (past s).
Definition set_past h s : St :=
  mk_St (env s) (selfWrites s) (added s) (sendQueue s) (watchEvents s) (pcs s) (cancelled s) (finished s) h.
Definition cancel s : St :=
  mk_St (env s) (selfWrites s) (added s) (sendQueue s) (watchEvents s) (pcs s) true (finished s) (past s).

(** [start] and the group: a goroutine that returns an error cancels the context. *)
Definition finish (err : option stream_error) s : St :=
  mk_St (env s) (selfWrites s) (added s) (sendQueue s) (watchEvents s) (pcs s)
    (cancelled s || match err with Some _ => true | None => false end) (finished s ++ [err]) (past s).

Definition wrapped (what : string) (e : stream_error) : stream_error :=
  mk_stream_error (is_canceled e) (is_eof e) (what +:+ se_text e).

(** [select { case <-ctx.Done(): case sendQueue <- msg: }]: it goes on with
    [next] when the message is taken, and returns nil when the context has ended. *)
Definition queueDaemonMessage (queued : bool) (m : DaemonMessage) (next ended : St → St) (s : St) : option St :=
  if queued then
    if decide (length (sendQueue s) < daemonOutgoingBufferSize)
    then Some (next (set_queue (sendQueue s ++ [m]) s)) else None
  else if cancelled s then Some (finish None (ended s)) else None.

(** [<-ctx.Done()] *)
Definition on_done (ended : St → St) (s : St) : option St :=
  if cancelled s then Some (finish None (ended s)) else None.

(** ** The loops *)

Inductive action : Type :=
  | Cancel                                            (* the caller's context ends *)
  | SenderTakes | SenderDone | SendReturns (err : option stream_error)
  | Receives (msg : result stream_error ServerMessage) (now : Z) | ResponseQueued (queued : bool)
  | WatchStarts (new_watcher : option string) | WatchEvent (now : Z) (ev : Event) | WatchError | WatchClosed | WatchDone | Delivered (taken : bool)
  | ForwarderTakes | ForwarderDone | ChangeQueued (queued : bool)
  | Ticks (timestamp : Z) | HeartDone | HeartQueued (queued : bool).

Definition runSendLoop (a : action) (s : St) : option St :=
  match sender (pcs s), a with
  | XSelect, SenderDone => on_done (set_sender XEnded) s
  | XSelect, SenderTakes =>
    match sendQueue s with
    | [] => None
    | MsgNone :: q => Some (set_queue q s)
    | m :: q => Some (set_sender (XSend m) (set_queue q s))
    end
  | XSend m, SendReturns (Some err) => Some (finish (Some (wrapped "syncer: stream send: " err)) (set_sender XEnded s))
  | XSend m, SendReturns None =>
    let h := past s in
    Some (set_sender XSelect (set_past (mk_history (sent h ++ [m]) (requests h) (handled h) (audited h) (log h)) s))
  | _, _ => None
  end.

(** A request, at time [now]: the handler, what it remembers and its record.
    The handler remembers a write before it makes it; what it has changed is read
    off the calls it made. *)
Definition handle_request (opts : HandleOptions) (now : Z) (req : FileRequest) (s : St) : St :=
  let '(e, (resp, recs)) := Handle now (Some req) opts (env s) in
  let written := drop (length (remembered (env s))) (remembered e) in
  let made := drop (length (trace (env s))) (trace e) in
  let h := past s in
  set_receiver (RQueue resp)
    (mk_St e (foldl (λ f paths, Remember now paths f) (selfWrites s) written) (added s) (sendQueue s) (watchEvents s)
       (pcs s) (cancelled s) (finished s)
       (mk_history (sent h) (requests h ++ [req]) (handled h ++ [resp]) (audited h ++ recs)
          (log h ++ [(now, Wrote (targets made))]))).

Definition runRecvLoop (opts : HandleOptions) (a : action) (s : St) : option St :=
  match receiver (pcs s), a with
  | RRecv, Receives (Err err) _ => Some (finish (Some (wrapped "syncer: stream recv: " err)) (set_receiver REnded s))
  | RRecv, Receives (Ok (SrvRequest req)) now => Some (handle_request opts now req s)
  | RRecv, Receives (Ok _) _ => Some s
  | RQueue r, ResponseQueued queued =>
    queueDaemonMessage queued (MsgResponse r) (set_receiver RRecv) (set_receiver REnded) s
  | _, _ => None
  end.

Definition watch_failed (text : string) : option stream_error := Some (mk_stream_error false false text).

(** The start of [Watch], whose channel is not nil: what [fsnotify.NewWatcher]
    answers, and adding the directories. *)
Definition start_watch (opts : WatchOptions) (new_watcher : option string) (s : St) : St :=
  if negb (is_abs (s_root opts)) then finish (watch_failed "syncer: root path must be absolute") (set_watcher WEnded s)
  else
  match new_watcher with
  | Some err => finish (watch_failed ("syncer: new watcher: " +:+ err)) (set_watcher WEnded s)
  | None =>
    let '(e, (dirs, err)) := addTreeRecursively opts (env s) in
    let s := mk_St e (selfWrites s) dirs (sendQueue s) (watchEvents s) (pcs s) (cancelled s) (finished s) (past s) in
    match err with
    | Some err => finish (watch_failed ("syncer: initial add: " +:+ error_text err)) (set_watcher WEnded s)
    | None => set_watcher WSelect s
    end
  end.

(** [handleWatchEvent], until its change is to be delivered *)
Definition watch_event (opts : WatchOptions) (now : Z) (ev : Event) (s : St) : St :=
  let '(e, (res, sw)) := watchChangeFromEvent opts now (selfWrites s) ev (env s) in
  let dirs :=
    match res with
    | Some (_, true) => match watcher_add (added s) (ev_name ev) with None => added s ++ [ev_name ev] | Some _ => added s end
    | _ => added s
    end in
  let h := past s in
  let s := mk_St e sw dirs (sendQueue s) (watchEvents s) (pcs s) (cancelled s) (finished s)
    (mk_history (sent h) (requests h) (handled h) (audited h) (log h ++ [(now, Saw ev (fst <$> res))])) in
  match res with Some (c, _) => set_watcher (WDeliver c) s | None => s end.

Definition runWatchLoop (opts : WatchOptions) (a : action) (s : St) : option St :=
  match watcher (pcs s), a with
  | WStart, WatchStarts new_watcher => Some (start_watch opts new_watcher s)
  | WSelect, WatchDone => on_done (set_watcher WEnded) s
  | WSelect, WatchError => Some s
  | WSelect, WatchClosed => Some (finish None (set_watcher WEnded s))
  | WSelect, WatchEvent now ev => Some (watch_event opts now ev s)
  | WDeliver c, Delivered taken =>
    if taken then
      if decide (length (watchEvents s) < daemonWatchEventBufferSize)
      then Some (set_watcher WSelect (set_events (watchEvents s ++ [c]) s)) else None
    else if cancelled s then Some (set_watcher WSelect s) else None
  | _, _ => None
  end.

Definition forwardWatchEvents (a : action) (s : St) : option St :=
  match forwarder (pcs s), a with
  | FSelect, ForwarderDone => on_done (set_forwarder FEnded) s
  | FSelect, ForwarderTakes =>
    match watchEvents s with [] => None | c :: q => Some (set_forwarder (FQueue c) (set_events q s)) end
  | FQueue c, ChangeQueued queued =>
    queueDaemonMessage queued (MsgChange c) (set_forwarder FSelect) (set_forwarder FEnded) s
  | _, _ => None
  end.

Definition runHeartbeatLoop (a : action) (s : St) : option St :=
  match heart (pcs s), a with
  | HSelect, HeartDone => on_done (set_heart HEnded) s
  | HSelect, Ticks t => Some (set_heart (HQueue t) s)
  | HQueue t, HeartQueued queued =>
    queueDaemonMessage queued (MsgHeartbeat t) (set_heart HSelect) (set_heart HEnded) s
  | _, _ => None
  end.

(** [serveStream]: what it makes of the configuration and the dependencies of the
    run, the five goroutines, and what it returns once they have ended. *)
Definition handle_options (d : deps) : HandleOptions :=
  mk_HandleOptions (dep_root d) 0 true (Some (dep_filter d)) (match dep_auditor d with Some _ => true | None => false end).
Definition watch_options (d : deps) : WatchOptions :=
  mk_ScanOptions (dep_root d) (Config.Exclude (Config.WorkspaceOf (dep_config d))) (Some (dep_filter d)).

Definition start (d : deps) (e : Env) : St :=
  mk_St e (Some (newSelfWriteFilter (Config.SelfWriteTTL (dep_config d)))) [] [] []
    (mk_goroutines XSelect RRecv WStart FSelect HSelect) false [] (mk_history [] [] [] [] []).

Definition exec (d : deps) (a : action) (s : St) : option St :=
  match a with
  | Cancel => Some (cancel s)
  | SenderTakes | SenderDone | SendReturns _ => runSendLoop a s
  | Receives _ _ | ResponseQueued _ => runRecvLoop (handle_options d) a s
  | WatchStarts _ | WatchEvent _ _ | WatchError | WatchClosed | WatchDone | Delivered _ => runWatchLoop (watch_options d) a s
  | ForwarderTakes | ForwarderDone | ChangeQueued _ => forwardWatchEvents a s
  | Ticks _ | HeartDone | HeartQueued _ => runHeartbeatLoop a s
  end.

Fixpoint exec_all (d : deps) (acts : list action) (s : St) : option St :=
  match acts with [] => Some s | a :: acts => s ← exec d a s; exec_all d acts s end.

Definition all_ended (s : St) : bool :=
  match pcs s with mk_goroutines XEnded REnded WEnded FEnded HEnded => true | _ => false end.

Definition returns (s : St) : option (option daemon_error) :=
  if all_ended s then Some (serveStream (cancelled s) (finished s)) else None.
End machine.

(** ** What is on its way *)

Definition responses_of (ms : list DaemonMessage) : list FileResponse :=
  omap (λ m, match m with MsgResponse r => Some r | _ => None end) ms.
Definition changes_of (ms : list DaemonMessage) : list FileChange :=
  omap (λ m, match m with MsgChange c => Some c | _ => None end) ms.

Lemma responses_of_app ms ms' : responses_of (ms ++ ms') = responses_of ms ++ responses_of ms'.
Proof. apply omap_app. Qed.
Lemma changes_of_app ms ms' : changes_of (ms ++ ms') = changes_of ms ++ changes_of ms'.
Proof. apply omap_app. Qed.

Lemma responses_of_cons m ms : responses_of (m :: ms) = responses_of [m] ++ responses_of ms.
Proof. apply (responses_of_app [m]). Qed.
Lemma changes_of_cons m ms : changes_of (m :: ms) = changes_of [m] ++ changes_of ms.
Proof. apply (changes_of_app [m]). Qed.
Arguments responses_of : simpl never.
Arguments changes_of : simpl never.

(** What the file events have led to. *)
Definition observed (l : list (Z * log_entry)) : list FileChange :=
  omap (λ e, match snd e with Saw _ c => c | Wrote _ => None end) l.

Lemma observed_wrote l now paths : observed (l ++ [(now, Wrote paths)]) = observed l.
Proof. unfold observed. rewrite omap_app. by rewrite app_nil_r. Qed.

Lemma observed_saw l now ev c : observed (l ++ [(now, Saw ev c)]) = observed l ++ match c with Some c => [c] | None => [] end.
Proof. unfold observed. rewrite omap_app. by destruct c. Qed.
Arguments observed : simpl never.

Section flows.
Context `{FileSystem} `{Quoting} `{Doublestar} `{Watcher}.

Definition in_send (s : St) : list DaemonMessage := match sender (pcs s) with XSend m => [m] | _ => [] end.
Definition outgoing (s : St) : list DaemonMessage := sent (past s) ++ in_send s ++ sendQueue s.

(** Every response and every change, from the one sent first to the one that has
    come last. *)
Definition responses_flow (s : St) : list FileResponse :=
  responses_of (outgoing s) ++ match receiver (pcs s) with RQueue r => [r] | _ => [] end.
Definition changes_flow (s : St) : list FileChange :=
  changes_of (outgoing s) ++ (match forwarder (pcs s) with FQueue c => [c] | _ => [] end) ++ watchEvents s ++
  match watcher (pcs s) with WDeliver c => [c] | _ => [] end.

(** A flow goes on, and loses something only when the context has ended. *)
Definition flows {A} (ended : bool) (flow flow' all all' : list A) : Prop :=
  ∃ new, all' = all ++ new ∧ flow' `sublist_of` flow ++ new ∧ (ended = false → flow' = flow ++ new).

Lemma flows_same {A} ended (flow flow' all : list A) : flow' = flow → flows ended flow flow' all all.
Proof. intros ->. exists []. by rewrite !app_nil_r. Qed.
Lemma flows_new {A} ended (flow flow' all : list A) new : flow' = flow ++ new → flows ended flow flow' all (all ++ new).
Proof. intros ->. by exists new. Qed.
Lemma flows_lost {A} (flow flow' all : list A) : flow' `sublist_of` flow → flows true flow flow' all all.
Proof. intros Hs. exists []. by rewrite !app_nil_r. Qed.

(** One constructor for each thing a step can do. *)
Inductive step (d : deps) (s : St) : St → Prop :=
  | step_cancel : step d s (cancel s)
  | step_stays : step d s s
  | step_skip q : sender (pcs s) = XSelect → sendQueue s = MsgNone :: q → step d s (set_queue q s)
  | step_take m q : sender (pcs s) = XSelect → sendQueue s = m :: q → m ≠ MsgNone → step d s (set_sender (XSend m) (set_queue q s))
  | step_sent m : sender (pcs s) = XSend m →
      step d s (set_sender XSelect (set_past (mk_history (sent (past s) ++ [m]) (requests (past s)) (handled (past s))
        (audited (past s)) (log (past s))) s))
  | step_send_failed m err : sender (pcs s) = XSend m → step d s (finish (Some err) (set_sender XEnded s))
  | step_recv_failed err : receiver (pcs s) = RRecv → step d s (finish (Some err) (set_receiver REnded s))
  | step_request now req : receiver (pcs s) = RRecv → step d s (handle_request (handle_options d) now req s)
  | step_response r : receiver (pcs s) = RQueue r → length (sendQueue s) < daemonOutgoingBufferSize →
      step d s (set_receiver RRecv (set_queue (sendQueue s ++ [MsgResponse r]) s))
  | step_watch o : watcher (pcs s) = WStart → step d s (start_watch (watch_options d) o s)
  | step_event now ev : watcher (pcs s) = WSelect → step d s (watch_event (watch_options d) now ev s)
  | step_closed : watcher (pcs s) = WSelect → step d s (finish None (set_watcher WEnded s))
  | step_delivered c : watcher (pcs s) = WDeliver c → length (watchEvents s) < daemonWatchEventBufferSize →
      step d s (set_watcher WSelect (set_events (watchEvents s ++ [c]) s))
  | step_undelivered c : watcher (pcs s) = WDeliver c → cancelled s = true → step d s (set_watcher WSelect s)
  | step_forward c q : forwarder (pcs s) = FSelect → watchEvents s = c :: q → step d s (set_forwarder (FQueue c) (set_events q s))
  | step_change c : forwarder (pcs s) = FQueue c → length (sendQueue s) < daemonOutgoingBufferSize →
      step d s (set_forwarder FSelect (set_queue (sendQueue s ++ [MsgChange c]) s))
  | step_tick t : heart (pcs s) = HSelect → step d s (set_heart (HQueue t) s)
  | step_heartbeat t : heart (pcs s) = HQueue t → length (sendQueue s) < daemonOutgoingBufferSize →
      step d s (set_heart HSelect (set_queue (sendQueue s ++ [MsgHeartbeat t]) s))
  | step_sender_done : sender (pcs s) = XSelect → cancelled s = true → step d s (finish None (set_sender XEnded s))
  | step_receiver_done r : receiver (pcs s) = RQueue r → cancelled s = true → step d s (finish None (set_receiver REnded s))
  | step_watcher_done : watcher (pcs s) = WSelect → cancelled s = true → step d s (finish None (set_watcher WEnded s))
  | step_forwarder_done pc : forwarder (pcs s) = pc → pc ≠ FEnded → cancelled s = true → step d s (finish None (set_forwarder FEnded s))
  | step_heart_done pc : heart (pcs s) = pc → pc ≠ HEnded → cancelled s = true → step d s (finish None (set_heart HEnded s)).

Lemma exec_step d a s s' : exec d a s = Some s' → step d s s'.
Proof.
  intros Hs. destruct a; cbn [exec] in Hs;
    unfold runSendLoop, runRecvLoop, runWatchLoop, forwardWatchEvents, runHeartbeatLoop, queueDaemonMessage, on_done in Hs;
    repeat (case_match; try discriminate); simplify_eq; by econstructor.
Qed.

(** The steps that call the other components, by what these answer. *)
Lemma handle_request_eq opts now req s : is_abs (Root opts) = true → ∃ e resp recs written changed,
  ResponseId resp = RequestId req ∧
  (∀ p, p ∈ changed → ∃ op, Proto.Op req = Some op ∧ written = [op_paths op] ∧ names opts op p) ∧
  handle_request opts now req s = set_receiver (RQueue resp)
    (mk_St e (foldl (λ f paths, Remember now paths f) (selfWrites s) written) (added s) (sendQueue s) (watchEvents s)
       (pcs s) (cancelled s) (finished s)
       (mk_history (sent (past s)) (requests (past s) ++ [req]) (handled (past s) ++ [resp]) (audited (past s) ++ recs)
          (log (past s) ++ [(now, Wrote changed)]))).
Proof.
  intros Hroot. unfold handle_request. pose proof (Handle_id now req opts (env s) Hroot) as Hid.
  pose proof (handled_targets opts now req (env s) Hroot) as (made & written & Ht & Hr & Hn). unfold Handle.handled in Ht, Hr.
  destruct (Handle now (Some req) opts (env s)) as [e [resp recs] ]. cbn in Ht, Hr.
  exists e, resp, recs, written, (targets made). by rewrite Ht, Hr, !drop_app_length.
Qed.

Lemma start_watch_eq opts o s : ∃ e dirs,
  let s1 := mk_St e (selfWrites s) dirs (sendQueue s) (watchEvents s) (pcs s) (cancelled s) (finished s) (past s) in
  start_watch opts o s = set_watcher WSelect s1 ∨ ∃ err, start_watch opts o s = finish (Some err) (set_watcher WEnded s1).
Proof.
  unfold start_watch. destruct (negb (is_abs (s_root opts))).
  { exists (env s), (added s). right. eexists. by destruct s. }
  destruct o as [err|]. { exists (env s), (added s). right. eexists. by destruct s. }
  destruct (addTreeRecursively opts (env s)) as [e [dirs [err|] ] ]; exists e, dirs; cbn; eauto.
Qed.

Lemma watch_event_eq opts now ev s : ∃ e sw dirs c,
  let s1 := mk_St e sw dirs (sendQueue s) (watchEvents s) (pcs s) (cancelled s) (finished s)
    (mk_history (sent (past s)) (requests (past s)) (handled (past s)) (audited (past s)) (log (past s) ++ [(now, Saw ev c)])) in
  watch_event opts now ev s = match c with Some c => set_watcher (WDeliver c) s1 | None => s1 end ∧
  (sw = selfWrites s ∨ ∃ rel, sw = fst (ShouldSuppress now rel (selfWrites s))) ∧
  ∀ c', c = Some c' → change_of opts ev c' ∧
    ∃ rel, watchRelativePath (s_root opts) (ev_name ev) = Some rel ∧ snd (ShouldSuppress now rel (selfWrites s)) = false.
Proof.
  unfold watch_event. pose proof (watchChange_spec opts now (selfWrites s) ev (env s)) as Hspec.
  destruct (watchChangeFromEvent opts now (selfWrites s) ev (env s)) as [e [res sw] ]. cbn in Hspec. destruct Hspec as [Hsw Hc].
  destruct res as [ [c b] |].
  - eexists e, sw, _, (Some c). split_and!; [reflexivity|done|]. intros c' [= <-]. by eapply Hc.
  - eexists e, sw, _, None. split_and!; [reflexivity|done|done].
Qed.

(** Puts in what the other components have answered. *)
Ltac answered :=
  try match goal with
  | Hroot : is_abs (dep_root ?d) = true |- context [handle_request (handle_options ?d) ?n ?r ?s] =>
    let Hid := fresh "Hid" in let Hn := fresh "Hn" in
    destruct (handle_request_eq (handle_options d) n r s Hroot) as (? & ? & ? & ? & ? & Hid & Hn & ->)
  | |- context [start_watch ?o ?w ?s] => destruct (start_watch_eq o w s) as (? & ? & [->|[? ->] ])
  | |- context [watch_event ?o ?n ?r ?s] =>
    let Hsw := fresh "Hsw" in let Hc := fresh "Hc" in
    destruct (watch_event_eq o n r s) as (? & ? & ? & [?|] & -> & Hsw & Hc)
  end.

(** What a step adds to a flow, or that it comes with the end. *)
Ltac flow_step :=
  cbn; rewrite ?orb_true_r;
  repeat match goal with
  | E : sender _ = _ |- _ => rewrite !E; clear E
  | E : receiver _ = _ |- _ => rewrite !E; clear E
  | E : watcher _ = _ |- _ => rewrite !E; clear E
  | E : forwarder _ = _ |- _ => rewrite !E; clear E
  | E : sendQueue _ = _ |- _ => rewrite !E; clear E
  | E : watchEvents _ = _ |- _ => rewrite !E; clear E
  | E : cancelled _ = true |- _ => rewrite !E; clear E
  end;
  cbn; rewrite ?orb_true_r, ?observed_wrote, ?observed_saw, ?responses_of_app, ?changes_of_app, ?(responses_of_cons _ (sendQueue _)),
    ?(changes_of_cons _ (sendQueue _)), ?app_nil_r, <-?app_assoc;
  first
  [ apply flows_same; reflexivity
  | apply flows_new; rewrite <-?app_assoc; reflexivity
  | apply flows_lost;
    repeat first [reflexivity | apply sublist_app; [reflexivity|]
      | apply sublist_inserts_r; reflexivity | apply sublist_inserts_l | apply sublist_nil_l ] ].

Context (d : deps) (Hroot : is_abs (dep_root d) = true).

Lemma step_responses s s' : step d s s' →
  flows (cancelled s') (responses_flow s) (responses_flow s') (handled (past s)) (handled (past s')).
Proof using Hroot.
  unfold responses_flow, outgoing, in_send. intros [].
  all: answered.
  all: flow_step.
Qed.

Lemma step_changes s s' : step d s s' →
  flows (cancelled s') (changes_flow s) (changes_flow s') (observed (log (past s))) (observed (log (past s'))).
Proof using Hroot.
  unfold changes_flow, outgoing, in_send. intros [].
  all: answered.
  all: flow_step.
Qed.

(** ** The invariant of a session *)

Definition reachable (e : Env) (s : St) : Prop := ∃ acts, exec_all d acts (start d e) = Some s.

(** What the sender may send: the file tree was sent before. *)
Definition is_kind (m : DaemonMessage) : Prop := match m with MsgFileTree _ | MsgNone => False | _ => True end.

Definition log_sound (l : list (Z * log_entry)) : Prop :=
  Forall (λ e, match snd e with Saw ev (Some c) => change_of (watch_options d) ev c | _ => True end) l.

Record inv (s : St) : Prop := mk_inv {
  in_ids : ResponseId <$> handled (past s) = RequestId <$> requests (past s);
  in_resp : responses_flow s `sublist_of` handled (past s);
  in_resp_all : cancelled s = false → responses_flow s = handled (past s);
  in_chg : changes_flow s `sublist_of` observed (log (past s));
  in_chg_all : cancelled s = false → changes_flow s = observed (log (past s));
  in_sound : log_sound (log (past s));
  in_queue : length (sendQueue s) ≤ daemonOutgoingBufferSize;
  in_events : length (watchEvents s) ≤ daemonWatchEventBufferSize;
  in_kinds : Forall is_kind (outgoing s);
  in_live : cancelled s = false →
    sender (pcs s) ≠ XEnded ∧ receiver (pcs s) ≠ REnded ∧ forwarder (pcs s) ≠ FEnded ∧ heart (pcs s) ≠ HEnded;
}.

Lemma flows_sublist {A} ended (flow flow' all all' : list A) :
  flows ended flow flow' all all' → flow `sublist_of` all → flow' `sublist_of` all'.
Proof. intros (new & -> & Hs & _) Hf. etrans; [exact Hs|]. by apply sublist_app. Qed.

Lemma flows_eq {A} (flow flow' all all' : list A) : flows false flow flow' all all' → flow = all → flow' = all'.
Proof. intros (new & -> & _ & Hf) <-. by apply Hf. Qed.

Lemma step_ids s s' : step d s s' →
  ResponseId <$> handled (past s) = RequestId <$> requests (past s) →
  ResponseId <$> handled (past s') = RequestId <$> requests (past s').
Proof using Hroot.
  intros [] Hi; answered; cbn; try done. rewrite !fmap_app, Hi. cbn. by f_equal; f_equal.
Qed.

Lemma step_sound s s' : step d s s' → log_sound (log (past s)) → log_sound (log (past s')).
Proof using Hroot.
  intros [] Hi; answered; cbn; try done; unfold log_sound; rewrite Forall_app; (split; [done|]).
  - by constructor.
  - constructor; [|done]. by apply Hc.
  - by constructor.
Qed.

Lemma step_bounds s s' : step d s s' →
  length (sendQueue s) ≤ daemonOutgoingBufferSize → length (watchEvents s) ≤ daemonWatchEventBufferSize →
  length (sendQueue s') ≤ daemonOutgoingBufferSize ∧ length (watchEvents s') ≤ daemonWatchEventBufferSize.
Proof using Hroot.
  intros [] Hq He; answered; cbn; rewrite ?length_app; cbn; try (split; lia);
    try match goal with E : sendQueue _ = _ |- _ => rewrite E in Hq; cbn in Hq; split; lia end.
  match goal with E : watchEvents _ = _ |- _ => rewrite E in He; cbn in He; split; lia end.
Qed.

Lemma step_kinds s s' : step d s s' → Forall is_kind (outgoing s) → Forall is_kind (outgoing s').
Proof using Hroot.
  unfold outgoing, in_send. rewrite !Forall_app.
  intros [] (Hs & Hi & Hq); answered; cbn; rewrite ?Forall_app; try (by split_and!);
    repeat match goal with
    | E : sendQueue s = _ |- _ => rewrite E in Hq; clear E
    | E : sender (pcs s) = XSend _ |- _ => rewrite E in Hi; clear E
    | F : Forall _ (_ :: _) |- _ => apply Forall_cons in F as [? ?]
    end; split_and!; repeat constructor; done.
Qed.

Lemma step_live s s' : step d s s' →
  (cancelled s = false →
    sender (pcs s) ≠ XEnded ∧ receiver (pcs s) ≠ REnded ∧ forwarder (pcs s) ≠ FEnded ∧ heart (pcs s) ≠ HEnded) →
  cancelled s' = false →
    sender (pcs s') ≠ XEnded ∧ receiver (pcs s') ≠ REnded ∧ forwarder (pcs s') ≠ FEnded ∧ heart (pcs s') ≠ HEnded.
Proof using Hroot.
  intros [] Hl; answered; cbn; rewrite ?orb_true_r, ?orb_false_r; intros Hcan; try done; try congruence;
    specialize (Hl Hcan); intuition congruence.
Qed.

Lemma step_cancelled s s' : step d s s' → cancelled s' = false → cancelled s = false.
Proof using Hroot. intros []; answered; cbn; rewrite ?orb_true_r, ?orb_false_r; done. Qed.

Lemma inv_step s s' : step d s s' → inv s → inv s'.
Proof using Hroot.
  intros Hs [Hi Hr Hra Hc Hca Hso Hq He Hk Hl].
  pose proof (step_responses _ _ Hs) as Hfr. pose proof (step_changes _ _ Hs) as Hfc.
  destruct (step_bounds _ _ Hs Hq He). constructor; try done.
  - by eapply step_ids.
  - by eapply flows_sublist.
  - intros E. rewrite E in Hfr. eapply flows_eq; [exact Hfr|]. by eapply Hra, step_cancelled.
  - by eapply flows_sublist.
  - intros E. rewrite E in Hfc. eapply flows_eq; [exact Hfc|]. by eapply Hca, step_cancelled.
  - by eapply step_sound.
  - by eapply step_kinds.
  - by eapply step_live.
Qed.

Lemma inv_start e : inv (start d e).
Proof. constructor; cbn; try done; try lia; by repeat constructor. Qed.

Lemma exec_all_snoc acts a s : exec_all d (acts ++ [a]) s = (s ← exec_all d acts s; exec d a s).
Proof.
  revert s. induction acts as [|b acts IH]; intros s; cbn; [by destruct (exec d a s)|].
  destruct (exec d b s); cbn; [apply IH|done].
Qed.

(** What holds at the start and through every step holds of every run. *)
Lemma reachable_ind (P : St → Prop) e :
  P (start d e) → (∀ s s', reachable e s → step d s s' → P s → P s') → ∀ s, reachable e s → P s.
Proof.
  intros H0' Hstep s [acts Hs]. revert s Hs. induction acts as [|a acts IH] using rev_ind; intros s; [by intros [= <-]|].
  rewrite exec_all_snoc. destruct (exec_all d acts (start d e)) as [s1|] eqn:E; [|done]. cbn. intros Ha%exec_step.
  apply (Hstep s1 s); [by exists acts|done|by apply IH].
Qed.

Lemma stream_inv e s : reachable e s → inv s.
Proof using Hroot. apply reachable_ind; [apply inv_start|]. intros s1 s2 _ Hs. by apply inv_step. Qed.

(** ** The own writes *)

(** No change is about a file that a call of the daemon was to change within the
    time to live before: the event it stands for does not name that file. *)
Definition quiet (ttl : Z) (l : list (Z * log_entry)) : Prop :=
  ∀ i j now ev c t paths p, l !! j = Some (now, Saw ev (Some c)) → l !! i = Some (t, Wrote paths) → i < j →
    p ∈ paths → path_clean (ev_name ev) = path_clean p → (t + ttl ≤ now)%Z.

Definition times_ordered (l : list (Z * log_entry)) : Prop := StronglySorted Z.le (fst <$> l).

(** The requests name their paths in normal form, as the server's do. *)
Definition plain (reqs : list FileRequest) : Prop :=
  Forall (λ req, ∀ op q, Proto.Op req = Some op → q ∈ op_paths op → ToSlash q = normal_form q) reqs.

(** The filter still has what was changed within the time to live. *)
Definition covers (ttl : Z) (l : list (Z * log_entry)) (last : Z) (m : gmap string Z) : Prop :=
  ∀ t paths p t', (t, Wrote paths) ∈ l → p ∈ paths → (last ≤ t' < t + ttl)%Z →
    ∃ q expiry, resolveWorkspacePath (dep_root d) q = Ok p ∧ m !! normal_form q = Some expiry ∧ (t' < expiry)%Z.

Definition own (ttl : Z) (l : list (Z * log_entry)) (sw : option selfWriteFilter) : Prop :=
  ∃ m, sw = Some (mk_selfWriteFilter ttl m) ∧ quiet ttl l ∧
    ∀ last, Forall (λ t, t ≤ last)%Z (fst <$> l) → covers ttl l last m.

Lemma times_snoc l x : times_ordered (l ++ [x]) → times_ordered l ∧ Forall (λ t, t ≤ fst x)%Z (fst <$> l).
Proof.
  unfold times_ordered. rewrite fmap_app. cbn. intros Hs. split; [by eapply StronglySorted_app_1_l|].
  apply Forall_forall. intros t Ht. eapply StronglySorted_app_1_elem_of; [exact Hs|done|by left].
Qed.

Lemma quiet_snoc ttl l now e :
  quiet ttl l → (∀ ev c, e = Saw ev (Some c) → ∀ t paths p, (t, Wrote paths) ∈ l → p ∈ paths →
    path_clean (ev_name ev) = path_clean p → (t + ttl ≤ now)%Z) → quiet ttl (l ++ [(now, e)]).
Proof.
  intros Hq He i j now' ev c t paths p Hj Hi Hlt. apply lookup_app_Some in Hj as [Hj|[Hj1 Hj] ].
  - apply lookup_app_Some in Hi as [Hi|[? _] ]; [by apply (Hq i j now' ev c)|]. apply lookup_lt_Some in Hj. lia.
  - destruct (j - length l) as [|k] eqn:Ek; [|done]. injection Hj as -> ->.
    rewrite lookup_app_l in Hi by lia. apply (He ev c eq_refl). by eapply list_elem_of_lookup_2.
Qed.

Lemma covers_later ttl l last last' m : (last ≤ last')%Z → covers ttl l last m → covers ttl l last' m.
Proof. intros Hl Hc t paths p t' Hin Hp Ht'. apply (Hc t paths p t' Hin Hp). lia. Qed.

Lemma covers_prune ttl l now m : covers ttl l now m → covers ttl l now (prune now m).
Proof.
  intros Hc t paths p t' Hin Hp Ht'. destruct (Hc t paths p t' Hin Hp Ht') as (q & x & Hq & Hx & Hlt).
  exists q, x. split_and!; [done| |done]. apply map_lookup_filter_Some. split; [done|]. lia.
Qed.

Lemma covers_snoc ttl l last m now e : covers ttl l last m →
  (∀ paths p t', e = Wrote paths → p ∈ paths → (last ≤ t' < now + ttl)%Z →
    ∃ q expiry, resolveWorkspacePath (dep_root d) q = Ok p ∧ m !! normal_form q = Some expiry ∧ (t' < expiry)%Z) →
  covers ttl (l ++ [(now, e)]) last m.
Proof.
  intros Hc He t paths p t' [Hin|Hin%list_elem_of_singleton]%elem_of_app Hp Ht'; [by apply (Hc t paths p)|].
  injection Hin as -> <-. by apply (He paths).
Qed.

Lemma covers_remember ttl l now m paths : Forall (λ t, t ≤ now)%Z (fst <$> l) → covers ttl l now m →
  covers ttl l now (foldl (λ m path, <[ToSlash path := (now + ttl)%Z]> m) m paths).
Proof.
  intros Hle Hc t ps p t' Hin Hp Ht'. destruct (Hc t ps p t' Hin Hp Ht') as (q & x & Hq & Hx & Hlt).
  exists q. rewrite Remember_lookup, Hx. case_bool_decide; [|by exists x]. exists (now + ttl)%Z. split_and!; [done..|].
  rewrite Forall_forall in Hle. assert (t ≤ now)%Z; [|lia]. apply Hle, list_elem_of_fmap. by exists (t, Wrote ps).
Qed.

Lemma Remember_entries ttl now paths m : (0 < ttl)%Z → Remember now paths (Some (mk_selfWriteFilter ttl m)) =
  Some (mk_selfWriteFilter ttl (foldl (λ m path, <[ToSlash path := (now + ttl)%Z]> m) m paths)).
Proof. intros. unfold Remember. cbn. by rewrite bool_decide_eq_false_2 by lia. Qed.

Lemma covers_remember_all ttl l now m written : (0 < ttl)%Z → Forall (λ t, t ≤ now)%Z (fst <$> l) → covers ttl l now m →
  ∃ m', foldl (λ f paths, Remember now paths f) (Some (mk_selfWriteFilter ttl m)) written = Some (mk_selfWriteFilter ttl m') ∧
    covers ttl l now m'.
Proof.
  intros Httl Hle. revert m. induction written as [|paths written IH]; intros m Hc; [by exists m|].
  cbn [foldl]. rewrite Remember_entries by done. by apply IH, covers_remember.
Qed.

(** A request: what it is to change is remembered before. *)
Lemma own_request ttl l sw now req written changed : (0 < ttl)%Z → times_ordered (l ++ [(now, Wrote changed)]) → plain [req] →
  (∀ p, p ∈ changed → ∃ op, Proto.Op req = Some op ∧ written = [op_paths op] ∧ names (handle_options d) op p) →
  own ttl l sw → own ttl (l ++ [(now, Wrote changed)]) (foldl (λ f paths, Remember now paths f) sw written).
Proof.
  intros Httl [_ Hle]%times_snoc [Hplain _]%Forall_cons Hch (m & -> & Hq & Hc). cbn in Hle.
  destruct (covers_remember_all ttl l now m written Httl Hle (Hc now Hle)) as (m' & Hm' & Hc').
  exists m'. split; [done|]. split; [by apply quiet_snoc|]. intros last Hlast.
  assert (Hnow : (now ≤ last)%Z) by (rewrite fmap_app in Hlast; by apply Forall_app in Hlast as [_ [Hnow _]%Forall_cons]).
  apply (covers_later _ _ now); [done|]. apply covers_snoc; [done|]. intros paths p t' [= <-] Hp Ht'.
  destruct (Hch p Hp) as (op & Hop & -> & q & Hin & Hres). exists q, (now + ttl)%Z. split; [done|]. split; [|lia].
  cbn [foldl] in Hm'. rewrite Remember_entries in Hm' by done. injection Hm' as <-.
  rewrite <-(Hplain op q Hop Hin), Remember_lookup, bool_decide_eq_true_2; [done|]. by apply list_elem_of_fmap_2.
Qed.

(** The relative path of an event about the file of a request. *)
Lemma event_relative name p q rel : resolveWorkspacePath (dep_root d) q = Ok p → path_clean name = path_clean p →
  watchRelativePath (dep_root d) name = Some rel → rel = normal_form q.
Proof using Hroot.
  intros Hq Hname. unfold watchRelativePath. replace (filepath_rel (dep_root d) name) with (filepath_rel (dep_root d) p)
    by (unfold filepath_rel; by rewrite Hname).
  destruct (resolveWorkspacePath_confined _ _ _ Hroot Hq) as [Hp _].
  pose proof (resolveWorkspacePath_elems _ _ _ Hroot Hq) as He.
  rewrite (filepath_rel_abs _ _ [] (clean_elems q)) by (rewrite ?He, ?strip_common_app; done). rewrite He. cbn [length replicate app].
  destruct (decide _) as [|Hne]; [done|]. rewrite ToSlash_id by apply clean_elems_no_bslash.
  destruct (_ || _); [done|]. by intros [= <-].
Qed.

(** An event: what is remembered is not reported. *)
Lemma own_saw ttl l sw sw' now ev c : (0 < ttl)%Z → times_ordered (l ++ [(now, Saw ev c)]) →
  (sw' = sw ∨ ∃ rel, sw' = fst (ShouldSuppress now rel sw)) →
  (∀ c', c = Some c' → change_of (watch_options d) ev c' ∧
    ∃ rel, watchRelativePath (s_root (watch_options d)) (ev_name ev) = Some rel ∧ snd (ShouldSuppress now rel sw) = false) →
  own ttl l sw → own ttl (l ++ [(now, Saw ev c)]) sw'.
Proof using Hroot.
  intros Httl [_ Hle]%times_snoc Hsw Hc (m & -> & Hq & Hcov). cbn in Hle. specialize (Hcov now Hle).
  assert (Hm : ∃ m', sw' = Some (mk_selfWriteFilter ttl m') ∧ (m' = m ∨ m' = prune now m)).
  { destruct Hsw as [->|[rel ->] ]; [by exists m; auto|]. unfold ShouldSuppress. cbn. rewrite bool_decide_eq_false_2 by lia. eauto. }
  destruct Hm as (m' & -> & Hm). exists m'. split; [done|]. split.
  - apply quiet_snoc; [done|]. intros ev' c' [= <- ->] t paths p Hin Hp Hname.
    destruct (Hc c' eq_refl) as [_ (rel & Hrel & Hno)]. destruct (decide (t + ttl ≤ now)%Z) as [|Hlt]; [done|]. exfalso.
    destruct (Hcov t paths p now Hin Hp ltac:(lia)) as (q & x & Hres & Hx & Hnow).
    apply (event_relative _ p q rel Hres Hname) in Hrel as ->.
    unfold ShouldSuppress in Hno. cbn in Hno. rewrite bool_decide_eq_false_2 in Hno by lia. cbn in Hno.
    rewrite prune_lookup, (ToSlash_id (normal_form q)), Hx, bool_decide_eq_true_2 in Hno; [done|done|apply normal_form_no_bslash].
  - intros last Hlast. rewrite fmap_app in Hlast. apply Forall_app in Hlast as [_ [Hnow _]%Forall_cons].
    apply (covers_later _ _ now); [done|]. apply covers_snoc; [|done].
    destruct Hm as [-> | ->]; [done|by apply covers_prune].
Qed.

Lemma plain_app l l' : plain (l ++ l') ↔ plain l ∧ plain l'.
Proof. apply Forall_app. Qed.

Lemma step_own ttl s s' : (0 < ttl)%Z → step d s s' → times_ordered (log (past s')) → plain (requests (past s')) →
  own ttl (log (past s)) (selfWrites s) → own ttl (log (past s')) (selfWrites s').
Proof using Hroot.
  intros Httl [] Hord; revert Hord; answered; cbn; try done; intros Hord Hpl Hown.
  - apply plain_app in Hpl as [_ Hpl]. by eapply own_request.
  - by eapply own_saw.
  - by eapply own_saw.
Qed.

Lemma step_ordered s s' : step d s s' → times_ordered (log (past s')) ∧ plain (requests (past s')) →
  times_ordered (log (past s)) ∧ plain (requests (past s)).
Proof using Hroot.
  intros []; answered; cbn; try done; unfold times_ordered; rewrite ?plain_app, fmap_app;
    intros [?%StronglySorted_app_1_l ?]; naive_solver.
Qed.

Lemma reachable_own e s : (0 < Config.SelfWriteTTL (dep_config d))%Z → reachable e s →
  times_ordered (log (past s)) ∧ plain (requests (past s)) →
  own (Config.SelfWriteTTL (dep_config d)) (log (past s)) (selfWrites s).
Proof using Hroot.
  intros Httl Hs. pattern s. revert s Hs. apply reachable_ind.
  - intros _. exists ∅. split_and!; [done|intros i j ? ? ? ? ? ? Hj; by destruct j|].
    intros last _ t ? ? ? Hin. by apply not_elem_of_nil in Hin.
  - intros s1 s2 _ Hs IH Hord. eapply step_own; [done|done|apply Hord|apply Hord|]. by eapply IH, step_ordered.
Qed.

(** ** The end of a session *)

(** The steps that need nothing from the other goroutines, once the context has
    ended, which is also the one of the stream: its [Recv] and [Send] fail then. *)
Definition leaving (a : action) : bool :=
  match a with
  | SenderDone | SendReturns (Some _) | Receives (Err _) _ | WatchStarts _ | WatchDone | ForwarderDone | HeartDone
  | ResponseQueued false | Delivered false | ChangeQueued false | HeartQueued false => true
  | _ => false
  end.

(** A goroutine, by its part of [pcs], can end by itself, and leaves the others where they are. *)
Definition can_leave {A} (pc : goroutines → A) (last : A) (others : goroutines → goroutines → Prop) (s : St) : Prop :=
  ∃ acts s', Forall (λ a, leaving a = true) acts ∧ length acts ≤ 2 ∧ exec_all d acts s = Some s' ∧
    cancelled s' = true ∧ pc (pcs s') = last ∧ others (pcs s) (pcs s').

Definition same_but_sender (g g' : goroutines) : Prop :=
  receiver g' = receiver g ∧ watcher g' = watcher g ∧ forwarder g' = forwarder g ∧ heart g' = heart g.
Definition same_but_receiver (g g' : goroutines) : Prop :=
  sender g' = sender g ∧ watcher g' = watcher g ∧ forwarder g' = forwarder g ∧ heart g' = heart g.
Definition same_but_watcher (g g' : goroutines) : Prop :=
  sender g' = sender g ∧ receiver g' = receiver g ∧ forwarder g' = forwarder g ∧ heart g' = heart g.
Definition same_but_forwarder (g g' : goroutines) : Prop :=
  sender g' = sender g ∧ receiver g' = receiver g ∧ watcher g' = watcher g ∧ heart g' = heart g.
Definition same_but_heart (g g' : goroutines) : Prop :=
  sender g' = sender g ∧ receiver g' = receiver g ∧ watcher g' = watcher g ∧ forwarder g' = forwarder g.

Definition ended_error : stream_error := mk_stream_error true false "context canceled".

Ltac leaves acts :=
  exists acts; eexists; split_and!;
    [by repeat constructor|cbn; lia|
     cbn; unfold runSendLoop, runRecvLoop, runWatchLoop, forwardWatchEvents, runHeartbeatLoop, queueDaemonMessage, on_done;
     repeat (cbn; match goal with E : _ = _ |- _ => rewrite !E end); reflexivity|..];
  try (cbn; rewrite ?orb_true_r; by try match goal with E : cancelled _ = _ |- _ => rewrite E end);
  repeat split.

Lemma sender_leaves s : cancelled s = true → can_leave sender XEnded same_but_sender s.
Proof.
  intros Hc. destruct (sender (pcs s)) as [|m|] eqn:E.
  - leaves [SenderDone].
  - leaves [SendReturns (Some ended_error)].
  - by leaves (@nil action).
Qed.

Lemma receiver_leaves s : cancelled s = true → can_leave receiver REnded same_but_receiver s.
Proof.
  intros Hc. destruct (receiver (pcs s)) as [|r|] eqn:E.
  - leaves [Receives (Err ended_error) 0].
  - leaves [ResponseQueued false].
  - by leaves (@nil action).
Qed.

Lemma watcher_leaves s : cancelled s = true → can_leave watcher WEnded same_but_watcher s.
Proof.
  intros Hc. destruct (watcher (pcs s)) as [| |c|] eqn:E.
  - destruct (start_watch_eq (watch_options d) None s) as (e & dirs & [Hw|[err Hw] ]).
    + leaves [WatchStarts None; WatchDone].
    + leaves [WatchStarts None].
  - leaves [WatchDone].
  - leaves [Delivered false; WatchDone].
  - by leaves (@nil action).
Qed.

Lemma forwarder_leaves s : cancelled s = true → can_leave forwarder FEnded same_but_forwarder s.
Proof.
  intros Hc. destruct (forwarder (pcs s)) as [|c|] eqn:E.
  - leaves [ForwarderDone].
  - leaves [ChangeQueued false].
  - by leaves (@nil action).
Qed.

Lemma heart_leaves s : cancelled s = true → can_leave heart HEnded same_but_heart s.
Proof.
  intros Hc. destruct (heart (pcs s)) as [|t|] eqn:E.
  - leaves [HeartDone].
  - leaves [HeartQueued false].
  - by leaves (@nil action).
Qed.

Lemma exec_all_app acts acts' s s' s'' :
  exec_all d acts s = Some s' → exec_all d acts' s' = Some s'' → exec_all d (acts ++ acts') s = Some s''.
Proof.
  revert s. induction acts as [|a acts IH]; intros s; cbn; [by intros [= ->]|]. destruct (exec d a s); [apply IH|done].
Qed.

Lemma all_leave s : cancelled s = true → ∃ acts s', Forall (λ a, leaving a = true) acts ∧ length acts ≤ 10 ∧
  exec_all d acts s = Some s' ∧ all_ended s' = true.
Proof.
  intros Hc. destruct (sender_leaves s Hc) as (a1 & s1 & Hl1 & Hn1 & He1 & Hc1 & Hp1 & _).
  destruct (receiver_leaves s1 Hc1) as (a2 & s2 & Hl2 & Hn2 & He2 & Hc2 & Hp2 & Hs2 & _).
  destruct (watcher_leaves s2 Hc2) as (a3 & s3 & Hl3 & Hn3 & He3 & Hc3 & Hp3 & Hs3 & Hr3 & _).
  destruct (forwarder_leaves s3 Hc3) as (a4 & s4 & Hl4 & Hn4 & He4 & Hc4 & Hp4 & Hs4 & Hr4 & Hw4 & _).
  destruct (heart_leaves s4 Hc4) as (a5 & s5 & Hl5 & Hn5 & He5 & Hc5 & Hp5 & Hs5 & Hr5 & Hw5 & Hf5).
  exists (a1 ++ a2 ++ a3 ++ a4 ++ a5), s5. split_and!.
  - by rewrite !Forall_app.
  - rewrite !length_app. lia.
  - do 4 (eapply exec_all_app; [eassumption|]). done.
  - unfold all_ended. replace (pcs s5) with (mk_goroutines XEnded REnded WEnded FEnded HEnded); [done|].
    revert Hp5 Hs5 Hr5 Hw5 Hf5. destruct (pcs s5). cbn. intros. congruence.
Qed.

(** A full queue is emptied by the sender alone. *)
Lemma queue_moves s : inv s → cancelled s = false → sendQueue s ≠ [] →
  (∃ m, sender (pcs s) = XSend m) ∨ is_Some (exec d SenderTakes s).
Proof.
  intros Hs Hc Hq. destruct (in_live _ Hs Hc) as (Hx & _). cbn. unfold runSendLoop.
  destruct (sender (pcs s)) as [|m|]; [|by left; eexists|done]. right.
  destruct (sendQueue s) as [|[] ?]; [done|..]; eauto.
Qed.

Lemma flow_length s :
  length (responses_flow s) ≤ length (responses_of (sent (past s))) + length (sendQueue s) + 2 ∧
  length (changes_flow s) ≤ length (changes_of (sent (past s))) + length (sendQueue s) + length (watchEvents s) + 3.
Proof.
  assert (Hr : ∀ ms, length (responses_of ms) ≤ length ms) by (intros ms; unfold responses_of; induction ms as [| [] ms IH]; cbn; lia).
  assert (Hc : ∀ ms, length (changes_of ms) ≤ length ms) by (intros ms; unfold changes_of; induction ms as [| [] ms IH]; cbn; lia).
  unfold responses_flow, changes_flow, outgoing, in_send. rewrite ?responses_of_app, ?changes_of_app, ?length_app.
  pose proof (Hr (sendQueue s)). pose proof (Hc (sendQueue s)). pose proof (Hr []). pose proof (Hc []).
  destruct (sender (pcs s)) as [|m|]; [|specialize (Hr [m]); specialize (Hc [m])|]; cbn in *;
    destruct (receiver (pcs s)), (forwarder (pcs s)), (watcher (pcs s)); cbn; lia.
Qed.
End flows.

(** ** Properties *)

Section properties.
Context `{FileSystem} `{Quoting} `{Doublestar} `{Watcher} `{AuditStore.Database}.

(** What [Run] hands over to the sessions. *)
Definition prepared (d : deps) : Prop := ∃ cfg root h e e' h', prepareRun cfg root h e = (e', (h', Ok d)).

Lemma prepared_ok d : prepared d → is_abs (dep_root d) = true ∧ (0 < Config.SelfWriteTTL (dep_config d))%Z.
Proof.
  intros (cfg & root & h & e & e' & h' & Hp). unfold prepareRun in Hp. destruct cfg as [cfg|]; [|by simplify_eq].
  destruct (Config.DaemonConfig_Validate cfg) as [cfg' [err|] ] eqn:Hv; [by simplify_eq|].
  unfold mbind, M_bind, mret, M_ret in Hp. destruct (ValidateWorkspaceRoot root e) as [e1 [name|err] ] eqn:Hw; [|by simplify_eq].
  destruct (NewSensitiveFilter _) as [filter|err]; [|by simplify_eq].
  destruct (newAuditor (Config.Audit cfg') h) as [h1 [a|err] ]; simplify_eq. cbn.
  split; [by eapply ValidateWorkspaceRoot_Ok|by eapply Config.vd_ttl, Config.DaemonConfig_Validate_valid].
Qed.

(** C34. What a session of the daemon sends.  However its five goroutines
    interleave: every request is answered once, in the order of the requests and
    with their ids; what is sent after the file tree are these answers and the
    changes, each in their order and none twice, and heartbeats; every change
    stands for a file event and is about a visible path.  As long as the context
    has not ended nothing is lost: at most 66 answers and 131 changes have not
    been sent yet. *)
Theorem stream_sends (d : deps) (e : Env) (s : St) : prepared d → reachable d e s →
  let h := past s in
  ResponseId <$> handled h = RequestId <$> requests h ∧
  responses_of (sent h) `sublist_of` handled h ∧ changes_of (sent h) `sublist_of` observed (log h) ∧
  Forall is_kind (sent h) ∧ log_sound d (log h) ∧
  length (sendQueue s) ≤ daemonOutgoingBufferSize ∧ length (watchEvents s) ≤ daemonWatchEventBufferSize ∧
  (cancelled s = false →
    (responses_of (sent h) `prefix_of` handled h ∧ length (handled h) ≤ length (responses_of (sent h)) + 66) ∧
    (changes_of (sent h) `prefix_of` observed (log h) ∧ length (observed (log h)) ≤ length (changes_of (sent h)) + 131)).
Proof.
  intros [Hroot _]%prepared_ok Hs. destruct (stream_inv d Hroot e s Hs) as [Hi Hr Hra Hc Hca Hso Hq He Hk _].
  pose proof (flow_length s) as [Hnr Hnc].
  assert (Hrs : responses_of (sent (past s)) `prefix_of` responses_flow s).
  { unfold responses_flow, outgoing. rewrite !responses_of_app, <-!app_assoc. by apply prefix_app_r. }
  assert (Hcs : changes_of (sent (past s)) `prefix_of` changes_flow s).
  { unfold changes_flow, outgoing. rewrite !changes_of_app, <-!app_assoc. by apply prefix_app_r. }
  unfold daemonOutgoingBufferSize, daemonWatchEventBufferSize in *. cbn zeta. split_and!; try done.
  - etrans; [|exact Hr]. destruct Hrs as [k ->]. by apply sublist_inserts_r.
  - etrans; [|exact Hc]. destruct Hcs as [k ->]. by apply sublist_inserts_r.
  - unfold outgoing in Hk. rewrite Forall_app in Hk. apply Hk.
  - intros Hcan. rewrite <-(Hra Hcan), <-(Hca Hcan). split_and!; (done || lia).
Qed.


(** C36. A session ends when it should, and then completely.  While its context
    lasts, the goroutines that serve the stream are all there, and a queue that
    is not empty waits for nothing but the stream; once the context has ended,
    because its caller or the failure of one goroutine has ended it, all of them
    can leave, whatever they were doing, by at most ten steps of which none waits
    for another goroutine; and when all have left the session returns without an
    error. *)
Theorem stream_ends (d : deps) (e : Env) (s : St) : prepared d → reachable d e s →
  (cancelled s = false → all_ended s = false ∧
    (sendQueue s ≠ [] → (∃ m, sender (pcs s) = XSend m) ∨ is_Some (exec d SenderTakes s))) ∧
  (cancelled s = true → ∃ acts s', Forall (λ a, leaving a = true) acts ∧ length acts ≤ 10 ∧
    exec_all d acts s = Some s' ∧ returns s' = Some None).
Proof.
  intros [Hroot _]%prepared_ok Hs. pose proof (stream_inv d Hroot e s Hs) as Hinv. split.
  - intros Hc. split; [|by apply queue_moves]. destruct (in_live _ _ Hinv Hc) as (Hx & _). unfold all_ended.
    by destruct (pcs s) as [ [] ? ? ? ?].
  - intros Hc. destruct (all_leave d s Hc) as (acts & s' & Hl & Hn & He & Hend). exists acts, s'.
    split_and!; try done. unfold returns. by rewrite Hend, serveStream_nil.
Qed.
End properties.

(** ** Examples *)

Module StreamExample.
#[export] Instance watcher_accepts : Watcher := λ _ _, None.
#[export] Existing Instance RunExample.db.

(** The dependencies that [prepareRun] makes of the configuration of the examples. *)
Definition d : deps :=
  match snd (RunExample.prepare (Some (RunExample.config RunExample.audit)) "/w") with
  | Ok d => d
  | Err _ => mk_deps (RunExample.config RunExample.audit) (mk_filter []) None "" ""
  end.

Lemma d_prepared : prepared (H := Toy.fs) d.
Proof.
  exists (Some (RunExample.config RunExample.audit)), "/w", [], (Toy.start HandleExample.files).
  assert (Hok : match snd (RunExample.prepare (Some (RunExample.config RunExample.audit)) "/w") with Ok _ => true | Err _ => false end = true)
    by (vm_compute; reflexivity).
  unfold d. unfold RunExample.prepare in *. destruct (prepareRun _ _ _ _) as [e' [h' [d'|err] ] ]; [by exists e', h'|done].
Qed.

Definition e : Env := Toy.start HandleExample.files.
Definition touch (p : string) : Event := mk_Event p (mk_Op false true false false).

(** The server deletes a file; the event about it comes 5 ns later, and one about
    another file; then the caller ends the context. *)
Definition acts : list action :=
  [WatchStarts None; Receives (Ok (SrvRequest (HandleExample.remove "a.go"))) 0; WatchEvent 5 (touch "/w/a.go");
   WatchEvent 6 (touch "/w/b.go"); ResponseQueued true; Delivered true; SenderTakes; ForwarderTakes; ChangeQueued true;
   SendReturns None; SenderTakes; SendReturns None; Ticks 15; HeartQueued true].

Definition report (s : option (St (H := Toy.fs))) : option (list string * list string * nat * bool) :=
  (λ s, (ResponseId <$> responses_of (sent (past s)), default "" ∘ fmap FPath ∘ Cfile <$> changes_of (sent (past s)),
         length (sendQueue s), cancelled s)) <$> s.

Example stream_runs : report (exec_all d acts (start d e)) = Some (["r2"], ["b.go"], 1, false).
Proof. vm_compute. reflexivity. Qed.

(** A request that spells the path otherwise is not recognised: what the filter
    keeps is the path as the request has it. *)
Definition unclean_acts : list action :=
  [WatchStarts None; Receives (Ok (SrvRequest (HandleExample.remove "./a.go"))) 0; WatchEvent 5 (touch "/w/a.go");
   Delivered true; ForwarderTakes; ResponseQueued true; ChangeQueued true; SenderTakes; SendReturns None; SenderTakes; SendReturns None].

Example unclean_path_reported : report (exec_all d unclean_acts (start d e)) = Some (["r2"], ["a.go"], 0, false).
Proof. vm_compute. reflexivity. Qed.

(** The files changed and the paths reported. *)
Definition log_summary (l : list (Z * log_entry)) : list (Z * list string * option string) :=
  (λ x, (fst x, match snd x with Wrote paths => paths | Saw _ _ => [] end,
         match snd x with Saw _ (Some c) => FPath <$> Cfile c | _ => None end)) <$> l.

Definition summary : list (Z * list string * option string) :=
  [(0%Z, ["/w/a.go"], None); (5%Z, [], None); (6%Z, [], Some "b.go")].

Lemma example_state : ∃ s, exec_all d acts (start d e) = Some s ∧ reachable d e s ∧
  length (handled (past s)) = 1 ∧ cancelled s = false ∧ times_ordered (log (past s)) ∧
  log_summary (log (past s)) = summary ∧ plain (requests (past s)).
Proof.
  assert (Hr : match exec_all d acts (start d e) with
    | Some s => (length (handled (past s)), cancelled s, fst <$> log (past s), log_summary (log (past s)), requests (past s)) =
        (1, false, [0; 5; 6]%Z, summary, [HandleExample.remove "a.go"])
    | None => False end) by (vm_compute; reflexivity).
  destruct (exec_all d acts (start d e)) as [s|] eqn:E; [|destruct Hr]. injection Hr as Hh Hc Ht Hl Hq.
  exists s. split; [reflexivity|]. split; [exists acts; exact E|]. clear E.
  split; [exact Hh|]. split; [exact Hc|]. split; [|split; [exact Hl|] ].
  - unfold times_ordered. rewrite Ht. repeat constructor; cbn; lia.
  - rewrite Hq. constructor; [|constructor]. intros op q [= <-] ->%list_elem_of_singleton. vm_compute. reflexivity.
Qed.
End StreamExample.
Import StreamExample.

Lemma stream_sends_witness :
  ∃ s, reachable (H := Toy.fs) d e s ∧ responses_of (sent (past s)) `prefix_of` handled (past s) ∧ length (handled (past s)) = 1.
Proof.
  destruct example_state as (s & _ & Hs & Hh & Hc & _). exists s. split; [exact Hs|].
  destruct (stream_sends d e s d_prepared Hs) as (_ & _ & _ & _ & _ & _ & _ & Hall).
  destruct (Hall Hc) as [ [Hp _] _]. by split.
Defined.


Lemma stream_ends_witness :
  ∃ s acts s', reachable (H := Toy.fs) d e s ∧ cancelled s = true ∧ exec_all d acts s = Some s' ∧ returns s' = Some None.
Proof.
  destruct example_state as (s & He & _). exists (cancel s).
  assert (Hs : reachable (H := Toy.fs) d e (cancel s)).
  { exists (StreamExample.acts ++ [Cancel]). by rewrite exec_all_snoc, He. }
  destruct (proj2 (stream_ends d e (cancel s) d_prepared Hs) eq_refl) as (acts & s' & _ & _ & Hrun & Hret).
  exists acts, s'. split; [exact Hs|]. split; [reflexivity|]. split; [exact Hrun|exact Hret].
Defined.
