(* ===== verification/View.v ===== *)
(** * The view of a workspace on the server (pkg/fusefs/view.go, prefetch.go)

    What the mounted file system asks for becomes lookups in the session of
    the user, and requests to the daemon.  The clock, the daemon's answers and
    whatever other goroutines do to the sessions meanwhile are the class
    [Remote]; the state has the manager and the requests sent.  The manager is
    not nil (validateOptions). *)
From S2P Require Import Prelude GoPath PathFacts Safepath RelPath Proto.
From S2P Require Session FsTree ContentCache Manager Handle.
From stdpp Require Import options.

(** The error values; [errors.Is] compares them. *)
Inductive base_error : Type :=
  | ErrUnsupportedPlatform
  | ErrNilManager
  | ErrEmptyMountpoint
  | ErrSessionOffline
  | ErrPathNotFound
  | ErrNotDirectory
  | ErrIsDirectory
  | ErrReadFailed
  | ErrPermissionDenied
  | ErrAlreadyExists
  | ErrDirectoryNotEmpty
  | ErrCrossDevice
  | ErrInvalidArgument
  | ErrIOFailed
  | ErrRequestTimeout
  | ErrSessionFailed
  | Canceled.                       (* [context.Canceled] *)

#[export] Instance base_error_eq_dec : EqDecision base_error.
Proof. solve_decision. Defined.

(** What [Session.Request] fails with. *)
Inductive request_error : Type :=
  | DeadlineExceeded
  | RequestCanceled
  | SessionErr (e : Session.error).

(** An error: the value it wraps, and what the message adds. *)
Inductive error : Type :=
  | Plain (e : base_error)
  | Detailed (e : base_error) (msg : string)        (* "%w: %s" *)
  | Failed (e : request_error).                     (* ErrSessionFailed, "%w: %w" *)

Definition base_of (e : error) : base_error :=
  match e with Plain b | Detailed b _ => b | Failed _ => ErrSessionFailed end.

(** ** Classifying errors *)

(** The cases of [classifyError], in order. *)
Definition error_needles : list (list string * base_error) :=
  [(["no such file"; "cannot find the file"; "cannot find the path"], ErrPathNotFound);
   (["permission denied"; "access is denied"], ErrPermissionDenied);
   (["file exists"; "already exists"], ErrAlreadyExists);
   (["not a directory"], ErrNotDirectory);
   (["is a directory"], ErrIsDirectory);
   (["directory not empty"], ErrDirectoryNotEmpty);
   (["cross-device"; "invalid cross-device"], ErrCrossDevice);
   (["invalid argument"], ErrInvalidArgument)].

Fixpoint first_case (cases : list (list string * base_error)) (lower : string) : base_error :=
  match cases with
  | [] => ErrIOFailed
  | (needles, e) :: cases' =>
    if existsb (λ n, contains n lower) needles then e else first_case cases' lower
  end.

Definition classifyError (msg : string) : error := Detailed (first_case error_needles (to_lower msg)) msg.

Definition classifyRequestErr (reqErr : option request_error) (respErr : string) : option error :=
  match reqErr with
  | Some DeadlineExceeded => Some (Plain ErrRequestTimeout)
  | Some RequestCanceled => Some (Plain Canceled)
  | Some (SessionErr Session.ErrSessionOffline) => Some (Plain ErrSessionOffline)
  | Some e => Some (Failed e)
  | None => if decide (respErr = "") then None else Some (classifyError respErr)
  end.

(** ** State *)

Inductive reply : Type :=
  | RErr (e : request_error)
  | RNil
  | RResp (r : FileResponse).

Record VState : Type := mk_VState {
  mgr : Manager.Manager;
  ticks : nat;                                        (* readings of the clock *)
  requests : list (Manager.pointer * FileRequest * option Z);   (* with their timeout *)
}.

Class Remote := {
  clock : nat → Z;
  answer : VState → Manager.pointer → FileRequest → Manager.Manager * reply;
}.

Definition V (A : Type) : Type := VState → VState * A.
#[global] Instance V_ret : MRet V := λ A a s, (s, a).
#[global] Instance V_bind : MBind V := λ A B f m s, let '(s, a) := m s in f a s.

(** [x, err := m; if err != nil { return ..., err }] *)
Definition try {A B} (m : V (result error A)) (k : A → V (result error B)) : V (result error B) :=
  m ≫= λ r, match r with Ok a => k a | Err e => mret (Err e) end.

Notation "x ←? m ; k" := (try m (λ x, k))
  (at level 20, m at level 100, k at level 200, right associativity) : go_scope.

Definition sliceReadContent (data : bytes) (offset size : Z) : bytes :=
  let total := Z.of_nat (length data) in
  let offset := if bool_decide (offset < 0)%Z then 0%Z else offset in
  if bool_decide (total ≤ offset)%Z then []
  else
    let end_ :=
      if bool_decide (0 < size)%Z && bool_decide (size < int64 (total - offset))%Z
      then int64 (offset + size) else total in
    take (Z.to_nat (end_ - offset)) (drop (Z.to_nat offset) data).

Section operations.
Context `{MapRange} `{Remote}.

Definition tick : V Z := λ s, (mk_VState (mgr s) (S (ticks s)) (requests s), clock (ticks s)).

(** A method of the session [p] that changes only the session. *)
Definition on_session {A} (p : Manager.pointer) (d : A) (f : Session.Session → Session.Session * A) : V A := λ s,
  match Manager.deref (mgr s) p with
  | None => (s, d)
  | Some sess =>
    let '(sess, a) := f sess in
    (mk_VState (Manager.set_session p sess (mgr s)) (ticks s) (requests s), a)
  end.
(** A method that only reads it. *)
Definition from_session {A} (p : Manager.pointer) (d : A) (f : Session.Session → A) : V A := λ s,
  (s, match Manager.deref (mgr s) p with None => d | Some sess => f sess end).

(** [manager.Get(userID)] *)
Definition manager_Get (now1 now2 : Z) (userID : string) : V (option Manager.pointer) := λ s,
  let '(m, current) := Manager.Get now1 now2 userID (mgr s) in
  (mk_VState m (ticks s) (requests s), current).

Definition requireSession (userID : string) : V (result error Manager.pointer) :=
  now1 ← tick;
  now2 ← tick;
  current ← manager_Get now1 now2 userID;
  mret (match current with Some p => Ok p | None => Err (Plain ErrSessionOffline) end).

Definition IsOfflineReadonly (p : Manager.pointer) : V bool :=
  now ← tick; from_session p false (Session.IsOfflineReadonly now None).

(** [withRequestTimeout]: the timeout put on the context *)
Definition withRequestTimeout (m : Manager.Manager) : option Z :=
  let t := Manager.RequestTimeout (Manager.opts m) in
  if bool_decide (t ≤ 0)%Z then None else Some t.

(** The request goes out, and the answer comes back. *)
Definition exchange (p : Manager.pointer) (req : FileRequest) : V reply := λ s,
  let s := mk_VState (mgr s) (ticks s) (requests s ++ [(p, req, withRequestTimeout (mgr s))]) in
  let '(m, r) := answer s p req in (mk_VState m (ticks s) (requests s), r).

(** [current.Request(ctx, req)] *)
Definition Request (p : Manager.pointer) (op : Operation) : V reply :=
  r ← on_session p (Err Session.ErrNilRequest) (Session.prepareRequest (Some (mk_FileRequest "" (Some op))));
  match r with
  | Err e => mret (RErr (SessionErr e))
  | Ok req => exchange p req
  end.

Definition rootInfo : FileInfo := mk_FileInfo "" 0 0 true 365 (* 0o555 *).

Definition is_root (relPath : string) : bool :=
  bool_decide (relPath = "") || bool_decide (relPath = ".") || bool_decide (relPath = "/").

Definition lookupInfo (userID relPath : string) : V (result error FileInfo) :=
  current ←? requireSession userID;
  if is_root relPath then mret (Ok rootInfo)
  else
    info ← from_session current None (Session.Lookup relPath);
    match info with None => mret (Err (Plain ErrPathNotFound)) | Some info => mret (Ok info) end.

Definition listInfos (userID relPath : string) : V (result error (list FileInfo)) :=
  current ←? requireSession userID;
  _ ←? (if is_root relPath then mret (Ok tt)
        else
          info ← from_session current None (Session.Lookup relPath);
          match info with
          | None => mret (Err (Plain ErrPathNotFound))
          | Some info => if FIsDir info then mret (Ok tt) else mret (Err (Plain ErrNotDirectory))
          end);
  infos ← from_session current None (Session.List relPath);
  match infos with None => mret (Err (Plain ErrNotDirectory)) | Some l => mret (Ok l) end.

Definition requestRead (current : Manager.pointer) (relPath : string) (off length : Z) : V (result error bytes) :=
  off' ← IsOfflineReadonly current;
  if off' : bool then mret (Err (Plain ErrSessionOffline))
  else
    resp ← Request current (ReqRead (mk_ReadFileReq relPath off length));
    match resp with
    | RErr err => mret (match classifyRequestErr (Some err) "" with Some e => Err e | None => Ok [] end)
    | RNil => mret (Err (Plain ErrReadFailed))
    | RResp resp =>
      if negb (Success resp)
      then mret (match classifyRequestErr None (ErrorText resp) with Some e => Err e | None => Ok [] end)
      else mret (Ok (GetContent resp))
    end.

Definition shouldUseContentCache (info : FileInfo) : V bool := λ s,
  (s, let maxBytes := Manager.CacheMaxBytes (Manager.opts (mgr s)) in
      negb (FIsDir info) && bool_decide (0 < maxBytes)%Z && bool_decide (0 ≤ FSize info)%Z
        && bool_decide (FSize info ≤ maxBytes)%Z).

Definition readChunk (userID relPath : string) (off size : Z) : V (result error bytes) :=
  info ←? lookupInfo userID relPath;
  if FIsDir info then mret (Err (Plain ErrIsDirectory))
  else
    current ←? requireSession userID;
    let size := if bool_decide (size < 0)%Z then 0%Z else size in
    cached ← on_session current None (Session.GetCachedContent relPath (Some info));
    match cached with
    | Some data => mret (Ok (sliceReadContent data off size))
    | None =>
      offline ← IsOfflineReadonly current;
      if offline : bool then mret (Err (Plain ErrSessionOffline))
      else
        use ← shouldUseContentCache info;
        if use : bool then
          data ←? requestRead current relPath 0 0;
          _ ← on_session current false (Session.PutCachedContent relPath (Some info) data);
          mret (Ok (sliceReadContent data off size))
        else requestRead current relPath off size
    end.

(** When [classifyRequestErr] returns nil the code returns a nil response with a
    nil session and no error; [Ok None] is that case. *)
Definition requestFileOp (userID : string) (op : Operation)
    : V (result error (option (FileResponse * Manager.pointer))) :=
  current ←? requireSession userID;
  offline ← IsOfflineReadonly current;
  if offline : bool then mret (Err (Plain ErrSessionOffline))
  else
    resp ← Request current op;
    match resp with
    | RErr err => mret (match classifyRequestErr (Some err) "" with Some e => Err e | None => Ok None end)
    | RNil => mret (Err (Plain ErrIOFailed))
    | RResp resp =>
      if negb (Success resp)
      then mret (match classifyRequestErr None (ErrorText resp) with Some e => Err e | None => Ok None end)
      else mret (Ok (Some (resp, current)))
    end.

(** The end of the operations whose response carries a file: [resp.GetInfo()]
    of a nil response is nil. *)
Definition apply_info (r : option (FileResponse * Manager.pointer))
    (f : option FileInfo → Session.Session → Session.Session) : V (result error unit) :=
  match r with
  | None => mret (Err (Plain ErrIOFailed))
  | Some (resp, current) =>
    match GetInfo resp with
    | None => mret (Err (Plain ErrIOFailed))
    | Some info => on_session current (Ok tt) (λ sess, (f (Some info) sess, Ok tt))
    end
  end.

Definition writeChunk (userID relPath : string) (offset : Z) (data : bytes) : V (result error unit) :=
  r ←? requestFileOp userID (ReqWrite (mk_WriteFileReq relPath data false 0 offset));
  apply_info r Session.ApplyWriteResult.

Definition createFile (userID relPath : string) : V (result error unit) :=
  r ←? requestFileOp userID (ReqWrite (mk_WriteFileReq relPath [] false 420 0));
  apply_info r Session.ApplyWriteResult.

Definition mkdirAt (userID relPath : string) (recursive : bool) : V (result error unit) :=
  r ←? requestFileOp userID (ReqMkdir (mk_MkdirReq relPath recursive));
  apply_info r Session.ApplyWriteResult.

(** With a nil session [ApplyDelete] does nothing. *)
Definition removePath (userID relPath : string) : V (result error unit) :=
  r ←? requestFileOp userID (ReqDelete relPath);
  match r with
  | None => mret (Ok tt)
  | Some (_, current) => on_session current (Ok tt) (λ sess, (Session.ApplyDelete relPath sess, Ok tt))
  end.

Definition renamePath (userID oldRel newRel : string) : V (result error unit) :=
  r ←? requestFileOp userID (ReqRename (mk_RenameReq oldRel newRel));
  apply_info r (Session.ApplyRename oldRel).

Definition truncatePath (userID relPath : string) (size : Z) : V (result error unit) :=
  r ←? requestFileOp userID (ReqTruncate (mk_TruncateReq relPath size));
  apply_info r Session.ApplyWriteResult.

Definition workspaceNameFor (userID : string) : V (result error string) :=
  current ←? requireSession userID;
  name ← from_session current "" Session.WorkspaceName;
  if decide (name = "") then mret (Err (Plain ErrPathNotFound)) else mret (Ok name).

(** ** Prefetching *)

Definition options : V Manager.ManagerOptions := λ s, (s, Manager.opts (mgr s)).

Definition shouldPrefetchFile (current : Manager.pointer) (info : FileInfo) : V bool :=
  if FIsDir info || bool_decide (FPath info = "") || bool_decide (FSize info ≤ 0)%Z then mret false
  else
    o ← options;
    use ← shouldUseContentCache info;
    if bool_decide (Manager.PrefetchMaxFileBytes o < FSize info)%Z || negb use then mret false
    else
      cached ← on_session current None (Session.GetCachedContent (FPath info) (Some info));
      mret (match cached with Some _ => false | None => true end).

(** The loop that collects the files to sort. *)
Fixpoint filter_prefetch (current : Manager.pointer) (infos : list FileInfo) : V (list FileInfo) :=
  match infos with
  | [] => mret []
  | info :: rest =>
    b ← shouldPrefetchFile current info;
    l ← filter_prefetch current rest;
    mret (if b : bool then info :: l else l)
  end.

(** [sort.Slice] by path; the paths of a listing are different. *)
Definition path_le (i j : FileInfo) : Prop := String.le (FPath i) (FPath j).
#[global] Instance path_le_dec : RelDecision path_le.
Proof. intros i j. unfold path_le. apply _. Defined.

Definition prefetchCandidates (current : Manager.pointer) (infos : list FileInfo) : V (list FileInfo) :=
  o ← options;
  if negb (Manager.PrefetchEnabled o) then mret []
  else if bool_decide (Manager.CacheMaxBytes o ≤ 0)%Z || bool_decide (Manager.PrefetchMaxFileBytes o ≤ 0)%Z
          || bool_decide (Manager.PrefetchMaxFilesPerDir o ≤ 0)%Z then mret []
  else
    sorted ← filter_prefetch current infos;
    let sorted := merge_sort path_le sorted in
    mret (if bool_decide (Manager.PrefetchMaxFilesPerDir o < Z.of_nat (length sorted))%Z
          then take (Z.to_nat (Manager.PrefetchMaxFilesPerDir o)) sorted else sorted).

(** The goroutines that are started: what each calls [prefetchFile] with. *)
Fixpoint try_start (current : Manager.pointer) (candidates : list FileInfo) : V (list (Manager.pointer * FileInfo)) :=
  match candidates with
  | [] => mret []
  | info :: rest =>
    started ← on_session current false (Session.TryStartPrefetch (FPath info));
    l ← try_start current rest;
    mret (if started : bool then (current, info) :: l else l)
  end.

Definition startPrefetch (userID : string) (infos : list FileInfo) : V (list (Manager.pointer * FileInfo)) :=
  r ← requireSession userID;
  match r with
  | Err _ => mret []
  | Ok current =>
    offline ← IsOfflineReadonly current;
    if offline : bool then mret []
    else
      candidates ← prefetchCandidates current infos;
      try_start current candidates
  end.

Definition prefetchFile (current : Manager.pointer) (info : FileInfo) : V unit :=
  let relPath := FPath info in
  cached ← on_session current None (Session.GetCachedContent relPath (Some info));
  _ ← match cached with
      | Some _ => mret tt
      | None =>
        data ← requestRead current relPath 0 0;
        match data with
        | Err _ => mret tt
        | Ok data => _ ← on_session current false (Session.PutCachedContent relPath (Some info) data); mret tt
        end
      end;
  on_session current tt (λ sess, (Session.FinishPrefetch relPath sess, tt)).

(** [prefetchFile] step by step, for the goroutines, which interleave: where it
    is, and the step that it takes from there. *)
Inductive prefetch_pc : Type :=
  | PCheck                      (* looks into the cache *)
  | PAsk                        (* asks the daemon *)
  | PStore (data : bytes)       (* puts the answer into the cache *)
  | PFinish
  | PEnd.

Definition prefetch_step (current : Manager.pointer) (info : FileInfo) (pc : prefetch_pc) : V prefetch_pc :=
  let relPath := FPath info in
  match pc with
  | PCheck =>
    cached ← on_session current None (Session.GetCachedContent relPath (Some info));
    mret (match cached with Some _ => PFinish | None => PAsk end)
  | PAsk =>
    data ← requestRead current relPath 0 0;
    mret (match data with Err _ => PFinish | Ok data => PStore data end)
  | PStore data => _ ← on_session current false (Session.PutCachedContent relPath (Some info) data); mret PFinish
  | PFinish => _ ← on_session current tt (λ sess, (Session.FinishPrefetch relPath sess, tt)); mret PEnd
  | PEnd => mret PEnd
  end.

Fixpoint prefetch_steps (k : nat) (current : Manager.pointer) (info : FileInfo) (pc : prefetch_pc) : V prefetch_pc :=
  match k with
  | 0 => mret pc
  | S k => pc ← prefetch_step current info pc; prefetch_steps k current info pc
  end.

(** Left to itself a goroutine does what [prefetchFile] does, in at most four
    steps. *)
Lemma prefetchFile_steps current info s :
  prefetch_steps 4 current info PCheck s = (fst (prefetchFile current info s), PEnd).
Proof.
  unfold prefetch_steps, prefetchFile, prefetch_step, mbind, V_bind.
  destruct (on_session current None _ s) as [s1 [data|]]; cbn.
  - by destruct (on_session current tt _ s1).
  - destruct (requestRead current _ 0 0 s1) as [s2 [data|e]]; cbn.
    + destruct (on_session current false _ s2) as [s3 b]. cbn. by destruct (on_session current tt _ s3).
    + by destruct (on_session current tt _ s2).
Qed.
End operations.

(** ** Properties *)

(** The daemon's texts: the operation, the quoted path, and what the system
    said. *)
Definition daemon_text (op quoted reason : string) : string :=
  "syncer: " +:+ op +:+ " " +:+ quoted +:+ ": " +:+ reason.

Lemma contains_spec sub s : contains sub s = true ↔ ∃ a b, s = a +:+ sub +:+ b.
Proof.
  split.
  - induction s as [|c s IH]; cbn [contains].
    + rewrite orb_false_r. intros [r Hr]%has_prefix_spec. by exists "", r.
    + intros [[r Hr]%has_prefix_spec|(a & b & ->)%IH]%orb_true_iff; [by exists "", r|].
      by exists (String c a), b.
  - intros (a & b & ->). induction a as [|c a IH].
    + rewrite str_app_nil_l. destruct (sub +:+ b) as [|c t] eqn:E; cbn [contains]; rewrite <-E, has_prefix_app; done.
    + rewrite str_app_cons. cbn [contains]. rewrite IH. apply orb_true_r.
Qed.

Lemma first_case_spec cases l :
  (first_case cases l = ErrIOFailed ∧ ∀ ns e n, (ns, e) ∈ cases → n ∈ ns → contains n l = false) ∨
  ∃ before ns after n, cases = before ++ (ns, first_case cases l) :: after ∧ n ∈ ns ∧ contains n l = true ∧
    ∀ ns' e' n', (ns', e') ∈ before → n' ∈ ns' → contains n' l = false.
Proof.
  induction cases as [|[ns e] cases IH]; [left; split; [done|]; by intros ? ? ? ?%not_elem_of_nil|].
  cbn [first_case]. destruct (existsb (λ n, contains n l) ns) eqn:E.
  - right. apply existsb_exists in E as (n & Hn%list_elem_of_In & Hc). exists [], ns, cases, n.
    split_and!; [done..|]. by intros ? ? ? ?%not_elem_of_nil.
  - assert (Hno : ∀ n, n ∈ ns → contains n l = false).
    { intros n Hn. apply not_true_iff_false. intros Hc. apply not_true_iff_false in E. apply E.
      apply existsb_exists. exists n. by rewrite <-list_elem_of_In. }
    destruct IH as [[-> IH]|(before & ns1 & after & n & Hcases & Hn & Hc & Hb)].
    + left. split; [done|]. intros ns' e' n' [[= -> ->]|Hin]%elem_of_cons; [apply Hno|by eapply IH].
    + right. exists ((ns, e) :: before), ns1, after, n. split_and!; [by rewrite Hcases at 1|done|done|].
      intros ns' e' n' [[= -> ->]|Hin]%elem_of_cons; [apply Hno|by eapply Hb].
Qed.

(** Error texts are classified by substrings, in order, and so by the path
    too.  An error of the daemon gets the value of the first case one of whose
    phrases is in its lower-case text, or a failed input or output if there is
    none.  The text has the quoted path in it, so the name of a file can
    decide: a refused deletion is reported as a missing file when the file is
    called "no such file". *)
Theorem classifyError_first (msg : string) :
  (∃ b, classifyError msg = Detailed b msg ∧
    ((b = ErrIOFailed ∧ ∀ ns e n, (ns, e) ∈ error_needles → n ∈ ns → contains n (to_lower msg) = false) ∨
     ∃ before ns after n, error_needles = before ++ (ns, b) :: after ∧ n ∈ ns ∧
       (∃ u v, to_lower msg = u +:+ n +:+ v) ∧
       ∀ ns' e' n', (ns', e') ∈ before → n' ∈ ns' → contains n' (to_lower msg) = false)) ∧
  (let refused name := daemon_text "delete" name "permission denied" in
   base_of (classifyError (refused "[notes]")) = ErrPermissionDenied ∧
   base_of (classifyError (refused "[no such file]")) = ErrPathNotFound).
Proof.
  split; [|vm_compute; done]. exists (first_case error_needles (to_lower msg)). split; [done|].
  destruct (first_case_spec error_needles (to_lower msg)) as [?|(before & ns & after & n & Hc & Hn & Hin & Hb)];
    [by left|right].
  exists before, ns, after, n. split_and!; [done|done|by apply contains_spec|done].
Qed.

(** ** Sessions that are live *)

Section sessions.
Context `{MapRange} `{Remote}.

(** The user's session is [p], and it does not expire while the clock is read. *)
Definition live (s : VState) (userID : string) (p : Manager.pointer) (sess : Session.Session) : Prop :=
  Manager.sessions (mgr s) !! userID = Some p ∧ Manager.deref (mgr s) p = Some sess ∧
  ∀ n, Session.IsExpired (clock n) (Some (clock n)) sess = false.

Definition ticked (k : nat) (s : VState) : VState := mk_VState (mgr s) (k + ticks s) (requests s).

Lemma ticked_ticked j k s : ticked j (ticked k s) = ticked (j + k) s.
Proof. unfold ticked. simpl. f_equal. lia. Qed.

Lemma requireSession_live s userID p sess :
  live s userID p sess → requireSession userID s = (ticked 2 s, Ok p).
Proof.
  intros (Hp & Hd & Hexp). unfold requireSession, mbind, V_bind, tick, manager_Get. simpl.
  unfold Manager.Get. rewrite Hp. unfold Manager.IsExpired. rewrite Hd, Hexp. done.
Qed.

Lemma live_ticked k s userID p sess : live s userID p sess → live (ticked k s) userID p sess.
Proof. done. Qed.

Lemma IsOfflineReadonly_eq s p sess :
  Manager.deref (mgr s) p = Some sess →
  IsOfflineReadonly p s = (ticked 1 s, Session.IsOfflineReadonly (clock (ticks s)) None sess).
Proof. intros Hd. unfold IsOfflineReadonly, mbind, V_bind, tick, from_session. simpl. by rewrite Hd. Qed.

Lemma deref_set_session p sess m : Manager.deref (Manager.set_session p sess m) p = Some sess.
Proof. apply lookup_insert_eq. Qed.

(** ** Changes *)

Inductive change : Type :=
  | CWrite (relPath : string) (offset : Z) (data : bytes)
  | CCreate (relPath : string)
  | CMkdir (relPath : string) (recursive : bool)
  | CRemove (relPath : string)
  | CRename (oldRel newRel : string)
  | CTruncate (relPath : string) (size : Z).

Definition run_change (userID : string) (c : change) : V (result error unit) :=
  match c with
  | CWrite p off data => writeChunk userID p off data
  | CCreate p => createFile userID p
  | CMkdir p r => mkdirAt userID p r
  | CRemove p => removePath userID p
  | CRename p q => renamePath userID p q
  | CTruncate p n => truncatePath userID p n
  end.

(** The operation a change asks of the daemon. *)
Definition asked (c : change) : Operation :=
  match c with
  | CWrite p off data => ReqWrite (mk_WriteFileReq p data false 0 off)
  | CCreate p => ReqWrite (mk_WriteFileReq p [] false 420 0)
  | CMkdir p r => ReqMkdir (mk_MkdirReq p r)
  | CRemove p => ReqDelete p
  | CRename p q => ReqRename (mk_RenameReq p q)
  | CTruncate p n => ReqTruncate (mk_TruncateReq p n)
  end.

(** What a successful response changes in the session; [None] when it has no
    file although the change needs one. *)
Definition effect (c : change) (resp : FileResponse) : option (Session.Session → Session.Session) :=
  match c, GetInfo resp with
  | CRemove p, _ => Some (Session.ApplyDelete p)
  | CRename p _, Some i => Some (Session.ApplyRename p (Some i))
  | _, Some i => Some (Session.ApplyWriteResult (Some i))
  | _, None => None
  end.

(** Offline means read-only.  While the user's session is kept offline, every
    change fails with ErrSessionOffline, no request is sent and no session is
    touched; a read sends no request either, and succeeds only with what the
    cache holds. *)
Theorem view_offline (s : VState) (userID : string) (p : Manager.pointer) (sess : Session.Session) (until : Z) :
  live s userID p sess → Session.offlineUntil sess = Some until → (∀ n, clock n < until)%Z →
  (∀ c, let '(s', r) := run_change userID c s in
     r = Err (Plain ErrSessionOffline) ∧ requests s' = requests s ∧ mgr s' = mgr s) ∧
  (∀ relPath off size, let '(s', r) := readChunk userID relPath off size s in
     requests s' = requests s ∧
     ∀ data, r = Ok data → ∃ info content,
       Session.Lookup relPath sess = Some info ∧
       snd (Session.GetCachedContent relPath (Some info) sess) = Some content ∧
       data = sliceReadContent content off (Z.max 0 size)).
Proof.
  intros Hlive Hoff Hclock.
  assert (Hro : ∀ k, Session.IsOfflineReadonly (clock k) None sess = true).
  { intros k. unfold Session.IsOfflineReadonly. rewrite Hoff. apply bool_decide_eq_true_2, Hclock. }
  assert (Hop : ∀ op, requestFileOp userID op s = (ticked 3 s, Err (Plain ErrSessionOffline))).
  { intros op. unfold requestFileOp, try, mbind, V_bind. rewrite (requireSession_live s userID p sess Hlive).
    rewrite (IsOfflineReadonly_eq _ p sess) by apply Hlive. by rewrite Hro. }
  split.
  - intros c. assert (E : run_change userID c s = (ticked 3 s, Err (Plain ErrSessionOffline))); [|by rewrite E].
    destruct c; cbn [run_change]; unfold writeChunk, createFile, mkdirAt, removePath, renamePath, truncatePath;
      unfold try at 1, mbind, V_bind; by rewrite Hop.
  - intros relPath off size. unfold readChunk, lookupInfo, try, mbind, V_bind.
    rewrite (requireSession_live s userID p sess Hlive).
    assert (Hd : Manager.deref (mgr s) p = Some sess) by apply Hlive.
    destruct (is_root relPath).
    { cbn. split; [done|]. by intros data [=]. }
    unfold from_session. cbn [mgr ticked]. rewrite Hd.
    destruct (Session.Lookup relPath sess) as [info|] eqn:Hi; [|by split; [|intros ? [=]]].
    cbn [mret V_ret]. destruct (FIsDir info); [by split; [|intros ? [=]]|].
    rewrite (requireSession_live (ticked 2 s) userID p sess) by done.
    unfold on_session. cbn [mgr ticked]. rewrite Hd.
    destruct (Session.GetCachedContent relPath (Some info) sess) as [sess' [content|]] eqn:Hc.
    + cbn. split; [done|]. intros data [= <-]. exists info, content. split_and!; [done|exact (f_equal snd Hc)|].
      f_equal. case_bool_decide; lia.
    + cbn [mret V_ret].
      rewrite (IsOfflineReadonly_eq _ p sess') by exact (deref_set_session p sess' (mgr s)).
      assert (Hro' : ∀ k, Session.IsOfflineReadonly (clock k) None sess' = true).
      { intros k. assert (E : Session.offlineUntil sess' = Session.offlineUntil sess).
        { unfold Session.GetCachedContent in Hc. destruct (ContentCache.Get _ _ _). by injection Hc as <- _. }
        unfold Session.IsOfflineReadonly. rewrite E, Hoff. apply bool_decide_eq_true_2, Hclock. }
      rewrite Hro'. cbn. split; [done|]. by intros data [=].
Qed.

(** A request of a live session, as [Session.Request] prepares it. *)
Lemma Request_live s p sess op :
  Manager.deref (mgr s) p = Some sess →
  let '(sess1, id) := Session.nextRequestID sess in
  let rq := mk_FileRequest id (Some op) in
  Session.prepareRequest (Some (mk_FileRequest "" (Some op))) sess = (sess1, Ok rq) ∧
  Request p op s =
    let log := requests s ++ [(p, rq, withRequestTimeout (mgr s))] in
    let '(m2, reply) := answer (mk_VState (Manager.set_session p sess1 (mgr s)) (ticks s) log) p rq in
    (mk_VState m2 (ticks s) log, reply).
Proof.
  intros Hd. destruct (Session.nextRequestID sess) as [sess1 id] eqn:Hid.
  assert (Hprep : Session.prepareRequest (Some (mk_FileRequest "" (Some op))) sess =
    (sess1, Ok (mk_FileRequest id (Some op)))).
  { unfold Session.prepareRequest. cbn [RequestId Op]. rewrite decide_True by done. by rewrite Hid. }
  split; [exact Hprep|]. unfold Request, mbind, V_bind, on_session. rewrite Hd, Hprep. done.
Qed.

(** The value of a response that is not a success. *)
Definition refused {A} (d : A) (reqErr : option request_error) (text : string) : result error A :=
  match classifyRequestErr reqErr text with Some e => Err e | None => Ok d end.

Lemma requestFileOp_live s userID p sess op :
  live s userID p sess → (∀ n, Session.IsOfflineReadonly (clock n) None sess = false) →
  requestFileOp userID op s =
    let '(s', reply) := Request p op (ticked 3 s) in
    (s', match reply with
         | RErr err => refused None (Some err) ""
         | RNil => Err (Plain ErrIOFailed)
         | RResp resp => if Success resp then Ok (Some (resp, p)) else refused None None (ErrorText resp)
         end).
Proof.
  intros Hlive Hon. unfold requestFileOp, try, mbind, V_bind. rewrite (requireSession_live s userID p sess Hlive).
  rewrite (IsOfflineReadonly_eq _ p sess) by apply Hlive. rewrite Hon. change (ticked 1 (ticked 2 s)) with (ticked 3 s).
  destruct (Request p op (ticked 3 s)) as [s' [e| |resp]]; [done|done|]. by destruct (Success resp).
Qed.

Lemma run_change_eq s userID c :
  run_change userID c s =
    let '(s', res) := requestFileOp userID (asked c) s in
    match res with
    | Err e => (s', Err e)
    | Ok r =>
      match c with
      | CRemove q => match r with
                     | None => mret (Ok tt)
                     | Some (_, current) => on_session current (Ok tt) (λ sess, (Session.ApplyDelete q sess, Ok tt))
                     end
      | CRename q _ => apply_info r (Session.ApplyRename q)
      | _ => apply_info r Session.ApplyWriteResult
      end s'
    end.
Proof.
  destruct c; cbn [run_change asked]; unfold writeChunk, createFile, mkdirAt, removePath, renamePath, truncatePath;
    unfold try at 1, mbind, V_bind; by destruct (requestFileOp userID _ s) as [? [?|?]].
Qed.

(** C27. A change happens once, and shows once it happened.  A change of a live
    session that is not offline sends exactly one request, which asks for that
    change, with the timeout configured.  Only when the daemon answers that it
    succeeded is the change shown, in the session that was asked, as the
    answer describes it; otherwise the sessions are left as they were when the
    answer came. *)
Theorem view_change (s : VState) (userID : string) (p : Manager.pointer) (sess : Session.Session) (c : change) :
  live s userID p sess → (∀ n, Session.IsOfflineReadonly (clock n) None sess = false) →
  let '(sess1, req) := Session.prepareRequest (Some (mk_FileRequest "" (Some (asked c)))) sess in
  ∃ rq, req = Ok rq ∧ Op rq = Some (asked c) ∧
  let m1 := Manager.set_session p sess1 (mgr s) in
  let sent := mk_VState m1 (3 + ticks s) (requests s ++ [(p, rq, withRequestTimeout (mgr s))]) in
  let '(m2, reply) := answer sent p rq in
  let '(s', r) := run_change userID c s in
  requests s' = requests s ++ [(p, rq, withRequestTimeout (mgr s))] ∧
  match reply with
  | RResp resp =>
    if Success resp then
      match effect c resp with
      | Some f => r = Ok tt ∧
          mgr s' = match Manager.deref m2 p with Some sess2 => Manager.set_session p (f sess2) m2 | None => m2 end
      | None => r = Err (Plain ErrIOFailed) ∧ mgr s' = m2
      end
    else mgr s' = m2 ∧ (ErrorText resp ≠ "" → r = Err (classifyError (ErrorText resp)))
  | RNil => mgr s' = m2 ∧ r = Err (Plain ErrIOFailed)
  | RErr e => mgr s' = m2 ∧ ∃ e', r = Err e' ∧ classifyRequestErr (Some e) "" = Some e'
  end.
Proof.
  intros Hlive Hon. assert (Hd : Manager.deref (mgr (ticked 3 s)) p = Some sess) by apply Hlive.
  pose proof (Request_live (ticked 3 s) p sess (asked c) Hd) as Hreq.
  destruct (Session.nextRequestID sess) as [sess1 id]. destruct Hreq as [-> Hreq].
  eexists. split; [done|]. split; [done|]. cbv zeta in Hreq |- *. cbn [mgr ticks requests ticked] in Hreq.
  rewrite run_change_eq, (requestFileOp_live s userID p sess) by done. rewrite Hreq. clear Hreq.
  destruct (answer _ p _) as [m2 [e| |resp]].
  - destruct e as [| |[]]; cbn; eauto.
  - done.
  - destruct (Success resp) eqn:Hsucc.
    + destruct c; unfold effect, apply_info; destruct (GetInfo resp); unfold on_session; cbn [mgr];
        by destruct (Manager.deref m2 p).
    + unfold refused, classifyRequestErr. destruct (decide (ErrorText resp = "")).
      * by destruct c.
      * done.
Qed.

Lemma GetCachedContent_offline relPath info sess sess0 cached :
  Session.GetCachedContent relPath info sess = (sess0, cached) →
  Session.offlineUntil sess0 = Session.offlineUntil sess.
Proof.
  unfold Session.GetCachedContent. destruct info; [|by intros [= <- _]].
  destruct (ContentCache.Get _ _ _). by intros [= <- _].
Qed.

(** The state after the cache was asked. *)
Definition after_lookup (s : VState) (p : Manager.pointer) (sess0 : Session.Session) : VState :=
  mk_VState (Manager.set_session p sess0 (mgr s)) (4 + ticks s) (requests s).

Lemma readChunk_start s userID p sess relPath off size info :
  live s userID p sess → (∀ n, Session.IsOfflineReadonly (clock n) None sess = false) →
  is_root relPath = false → Session.Lookup relPath sess = Some info → FIsDir info = false → (0 ≤ size)%Z →
  let '(sess0, cached) := Session.GetCachedContent relPath (Some info) sess in
  let s0 := after_lookup s p sess0 in
  readChunk userID relPath off size s =
    match cached with
    | Some data => (s0, Ok (sliceReadContent data off size))
    | None =>
      (use ← shouldUseContentCache info;
       if use : bool then
         data ←? requestRead p relPath 0 0;
         _ ← on_session p false (Session.PutCachedContent relPath (Some info) data);
         mret (Ok (sliceReadContent data off size))
       else requestRead p relPath off size) (ticked 1 s0)
    end.
Proof.
  intros Hlive Hon Hroot Hinfo Hdir Hsize. assert (Hd : Manager.deref (mgr s) p = Some sess) by apply Hlive.
  destruct (Session.GetCachedContent relPath (Some info) sess) as [sess0 cached] eqn:Hc. cbv zeta.
  set (s0 := after_lookup s p sess0).
  assert (Hd0 : Manager.deref (mgr s0) p = Some sess0) by apply deref_set_session.
  unfold readChunk, lookupInfo. unfold try at 1 2, mbind, V_bind.
  rewrite (requireSession_live s userID p sess Hlive), Hroot. unfold from_session. cbn [mgr ticked].
  rewrite Hd, Hinfo. cbn [mret V_ret]. rewrite Hdir. unfold try at 1, mbind, V_bind.
  rewrite (requireSession_live (ticked 2 s) userID p sess) by done.
  unfold on_session at 1. cbn [mgr ticked]. rewrite Hd, Hc. rewrite bool_decide_eq_false_2 by lia.
  destruct cached as [content|]; [done|].
  change (mk_VState _ _ _) with s0. rewrite (IsOfflineReadonly_eq s0 p sess0 Hd0).
  assert (Session.IsOfflineReadonly (clock (ticks s0)) None sess0 = false) as ->; [|done].
  rewrite <-(Hon (ticks s0)). unfold Session.IsOfflineReadonly.
  by rewrite (GetCachedContent_offline _ _ _ _ _ Hc).
Qed.

Lemma requestRead_live s p sess relPath off len :
  Manager.deref (mgr s) p = Some sess → (∀ n, Session.IsOfflineReadonly (clock n) None sess = false) →
  requestRead p relPath off len s =
    let '(s2, reply) := Request p (ReqRead (mk_ReadFileReq relPath off len)) (ticked 1 s) in
    (s2, match reply with
         | RErr err => refused [] (Some err) ""
         | RNil => Err (Plain ErrReadFailed)
         | RResp resp => if Success resp then Ok (GetContent resp) else refused [] None (ErrorText resp)
         end).
Proof.
  intros Hd Hon. unfold requestRead, mbind, V_bind. rewrite (IsOfflineReadonly_eq s p sess Hd), Hon.
  destruct (Request p _ (ticked 1 s)) as [s2 [e| |resp]]; [done|done|]. by destruct (Success resp).
Qed.

(** Reading.  A file of a live session that is not offline is read from the
    cache, without a request, when the cache holds it under the attributes the
    tree shows; otherwise one request is sent, for the whole file when it fits
    the cache, which then keeps it, and for the bytes asked for when not.
    Either way the reader gets the slice at the offset. *)
Theorem view_read (s : VState) (userID : string) (p : Manager.pointer) (sess : Session.Session)
    (relPath : string) (off size : Z) (info : FileInfo) :
  live s userID p sess → (∀ n, Session.IsOfflineReadonly (clock n) None sess = false) →
  is_root relPath = false → Session.Lookup relPath sess = Some info → FIsDir info = false → (0 ≤ size)%Z →
  let '(sess0, cached) := Session.GetCachedContent relPath (Some info) sess in
  let '(s', r) := readChunk userID relPath off size s in
  match cached with
  | Some content => r = Ok (sliceReadContent content off size) ∧ requests s' = requests s
  | None =>
    let whole := snd (shouldUseContentCache info s) in
    let op := ReqRead (if whole then mk_ReadFileReq relPath 0 0 else mk_ReadFileReq relPath off size) in
    let '(s2, reply) := Request p op (mk_VState (Manager.set_session p sess0 (mgr s)) (6 + ticks s) (requests s)) in
    requests s' = requests s2 ∧
    ∀ resp, reply = RResp resp → Success resp = true →
      r = Ok (if whole then sliceReadContent (GetContent resp) off size else GetContent resp) ∧
      (whole = true → ∀ sess2, Manager.deref (mgr s2) p = Some sess2 →
         mgr s' = Manager.set_session p (fst (Session.PutCachedContent relPath (Some info) (GetContent resp) sess2)) (mgr s2)) ∧
      (whole = false → mgr s' = mgr s2)
  end.
Proof.
  intros Hlive Hon Hroot Hinfo Hdir Hsize.
  pose proof (readChunk_start s userID p sess relPath off size info Hlive Hon Hroot Hinfo Hdir Hsize) as Hstart.
  destruct (Session.GetCachedContent relPath (Some info) sess) as [sess0 cached] eqn:Hc. cbv zeta in Hstart.
  rewrite Hstart. destruct cached as [content|]; [done|].
  set (s0 := after_lookup s p sess0).
  assert (Hon0 : ∀ n, Session.IsOfflineReadonly (clock n) None sess0 = false).
  { intros n. rewrite <-(Hon n). unfold Session.IsOfflineReadonly. by rewrite (GetCachedContent_offline _ _ _ _ _ Hc). }
  pose proof (λ o l, requestRead_live (ticked 1 s0) p sess0 relPath o l (deref_set_session p sess0 (mgr s)) Hon0) as Hread.
  change (ticked 1 (ticked 1 s0)) with (ticked 2 s0) in Hread.
  change (mk_VState _ (6 + ticks s) _) with (ticked 2 s0).
  unfold mbind at 1, V_bind at 1. unfold shouldUseContentCache at 1.
  change (Manager.opts (mgr (ticked 1 s0))) with (Manager.opts (mgr s)).
  unfold shouldUseContentCache. cbn [snd].
  destruct (negb (FIsDir info) && _ && _ && _).
  - unfold try, mbind, V_bind. rewrite Hread.
    destruct (Request p _ (ticked 2 s0)) as [s2 reply].
    destruct reply as [e| |resp]; [by destruct e as [| |[]]| done|].
    destruct (Success resp) eqn:Hsucc.
    + unfold on_session. destruct (Manager.deref (mgr s2) p) as [sess2|] eqn:Hd2.
      * destruct (Session.PutCachedContent _ _ _ sess2) as [sess3 b] eqn:Hp. cbn. split; [done|].
        intros resp' [= <-] _. split; [done|]. split; [|done]. intros _ ? [= <-].
        exact (f_equal (λ x, Manager.set_session p (fst x) (mgr s2)) (eq_sym Hp)).
      * cbn. split; [done|]. intros resp' [= <-] _. split; [done|]. by split.
    + unfold refused, classifyRequestErr. destruct (decide (ErrorText resp = "")); cbn.
      * unfold on_session. destruct (Manager.deref (mgr s2) p) as [sess2|].
        -- destruct (Session.PutCachedContent _ _ _ sess2). cbn. split; [done|]. intros ? [= <-] ?. congruence.
        -- cbn. split; [done|]. intros ? [= <-] ?. congruence.
      * split; [done|]. intros ? [= <-] ?. congruence.
  - rewrite Hread. destruct (Request p _ (ticked 2 s0)) as [s2 reply]. cbn. split; [done|].
    intros resp -> ->. done.
Qed.

(** ** Prefetching *)

Lemma filter_prefetch_sub p infos s : (snd (filter_prefetch p infos s)) `sublist_of` infos ∧
  Forall (λ i, FIsDir i = false ∧ FPath i ≠ "" ∧ (0 < FSize i ≤ Manager.PrefetchMaxFileBytes (Manager.opts (mgr s)))%Z)
    (snd (filter_prefetch p infos s)) ∧
  Manager.opts (mgr (fst (filter_prefetch p infos s))) = Manager.opts (mgr s) ∧
  requests (fst (filter_prefetch p infos s)) = requests s.
Proof.
  revert s. induction infos as [|i infos IH]; intros s; [by split_and!|].
  cbn [filter_prefetch]. unfold mbind, V_bind.
  assert (Hs : let '(s1, b) := shouldPrefetchFile p i s in
    Manager.opts (mgr s1) = Manager.opts (mgr s) ∧ requests s1 = requests s ∧
    (b = true → FIsDir i = false ∧ FPath i ≠ "" ∧ (0 < FSize i ≤ Manager.PrefetchMaxFileBytes (Manager.opts (mgr s)))%Z)).
  { unfold shouldPrefetchFile. destruct (FIsDir i); [done|]. cbn [orb].
    destruct (decide (FPath i = "")); [by rewrite bool_decide_eq_true_2|].
    rewrite bool_decide_eq_false_2 by done. cbn [orb].
    destruct (decide (FSize i ≤ 0)%Z); [by rewrite bool_decide_eq_true_2|].
    rewrite bool_decide_eq_false_2 by done. unfold mbind, V_bind, options. unfold shouldUseContentCache.
    destruct (decide (Manager.PrefetchMaxFileBytes (Manager.opts (mgr s)) < FSize i)%Z);
      [by rewrite bool_decide_eq_true_2|].
    rewrite bool_decide_eq_false_2 by done. destruct (negb _); [done|]. cbn [orb].
    unfold on_session. destruct (Manager.deref (mgr s) p) as [sess|];
      [|cbn; split_and!; [done..|]; intros _; split_and!; [done..|lia|lia]].
    destruct (Session.GetCachedContent _ _ sess) as [sess' c]. cbn. split_and!; [done..|]. intros _.
    split_and!; [done..|lia|lia]. }
  destruct (shouldPrefetchFile p i s) as [s1 b]. destruct Hs as (Ho & Hr & Hb).
  destruct (IH s1) as (Hsub & Hall & Ho1 & Hr1). rewrite Ho in Hall, Ho1. rewrite Hr in Hr1.
  destruct (filter_prefetch p infos s1) as [s2 l]. simpl in *.
  destruct b; split_and!; try done; [by constructor|constructor; auto|by constructor].
Qed.

#[local] Instance path_le_trans : Transitive path_le.
Proof. intros i j k. unfold path_le. apply transitivity. Qed.
#[local] Instance path_le_total : Total path_le.
Proof. intros i j. unfold path_le. apply (total String.le). Qed.

(** Prefetching is bounded.  The files chosen for prefetching when a directory
    is listed are among its entries, in order of their paths, no more than the
    limit for a directory; each is a file that is not empty and not larger
    than the limit for a file.  Choosing them sends no request. *)
Theorem prefetch_bounded (p : Manager.pointer) (infos : list FileInfo) (s : VState) :
  let o := Manager.opts (mgr s) in
  let '(s', l) := prefetchCandidates p infos s in
  requests s' = requests s ∧
  (Manager.PrefetchEnabled o = false → l = []) ∧
  (∀ i, i ∈ l → i ∈ infos ∧ FIsDir i = false ∧ (0 < FSize i ≤ Manager.PrefetchMaxFileBytes o)%Z) ∧
  (l = [] ∨ Z.of_nat (length l) ≤ Manager.PrefetchMaxFilesPerDir o)%Z ∧
  StronglySorted path_le l.
Proof.
  cbv zeta. unfold prefetchCandidates, mbind, V_bind, options.
  destruct (Manager.PrefetchEnabled _); cbn [negb].
  2: { cbn. split_and!; [done|done| |by left|constructor]. by intros i ?%not_elem_of_nil. }
  destruct (_ || _ || _) eqn:Hz.
  { cbn. split_and!; [done|done| |by left|constructor]. by intros i ?%not_elem_of_nil. }
  apply orb_false_iff in Hz as [_ Hz]. apply bool_decide_eq_false in Hz.
  destruct (filter_prefetch_sub p infos s) as (Hsub & Hall & _ & Hr).
  destruct (filter_prefetch p infos s) as [s' l]. cbn [fst snd] in *.
  assert (Hsorted : StronglySorted path_le (merge_sort path_le l)).
  { apply (StronglySorted_merge_sort _). }
  assert (Hin : ∀ i, i ∈ merge_sort path_le l → i ∈ infos ∧ FIsDir i = false ∧
    (0 < FSize i ≤ Manager.PrefetchMaxFileBytes (Manager.opts (mgr s)))%Z).
  { intros i. rewrite merge_sort_Permutation. intros Hi. rewrite Forall_forall in Hall.
    destruct (Hall i Hi) as (? & _ & ?). split_and!; [by eapply elem_of_sublist|done|lia|lia]. }
  set (l' := merge_sort path_le l) in *. clearbody l'. cbn. split; [done|]. split; [done|].
  set (k := Z.to_nat _). destruct (decide (Manager.PrefetchMaxFilesPerDir (Manager.opts (mgr s)) < Z.of_nat (length l'))%Z).
  - rewrite bool_decide_eq_true_2 by done. split_and!.
    + intros i Hi. apply Hin. by eapply elem_of_sublist, sublist_take.
    + right. rewrite length_take. lia.
    + rewrite <-(take_drop k l') in Hsorted. by eapply StronglySorted_app_1_l.
  - rewrite bool_decide_eq_false_2 by done. split_and!; [done|right; lia|done].
Qed.
End sessions.

(** ** Examples *)

Module ViewExample.
Definition o : Manager.ManagerOptions := Manager.mk_options 5 100 60 true 50 3.
Definition a : FileInfo := mk_FileInfo "a.go" 3 1 false 420.
Definition sess (until : option Z) : Session.Session :=
  Session.mk_Session "u" "proj" (match FsTree.Insert (H := elements_range) (Some a) FsTree.New with Ok t => t | Err _ => FsTree.New end)
    (ContentCache.New 100) ∅ None false until 0 0.
Definition manager (until : option Z) : Manager.Manager :=
  Manager.mk_Manager {["u" := 0]} {[0 := sess until]} ∅ 0 o.
Definition state (until : option Z) : VState := mk_VState (manager until) 0 [].
(** A daemon that answers a read with three bytes and everything else with the file. *)
Definition remote : Remote :=
  {| clock _ := 7%Z;
     answer s _ req := (mgr s, RResp (mk_FileResponse (RequestId req) true ""
       (Some (match Op req with Some (ReqRead _) => ResContent [x61; x62; x63] | _ => ResInfo (Some a) end)))) |}.
End ViewExample.

#[local] Existing Instances elements_range ViewExample.remote.

Lemma view_offline_witness :
  fst (removePath "u" "a.go" (ViewExample.state (Some 9%Z))) = ticked 3 (ViewExample.state (Some 9%Z)) ∧
  snd (removePath "u" "a.go" (ViewExample.state (Some 9%Z))) = Err (Plain ErrSessionOffline).
Proof.
  split; [vm_compute; reflexivity|].
  assert (Hl : live (ViewExample.state (Some 9%Z)) "u" 0 (ViewExample.sess (Some 9%Z))) by (split_and!; [vm_compute; reflexivity..|done]).
  destruct (view_offline (ViewExample.state (Some 9%Z)) "u" 0 (ViewExample.sess (Some 9%Z)) 9 Hl eq_refl ltac:(done)) as [Hc _].
  specialize (Hc (CRemove "a.go")). cbn [run_change] in Hc. destruct (removePath _ _ _). by destruct Hc as [-> _].
Defined.

Lemma view_change_witness :
  length (requests (fst (truncatePath "u" "a.go" 0 (ViewExample.state None)))) = 1.
Proof.
  assert (Hl : live (ViewExample.state None) "u" 0 (ViewExample.sess None)) by (split_and!; [vm_compute; reflexivity..|done]).
  pose proof (view_change (ViewExample.state None) "u" 0 (ViewExample.sess None) (CTruncate "a.go" 0) Hl ltac:(done)) as Hc.
  destruct (Session.prepareRequest _ _) as [sess1 req]. destruct Hc as (rq & _ & _ & Hc). cbv zeta in Hc.
  destruct (answer _ 0 rq) as [m2 r]. cbn [run_change] in Hc. destruct (truncatePath _ _ _ _) as [s' r'].
  destruct Hc as [Hc _]. cbn [fst]. by rewrite Hc.
Defined.

Lemma view_read_witness :
  length (requests (fst (readChunk "u" "a.go" 1 9 (ViewExample.state None)))) = 1 ∧
  snd (readChunk "u" "a.go" 1 9 (ViewExample.state None)) = Ok [x62; x63].
Proof.
  assert (Hl : live (ViewExample.state None) "u" 0 (ViewExample.sess None)) by (split_and!; [vm_compute; reflexivity..|done]).
  pose proof (view_read (ViewExample.state None) "u" 0 (ViewExample.sess None) "a.go" 1 9 ViewExample.a Hl ltac:(done)
    ltac:(vm_compute; reflexivity) ltac:(vm_compute; reflexivity) eq_refl ltac:(lia)) as Hr.
  assert (Hc : Session.GetCachedContent "a.go" (Some ViewExample.a) (ViewExample.sess None) =
    (fst (Session.GetCachedContent "a.go" (Some ViewExample.a) (ViewExample.sess None)), None))
    by (vm_compute; reflexivity).
  rewrite Hc in Hr. assert (Hw : snd (shouldUseContentCache ViewExample.a (ViewExample.state None)) = true)
    by (vm_compute; reflexivity).
  rewrite Hw in Hr. destruct (readChunk _ _ _ _ _) as [s' r]. cbv zeta in Hr.
  match type of Hr with let (_, _) := ?t in _ => set (q := t) in Hr end. assert (Hn : length (requests (fst q)) = 1) by (vm_compute; reflexivity).
  assert (Hq : snd q = RResp (mk_FileResponse "u-1" true "" (Some (ResContent [x61; x62; x63])))) by (vm_compute; reflexivity).
  destruct q as [s2 rep]. cbn in Hn, Hq. cbn [fst snd]. destruct Hr as [-> Hr]. split; [done|]. by apply (Hr _ Hq eq_refl).
Defined.
