(* ===== verification/Inode.v ===== *)
(** * Inode numbers of the mounted file system (pkg/fusefs/inode.go)

    The allocator, which the mount creates once and never leaves nil, and the
    identity of the numbers it hands out over any sequence of calls. *)
From S2P Require Import Prelude Proto.
From stdpp Require Import options.

Definition firstWorkspaceInode : Z := 2.

(** [syscall.S_IFDIR] and [syscall.S_IFREG] on Linux *)
Definition S_IFDIR : Z := 16384.
Definition S_IFREG : Z := 32768.

Record inodeKey : Type := mk_inodeKey {
  key_userID : string;
  key_workspace : string;
  key_relPath : string;
  key_mode : Z;
}.

#[export] Instance inodeKey_eq_dec : EqDecision inodeKey.
Proof. solve_decision. Defined.
#[export] Instance inodeKey_countable : Countable inodeKey.
Proof.
  apply (inj_countable' (λ k, (key_userID k, key_workspace k, key_relPath k, key_mode k))
    (λ '(u, w, r, m), mk_inodeKey u w r m)). by intros [].
Defined.

Record inodeAllocator : Type := mk_inodeAllocator {
  next : Z;                          (* uint64 *)
  byPath : gmap inodeKey Z;
}.

Record stableAttr : Type := mk_stableAttr { Mode : Z; Ino : Z; Gen : Z }.

Definition newInodeAllocator : inodeAllocator := mk_inodeAllocator firstWorkspaceInode ∅.

Definition stableMode (info : option FileInfo) : Z :=
  match info with
  | Some i => if FIsDir i then S_IFDIR else S_IFREG
  | None => S_IFREG
  end.

Definition stable_key (userID workspace relPath : string) (info : option FileInfo) : inodeKey :=
  mk_inodeKey userID workspace relPath (stableMode info).

(** The method [stableAttr]. *)
Definition allocate (userID workspace relPath : string) (info : option FileInfo) (a : inodeAllocator)
    : inodeAllocator * stableAttr :=
  let mode := stableMode info in
  let key := mk_inodeKey userID workspace relPath mode in
  match byPath a !! key with
  | Some ino => (a, mk_stableAttr mode ino 0)
  | None =>
    let ino := next a in
    (mk_inodeAllocator (uint64 (next a + 1)) (<[key := ino]> (byPath a)), mk_stableAttr mode ino 0)
  end.

Definition forget (userID workspace relPath : string) (a : inodeAllocator) : inodeAllocator :=
  mk_inodeAllocator (next a)
    (delete (mk_inodeKey userID workspace relPath S_IFDIR)
       (delete (mk_inodeKey userID workspace relPath S_IFREG) (byPath a))).

(** ** Sequences of calls *)

Inductive ino_op : Type :=
  | OpAttr (userID workspace relPath : string) (info : option FileInfo)
  | OpForget (userID workspace relPath : string).

Definition apply_op (o : ino_op) (a : inodeAllocator) : inodeAllocator :=
  match o with
  | OpAttr u w r i => fst (allocate u w r i a)
  | OpForget u w r => forget u w r a
  end.

Definition run_ops (ops : list ino_op) (a : inodeAllocator) : inodeAllocator := foldl (λ a o, apply_op o a) a ops.

(** Whether a call forgets the key. *)
Definition forgets (k : inodeKey) (o : ino_op) : Prop :=
  match o with
  | OpForget u w r => u = key_userID k ∧ w = key_workspace k ∧ r = key_relPath k
  | OpAttr _ _ _ _ => False
  end.

(** The numbers in use are different, at least 2 and below the next one. *)
Record alloc_inv (a : inodeAllocator) : Prop := {
  inv_next : (firstWorkspaceInode ≤ next a)%Z;
  inv_range k n : byPath a !! k = Some n → (firstWorkspaceInode ≤ n < next a)%Z;
  inv_inj k1 k2 n : byPath a !! k1 = Some n → byPath a !! k2 = Some n → k1 = k2;
}.

Lemma new_inv : alloc_inv newInodeAllocator.
Proof. by split. Qed.

Lemma forget_lookup k u w r a :
  byPath (forget u w r a) !! k =
    if decide (k = mk_inodeKey u w r S_IFDIR ∨ k = mk_inodeKey u w r S_IFREG) then None else byPath a !! k.
Proof.
  unfold forget. cbn [byPath]. rewrite !lookup_delete. repeat case_decide; naive_solver.
Qed.

Lemma forgets_iff k u w r : (key_mode k = S_IFDIR ∨ key_mode k = S_IFREG) →
  forgets k (OpForget u w r) ↔ (k = mk_inodeKey u w r S_IFDIR ∨ k = mk_inodeKey u w r S_IFREG).
Proof. destruct k. simpl. naive_solver. Qed.

Lemma stable_key_mode u w r i : key_mode (stable_key u w r i) = S_IFDIR ∨ key_mode (stable_key u w r i) = S_IFREG.
Proof. destruct i as [i|]; cbn; [destruct (FIsDir i)|]; auto. Qed.

Lemma allocate_cases u w r i a :
  let k := stable_key u w r i in
  let '(a', attr) := allocate u w r i a in
  (byPath a !! k = Some (Ino attr) ∧ a' = a) ∨
  (byPath a !! k = None ∧ Ino attr = next a ∧ a' = mk_inodeAllocator (uint64 (next a + 1)) (<[k := next a]> (byPath a))).
Proof. unfold allocate. cbv zeta. fold (stable_key u w r i). destruct (byPath a !! _); auto. Qed.

(** One call: the invariant holds on while [next] does not wrap, and [next]
    grows by at most one. *)
Lemma apply_op_inv o a :
  alloc_inv a → (next a + 1 < 2 ^ 64)%Z →
  alloc_inv (apply_op o a) ∧ (next a ≤ next (apply_op o a) ≤ next a + 1)%Z.
Proof.
  intros [Hn Hr Hi] Hw. unfold firstWorkspaceInode in *. destruct o as [u w r i|u w r]; cbn [apply_op].
  - pose proof (allocate_cases u w r i a) as Hc. cbv zeta in Hc.
    destruct (allocate u w r i a) as [a' attr]. cbn [fst]. destruct Hc as [[_ ->]|(Hno & _ & ->)].
    + split; [done|lia].
    + cbn [next]. rewrite uint64_id by lia. split; [|lia].
      split; cbn [next byPath]; unfold firstWorkspaceInode; rewrite ?uint64_id by lia.
      * lia.
      * intros k n [[<- <-]|[_ Hk%Hr]]%lookup_insert_Some; lia.
      * intros k1 k2 n [[<- <-]|[? Hk1]]%lookup_insert_Some [[<- ?]|[? Hk2]]%lookup_insert_Some;
          [done|apply Hr in Hk2; lia|apply Hr in Hk1; lia|by eapply Hi].
  - split; [|cbn; lia]. split; [done| |].
    + intros k n. rewrite forget_lookup. case_decide; [done|apply Hr].
    + intros k1 k2 n. rewrite !forget_lookup. repeat case_decide; [done..|apply Hi].
Qed.

(** A number handed out before stays with its key until the key is forgotten,
    and no other key gets it. *)
Lemma apply_op_holds o a k n :
  alloc_inv a → (next a + 1 < 2 ^ 64)%Z → (key_mode k = S_IFDIR ∨ key_mode k = S_IFREG) → (n < next a)%Z →
  byPath (apply_op o a) !! k = Some n ↔ byPath a !! k = Some n ∧ ¬ forgets k o.
Proof.
  intros Ha Hw Hk Hn. destruct o as [u w r i|u w r]; cbn [apply_op].
  - pose proof (allocate_cases u w r i a) as Hc. cbv zeta in Hc.
    destruct (allocate u w r i a) as [a' attr]. cbn [fst]. destruct Hc as [[_ ->]|(Hno & _ & ->)];
      [simpl; tauto|]. cbn [byPath forgets].
    rewrite lookup_insert_Some. split; [intros [[_ ?]|[_ ?]]; [lia|tauto]|].
    intros [? _]. right. split; [congruence|done].
  - rewrite forget_lookup, (forgets_iff k u w r Hk). case_decide; naive_solver.
Qed.

Lemma run_ops_inv ops a :
  alloc_inv a → (next a + Z.of_nat (length ops) < 2 ^ 64)%Z →
  alloc_inv (run_ops ops a) ∧ (next a ≤ next (run_ops ops a) ≤ next a + Z.of_nat (length ops))%Z ∧
  ∀ k n, (key_mode k = S_IFDIR ∨ key_mode k = S_IFREG) → (n < next a)%Z →
    byPath (run_ops ops a) !! k = Some n ↔ byPath a !! k = Some n ∧ Forall (λ o, ¬ forgets k o) ops.
Proof.
  revert a. induction ops as [|o ops IH]; intros a Ha Hw.
  { cbn. split_and!; [done|lia|lia|]. intros k n _ _. rewrite Forall_nil. tauto. }
  cbn [length] in Hw. destruct (apply_op_inv o a Ha ltac:(lia)) as [Ha' Hn'].
  destruct (IH (apply_op o a) Ha' ltac:(lia)) as (Hinv & Hb & Hl). cbn [run_ops foldl length].
  fold (run_ops ops (apply_op o a)). split_and!; [done|lia|lia|]. intros k n Hk Hn.
  rewrite Hl by (done || lia). rewrite (apply_op_holds o a) by (done || lia). rewrite Forall_cons. tauto.
Qed.

Lemma run_ops_app l1 l2 a : run_ops (l1 ++ l2) a = run_ops l2 (run_ops l1 a).
Proof. apply foldl_app. Qed.

(** Inode numbers identify entries.  In any sequence of fewer than 2^64 - 2
    calls on a new allocator, two calls of [stableAttr] return the same number
    exactly when they are for the same user, project, path and kind of entry
    and the path was not forgotten in between.  Every number is above the
    root's, and the calls change nothing else. *)
Theorem inode_identity (before between : list ino_op) (u1 w1 r1 u2 w2 r2 : string) (i1 i2 : option FileInfo) :
  let ops := before ++ OpAttr u1 w1 r1 i1 :: between in
  (Z.of_nat (length ops) < 2 ^ 64 - 2)%Z →
  let a1 := run_ops before newInodeAllocator in
  let n1 := Ino (snd (allocate u1 w1 r1 i1 a1)) in
  let n2 := Ino (snd (allocate u2 w2 r2 i2 (run_ops ops newInodeAllocator))) in
  let k1 := stable_key u1 w1 r1 i1 in
  (1 < n1)%Z ∧ (1 < n2)%Z ∧
  (n1 = n2 ↔ k1 = stable_key u2 w2 r2 i2 ∧ Forall (λ o, ¬ forgets k1 o) between).
Proof.
  intros ops Hlen a1 n1 n2 k1. unfold ops in *. rewrite length_app in Hlen. cbn [length] in Hlen.
  destruct (run_ops_inv before newInodeAllocator new_inv) as (Ha1 & Hb1 & _);
    [change (next newInodeAllocator) with 2%Z; lia|].
  fold a1 in Ha1, Hb1. change (next newInodeAllocator) with 2%Z in Hb1.
  set (a2 := fst (allocate u1 w1 r1 i1 a1)).
  destruct (apply_op_inv (OpAttr u1 w1 r1 i1) a1 Ha1 ltac:(lia)) as [Ha2 Hb2]. cbn [apply_op] in Ha2, Hb2. fold a2 in Ha2, Hb2.
  assert (Hk1 : byPath a2 !! k1 = Some n1).
  { pose proof (allocate_cases u1 w1 r1 i1 a1) as Hc. cbv zeta in Hc. unfold a2, n1, k1.
    destruct (allocate u1 w1 r1 i1 a1) as [a' attr]. cbn [fst snd] in *.
    destruct Hc as [[? ->]|(_ & -> & ->)]; [done|apply lookup_insert_eq]. }
  destruct (inv_range _ Ha2 _ _ Hk1) as [Hn1 Hn1']. unfold firstWorkspaceInode in Hn1.
  destruct (run_ops_inv between a2 Ha2 ltac:(lia)) as (Ha3 & Hb3 & Hhold).
  assert (Hn2 : n2 = Ino (snd (allocate u2 w2 r2 i2 (run_ops between a2)))) by (unfold n2; by rewrite run_ops_app).
  set (a3 := run_ops between a2) in *. clearbody n2.
  pose proof (allocate_cases u2 w2 r2 i2 a3) as Hc. cbv zeta in Hc.
  destruct (allocate u2 w2 r2 i2 a3) as [a' attr]. cbn [snd] in Hn2. subst n2. set (k2 := stable_key u2 w2 r2 i2) in *.
  split; [lia|]. destruct Hc as [[Hk2 _]|(Hno & -> & _)].
  - split; [pose proof (inv_range _ Ha3 _ _ Hk2); unfold firstWorkspaceInode in *; lia|]. split.
    + intros Heq. rewrite <-Heq in Hk2. apply Hhold in Hk2 as [Hk2 Hf]; [|apply stable_key_mode|lia].
      assert (k1 = k2) as -> by exact (inv_inj _ Ha2 _ _ _ Hk1 Hk2). done.
    + intros [Heq Hf]. assert (H3 : byPath a3 !! k1 = Some n1) by (apply Hhold; [apply stable_key_mode|lia|done]).
      rewrite Heq in H3. congruence.
  - split; [lia|]. split; [lia|]. intros [Heq Hf].
    assert (H3 : byPath a3 !! k1 = Some n1) by (apply Hhold; [apply stable_key_mode|lia|done]).
    rewrite Heq in H3. congruence.
Qed.

(** A path that is removed and created again gets a new number; another
    project's entry of the same path has its own. *)
Lemma inode_identity_witness :
  let f := Some (mk_FileInfo "a" 1 1 false 0) in
  let n1 := Ino (snd (allocate "u" "p" "a" f newInodeAllocator)) in
  n1 ≠ Ino (snd (allocate "u" "p" "a" f (run_ops [OpAttr "u" "p" "a" f; OpForget "u" "p" "a"] newInodeAllocator))) ∧
  n1 = Ino (snd (allocate "u" "p" "a" f (run_ops [OpAttr "u" "p" "a" f; OpForget "u" "q" "a"] newInodeAllocator))).
Proof.
  intros f n1. split.
  - intros Heq. pose proof (inode_identity [] [OpForget "u" "p" "a"] "u" "p" "a" "u" "p" "a" f f ltac:(done)) as Hid.
    cbv zeta in Hid. destruct Hid as (_ & _ & [Hid _]). destruct (Hid Heq) as [_ Hf%Forall_inv]. by apply Hf.
  - pose proof (inode_identity [] [OpForget "u" "q" "a"] "u" "p" "a" "u" "p" "a" f f ltac:(done)) as Hid.
    cbv zeta in Hid. destruct Hid as (_ & _ & [_ Hid]). apply Hid. split; [done|]. constructor; [|constructor].
    by intros (_ & Hw & _).
Defined.
