(* ===== verification/Mount.v ===== *)
(** * The mounted file system (pkg/fusefs/mount_linux.go)

    The handlers of the three kinds of nodes, the directory of users, the
    directory of a user and what is below, and the error codes they return.
    A handler's result is an error code, or what it hands to the library that
    talks to the kernel; the library is not modelled, mounting is in Server. *)
From S2P Require Import Prelude GoPath PathFacts Safepath RelPath Proto.
From S2P Require Session FsTree Manager Inode.
From S2P Require Import View.
From stdpp Require Import options.

(** ** Error codes *)

Inductive Errno : Type :=
  | EINTR | ETIMEDOUT | EIO | ENOENT | EACCES | EEXIST | ENOTDIR | EISDIR | ENOTEMPTY | EXDEV | EINVAL.

#[export] Instance Errno_eq_dec : EqDecision Errno.
Proof. solve_decision. Defined.

(** What the rules compare an error with: one of the values, or
    [context.DeadlineExceeded]. *)
Inductive target : Type := Is (b : base_error) | IsDeadline.

(** [errors.Is]: the error, or one that it wraps. *)
Definition errors_Is (e : error) (t : target) : bool :=
  match e, t with
  | Plain b, Is b' => bool_decide (b = b')
  | Detailed b _, Is b' => bool_decide (b = b')
  | Failed r, Is b' =>
    bool_decide (b' = ErrSessionFailed) ||
    match r with RequestCanceled => bool_decide (b' = Canceled) | _ => false end
  | Failed DeadlineExceeded, IsDeadline => true
  | _, IsDeadline => false
  end.

Definition isAnyError (e : error) (targets : list target) : bool := existsb (errors_Is e) targets.

Definition errnoRules : list (Errno * list target) :=
  [(EINTR, [Is Canceled]);
   (ETIMEDOUT, [Is ErrRequestTimeout; IsDeadline]);
   (EIO, [Is ErrSessionOffline; Is ErrSessionFailed]);
   (ENOENT, [Is ErrPathNotFound]);
   (EACCES, [Is ErrPermissionDenied]);
   (EEXIST, [Is ErrAlreadyExists]);
   (ENOTDIR, [Is ErrNotDirectory]);
   (EISDIR, [Is ErrIsDirectory]);
   (ENOTEMPTY, [Is ErrDirectoryNotEmpty]);
   (EXDEV, [Is ErrCrossDevice]);
   (EINVAL, [Is ErrInvalidArgument])].

Fixpoint first_rule (rules : list (Errno * list target)) (e : error) : Errno :=
  match rules with
  | [] => EIO
  | (errno, targets) :: rules' => if isAnyError e targets then errno else first_rule rules' e
  end.

(** For an error that is not nil; a nil error is the code 0. *)
Definition errnoFromError (e : error) : Errno := first_rule errnoRules e.

(** ** Options *)

Record Options : Type := mk_Options {
  Mountpoint : string;
  has_Manager : bool;                (* Manager != nil *)
  EntryTimeout : Z;
  AttrTimeout : Z;
  NegativeTimeout : Z;
}.

Definition validateOptions (o : Options) : option base_error :=
  if negb (has_Manager o) then Some ErrNilManager
  else if decide (trim_space (Mountpoint o) = "") then Some ErrEmptyMountpoint
  else None.

Definition second : Z := 1000000000.    (* time.Second *)

Definition defaultedOptions (o : Options) : Options :=
  mk_Options (Mountpoint o) (has_Manager o)
    (if bool_decide (EntryTimeout o ≤ 0)%Z then second else EntryTimeout o)
    (if bool_decide (AttrTimeout o ≤ 0)%Z then second else AttrTimeout o)
    (NegativeTimeout o).

(** ** Nodes and attributes *)

Record userNode : Type := mk_userNode { u_userID : string }.

Record workspaceNode : Type := mk_workspaceNode {
  n_userID : string;
  n_workspace : string;
  n_relPath : string;
}.

Record Attr : Type := mk_Attr {
  a_Mode : Z;
  a_Size : Z;
  a_Nlink : Z;
  a_Mtime : Z;
  a_Ctime : Z;
  a_Atime : Z;
}.

Record DirEntry : Type := mk_DirEntry { d_Name : string; d_Mode : Z; d_Ino : Z }.

Definition maxInt64 (v floor : Z) : Z := if bool_decide (v < floor)%Z then floor else v.

Definition childPath (parent name : string) : string :=
  if decide (parent = "") then name else parent +:+ "/" +:+ name.

Definition baseName (relPath : string) : string := path_base relPath.

Definition visibleMode (info : option FileInfo) : Z :=
  match info with
  | None => Z.lor Inode.S_IFREG 292
  | Some i =>
    let perms := FMode i in
    let perms := if bool_decide (perms = 0)%Z then (if FIsDir i then 365 else 292)%Z else perms in
    Z.lor (Inode.stableMode info) perms
  end.

(** The seconds of a reading of the clock, which counts nanoseconds. *)
Definition unix (t : Z) : Z := (t `div` second)%Z.

Definition fillAttr (now : Z) (info : FileInfo) : Attr :=
  let modTime := if bool_decide (FModTime info = 0)%Z then unix now else FModTime info in
  mk_Attr (visibleMode (Some info)) (uint64 (maxInt64 (FSize info) 0)) 1
    (uint64 modTime) (uint64 modTime) (uint64 (unix now)).

(** The attributes that the directories which are not part of a workspace set
    themselves; the others stay 0. *)
Definition dirAttr (now : Z) : Attr := mk_Attr (Z.lor Inode.S_IFDIR 365) 0 0 (uint64 (unix now)) 0 0.

(** ** State *)

Record MState : Type := mk_MState { vstate : VState; inodes : Inode.inodeAllocator }.

Definition F (A : Type) : Type := MState → MState * A.
#[global] Instance F_ret : MRet F := λ A a s, (s, a).
#[global] Instance F_bind : MBind F := λ A B f m s, let '(s, a) := m s in f a s.

Definition lift {A} (m : V A) : F A := λ s, let '(v, a) := m (vstate s) in (mk_MState v (inodes s), a).

(** [x, err := m; if err != nil { return errnoFromError(err) }] *)
Definition check {A B} (m : V (result error A)) (k : A → F (result Errno B)) : F (result Errno B) :=
  lift m ≫= λ r, match r with Ok a => k a | Err e => mret (Err (errnoFromError e)) end.

Notation "x ←! m ; k" := (check m (λ x, k))
  (at level 20, m at level 100, k at level 200, right associativity) : go_scope.

Definition stableAttr (userID workspace relPath : string) (info : FileInfo) : F Inode.stableAttr := λ s,
  let '(a, attr) := Inode.allocate userID workspace relPath (Some info) (inodes s) in
  (mk_MState (vstate s) a, attr).

Definition forget (userID workspace relPath : string) : F unit := λ s,
  (mk_MState (vstate s) (Inode.forget userID workspace relPath (inodes s)), tt).

(** [manager.UserIDs()], which reads the clock. *)
Definition manager_UserIDs `{MapRange} `{Remote} : V (list string) := λ s,
  let '(s, now) := tick s in
  let '(m, l) := Manager.UserIDs now (mgr s) in
  (mk_VState m (ticks s) (requests s), l).

(** ** Handlers *)

Section handlers.
Context `{MapRange} `{Remote}.

(** [fillEntryOut] and [fillAttrOut] *)
Definition fill (info : FileInfo) : F Attr := now ← lift tick; mret (fillAttr now info).

Definition dirInfo (mode : Z) : FileInfo := mk_FileInfo "" 0 0 true mode.

Definition root_Getattr : F (result Errno Attr) := now ← lift tick; mret (Ok (dirAttr now)).

(** A new node, its identity, and the attributes of the entry. *)
Definition root_Lookup (name : string) : F (result Errno (userNode * Inode.stableAttr * Attr)) :=
  info ←! lookupInfo name "";
  out ← fill info;
  attr ← stableAttr name "" "" info;
  mret (Ok (mk_userNode name, attr, out)).

(** The loop over the users. *)
Fixpoint user_entries (userIDs : list string) : F (list DirEntry) :=
  match userIDs with
  | [] => mret []
  | userID :: rest =>
    attr ← stableAttr userID "" "" (dirInfo 0);
    l ← user_entries rest;
    mret (mk_DirEntry userID (Inode.Mode attr) (Inode.Ino attr) :: l)
  end.

Definition root_Readdir : F (result Errno (list DirEntry)) :=
  userIDs ← lift manager_UserIDs;
  entries ← user_entries userIDs;
  mret (Ok entries).

Definition user_Getattr (n : userNode) : F (result Errno Attr) :=
  _ ←! requireSession (u_userID n);
  now ← lift tick;
  mret (Ok (dirAttr now)).

Definition user_Lookup (n : userNode) (name : string) : F (result Errno (workspaceNode * Inode.stableAttr * Attr)) :=
  workspace ←! workspaceNameFor (u_userID n);
  if decide (name = workspace) then
    let info := dirInfo 365 in
    out ← fill info;
    attr ← stableAttr (u_userID n) workspace "" info;
    mret (Ok (mk_workspaceNode (u_userID n) workspace "", attr, out))
  else mret (Err ENOENT).

Definition user_Readdir (n : userNode) : F (result Errno (list DirEntry)) :=
  workspace ←! workspaceNameFor (u_userID n);
  attr ← stableAttr (u_userID n) workspace "" (dirInfo 0);
  mret (Ok [mk_DirEntry workspace (Inode.Mode attr) (Inode.Ino attr)]).

Definition Getattr (n : workspaceNode) : F (result Errno Attr) :=
  info ←! lookupInfo (n_userID n) (n_relPath n);
  out ← fill info;
  mret (Ok out).

(** The end of [Lookup], [Create] and [Mkdir]. *)
Definition new_child (n : workspaceNode) (relPath : string) (info : FileInfo)
    : F (result Errno (workspaceNode * Inode.stableAttr * Attr)) :=
  out ← fill info;
  attr ← stableAttr (n_userID n) (n_workspace n) relPath info;
  mret (Ok (mk_workspaceNode (n_userID n) (n_workspace n) relPath, attr, out)).

Definition Lookup (n : workspaceNode) (name : string) : F (result Errno (workspaceNode * Inode.stableAttr * Attr)) :=
  let nextPath := childPath (n_relPath n) name in
  info ←! lookupInfo (n_userID n) nextPath;
  new_child n nextPath info.

(** [sort.Slice] by name; the names in a listing are different. *)
Definition name_le (i j : FileInfo) : Prop := String.le (baseName (FPath i)) (baseName (FPath j)).
#[global] Instance name_le_dec : RelDecision name_le.
Proof. intros i j. unfold name_le. apply _. Defined.

Fixpoint dir_entries (n : workspaceNode) (infos : list FileInfo) : F (list DirEntry) :=
  match infos with
  | [] => mret []
  | info :: rest =>
    attr ← stableAttr (n_userID n) (n_workspace n) (FPath info) info;
    l ← dir_entries n rest;
    mret (mk_DirEntry (baseName (FPath info)) (Inode.Mode attr) (Inode.Ino attr) :: l)
  end.

(** With the entries, the goroutines that were started: they run beside the
    handler, as [run_exec] says. *)
Definition Readdir (n : workspaceNode) : F (result Errno (list DirEntry * list (Manager.pointer * FileInfo))) :=
  infos ←! listInfos (n_userID n) (n_relPath n);
  started ← lift (startPrefetch (n_userID n) infos);
  let infos := merge_sort name_le infos in
  entries ← dir_entries n infos;
  mret (Ok (entries, started)).

Definition Open (n : workspaceNode) : F (result Errno unit) :=
  info ←! lookupInfo (n_userID n) (n_relPath n);
  if FIsDir info then mret (Err EISDIR) else mret (Ok tt).

(** [size] is the length of the buffer. *)
Definition Read (n : workspaceNode) (size off : Z) : F (result Errno bytes) :=
  data ←! readChunk (n_userID n) (n_relPath n) off size;
  mret (Ok data).

Definition Write (n : workspaceNode) (data : bytes) (off : Z) : F (result Errno Z) :=
  _ ←! writeChunk (n_userID n) (n_relPath n) off data;
  mret (Ok (uint32 (Z.of_nat (length data)))).

Definition Create (n : workspaceNode) (name : string) : F (result Errno (workspaceNode * Inode.stableAttr * Attr)) :=
  let childRel := childPath (n_relPath n) name in
  _ ←! createFile (n_userID n) childRel;
  info ←! lookupInfo (n_userID n) childRel;
  new_child n childRel info.

Definition Mkdir (n : workspaceNode) (name : string) : F (result Errno (workspaceNode * Inode.stableAttr * Attr)) :=
  let childRel := childPath (n_relPath n) name in
  _ ←! mkdirAt (n_userID n) childRel false;
  info ←! lookupInfo (n_userID n) childRel;
  new_child n childRel info.

(** [Unlink] and [Rmdir] are the same. *)
Definition Unlink (n : workspaceNode) (name : string) : F (result Errno unit) :=
  let childRel := childPath (n_relPath n) name in
  _ ←! removePath (n_userID n) childRel;
  _ ← forget (n_userID n) (n_workspace n) childRel;
  mret (Ok tt).

Definition Rmdir (n : workspaceNode) (name : string) : F (result Errno unit) :=
  let childRel := childPath (n_relPath n) name in
  _ ←! removePath (n_userID n) childRel;
  _ ← forget (n_userID n) (n_workspace n) childRel;
  mret (Ok tt).

(** The new parent is [None] when it is not a node of a workspace. *)
Definition Rename (n : workspaceNode) (oldName : string) (newParent : option workspaceNode) (newName : string)
    : F (result Errno unit) :=
  match newParent with
  | None => mret (Err EINVAL)
  | Some target =>
    if bool_decide (n_userID target ≠ n_userID n) || bool_decide (n_workspace target ≠ n_workspace n)
    then mret (Err EXDEV)
    else
      let oldRel := childPath (n_relPath n) oldName in
      let newRel := childPath (n_relPath target) newName in
      _ ←! renamePath (n_userID n) oldRel newRel;
      _ ← forget (n_userID n) (n_workspace n) oldRel;
      mret (Ok tt)
  end.

(** [size] is [in.Size] when [in.Valid] has the size, a [uint64]. *)
Definition Setattr (n : workspaceNode) (size : option Z) : F (result Errno Attr) :=
  match size with
  | None => Getattr n
  | Some sz =>
    _ ←! truncatePath (n_userID n) (n_relPath n) (int64 sz);
    Getattr n
  end.
End handlers.

(** ** The operations of a node of a workspace *)

Inductive node_op : Type :=
  | NGetattr
  | NLookup (name : string)
  | NReaddir
  | NOpen
  | NRead (size off : Z)
  | NWrite (data : bytes) (off : Z)
  | NCreate (name : string)
  | NMkdir (name : string)
  | NUnlink (name : string)
  | NRmdir (name : string)
  | NRename (oldName : string) (newParent : option workspaceNode) (newName : string)
  | NSetattr (size : option Z).

Inductive outcome : Type :=
  | ODone
  | OAttr (a : Attr)
  | ONode (x : workspaceNode * Inode.stableAttr * Attr)
  | OEntries (x : list DirEntry * list (Manager.pointer * FileInfo))
  | OBytes (data : bytes)
  | OCount (n : Z).

Definition outcome_of {A} (f : A → outcome) (m : F (result Errno A)) : F (result Errno outcome) :=
  r ← m; mret (f <$> r).

Definition run_node `{MapRange} `{Remote} (n : workspaceNode) (o : node_op) : F (result Errno outcome) :=
  match o with
  | NGetattr => outcome_of OAttr (Getattr n)
  | NLookup name => outcome_of ONode (Lookup n name)
  | NReaddir => outcome_of OEntries (Readdir n)
  | NOpen => outcome_of (λ _, ODone) (Open n)
  | NRead size off => outcome_of OBytes (Read n size off)
  | NWrite data off => outcome_of OCount (Write n data off)
  | NCreate name => outcome_of ONode (Create n name)
  | NMkdir name => outcome_of ONode (Mkdir n name)
  | NUnlink name => outcome_of (λ _, ODone) (Unlink n name)
  | NRmdir name => outcome_of (λ _, ODone) (Rmdir n name)
  | NRename old parent new => outcome_of (λ _, ODone) (Rename n old parent new)
  | NSetattr size => outcome_of OAttr (Setattr n size)
  end.

(** *** The goroutines an operation starts

    A goroutine of [prefetchFile], and the run of an operation once its handler
    has returned: each step is one of a goroutine, or [Meanwhile], when the rest
    of the program has done anything to the sessions. *)
Record goroutine : Type := mk_goroutine {
  go_session : Manager.pointer;
  go_info : FileInfo;
  go_pc : prefetch_pc;
}.

Record Run : Type := mk_Run { r_state : VState; r_goroutines : list goroutine }.

Definition started (r : result Errno outcome) : list (Manager.pointer * FileInfo) :=
  match r with Ok (OEntries (_, l)) => l | _ => [] end.

Definition run_start `{MapRange} `{Remote} (n : workspaceNode) (o : node_op) (s : MState) : Run :=
  let '(s', r) := run_node n o s in
  mk_Run (vstate s') ((λ '(p, i), mk_goroutine p i PCheck) <$> started r).

Inductive run_label : Type := Prefetch (k : nat) | Meanwhile (m : Manager.Manager).

Definition run_exec `{MapRange} `{Remote} (l : run_label) (t : Run) : option Run :=
  match l with
  | Prefetch k =>
    g ← r_goroutines t !! k;
    let '(v, pc) := prefetch_step (go_session g) (go_info g) (go_pc g) (r_state t) in
    Some (mk_Run v (<[k := mk_goroutine (go_session g) (go_info g) pc]> (r_goroutines t)))
  | Meanwhile m => Some (mk_Run (mk_VState m (ticks (r_state t)) (requests (r_state t))) (r_goroutines t))
  end.

Definition run_step `{MapRange} `{Remote} (t t' : Run) : Prop := ∃ l, run_exec l t = Some t'.

(** The runs of an operation. *)
Definition running `{MapRange} `{Remote} (n : workspaceNode) (o : node_op) (s : MState) : Run → Prop :=
  reachable (eq (run_start n o s)) run_step.

Definition run_labels `{MapRange} `{Remote} (n : workspaceNode) (o : node_op) (s : MState) (ls : list run_label) : option Run :=
  foldl (λ t l, t ← t; run_exec l t) (Some (run_start n o s)) ls.

Lemma run_labels_running `{MapRange} `{Remote} n o s ls t : run_labels n o s ls = Some t → running n o s t.
Proof.
  unfold run_labels. revert t. induction ls as [|l ls IH] using rev_ind; intros t; [intros [= <-]; by apply reachable_init|].
  rewrite foldl_app. cbn [foldl]. destruct (foldl _ _ ls) as [t1|]; [|done]. intros Hl.
  eapply reachable_step; [by apply IH|by exists l].
Qed.

(** What a goroutine asks for: the file, from its beginning to its end. *)
Definition read_of (i : FileInfo) : Operation := ReqRead (mk_ReadFileReq (FPath i) 0 0).

(** What a handler may ask of the daemon: each names the node's own path, or
    the entry of it that the operation names. *)
Definition asked_by (n : workspaceNode) (o : node_op) : list Operation :=
  let child := childPath (n_relPath n) in
  match o with
  | NRead size off =>
    [ReqRead (mk_ReadFileReq (n_relPath n) 0 0);
     ReqRead (mk_ReadFileReq (n_relPath n) off (if bool_decide (size < 0)%Z then 0%Z else size))]
  | NWrite data off => [asked (CWrite (n_relPath n) off data)]
  | NCreate name => [asked (CCreate (child name))]
  | NMkdir name => [asked (CMkdir (child name) false)]
  | NUnlink name | NRmdir name => [asked (CRemove (child name))]
  | NRename old (Some target) new => [asked (CRename (child old) (childPath (n_relPath target) new))]
  | NSetattr (Some size) => [asked (CTruncate (n_relPath n) (int64 size))]
  | _ => []
  end.

(** ** What holds after a computation on the sessions *)

Definition triple {A} (P : VState → Prop) (m : V A) (Q : A → VState → Prop) : Prop :=
  ∀ s, P s → Q (snd (m s)) (fst (m s)).

Section triples.
Context {A B : Type} (P : VState → Prop).

Lemma triple_ret (a : A) : triple P (mret a) (λ _, P).
Proof. by intros s. Qed.

Lemma triple_bind (m : V A) (f : A → V B) Q R :
  triple P m Q → (∀ a, triple (Q a) (f a) R) → triple P (m ≫= f) R.
Proof. intros Hm Hf s Hs. unfold mbind, V_bind. specialize (Hm s Hs). destruct (m s). by apply Hf. Qed.

Lemma triple_post (m : V A) (Q R : A → VState → Prop) :
  triple P m Q → (∀ a s, Q a s → R a s) → triple P m R.
Proof. intros Hm HQ s Hs. by apply HQ, Hm. Qed.

Lemma triple_pre (P' : VState → Prop) (m : V A) Q : triple P' m Q → (∀ s, P s → P' s) → triple P m Q.
Proof. intros Hm HP s Hs. by apply Hm, HP. Qed.

Lemma triple_from_session p (d : A) f : triple P (from_session p d f) (λ _, P).
Proof. by intros s. Qed.

End triples.

Lemma triple_try_bind {A B} P (m : V (result error A)) (k : A → V (result error B)) Q R :
  triple P m Q → (∀ a, triple (Q (Ok a)) (k a) (λ _, R)) → (∀ e s, Q (Err e) s → R s) →
  triple P (try m k) (λ _, R).
Proof.
  intros Hm Hk He. unfold try. eapply triple_bind; [exact Hm|]. intros [a|e]; [apply Hk|].
  intros s Hs. by eapply He.
Qed.

(** *** Isolation

    From the state [s0] on, for the user [userID]: before the request none was
    sent, and whatever session the user has is the one the user had; the request
    asks for one of [reach]; and the sessions of the others are not touched, as
    long as what happens while a request waits does not touch them. *)
Definition discreet `{Remote} : Prop :=
  ∀ s p req q, q ≠ p → Manager.deref (fst (answer s p req)) q = Manager.deref (mgr s) q.

Section isolation.
Context `{MapRange} `{Remote} (userID : string) (s0 : VState) (reach : list Operation).

Definition owned (p : Manager.pointer) : Prop := Manager.sessions (mgr s0) !! userID = Some p.

Definition others_kept (s : VState) : Prop := discreet → ∀ q, ¬ owned q → Manager.deref (mgr s) q = Manager.deref (mgr s0) q.

Definition before_request (s : VState) : Prop :=
  others_kept s ∧ requests s = requests s0 ∧ ∀ p, Manager.sessions (mgr s) !! userID = Some p → owned p.

Definition after_request (s : VState) : Prop :=
  others_kept s ∧ ∃ new, requests s = requests s0 ++ new ∧ length new ≤ 1 ∧
    Forall (λ r, owned (fst (fst r)) ∧ ∃ op, Op (snd (fst r)) = Some op ∧ op ∈ reach) new.

Definition phase (sent : bool) : VState → Prop := if sent then after_request else before_request.

Lemma before_after s : before_request s → after_request s.
Proof.
  intros (Ho & Hr & _). split; [done|]. exists []. rewrite app_nil_r. split_and!; [done|simpl; lia|constructor].
Qed.

Lemma phase_after b s : phase b s → after_request s.
Proof. destruct b; [done|apply before_after]. Qed.

Lemma phase_manager b (s s' : VState) :
  phase b s → requests s' = requests s →
  (∀ p, Manager.sessions (mgr s') !! userID = Some p → Manager.sessions (mgr s) !! userID = Some p) →
  (∀ q, ¬ owned q → Manager.deref (mgr s') q = Manager.deref (mgr s) q) → phase b s'.
Proof.
  destruct b; simpl.
  - intros (Ho & new & Hn) Hr _ Hd. split; [intros Hdis q Hq; by rewrite Hd, Ho|]. exists new. by rewrite Hr.
  - intros (Ho & Hreq & Hs) Hr Hsub Hd. split_and!; [intros Hdis q Hq; by rewrite Hd, Ho|by rewrite Hr|auto].
Qed.

Lemma tick_phase b : triple (phase b) tick (λ _, phase b).
Proof. intros s Hs. by apply (phase_manager b s). Qed.

Lemma on_session_phase {A} b p (d : A) f : owned p → triple (phase b) (on_session p d f) (λ _, phase b).
Proof.
  intros Hp s Hs. unfold on_session. destruct (Manager.deref (mgr s) p) as [sess|]; [|done].
  destruct (f sess) as [sess' a]. apply (phase_manager b s); [done..|]. intros q Hq. cbn [mgr fst].
  apply lookup_insert_ne. by intros ->.
Qed.

Lemma Get_sub now1 now2 u m :
  Manager.heap (fst (Manager.Get now1 now2 u m)) = Manager.heap m ∧
  Manager.sessions (fst (Manager.Get now1 now2 u m)) ⊆ Manager.sessions m ∧
  ∀ p, snd (Manager.Get now1 now2 u m) = Some p → Manager.sessions m !! u = Some p.
Proof.
  unfold Manager.Get. destruct (Manager.sessions m !! u) as [p|] eqn:Hp; [|by split_and!].
  destruct (Manager.IsExpired m p now1); [|by split_and!]. unfold Manager.removeExpired. rewrite Hp.
  destruct (_ && _); [|by split_and!]. split_and!; [done|apply delete_subseteq|done].
Qed.

Lemma requireSession_phase b :
  triple (phase b) (requireSession userID) (λ r s, phase b s ∧ ∀ p, b = false → r = Ok p → owned p).
Proof.
  unfold requireSession. eapply triple_bind; [apply tick_phase|]. intros now1.
  eapply triple_bind; [apply tick_phase|]. intros now2.
  eapply triple_bind with (Q := λ r s, phase b s ∧ ∀ p, b = false → r = Some p → owned p).
  - intros s Hs. unfold manager_Get. pose proof (Get_sub now1 now2 userID (mgr s)) as (Hh & Hsub & Hret).
    destruct (Manager.Get now1 now2 userID (mgr s)) as [m r]. cbn [fst snd] in *. split.
    + apply (phase_manager b s); [done..| |].
      * intros p. cbn. intros Hp. by eapply lookup_weaken.
      * intros q _. unfold Manager.deref. cbn. by rewrite Hh.
    + intros p -> ->. destruct Hs as (_ & _ & Hown). by apply Hown, Hret.
  - intros [p|] s [Hs Hp]; (split; [done|]); [|done]. intros q Hb [= ->]. by apply Hp.
Qed.

Lemma IsOfflineReadonly_phase b p : triple (phase b) (IsOfflineReadonly p) (λ _, phase b).
Proof.
  unfold IsOfflineReadonly. eapply triple_bind; [apply tick_phase|]. intros now. apply triple_from_session.
Qed.

(** The request that goes out is the one asked for. *)
Lemma prepareRequest_phase p op : owned p →
  triple before_request (on_session p (Err Session.ErrNilRequest) (Session.prepareRequest (Some (mk_FileRequest "" (Some op)))))
    (λ r s, before_request s ∧ ∀ req, r = Ok req → Op req = Some op).
Proof using reach.
  intros Hp s Hs. split; [by apply (on_session_phase false)|]. intros req. unfold on_session.
  destruct (Manager.deref (mgr s) p) as [sess|]; [|done]. unfold Session.prepareRequest. cbn [RequestId Op].
  destruct (decide _); [|done]. destruct (Session.nextRequestID sess). cbn. by intros [= <-].
Qed.

Lemma Request_phase p op : owned p → op ∈ reach → triple before_request (Request p op) (λ _, after_request).
Proof using All.
  intros Hp Hop. unfold Request. eapply triple_bind; [by apply prepareRequest_phase|]. intros [req|e].
  2: { intros s [Hs _]. by apply before_after. }
  intros s [(Ho & Hr & _) Hreq]. unfold exchange.
  assert (Hd : discreet → ∀ q, q ≠ p → Manager.deref (fst (answer (mk_VState (mgr s) (ticks s)
    (requests s ++ [(p, req, withRequestTimeout (mgr s))])) p req)) q = Manager.deref (mgr s) q) by (intros Hdis q Hq; exact (Hdis _ p req q Hq)).
  destruct (answer _ p req) as [m r]. cbn [fst snd mgr] in *. split.
  - intros Hdis q Hq. cbn [mgr]. rewrite Hd; [by apply Ho|done|by intros ->].
  - cbn [requests]. rewrite Hr. eexists. split_and!; [done|done|]. constructor; [|done]. split; [done|].
    exists op. split; [by apply Hreq|done].
Qed.

Lemma lookupInfo_phase b relPath : triple (phase b) (lookupInfo userID relPath) (λ _, phase b).
Proof.
  unfold lookupInfo. eapply triple_try_bind; [apply requireSession_phase| |by intros e s [? _]].
  intros p. destruct (is_root relPath); [by intros s [? _]|].
  eapply triple_bind; [apply triple_from_session|]. by intros [i|] s [? _].
Qed.

Lemma listInfos_phase b relPath : triple (phase b) (listInfos userID relPath) (λ _, phase b).
Proof.
  unfold listInfos. eapply triple_try_bind; [apply requireSession_phase| |by intros e s [? _]].
  intros p. eapply triple_try_bind with (Q := λ _, phase b); [| |done].
  - destruct (is_root relPath); [by intros s [? _]|].
    eapply triple_bind; [apply triple_from_session|]. intros [i|] s [? _]; [|done]. by destruct (FIsDir i).
  - intros _. eapply triple_bind; [apply triple_from_session|]. by intros [l|] s ?.
Qed.

Lemma requestRead_phase p relPath off len :
  owned p → ReqRead (mk_ReadFileReq relPath off len) ∈ reach →
  triple before_request (requestRead p relPath off len) (λ _, after_request).
Proof using All.
  intros Hp Hop. unfold requestRead. eapply triple_bind; [apply (IsOfflineReadonly_phase false)|].
  intros [|]; [intros s Hs; by apply before_after|].
  eapply triple_bind; [by apply Request_phase|]. intros [e| |resp] s Hs; [done..|]. by destruct (negb _).
Qed.

(** What begins by asking for the user's session. *)
Lemma triple_require {A} (k : Manager.pointer → V (result error A)) Q :
  (∀ p, owned p → triple before_request (k p) Q) → (∀ e s, before_request s → Q (Err e) s) →
  triple before_request (p ←? requireSession userID; k p) Q.
Proof using reach.
  intros Hk He s Hs. pose proof (requireSession_phase false s Hs) as [Hs1 Hown]. unfold try, mbind, V_bind.
  destruct (requireSession userID s) as [s1 [p|e]]; cbn [fst snd] in *; [|by apply He].
  apply Hk; [by apply Hown|done].
Qed.

Lemma readChunk_phase relPath off size :
  ReqRead (mk_ReadFileReq relPath 0 0) ∈ reach →
  ReqRead (mk_ReadFileReq relPath off (if bool_decide (size < 0)%Z then 0%Z else size)) ∈ reach →
  triple before_request (readChunk userID relPath off size) (λ _, after_request).
Proof using All.
  intros Hall Hpart. unfold readChunk. eapply triple_try_bind; [apply (lookupInfo_phase false)| |intros e; apply before_after].
  intros info. destruct (FIsDir info); [intros s; apply before_after|].
  apply triple_require; [|intros e; apply before_after]. intros p Hp. 
  eapply triple_bind; [by apply (on_session_phase false)|]. intros [data|]; [intros s; apply before_after|].
  eapply triple_bind; [apply (IsOfflineReadonly_phase false)|]. intros [|]; [intros s; apply before_after|].
  eapply triple_bind with (Q := λ _, before_request); [by intros s|]. intros [|]; [|by apply requestRead_phase].
  eapply triple_try_bind; [by apply requestRead_phase| |done]. intros data.
  eapply triple_bind; [by apply (on_session_phase true)|]. by intros ? s.
Qed.

Lemma requestFileOp_phase op : op ∈ reach →
  triple before_request (requestFileOp userID op)
    (λ r s, after_request s ∧ ∀ resp p, r = Ok (Some (resp, p)) → owned p).
Proof using All.
  intros Hop. apply triple_require; [|intros e s Hs; split; [by apply before_after|done]]. intros p Hp.
  eapply triple_bind; [apply (IsOfflineReadonly_phase false)|].
  intros [|]; [intros s Hs; split; [by apply before_after|done]|].
  eapply triple_bind; [by apply Request_phase|]. intros [e| |resp] s Hs; cbn.
  - split; [done|]. intros resp q. by destruct e as [| |[]].
  - done.
  - destruct (Success resp); cbn; [split; [done|]; intros resp' q Hq; by simplify_eq|].
    split; [done|]. intros resp' q. by destruct (decide _).
Qed.

Lemma run_change_phase c : asked c ∈ reach → triple before_request (run_change userID c) (λ _, after_request).
Proof using All.
  intros Hc s Hs. rewrite run_change_eq. pose proof (requestFileOp_phase (asked c) Hc s Hs) as [Hs1 Hown].
  destruct (requestFileOp userID (asked c) s) as [s1 [r|e]]; cbn [fst snd] in *; [|done].
  assert (Happly : ∀ f, triple after_request (apply_info r f) (λ _, after_request)).
  { intros f. unfold apply_info. destruct r as [[resp q]|]; [|by intros ?]. destruct (GetInfo resp); [|by intros ?].
    apply (on_session_phase true). by eapply Hown. }
  destruct c; try by apply Happly. destruct r as [[resp q]|]; [|done].
  apply (on_session_phase true); [by eapply Hown|done].
Qed.

Lemma shouldPrefetchFile_phase b p i : owned p → triple (phase b) (shouldPrefetchFile p i) (λ _, phase b).
Proof.
  intros Hp. unfold shouldPrefetchFile. destruct (_ || _ || _); [by intros s|].
  eapply triple_bind with (Q := λ _, phase b); [by intros s|]. intros o.
  eapply triple_bind with (Q := λ _, phase b); [by intros s|]. intros use.
  destruct (_ || _); [by intros s|]. eapply triple_bind; [by apply on_session_phase|]. by intros ? s.
Qed.

Lemma filter_prefetch_phase b p infos : owned p → triple (phase b) (filter_prefetch p infos) (λ _, phase b).
Proof.
  intros Hp. induction infos as [|i infos IH]; cbn [filter_prefetch]; [by intros s|].
  eapply triple_bind; [by apply shouldPrefetchFile_phase|]. intros keep.
  eapply triple_bind; [exact IH|]. by intros l s.
Qed.

Lemma try_start_phase b p infos : owned p → triple (phase b) (try_start p infos) (λ _, phase b).
Proof.
  intros Hp. induction infos as [|i infos IH]; cbn [try_start]; [by intros s|].
  eapply triple_bind; [by apply on_session_phase|]. intros started.
  eapply triple_bind; [exact IH|]. by intros l s.
Qed.

Lemma startPrefetch_phase infos : triple before_request (startPrefetch userID infos) (λ _, before_request).
Proof using reach.
  unfold startPrefetch. intros s Hs. pose proof (requireSession_phase false s Hs) as [Hs1 Hown].
  unfold mbind at 1, V_bind at 1. destruct (requireSession userID s) as [s1 [p|e]]; cbn [fst snd] in *; [|done].
  assert (Hp : owned p) by by apply Hown. revert s1 Hs1. clear s Hs Hown.
  match goal with |- ∀ s, _ → (?m s).1 = _ => idtac | |- ∀ s, _ → before_request (?m s).1 => change (triple before_request m (λ _, before_request)) end.
  eapply triple_bind; [apply (IsOfflineReadonly_phase false)|]. intros [|]; [by intros s|].
  eapply triple_bind with (Q := λ _, phase false); [|intros l; by apply (try_start_phase false)].
  unfold prefetchCandidates. eapply triple_bind with (Q := λ _, phase false); [by intros s|]. intros o.
  destruct (negb _); [by intros s|]. destruct (_ || _ || _); [by intros s|].
  eapply triple_bind; [by apply (filter_prefetch_phase false)|]. by intros l s.
Qed.
End isolation.

(** *** The goroutines

    What a step of one does to the sessions, and what it asks for. *)
Section goroutines.
Context `{MapRange} `{Remote}.

Lemma Request_asks p op s :
  requests (fst (Request p op s)) = requests s ∨
  ∃ rq t, requests (fst (Request p op s)) = requests s ++ [(p, rq, t)] ∧ Op rq = Some op.
Proof.
  unfold Request, mbind, V_bind, on_session. destruct (Manager.deref (mgr s) p) as [sess|]; [|by left].
  unfold Session.prepareRequest. cbn [RequestId Op]. destruct (decide _); [|done].
  destruct (Session.nextRequestID sess) as [sess' id]. unfold exchange. cbn.
  destruct (answer _ p _) as [m r]. right. by eexists _, _.
Qed.

Lemma requestRead_asks p relPath off len s :
  let s' := fst (requestRead p relPath off len s) in
  requests s' = requests s ∨
  ∃ rq t, requests s' = requests s ++ [(p, rq, t)] ∧ Op rq = Some (ReqRead (mk_ReadFileReq relPath off len)).
Proof.
  unfold requestRead, mbind, V_bind, IsOfflineReadonly, mbind, V_bind, tick, from_session. cbn.
  set (b := match Manager.deref _ _ with None => _ | Some _ => _ end). destruct b; [by left|].
  set (s1 := mk_VState _ _ _). pose proof (Request_asks p (ReqRead (mk_ReadFileReq relPath off len)) s1) as Hr.
  unfold mbind, V_bind. destruct (Request p _ s1) as [s2 [e| |resp]]; cbn in *; [done..|]. by destruct (negb _).
Qed.

Lemma prefetch_step_asks p i pc s :
  let '(s', pc') := prefetch_step p i pc s in
  requests s' = requests s ∨
  pc = PAsk ∧ pc' ≠ PAsk ∧ pc' ≠ PCheck ∧ ∃ rq t, requests s' = requests s ++ [(p, rq, t)] ∧ Op rq = Some (read_of i).
Proof.
  assert (Hon : ∀ {A} (d : A) f s, requests (fst (on_session p d f s)) = requests s).
  { intros A d f s1. unfold on_session. destruct (Manager.deref _ _) as [sess|]; [|done]. by destruct (f sess). }
  unfold prefetch_step, mbind, V_bind. destruct pc as [| |data| |].
  - specialize (Hon _ None (Session.GetCachedContent (FPath i) (Some i)) s). destruct (on_session _ _ _ s) as [s1 c]. by left.
  - pose proof (requestRead_asks p (FPath i) 0 0 s) as Hr. destruct (requestRead p _ 0 0 s) as [s1 r]. cbn in *.
    destruct Hr as [Hr|Hr]; [by left|right]. by destruct r.
  - specialize (Hon _ false (Session.PutCachedContent (FPath i) (Some i) data) s). destruct (on_session _ _ _ s) as [s1 c]. by left.
  - specialize (Hon _ tt (λ sess, (Session.FinishPrefetch (FPath i) sess, tt)) s). destruct (on_session _ _ _ s) as [s1 c]. by left.
  - by left.
Qed.

Definition has_asked (g : goroutine) : bool := match go_pc g with PCheck | PAsk => false | _ => true end.

(** Who is asked, and for what. *)
Definition asked_of (r : Manager.pointer * FileRequest * option Z) : Manager.pointer * option Operation :=
  (fst (fst r), Op (snd (fst r))).
Definition asks (x : Manager.pointer * FileInfo) : Manager.pointer * option Operation := (fst x, Some (read_of (snd x))).
Definition arguments (g : goroutine) : Manager.pointer * FileInfo := (go_session g, go_info g).

(** The goroutines of a run are those that were started, and each has asked for
    its file at most once. *)
Definition run_inv (t0 t : Run) : Prop :=
  arguments <$> r_goroutines t = arguments <$> r_goroutines t0 ∧
  ∃ pre, requests (r_state t) = requests (r_state t0) ++ pre ∧
    asked_of <$> pre ⊆+ asks ∘ arguments <$> filter (λ g, has_asked g = true) (r_goroutines t).

Lemma has_asked_step p i pc s :
  has_asked (mk_goroutine p i pc) = true → has_asked (mk_goroutine p i (snd (prefetch_step p i pc s))) = true.
Proof.
  unfold prefetch_step, mbind, V_bind. destruct pc; try done; intros _; by destruct (on_session _ _ _ s).
Qed.

Lemma run_exec_inv t0 l t t' : run_inv t0 t → run_exec l t = Some t' → run_inv t0 t'.
Proof.
  intros (Hargs & pre & Hreq & Hsub) Hl. destruct l as [k|m]; cbn [run_exec] in Hl; [|simplify_eq; by split; [|exists pre]].
  destruct (r_goroutines t !! k) as [g|] eqn:Hk; [|done]. cbn in Hl. destruct g as [p i pc]. cbn in Hl.
  pose proof (prefetch_step_asks p i pc (r_state t)) as Hask. pose proof (has_asked_step p i pc (r_state t)) as Hmono.
  destruct (prefetch_step p i pc (r_state t)) as [v pc'] eqn:Hstep. simplify_eq. cbn in *.
  apply list_elem_of_split_length in Hk as (l1 & l2 & Hl & ->). rewrite Hl in Hargs, Hsub |- *.
  rewrite insert_app_r_alt, Nat.sub_diag by lia. cbn [insert list_insert].
  unfold run_inv. cbn [r_goroutines r_state]. rewrite <-Hargs, !fmap_app, !fmap_cons. split; [done|].
  rewrite filter_app, filter_cons in Hsub |- *.
  destruct Hask as [Hsame|(-> & Hn1 & Hn2 & rq & tm & Hnew & Hop)].
  - exists pre. rewrite Hsame. split; [done|]. etrans; [exact Hsub|].
    rewrite !fmap_app. apply submseteq_app; [done|]. destruct (decide (has_asked (mk_goroutine p i pc) = true)) as [Hb|Hb].
    + by rewrite decide_True by auto.
    + case_decide; [by apply submseteq_cons|done].
  - exists (pre ++ [(p, rq, tm)]). rewrite Hnew, Hreq, <-app_assoc. split; [done|].
    rewrite decide_False in Hsub by done. rewrite decide_True by (destruct pc'; done).
    rewrite fmap_app. cbn. rewrite fmap_app in Hsub |- *. cbn. rewrite <-Permutation_cons_append, <-Permutation_middle.
    unfold asked_of at 1. cbn. rewrite Hop. by apply submseteq_skip.
Qed.

Lemma running_inv n o s t : running n o s t → run_inv (run_start n o s) t.
Proof.
  apply reachable_invariant.
  - intros ? <-. split; [done|]. exists []. rewrite app_nil_r. split; [done|]. apply submseteq_nil_l.
  - intros t1 t2 Hi [l Hl]. by eapply run_exec_inv.
Qed.

(** With a remote that leaves the other sessions alone, so does a goroutine. *)
Section others.
Hypothesis remote_discreet : discreet.

Lemma on_session_others {A} p (d : A) f s q : q ≠ p → Manager.deref (mgr (fst (on_session p d f s))) q = Manager.deref (mgr s) q.
Proof.
  intros Hq. unfold on_session. destruct (Manager.deref (mgr s) p) as [sess|]; [|done]. destruct (f sess).
  by apply lookup_insert_ne.
Qed.

Lemma prefetch_step_others p i pc s q : q ≠ p →
  Manager.deref (mgr (fst (prefetch_step p i pc s))) q = Manager.deref (mgr s) q.
Proof using All.
  intros Hq. unfold prefetch_step, mbind, V_bind. destruct pc as [| |data| |].
  1,3,4: by (match goal with |- context [on_session ?p ?d ?f ?v] => pose proof (on_session_others p d f v q Hq);
    destruct (on_session p d f v) end).
  - unfold requestRead, mbind, V_bind, IsOfflineReadonly, mbind, V_bind, tick, from_session. cbn.
    set (b := match Manager.deref _ _ with None => _ | Some _ => _ end). destruct b; [done|].
    set (s1 := mk_VState _ _ _). change (mgr s) with (mgr s1). unfold Request, mbind, V_bind.
    match goal with |- context [on_session ?p ?d ?f s1] => pose proof (on_session_others p d f s1 q Hq) as Ho;
      destruct (on_session p d f s1) as [s2 [req|e]] end; [|done].
    unfold exchange. set (s3 := mk_VState _ _ _). pose proof (remote_discreet s3 p req q Hq) as Hd.
    destruct (answer s3 p req) as [m r]. cbn in *. rewrite <-Ho, <-Hd. destruct r as [e| |resp]; [done..|]. by destruct (negb _).
  - done.
Qed.
End others.
End goroutines.

(** The same for the handlers; the inode numbers play no part in it. *)
Definition tripleF {A} (P : VState → Prop) (m : F A) (Q : VState → Prop) : Prop :=
  ∀ s, P (vstate s) → Q (vstate (fst (m s))).

Lemma tripleF_lift {A} P (m : V A) Q : triple P m (λ _, Q) → tripleF P (lift m) Q.
Proof. intros Hm [v i] Hs. specialize (Hm v Hs). unfold lift. cbn [vstate] in *. by destruct (m v). Qed.

Section handler_triples.
Context {A B : Type} (P Q R : VState → Prop).

Lemma tripleF_bind (m : F A) (f : A → F B) : tripleF P m Q → (∀ a, tripleF Q (f a) R) → tripleF P (m ≫= f) R.
Proof. intros Hm Hf s Hs. unfold mbind, F_bind. specialize (Hm s Hs). destruct (m s). by apply Hf. Qed.

Lemma tripleF_same (m : F A) : (∀ s, vstate (fst (m s)) = vstate s) → (∀ s, P s → Q s) → tripleF P m Q.
Proof. intros Hm HP s Hs. rewrite Hm. by apply HP. Qed.

Lemma tripleF_check (m : V (result error A)) (k : A → F (result Errno B)) :
  triple P m (λ _, Q) → (∀ a, tripleF Q (k a) R) → (∀ s, Q s → R s) → tripleF P (check m k) R.
Proof.
  intros Hm Hk HQ s Hs. unfold check, mbind, F_bind. pose proof (tripleF_lift P m Q Hm s Hs) as Hl.
  destruct (lift m s) as [s' [a|e]]; [by apply Hk|by apply HQ].
Qed.
End handler_triples.

Lemma vstate_ret {A} (a : A) s : vstate (fst ((mret a : F A) s)) = vstate s.
Proof. done. Qed.

Lemma vstate_stableAttr u w r i s : vstate (fst (stableAttr u w r i s)) = vstate s.
Proof. unfold stableAttr. by destruct (Inode.allocate _ _ _ _ _). Qed.

Lemma vstate_dir_entries n infos s : vstate (fst (dir_entries n infos s)) = vstate s.
Proof.
  revert s. induction infos as [|i infos IH]; intros s; [done|]. cbn [dir_entries]. unfold mbind, F_bind.
  pose proof (vstate_stableAttr (n_userID n) (n_workspace n) (FPath i) i s) as Hs.
  destruct (stableAttr _ _ _ _ s) as [s1 attr]. pose proof (IH s1) as IH1. destruct (dir_entries n infos s1).
  cbn in *. congruence.
Qed.

(** Which goroutines a listing starts: of the user's session, for files among
    those that are listed, and no more than the limit. *)
Section listing.
Context `{MapRange} `{Remote}.

Lemma requireSession_opts u s : Manager.opts (mgr (fst (requireSession u s))) = Manager.opts (mgr s).
Proof.
  unfold requireSession, mbind, V_bind, tick, manager_Get, Manager.Get. cbn.
  destruct (Manager.sessions (mgr s) !! u) as [p|] eqn:Hp; [|done].
  destruct (Manager.IsExpired _ _ _); [|done]. unfold Manager.removeExpired. rewrite Hp. by destruct (_ && _).
Qed.

Lemma listInfos_state u relPath s : fst (listInfos u relPath s) = fst (requireSession u s).
Proof.
  unfold listInfos, try, mbind, V_bind. destruct (requireSession u s) as [s1 [p|e]]; [|done]. cbn.
  destruct (is_root relPath); cbn.
  - by destruct (match Manager.deref _ _ with None => _ | Some _ => _ end).
  - unfold mbind, V_bind, from_session. cbn. destruct (match Manager.deref _ _ with None => _ | Some _ => _ end) as [i|]; [|done].
    destruct (FIsDir i); [|done]. cbn. by destruct (match Manager.deref _ _ with None => _ | Some _ => _ end).
Qed.

Lemma try_start_sub p l s : snd (try_start p l s) `sublist_of` (pair p <$> l).
Proof.
  revert s. induction l as [|i l IH]; intros s; [done|]. cbn [try_start]. unfold mbind, V_bind.
  destruct (on_session p false _ s) as [s1 b]. specialize (IH s1). destruct (try_start p l s1) as [s2 started]. cbn [fst snd] in *.
  destruct b; by constructor.
Qed.

Lemma startPrefetch_started u infos s :
  let l := snd (startPrefetch u infos s) in
  (∀ p i, (p, i) ∈ l → Manager.sessions (mgr s) !! u = Some p ∧ i ∈ infos ∧ FIsDir i = false) ∧
  (l = [] ∨ Z.of_nat (length l) ≤ Manager.PrefetchMaxFilesPerDir (Manager.opts (mgr s)))%Z.
Proof.
  cbv zeta. unfold startPrefetch, mbind, V_bind.
  pose proof (requireSession_opts u s) as Ho. pose proof (requireSession_phase u s [] false s) as Hown.
  destruct (requireSession u s) as [s1 [p|e]]; cbn [fst snd] in *; [|split; [by intros p i ?%not_elem_of_nil|by left]].
  destruct Hown as [_ Hown]; [done|]. specialize (Hown p eq_refl eq_refl).
  unfold IsOfflineReadonly, mbind, V_bind, tick, from_session. cbn.
  destruct (match Manager.deref _ _ with None => _ | Some _ => _ end); [split; [by intros q i ?%not_elem_of_nil|by left]|].
  set (s2 := mk_VState _ _ _). pose proof (prefetch_bounded p infos s2) as Hb. cbv zeta in Hb. cbn in *.
  destruct (prefetchCandidates p infos s2) as [s3 l]. destruct Hb as (_ & _ & Hin & Hlen & _).
  pose proof (try_start_sub p l s3) as Hsub. split.
  - intros q i Hq. assert (Hq' : (q, i) ∈ pair p <$> l) by (by eapply elem_of_sublist).
    apply list_elem_of_fmap in Hq' as (i' & [= -> ->] & Hi%Hin). by destruct Hi as (? & ? & _).
  - rewrite Ho in Hlen. apply sublist_length in Hsub. rewrite length_fmap in Hsub. destruct Hlen as [->|Hlen].
    + by left.
    + right. lia.
Qed.

Lemma run_node_started n o s :
  let l := started (snd (run_node n o s)) in
  (o ≠ NReaddir → l = []) ∧
  (l = [] ∨ Z.of_nat (length l) ≤ Manager.PrefetchMaxFilesPerDir (Manager.opts (mgr (vstate s))))%Z ∧
  ∀ p i, (p, i) ∈ l → Manager.sessions (mgr (vstate s)) !! n_userID n = Some p ∧ FIsDir i = false ∧
    ∃ infos, snd (listInfos (n_userID n) (n_relPath n) (vstate s)) = Ok infos ∧ i ∈ infos.
Proof.
  cbv zeta. assert (o = NReaddir ∨ o ≠ NReaddir) as [->|Hne] by (destruct o; first [by left|by right]).
  - cbn [run_node]. unfold outcome_of, Readdir, check, lift, mbind, F_bind.
    pose proof (listInfos_state (n_userID n) (n_relPath n) (vstate s)) as Hst.
    pose proof (requireSession_opts (n_userID n) (vstate s)) as Ho.
    pose proof (requireSession_phase (n_userID n) (vstate s) [] false (vstate s) ltac:(done)) as [Hs1 _].
    rewrite <-Hst in Ho, Hs1.
    destruct (listInfos (n_userID n) (n_relPath n) (vstate s)) as [v1 [infos|e]]; cbn [fst snd vstate] in *;
      [|cbn; split_and!; [done|by left|by intros p i ?%not_elem_of_nil]].
    pose proof (startPrefetch_started (n_userID n) infos v1) as Hsp. cbv zeta in Hsp.
    destruct (startPrefetch (n_userID n) infos v1) as [v2 l]. cbn [fst snd] in *.
    destruct (dir_entries n (merge_sort name_le infos) _) as [s3 entries]. cbn. rewrite Ho in Hsp. destruct Hsp as [Hin Hlen].
    split_and!; [done|done|]. intros p i (Hp & Hi & Hd)%Hin. destruct Hs1 as (_ & _ & Hown). split; [by apply Hown|].
    split; [done|]. by exists infos.
  - assert (Hnil : started (snd (run_node n o s)) = []).
    { destruct o as [|name| | |size off|data off|name|name|name|name|old parent new|size]; try done; cbn [run_node];
        unfold outcome_of, mbind, F_bind; by (match goal with |- context [?m s] => destruct (m s) as [s' [x|e]] end). }
    rewrite Hnil. split_and!; [done|by left|by intros p i ?%not_elem_of_nil].
Qed.
End listing.

Section node_isolation.
Context `{MapRange} `{Remote} (userID : string) (s0 : VState) (reach : list Operation).
Local Abbreviation phase := (phase userID s0 reach).

Lemma fill_phase b info : tripleF (phase b) (fill info) (phase b).
Proof.
  eapply tripleF_bind; [apply tripleF_lift, tick_phase|]. intros now. by apply tripleF_same.
Qed.

Lemma new_child_phase b n relPath info : tripleF (phase b) (new_child n relPath info) (after_request userID s0 reach).
Proof.
  eapply tripleF_bind; [apply fill_phase|]. intros out.
  eapply tripleF_bind; [apply tripleF_same with (Q := phase b); [apply vstate_stableAttr|done]|]. intros attr.
  by apply tripleF_same; [|apply phase_after].
Qed.

Lemma Getattr_phase b n : n_userID n = userID → tripleF (phase b) (Getattr n) (after_request userID s0 reach).
Proof.
  intros Hu. unfold Getattr. rewrite Hu. eapply tripleF_check; [apply lookupInfo_phase| |apply phase_after]. intros info.
  eapply tripleF_bind; [apply fill_phase|]. intros out. by apply tripleF_same; [|apply phase_after].
Qed.

Lemma outcome_phase {A} b (f : A → outcome) (m : F (result Errno A)) :
  tripleF (phase b) m (after_request userID s0 reach) → tripleF (phase b) (outcome_of f m) (after_request userID s0 reach).
Proof. intros Hm. eapply tripleF_bind; [exact Hm|]. intros r. by apply tripleF_same. Qed.

(** A change, and what the handler does after it. *)
Lemma change_phase {A} c (k : unit → F (result Errno A)) : asked c ∈ reach →
  (∀ a, tripleF (after_request userID s0 reach) (k a) (after_request userID s0 reach)) →
  tripleF (before_request userID s0) (check (run_change userID c) k) (after_request userID s0 reach).
Proof using All. intros Hc Hk. eapply tripleF_check; [by apply run_change_phase|exact Hk|done]. Qed.

Lemma run_node_phase n o : n_userID n = userID → asked_by n o ⊆ reach → tripleF (phase false) (run_node n o) (after_request userID s0 reach).
Proof using All.
  intros Hu Hr. destruct o as [|name| | |size off|data off|name|name|name|name|old parent new|size];
    cbn [run_node]; apply outcome_phase.
  - by apply Getattr_phase.
  - unfold Lookup. rewrite Hu. eapply tripleF_check; [apply lookupInfo_phase| |apply phase_after].
    intros info. apply new_child_phase.
  - unfold Readdir. rewrite Hu. eapply tripleF_check; [apply listInfos_phase| |apply phase_after]. intros infos.
    eapply tripleF_bind; [apply tripleF_lift, (startPrefetch_phase _ _ reach)|]. intros started.
    eapply tripleF_bind; [apply tripleF_same with (Q := phase false); [apply vstate_dir_entries|done]|].
    intros l. apply tripleF_same; [done|apply (phase_after _ _ _ false)].
  - unfold Open. rewrite Hu. eapply tripleF_check; [apply lookupInfo_phase| |apply phase_after]. intros info.
    apply tripleF_same; [by destruct (FIsDir info)|apply phase_after].
  - unfold Read. rewrite Hu. eapply tripleF_check; [apply readChunk_phase; first [done|apply Hr; by left|apply Hr; right; by left]| |done]. intros data. by apply tripleF_same.
  - unfold Write. rewrite Hu. apply (change_phase (CWrite _ off data)); [apply Hr; left|]. intros _. by apply tripleF_same.
  - unfold Create. rewrite Hu. apply (change_phase (CCreate _)); [apply Hr; left|]. intros _.
    eapply tripleF_check; [apply (lookupInfo_phase _ _ _ true)| |done]. intros info. apply (new_child_phase true).
  - unfold Mkdir. rewrite Hu. apply (change_phase (CMkdir _ false)); [apply Hr; left|]. intros _.
    eapply tripleF_check; [apply (lookupInfo_phase _ _ _ true)| |done]. intros info. apply (new_child_phase true).
  - unfold Unlink. rewrite Hu. apply (change_phase (CRemove _)); [apply Hr; left|]. intros _. by apply tripleF_same.
  - unfold Rmdir. rewrite Hu. apply (change_phase (CRemove _)); [apply Hr; left|]. intros _. by apply tripleF_same.
  - unfold Rename. destruct parent as [target|]; [|apply tripleF_same; [done|apply phase_after]].
    destruct (_ || _); [apply tripleF_same; [done|apply phase_after]|]. rewrite Hu.
    apply (change_phase (CRename _ _)); [apply Hr; left|]. intros _. by apply tripleF_same.
  - unfold Setattr. destruct size as [sz|]; [|by apply Getattr_phase]. rewrite Hu.
    apply (change_phase (CTruncate _ _)); [apply Hr; left|]. intros _. by apply (Getattr_phase true).
Qed.
End node_isolation.

(** What a run asks for: first what the handler asks for, then what the
    goroutines do. *)
Lemma running_requests `{MapRange} `{Remote} n o s t :
  running n o s t →
  ∃ new pre, requests (r_state t) = requests (vstate s) ++ new ++ pre ∧ length new ≤ 1 ∧
    Forall (λ x, owned (n_userID n) (vstate s) (fst (fst x)) ∧ ∃ op, Op (snd (fst x)) = Some op ∧ op ∈ asked_by n o) new ∧
    asked_of <$> pre ⊆+ asks <$> started (snd (run_node n o s)) ∧
    requests (vstate (fst (run_node n o s))) = requests (vstate s) ++ new ∧
    arguments <$> r_goroutines t = started (snd (run_node n o s)).
Proof.
  intros (Hargs & pre & Hpre & Hsub)%running_inv. unfold run_start in Hargs, Hpre.
  destruct (run_node_phase (n_userID n) (vstate s) (asked_by n o) n o eq_refl (reflexivity _) s) as [_ (new & Hnew & Hlen & Hall)]; [done|].
  destruct (run_node n o s) as [s' r]. cbn [fst snd r_state r_goroutines] in *.
  assert (Hstart : arguments <$> r_goroutines t = started r).
  { rewrite Hargs, <-list_fmap_compose. rewrite <-(list_fmap_id (started r)) at 2. apply list_fmap_ext. by intros _ [] _. }
  exists new, pre. rewrite Hpre, Hnew, <-app_assoc. split_and!; [done..| |done|exact Hstart].
  etrans; [exact Hsub|]. rewrite <-Hstart, <-list_fmap_compose. apply fmap_submseteq, sublist_submseteq, sublist_filter.
Qed.

(** C26. Users are kept apart.  The handler of an operation on a node below a
    user's directory sends at most one request; it asks for what the operation is,
    at the path of the node or of the entry that it names, and for nothing else.
    Beside it only listing a directory asks for anything: the goroutines it starts,
    no more than the limit of a directory, which each ask once, for the whole of one
    of the files that are listed.  However they interleave with each other and with
    the rest of the program, all of these requests go to the session that the user
    had when the operation began, and never to another user's.  If what the program
    does while a request waits for its answer leaves the other sessions alone, so
    does the operation, and so does each step of its goroutines. *)
Theorem node_isolation `{MapRange} `{Remote} (n : workspaceNode) (o : node_op) (s : MState) (t : Run) :
  running n o s t →
  let own p := Manager.sessions (mgr (vstate s)) !! n_userID n = Some p in
  let '(s', r) := run_node n o s in
  (∃ new pre, requests (r_state t) = requests (vstate s) ++ new ++ pre ∧
     length new ≤ 1 ∧ Forall (λ x, own (fst (fst x)) ∧ ∃ op, Op (snd (fst x)) = Some op ∧ op ∈ asked_by n o) new ∧
     asked_of <$> pre ⊆+ asks <$> started r) ∧
  (o ≠ NReaddir → started r = []) ∧
  (started r = [] ∨ Z.of_nat (length (started r)) ≤ Manager.PrefetchMaxFilesPerDir (Manager.opts (mgr (vstate s))))%Z ∧
  (∀ p i, (p, i) ∈ started r → own p ∧ FIsDir i = false ∧
     ∃ infos, snd (listInfos (n_userID n) (n_relPath n) (vstate s)) = Ok infos ∧ i ∈ infos) ∧
  (discreet →
     (∀ q, ¬ own q → Manager.deref (mgr (vstate s')) q = Manager.deref (mgr (vstate s)) q) ∧
     ∀ k t' q, run_exec (Prefetch k) t = Some t' → ¬ own q →
       Manager.deref (mgr (r_state t')) q = Manager.deref (mgr (r_state t)) q).
Proof.
  intros Ht own. destruct (running_requests n o s t Ht) as (new & pre & Hreq & Hlen & Hnew & Hpre & _ & Hargs).
  pose proof (run_node_started n o s) as (Hnone & Hlim & Hin).
  destruct (run_node_phase (n_userID n) (vstate s) (asked_by n o) n o eq_refl (reflexivity _) s) as [Hothers _]; [done|].
  destruct (run_node n o s) as [s' r]. cbn [fst snd] in *. split_and!; [by exists new, pre|done..|].
  intros Hdis. split; [by apply Hothers|]. intros k t' q Hk Hq. unfold run_exec in Hk.
  destruct (r_goroutines t !! k) as [g|] eqn:Hg; [|done]. cbn in Hk.
  assert (Hp : own (go_session g)).
  { apply (Hin _ (go_info g)). change (arguments g ∈ started r). rewrite <-Hargs. apply list_elem_of_fmap_2. by eapply list_elem_of_lookup_2. }
  pose proof (prefetch_step_others Hdis (go_session g) (go_info g) (go_pc g) (r_state t) q) as Ho.
  destruct (prefetch_step _ _ _ _) as [v pc]. simplify_eq. apply Ho. by intros ->.
Qed.

(** ** The project of a node *)

(** The same node, and the same operation, in another project. *)
Definition in_project (w : string) (n : workspaceNode) : workspaceNode :=
  mk_workspaceNode (n_userID n) w (n_relPath n).

Definition op_in_project (w : string) (o : node_op) : node_op :=
  match o with NRename old parent new => NRename old (in_project w <$> parent) new | _ => o end.

(** A result without the numbers of inodes, and without the project of a node. *)
Definition erase (o : outcome) : outcome :=
  match o with
  | ONode (n, attr, out) => ONode (in_project "" n, Inode.mk_stableAttr (Inode.Mode attr) 0 0, out)
  | OEntries (l, started) => OEntries ((λ e, mk_DirEntry (d_Name e) (d_Mode e) 0) <$> l, started)
  | _ => o
  end.

(** Two computations do the same to the sessions, whatever inode numbers are
    in use, and their results are related. *)
Definition related {A} (R : A → A → Prop) (m1 m2 : F A) : Prop :=
  ∀ v i1 i2, let '(s1, a1) := m1 (mk_MState v i1) in let '(s2, a2) := m2 (mk_MState v i2) in
    vstate s1 = vstate s2 ∧ R a1 a2.

Lemma related_ret {A} (R : A → A → Prop) a1 a2 : R a1 a2 → related R (mret a1) (mret a2).
Proof. by intros Hr v i1 i2. Qed.

Lemma related_bind {A B} (R : A → A → Prop) (R' : B → B → Prop) (m1 m2 : F A) (f1 f2 : A → F B) :
  related R m1 m2 → (∀ a1 a2, R a1 a2 → related R' (f1 a1) (f2 a2)) → related R' (m1 ≫= f1) (m2 ≫= f2).
Proof.
  intros Hm Hf v i1 i2. specialize (Hm v i1 i2). unfold mbind, F_bind.
  destruct (m1 _) as [[v1 j1] a1], (m2 _) as [[v2 j2] a2]. destruct Hm as [Hv Hr]. cbn in Hv. subst v2.
  apply (Hf _ _ Hr v1 j1 j2).
Qed.

Lemma related_lift {A} (m : V A) : related eq (lift m) (lift m).
Proof. intros v i1 i2. unfold lift. cbn [vstate]. by destruct (m v). Qed.

Lemma related_check {A B} (R : result Errno B → result Errno B → Prop) (m : V (result error A)) (k1 k2 : A → F (result Errno B)) :
  (∀ e, R (Err e) (Err e)) → (∀ a, related R (k1 a) (k2 a)) → related R (check m k1) (check m k2).
Proof.
  intros He Hk. eapply related_bind; [apply related_lift|]. intros [a|e] _ <-; [apply Hk|by apply related_ret].
Qed.

Lemma related_stableAttr u w1 w2 r i :
  related (λ a1 a2, Inode.Mode a1 = Inode.Mode a2) (stableAttr u w1 r i) (stableAttr u w2 r i).
Proof.
  intros v i1 i2. unfold stableAttr, Inode.allocate. cbn [inodes].
  by destruct (Inode.byPath i1 !! _), (Inode.byPath i2 !! _).
Qed.

Definition same_outcome (r1 r2 : result Errno outcome) : Prop := erase <$> r1 = erase <$> r2.

Section projects.
Context `{MapRange} `{Remote} (n : workspaceNode) (w : string).

Lemma related_fill info : related eq (fill info) (fill info).
Proof. eapply related_bind; [apply related_lift|]. intros now _ <-. by apply related_ret. Qed.

Lemma related_new_child relPath info :
  related (λ r1 r2, same_outcome (ONode <$> r1) (ONode <$> r2))
    (new_child n relPath info) (new_child (in_project w n) relPath info).
Proof.
  eapply related_bind; [apply related_fill|].
  intros out _ <-. eapply related_bind; [apply related_stableAttr|]. intros a1 a2 Ha. apply related_ret.
  unfold same_outcome. cbn. unfold in_project. cbn. by rewrite Ha.
Qed.

Lemma related_dir_entries infos :
  related (λ l1 l2, (λ e, mk_DirEntry (d_Name e) (d_Mode e) 0) <$> l1 = (λ e, mk_DirEntry (d_Name e) (d_Mode e) 0) <$> l2)
    (dir_entries n infos) (dir_entries (in_project w n) infos).
Proof.
  induction infos as [|i infos IH]; cbn [dir_entries]; [by apply related_ret|].
  eapply related_bind; [apply related_stableAttr|]. intros a1 a2 Ha.
  eapply related_bind; [exact IH|]. intros l1 l2 Hl. apply related_ret. cbn. by rewrite Ha, Hl.
Qed.

Lemma related_outcome {A} (f : A → outcome) (m1 m2 : F (result Errno A)) :
  related (λ r1 r2, same_outcome (f <$> r1) (f <$> r2)) m1 m2 →
  related same_outcome (outcome_of f m1) (outcome_of f m2).
Proof. intros Hm. eapply related_bind; [exact Hm|]. intros r1 r2 Hr. by apply related_ret. Qed.

Lemma related_forget {A} (R : A → A → Prop) u w1 w2 r a : R a a →
  related R (forget u w1 r ≫= λ _, mret a) (forget u w2 r ≫= λ _, mret a).
Proof. by intros Hr v i1 i2. Qed.

Lemma related_refl {A} (f : A → outcome) (m : F (result Errno A)) :
  related eq m m → related (λ r1 r2, same_outcome (f <$> r1) (f <$> r2)) m m.
Proof. intros Hm v i1 i2. specialize (Hm v i1 i2). 
  destruct (m (mk_MState v i1)) as [s1 a1], (m (mk_MState v i2)) as [s2 a2]. destruct Hm as [Hv <-]. by split.
Qed.

Lemma related_Getattr : related eq (Getattr n) (Getattr n).
Proof.
  apply related_check; [done|]. intros info.
  eapply related_bind; [apply related_fill|].
  intros out _ <-. by apply related_ret.
Qed.

Lemma run_node_related o :
  (∀ old target new, o = NRename old (Some target) new → n_workspace target = n_workspace n) →
  related same_outcome (run_node n o) (run_node (in_project w n) (op_in_project w o)).
Proof.
  intros Hrename. destruct o as [|name| | |size off|data off|name|name|name|name|old parent new|size];
    cbn [run_node op_in_project]; apply related_outcome.
  - apply related_refl, related_Getattr.
  - apply related_check; [done|]. intros info. apply related_new_child.
  - apply related_check; [done|]. intros infos. eapply related_bind; [apply related_lift|]. intros started _ <-.
    eapply related_bind; [apply related_dir_entries|]. intros l1 l2 Hl. apply related_ret.
    unfold same_outcome. cbn. by rewrite Hl.
  - apply related_check; [done|]. intros info. by destruct (FIsDir info); apply related_ret.
  - apply related_check; [done|]. intros data. by apply related_ret.
  - apply related_check; [done|]. intros []. by apply related_ret.
  - apply related_check; [done|]. intros []. apply related_check; [done|]. intros info. apply related_new_child.
  - apply related_check; [done|]. intros []. apply related_check; [done|]. intros info. apply related_new_child.
  - apply related_check; [done|]. intros []. by apply related_forget.
  - apply related_check; [done|]. intros []. by apply related_forget.
  - destruct parent as [target|]; [|by apply related_ret]. cbn [fmap option_fmap option_map Rename].
    rewrite (bool_decide_eq_false_2 (n_workspace target ≠ n_workspace n)) by (rewrite (Hrename old target new); tauto).
    rewrite (bool_decide_eq_false_2 (n_workspace (in_project w target) ≠ n_workspace (in_project w n))) by (cbn; tauto).
    rewrite !orb_false_r. cbn [n_userID in_project]. destruct (bool_decide _); [by apply related_ret|].
    apply related_check; [done|]. intros []. by apply related_forget.
  - destruct size as [sz|]; [|apply related_refl, related_Getattr].
    apply related_refl, related_check; [done|]. intros []. apply related_Getattr.
Qed.
End projects.

(** C39. A node outlives its project.  Once a user's session shares another
    project, a lookup of the old project's name below the user's directory is
    refused; but a node that was looked up in the old project goes on to work,
    and acts on the new project: every operation on it does to the sessions,
    asks of the daemon and returns what the node at the same path of the new
    project does. *)
Theorem stale_node_acts_on_new_project `{MapRange} `{Remote} (s : MState) (n : workspaceNode) (o : node_op)
    (p : Manager.pointer) (sess : Session.Session) :
  live (vstate s) (n_userID n) p sess → Session.workspaceName sess ≠ "" →
  n_workspace n ≠ Session.workspaceName sess →
  (∀ old target new, o = NRename old (Some target) new → n_workspace target = n_workspace n) →
  snd (user_Lookup (mk_userNode (n_userID n)) (n_workspace n) s) = Err ENOENT ∧
  let w := Session.workspaceName sess in
  let '(s1, r1) := run_node n o s in
  let '(s2, r2) := run_node (in_project w n) (op_in_project w o) s in
  vstate s1 = vstate s2 ∧ erase <$> r1 = erase <$> r2.
Proof.
  intros Hlive Hw Hne Hrename. split.
  - unfold user_Lookup, check, mbind, F_bind, lift, workspaceNameFor, try, mbind, V_bind. cbn [u_userID].
    rewrite (requireSession_live (vstate s) (n_userID n) p sess Hlive). unfold from_session. cbn [mgr ticked].
    destruct Hlive as (_ & -> & _). rewrite decide_False by exact Hw. cbn. by rewrite decide_False.
  - cbv zeta. destruct s as [v i]. exact (run_node_related n (Session.workspaceName sess) o Hrename v i i).
Qed.

(** ** Examples *)

#[local] Existing Instances elements_range ViewExample.remote.

Module MountExample.
Definition state : MState := mk_MState (ViewExample.state None) Inode.newInodeAllocator.
(** The file a.go of the project "proj", which is shared, and of a project
    that was shared before. *)
Definition node : workspaceNode := mk_workspaceNode "u" "proj" "a.go".
Definition stale : workspaceNode := mk_workspaceNode "u" "other" "a.go".
Definition dir : workspaceNode := mk_workspaceNode "u" "proj" "".

(** The listing of the project starts a prefetch of the file, which goes on
    while the user's session is lost. *)
Definition prefetching : option Run :=
  run_labels dir NReaddir state [Prefetch 0; Meanwhile (Manager.Remove (Some 0) (ViewExample.manager None)); Prefetch 0; Prefetch 0].
End MountExample.

Lemma example_live : live (vstate MountExample.state) "u" 0 (ViewExample.sess None).
Proof. split_and!; [vm_compute; reflexivity..|done]. Qed.

Lemma prefetching_runs t : MountExample.prefetching = Some t → running MountExample.dir NReaddir MountExample.state t.
Proof. apply run_labels_running. Qed.

Lemma node_isolation_witness :
  ∃ t, MountExample.prefetching = Some t ∧ (asked_of <$> requests (r_state t)) = [(0, Some (read_of ViewExample.a))] ∧
    (asked_of <$> requests (r_state t)) ⊆+ [(0, Some (read_of ViewExample.a))].
Proof.
  assert (Hsome : (λ t, asked_of <$> requests (r_state t)) <$> MountExample.prefetching = Some [(0, Some (read_of ViewExample.a))])
    by (vm_compute; reflexivity).
  destruct MountExample.prefetching as [t|] eqn:Hrun; [|discriminate]. injection Hsome as Hsome. exists t.
  split; [reflexivity|]. split; [exact Hsome|].
  pose proof (node_isolation _ _ _ _ (prefetching_runs _ Hrun)) as Hiso. cbv zeta in Hiso.
  assert (Hst : started (snd (run_node MountExample.dir NReaddir MountExample.state)) = [(0, ViewExample.a)]) by (vm_compute; reflexivity).
  destruct (run_node MountExample.dir NReaddir MountExample.state) as [s' r]. cbn [snd] in Hst. rewrite Hst in Hiso.
  destruct Hiso as ((new & pre & Hreq & _ & Hnew & Hpre) & _).
  assert (Hnil : new = []).
  { destruct new as [|x new]; [reflexivity|]. apply Forall_cons in Hnew as [(_ & op & _ & Hop) _]. destruct (not_elem_of_nil op Hop). }
  rewrite Hreq, Hnil. exact Hpre.
Defined.

(** Writing to the file of the old project writes to the new one's. *)
Lemma stale_node_witness :
  snd (user_Lookup (mk_userNode "u") "other" MountExample.state) = Err ENOENT ∧
  ∃ rq, requests (vstate (fst (run_node MountExample.stale (NWrite [x61] 0) MountExample.state))) = [(0, rq, Some 5%Z)] ∧
    Op rq = Some (ReqWrite (mk_WriteFileReq "a.go" [x61] false 0 0)).
Proof.
  pose proof (stale_node_acts_on_new_project MountExample.state MountExample.stale (NWrite [x61] 0) 0 (ViewExample.sess None)
    example_live ltac:(done) ltac:(done) ltac:(done)) as [Hl Hrun].
  split; [exact Hl|]. cbv zeta in Hrun.
  set (m2 := run_node (in_project _ _) _ _) in Hrun.
  assert (Hm2 : requests (vstate (fst m2)) =
    [(0, mk_FileRequest "u-1" (Some (ReqWrite (mk_WriteFileReq "a.go" [x61] false 0 0))), Some 5%Z)]) by (vm_compute; reflexivity).
  destruct (run_node MountExample.stale _ _) as [s1 r1], m2 as [s2 r2]. destruct Hrun as [Hv _]. cbn [fst] in *.
  rewrite Hv, Hm2. by eexists.
Defined.
