(* ===== verification/Reach.v ===== *)
(** * What an agent reaches (pkg/fusefs, pkg/session and pkg/syncer together)

    An operation on a mounted node is a request to the session of the node's
    user, and the daemon of that session answers it with [Handle].  Here the two
    meet: what such an operation can do to the user's files. *)
From S2P Require Import Prelude GoPath Proto.
From S2P Require Session Manager.
From S2P Require Import OsFs Sensitive PathResolution Handle.
From S2P Require Import View Mount.
From stdpp Require Import options.

Section agents.
Context `{FileSystem} `{Quoting} `{Doublestar} `{MapRange} `{Remote}.

(** The options of the daemon behind each session. *)
Context (opts : Manager.pointer → HandleOptions).

(** The answer of a session is one that its daemon has given, in some state of
    its files, or none: it may be lost or come too late. *)
Definition answered_by_daemons : Prop := ∀ s p rq m r,
  answer s p rq = (m, RResp r) → ∃ now e, r = snd (handled now rq (opts p) e).

Hypothesis daemons : answered_by_daemons.
Hypothesis roots : ∀ p, is_abs (Root (opts p)) = true.

(** The operation names a path that the filter of the daemon protects. *)
Definition protected (p : Manager.pointer) (op : Operation) : Prop :=
  ∃ q, q ∈ op_paths op ∧ isSensitivePath (Filter (opts p)) q = true.

Lemma protected_unclear p op : protected p op → ¬ all_clear (opts p) op.
Proof. intros (q & Hq & Hs) Hc. specialize (Hc q Hq). congruence. Qed.

(** *** Refusals come back as errors *)

Definition refused (r : reply) : Prop :=
  match r with RResp resp => Success resp = false ∧ ErrorText resp ≠ "" | _ => True end.

Lemma answer_refused s p rq op :
  Op rq = Some op → protected p op → refused (snd (answer s p rq)).
Proof using All.
  intros Hop Hp%protected_unclear. destruct (answer s p rq) as [m [e| |resp]] eqn:Ha; [done..|].
  destruct (daemons s p rq m resp Ha) as (now & e & ->). cbn.
  destruct (handled_sensitive (opts p) now rq op e (roots p) Hop Hp) as [(_ & Hf & _ & t & ->) _].
  by split.
Qed.

Definition failed {A E} (r : result E A) : Prop := ∃ e, r = Err e.

Lemma classify_failed {A} e t (d : result error A) : (e = None → t ≠ "") →
  failed (match classifyRequestErr e t with Some e => Err e | None => d end).
Proof.
  intros Ht. unfold classifyRequestErr. destruct e as [ [| |[] ] |]; try by eexists.
  rewrite decide_False by (by apply Ht). by eexists.
Qed.

Lemma Request_refused p op s : protected p op → refused (snd (Request p op s)).
Proof using All.
  intros Hp. unfold Request, mbind, V_bind, on_session. destruct (Manager.deref (mgr s) p) as [sess|]; [|done].
  unfold Session.prepareRequest. cbn [RequestId Op]. destruct (decide _); [|done].
  destruct (Session.nextRequestID sess) as [sess' id]. unfold exchange. cbn.
  match goal with |- context [answer ?s ?p ?rq] => pose proof (answer_refused s p rq op eq_refl Hp); by destruct (answer s p rq) end.
Qed.

Lemma requestRead_refused p relPath off len s : protected p (ReqRead (mk_ReadFileReq relPath off len)) →
  failed (snd (requestRead p relPath off len s)).
Proof using All.
  intros Hp. unfold requestRead, mbind, V_bind. destruct (IsOfflineReadonly p s) as [s1 [|]]; [by eexists|].
  pose proof (Request_refused p _ s1 Hp) as Hr. destruct (Request p _ s1) as [s2 [e| |resp]]; cbn [fst snd] in *.
  - exact (classify_failed (Some e) "" _ ltac:(done)).
  - by eexists.
  - destruct Hr as [Hf Ht]. rewrite Hf. exact (classify_failed None _ _ (λ _, Ht)).
Qed.

(** Nothing of a protected file comes to be cached by a goroutine. *)
Lemma prefetch_step_refused p i pc s data :
  protected p (read_of i) → snd (prefetch_step p i pc s) ≠ PStore data.
Proof using All.
  intros Hp. unfold prefetch_step, mbind, V_bind. destruct pc as [| |d| |].
  - by destruct (on_session p None _ s) as [? [|]].
  - pose proof (requestRead_refused p (FPath i) 0 0 s Hp) as [e He]. destruct (requestRead p _ 0 0 s) as [s1 r]. cbn in *. by subst r.
  - by destruct (on_session p false _ s).
  - by destruct (on_session p tt _ s).
  - done.
Qed.

Lemma running_uncached n o s t : running n o s t →
  ∀ g data, g ∈ r_goroutines t → go_pc g = PStore data → ¬ protected (go_session g) (read_of (go_info g)).
Proof using All.
  apply (reachable_invariant _ _ (λ t, ∀ g data, g ∈ r_goroutines t → go_pc g = PStore data → ¬ protected (go_session g) (read_of (go_info g)))).
  - intros ? <- g data. unfold run_start. destruct (run_node n o s) as [s' r]. by intros ([p i] & -> & _)%list_elem_of_fmap.
  - intros t1 t2 Hi [l Hl] g data Hg Hpc. destruct l as [k|m]; cbn [run_exec] in Hl; [|simplify_eq; by eapply Hi].
    destruct (r_goroutines t1 !! k) as [g0|] eqn:Hk; [|done]. cbn in Hl.
    pose proof (prefetch_step_refused (go_session g0) (go_info g0) (go_pc g0) (r_state t1) data) as Hr.
    destruct (prefetch_step _ _ _ _) as [v pc]. simplify_eq. cbn in *.
    apply list_elem_of_lookup in Hg as [j [(-> & <- & _)|[_ Hg]]%list_lookup_insert_Some].
    + cbn in *. subst pc. by intros Hp%Hr.
    + by eapply Hi; [eapply list_elem_of_lookup_2|].
Qed.

Section refusals.
Context (userID : string) (s0 : VState) (reach : list Operation).
Hypothesis all_protected : ∀ p op, owned userID s0 p → op ∈ reach → protected p op.
Local Abbreviation before := (before_request userID s0).

Lemma requestFileOp_refused op : op ∈ reach → triple before (requestFileOp userID op) (λ r _, failed r).
Proof using All.
  intros Hop. apply triple_require with (reach := reach); [|intros e s _; by eexists]. intros p Hp.
  eapply triple_bind; [apply (IsOfflineReadonly_phase userID s0 reach false)|]. intros [|]; [intros s _; by eexists|].
  eapply triple_bind with (Q := λ r _, refused r); [intros s _; by apply Request_refused, all_protected|]. intros [e| |resp] s Hr.
  - exact (classify_failed (Some e) "" _ ltac:(done)).
  - by eexists.
  - destruct Hr as [Hf Ht]. rewrite Hf. exact (classify_failed None _ _ (λ _, Ht)).
Qed.

Lemma run_change_refused c : asked c ∈ reach → triple before (run_change userID c) (λ r _, failed r).
Proof using All.
  intros Hc s Hs. rewrite run_change_eq. destruct (requestFileOp_refused (asked c) Hc s Hs) as [e He].
  destruct (requestFileOp userID (asked c) s) as [s1 r]. cbn in He. subst r. by eexists.
Qed.

(** A read is served from the cache, without a request, or fails. *)
Lemma readChunk_refused relPath off size :
  ReqRead (mk_ReadFileReq relPath 0 0) ∈ reach →
  ReqRead (mk_ReadFileReq relPath off (if bool_decide (size < 0)%Z then 0%Z else size)) ∈ reach →
  triple before (readChunk userID relPath off size) (λ r s, before s ∨ failed r).
Proof using All.
  intros Hall Hpart. unfold readChunk, try. eapply triple_bind; [apply (lookupInfo_phase userID s0 reach false)|].
  intros [info|e]; [|by left]. destruct (FIsDir info); [by left|].
  apply triple_require with (reach := reach); [|by left]. intros p Hp.
  eapply triple_bind; [by apply (on_session_phase userID s0 reach false)|]. intros [data|]; [by left|].
  eapply triple_bind; [apply (IsOfflineReadonly_phase userID s0 reach false)|]. intros [|]; [by left|].
  eapply triple_bind with (Q := λ _, before); [by intros s|]. intros [|].
  - eapply triple_bind with (Q := λ r _, failed r); [intros s _; by apply requestRead_refused, all_protected|].
    intros [data|e] s [e' He]; [done|]. right. by eexists.
  - intros s Hs. right. by apply requestRead_refused, all_protected.
Qed.
End refusals.

(** *** The handlers *)

Lemma check_refused {A B} P (m : V (result error A)) (k : A → F (result Errno B)) s :
  triple P m (λ r _, failed r) → P (vstate s) → failed (snd (check m k s)).
Proof.
  intros Hm Hs. destruct (Hm _ Hs) as [e He]. unfold check, lift, mbind, F_bind.
  destruct (m (vstate s)) as [v r]. cbn in He. subst r. by eexists.
Qed.

Lemma outcome_refused {A} (f : A → outcome) (m : F (result Errno A)) s : failed (snd (m s)) → failed (snd (outcome_of f m s)).
Proof. unfold outcome_of, mbind, F_bind. destruct (m s) as [s' r]. cbn. intros [e ->]. by eexists. Qed.

Lemma run_node_refused n o s :
  (∀ p op, owned (n_userID n) (vstate s) p → op ∈ asked_by n o → protected p op) → asked_by n o ≠ [] →
  requests (vstate (fst (run_node n o s))) = requests (vstate s) ∨ failed (snd (run_node n o s)).
Proof using All.
  intros Hall Hne. set (u := n_userID n) in *.
  assert (Hstart : before_request u (vstate s) (vstate s)) by done.
  assert (Hchange : ∀ {A} c (k : unit → F (result Errno A)) f, asked c ∈ asked_by n o →
    failed (snd (outcome_of f (check (run_change u c) k) s))).
  { intros A c k f Hc. by eapply outcome_refused, check_refused; [eapply run_change_refused|]. }
  destruct o as [|name| | |size off|data off|name|name|name|name|old parent new|size]; try done;
    cbn [run_node]; [|right..].
  - unfold outcome_of, Read, check, lift, mbind, F_bind. assert (Hr : triple (before_request u (vstate s)) (readChunk u (n_relPath n) off size)
      (λ r v, before_request u (vstate s) v ∨ failed r)).
    { eapply readChunk_refused; [exact Hall|by left|by right; left]. }
    specialize (Hr (vstate s) Hstart). change (n_userID n) with u. cbn [vstate fst snd] in *.
    destruct (readChunk u (n_relPath n) off size (vstate s)) as [v [data|e] ]; [|right; by eexists].
    destruct Hr as [(_ & Hr & _)|[e He] ]; [by left|done].
  - by apply (Hchange _ (CWrite _ off data)); left.
  - by apply (Hchange _ (CCreate _)); left.
  - by apply (Hchange _ (CMkdir _ false)); left.
  - by apply (Hchange _ (CRemove _)); left.
  - by apply (Hchange _ (CRemove _)); left.
  - destruct parent as [target|]; [|done]. unfold Rename. destruct (_ || _); [by eexists|].
    by apply (Hchange _ (CRename _ _)); left.
  - destruct size as [sz|]; [|done]. by apply (Hchange _ (CTruncate _ _)); left.
Qed.

(** All that an operation may ask for names the same paths. *)
Lemma asked_by_protected n o p op op' :
  op ∈ asked_by n o → op' ∈ asked_by n o → protected p op → protected p op'.
Proof using Type.
  intros Hop Hop' (q & Hq & Hs). exists q. split; [|done]. revert Hq.
  enough (op_paths op = op_paths op') as -> by done.
  destruct o as [| | | | | | | | | |? [|] ?|[|] ]; cbn [asked_by] in *; clear -Hop Hop'; set_solver.
Qed.

End agents.

(** ** A daemon that answers *)

Module ReachExample.
(** Each request finds the files as they were. *)
Definition remote : Remote := {|
  clock _ := 7%Z;
  answer s _ rq := (mgr s, RResp (snd (handled (H := Toy.fs) 0 rq HandleExample.opts (Toy.start HandleExample.files)))) |}.
Definition dir : workspaceNode := mk_workspaceNode "u" "proj" "".
End ReachExample.

#[local] Existing Instances elements_range ReachExample.remote.

