(* ===== verification/Server.v ===== *)
(** * The entry of the server (app/server/main.go, pty_runtime.go, recovery.go;
      Mount and Close of pkg/fusefs/mount_linux.go)

    What the server opens, in which order, and how it ends, with the goroutine
    that unmounts the workspace; the configuration of the terminal service and its
    stores of limiters; and the interceptor that turns a panic into an error.  The
    operating system, FUSE, gRPC and the parser of the command line are the
    environment, whose answers may depend on what was done before. *)
From S2P Require Import Prelude GoPath PathFacts.
From S2P Require Auth Config PtyService Transport View Mount.
From stdpp Require Import options.

(** ** What the server does *)

Inductive error : Type :=
  | ErrConfig (err : Config.error)
  | ErrLogger (text : string)
  | ErrMountpoint (path text : string)              (* "server: ensure mountpoint %q: %w" *)
  | ErrMountOptions (err : View.base_error)
  | ErrMount (path text : string)                   (* "fusefs: mount %q: %w" *)
  | ErrWaitMount (path text : string) (cleanup : option string)
  | ErrPTYService (err : PtyService.error)          (* "server: build pty service: %w" *)
  | ErrListen (addr text : string)                  (* "server: listen %q: %w" *)
  | ErrServe (text : string).                       (* "server: grpc serve: %w" *)

(** The keepalive options of the gRPC server. *)
Record keepalive : Type := mk_keepalive {
  Time : Z; Timeout : Z; MinTime : Z; PermitWithoutStream : bool }.

(** [fs.Options] *)
Record fs_Options : Type := mk_fs_Options {
  FsName : string; DisableXAttrs : bool; DisableReadDirPlus : bool;
  EntryTimeout : option Z; AttrTimeout : option Z; NegativeTimeout : option Z; RootIno : Z }.

(** [grpc.ErrServerStopped], or another error *)
Inductive serve_error : Type := ErrServerStopped | ServeFailed (text : string).

(** With the answers.  [GracefulStop] is the call that is waited for, and
    whether it has returned within the grace period. *)
Inductive action : Type :=
  | LoggerOpened (err : option string)
  | LoggerClosed (err : option string)
  | MadeMountpoint (path : string) (err : option string)
  | Mounted (path : string) (opts : fs_Options) (err : option string)      (* [fs.Mount] *)
  | WaitedMount (err : option string)
  | Closing (at_end : bool)                         (* [Close] of the mount is called, at the end or by the goroutine *)
  | Unmounted (err : option string)                 (* [server.Unmount] *)
  | Listening (addr : string) (err : option string)
  | ListenerClosed (err : option string)
  | Serving (opts : keepalive)                      (* the goroutine that serves is started *)
  | GracefulStop (in_time : bool)
  | ForcedStop
  | Served (err : option serve_error).              (* [Serve] has returned *)

Abbreviation history := (list action).

(** [wait_done]: the context ends before [Serve] returns; [wakes]: the context has
    ended, and the goroutine that waits for it to unmount the workspace runs now. *)
Class System := {
  open_logger : history → option string;
  close_logger : history → option string;
  mkdir_all : history → string → option string;
  mount : history → string → option string;
  wait_mount : history → option string;
  unmount : history → option string;
  wakes : history → bool;
  listen : history → string → option string;
  close_listener : history → option string;
  wait_done : history → bool;
  graceful_stop : history → bool;
  serve : history → option serve_error;
}.

Definition M (A : Type) : Type := history → history * A.
#[global] Instance server_ret : MRet M := λ A a h, (h, a).
#[global] Instance server_bind : MBind M := λ A B f m h, let '(h, a) := m h in f a h.

(** ** The terminal service *)

Definition DefaultPTYAttachQPS : Z := 1.
Definition DefaultPTYAttachBurst : Z := 3.
Definition DefaultPTYStdinBPS : Z := 2 ^ 20.
Definition DefaultPTYStdinBurst : Z := 256 * 1024.

(** A store of limiters: the limiter of each user, by its identity, with what it
    was made with. *)
Record limiterStore : Type := mk_limiterStore {
  rate : Z; burst : Z; limiters : gmap string nat; made : list (Z * Z) }.

Definition newLimiterStore (rate burst : Z) : limiterStore := mk_limiterStore rate burst ∅ [].
Definition newAttachLimiterStore : Z → Z → limiterStore := newLimiterStore.
Definition newInputLimiterStore : Z → Z → limiterStore := newLimiterStore.

(** [limiterFor] of both stores, under their mutex *)
Definition limiterFor (userID : string) (s : limiterStore) : limiterStore * nat :=
  match limiters s !! userID with
  | Some l => (s, l)
  | None =>
    let l := length (made s) in
    (mk_limiterStore (rate s) (burst s) (<[userID := l]> (limiters s)) (made s ++ [(rate s, burst s)]), l)
  end.

(** The manager is never nil. *)
Definition newPTYService (cfg : Config.ServerConfig) : result PtyService.error PtyService.Config :=
  PtyService.New (PtyService.mk_Config true true (Config.Mountpoint cfg) PtyService.DefaultPTYEnvPassthrough
    PtyService.DefaultPTYFrameMaxBytes PtyService.DefaultPTYGracefulShutdown).

(** ** The interceptors *)

(** How the stack of a handler ends. *)
Inductive outcome (E : Type) : Type := Returns (err : option E) | Panics.
Arguments Returns {E} err.
Arguments Panics {E}.

Inductive status : Type := Internal | FromAuth (err : Auth.error) | FromHandler (text : string).

Definition recoveryStreamInterceptor (handler : outcome status) : outcome status :=
  match handler with
  | Panics => Returns (Some Internal)                (* logged with the stack *)
  | Returns err => Returns err
  end.

(** [grpc.ChainStreamInterceptor]: the recovery is the outermost. *)
Definition stream_chain `{Auth.Verifier} (handler : Auth.Context → outcome status) (ctx : Auth.Context) : outcome status :=
  recoveryStreamInterceptor
    match Auth.StreamServerInterceptor handler ctx with
    | Auth.Unauthenticated e => Returns (Some (FromAuth e))
    | Auth.Handled r => r
    end.

(** ** Running *)

Definition durationPtr (v : Z) : option Z := if decide (v ≤ 0)%Z then None else Some v.

Definition fs_options (o : Mount.Options) : fs_Options :=
  mk_fs_Options "rclaude" true true
    (durationPtr (Mount.EntryTimeout o)) (durationPtr (Mount.AttrTimeout o)) (durationPtr (Mount.NegativeTimeout o)) 1.

Section run.
Context `{System} `{Config.Viper}.

Definition do_log (err : history → option string) (act : option string → action) : M (option string) := λ h,
  let e := err h in (h ++ [act e], e).
Definition note (a : action) : M unit := λ h, (h ++ [a], tt).
Definition ask (b : history → bool) : M bool := λ h, (h, b h).

(** *** The mount *)

(** [once] of [mountedFS]: [Unmount] was called. *)
Definition once_done (h : history) : bool := existsb (λ a, match a with Unmounted _ => true | _ => false end) h.

(** [mountedFS.Close]: the error is of the call that unmounts, and others return none. *)
Definition Close (at_end : bool) : M (option string) := λ h,
  let h := h ++ [Closing at_end] in
  if once_done h then (h, None) else do_log unmount Unmounted h.

(** [Mount], without the goroutine that it starts at its end *)
Definition Mount (opts : Mount.Options) : M (option error) :=
  match Mount.validateOptions opts with
  | Some e => mret (Some (ErrMountOptions e))
  | None =>
    let opts := Mount.defaultedOptions opts in
    let path := Mount.Mountpoint opts in
    err ← do_log (λ h, mount h path) (Mounted path (fs_options opts));
    match err with
    | Some e => mret (Some (ErrMount path e))
    | None =>
      err ← do_log wait_mount WaitedMount;
      match err with
      | Some e => cleanupErr ← do_log unmount Unmounted; mret (Some (ErrWaitMount path e cleanupErr))
      | None => mret None
      end
    end
  end.

(** The goroutine of [Mount]: once the context has ended, it closes the mount and
    forgets the error; then it has returned. *)
Definition returned (h : history) : bool := existsb (λ a, match a with Closing false => true | _ => false end) h.
Definition close_when_done : M unit :=
  is_done ← ask (λ h, wakes h && negb (returned h));
  if is_done : bool then _ ← Close false; mret tt else mret tt.

(** After what the server does, that goroutine may come to run. *)
Definition watched {A} (m : M A) : M A := a ← m; _ ← close_when_done; mret a.

(** *** Serving *)

(** [stopGRPCServer]: a graceful stop, and a forced one when the grace period ends
    before; it returns when the graceful stop has. *)
Definition stopGRPCServer : M unit :=
  in_time ← ask graceful_stop;
  _ ← watched (note (GracefulStop in_time));
  if negb (in_time : bool) then watched (note ForcedStop) else mret tt.

(** [<-serveErrCh] *)
Definition serve_result : M (option serve_error) := λ h,
  let e := serve h in (h ++ [Served e], e).

Definition serve_outcome (err : option serve_error) : option error :=
  match err with Some (ServeFailed text) => Some (ErrServe text) | Some ErrServerStopped | None => None end.

Definition keepalive_options : keepalive :=
  mk_keepalive Transport.DefaultGRPCKeepaliveTime Transport.DefaultGRPCKeepaliveTimeout Transport.DefaultGRPCKeepaliveMinTime true.

Definition serveUntilDone : M (option error) :=
  _ ← watched (note (Serving keepalive_options));
  is_done ← ask wait_done;
  _ ← (if is_done : bool then stopGRPCServer else mret tt);
  err ← watched serve_result;
  mret (serve_outcome err).

(** [newGRPCServer], up to its listener *)
Definition newGRPCServer (cfg : Config.ServerConfig) : M (option error) :=
  err ← watched (do_log (λ h, listen h (Config.Listen cfg)) (Listening (Config.Listen cfg)));
  mret match err with Some e => Some (ErrListen (Config.Listen cfg) e) | None => None end.

Definition mountWorkspace (cfg : Config.ServerConfig) : M (option error) :=
  Mount (Mount.mk_Options (Config.Mountpoint cfg) true 0 0 0).

(** Errors of closing are only logged. *)
Definition runPreparedServer (cfg : Config.ServerConfig) : M (option error) :=
  mkdirErr ← do_log (λ h, mkdir_all h (Config.Mountpoint cfg)) (MadeMountpoint (Config.Mountpoint cfg));
  match mkdirErr with
  | Some e => mret (Some (ErrMountpoint (Config.Mountpoint cfg) e))
  | None =>
    err ← mountWorkspace cfg;
    match err with
    | Some e => mret (Some e)
    | None =>
      _ ← close_when_done;
      res ←
        match newPTYService cfg with
        | Err e => mret (Some (ErrPTYService e))
        | Ok _ =>
          err ← newGRPCServer cfg;
          match err with
          | Some e => mret (Some e)
          | None =>
            res ← serveUntilDone;
            _ ← watched (do_log close_listener ListenerClosed);
            mret res
          end
        end;
      _ ← Close true;
      mret res
    end
  end.

(** [prepareRuntime]: the configuration, once the logger is open; the manager, the
    service and the verifier are made without a call. *)
Definition prepareRuntime (configPath : string) : M (result error Config.ServerConfig) :=
  match Config.LoadServer configPath with
  | Err e => mret (Err (ErrConfig e))
  | Ok cfg =>
    err ← do_log open_logger LoggerOpened;
    mret match err with Some e => Err (ErrLogger e) | None => Ok cfg end
  end.

Definition runServer (configPath : string) : M (option error) :=
  cfg ← prepareRuntime configPath;
  match cfg with
  | Err e => mret (Some e)
  | Ok cfg =>
    res ← runPreparedServer cfg;
    _ ← do_log close_logger LoggerClosed;
    mret res
  end.

(** The exit code.  Arguments are refused, and the path of the configuration is
    required; [args]: what the parser makes of the command line. *)
Definition main (args : result string string) : M Z :=
  match args with
  | Err _ => mret 1%Z
  | Ok configPath => err ← runServer configPath; mret match err with Some _ => 1%Z | None => 0%Z end
  end.
End run.

(** ** What a run may do *)

Inductive mount_state : Type :=
  | NotMounted
  | Mounting (path : string)                        (* [fs.Mount] has succeeded *)
  | IsMounted
  | Unmounting                                      (* [Close] was called for the first time *)
  | Closed (err : option string).                   (* [Unmount] was called, with this answer *)
#[export] Instance mount_state_eq_dec : EqDecision mount_state.
Proof. solve_decision. Defined.

(** What is open, whether the mount was closed at the end, how stopping went, what
    [Serve] has returned, and the error that was met. *)
Record phase : Type := mk_phase {
  logging : bool; fs : mount_state; released : bool; listening : bool;
  graceful : option bool; forced : bool; served : option (option serve_error); failure : option error }.
Definition initial_phase : phase := mk_phase false NotMounted false false None false None None.

Definition set_logging b p := mk_phase b (fs p) (released p) (listening p) (graceful p) (forced p) (served p) (failure p).
Definition set_fs m p := mk_phase (logging p) m (released p) (listening p) (graceful p) (forced p) (served p) (failure p).
Definition set_released b p := mk_phase (logging p) (fs p) b (listening p) (graceful p) (forced p) (served p) (failure p).
Definition set_listening b p := mk_phase (logging p) (fs p) (released p) b (graceful p) (forced p) (served p) (failure p).
Definition set_graceful g p := mk_phase (logging p) (fs p) (released p) (listening p) g (forced p) (served p) (failure p).
Definition set_forced b p := mk_phase (logging p) (fs p) (released p) (listening p) (graceful p) b (served p) (failure p).
Definition set_served e p := mk_phase (logging p) (fs p) (released p) (listening p) (graceful p) (forced p) e (failure p).
Definition set_failure e p := mk_phase (logging p) (fs p) (released p) (listening p) (graceful p) (forced p) (served p) e.

(** The call has failed with the error [e], if there is one. *)
Definition fail (e : option error) (p : phase) : phase := match e with Some _ => set_failure e p | None => p end.

Definition is_closed (m : mount_state) : bool := match m with Closed _ => true | _ => false end.
Definition not_mounted (m : mount_state) : bool := match m with NotMounted => true | _ => false end.
Definition mounted (m : mount_state) : bool := match m with IsMounted | Closed _ => true | _ => false end.
Definition going_on (p : phase) : bool := match failure p with None => true | Some _ => false end.
Definition never_ready (p : phase) : bool := match failure p with Some (ErrWaitMount _ _ _) => true | _ => false end.

(** A workspace that was mounted was closed at the end, or was never ready and
    unmounting it was tried at once. *)
Definition given_back (p : phase) : bool := not_mounted (fs p) || is_closed (fs p) && (released p || never_ready p).

(** The order of a run.  The logger is opened first and closed last; nothing is
    opened once a call has failed; the listener is opened on a workspace that is
    ready; serving needs the listener, which is closed when [Serve] has returned;
    the mount is closed at the end when the listener is closed, while the goroutine
    may close it before; and [Unmount] is called by the first of the two. *)
Definition advance (p : phase) (a : action) : option phase :=
  match a with
  | LoggerOpened err =>
    if negb (logging p) && not_mounted (fs p) && going_on p
    then Some (fail (ErrLogger <$> err) (set_logging (bool_decide (err = None)) p)) else None
  | MadeMountpoint path err =>
    if logging p && not_mounted (fs p) && going_on p then Some (fail (ErrMountpoint path <$> err) p) else None
  | Mounted path _ err =>
    if logging p && not_mounted (fs p) && going_on p
    then Some (fail (ErrMount path <$> err) (set_fs (if decide (err = None) then Mounting path else NotMounted) p)) else None
  | WaitedMount err =>
    match fs p, going_on p with
    | Mounting path, true =>
      Some match err with None => set_fs IsMounted p | Some text => set_failure (Some (ErrWaitMount path text None)) p end
    | _, _ => None
    end
  | Closing at_end =>
    if logging p && mounted (fs p) && (negb at_end || negb (listening p) && negb (released p))
    then Some (set_released (released p || at_end) (set_fs (if is_closed (fs p) then fs p else Unmounting) p)) else None
  | Unmounted err =>
    match fs p, failure p with
    | Mounting _, Some (ErrWaitMount path text None) =>
      Some (set_fs (Closed err) (set_failure (Some (ErrWaitMount path text err)) p))
    | Unmounting, _ => Some (set_fs (Closed err) p)
    | _, _ => None
    end
  | Listening addr err =>
    if mounted (fs p) && negb (listening p) && negb (released p) && going_on p
    then Some (fail (ErrListen addr <$> err) (set_listening (bool_decide (err = None)) p)) else None
  | ListenerClosed _ =>
    if listening p && bool_decide (served p ≠ None) then Some (set_listening false p) else None
  | Serving _ => if logging p && listening p && bool_decide (served p = None) then Some p else None
  | GracefulStop in_time =>
    if listening p && bool_decide (served p = None) then Some (set_graceful (Some in_time) p) else None
  | ForcedStop => if listening p && bool_decide (graceful p = Some false) then Some (set_forced true p) else None
  | Served err =>
    if listening p && bool_decide (served p = None) && going_on p then Some (fail (serve_outcome err) (set_served (Some err) p)) else None
  | LoggerClosed _ =>
    if logging p && negb (listening p) && given_back p then Some (set_logging false p) else None
  end.

Definition protocol (h : history) : option phase := foldl (λ p a, p ← p; advance p a) (Some initial_phase) h.

Lemma server_protocol_snoc h a : protocol (h ++ [a]) = (p ← protocol h; advance p a).
Proof. unfold protocol. by rewrite foldl_app. Qed.

Lemma fail_fs e p : fs (fail e p) = fs p.
Proof. by destruct e. Qed.

Lemma fail_served e p : served (fail e p) = served p.
Proof. by destruct e. Qed.

(** The calls of [Unmount], with their answers. *)
Definition unmounts (h : history) : list (option string) := omap (λ a, match a with Unmounted e => Some e | _ => None end) h.

Lemma unmounts_app h h' : unmounts (h ++ h') = unmounts h ++ unmounts h'.
Proof. unfold unmounts. apply omap_app. Qed.

(** It is called at most once, and the phase has its answer. *)
Lemma unmounts_phase h p : protocol h = Some p → unmounts h = match fs p with Closed e => [e] | _ => [] end.
Proof.
  revert p. induction h as [|a h IH] using rev_ind; intros p; [by intros [= <-]|].
  rewrite server_protocol_snoc. destruct (protocol h) as [q|]; [|done]. specialize (IH q eq_refl). cbn.
  rewrite unmounts_app, IH. clear IH. destruct q as [lg m rl li g fo sv fa]. cbn.
  intros Ha. destruct a as [e|e|x e|x o e|e|b|e|x e|e|k|b| |e]; cbn in Ha |- *.
  all: try (match type of Ha with (if ?c then _ else _) = Some _ => destruct c eqn:Hc; [|done]; injection Ha as <- end).
  all: rewrite ?fail_fs; cbn; rewrite ?app_nil_r; try done.
  - destruct m; cbn in Hc; rewrite ?andb_false_r in Hc; try done. by case_decide.
  - destruct m; try done. destruct (going_on _); [|done]. by destruct e; simplify_eq.
  - by destruct m.
  - destruct m; try done; [|by simplify_eq]. destruct fa as [ [] |]; try done. by case_match; simplify_eq.
Qed.

(** Whether the once of the mount is used shows in the phase. *)
Lemma once_done_unmounts h : once_done h = negb (bool_decide (unmounts h = [])).
Proof.
  unfold once_done, unmounts. induction h as [|a h IH]; [done|]. cbn. rewrite IH. by destruct a.
Qed.

Lemma once_done_phase h p : protocol h = Some p → once_done h = is_closed (fs p).
Proof. intros Hp. rewrite once_done_unmounts, (unmounts_phase h p Hp). by destruct (fs p). Qed.

(** ** Programs keep to it *)

(** Run where [P] holds, [m] keeps to the protocol and ends where [Q] holds. *)
Definition triple {A} (P : phase → Prop) (m : M A) (Q : A → phase → Prop) : Prop :=
  ∀ h p, protocol h = Some p → P p → ∃ p', protocol (fst (m h)) = Some p' ∧ Q (snd (m h)) p'.

Lemma run_triple_ret {A} (P : phase → Prop) (a : A) (Q : A → phase → Prop) : (∀ p, P p → Q a p) → triple P (mret a) Q.
Proof. intros HQ h p Hp HP. exists p. split; [done|by apply HQ]. Qed.

Lemma run_triple_bind {A B} P (m : M A) (f : A → M B) R Q :
  triple P m R → (∀ a, triple (R a) (f a) Q) → triple P (a ← m; f a) Q.
Proof.
  intros Hm Hf h p Hp HP. destruct (Hm h p Hp HP) as (q & Hq & HR).
  unfold mbind, server_bind. destruct (m h) as [h' a]. by apply (Hf a h' q).
Qed.

Lemma run_triple_pre {A} (P P' : phase → Prop) (m : M A) Q : (∀ p, P p → P' p) → triple P' m Q → triple P m Q.
Proof. intros HP Hm h p Hp Hpp. apply (Hm h p Hp). by apply HP. Qed.

Lemma run_triple_post {A} P (m : M A) (Q Q' : A → phase → Prop) : (∀ a p, Q' a p → Q a p) → triple P m Q' → triple P m Q.
Proof. intros HQ Hm h p Hp HP. destruct (Hm h p Hp HP) as (p' & ? & ?). exists p'. split; [done|by apply HQ]. Qed.

Section programs.
Context `{System} `{Config.Viper}.

Lemma triple_do_log (P : phase → Prop) err act (Q : option string → phase → Prop) :
  (∀ p e, P p → ∃ p', advance p (act e) = Some p' ∧ Q e p') → triple P (do_log err act) Q.
Proof. intros HA h p Hp HP. cbn. rewrite server_protocol_snoc, Hp. by apply HA. Qed.

Lemma triple_note (P : phase → Prop) a (Q : unit → phase → Prop) :
  (∀ p, P p → ∃ p', advance p a = Some p' ∧ Q tt p') → triple P (note a) Q.
Proof. intros HA h p Hp HP. cbn. rewrite server_protocol_snoc, Hp. by apply HA. Qed.

Lemma triple_ask (P : phase → Prop) b (Q : bool → phase → Prop) : (∀ p x, P p → Q x p) → triple P (ask b) Q.
Proof. intros HA h p Hp HP. exists p. split; [done|by apply HA]. Qed.

Lemma triple_serve_result (P : phase → Prop) (Q : option serve_error → phase → Prop) :
  (∀ p e, P p → ∃ p', advance p (Served e) = Some p' ∧ Q e p') → triple P serve_result Q.
Proof. intros HA h p Hp HP. cbn. rewrite server_protocol_snoc, Hp. by apply HA. Qed.

(** The workspace was ready, and may be unmounted meanwhile. *)
Definition had_mount (p : phase) : Prop := logging p = true ∧ mounted (fs p) = true.

(** [P] does not say whether the workspace is still mounted. *)
Definition stable (P : phase → Prop) : Prop := ∀ p e, P p → P (set_fs (Closed e) p).

Ltac solve_stable := unfold stable; intros; assumption.

(** What [Close] does: the phase is that of a mount that is closed. *)
Lemma Close_phase at_end h p :
  protocol h = Some p → had_mount p → (at_end = true → listening p = false ∧ released p = false) →
  ∃ e, protocol (fst (Close at_end h)) = Some (set_released (released p || at_end) (set_fs (Closed e) p)).
Proof.
  intros Hp [Hl Hm] Hend. unfold Close, do_log.
  assert (Hc : protocol (h ++ [Closing at_end]) = Some (set_released (released p || at_end) (set_fs (if is_closed (fs p) then fs p else Unmounting) p))).
  { rewrite server_protocol_snoc, Hp. cbn. rewrite Hl, Hm. destruct at_end; [|done]. by destruct Hend as [-> ->]. }
  rewrite (once_done_phase _ _ Hc). cbn. destruct (fs p) eqn:Hf; try done; cbn in *.
  - eexists. by rewrite server_protocol_snoc, Hc.
  - by eexists.
Qed.

Lemma triple_close_when_done (P : phase → Prop) : stable P →
  triple (λ p, P p ∧ had_mount p) close_when_done (λ _ p, P p ∧ had_mount p).
Proof.
  intros HP. unfold close_when_done. eapply run_triple_bind; [by apply (triple_ask _ _ (λ _ p, P p ∧ had_mount p))|].
  intros [|]; [|by apply run_triple_ret]. eapply run_triple_bind with (R := λ _ p, P p ∧ had_mount p); [|intros ?; by apply run_triple_ret].
  intros h p Hp [HPp Hm]. destruct (Close_phase false h p Hp Hm) as [e He]; [done|]. eexists. split; [exact He|].
  rewrite orb_false_r. split; [|by destruct Hm].
  specialize (HP p e HPp). destruct p. exact HP.
Qed.

Lemma triple_watched {A} P (m : M A) (Q : A → phase → Prop) : (∀ a, stable (Q a)) →
  triple P m (λ a p, Q a p ∧ had_mount p) → triple P (watched m) (λ a p, Q a p ∧ had_mount p).
Proof.
  intros HQ Hm. unfold watched. eapply run_triple_bind; [exact Hm|]. intros a. cbn.
  eapply run_triple_bind; [by apply triple_close_when_done|]. intros ?. by apply run_triple_ret.
Qed.

Definition forced_rightly (p : phase) : Prop := forced p = true ↔ graceful p = Some false.

Lemma fresh_forced p : graceful p = None → forced p = false → forced_rightly p.
Proof. unfold forced_rightly. by intros -> ->. Qed.

(** Nothing has failed, and the mount was not closed at the end. *)
Definition in_order (p : phase) : Prop := released p = false ∧ served p = None ∧ failure p = None.

(** The listener is open, or not yet, and stopping has not begun. *)
Definition ready (p : phase) : Prop := listening p = true ∧ graceful p = None ∧ forced p = false ∧ in_order p.
Definition fresh_listener (p : phase) : Prop := listening p = false ∧ graceful p = None ∧ forced p = false ∧ in_order p.

(** The listener is open until [Serve] has returned. *)
Definition stopping (p : phase) : Prop := listening p = true ∧ forced_rightly p ∧ in_order p.

Lemma stopGRPCServer_ok :
  triple (λ p, ready p ∧ had_mount p) stopGRPCServer (λ _ p, stopping p ∧ had_mount p).
Proof.
  unfold stopGRPCServer.
  eapply run_triple_bind; [apply (triple_ask _ _ (λ _ p, ready p ∧ had_mount p)); tauto|]. intros in_time.
  eapply run_triple_bind; [apply triple_watched with (Q := λ _ p,
    listening p = true ∧ graceful p = Some in_time ∧ forced p = false ∧ in_order p); [solve_stable|]|intros ?].
  - apply triple_note. intros p [(Hl & Hg & Hf & Ho) Hm]. pose proof Ho as (_ & Hs & _). cbn. rewrite Hl, Hs. cbn. eauto 10.
  - destruct in_time; cbn.
    + apply run_triple_ret. intros p [(Hl & Hg & Hf & Ho) Hm]. unfold stopping, forced_rightly. rewrite Hg, Hf. done.
    + apply triple_watched; [solve_stable|]. apply triple_note. intros p [(Hl & Hg & Hf & Ho) Hm]. cbn. rewrite Hl, Hg. cbn.
      eexists. split; [done|]. by unfold stopping, forced_rightly.
Qed.

(** [Serve] has returned, and [res] is what that stands for. *)
Definition ended (res : option error) (p : phase) : Prop :=
  forced_rightly p ∧ released p = false ∧ res = failure p ∧ ∃ err, served p = Some err ∧ failure p = serve_outcome err.

Lemma serveUntilDone_ok :
  triple (λ p, ready p ∧ had_mount p) serveUntilDone (λ res p, (listening p = true ∧ ended res p) ∧ had_mount p).
Proof.
  unfold serveUntilDone.
  eapply run_triple_bind; [apply triple_watched with (Q := λ _, ready); [solve_stable|]|intros ?].
  { apply triple_note. intros p [Hr [Hlog Hm]]. pose proof Hr as (Hl & _ & _ & _ & Hs & _). cbn. rewrite Hl, Hlog, Hs. cbn. unfold had_mount. eauto. }
  eapply run_triple_bind; [apply (triple_ask _ _ (λ _ p, ready p ∧ had_mount p)); tauto|]. intros is_done.
  eapply (run_triple_bind _ _ _ (λ _ p, stopping p ∧ had_mount p)); [destruct is_done; [exact stopGRPCServer_ok|]|intros ?].
  { apply run_triple_ret. intros p [(Hl & Hg & Hf & Ho) Hm]. unfold stopping, forced_rightly. by rewrite Hg, Hf. }
  eapply run_triple_bind; [apply triple_watched with (Q := λ err p,
    listening p = true ∧ forced_rightly p ∧ released p = false ∧ served p = Some err ∧ failure p = serve_outcome err); [solve_stable|]|intros err].
  - apply triple_serve_result. intros p e [(Hl & Hf & Hr & Hs & Hno) Hm]. cbn. unfold going_on. rewrite Hl, Hs, Hno. cbn.
    eexists. split; [done|]. destruct e as [ []|]; cbn; by split_and!.
  - apply run_triple_ret. intros p [(Hl & Hf & Hr & Hs & He) Hm]. unfold ended. eauto 10.
Qed.

(** The error that is returned is the one that was met: none exactly when [Serve]
    has ended as it was told to, and never one that a checked configuration rules
    out. *)
Definition right_error (res : option error) (p : phase) : Prop :=
  res = failure p ∧
  (res = None ↔ served p = Some None ∨ served p = Some (Some ErrServerStopped)) ∧
  (∀ e, res ≠ Some (ErrPTYService e)) ∧ (∀ e, res ≠ Some (ErrMountOptions e)).

Lemma right_error_early e p : served p = None → failure p = Some e →
  (∀ e', e ≠ ErrPTYService e') → (∀ e', e ≠ ErrMountOptions e') → right_error (Some e) p.
Proof. unfold right_error. intros -> ->. intuition congruence. Qed.

Lemma right_error_ended res p : ended res p → right_error res p.
Proof.
  intros (_ & _ & -> & err & Hs & Hf). unfold right_error. rewrite Hs, Hf. by destruct err as [ []|]; cbn; intuition congruence.
Qed.

Definition finished (res : option error) (p : phase) : Prop :=
  listening p = false ∧ forced_rightly p ∧ right_error res p.

(** Nothing was opened but the logger. *)
Definition fresh (p : phase) : Prop := logging p = true ∧ fs p = NotMounted ∧ fresh_listener p.

Lemma newPTYService_ok cfg : Config.valid_server cfg →
  ∃ c, newPTYService cfg = Ok c ∧ PtyService.Workspace c = Config.Mountpoint cfg.
Proof.
  intros [_ _ Hm]. unfold newPTYService, PtyService.New. cbn. eexists. split; [done|]. cbn.
  case_decide as He; [|done]. by rewrite He in Hm.
Qed.

Lemma mount_options_valid cfg : Config.valid_server cfg →
  Mount.validateOptions (Mount.mk_Options (Config.Mountpoint cfg) true 0 0 0) = None.
Proof.
  intros [_ _ Hm _]. unfold Mount.validateOptions. cbn. by rewrite decide_False by by apply trim_space_abs.
Qed.

(** A run that has ended with the error [e] before it listened. *)
Definition stopped_early (e : error) (p : phase) : Prop :=
  logging p = true ∧ given_back p = true ∧ finished (Some e) p.

Lemma stopped_early_intro e p :
  logging p = true → given_back p = true → listening p = false → graceful p = None → forced p = false → served p = None →
  failure p = Some e → (∀ e', e ≠ ErrPTYService e') → (∀ e', e ≠ ErrMountOptions e') → stopped_early e p.
Proof. intros. split_and!; [done..|]. split_and!; [done|by apply fresh_forced|by apply right_error_early]. Qed.

Lemma mountWorkspace_ok cfg : Config.valid_server cfg →
  triple fresh (mountWorkspace cfg) (λ res p,
    match res with None => fresh_listener p ∧ had_mount p | Some e => stopped_early e p end).
Proof.
  intros Hv. unfold mountWorkspace, Mount. rewrite mount_options_valid by done. cbn [Mount.Mountpoint Mount.defaultedOptions].
  eapply run_triple_bind; [apply (triple_do_log _ _ _ (λ res p, match res with
    | None => logging p = true ∧ fresh_listener p ∧ fs p = Mounting (Config.Mountpoint cfg)
    | Some e => stopped_early (ErrMount (Config.Mountpoint cfg) e) p end))|intros [e|]].
  - intros p e (Hl & Hf & Hlis & Hg & Hfo & Hr & Hs & Hno). cbn. unfold going_on. rewrite Hl, Hf, Hno. cbn. eexists. split; [done|].
    destruct e; cbn; [by apply stopped_early_intro|]. by split_and!.
  - by apply run_triple_ret.
  - eapply run_triple_bind; [apply (triple_do_log _ _ _ (λ res p, match res with
      | None => fresh_listener p ∧ had_mount p
      | Some e => logging p = true ∧ listening p = false ∧ graceful p = None ∧ forced p = false ∧ released p = false ∧ served p = None ∧
          fs p = Mounting (Config.Mountpoint cfg) ∧ failure p = Some (ErrWaitMount (Config.Mountpoint cfg) e None) end))|intros [e|]].
    + intros p e (Hl & (Hlis & Hg & Hfo & Hr & Hs & Hno) & Hf). cbn. unfold going_on. rewrite Hf, Hno. cbn. eexists. split; [done|].
      destruct e; by split_and!.
    + eapply run_triple_bind; [apply (triple_do_log _ _ _ (λ err p, stopped_early (ErrWaitMount (Config.Mountpoint cfg) e err) p))|intros err; by apply run_triple_ret].
      intros p err (Hl & Hlis & Hg & Hfo & Hr & Hs & Hf & Hfail). cbn. rewrite Hf, Hfail. cbn. eexists. split; [done|].
      apply stopped_early_intro; try done. unfold given_back, never_ready. cbn. by rewrite orb_true_r.
    + by apply run_triple_ret.
Qed.

(** What is served once the workspace is mounted. *)
Lemma serve_mounted_ok cfg : Config.valid_server cfg →
  triple (λ p, fresh_listener p ∧ had_mount p)
    (match newPTYService cfg with
     | Err e => mret (Some (ErrPTYService e))
     | Ok _ =>
       err ← newGRPCServer cfg;
       match err with
       | Some e => mret (Some e)
       | None => res ← serveUntilDone; _ ← watched (do_log close_listener ListenerClosed); mret res
       end
     end) (λ res p, (finished res p ∧ released p = false) ∧ had_mount p).
Proof.
  intros Hv. destruct (newPTYService_ok cfg Hv) as (c & -> & _). unfold newGRPCServer.
  eapply run_triple_bind; [eapply run_triple_bind; [apply triple_watched with (Q := λ res p,
      listening p = bool_decide (res = None) ∧ graceful p = None ∧ forced p = false ∧ released p = false ∧ served p = None ∧
      failure p = (ErrListen (Config.Listen cfg) <$> res)); [solve_stable|]|intros e]|].
  - apply triple_do_log. intros p e [(Hl & Hg & Hf & Hr & Hs & Hno) [Hlog Hm]].
    cbn. unfold going_on. rewrite Hl, Hm, Hr, Hno. cbn. eexists. split; [done|]. destruct e; by split; [split_and!|].
  - apply (run_triple_ret _ _ (λ res p, match res with
      | None => ready p ∧ had_mount p
      | Some e => (finished (Some e) p ∧ released p = false) ∧ had_mount p end)).
    intros p [(Hl & Hg & Hf & Hr & Hs & Hfail) Hm]. destruct e; cbn in *.
    + split; [|done]. split; [|done]. split_and!; [done|by apply fresh_forced|by apply right_error_early].
    + by split; [split_and!|].
  - intros [e|]; [by apply run_triple_ret|].
    eapply run_triple_bind; [exact serveUntilDone_ok|]. intros res. eapply run_triple_bind.
    + apply triple_watched with (Q := λ _ p, listening p = false ∧ ended res p); [solve_stable|]. apply triple_do_log.
      intros p e [[Hl He] Hm]. pose proof He as (_ & _ & _ & err & Hs & _). cbn. rewrite Hl, Hs. cbn. by eexists; split_and!.
    + intros ?. apply run_triple_ret. intros p [[Hl He] Hm]. split; [|done].
      split; [|apply He]. split_and!; [done|apply He|by apply right_error_ended].
Qed.

Lemma runPreparedServer_ok cfg : Config.valid_server cfg →
  triple fresh (runPreparedServer cfg) (λ res p, logging p = true ∧ given_back p = true ∧ finished res p).
Proof.
  intros Hv. unfold runPreparedServer.
  eapply run_triple_bind; [apply (triple_do_log _ _ _ (λ res p, match res with
    | None => fresh p | Some e => stopped_early (ErrMountpoint (Config.Mountpoint cfg) e) p end))|intros [e|]].
  - intros p e Hp. destruct Hp as (Hl & Hf & Hlis & Hg & Hfo & Hr & Hs & Hno). cbn. unfold going_on. rewrite Hl, Hf, Hno. cbn. eexists. split; [done|].
    destruct e; cbn; [|by split_and!]. apply stopped_early_intro; try done. unfold given_back. cbn. by rewrite Hf.
  - by apply run_triple_ret.
  - eapply run_triple_bind; [by apply mountWorkspace_ok|]. intros [e|]; [by apply run_triple_ret|].
    eapply run_triple_bind; [apply (triple_close_when_done fresh_listener); solve_stable|]. intros ?.
    eapply run_triple_bind; [by apply serve_mounted_ok|]. intros res.
    eapply run_triple_bind with (R := λ _ p, logging p = true ∧ given_back p = true ∧ finished res p); [|intros ?; by apply run_triple_ret].
    intros h p Hp [[Hfin Hr] Hm]. destruct (Close_phase true h p Hp Hm) as [e He]; [intros _; by destruct Hfin|].
    eexists. split; [exact He|]. rewrite orb_true_r. split; [apply Hm|done].
Qed.

(** A run of the server, once the configuration was read. *)
Lemma runServer_phase configPath cfg :
  Config.LoadServer configPath = Ok cfg →
  ∃ p, protocol (fst (runServer configPath [])) = Some p ∧ logging p = false ∧ given_back p = true ∧ finished (snd (runServer configPath [])) p.
Proof.
  intros Hl. unfold runServer, prepareRuntime. rewrite Hl.
  apply Config.loaded_server in Hl. unfold do_log, mbind, mret, server_bind, server_ret.
  destruct (open_logger []) as [e|].
  { eexists. split; [reflexivity|]. split_and!; [done..|]. split_and!; [done|by apply fresh_forced|by apply right_error_early]. }
  destruct (runPreparedServer_ok cfg Hl [LoggerOpened None] (set_logging true initial_phase)) as (p & Hp & Hlog & Hm & Hfin); [done..|].
  cbn [app]. destruct (runPreparedServer cfg [LoggerOpened None]) as [h res]. cbn [fst snd] in *.
  exists (set_logging false p). cbn [fst snd]. rewrite server_protocol_snoc, Hp. cbn. pose proof Hfin as [Hlis _].
  rewrite Hlog, Hlis, Hm. by split_and!.
Qed.


(** What a run was told by [Serve] shows in the phase. *)
Lemma served_phase h p e : protocol h = Some p → Served e ∈ h → served p = Some e.
Proof.
  revert p. induction h as [|a h IH] using rev_ind; intros p; [by intros _ ?%not_elem_of_nil|].
  rewrite server_protocol_snoc. destruct (protocol h) as [q|]; [|done]. specialize (IH q eq_refl). cbn. intros Ha [Hin|Hin]%elem_of_app.
  - specialize (IH Hin). rewrite <-IH. destruct a as [e1|e1|x e1|x o e1|e1|b|e1|x e1|e1|k|b| |e1]; cbn in Ha.
    all: try (match type of Ha with (if ?c then _ else _) = Some _ => destruct c eqn:Hc; [|done]; injection Ha as <- end).
    all: rewrite ?fail_served; cbn; try done.
    + destruct (fs q), (going_on q); try done. by destruct e1; simplify_eq.
    + destruct (fs q); try done; [|by simplify_eq]. destruct (failure q) as [ [] |]; try done. by case_match; simplify_eq.
    + apply andb_prop in Hc as [Hc _]. apply andb_prop in Hc as [_ Hc]. apply bool_decide_eq_true in Hc. congruence.
  - apply list_elem_of_singleton in Hin as <-. cbn in Ha. destruct (_ && _); [|done]. simplify_eq. by destruct e as [ []|].
Qed.

(** C25. A workspace that stays mounted.  Whatever the system answers: when the
    call that unmounts the workspace fails, be it the goroutine's, which makes it as
    soon as the server is told to stop, while agents still use the workspace, or the
    one at the end, it is not called again: the run ends with the workspace left
    mounted.  The error is not returned, and a server that was told to stop still
    ends with the exit code zero. *)
Theorem server_leaves_mount (configPath : string) :
  let '(h, code) := main (Ok configPath) [] in
  ∀ text, Unmounted (Some text) ∈ h →
    unmounts h = [Some text] ∧ (∃ p, protocol h = Some p ∧ logging p = false ∧ fs p = Closed (Some text)) ∧
    (∀ e, Served e ∈ h → serve_outcome e = None → code = 0%Z).
Proof.
  unfold main, mbind, server_bind. pose proof (runServer_phase configPath) as Hr.
  assert (Hcfg : (∃ cfg, Config.LoadServer configPath = Ok cfg) ∨ fst (runServer configPath []) = []).
  { destruct (Config.LoadServer configPath) as [cfg|e] eqn:Hl; [left; by exists cfg|right]. unfold runServer, prepareRuntime. by rewrite Hl. }
  destruct (runServer configPath []) as [h err]. cbn [fst snd] in *. intros text Hin.
  destruct Hcfg as [[cfg Hl]| ->]; [|by apply not_elem_of_nil in Hin].
  destruct (Hr cfg Hl) as (p & Hp & Hlog & _ & _ & _ & Hres & Hnone & _). pose proof (unmounts_phase h p Hp) as Hu.
  assert (Htext : Some text ∈ unmounts h) by (apply list_elem_of_omap; by exists (Unmounted (Some text))).
  destruct (fs p) eqn:Hf; rewrite Hu in Htext |- *; try by apply not_elem_of_nil in Htext.
  apply list_elem_of_singleton in Htext as <-. split_and!; [done|by exists p|].
  intros e He Hout. rewrite (proj2 Hnone); [done|]. rewrite (served_phase h p e Hp He). destruct e as [ []|]; cbn in Hout; auto; done.
Qed.
End programs.

(** ** The stores of limiters and the interceptors *)

(** Every user has a limiter of its own, one of those made. *)
Record store_ok (s : limiterStore) : Prop := mk_store_ok {
  so_made : ∀ u l, limiters s !! u = Some l → l < length (made s);
  so_own : ∀ u v l, limiters s !! u = Some l → limiters s !! v = Some l → u = v;
}.

Lemma newLimiterStore_ok r b : store_ok (newLimiterStore r b).
Proof. by split; intros *; cbn; rewrite lookup_empty. Qed.

Lemma limiterFor_spec u s : store_ok s →
  let '(s', l) := limiterFor u s in
  store_ok s' ∧ limiters s' !! u = Some l ∧ (∀ v k, limiters s !! v = Some k → limiters s' !! v = Some k).
Proof.
  intros [Hm Ho]. unfold limiterFor. destruct (limiters s !! u) as [l|] eqn:Hu; [by split_and!|].
  assert (Hnew : ∀ v, limiters s !! v ≠ Some (length (made s))) by (intros v Hv%Hm; lia).
  cbn. split_and!; [split; cbn|apply lookup_insert_eq|].
  - intros v l [[<- <-]|[? ?%Hm] ]%lookup_insert_Some; rewrite length_app; cbn; lia.
  - intros v w l [ [<- Hl]|[_ Hv] ]%lookup_insert_Some [ [<- Hk]|[_ Hw] ]%lookup_insert_Some; subst; [done| | |by eapply Ho];
      exfalso; by eapply Hnew.
  - intros v k Hv. apply lookup_insert_Some. right. split; [congruence|done].
Qed.

(** No call of a stream ends the process, and the handler runs only for a user the
    verifier knows. *)
Lemma stream_chain_returns `{Auth.Verifier} handler ctx : stream_chain handler ctx ≠ Panics.
Proof.
  unfold stream_chain. destruct (Auth.StreamServerInterceptor handler ctx) as [e|r]; cbn; [done|]. by destruct r.
Qed.

Lemma stream_chain_panic `{Auth.Verifier} handler ctx ctx' :
  Auth.StreamServerInterceptor id ctx = Auth.Handled ctx' → handler ctx' = Panics →
  stream_chain handler ctx = Returns (Some Internal).
Proof.
  unfold stream_chain, Auth.StreamServerInterceptor. destruct (Auth.FromIncomingContext ctx); [|done].
  intros [= <-] Hp. cbn. unfold id in Hp. by rewrite Hp.
Qed.

(** The server and the client agree: it never finds a client that pings as it was
    told to a nuisance. *)
Lemma keepalive_agrees : (MinTime keepalive_options < Transport.DefaultGRPCKeepaliveTime)%Z.
Proof. reflexivity. Qed.

(** Servers whose graceful stop takes too long, one that cannot listen, and one
    that is told to stop while an agent works in the workspace. *)
Module ServerExample.
Definition viper : Config.Viper := {|
  Config.Settings := unit;
  Config.ReadInConfig _ := Ok tt;
  Config.UnmarshalDaemon _ c := Ok c;
  Config.UnmarshalServer _ c := Ok (Config.mk_ServerConfig ":9326" {["t" := "u"]} "/workspace" 0 (Config.Prefetch c) 0 0) |}.

Definition has (a : action → bool) (h : history) : bool := existsb a h.
Definition is_serving (a : action) : bool := match a with Serving _ => true | _ => false end.
Definition is_served (a : action) : bool := match a with Served _ => true | _ => false end.

(** The workspace can be unmounted when nothing is served any more; [early]: the
    goroutine of the mount runs at once. *)
Definition system (addr_in_use early : bool) : System := {|
  open_logger _ := None; close_logger _ := None;
  mkdir_all _ _ := None; mount _ _ := None; wait_mount _ := None;
  unmount h := if has is_serving h && negb (has is_served h) then Some "device or resource busy" else None;
  wakes h := early && has is_serving h;
  listen _ _ := if addr_in_use then Some "in use" else None;
  close_listener _ := Some "closed";
  wait_done _ := true; graceful_stop _ := false; serve _ := Some ErrServerStopped |}.

Definition mounted : action := Mounted "/workspace" (mk_fs_Options "rclaude" true true (Some 1000000000%Z) (Some 1000000000%Z) None 1) None.

Example server_forced :
  runServer (H := system false false) (H0 := viper) "server.yaml" [] =
  ([LoggerOpened None; MadeMountpoint "/workspace" None; mounted; WaitedMount None; Listening ":9326" None;
    Serving keepalive_options; GracefulStop false; ForcedStop; Served (Some ErrServerStopped);
    ListenerClosed (Some "closed"); Closing true; Unmounted None; LoggerClosed None], None).
Proof. vm_compute. reflexivity. Qed.

Example server_in_use :
  runServer (H := system true false) (H0 := viper) "server.yaml" [] =
  ([LoggerOpened None; MadeMountpoint "/workspace" None; mounted; WaitedMount None; Listening ":9326" (Some "in use");
    Closing true; Unmounted None; LoggerClosed None], Some (ErrListen ":9326" "in use")).
Proof. vm_compute. reflexivity. Qed.

Example server_busy :
  runServer (H := system false true) (H0 := viper) "server.yaml" [] =
  ([LoggerOpened None; MadeMountpoint "/workspace" None; mounted; WaitedMount None; Listening ":9326" None;
    Serving keepalive_options; Closing false; Unmounted (Some "device or resource busy"); GracefulStop false;
    ForcedStop; Served (Some ErrServerStopped); ListenerClosed (Some "closed"); Closing true; LoggerClosed None], None).
Proof. vm_compute. reflexivity. Qed.
End ServerExample.

(** The goroutine meets a workspace in use; when the server ends, the use has ended
    and unmounting would succeed. *)
Lemma server_leaves_mount_witness :
  (∀ h e, Served e ∈ h → unmount (System := ServerExample.system false true) h = None) ∧
  let '(h, code) := main (H := ServerExample.system false true) (H0 := ServerExample.viper) (Ok "server.yaml") [] in
  code = 0%Z ∧ unmounts h = [Some "device or resource busy"].
Proof.
  split.
  - intros h e Hs. cbn. replace (ServerExample.has ServerExample.is_served h) with true; [by rewrite andb_false_r|].
    symmetry. apply existsb_exists. exists (Served e). split; [by apply list_elem_of_In|done].
  - pose proof (server_leaves_mount (H := ServerExample.system false true) (H0 := ServerExample.viper) "server.yaml") as Hl.
    unfold main, mbind, server_bind in Hl |- *. rewrite ServerExample.server_busy in Hl |- *. cbn [mret server_ret] in Hl |- *.
    destruct (Hl "device or resource busy") as (Hu & _ & Hcode); [set_solver|]. split; [|exact Hu].
    apply (Hcode (Some ErrServerStopped)); [set_solver|reflexivity].
Defined.
