(* ===== verification/Startup.v ===== *)
(** * Starting components: configuration (pkg/startup/coordinator.go, events.go)

    What [New] accepts: the names of the components and the graph of their
    dependencies, which a depth-first search with three colours checks for
    cycles.  The search recurses on fuel; [visitForCycle_spec] shows that one
    more than the number of components not yet visited is enough. *)
From S2P Require Import Prelude.
From stdpp Require Import options.

Abbreviation Component := string.

Inductive error : Type :=
  | ErrNilBus
  | ErrNoSpecs
  | ErrDuplicateComponent (name : Component)
  | ErrUnknownDependency (name dep : Component)
  | ErrSelfDependency (name : Component)
  | ErrDependencyCycle (node dep : Component).

(** The function [Run] of a component is the environment of the protocol. *)
Record Spec : Type := mk_Spec { Name : Component; DependsOn : list Component }.

Record Options : Type := mk_Options {
  has_Bus : bool;                    (* Bus != nil *)
  MaxRetries : Z;
  RetryDelay : Z;
}.

Abbreviation dependencies := (gmap Component (gset Component)).

Record Coordinator : Type := mk_Coordinator {
  opts : Options;
  specs : list Spec;
  maxAttempts : Z;
  deps : dependencies;
}.

(** White nodes are not in the map. *)
Inductive color : Type := Gray | Black.
Abbreviation colors := (gmap Component color).

Section search.
Context `{MapRange}.

(** The range over the dependencies of a node, given the recursive call. *)
Fixpoint visit_deps (visit : Component → colors → option (colors * option error)) (node : Component)
    (ds : list Component) (c : colors) : option (colors * option error) :=
  match ds with
  | [] => Some (c, None)
  | dep :: ds' =>
    match c !! dep with
    | Some Gray => Some (c, Some (ErrDependencyCycle node dep))
    | Some Black => visit_deps visit node ds' c
    | None =>
      match visit dep c with
      | Some (c', None) => visit_deps visit node ds' c'
      | r => r
      end
    end
  end.

(** [None] is out of fuel. *)
Fixpoint visitForCycle (fuel : nat) (deps : dependencies) (node : Component) (c : colors)
    : option (colors * option error) :=
  match fuel with
  | 0 => None
  | S fuel' =>
    let c := <[node := Gray]> c in
    match visit_deps (visitForCycle fuel' deps) node (range_keys (default ∅ (deps !! node))) c with
    | Some (c', None) => Some (<[node := Black]> c', None)
    | r => r
    end
  end.

Fixpoint visit_specs (fuel : nat) (deps : dependencies) (specs : list Spec) (c : colors)
    : option (colors * option error) :=
  match specs with
  | [] => Some (c, None)
  | spec :: specs' =>
    match c !! Name spec with
    | Some _ => visit_specs fuel deps specs' c
    | None =>
      match visitForCycle fuel deps (Name spec) c with
      | Some (c', None) => visit_specs fuel deps specs' c'
      | r => r
      end
    end
  end.

Definition ensureAcyclic (specs : list Spec) (deps : dependencies) : option (option error) :=
  snd <$> visit_specs (S (length specs)) deps specs ∅.

(** The loop over [spec.DependsOn]. *)
Fixpoint dependency_set (known : gset Component) (name : Component) (ds : list Component) (set : gset Component)
    : result error (gset Component) :=
  match ds with
  | [] => Ok set
  | dep :: ds' =>
    if decide (dep = name) then Err (ErrSelfDependency name)
    else if decide (dep ∈ known) then dependency_set known name ds' ({[dep]} ∪ set)
    else Err (ErrUnknownDependency name dep)
  end.

Fixpoint collect_dependencies (known : gset Component) (specs : list Spec) (deps : dependencies)
    : result error dependencies :=
  match specs with
  | [] => Ok deps
  | spec :: specs' =>
    set ← dependency_set known (Name spec) (DependsOn spec) ∅;
    collect_dependencies known specs' (<[Name spec := set]> deps)
  end.

(** The outer [None] is the search's out of fuel. *)
Definition buildDependencies (specs : list Spec) (known : gset Component) : option (result error dependencies) :=
  match collect_dependencies known specs ∅ with
  | Err e => Some (Err e)
  | Ok deps =>
    match ensureAcyclic specs deps with
    | None => None
    | Some (Some e) => Some (Err e)
    | Some None => Some (Ok deps)
    end
  end.

(** The loop of [New] that fills the maps of the components. *)
Fixpoint known_components (specs : list Spec) (known : gset Component) : result error (gset Component) :=
  match specs with
  | [] => Ok known
  | spec :: specs' =>
    if decide (Name spec ∈ known) then Err (ErrDuplicateComponent (Name spec))
    else known_components specs' ({[Name spec]} ∪ known)
  end.

Definition New (o : Options) (specs : list Spec) : option (result error Coordinator) :=
  if negb (has_Bus o) then Some (Err ErrNilBus)
  else if decide (length specs < 2) then Some (Err ErrNoSpecs)
  else
    let o := if decide (MaxRetries o < 0)%Z then mk_Options (has_Bus o) 0 (RetryDelay o) else o in
    match known_components specs ∅ with
    | Err e => Some (Err e)
    | Ok known =>
      r ← buildDependencies specs known;
      Some (deps ← r; Ok (mk_Coordinator o specs (int64 (MaxRetries o + 1)) deps))
    end.

(** ** The search finds exactly the cycles *)

Section correctness.
Variable deps : dependencies.
(** The components, all of them known. *)
Variable known : gset Component.

Definition depends (a b : Component) : Prop := ∃ ds, deps !! a = Some ds ∧ b ∈ ds.

Hypothesis deps_known : ∀ a b, depends a b → a ∈ known ∧ b ∈ known.

Definition black (c : colors) (a : Component) : Prop := c !! a = Some Black.
Definition gray (c : colors) (a : Component) : Prop := c !! a = Some Gray.

Definition on_cycle (a : Component) : Prop := ∃ b, depends a b ∧ rtc depends b a.

(** What the search has established: what black components depend on is black,
    and they are on no cycle. *)
Record search_inv (c : colors) : Prop := {
  black_closed a b : black c a → depends a b → black c b;
  black_acyclic a : black c a → ¬ on_cycle a;
  colored_known a : is_Some (c !! a) → a ∈ known;
}.

Lemma black_closed_rtc c a b : search_inv c → rtc depends a b → black c a → black c b.
Proof. intros Hc. induction 1 as [|a b' b Hab _ IH]; [done|]. intros Ha. by eapply IH, black_closed. Qed.

(** What a successful visit leaves: more black components, the same gray ones. *)
Definition extends (c c' : colors) : Prop :=
  search_inv c' ∧ (∀ a, black c a → black c' a) ∧ (∀ a, gray c' a ↔ gray c a).

Lemma extends_refl c : search_inv c → extends c c.
Proof. intros Hi. by split; [|split]. Qed.

Lemma extends_trans c1 c2 c3 : extends c1 c2 → extends c2 c3 → extends c1 c3.
Proof. intros (_ & Hb & Hg) (Hi & Hb' & Hg'). split_and!; [done|auto|]. intros a. by rewrite Hg', Hg. Qed.

(** The components not yet visited, which bound the depth of the recursion. *)
Definition white (c : colors) : nat := size (known ∖ dom c).

Lemma extends_dom c c' : extends c c' → dom c ⊆ dom c'.
Proof.
  intros (_ & Hb & Hg) a. rewrite !elem_of_dom. intros [[|] Ha]; [|by exists Black; apply Hb].
  exists Gray. by apply Hg.
Qed.

Lemma white_extends c c' : extends c c' → white c' ≤ white c.
Proof. clear deps_known. intros He. unfold white. apply subseteq_size. pose proof (extends_dom c c' He). set_solver. Qed.

Lemma white_known c : white c ≤ size known.
Proof. clear deps_known. unfold white. apply subseteq_size. set_solver. Qed.

Lemma white_visit c node : node ∈ known → c !! node = None → white (<[node := Gray]> c) < white c.
Proof.
  clear deps_known. intros Hk Hn. unfold white. apply subset_size. rewrite dom_insert. apply not_elem_of_dom in Hn. set_solver.
Qed.

(** The result of a visit of [node] or of some of its dependencies, from [c]. *)
Definition visited (c : colors) (good : colors → Prop) (r : option (colors * option error)) : Prop :=
  match r with
  | None => False
  | Some (c', None) => extends c c' ∧ good c'
  | Some (_, Some (ErrDependencyCycle a b)) => depends a b ∧ rtc depends b a
  | Some (_, Some _) => False
  end.

(** The gray components lead to the one being visited. *)
Definition gray_path (c : colors) (node : Component) : Prop := ∀ a, gray c a → rtc depends a node.

Definition visit_ok (visit : Component → colors → option (colors * option error)) (n : nat) : Prop :=
  ∀ node c, white c ≤ n → node ∈ known → c !! node = None → search_inv c → gray_path c node →
    visited c (λ c', black c' node) (visit node c).

Lemma visit_deps_spec visit n node ds c :
  visit_ok visit n → white c ≤ n → search_inv c → gray_path c node →
  (∀ d, d ∈ ds → depends node d) → gray c node →
  visited c (λ c', ∀ d, d ∈ ds → black c' d) (visit_deps visit node ds c).
Proof using deps_known.
  intros Hv. revert c. induction ds as [|d ds IH]; intros c Hw Hc Hg Hds Hn; cbn [visit_deps].
  { split; [by apply extends_refl|]. by intros ? ?%not_elem_of_nil. }
  assert (Hd : depends node d) by (apply Hds; by left).
  assert (Hds' : ∀ d, d ∈ ds → depends node d) by (intros ? ?; apply Hds; by right).
  destruct (c !! d) as [[|]|] eqn:Hcd.
  - split; [done|]. by apply Hg.
  - specialize (IH c Hw Hc Hg Hds' Hn). destruct (visit_deps visit node ds c) as [[c' [e|]]|]; [done| |done].
    destruct IH as [He Hb]. split; [done|]. intros d' [->|?]%elem_of_cons; [by apply He|auto].
  - assert (Hpath : gray_path c d) by (intros a Ha; eapply rtc_r; [by apply Hg|done]).
    specialize (Hv d c Hw (proj2 (deps_known _ _ Hd)) Hcd Hc Hpath).
    destruct (visit d c) as [[c1 [e|]]|]; [done| |done]. destruct Hv as [He1 Hbd].
    assert (Hg1 : gray_path c1 node) by (intros a Ha; by apply Hg, He1).
    pose proof (white_extends _ _ He1).
    specialize (IH c1 ltac:(lia) (proj1 He1) Hg1 Hds' ltac:(by apply He1)).
    destruct (visit_deps visit node ds c1) as [[c2 [e|]]|]; [done| |done]. destruct IH as [He2 Hb].
    split; [by eapply extends_trans|]. intros d' [->|?]%elem_of_cons; [by apply He2|auto].
Qed.

(** Blackening a component whose dependencies are black. *)
Lemma blacken c c' node :
  c !! node = None → extends (<[node := Gray]> c) c' → (∀ d, depends node d → black c' d) →
  extends c (<[node := Black]> c').
Proof using deps_known.
  intros Hn (Hi & Hb & Hg) Hdeps. assert (Hgn : gray c' node) by (apply Hg, lookup_insert_eq).
  assert (Hblack : ∀ a, black (<[node := Black]> c') a ↔ a = node ∨ black c' a).
  { intros a. unfold black. rewrite lookup_insert_Some. unfold gray in Hgn. naive_solver. }
  split_and!; [split| |].
  - intros a b. rewrite !Hblack. intros [->|Ha] Hab; right; [by apply Hdeps|by eapply black_closed].
  - intros a. rewrite Hblack. intros [->|Ha]; [|by eapply black_acyclic]. intros (d & Hd & Hr).
    assert (Hbn : black c' node) by (eapply black_closed_rtc; [exact Hi|exact Hr|by apply Hdeps]).
    unfold black, gray in *. congruence.
  - intros a. rewrite lookup_insert_is_Some. intros [<-|[_ Ha]]; eapply colored_known; eauto.
  - intros a Ha. rewrite Hblack. right. apply Hb. unfold black in *. rewrite lookup_insert_ne; [done|]. intros ->. congruence.
  - intros a. unfold gray. destruct (decide (a = node)) as [->|Hne].
    + rewrite lookup_insert_eq. split; [done|congruence].
    + rewrite lookup_insert_ne by done. specialize (Hg a). unfold gray in Hg. by rewrite Hg, lookup_insert_ne.
Qed.

Lemma gray_inv c node : c !! node = None → node ∈ known → search_inv c → search_inv (<[node := Gray]> c).
Proof using deps_known.
  intros Hn Hk [Hc Ha Hd]. assert (Hblack : ∀ a, black (<[node := Gray]> c) a ↔ black c a).
  { intros a. unfold black. rewrite lookup_insert_Some. split; [intros [[_ ?]|[_ ?]]; done|].
    intros Hb. right. split; [|done]. intros ->. congruence. }
  split.
  - intros a b. rewrite !Hblack. apply Hc.
  - intros a. rewrite Hblack. apply Ha.
  - intros a. rewrite lookup_insert_is_Some. intros [<-|[_ ?]]; auto.
Qed.

Lemma visitForCycle_spec fuel node c :
  white c < fuel → node ∈ known → c !! node = None → search_inv c → gray_path c node →
  visited c (λ c', black c' node) (visitForCycle fuel deps node c).
Proof using deps_known.
  revert node c. induction fuel as [|fuel IH]; intros node c Hw Hk Hn Hc Hg; [lia|]. cbn [visitForCycle].
  assert (Hds : ∀ d, d ∈ range_keys (default ∅ (deps !! node)) ↔ depends node d).
  { intros d. rewrite elem_of_range_keys. unfold depends. destruct (deps !! node) as [ds|]; [naive_solver|].
    split; [set_solver|naive_solver]. }
  pose proof (white_visit c node Hk Hn) as Hlt.
  pose proof (visit_deps_spec (visitForCycle fuel deps) (pred fuel) node (range_keys (default ∅ (deps !! node)))
    (<[node := Gray]> c)) as Hv.
  destruct (visit_deps _ node _ _) as [[c' [e|]]|].
  - apply Hv; [|lia|by apply gray_inv| |by intros d ?%Hds|apply lookup_insert_eq].
    + intros node' c1 Hw1. apply IH. lia.
    + intros a. unfold gray. rewrite lookup_insert_Some. intros [[<- _]|[_ Ha]]; [done|by apply Hg].
  - destruct Hv as [He Hb]; [|lia|by apply gray_inv| |by intros d ?%Hds|apply lookup_insert_eq|].
    + intros node' c1 Hw1. apply IH. lia.
    + intros a. unfold gray. rewrite lookup_insert_Some. intros [[<- _]|[_ Ha]]; [done|by apply Hg].
    + split; [|apply lookup_insert_eq]. apply blacken; [done|done|]. intros d Hd. by apply Hb, Hds.
  - apply Hv; [|lia|by apply gray_inv| |by intros d ?%Hds|apply lookup_insert_eq].
    + intros node' c1 Hw1. apply IH. lia.
    + intros a. unfold gray. rewrite lookup_insert_Some. intros [[<- _]|[_ Ha]]; [done|by apply Hg].
Qed.

Lemma visit_specs_spec fuel specs c :
  size known < fuel → (∀ s, s ∈ specs → Name s ∈ known) → search_inv c → (∀ a, ¬ gray c a) →
  visited c (λ c', ∀ s, s ∈ specs → black c' (Name s)) (visit_specs fuel deps specs c).
Proof using deps_known.
  intros Hf. revert c. induction specs as [|s specs IH]; intros c Hk Hc Hng; cbn [visit_specs].
  { split; [by apply extends_refl|]. by intros ? ?%not_elem_of_nil. }
  assert (Hs : Name s ∈ known) by (apply Hk; by left).
  assert (Hrest : ∀ s, s ∈ specs → Name s ∈ known) by (intros ? ?; apply Hk; by right).
  destruct (c !! Name s) as [col|] eqn:Hcs.
  - specialize (IH c Hrest Hc Hng). destruct (visit_specs fuel deps specs c) as [[c' [e|]]|]; [done| |done].
    destruct IH as [He Hb]. split; [done|]. intros s' [->|?]%elem_of_cons; [|auto]. apply He.
    destruct col; [by destruct (Hng (Name s))|done].
  - assert (Hw : white c < fuel) by (pose proof (subseteq_size (known ∖ dom c) known); unfold white; set_solver by lia).
    pose proof (visitForCycle_spec fuel (Name s) c Hw Hs Hcs Hc ltac:(by intros a ?%Hng)) as Hv.
    destruct (visitForCycle fuel deps (Name s) c) as [[c1 [e|]]|]; [done| |done]. destruct Hv as [He1 Hb1].
    specialize (IH c1 Hrest (proj1 He1)). destruct (visit_specs fuel deps specs c1) as [[c2 [e|]]|];
      [apply IH| |apply IH]; try (intros a Ha; by apply He1, Hng in Ha).
    destruct IH as [He2 Hb]; [intros a Ha; by apply He1, Hng in Ha|]. split; [by eapply extends_trans|].
    intros s' [->|?]%elem_of_cons; [by apply He2|auto].
Qed.

Lemma ensureAcyclic_spec specs :
  (∀ a, a ∈ known ↔ ∃ s, s ∈ specs ∧ Name s = a) → NoDup (Name <$> specs) →
  match ensureAcyclic specs deps with
  | None => False
  | Some None => ∀ a, ¬ on_cycle a
  | Some (Some e) => ∃ a b, e = ErrDependencyCycle a b ∧ depends a b ∧ rtc depends b a
  end.
Proof using deps_known.
  intros Hknown Hnd. unfold ensureAcyclic.
  assert (Hsize : size known = length specs).
  { rewrite <-(length_fmap Name), <-(size_list_to_set (C := gset Component)) by done. f_equal.
    apply set_eq. intros a. rewrite Hknown, elem_of_list_to_set, list_elem_of_fmap. naive_solver. }
  assert (Hempty : search_inv ∅).
  { by split; unfold black; intros a; rewrite lookup_empty; [intros b| |intros [? ?]]. }
  assert (Hgray : ∀ a, ¬ gray ∅ a) by (intros a; unfold gray; by rewrite lookup_empty).
  pose proof (visit_specs_spec (S (length specs)) specs ∅ ltac:(lia) ltac:(naive_solver) Hempty Hgray) as Hv.
  destruct (visit_specs _ deps specs ∅) as [[c [e|]]|]; cbn; [|destruct Hv as [He Hb]|done].
  - destruct e; try done. by eexists _, _.
  - intros a (b & Hab & Hr). destruct (deps_known a b Hab) as [Ha _].
    apply Hknown in Ha as (s & Hs & <-). eapply black_acyclic; [apply He|by apply Hb|by exists b].
Qed.
End correctness.

(** ** What [New] accepts *)

(** A declared dependency. *)
Definition declared (specs : list Spec) (a b : Component) : Prop :=
  ∃ s, s ∈ specs ∧ Name s = a ∧ b ∈ DependsOn s.

Lemma known_components_spec specs known :
  match known_components specs known with
  | Ok known' => NoDup (Name <$> specs) ∧ (∀ s, s ∈ specs → Name s ∉ known) ∧
      ∀ a, a ∈ known' ↔ a ∈ known ∨ ∃ s, s ∈ specs ∧ Name s = a
  | Err e => ∃ a, e = ErrDuplicateComponent a ∧
      (a ∈ known ∧ a ∈ (Name <$> specs) ∨ ∃ l1 l2, Name <$> specs = l1 ++ a :: l2 ∧ a ∈ l1)
  end.
Proof.
  revert known. induction specs as [|s specs IH]; intros known; cbn [known_components fmap list_fmap].
  { split_and!; [constructor|by intros ? ?%not_elem_of_nil|]. intros a. split; [by left|].
    intros [?|(s & ?%not_elem_of_nil & _)]; done. }
  destruct (decide (Name s ∈ known)) as [Hin|Hin].
  { exists (Name s). split; [done|]. left. split; [done|]. by left. }
  specialize (IH ({[Name s]} ∪ known)). destruct (known_components specs _) as [known'|e].
  - destruct IH as (Hnd & Hno & Hk). split_and!.
    + constructor; [|done]. intros (s' & Heq & Hs')%list_elem_of_fmap. specialize (Hno s' Hs'). set_solver.
    + intros s' [->|Hs']%elem_of_cons; [done|]. specialize (Hno s' Hs'). set_solver.
    + intros a. rewrite Hk. setoid_rewrite elem_of_cons. set_solver.
  - destruct IH as (a & -> & [[[->%elem_of_singleton|Ha]%elem_of_union Hl]|(l1 & l2 & Hl & Ha)]); exists a || exists (Name s);
      (split; [done|]).
    + right. apply list_elem_of_split in Hl as (l1 & l2 & ->). exists (Name s :: l1), l2. split; [done|by left].
    + left. split; [done|by right].
    + right. exists (Name s :: l1), l2. split; [by rewrite Hl|by right].
Qed.

Lemma dependency_set_spec known name ds set :
  match dependency_set known name ds set with
  | Ok set' => (∀ d, d ∈ set' ↔ d ∈ set ∨ d ∈ ds) ∧ ∀ d, d ∈ ds → d ≠ name ∧ d ∈ known
  | Err e => (e = ErrSelfDependency name ∧ name ∈ ds) ∨ ∃ d, e = ErrUnknownDependency name d ∧ d ∈ ds ∧ d ∉ known
  end.
Proof.
  revert set. induction ds as [|d ds IH]; intros set; cbn [dependency_set].
  { split; [set_solver|]. by intros ? ?%not_elem_of_nil. }
  destruct (decide (d = name)) as [->|Hne]; [left; split; [done|by left]|].
  destruct (decide (d ∈ known)) as [Hk|Hk]; [|right; exists d; split_and!; [done|by left|done]].
  specialize (IH ({[d]} ∪ set)). destruct (dependency_set known name ds _) as [set'|e].
  - destruct IH as [Hs Hd]. split; [set_solver|]. intros d' [->|?]%elem_of_cons; auto.
  - destruct IH as [[-> ?]|(d' & -> & ? & ?)]; [left; split; [done|by right]|right; exists d'; split_and!; [done|by right|done]].
Qed.

Lemma collect_dependencies_spec known specs deps :
  NoDup (Name <$> specs) →
  match collect_dependencies known specs deps with
  | Ok deps' => (∀ s d, s ∈ specs → d ∈ DependsOn s → d ≠ Name s ∧ d ∈ known) ∧
      (∀ a, a ∉ (Name <$> specs) → deps' !! a = deps !! a) ∧
      ∀ s, s ∈ specs → ∃ set, deps' !! Name s = Some set ∧ ∀ d, d ∈ set ↔ d ∈ DependsOn s
  | Err e => ∃ s, s ∈ specs ∧ ((e = ErrSelfDependency (Name s) ∧ Name s ∈ DependsOn s) ∨
      ∃ d, e = ErrUnknownDependency (Name s) d ∧ d ∈ DependsOn s ∧ d ∉ known)
  end.
Proof.
  revert deps. induction specs as [|s specs IH]; intros deps Hnd; cbn [collect_dependencies].
  { split_and!; [by intros ? ? ?%not_elem_of_nil|done|by intros ? ?%not_elem_of_nil]. }
  cbn [fmap list_fmap] in Hnd. apply NoDup_cons in Hnd as [Hs Hnd].
  pose proof (dependency_set_spec known (Name s) (DependsOn s) ∅) as Hset.
  destruct (dependency_set known (Name s) (DependsOn s) ∅) as [set|e]; cbn [mbind result_bind].
  2: { exists s. split; [by left|exact Hset]. }
  destruct Hset as [Hset Hds]. specialize (IH (<[Name s := set]> deps) Hnd).
  destruct (collect_dependencies known specs _) as [deps'|e].
  - destruct IH as (Hd & Hold & Hnew). split_and!.
    + intros s' d [->|Hs']%elem_of_cons; [apply Hds|by apply Hd].
    + intros a. cbn [fmap list_fmap]. intros [Hne Ha]%not_elem_of_cons. rewrite Hold by done. by rewrite lookup_insert_ne.
    + intros s' [->|Hs']%elem_of_cons; [|by apply Hnew]. exists set. split; [|set_solver].
      rewrite Hold by done. apply lookup_insert_eq.
  - destruct IH as (s' & ? & ?). exists s'. split; [by right|done].
Qed.

(** A configuration with a bus, at least two components with different names,
    and dependencies that name other components and have no cycle. *)
Record valid (o : Options) (specs : list Spec) : Prop := {
  valid_bus : has_Bus o = true;
  valid_length : 2 ≤ length specs;
  valid_names : NoDup (Name <$> specs);
  valid_known a b : declared specs a b → a ≠ b ∧ b ∈ (Name <$> specs);
  valid_acyclic a b : declared specs a b → ¬ rtc (declared specs) b a;
}.

(** What an error says is wrong. *)
Definition reason (o : Options) (specs : list Spec) (e : error) : Prop :=
  match e with
  | ErrNilBus => has_Bus o = false
  | ErrNoSpecs => length specs < 2
  | ErrDuplicateComponent a => ∃ l1 l2, Name <$> specs = l1 ++ a :: l2 ∧ a ∈ l1
  | ErrSelfDependency a => declared specs a a
  | ErrUnknownDependency a b => declared specs a b ∧ b ∉ (Name <$> specs)
  | ErrDependencyCycle a b => declared specs a b ∧ rtc (declared specs) b a
  end.

Lemma New_result (o : Options) (specs : list Spec) :
  match New o specs with
  | None => False
  | Some (Ok c) =>
    valid o specs ∧ Startup.specs c = specs ∧ (∀ a b, depends (deps c) a b ↔ declared specs a b) ∧
    maxAttempts c = int64 (Z.max 0 (MaxRetries o) + 1) ∧ (MaxRetries o < max_int64 → 1 ≤ maxAttempts c)%Z
  | Some (Err e) => reason o specs e
  end.
Proof.
  unfold New. destruct (has_Bus o) eqn:Hbus; [|done]. cbn [negb]. destruct (decide (length specs < 2)); [done|].
  pose proof (known_components_spec specs ∅) as Hk. destruct (known_components specs ∅) as [known|e].
  2: { destruct Hk as (a & -> & [[? _]|Hdup]); [set_solver|exact Hdup]. }
  destruct Hk as (Hnd & _ & Hk). assert (Hknown : ∀ a, a ∈ known ↔ a ∈ (Name <$> specs)).
  { intros a. rewrite Hk, list_elem_of_fmap. set_solver. }
  unfold buildDependencies. pose proof (collect_dependencies_spec known specs ∅ Hnd) as Hc.
  destruct (collect_dependencies known specs ∅) as [deps|e].
  2: { destruct Hc as (s & Hs & [[-> Hin]|(d & -> & Hin & Hno)]); cbn; [by exists s|]. split; [by exists s|].
       by rewrite <-Hknown. }
  destruct Hc as (Hd & Hold & Hnew). cbn [mbind option_bind].
  assert (Hdecl : ∀ a b, depends deps a b ↔ declared specs a b).
  { intros a b. unfold depends, declared. split.
    - intros (ds & Ha & Hb). destruct (decide (a ∈ (Name <$> specs))) as [(s & -> & Hs)%list_elem_of_fmap|Hno].
      + destruct (Hnew s Hs) as (set & Hset & Hin). exists s. split_and!; [done..|]. apply Hin. congruence.
      + rewrite Hold, lookup_empty in Ha by done. done.
    - intros (s & Hs & <- & Hb). destruct (Hnew s Hs) as (set & Hset & Hin). exists set. split; [done|by apply Hin]. }
  assert (Hrtc : ∀ a b, rtc (depends deps) a b → rtc (declared specs) a b).
  { intros a b. apply rtc_subrel. intros ? ?. by apply Hdecl. }
  assert (Hrtc' : ∀ a b, rtc (declared specs) a b → rtc (depends deps) a b).
  { intros a b. apply rtc_subrel. intros ? ?. by apply Hdecl. }
  pose proof (ensureAcyclic_spec deps known) as Ha. ospecialize (Ha _ specs _ Hnd).
  { intros a b (s & Hs & <- & Hb)%Hdecl. split; [apply Hknown; by apply list_elem_of_fmap_2|by eapply Hd]. }
  { intros a. rewrite Hk. set_solver. }
  destruct (ensureAcyclic specs deps) as [[e|]|]; cbn; [|clear Hk|done].
  - destruct Ha as (a & b & -> & Hab & Hr). split; [by apply Hdecl|by apply Hrtc].
  - split_and!; [split; [done|lia|done| |]|done|done| |].
    + intros a b (s & Hs & <- & Hb). destruct (Hd s b Hs Hb) as [? ?]. split; [done|by apply Hknown].
    + intros a b Hab Hr. apply (Ha a). exists b. split; [by apply Hdecl|by apply Hrtc'].
    + destruct (decide (MaxRetries o < 0)%Z); cbn; f_equal; lia.
    + unfold max_int64. intros Hmax. destruct (decide (MaxRetries o < 0)%Z); cbn [MaxRetries]; [vm_compute; done|].
      rewrite int64_id; unfold in_int64; lia.
Qed.

(** C16. The configurations that are accepted.  [New] always answers: the
    search for cycles ends.  It accepts exactly the valid configurations, with
    the dependencies that were declared; an error names something that is
    wrong.  At least one attempt is made, unless the number of retries is the
    largest [int]. *)
Theorem New_decides (o : Options) (specs : list Spec) :
  (∃ c, New o specs = Some (Ok c) ∧ valid o specs ∧ Startup.specs c = specs ∧
     (∀ a b, depends (deps c) a b ↔ declared specs a b) ∧ (MaxRetries o < max_int64 → 1 ≤ maxAttempts c)%Z) ∨
  (∃ e, New o specs = Some (Err e) ∧ ¬ valid o specs ∧ reason o specs e).
Proof.
  pose proof (New_result o specs) as Hr. destruct (New o specs) as [[c|e]|]; [left|right|done].
  - exists c. naive_solver.
  - exists e. split_and!; [done| |done]. intros [Hb Hl Hn Hk Ha]. destruct e; cbn in Hr.
    + congruence.
    + lia.
    + destruct Hr as (l1 & l2 & Heq & Hin). rewrite Heq in Hn. apply NoDup_app in Hn as (_ & Hno & _).
      apply (Hno _ Hin). by left.
    + destruct Hr as [Hd Hno]. by destruct (Hk _ _ Hd).
    + by destruct (Hk _ _ Hr).
    + destruct Hr as [Hd Hcyc]. by apply (Ha _ _ Hd).
Qed.
End search.
