(* ===== verification/StartupRun.v ===== *)
(** * Starting components: the protocol (pkg/startup/coordinator.go, runner.go)

    The goroutines that [Run] starts, one for each component, the one that
    coordinates and the one that waits for all, as steps that interleave: one
    step for each operation on a channel, section under the mutex, and call of
    the bus, which runs the subscribers where it is called (as EventBus does).
    What the components themselves do, the consumer of the events and the
    caller's context are labels of the environment. *)
From S2P Require Import Prelude Startup.
From stdpp Require Import options.

(** The errors of the protocol; [RunErr] is one that a component returned. *)
Inductive run_error : Type :=
  | RunErr (text : string)
  | ErrExitedBeforeReady
  | AllFailed (last : run_error)
  | GaveUpAfter (name : Component) (attempts : Z) (err : run_error)
  | QueueOverflow (name : Component).

Record Failure : Type := mk_Failure { f_Component : Component; f_Attempt : Z; f_Err : run_error }.
Record RetryRequest : Type := mk_RetryRequest { r_Component : Component; r_Attempt : Z }.

Inductive EventKind : Type := KindStarted | KindGaveUp | KindAborted | KindExited.
Record Event : Type := mk_Event {
  e_Component : Component;
  e_Kind : EventKind;
  e_Attempt : Z;
  e_Err : option run_error;
}.

Inductive phase : Type := phasePending | phaseStarted | phaseWaitingRetry | phaseGaveUp.
#[export] Instance phase_eq_dec : EqDecision phase.
Proof. solve_decision. Defined.

Record componentState : Type := mk_componentState { c_phase : phase; lastFailure : option Failure }.

Definition failBufferSize : nat := 16.
Definition retryBufferSize : nat := 8.
Definition eventBufferSize : nat := 16.

(** One run of a component: whether it has called [ready], and what it returned. *)
Record attempt_run : Type := mk_attempt_run { ready : bool; returned : option (option string) }.

(** [abortOnce.Do] and its body. *)
Inductive once : Type := OnceNew | OnceRunning | OnceDone.
Inductive abort_pc : Type := AbortOnce | AbortSend | AbortCancel.

(** Where the goroutine of a component is, with what its stack holds. *)
Inductive thread : Type :=
  | TDeps (rest : list Component)                        (* awaitDependencies *)
  | TSelect (n : Z)                                      (* runAttempt *)
  | TMarkStarted (n : Z)
  | TCloseStarted (n : Z) (already : bool) (pending : list Failure)
  | TStartedEvent (n : Z) (pending : list Failure)
  | TRetryPeers (n : Z) (pending : list Failure)
  | TWaitRun (n : Z)
  | TExitedEvent (n : Z) (err : option run_error)
  | TCtxErr (n : Z) (err : run_error)
  | TPublishFailed (n : Z) (err : run_error)
  | TMarkGaveUp (n : Z) (err : run_error)
  | TGaveUpEvent (n : Z) (err : run_error)
  | TAbort (pc : abort_pc) (n : Z) (err : run_error)
  | TAwaitRetry (n : Z)
  | TRetryDelay (n : Z)
  | TReturned
  | TPanic.                                              (* a send on, or the closing of, a closed channel *)

Definition is_returned (t : thread) : bool := match t with TReturned => true | _ => false end.

Inductive coordinator : Type :=
  | CSelect
  | COnFailure (f : Failure)
  | CRetry (to : Component) (n : Z)
  | CAbort (pc : abort_pc) (trigger : Component) (reason : run_error)
  | CReturned
  | CPanic.

(** The goroutine that waits for the components. *)
Inductive closer : Type := KWait | KJoin | KClose | KClosed.

Record St : Type := mk_St {
  states : gmap Component componentState;
  started : gset Component;                   (* the channels of startedChs that are closed *)
  failCh : list Failure;
  retryChs : gmap Component (list RetryRequest);
  overflowCh : option Component;
  events : list Event;
  events_closed : bool;
  cancelled : bool;
  abortOnce : once;
  runs : gmap Component attempt_run;
  threads : gmap Component thread;
  coord : coordinator;
  waiter : closer;
}.

Definition set_states x s := mk_St x (started s) (failCh s) (retryChs s) (overflowCh s) (events s) (events_closed s) (cancelled s) (abortOnce s) (runs s) (threads s) (coord s) (waiter s).
Definition set_started x s := mk_St (states s) x (failCh s) (retryChs s) (overflowCh s) (events s) (events_closed s) (cancelled s) (abortOnce s) (runs s) (threads s) (coord s) (waiter s).
Definition set_failCh x s := mk_St (states s) (started s) x (retryChs s) (overflowCh s) (events s) (events_closed s) (cancelled s) (abortOnce s) (runs s) (threads s) (coord s) (waiter s).
Definition set_retryChs x s := mk_St (states s) (started s) (failCh s) x (overflowCh s) (events s) (events_closed s) (cancelled s) (abortOnce s) (runs s) (threads s) (coord s) (waiter s).
Definition set_overflow x s := mk_St (states s) (started s) (failCh s) (retryChs s) x (events s) (events_closed s) (cancelled s) (abortOnce s) (runs s) (threads s) (coord s) (waiter s).
Definition set_events x closed s := mk_St (states s) (started s) (failCh s) (retryChs s) (overflowCh s) x closed (cancelled s) (abortOnce s) (runs s) (threads s) (coord s) (waiter s).
Definition set_cancelled s := mk_St (states s) (started s) (failCh s) (retryChs s) (overflowCh s) (events s) (events_closed s) true (abortOnce s) (runs s) (threads s) (coord s) (waiter s).
Definition set_once x s := mk_St (states s) (started s) (failCh s) (retryChs s) (overflowCh s) (events s) (events_closed s) (cancelled s) x (runs s) (threads s) (coord s) (waiter s).
Definition set_runs x s := mk_St (states s) (started s) (failCh s) (retryChs s) (overflowCh s) (events s) (events_closed s) (cancelled s) (abortOnce s) x (threads s) (coord s) (waiter s).
Definition set_threads x s := mk_St (states s) (started s) (failCh s) (retryChs s) (overflowCh s) (events s) (events_closed s) (cancelled s) (abortOnce s) (runs s) x (coord s) (waiter s).
Definition set_coord x s := mk_St (states s) (started s) (failCh s) (retryChs s) (overflowCh s) (events s) (events_closed s) (cancelled s) (abortOnce s) (runs s) (threads s) x (waiter s).
Definition set_waiter x s := mk_St (states s) (started s) (failCh s) (retryChs s) (overflowCh s) (events s) (events_closed s) (cancelled s) (abortOnce s) (runs s) (threads s) (coord s) x.

(** The goroutine [name] goes on at [t]. *)
Definition goto (name : Component) (t : thread) (s : St) : St := set_threads (<[name := t]> (threads s)) s.

(** A send on the channel of events: [k] goes on when there is room; [None] is
    blocked, and a closed channel is a panic. *)
Definition send_event (e : Event) (panic k : St → St) (s : St) : option St :=
  if events_closed s then Some (panic s)
  else if decide (length (events s) < eventBufferSize) then Some (k (set_events (events s ++ [e]) false s))
  else None.

Definition signalOverflow (comp : Component) (s : St) : St :=
  match overflowCh s with None => set_overflow (Some comp) s | Some _ => s end.

(** The subscribers: the two functions of [busHandlers]. *)
Definition onFailed (f : Failure) (s : St) : St :=
  if decide (length (failCh s) < failBufferSize) then set_failCh (failCh s ++ [f]) s
  else signalOverflow (f_Component f) s.

Definition onRetry (r : RetryRequest) (s : St) : St :=
  match retryChs s !! r_Component r with
  | None => s
  | Some ch =>
    if decide (length ch < retryBufferSize) then set_retryChs (<[r_Component r := ch ++ [r]]> (retryChs s)) s
    else signalOverflow (r_Component r) s
  end.

Definition publishRetry (to : Component) (attempt : Z) : St → St := onRetry (mk_RetryRequest to attempt).

Section protocol.
Context `{MapRange} (c : Coordinator).

Definition dependsOn (component dependency : Component) : bool :=
  match deps c !! component with None => false | Some set => bool_decide (dependency ∈ set) end.

(** The ranges over [c.states]. *)
Definition pendingPeerFailuresLocked (self : Component) (s : St) : list Failure :=
  omap (λ name, st ← states s !! name;
    if bool_decide (name ≠ self) && bool_decide (c_phase st = phaseWaitingRetry) then lastFailure st else None)
    (range_keys (dom (states s))).

Definition hasPendingDependentLocked (self : Component) (s : St) : bool :=
  existsb (λ name, match states s !! name with
    | None => false
    | Some st => bool_decide (name ≠ self) && bool_decide (c_phase st = phasePending) && dependsOn name self
    end) (range_keys (dom (states s))).

(** A started peer, and whether all peers are down. *)
Fixpoint peer_summary (self : Component) (names : list Component) (s : St) (allDown : bool) : option Component * bool :=
  match names with
  | [] => (None, allDown)
  | name :: names' =>
    if decide (name = self) then peer_summary self names' s allDown
    else match c_phase <$> states s !! name with
         | Some phaseStarted => (Some name, false)
         | Some phasePending => peer_summary self names' s false
         | _ => peer_summary self names' s allDown
         end
  end.

Definition peerSummaryLocked (self : Component) (s : St) : option Component * bool :=
  peer_summary self (range_keys (dom (states s))) s true.

Definition set_phase (name : Component) (p : phase) (s : St) : St :=
  set_states (alter (λ st, mk_componentState p (lastFailure st)) name (states s)) s.

(** The body of [abort]; [at_pc] goes on inside it, [k] after it. *)
Definition abort (pc : abort_pc) (trigger : Component) (reason : run_error)
    (at_pc : abort_pc → St → St) (panic k : St → St) (s : St) : option St :=
  match pc with
  | AbortOnce =>
    match abortOnce s with
    | OnceNew => Some (at_pc AbortSend (set_once OnceRunning s))
    | OnceRunning => None
    | OnceDone => Some (k s)
    end
  | AbortSend => send_event (mk_Event trigger KindAborted 0 (Some reason)) panic (at_pc AbortCancel) s
  | AbortCancel => Some (k (set_once OnceDone (set_cancelled s)))
  end.

(** The body of the loop of [runComponent] for an attempt: a run of the
    component is started. *)
Definition start_attempt (name : Component) (n : Z) (s : St) : St :=
  if decide (n ≤ maxAttempts c)%Z
  then goto name (TSelect n) (set_runs (<[name := mk_attempt_run false None]> (runs s)) s)
  else goto name TReturned s.

(** A step of a component's goroutine; [alt] takes the second branch of a
    select, which is [<-ctx.Done()] or, in [runAttempt], [<-errCh]. *)
Definition thread_step (name : Component) (alt : bool) (t : thread) (s : St) : option St :=
  let panic := goto name TPanic in
  match t with
  | TDeps [] => if alt then None else Some (start_attempt name 1 s)
  | TDeps (dep :: rest) =>
    if alt then (if cancelled s then Some (goto name TReturned s) else None)
    else if decide (dep ∈ started s) then Some (goto name (TDeps rest) s) else None
  | TSelect n =>
    r ← runs s !! name;
    if alt then
      match returned r with
      | None => None
      | Some err =>
        if ready r then Some (goto name (TMarkStarted n) s)
        else Some (goto name (TCtxErr n (match err with None => ErrExitedBeforeReady | Some t => RunErr t end)) s)
      end
    else if ready r then Some (goto name (TMarkStarted n) s) else None
  | TMarkStarted n =>
    let already := bool_decide (c_phase <$> states s !! name = Some phaseStarted) in
    let s := set_phase name phaseStarted s in
    Some (goto name (TCloseStarted n already (pendingPeerFailuresLocked name s)) s)
  | TCloseStarted n already pending =>
    if already then Some (goto name (TStartedEvent n pending) s)
    else if decide (name ∈ started s) then Some (panic s)
    else Some (goto name (TStartedEvent n pending) (set_started ({[name]} ∪ started s) s))
  | TStartedEvent n pending =>
    send_event (mk_Event name KindStarted n None) panic (goto name (TRetryPeers n pending)) s
  | TRetryPeers n [] => Some (goto name (TWaitRun n) s)
  | TRetryPeers n (f :: rest) =>
    Some (goto name (TRetryPeers n rest)
      (if decide (f_Attempt f < maxAttempts c)%Z then publishRetry (f_Component f) (f_Attempt f + 1) s else s))
  | TWaitRun n =>
    r ← runs s !! name;
    err ← returned r;
    Some (goto name (TExitedEvent n (RunErr <$> err)) s)
  | TExitedEvent n err => send_event (mk_Event name KindExited n err) panic (goto name TReturned) s
  | TCtxErr n err => Some (goto name (if cancelled s then TReturned else TPublishFailed n err) s)
  | TPublishFailed n err =>
    Some (goto name (if decide (n = maxAttempts c) then TMarkGaveUp n err else TAwaitRetry n)
      (onFailed (mk_Failure name n err) s))
  | TMarkGaveUp n err => Some (goto name (TGaveUpEvent n err) (set_phase name phaseGaveUp s))
  | TGaveUpEvent n err =>
    send_event (mk_Event name KindGaveUp n (Some err)) panic (goto name (TAbort AbortOnce n err)) s
  | TAbort pc n err =>
    abort pc name (GaveUpAfter name n err) (λ pc, goto name (TAbort pc n err)) panic (goto name TReturned) s
  | TAwaitRetry n =>
    if alt then (if cancelled s then Some (goto name TReturned s) else None)
    else match retryChs s !! name with
         | Some (_ :: ch) => Some (goto name (TRetryDelay n) (set_retryChs (<[name := ch]> (retryChs s)) s))
         | _ => None
         end
  | TRetryDelay n =>
    if alt then (if cancelled s && bool_decide (0 < RetryDelay (opts c))%Z then Some (goto name TReturned s) else None)
    else Some (start_attempt name (n + 1) s)
  | TReturned | TPanic => None
  end.

(** [onFailure]: the section under the mutex, and what follows from it. *)
Definition onFailure (f : Failure) (s : St) : St :=
  let self := f_Component f in
  let s := set_states (alter (λ st, if decide (c_phase st = phaseGaveUp) then st
             else mk_componentState phaseWaitingRetry (Some f)) self (states s)) s in
  let '(peerStarted, allDown) := peerSummaryLocked self s in
  let retry := if decide (f_Attempt f < maxAttempts c)%Z
               then set_coord (CRetry self (f_Attempt f + 1)) s else set_coord CSelect s in
  match peerStarted with
  | Some _ => retry
  | None =>
    if hasPendingDependentLocked self s then retry
    else if allDown then set_coord (CAbort AbortOnce self (AllFailed (f_Err f))) s
    else set_coord CSelect s
  end.

Inductive branch : Type := OnDone | OnFail | OnOverflow.

(** A step of [coordinate]; the branch is that of its select. *)
Definition coord_step (b : branch) (s : St) : option St :=
  match coord s with
  | CSelect =>
    match b with
    | OnDone => if cancelled s then Some (set_coord CReturned s) else None
    | OnFail => match failCh s with [] => None | f :: rest => Some (set_coord (COnFailure f) (set_failCh rest s)) end
    | OnOverflow =>
      match overflowCh s with
      | None => None
      | Some comp => Some (set_coord (CAbort AbortOnce comp (QueueOverflow comp)) (set_overflow None s))
      end
    end
  | COnFailure f => Some (onFailure f s)
  | CRetry to n => Some (set_coord CSelect (publishRetry to n s))
  | CAbort pc trigger reason =>
    abort pc trigger reason (λ pc, set_coord (CAbort pc trigger reason)) (set_coord CPanic) (set_coord CSelect) s
  | CReturned | CPanic => None
  end.

(** The goroutine that ends the protocol when all components have returned. *)
Definition waiter_step (s : St) : option St :=
  match waiter s with
  | KWait =>
    if decide (map_Forall (λ _ t, is_returned t = true) (threads s)) then Some (set_waiter KJoin (set_cancelled s)) else None
  | KJoin => match coord s with CReturned => Some (set_waiter KClose s) | _ => None end
  | KClose => Some (set_waiter KClosed (set_events (events s) true s))
  | KClosed => None
  end.

Inductive label : Type :=
  | LThread (name : Component) (alt : bool)
  | LCoord (b : branch)
  | LWaiter
  | LConsume                                    (* the caller receives an event *)
  | LReady (name : Component)                   (* the component calls ready *)
  | LReturn (name : Component) (err : option string)
  | LCancel.                                    (* the caller's context ends *)

(** What the components and the caller do of their own accord. *)
Definition environment (l : label) : bool :=
  match l with LReady _ | LReturn _ _ | LCancel => true | _ => false end.

Definition exec (l : label) (s : St) : option St :=
  match l with
  | LThread name alt => t ← threads s !! name; thread_step name alt t s
  | LCoord b => coord_step b s
  | LWaiter => waiter_step s
  | LConsume => match events s with [] => None | _ :: rest => Some (set_events rest (events_closed s) s) end
  | LReady name => r ← runs s !! name; Some (set_runs (<[name := mk_attempt_run true (returned r)]> (runs s)) s)
  | LReturn name err =>
    r ← runs s !! name;
    match returned r with
    | Some _ => None
    | None => Some (set_runs (<[name := mk_attempt_run (ready r) (Some err)]> (runs s)) s)
    end
  | LCancel => Some (set_cancelled s)
  end.

Definition per_component {A} (f : Spec → A) : gmap Component A :=
  list_to_map ((λ spec, (Name spec, f spec)) <$> specs c).

(** The state after [Run] has started the goroutines. *)
Definition initial : St :=
  mk_St (per_component (λ _, mk_componentState phasePending None)) ∅ [] (per_component (λ _, [])) None [] false false
    OnceNew ∅ (per_component (λ spec, TDeps (DependsOn spec))) CSelect KWait.

Definition step (s s' : St) : Prop := ∃ l, exec l s = Some s'.
Definition reachable_state : St → Prop := reachable (eq initial) step.
End protocol.

(** ** Safety *)

Lemma set_overflow_same o s : overflowCh s = Some o → s = set_overflow (Some o) s.
Proof. destruct s. by intros [= ->]. Qed.

Lemma signalOverflow_cases comp s : ∃ o, signalOverflow comp s = set_overflow (Some o) s.
Proof.
  unfold signalOverflow. destruct (overflowCh s) as [o|] eqn:Ho; [exists o; by apply set_overflow_same|by exists comp].
Qed.

Lemma onFailed_cases f s :
  onFailed f s = set_failCh (failCh s ++ [f]) s ∨ ∃ o, onFailed f s = set_overflow (Some o) s.
Proof. unfold onFailed. destruct (decide _); [by left|right; apply signalOverflow_cases]. Qed.

Lemma publishRetry_cases to n s :
  (retryChs s !! to = None ∧ publishRetry to n s = s) ∨
  (∃ ch, retryChs s !! to = Some ch ∧
     publishRetry to n s = set_retryChs (<[to := ch ++ [mk_RetryRequest to n]]> (retryChs s)) s) ∨
  is_Some (retryChs s !! to) ∧ ∃ o, publishRetry to n s = set_overflow (Some o) s.
Proof.
  unfold publishRetry, onRetry. cbn [r_Component]. destruct (retryChs s !! to) as [ch|]; [|by left].
  right. destruct (decide _); [left; by eexists|right; split; [done|apply signalOverflow_cases]].
Qed.

Definition ph (s : St) (a : Component) : option phase := c_phase <$> states s !! a.

Definition attempt_of (t : thread) : option Z :=
  match t with
  | TDeps _ | TReturned | TPanic => None
  | TSelect n | TMarkStarted n | TCloseStarted n _ _ | TStartedEvent n _ | TRetryPeers n _ | TWaitRun n
  | TExitedEvent n _ | TCtxErr n _ | TPublishFailed n _ | TMarkGaveUp n _ | TGaveUpEvent n _ | TAbort _ n _
  | TAwaitRetry n | TRetryDelay n => Some n
  end.

Lemma send_event_cases e panic k s s' :
  send_event e panic k s = Some s' →
  (events_closed s = true ∧ s' = panic s) ∨
  (events_closed s = false ∧ s' = k (set_events (events s ++ [e]) false s)).
Proof.
  unfold send_event. destruct (events_closed s); [intros [= <-]; by left|]. destruct (decide _); [|done].
  intros [= <-]. by right.
Qed.

Lemma abort_cases pc trigger reason at_pc panic k s s' :
  abort pc trigger reason at_pc panic k s = Some s' →
  (pc = AbortOnce ∧ abortOnce s = OnceNew ∧ s' = at_pc AbortSend (set_once OnceRunning s)) ∨
  (pc = AbortOnce ∧ abortOnce s = OnceDone ∧ s' = k s) ∨
  (pc = AbortSend ∧ events_closed s = true ∧ s' = panic s) ∨
  (pc = AbortSend ∧ events_closed s = false ∧
     s' = at_pc AbortCancel (set_events (events s ++ [mk_Event trigger KindAborted 0 (Some reason)]) false s)) ∨
  (pc = AbortCancel ∧ s' = k (set_once OnceDone (set_cancelled s))).
Proof.
  destruct pc; cbn [abort].
  - destruct (abortOnce s); [intros [= <-]|done|intros [= <-]]; naive_solver.
  - intros [[? ->]|[? ->]]%send_event_cases; naive_solver.
  - intros [= <-]. naive_solver.
Qed.

Lemma ph_set_phase a p s b :
  ph (set_phase a p s) b = if decide (b = a) then (λ _, p) <$> states s !! b else ph s b.
Proof.
  unfold ph, set_phase. cbn [states set_states]. case_decide as Hb.
  - subst. rewrite lookup_alter_eq. by destruct (states s !! a).
  - by rewrite lookup_alter_ne.
Qed.

Lemma states_set_phase a p s b : is_Some (states (set_phase a p s) !! b) ↔ is_Some (states s !! b).
Proof.
  unfold set_phase. cbn [states set_states]. destruct (decide (b = a)) as [->|]; [|by rewrite lookup_alter_ne].
  rewrite lookup_alter_eq, fmap_is_Some. done.
Qed.

Section safety.
Context `{MapRange} (c : Coordinator).

Hypothesis names_unique : NoDup (Name <$> specs c).

Lemma spec_unique s1 s2 : s1 ∈ specs c → s2 ∈ specs c → Name s1 = Name s2 → s1 = s2.
Proof using names_unique.
  intros (i & Hi)%list_elem_of_lookup (j & Hj)%list_elem_of_lookup Heq.
  assert (i = j); [|congruence].
  eapply (NoDup_lookup _ i j (Name s1) names_unique); rewrite list_lookup_fmap; [by rewrite Hi|by rewrite Hj, Heq].
Qed.

Definition deps_started (s : St) (a : Component) : Prop := ∀ b, declared (specs c) a b → b ∈ started s.

(** What a goroutine has done to its channel and its phase. *)
Definition stage_ok (s : St) (a : Component) (t : thread) : Prop :=
  match t with
  | TReturned => True
  | TPanic => False
  | TCloseStarted _ already _ => a ∉ started s ∧ already = false
  | TStartedEvent _ _ | TRetryPeers _ _ | TWaitRun _ | TExitedEvent _ _ => a ∈ started s
  | _ => a ∉ started s ∧ ph s a ≠ Some phaseStarted
  end.

Definition wait_ok (s : St) (a : Component) (t : thread) : Prop :=
  match t with
  | TDeps rest => ∃ spec pre, spec ∈ specs c ∧ Name spec = a ∧ DependsOn spec = pre ++ rest ∧ Forall (λ b, b ∈ started s) pre
  | TAwaitRetry n | TRetryDelay n => (n < maxAttempts c)%Z
  | TMarkGaveUp n _ | TGaveUpEvent n _ | TAbort _ n _ => n = maxAttempts c
  | _ => True
  end.

Record thread_ok (s : St) (a : Component) (t : thread) : Prop := {
  ok_stage : stage_ok s a t;
  ok_wait : wait_ok s a t;
  ok_attempt n : attempt_of t = Some n → (1 ≤ n ≤ maxAttempts c)%Z ∧ deps_started s a;
}.

Lemma thread_ok_frame s s' a t :
  thread_ok s a t → started s ⊆ started s' → (a ∈ started s' → a ∈ started s) →
  (ph s' a = Some phaseStarted → ph s a = Some phaseStarted) → thread_ok s' a t.
Proof.
  intros [Hst Hw Ha] Hsub Hback Hph. split.
  - destruct t; cbn in *; naive_solver.
  - destruct t; cbn in *; try done. destruct Hw as (spec & pre & ? & ? & ? & Hpre). exists spec, pre. split_and!; [done..|].
    eapply Forall_impl; [done|]. set_solver.
  - intros n Hn. destruct (Ha n Hn) as [? Hd]. split; [done|]. intros b Hb. by apply Hsub, Hd.
Qed.

Definition is_component (a : Component) : Prop := a ∈ (Name <$> specs c).

Record safe (s : St) : Prop := {
  sf_threads a t : threads s !! a = Some t → thread_ok s a t;
  sf_thread_names a : is_Some (threads s !! a) ↔ is_component a;
  sf_state_names a : is_Some (states s !! a) ↔ is_component a;
  sf_retry_names a : is_Some (retryChs s !! a) ↔ is_component a;
  sf_coord : coord s ≠ CPanic;
  sf_waiter : waiter s ≠ KWait → cancelled s = true ∧ ∀ a t, threads s !! a = Some t → t = TReturned;
  sf_join : waiter s = KClose ∨ waiter s = KClosed → coord s = CReturned;
  sf_closed : events_closed s = true → waiter s = KClosed;
  sf_end : waiter s = KClosed → events_closed s = true;
  sf_returned : coord s = CReturned → cancelled s = true;
}.

(** A step of a goroutine: what it must leave alone, and what it must give back. *)
Lemma safe_goto s s' a t t' :
  safe s → threads s !! a = Some t → t ≠ TReturned →
  threads s' = <[a := t']> (threads s) → coord s' = coord s → waiter s' = waiter s →
  events_closed s' = events_closed s → (cancelled s = true → cancelled s' = true) →
  (∀ b, is_Some (states s' !! b) ↔ is_Some (states s !! b)) → (∀ b, is_Some (retryChs s' !! b) ↔ is_Some (retryChs s !! b)) →
  started s ⊆ started s' → (∀ b, b ≠ a → b ∈ started s' → b ∈ started s) →
  (∀ b, b ≠ a → ph s' b = Some phaseStarted → ph s b = Some phaseStarted) →
  thread_ok s' a t' → safe s'.
Proof.
  intros Hs Ht Hne Hth Hc Hw He Hcan Hst Hre Hsub Hback Hph Hok.
  assert (Hkw : waiter s = KWait).
  { destruct (waiter s) eqn:E; [done|..]; exfalso; apply Hne; eapply (sf_waiter s Hs); rewrite ?E; done. }
  split.
  - intros b u. rewrite Hth. intros [[<- <-]|[Hb Hu]]%lookup_insert_Some; [done|].
    eapply thread_ok_frame; [by eapply (sf_threads s)|done|by apply Hback|by apply Hph].
  - intros b. rewrite Hth, lookup_insert_is_Some, <-(sf_thread_names s Hs b). split; [|destruct (decide (a = b)); naive_solver].
    intros [<-|[_ ?]]; [by eexists|done].
  - intros b. by rewrite Hst, (sf_state_names s Hs b).
  - intros b. by rewrite Hre, (sf_retry_names s Hs b).
  - rewrite Hc. apply (sf_coord s Hs).
  - rewrite Hw, Hkw. done.
  - rewrite Hw, Hkw. by intros [?|?].
  - rewrite He, Hw. apply (sf_closed s Hs).
  - by rewrite Hw, Hkw.
  - rewrite Hc. intros Hr. by apply Hcan, (sf_returned s Hs).
Qed.

(** The common case: a step that changes neither phases nor channels of the
    protocol. *)
Lemma safe_quiet s s' a t t' :
  safe s → threads s !! a = Some t → t ≠ TReturned →
  threads s' = <[a := t']> (threads s) → coord s' = coord s → waiter s' = waiter s →
  events_closed s' = events_closed s → (cancelled s = true → cancelled s' = true) →
  states s' = states s → retryChs s' = retryChs s → started s' = started s →
  (thread_ok s' a t → thread_ok s' a t') → safe s'.
Proof.
  intros Hs Ht Hne Hth Hc Hw He Hcan Hst Hre Hsub Hok.
  eapply safe_goto; [done..| | | | | |]; unfold ph; rewrite ?Hst, ?Hre, ?Hsub; try done.
  apply Hok. eapply thread_ok_frame; [by eapply (sf_threads s)|..]; unfold ph; by rewrite ?Hst, ?Hsub.
Qed.

Lemma thread_ok_next s a t t' :
  (stage_ok s a t → stage_ok s a t') → wait_ok s a t' → attempt_of t' = attempt_of t → thread_ok s a t → thread_ok s a t'.
Proof. intros Hst Hw Ha [? ? Hn]. split; [auto|done|]. intros n. rewrite Ha. apply Hn. Qed.

Lemma start_attempt_safe s a t n :
  safe s → threads s !! a = Some t → t ≠ TReturned → stage_ok s a t → a ∉ started s → ph s a ≠ Some phaseStarted →
  (1 ≤ n)%Z → deps_started s a → safe (start_attempt c a n s).
Proof.
  intros Hs Ht Hne Hst Hns Hph Hn Hd. unfold start_attempt. destruct (decide _).
  - eapply safe_quiet; [done..|]. intros _. split; [done|done|]. cbn. intros ? [= <-]. by split.
  - eapply safe_quiet; [done..|]. intros _. by split.
Qed.

Lemma publishRetry_safe_fields to n s :
  let s' := publishRetry to n s in
  threads s' = threads s ∧ coord s' = coord s ∧ waiter s' = waiter s ∧ events_closed s' = events_closed s ∧
  cancelled s' = cancelled s ∧ states s' = states s ∧ started s' = started s ∧
  ∀ b, is_Some (retryChs s' !! b) ↔ is_Some (retryChs s !! b).
Proof.
  cbv zeta. destruct (publishRetry_cases to n s) as [[_ ->]|[(ch & Hch & ->)|[_ (o & ->)]]]; [by split_and!| |by split_and!].
  split_and!; try done. intros b. cbn. rewrite lookup_insert_is_Some. split; [intros [<-|[_ ?]]; [by eexists|done]|].
  intros ?. destruct (decide (to = b)); auto.
Qed.

Lemma thread_step_safe a alt t s s' :
  safe s → threads s !! a = Some t → thread_step c a alt t s = Some s' → safe s'.
Proof using names_unique.
  intros Hs Ht Hstep. pose proof (sf_threads s Hs a t Ht) as Hok. pose proof Hok as [Hst Hw Ha].
  assert (Hopen : t ≠ TReturned → events_closed s = true → False).
  { intros Hne Hcl. apply Hne. eapply (sf_waiter s Hs); [|done]. by rewrite (sf_closed s Hs Hcl). }
  destruct t as [rest|n|n|n already pending|n pending|n pending|n|n err|n err|n err|n err|n err|pc n err|n|n| |]; cbn in Hstep.
  - destruct rest as [|dep rest].
    + destruct alt; [done|]. simplify_eq. destruct Hw as (spec & pre & Hin & Hname & Hdeps & Hpre), Hst.
      eapply start_attempt_safe; [done..|]. intros b (spec' & Hin' & Hname' & Hb).
      rewrite (spec_unique spec' spec), Hdeps, app_nil_r in Hb by congruence. by eapply Forall_forall in Hpre.
    + destruct alt.
      * destruct (cancelled s) eqn:Hcan; [|done]. simplify_eq. eapply safe_quiet; [done..|]. by split.
      * destruct (decide (dep ∈ started s)); [|done]. simplify_eq. eapply safe_quiet; [done..|].
        apply thread_ok_next; [done| |done]. destruct Hw as (spec & pre & ? & ? & ? & ?). exists spec, (pre ++ [dep]).
        split_and!; [done..|by rewrite <-app_assoc|by apply Forall_app_2; [|apply Forall_singleton]].
  - destruct (runs s !! a) as [r|]; [|done]. cbn in Hstep.
    assert (s' = goto a (TMarkStarted n) s ∨ ∃ err, s' = goto a (TCtxErr n err) s) as [->|(err & ->)].
    { destruct alt; [destruct (returned r) as [err|]; [|done]|]; destruct (ready r); simplify_eq; eauto. }
    all: eapply safe_quiet; [done..|]; by apply thread_ok_next.
  - simplify_eq. destruct Hst as [Hns Hph].
    eapply safe_goto with (t' := TCloseStarted n _ _); [exact Hs|exact Ht|done..| | | | | |].
    + intros b. apply states_set_phase.
    + done.
    + done.
    + done.
    + intros b Hb Hp. change (ph (set_phase a phaseStarted s) b = Some phaseStarted) in Hp. by rewrite ph_set_phase, decide_False in Hp.
    + split; [|done|exact Ha]. split; [done|]. by apply bool_decide_eq_false_2.
  - destruct Hst as [Hns ->]. rewrite decide_False in Hstep by done. simplify_eq.
    eapply safe_goto with (t' := TStartedEvent n pending); [exact Hs|exact Ht|done..| | | |].
    + cbn. set_solver.
    + cbn. set_solver.
    + done.
    + split; [cbn; set_solver|done|]. intros m Hm. destruct (Ha m Hm) as [? Hd]. split; [done|].
      intros b Hb. specialize (Hd b Hb). cbn. set_solver.
  - apply send_event_cases in Hstep as [[Hcl _]|[Hcl ->]]; [by destruct Hopen|].
    eapply safe_quiet; [done..| ]. by apply thread_ok_next.
  - destruct pending as [|f rest]; simplify_eq; [eapply safe_quiet; [done..|]; by apply thread_ok_next|].
    assert (Hnext : thread_ok s a (TRetryPeers n rest)) by (by eapply thread_ok_next; [| | |exact Hok]).
    destruct (decide _); [|eapply safe_quiet; [done..|]; intros _; by eapply thread_ok_frame].
    pose proof (publishRetry_safe_fields (f_Component f) (f_Attempt f + 1) s) as Hf. cbv zeta in Hf.
    destruct Hf as (Hth & Hc & Hwt & He & Hcan & Hsts & Hstd & Hre).
    eapply safe_goto with (t' := TRetryPeers n rest); [exact Hs|exact Ht|done|cbn; by rewrite Hth|done|done|done| |..]; cbn; unfold ph; cbn;
      rewrite ?Hcan, ?Hsts, ?Hstd; try done. eapply thread_ok_frame; [exact Hnext|..]; unfold ph; cbn; by rewrite ?Hsts, ?Hstd.
  - destruct (runs s !! a) as [r|]; [|done]. cbn in Hstep. destruct (returned r) as [err|]; [|done]. cbn in Hstep. simplify_eq.
    eapply safe_quiet; [done..|]. by apply thread_ok_next.
  - apply send_event_cases in Hstep as [[Hcl _]|[Hcl ->]]; [by destruct Hopen|].
    eapply safe_quiet; [done..|]. by split.
  - simplify_eq. eapply safe_quiet; [done..|]. destruct (cancelled s); [by split|by apply thread_ok_next].
  - simplify_eq. destruct (onFailed_cases (mk_Failure a n err) s) as [->|(o & ->)];
      (eapply safe_quiet; [done..|]; destruct (decide (n = _)); [by apply thread_ok_next|];
       apply thread_ok_next; [done|cbn; destruct (Ha n eq_refl); lia|done]).
  - simplify_eq. destruct Hst as [Hns Hph]. eapply safe_goto with (t' := TGaveUpEvent n err); [exact Hs|exact Ht|done..| | | | | |].
    + intros b. apply states_set_phase.
    + done.
    + done.
    + done.
    + intros b Hb Hp. change (ph (set_phase a phaseGaveUp s) b = Some phaseStarted) in Hp. by rewrite ph_set_phase, decide_False in Hp.
    + split; [|done|exact Ha]. split; [done|]. change (ph (set_phase a phaseGaveUp s) a ≠ Some phaseStarted). rewrite ph_set_phase, decide_True by done.
      by destruct (states s !! a).
  - apply send_event_cases in Hstep as [[Hcl _]|[Hcl ->]]; [by destruct Hopen|].
    eapply safe_quiet; [done..|]. by apply thread_ok_next.
  - apply abort_cases in Hstep as [(-> & _ & ->)|[(-> & _ & ->)|[(_ & Hcl & _)|[(-> & Hcl & ->)|(-> & ->)]]]].
    + eapply safe_quiet; [done..|]. by apply thread_ok_next.
    + eapply safe_quiet; [done..|]. by split.
    + by destruct Hopen.
    + eapply safe_quiet; [done..|]. by apply thread_ok_next.
    + eapply safe_quiet; [done..|]. by split.
  - destruct alt.
    + destruct (cancelled s); [|done]. simplify_eq. eapply safe_quiet; [done..|]. by split.
    + destruct (retryChs s !! a) as [[|r ch]|] eqn:Hch; [done| |done]. simplify_eq.
      eapply safe_goto with (t' := TRetryDelay n); [exact Hs|exact Ht|done..| | | | |].
      * intros b. cbn. rewrite lookup_insert_is_Some. split; [intros [<-|[_ ?]]; [by eexists|done]|].
        intros ?. destruct (decide (a = b)); auto.
      * done.
      * done.
      * done.
      * eapply thread_ok_frame; [by eapply thread_ok_next; [| | |exact Hok]|done..].
  - destruct alt.
    + destruct (_ && _); [|done]. simplify_eq. eapply safe_quiet; [done..|]. by split.
    + simplify_eq. destruct Hst, (Ha n eq_refl). eapply start_attempt_safe; [done..|lia|done].
  - done.
  - done.
Qed.

(** The steps of the others. *)
Lemma safe_other s s' :
  safe s → threads s' = threads s → waiter s' = waiter s → events_closed s' = events_closed s →
  (cancelled s = true → cancelled s' = true) →
  (∀ b, is_Some (states s' !! b) ↔ is_Some (states s !! b)) → (∀ b, is_Some (retryChs s' !! b) ↔ is_Some (retryChs s !! b)) →
  started s' = started s → (∀ b, ph s' b = Some phaseStarted → ph s b = Some phaseStarted) →
  coord s' ≠ CPanic → (coord s = CReturned → coord s' = CReturned) →
  (coord s' = CReturned → cancelled s' = true) → safe s'.
Proof.
  intros Hs Hth Hw He Hcan Hst Hre Hsub Hph Hc Hret Hrc. split.
  - intros b u. rewrite Hth. intros Hu. eapply thread_ok_frame; [by eapply (sf_threads s)| | |apply Hph]; by rewrite Hsub.
  - intros b. by rewrite Hth, (sf_thread_names s Hs b).
  - intros b. by rewrite Hst, (sf_state_names s Hs b).
  - intros b. by rewrite Hre, (sf_retry_names s Hs b).
  - done.
  - rewrite Hw, Hth. intros Hk. destruct (sf_waiter s Hs Hk). auto.
  - rewrite Hw. intros Hk. by apply Hret, (sf_join s Hs).
  - rewrite He, Hw. apply (sf_closed s Hs).
  - rewrite Hw, He. apply (sf_end s Hs).
  - exact Hrc.
Qed.

(** What [onFailure] changes. *)
Definition fail_phase (f : Failure) (s : St) : St :=
  set_states (alter (λ st, if decide (c_phase st = phaseGaveUp) then st
                           else mk_componentState phaseWaitingRetry (Some f)) (f_Component f) (states s)) s.

Lemma onFailure_cases f s : ∃ co, onFailure c f s = set_coord co (fail_phase f s) ∧ co ≠ CPanic ∧ co ≠ CReturned.
Proof.
  unfold onFailure. fold (fail_phase f s). destruct (peerSummaryLocked _ _) as [[p|] allDown].
  - destruct (decide _); eauto.
  - destruct (hasPendingDependentLocked c _ _); [destruct (decide _); eauto|]. destruct allDown; eauto.
Qed.

Lemma states_fail_phase f s b : is_Some (states (fail_phase f s) !! b) ↔ is_Some (states s !! b).
Proof.
  unfold fail_phase. cbn [states set_states]. destruct (decide (b = f_Component f)) as [->|]; [|by rewrite lookup_alter_ne].
  rewrite lookup_alter_eq, fmap_is_Some. done.
Qed.

Lemma ph_fail_phase f s b :
  ph (fail_phase f s) b =
    if decide (b = f_Component f)
    then (λ st, if decide (c_phase st = phaseGaveUp) then phaseGaveUp else phaseWaitingRetry) <$> states s !! b
    else ph s b.
Proof.
  unfold ph, fail_phase. cbn [states set_states]. case_decide as Hb; [subst|by rewrite lookup_alter_ne].
  rewrite lookup_alter_eq. destruct (states s !! _) as [st|]; [|done]. cbn. destruct (decide _) as [E|]; [by rewrite E|done].
Qed.

Lemma coord_step_safe b s s' : safe s → coord_step c b s = Some s' → safe s'.
Proof.
  intros Hs Hstep. assert (Hopen : coord s ≠ CReturned → events_closed s = true → False).
  { intros Hne Hcl. apply Hne, (sf_join s Hs). right. by apply (sf_closed s Hs). }
  unfold coord_step in Hstep. destruct (coord s) as [|f|to n|pc trigger reason| |] eqn:Hco; try done.
  - destruct b.
    + destruct (cancelled s) eqn:Hcan; [|done]. simplify_eq. by eapply safe_other.
    + destruct (failCh s); [done|]. simplify_eq. eapply safe_other; try done; by rewrite ?Hco.
    + destruct (overflowCh s); [|done]. simplify_eq. eapply safe_other; try done; by rewrite ?Hco.
  - simplify_eq. destruct (onFailure_cases f s) as (co & -> & Hne & Hnr). eapply safe_other; [done..| | | | | |by rewrite Hco|by intros E; cbn in E].
    + intros a. apply states_fail_phase.
    + done.
    + done.
    + intros a Ha. change (ph (fail_phase f s) a = Some phaseStarted) in Ha. rewrite ph_fail_phase in Ha.
      destruct (decide (a = f_Component f)); [|done]. destruct (states s !! a); [|done]. cbn in Ha. by destruct (decide _).
    + done.
  - simplify_eq. pose proof (publishRetry_safe_fields to n s) as Hf. cbv zeta in Hf.
    destruct Hf as (Hth & Hc & Hwt & He & Hcan & Hsts & Hstd & Hre).
    eapply safe_other; [exact Hs|done|done|done|..]; cbn; unfold ph; cbn; rewrite ?Hcan, ?Hsts, ?Hstd, ?Hco; done.
  - apply abort_cases in Hstep as [(-> & _ & ->)|[(-> & _ & ->)|[(_ & Hcl & _)|[(-> & Hcl & ->)|(-> & ->)]]]];
      [..|by destruct Hopen| |]; (eapply safe_other; try done; by rewrite ?Hco).
Qed.

Lemma waiter_step_safe s s' : safe s → waiter_step s = Some s' → safe s'.
Proof.
  intros Hs Hstep. unfold waiter_step in Hstep. destruct (waiter s) eqn:Hw; [| | |done].
  - destruct (decide _) as [Hall|]; [|done]. simplify_eq. destruct Hs as [H1 H2 H3 H4 H5 H6 H7 H8 H9 H10].
    split; cbn; try done;
      [intros a t Ht; eapply thread_ok_frame; [by apply H1|done..]|..].
    + intros _. split; [done|]. intros a t Ht. specialize (Hall a t Ht). by destruct t.
    + by intros [?|?].
    + intros Hcl. rewrite (H8 Hcl) in Hw. done.
  - destruct (coord s) eqn:Hco; try done. simplify_eq. destruct Hs as [H1 H2 H3 H4 H5 H6 H7 H8 H9 H10].
    split; cbn; try done;
      [intros a t Ht; eapply thread_ok_frame; [by apply H1|done..]|..].
    + intros _. apply H6. by rewrite Hw.
    + intros Hcl. rewrite (H8 Hcl) in Hw. done.
  - simplify_eq. destruct Hs as [H1 H2 H3 H4 H5 H6 H7 H8 H9 H10]. split; cbn; try done;
      [intros a t Ht; eapply thread_ok_frame; [by apply H1|done..]|..].
    + intros _. apply H6. by rewrite Hw.
    + intros _. apply H7. by left.
Qed.

Lemma exec_safe l s s' : safe s → exec c l s = Some s' → safe s'.
Proof using names_unique.
  intros Hs Hstep. destruct l as [a alt|b| | |a|a err|]; cbn in Hstep.
  - destruct (threads s !! a) as [t|] eqn:Ht; [|done]. by eapply thread_step_safe.
  - by eapply coord_step_safe.
  - by eapply waiter_step_safe.
  - destruct (events s); [done|]. simplify_eq. eapply safe_other; try done; first [apply (sf_coord s Hs)|apply (sf_returned s Hs)].
  - destruct (runs s !! a) as [r|]; [|done]. simplify_eq/=. eapply safe_other; try done; first [apply (sf_coord s Hs)|apply (sf_returned s Hs)].
  - destruct (runs s !! a) as [r|]; [|done]. cbn in Hstep. destruct (returned r); [done|]. simplify_eq.
    eapply safe_other; try done; first [apply (sf_coord s Hs)|apply (sf_returned s Hs)].
  - simplify_eq. eapply safe_other; try done; first [apply (sf_coord s Hs)|apply (sf_returned s Hs)].
Qed.

Lemma per_component_lookup {A} (f : Spec → A) a x :
  per_component c f !! a = Some x ↔ ∃ spec, spec ∈ specs c ∧ Name spec = a ∧ f spec = x.
Proof using names_unique.
  unfold per_component. rewrite <-elem_of_list_to_map; [rewrite list_elem_of_fmap; naive_solver|].
  by rewrite <-list_fmap_compose.
Qed.

Lemma per_component_names {A} (f : Spec → A) a : is_Some (per_component c f !! a) ↔ is_component a.
Proof using names_unique.
  unfold is_Some, is_component. setoid_rewrite per_component_lookup. rewrite list_elem_of_fmap. naive_solver.
Qed.

Lemma initial_safe : safe (initial c).
Proof using names_unique.
  split; cbn; try done; [|apply per_component_names..|by intros [?|?]].
  intros a t (spec & Hin & Hname & <-)%per_component_lookup. split; [|exists spec, []; by split_and!|done].
  split; [set_solver|]. unfold ph. cbn. intros (st & (_ & _ & _ & <-)%per_component_lookup & ?)%fmap_Some. done.
Qed.

Lemma reachable_safe s : reachable_state c s → safe s.
Proof using names_unique.
  apply reachable_invariant; [intros ? <-; apply initial_safe|]. intros s1 s2 Hs [l Hl]. by eapply exec_safe.
Qed.
End safety.

Lemma New_names_unique `{MapRange} o sp c : New o sp = Some (Ok c) → specs c = sp ∧ NoDup (Name <$> specs c).
Proof.
  unfold New. destruct (negb _); [done|]. destruct (decide _); [done|].
  pose proof (known_components_spec sp ∅) as Hk. destruct (known_components sp ∅) as [known|e]; [|done].
  destruct (buildDependencies sp known) as [[d|e]|]; cbn; [|done..]. intros [= <-]. cbn. split; [done|]. apply Hk.
Qed.

(** C14. The protocol never breaks its channels, and honours dependencies.
    However the goroutines interleave, none of them sends on the closed channel
    of events or closes a channel twice; a component runs only after all
    components it depends on have started, and at most as often as configured;
    the events end only after everything has returned. *)
Theorem startup_safe `{MapRange} (o : Options) (sp : list Spec) (c : Coordinator) (s : St) :
  New o sp = Some (Ok c) → reachable_state c s →
  (∀ a t, threads s !! a = Some t → t ≠ TPanic) ∧ coord s ≠ CPanic ∧
  (∀ a t n, threads s !! a = Some t → attempt_of t = Some n →
     (1 ≤ n ≤ maxAttempts c)%Z ∧ ∀ b, declared sp a b → b ∈ started s) ∧
  (events_closed s = true → (∀ a t, threads s !! a = Some t → t = TReturned) ∧ coord s = CReturned).
Proof.
  intros [<- Hnd]%New_names_unique Hs%reachable_safe; [|done]. split_and!.
  - intros a t Ht ->. by destruct (sf_threads _ _ Hs _ _ Ht) as [[] _ _].
  - apply (sf_coord _ _ Hs).
  - intros a t n Ht Hn. by destruct (sf_threads _ _ Hs _ _ Ht) as [_ _ Ha]; apply Ha.
  - intros Hcl%(sf_closed _ _ Hs). split; [apply (sf_waiter _ _ Hs); by rewrite Hcl|]. apply (sf_join _ _ Hs). by right.
Qed.

(** ** An example: the daemon and the terminal *)

Module StartupExample.
Definition coordinator : Coordinator :=
  mk_Coordinator (mk_Options true 1 0) [mk_Spec "daemon" []; mk_Spec "pty" ["daemon"]] 2
    {["daemon" := ∅; "pty" := {["daemon"]}]}.

Definition run (ls : list label) : option St :=
  foldl (λ s l, s ← s; exec (H := elements_range) coordinator l s) (Some (initial coordinator)) ls.

Definition daemon := LThread "daemon" false.
Definition pty := LThread "pty" false.

(** The daemon's first attempt fails, nobody else can retry it, so the
    coordinator does; the second succeeds, and the terminal starts. *)
Definition recovers : list label :=
  [daemon; LReturn "daemon" (Some "refused"); LThread "daemon" true; daemon; daemon;
   LCoord OnFail; LCoord OnFail; LCoord OnFail; daemon; daemon; LReady "daemon"; daemon; daemon; daemon; daemon; daemon;
   pty; pty; LReady "pty"; pty; pty; pty; pty; pty].

Example recovers_started :
  (events <$> run recovers) = Some [mk_Event "daemon" KindStarted 2 None; mk_Event "pty" KindStarted 1 None].
Proof. vm_compute. reflexivity. Qed.
End StartupExample.

Lemma StartupExample_accepted :
  New (H := elements_range) (mk_Options true 1 0) [mk_Spec "daemon" []; mk_Spec "pty" ["daemon"]] =
    Some (Ok StartupExample.coordinator).
Proof. vm_compute. reflexivity. Qed.

Lemma run_reachable ls s :
  StartupExample.run ls = Some s → reachable_state (H := elements_range) StartupExample.coordinator s.
Proof.
  unfold StartupExample.run. revert s. induction ls as [|l ls IH] using rev_ind; cbn.
  - intros s [= <-]. by apply reachable_init.
  - intros s. rewrite foldl_app. cbn. destruct (foldl _ _ ls) as [s1|]; [|done]. cbn. intros Hl.
    eapply reachable_step; [by apply IH|by exists l].
Qed.

Lemma startup_safe_witness :
  ∃ s, StartupExample.run StartupExample.recovers = Some s ∧ coord s ≠ CPanic ∧
    ∀ t n, threads s !! "pty" = Some t → attempt_of t = Some n → (n ≤ 2)%Z.
Proof.
  assert (Hsome : match StartupExample.run StartupExample.recovers with Some _ => true | None => false end = true)
    by (vm_compute; reflexivity).
  destruct (StartupExample.run StartupExample.recovers) as [s|] eqn:Hrun; [clear Hsome|discriminate].
  exists s. split; [done|].
  destruct (startup_safe (H := elements_range) _ _ _ s StartupExample_accepted (run_reachable _ _ Hrun)) as (_ & Hc & Ha & _).
  split; [exact Hc|]. intros t n Ht Hn. destruct (Ha _ _ _ Ht Hn) as [[_ Hle] _]. exact Hle.
Defined.
