(* ===== verification/StartupLive.v ===== *)
(** * Starting components: progress

    The protocol of StartupRun never strands a component: as long as some
    goroutine is not done, one of them can go on, or a component is at work.
    The invariant says why a component that waits to be told to retry will be:
    its failure is on its way, or a retry is, or a peer that has not yet been
    tried is left, which will drive it or end the protocol. *)
From S2P Require Import Prelude Startup StartupRun.
From stdpp Require Import options.

Ltac frame := cbn; split_and!; eauto.

(** The failures whose retries a goroutine that has just started will publish. *)
Definition pending_of (t : thread) : list Failure :=
  match t with
  | TCloseStarted _ _ pending | TStartedEvent _ pending | TRetryPeers _ pending => pending
  | _ => []
  end.

Definition giving_up (t : thread) : bool :=
  match t with TMarkGaveUp _ _ | TGaveUpEvent _ _ | TAbort _ _ _ => true | _ => false end.
Definition aborting (co : coordinator) : bool := match co with CAbort _ _ _ => true | _ => false end.

(** The protocol is ending, or about to. *)
Definition ending (s : St) : Prop :=
  cancelled s = true ∨ is_Some (overflowCh s) ∨ aborting (coord s) = true ∨
  ∃ a t, threads s !! a = Some t ∧ giving_up t = true.

Definition inside_abort (pc : abort_pc) : bool := match pc with AbortOnce => false | _ => true end.
Definition thread_inside (t : thread) : bool := match t with TAbort pc _ _ => inside_abort pc | _ => false end.
Definition coord_inside (co : coordinator) : bool := match co with CAbort pc _ _ => inside_abort pc | _ => false end.

(** Who is inside [abortOnce], and what its end means. *)
Definition once_ok (s : St) : Prop :=
  match abortOnce s with
  | OnceNew => True
  | OnceRunning => coord_inside (coord s) = true ∨ ∃ a t, threads s !! a = Some t ∧ thread_inside t = true
  | OnceDone => cancelled s = true
  end.

Section progress.
Context `{MapRange} (c : Coordinator).

Lemma start_attempt_cases a n s :
  (n ≤ maxAttempts c)%Z ∧
    start_attempt c a n s = goto a (TSelect n) (set_runs (<[a := mk_attempt_run false None]> (runs s)) s) ∨
  ¬ (n ≤ maxAttempts c)%Z ∧ start_attempt c a n s = goto a TReturned s.
Proof. unfold start_attempt. destruct (decide _); auto. Qed.

(** What every step of a goroutine leaves alone. *)
Lemma thread_step_frame a alt t s s' :
  thread_step c a alt t s = Some s' →
  (∃ t', threads s' = <[a := t']> (threads s)) ∧ coord s' = coord s ∧ waiter s' = waiter s ∧
  (cancelled s = true → cancelled s' = true) ∧ (is_Some (overflowCh s) → is_Some (overflowCh s')) ∧
  match t with TAbort _ _ _ => True | _ => abortOnce s' = abortOnce s end.
Proof.
  intros Hstep. destruct t as [rest|n|n|n already pending|n pending|n pending|n|n err|n err|n err|n err|n err|pc n err|n|n| |];
    cbn in Hstep.
  - destruct rest as [|dep rest]; destruct alt; try done.
    + simplify_eq. destruct (start_attempt_cases a 1 s) as [[_ ->]|[_ ->]]; frame.
    + destruct (cancelled s) eqn:E; [|done]. simplify_eq. frame.
    + destruct (decide _); [|done]. simplify_eq. frame.
  - destruct (runs s !! a) as [r|]; [|done]. cbn in Hstep.
    destruct alt; [destruct (returned r); [|done]|]; destruct (ready r); simplify_eq; frame.
  - simplify_eq. frame.
  - destruct already; [|destruct (decide _)]; simplify_eq; frame.
  - apply send_event_cases in Hstep as [[_ ->]|[_ ->]]; frame.
  - destruct pending as [|f rest]; simplify_eq; [frame|]. destruct (decide _); [|frame].
    destruct (publishRetry_cases (f_Component f) (f_Attempt f + 1) s) as [[_ ->]|[(ch & _ & ->)|[_ (o & ->)]]]; frame.
  - destruct (runs s !! a) as [r|]; [|done]. cbn in Hstep. destruct (returned r); [|done]. cbn in Hstep. simplify_eq.
    frame.
  - apply send_event_cases in Hstep as [[_ ->]|[_ ->]]; frame.
  - simplify_eq. frame.
  - simplify_eq. destruct (onFailed_cases (mk_Failure a n err) s) as [->|(o & ->)]; frame.
  - simplify_eq. frame.
  - apply send_event_cases in Hstep as [[_ ->]|[_ ->]]; frame.
  - apply abort_cases in Hstep as [(_ & _ & ->)|[(_ & _ & ->)|[(_ & _ & ->)|[(_ & _ & ->)|(_ & ->)]]]]; frame.
  - destruct alt; [destruct (cancelled s) eqn:E; [|done]; simplify_eq; frame|].
    destruct (retryChs s !! a) as [[|r ch]|]; [done| |done]. simplify_eq. frame.
  - destruct alt; [destruct (_ && _); [|done]; simplify_eq; frame|]. simplify_eq.
    destruct (start_attempt_cases a (n + 1) s) as [[_ ->]|[_ ->]]; frame.
  - done.
  - done.
Qed.

(** A goroutine that gives up goes on to give up, or has ended the protocol. *)
Lemma giving_up_step a alt t s s' :
  safe c s → once_ok s → threads s !! a = Some t → thread_step c a alt t s = Some s' → giving_up t = true → ending s'.
Proof.
  intros Hs Hon Ht Hstep Hg. assert (Hopen : events_closed s = true → False).
  { intros Hcl. destruct (sf_waiter c s Hs) as [_ Hall]; [by rewrite (sf_closed c s Hs Hcl)|].
    rewrite (Hall a t Ht) in Hg. done. }
  assert (Hgoes : ∀ t' s1, giving_up t' = true → ending (goto a t' s1)).
  { intros t' s1 Hg'. right; right; right. exists a, t'. split; [apply lookup_insert_eq|done]. }
  destruct t as [| | | | | | | | | |n err|n err|pc n err| | | |]; try done; cbn in Hstep.
  - simplify_eq. by apply Hgoes.
  - apply send_event_cases in Hstep as [[? _]|[_ ->]]; [by destruct Hopen|by apply Hgoes].
  - apply abort_cases in Hstep as [(-> & _ & ->)|[(-> & Hod & ->)|[(_ & Hcl & _)|[(-> & _ & ->)|(-> & ->)]]]].
    + by apply Hgoes.
    + left. unfold once_ok in Hon. by rewrite Hod in Hon.
    + by destruct Hopen.
    + by apply Hgoes.
    + by left.
Qed.

Lemma thread_once a alt t s s' :
  safe c s → once_ok s → threads s !! a = Some t → thread_step c a alt t s = Some s' → once_ok s'.
Proof.
  intros Hs Hon Ht Hstep. pose proof (thread_step_frame a alt t s s' Hstep) as ((t' & Hth) & Hco & _ & Hcan & _ & Hab).
  assert (Hopen : t ≠ TReturned → events_closed s = true → False).
  { intros Hne Hcl. destruct (sf_waiter c s Hs) as [_ Hall]; [by rewrite (sf_closed c s Hs Hcl)|]. by apply Hne, (Hall a t). }
  assert (Hother : thread_inside t = false → abortOnce s' = abortOnce s → once_ok s').
  { intros Hout Habs. unfold once_ok in *. rewrite Habs, Hco, Hth. destruct (abortOnce s); [done| |auto].
    destruct Hon as [?|(b & u & Hu & Hin)]; [by left|right]. exists b, u. split; [|done].
    rewrite lookup_insert_ne; [done|]. intros ->. congruence. }
  destruct t as [| | | | | | | | | | | |pc n err| | | |]; try by apply Hother. cbn in Hstep.
  apply abort_cases in Hstep as [(-> & _ & ->)|[(-> & Hod & ->)|[(_ & Hcl & _)|[(-> & _ & ->)|(-> & ->)]]]].
  - right. exists a, (TAbort AbortSend n err). split; [apply lookup_insert_eq|done].
  - unfold once_ok in *. cbn. by rewrite Hod in *.
  - by destruct Hopen.
  - unfold once_ok in *. cbn. destruct (abortOnce s); [done| |done]. right.
    exists a, (TAbort AbortCancel n err). split; [apply lookup_insert_eq|done].
  - done.
Qed.

(** What every step of the coordinator leaves alone. *)
Lemma coord_step_frame b s s' :
  coord_step c b s = Some s' →
  threads s' = threads s ∧ waiter s' = waiter s ∧ started s' = started s ∧ (cancelled s = true → cancelled s' = true) ∧
  match coord s with
  | CAbort _ _ _ => True
  | _ => abortOnce s' = abortOnce s ∧ (is_Some (overflowCh s) → is_Some (overflowCh s') ∨ aborting (coord s') = true)
  end.
Proof.
  unfold coord_step. intros Hstep. destruct (coord s) as [|f|to n|pc trigger reason| |] eqn:Hco; try done.
  - destruct b.
    + destruct (cancelled s) eqn:E; [|done]. simplify_eq. frame.
    + destruct (failCh s); [done|]. simplify_eq. frame.
    + destruct (overflowCh s); [|done]. simplify_eq. frame.
  - simplify_eq. destruct (onFailure_cases c f s) as (co & -> & _ & _). frame.
  - simplify_eq. destruct (publishRetry_cases to n s) as [[_ ->]|[(ch & _ & ->)|[_ (o & ->)]]]; frame.
  - apply abort_cases in Hstep as [(_ & _ & ->)|[(_ & _ & ->)|[(_ & _ & ->)|[(_ & _ & ->)|(_ & ->)]]]]; frame.
Qed.

Lemma coord_open s : safe c s → coord s ≠ CReturned → events_closed s = true → False.
Proof. intros Hs Hne Hcl. apply Hne, (sf_join c s Hs). right. by apply (sf_closed c s Hs). Qed.

Lemma coord_once b s s' : safe c s → once_ok s → coord_step c b s = Some s' → once_ok s'.
Proof.
  intros Hs Hon Hstep. pose proof (coord_step_frame b s s' Hstep) as (Hth & _ & _ & Hcan & Hab).
  pose proof (coord_open s Hs) as Hopen.
  assert (Hother : coord_inside (coord s) = false → abortOnce s' = abortOnce s → once_ok s').
  { intros Hout Habs. unfold once_ok in *. rewrite Habs, Hth. destruct (abortOnce s); [done| |auto].
    destruct Hon as [?|?]; [congruence|by right]. }
  unfold coord_step in Hstep. destruct (coord s) as [|f|to n|pc trigger reason| |] eqn:Hco; try (by apply Hother, Hab); try done.
  apply abort_cases in Hstep as [(-> & _ & ->)|[(-> & Hod & ->)|[(-> & Hcl & ->)|[(-> & _ & ->)|(-> & ->)]]]].
  - by left.
  - unfold once_ok in *. cbn. by rewrite Hod in *.
  - by destruct Hopen.
  - unfold once_ok in *. cbn. destruct (abortOnce s); [done|by left|done].
  - done.
Qed.

Lemma waiter_step_frame s s' :
  waiter_step s = Some s' →
  threads s' = threads s ∧ coord s' = coord s ∧ abortOnce s' = abortOnce s ∧ overflowCh s' = overflowCh s ∧
  (waiter s = KWait → cancelled s' = true) ∧ (cancelled s = true → cancelled s' = true).
Proof.
  unfold waiter_step. intros Hstep. destruct (waiter s); [destruct (decide _); [|done]|destruct (coord s) eqn:Hco; try done| |done];
    simplify_eq; frame; done.
Qed.

(** The labels that change nothing that progress depends on. *)
Definition idle (l : label) : bool :=
  match l with LConsume | LReady _ | LReturn _ _ => true | _ => false end.

Lemma idle_frame l s s' :
  idle l = true → exec c l s = Some s' →
  threads s' = threads s ∧ coord s' = coord s ∧ abortOnce s' = abortOnce s ∧ overflowCh s' = overflowCh s ∧
  cancelled s' = cancelled s ∧ states s' = states s ∧ started s' = started s ∧ failCh s' = failCh s ∧ retryChs s' = retryChs s.
Proof.
  intros Hi Hstep. destruct l as [| | | |a|a err|]; try done; cbn in Hstep.
  - destruct (events s); [done|]. simplify_eq. frame.
  - destruct (runs s !! a); [|done]. simplify_eq/=. frame.
  - destruct (runs s !! a) as [r|]; [|done]. cbn in Hstep. destruct (returned r); [done|]. simplify_eq. frame.
Qed.

Lemma exec_once l s s' : safe c s → once_ok s → exec c l s = Some s' → once_ok s'.
Proof.
  intros Hs Hon Hstep. destruct (idle l) eqn:Hi.
  { pose proof (idle_frame l s s' Hi Hstep) as (Hth & Hco & Hab & _ & Hcan & _).
    unfold once_ok in *. by rewrite Hab, Hth, Hco, Hcan. }
  destruct l as [a alt|b| | |a|a err|]; try done; cbn in Hstep.
  - destruct (threads s !! a) as [t|] eqn:Ht; [|done]. by eapply thread_once.
  - by eapply coord_once.
  - pose proof (waiter_step_frame s s' Hstep) as (Hth & Hco & Hab & _ & _ & Hcan).
    unfold once_ok in *. rewrite Hab, Hth, Hco. destruct (abortOnce s); auto.
  - simplify_eq. unfold once_ok in *. cbn. by destruct (abortOnce s).
Qed.

(** Once the protocol is ending, it stays so. *)
Lemma exec_ending l s s' : safe c s → once_ok s → exec c l s = Some s' → ending s → ending s'.
Proof.
  intros Hs Hon Hstep He. destruct (idle l) eqn:Hi.
  { pose proof (idle_frame l s s' Hi Hstep) as (Hth & Hco & _ & Hov & Hcan & _).
    unfold ending in *. by rewrite Hth, Hco, Hov, Hcan. }
  destruct l as [a alt|b| | |a|a err|]; try done; cbn in Hstep.
  - destruct (threads s !! a) as [t|] eqn:Ht; [|done].
    pose proof (thread_step_frame a alt t s s' Hstep) as ((t' & Hth) & Hco & _ & Hcan & Hov & _).
    destruct He as [?|[?|[?|(b & u & Hu & Hg)]]]; [left; auto|right; left; auto|right; right; left; congruence|].
    destruct (decide (a = b)) as [->|Hab]; [simplify_eq; by eapply giving_up_step|].
    right; right; right. exists b, u. by rewrite Hth, lookup_insert_ne.
  - pose proof (coord_step_frame b s s' Hstep) as (Hth & _ & _ & Hcan & Hab).
    destruct He as [?|[Hov|[Hab'|(a & u & Hu & Hg)]]]; [left; auto| | |right; right; right; exists a, u; by rewrite Hth].
    + unfold coord_step in Hstep. destruct (coord s) as [| | |pc trigger reason| |]; cbn in Hab;
        try (destruct Hab as [_ Hab]; destruct (Hab Hov); [by right; left|by right; right; left]).
      apply abort_cases in Hstep as [(_ & _ & ->)|[(_ & _ & ->)|[(_ & _ & ->)|[(_ & _ & ->)|(_ & ->)]]]]; by right; left.
    + unfold coord_step in Hstep. destruct (coord s) as [| | |pc trigger reason| |] eqn:Hco; try done.
      apply abort_cases in Hstep as [(_ & _ & ->)|[(_ & Hod & ->)|[(_ & Hcl & ->)|[(_ & _ & ->)|(_ & ->)]]]].
      * right; right; by left.
      * left. unfold once_ok in Hon. by rewrite Hod in Hon.
      * exfalso. eapply coord_open; [done|by rewrite Hco|done].
      * right; right; by left.
      * by left.
  - pose proof (waiter_step_frame s s' Hstep) as (Hth & Hco & _ & Hov & _ & Hcan).
    unfold ending in *. rewrite Hth, Hco, Hov. naive_solver.
  - simplify_eq. by left.
Qed.

(** ** What the ranges over the components find *)

Lemma ph_Some s a p : ph s a = Some p ↔ ∃ st, states s !! a = Some st ∧ c_phase st = p.
Proof. unfold ph. rewrite fmap_Some. naive_solver. Qed.

Lemma pendingPeerFailures_spec self s f :
  f ∈ pendingPeerFailuresLocked self s ↔
  ∃ a st, states s !! a = Some st ∧ a ≠ self ∧ c_phase st = phaseWaitingRetry ∧ lastFailure st = Some f.
Proof.
  unfold pendingPeerFailuresLocked. rewrite list_elem_of_omap. split.
  - intros (a & _ & Ha). destruct (states s !! a) as [st|] eqn:Hst; [|done]. cbn in Ha.
    destruct (decide (a ≠ self)); [|by rewrite bool_decide_eq_false_2 in Ha].
    rewrite bool_decide_eq_true_2 in Ha by done. cbn in Ha.
    destruct (decide (c_phase st = phaseWaitingRetry)); [|by rewrite bool_decide_eq_false_2 in Ha].
    rewrite bool_decide_eq_true_2 in Ha by done. by exists a, st.
  - intros (a & st & Hst & Hne & Hph & Hf). exists a. split; [apply elem_of_range_keys, elem_of_dom; by exists st|].
    rewrite Hst. cbn. by rewrite !bool_decide_eq_true_2.
Qed.

Lemma dependsOn_spec a b : dependsOn c a b = true ↔ depends (deps c) a b.
Proof.
  unfold dependsOn, depends. destruct (deps c !! a) as [ds|]; [|naive_solver].
  rewrite bool_decide_eq_true. naive_solver.
Qed.

Lemma hasPendingDependent_spec self s :
  hasPendingDependentLocked c self s = true ↔ ∃ a, a ≠ self ∧ ph s a = Some phasePending ∧ depends (deps c) a self.
Proof.
  unfold hasPendingDependentLocked. rewrite existsb_exists. split.
  - intros (a & _ & Ha). destruct (states s !! a) as [st|] eqn:Hst; [|done].
    apply andb_true_iff in Ha as [[Hne Hph]%andb_true_iff Hd]. apply bool_decide_eq_true in Hne, Hph.
    exists a. split_and!; [done|apply ph_Some; eauto|by apply dependsOn_spec].
  - intros (a & Hne & (st & Hst & Hph)%ph_Some & Hd). exists a.
    split; [apply list_elem_of_In, elem_of_range_keys, elem_of_dom; by exists st|]. rewrite Hst.
    by rewrite !bool_decide_eq_true_2, (proj2 (dependsOn_spec a self) Hd).
Qed.

Lemma peer_summary_spec self names s ad :
  match peer_summary self names s ad with
  | (Some p, _) => p ≠ self ∧ ph s p = Some phaseStarted
  | (None, ad') =>
    (∀ p, p ∈ names → p ≠ self → ph s p ≠ Some phaseStarted) ∧
    (ad' = true ↔ ad = true ∧ ∀ p, p ∈ names → p ≠ self → ph s p ≠ Some phasePending)
  end.
Proof.
  revert ad. induction names as [|a names IH]; intros ad; cbn [peer_summary].
  { split; [by intros p ?%not_elem_of_nil|]. split; [|naive_solver]. intros ->. split; [done|by intros p ?%not_elem_of_nil]. }
  assert (Hskip : ∀ ad', a = self ∨ (ph s a ≠ Some phaseStarted ∧ (ad' = true ↔ ad = true ∧ ph s a ≠ Some phasePending)) →
    (a = self → ad' = ad) →
    match peer_summary self names s ad' with
    | (Some p, _) => p ≠ self ∧ ph s p = Some phaseStarted
    | (None, r) =>
      (∀ p, p ∈ a :: names → p ≠ self → ph s p ≠ Some phaseStarted) ∧
      (r = true ↔ ad = true ∧ ∀ p, p ∈ a :: names → p ≠ self → ph s p ≠ Some phasePending)
    end).
  { intros ad' Hcase Hself. specialize (IH ad'). destruct (peer_summary self names s ad') as [[p|] r]; [done|].
    destruct IH as [Hst Hr]. setoid_rewrite elem_of_cons. destruct Hcase as [->|[Hns Hiff]].
    - rewrite Hself in Hr by done. split; [naive_solver|]. rewrite Hr. naive_solver.
    - split; [naive_solver|]. rewrite Hr, Hiff. destruct (decide (a = self)) as [->|]; [|naive_solver].
      rewrite Hself in Hiff by done. naive_solver. }
  destruct (decide (a = self)) as [->|Hne]; [apply Hskip; auto|].
  change (c_phase <$> states s !! a) with (ph s a). destruct (ph s a) as [[| | |]|] eqn:Hph; try (apply Hskip; [right; naive_solver|done]).
  by rewrite Hph.
Qed.

Lemma peerSummary_spec self s :
  match peerSummaryLocked self s with
  | (Some p, _) => p ≠ self ∧ ph s p = Some phaseStarted
  | (None, allDown) =>
    (∀ p, p ≠ self → ph s p ≠ Some phaseStarted) ∧
    (allDown = true ↔ ∀ p, p ≠ self → ph s p ≠ Some phasePending)
  end.
Proof.
  unfold peerSummaryLocked. pose proof (peer_summary_spec self (range_keys (dom (states s))) s true) as Hs.
  assert (Hdom : ∀ p x, ph s p = Some x → p ∈ range_keys (dom (states s))).
  { intros p x (st & Hst & _)%ph_Some. apply elem_of_range_keys, elem_of_dom. by exists st. }
  destruct (peer_summary _ _ s true) as [[p|] allDown]; [done|]. destruct Hs as [Hst Had]. split.
  - intros p Hne Hp. eapply Hst; [by eapply Hdom|done..].
  - rewrite Had. split; [intros [_ Hall] p Hne Hp; eapply Hall; [by eapply Hdom|done..]|]. intros Hall. split; [done|auto].
Qed.

(** ** The invariant *)

(** A failure the protocol still knows of. *)
Definition queued (s : St) (f : Failure) : Prop := f ∈ failCh s ∨ coord s = COnFailure f.

Definition known_failure (s : St) (f : Failure) : Prop :=
  queued s f ∨
  (∃ a st, states s !! a = Some st ∧ c_phase st = phaseWaitingRetry ∧ lastFailure st = Some f) ∨
  (∃ p t, threads s !! p = Some t ∧ f ∈ pending_of t).

(** The retry of [a] is on its way, or will be. *)
Definition handled (s : St) (a : Component) : Prop :=
  (∃ f, queued s f ∧ f_Component f = a) ∨
  (∃ n, coord s = CRetry a n) ∨
  (∃ r ch, retryChs s !! a = Some (r :: ch)) ∨
  (∃ p t f, threads s !! p = Some t ∧ f ∈ pending_of t ∧ f_Component f = a).

(** Nobody could drive the retry of [a]: no peer has started, none that has not
    been tried waits for it, but one is left. *)
Definition stranded (s : St) (a : Component) : Prop :=
  ph s a = Some phaseWaitingRetry ∧
  (∀ p, p ≠ a → ph s p ≠ Some phaseStarted) ∧
  (∀ p, ph s p = Some phasePending → ¬ depends (deps c) p a) ∧
  ∃ p, p ≠ a ∧ ph s p = Some phasePending.

(** The component has begun its attempts. *)
Definition tried (s : St) (a : Component) : Prop := ∀ rest, threads s !! a ≠ Some (TDeps rest).

Definition place_ok (s : St) (a : Component) (t : thread) : Prop :=
  match t with
  | TDeps _ => ph s a = Some phasePending
  | TAwaitRetry _ =>
    (ph s a = Some phasePending → ∃ f, queued s f ∧ f_Component f = a) ∧ (handled s a ∨ stranded s a)
  | TRetryDelay _ => ph s a = Some phasePending → ∃ f, queued s f ∧ f_Component f = a
  | TCloseStarted _ _ _ | TStartedEvent _ _ | TRetryPeers _ _ | TWaitRun _ | TExitedEvent _ _ =>
    ph s a ≠ Some phasePending
  | TReturned => a ∈ started s ∧ ph s a ≠ Some phasePending
  | _ => True
  end.

Record live (s : St) : Prop := {
  lv_fail f : known_failure s f → is_component c (f_Component f) ∧ (f_Attempt f < maxAttempts c)%Z ∧ tried s (f_Component f);
  lv_waiting a st : states s !! a = Some st → c_phase st = phaseWaitingRetry →
    ∃ f, lastFailure st = Some f ∧ f_Component f = a;
  lv_retry a n : coord s = CRetry a n → is_component c a;
  lv_place a t : threads s !! a = Some t → place_ok s a t;
  lv_gaveup a : ph s a ≠ Some phaseGaveUp;
}.

(** ** Steps of a component's goroutine *)

(** Nobody goes back to waiting for dependencies. *)
Definition waits_deps (t : thread) : bool := match t with TDeps _ => true | _ => false end.
Abbreviation forward t t' := (waits_deps t' = true → waits_deps t = true).

Lemma tried_step s s' a t t' b :
  threads s !! a = Some t → threads s' = <[a := t']> (threads s) → forward t t' → tried s b → tried s' b.
Proof.
  intros Ht Hth Hf Hb rest. rewrite Hth. intros [[<- Heq]|[_ Hr]]%lookup_insert_Some; [|by eapply Hb].
  subst t'. destruct t as [rest0| | | | | | | | | | | | | | | |]; [|discriminate (Hf eq_refl)..]. by eapply Hb.
Qed.

Lemma live_thread s s' a t t' :
  live s → threads s !! a = Some t → threads s' = <[a := t']> (threads s) → forward t t' → states s' = states s → coord s' = coord s → started s ⊆ started s' →
  (∀ f, known_failure s' f → known_failure s f ∨ (is_component c (f_Component f) ∧ (f_Attempt f < maxAttempts c)%Z ∧ tried s' (f_Component f))) →
  (∀ f, queued s f → queued s' f) → (∀ b, b ≠ a → handled s b → handled s' b) → place_ok s' a t' → live s'.
Proof.
  intros Hl Ht Hth Hfw Hst Hco Hsub Hkn Hq Hh Hp.
  assert (Hph : ∀ b, ph s' b = ph s b) by (intros b; unfold ph; by rewrite Hst). split.
  - intros f [Hf|?]%Hkn; [|done]. destruct (lv_fail s Hl f Hf) as (? & ? & ?). split_and!; [done..|by eapply tried_step].
  - rewrite Hst. apply (lv_waiting s Hl).
  - rewrite Hco. apply (lv_retry s Hl).
  - intros b u. rewrite Hth. intros [[<- <-]|[Hb Hu]]%lookup_insert_Some; [done|].
    pose proof (lv_place s Hl b u Hu) as Hpl. destruct u; cbn in *; rewrite ?Hph; try done.
    + destruct Hpl as [Hpl Hhs]. split.
      * intros Hpend. destruct (Hpl Hpend) as (f & Hf & Hfb). eauto.
      * destruct Hhs as [Hhd|(Hw & Hs1 & Hs2 & Hs3)]; [left; by apply Hh|right].
        unfold stranded. setoid_rewrite Hph. auto.
    + intros Hpend. destruct (Hpl Hpend) as (f & Hf & Hfb). eauto.
    + destruct Hpl. split; [by apply Hsub|done].
  - intros b. rewrite Hph. apply (lv_gaveup s Hl).
Qed.

(** The common case: what is queued stays, and so do the retries of the others. *)
Lemma live_quiet s s' a t t' :
  live s → threads s !! a = Some t → threads s' = <[a := t']> (threads s) → forward t t' →
  states s' = states s → coord s' = coord s → started s ⊆ started s' → failCh s' = failCh s → (∀ b, b ≠ a → retryChs s' !! b = retryChs s !! b) →
  pending_of t' = pending_of t → place_ok s' a t' → live s'.
Proof.
  intros Hl Ht Hth Hfw Hst Hco Hsub Hf Hre Hpend Hp. eapply live_thread; try done.
  - intros f Hk. left. destruct Hk as [Hk|[Hk|(p & u & Hu & Hk)]].
    + left. unfold queued in *. by rewrite <-Hf, <-Hco.
    + right; left. by rewrite <-Hst.
    + right; right. rewrite Hth in Hu. apply lookup_insert_Some in Hu as [[<- <-]|[_ Hu]]; [|by exists p, u].
      exists a, t. split; [done|]. by rewrite <-Hpend.
  - unfold queued. by rewrite Hf, Hco.
  - intros b Hb [Hk|[Hk|[Hk|(p & u & f & Hu & Hfu & Hfb)]]].
    + left. unfold queued in *. by rewrite Hf, Hco.
    + right; left. by rewrite Hco.
    + right; right; left. by rewrite Hre.
    + right; right; right. destruct (decide (p = a)) as [->|Hpa].
      * exists a, t', f. rewrite Hth, lookup_insert_eq, Hpend. simplify_eq. done.
      * exists p, u, f. by rewrite Hth, lookup_insert_ne.
Qed.

Lemma not_ending_cancelled s : ¬ ending s → cancelled s = false.
Proof. intros He. destruct (cancelled s) eqn:E; [|done]. destruct He. by left. Qed.

(** A component that has started drives every component that waits. *)
Lemma live_mark s a n already :
  safe c s → live s → threads s !! a = Some (TMarkStarted n) →
  let s1 := set_phase a phaseStarted s in
  live (goto a (TCloseStarted n already (pendingPeerFailuresLocked a s1)) s1).
Proof.
  intros Hs Hl Ht s1. assert (Ha : is_Some (states s !! a)).
  { apply (sf_state_names c s Hs), (sf_thread_names c s Hs). by eexists. }
  assert (Hph : ∀ b, ph s1 b = if decide (b = a) then Some phaseStarted else ph s b).
  { intros b. unfold s1. rewrite ph_set_phase. case_decide; [subst|done]. by destruct Ha as [st ->]. }
  assert (Hstates : ∀ b st, states s1 !! b = Some st → c_phase st = phaseWaitingRetry → b ≠ a ∧ states s !! b = Some st).
  { intros b st Hb Hw. assert (Hwb : ph s1 b = Some phaseWaitingRetry) by (apply ph_Some; eauto).
    rewrite Hph in Hwb. destruct (decide (b = a)) as [->|Hne]; [done|]. split; [done|].
    unfold s1, set_phase in Hb. cbn [states set_states] in Hb. by rewrite lookup_alter_ne in Hb. }
  assert (Hpend : ∀ f, f ∈ pendingPeerFailuresLocked a s1 ↔
    ∃ b st, states s !! b = Some st ∧ b ≠ a ∧ c_phase st = phaseWaitingRetry ∧ lastFailure st = Some f).
  { intros f. rewrite pendingPeerFailures_spec. split; intros (b & st & Hb & Hne & Hw & Hf).
    - exists b, st. destruct (Hstates b st Hb Hw). auto.
    - exists b, st. split_and!; try done. unfold s1, set_phase. cbn [states set_states]. by rewrite lookup_alter_ne. }
  split.
  - intros f Hk. assert (Hks : known_failure s f); [|destruct (lv_fail s Hl f Hks) as (? & ? & ?); split_and!; [done..|];
      by eapply (tried_step s _ a (TMarkStarted n) (TCloseStarted n already (pendingPeerFailuresLocked a s1)))].
    destruct Hk as [Hk|[(b & st & Hb & Hw & Hf)|(p & u & Hu & Hfu)]].
    + by left.
    + right; left. exists b, st. cbn in Hb. destruct (Hstates b st Hb Hw). auto.
    + cbn [threads goto set_threads] in Hu. apply lookup_insert_Some in Hu as [[<- <-]|[_ Hu]]; [|right; right; by exists p, u].
      right; left. cbn in Hfu. apply Hpend in Hfu as (b & st & ? & _ & ? & ?). by exists b, st.
  - intros b st Hb Hw. destruct (Hstates b st Hb Hw). by eapply (lv_waiting s Hl).
  - apply (lv_retry s Hl).
  - intros b u. cbn [threads goto set_threads]. change (threads s1) with (threads s).
    intros [[<- <-]|[Hb Hu]]%lookup_insert_Some.
    { cbn. change (ph s1 a ≠ Some phasePending). by rewrite Hph, decide_True. }
    assert (Hphb : ∀ t', ph (goto a t' s1) b = ph s b) by (intros t'; change (ph s1 b = ph s b); by rewrite Hph, decide_False).
    pose proof (lv_place s Hl b u Hu) as Hpl. destruct u; cbn in *; rewrite ?Hphb; try done.
    destruct Hpl as [Hpl Hhs]. split; [done|]. left. destruct Hhs as [Hhd|(Hw & _)].
    + destruct Hhd as [Hk|[Hk|[Hk|(p & u & f & Hu' & Hfu & Hfb)]]]; [by left|by right; left|by right; right; left|].
      right; right; right. exists p, u, f. split; [|done]. cbn. rewrite lookup_insert_ne; [done|].
      intros <-. rewrite Ht in Hu'. simplify_eq. by apply not_elem_of_nil in Hfu.
    + right; right; right. apply ph_Some in Hw as (st & Hst & Hw). destruct (lv_waiting s Hl b st Hst Hw) as (f & Hf & Hfb).
      exists a, (TCloseStarted n already (pendingPeerFailuresLocked a s1)), f. split; [apply lookup_insert_eq|]. split; [|done].
      apply Hpend. by exists b, st.
  - intros b. change (ph s1 b ≠ Some phaseGaveUp). rewrite Hph. case_decide; [done|apply (lv_gaveup s Hl)].
Qed.

Hypothesis max_pos : (1 ≤ maxAttempts c)%Z.

(** The publication of a failure by the goroutine that then waits. *)
Lemma live_publish_failed s a n err :
  safe c s → live s → threads s !! a = Some (TPublishFailed n err) → n ≠ maxAttempts c →
  live (goto a (TAwaitRetry n) (set_failCh (failCh s ++ [mk_Failure a n err]) s)).
Proof.
  intros Hs Hl Ht Hn. set (f := mk_Failure a n err).
  assert (Hown : is_component c a ∧ (n < maxAttempts c)%Z ∧ tried (goto a (TAwaitRetry n) (set_failCh (failCh s ++ [f]) s)) a).
  { split_and!; [apply (sf_thread_names c s Hs); by eexists| |].
    { destruct (ok_attempt _ _ _ _ (sf_threads c s Hs a _ Ht) n eq_refl). lia. }
    intros rest. cbn. by rewrite lookup_insert_eq. }
  assert (Hq : ∀ g, queued (goto a (TAwaitRetry n) (set_failCh (failCh s ++ [f]) s)) g ↔ queued s g ∨ g = f).
  { intros g. unfold queued. cbn. rewrite elem_of_app, list_elem_of_singleton. tauto. }
  eapply live_thread; [exact Hl|exact Ht|done..| | | |].
  - intros g [Hk|[Hk|(p & u & Hu & Hgu)]].
    + apply Hq in Hk as [Hk|Hk]; [by left; left|right; rewrite Hk; exact Hown].
    + left. right; by left.
    + left. right; right. cbn in Hu. apply lookup_insert_Some in Hu as [[<- <-]|[_ Hu]]; [by apply not_elem_of_nil in Hgu|].
      by exists p, u.
  - intros g Hg. apply Hq. by left.
  - intros b Hb [(g & Hg & Hgb)|[Hk|[Hk|(p & u & g & Hu & Hgu & Hgb)]]].
    + left. exists g. split; [apply Hq; by left|done].
    + by right; left.
    + by right; right; left.
    + right; right; right. exists p, u, g. split; [|done]. cbn. rewrite lookup_insert_ne; [done|].
      intros <-. simplify_eq. by apply not_elem_of_nil in Hgu.
  - split; [intros _|left; left]; exists f; (split; [apply Hq; by right|done]).
Qed.

(** The publication of a retry on behalf of a component that has started. *)
Lemma live_retry_peer s a n f rest s1 :
  safe c s → live s → threads s !! a = Some (TRetryPeers n (f :: rest)) →
  publishRetry (f_Component f) (f_Attempt f + 1) s = s1 → ¬ is_Some (overflowCh s1) →
  live (goto a (TRetryPeers n rest) s1).
Proof.
  intros Hs Hl Ht Hpub Hov.
  assert (Hf : is_component c (f_Component f)).
  { apply (lv_fail s Hl). right; right. exists a, (TRetryPeers n (f :: rest)). split; [done|by left]. }
  apply (sf_retry_names c s Hs) in Hf.
  destruct (publishRetry_cases (f_Component f) (f_Attempt f + 1) s) as [[Hno _]|[(ch & Hch & Heq)|[_ (o & Heq)]]].
  { rewrite Hno in Hf. by destruct Hf. }
  2: { rewrite Heq in Hpub. subst s1. destruct Hov. by eexists. }
  rewrite Heq in Hpub. subst s1.
  eapply live_thread; [exact Hl|exact Ht|done..| | | |].
  - intros g [Hk|[Hk|(p & u & Hu & Hgu)]]; left; [by left|by right; left|]. right; right.
    cbn in Hu. apply lookup_insert_Some in Hu as [[<- <-]|[_ Hu]]; [|by exists p, u].
    exists a, (TRetryPeers n (f :: rest)). split; [done|by right].
  - done.
  - intros b Hb [Hk|[Hk|[(r & ch' & Hk)|(p & u & g & Hu & Hgu & Hgb)]]]; [by left|by right; left| |].
    + right; right; left. cbn. destruct (decide (b = f_Component f)) as [->|Hne].
      * rewrite lookup_insert_eq. simplify_eq. cbn. eauto.
      * rewrite lookup_insert_ne by done. eauto.
    + destruct (decide (p = a)) as [->|Hpa].
      * simplify_eq. cbn in Hgu. apply elem_of_cons in Hgu as [->|Hgu].
        -- right; right; left. cbn. rewrite lookup_insert_eq. destruct ch; cbn; eauto.
        -- right; right; right. exists a, (TRetryPeers n rest), g. split; [apply lookup_insert_eq|done].
      * right; right; right. exists p, u, g. split; [|done]. cbn. by rewrite lookup_insert_ne.
  - exact (lv_place s Hl a _ Ht).
Qed.

Lemma thread_step_live a alt t s s' :
  safe c s → live s → ¬ ending s → ¬ ending s' → threads s !! a = Some t → thread_step c a alt t s = Some s' → live s'.
Proof using max_pos.
  intros Hs Hl He He' Ht Hstep. pose proof (sf_threads c s Hs a t Ht) as [Hst Hw Ha].
  pose proof (lv_place s Hl a t Ht) as Hpl. pose proof (not_ending_cancelled s He) as Hcan.
  assert (Hclosed : t ≠ TReturned → events_closed s = true → False).
  { intros Hne Hcl. destruct (sf_waiter c s Hs) as [_ Hall]; [by rewrite (sf_closed c s Hs Hcl)|]. by apply Hne, (Hall a t). }
  assert (Hgiving : giving_up t = true → live s').
  { intros Hg. destruct He. right; right; right. by exists a, t. }
  destruct t as [rest|n|n|n already pending|n pending|n pending|n|n err|n err|n err|n err|n err|pc n err|n|n| |];
    try (by apply Hgiving); cbn in Hstep; rewrite ?Hcan in Hstep.
  - destruct rest as [|dep rest]; destruct alt; try done.
    + simplify_eq. destruct (start_attempt_cases a 1 s) as [[_ ->]|[? _]]; [by eapply live_quiet|done].
    + destruct (decide _); [|done]. simplify_eq. by eapply live_quiet.
  - destruct (runs s !! a) as [r|]; [|done]. cbn in Hstep.
    destruct alt; [destruct (returned r); [|done]|]; destruct (ready r); simplify_eq; by eapply live_quiet.
  - simplify_eq. by eapply live_mark.
  - destruct Hst as [Hns ->]. rewrite decide_False in Hstep by done. simplify_eq. eapply live_quiet; try done. cbn. set_solver.
  - apply send_event_cases in Hstep as [[Hcl _]|[_ ->]]; [by destruct Hclosed|by eapply live_quiet].
  - destruct pending as [|f rest]; simplify_eq; [by eapply live_quiet|].
    assert (Hlt : (f_Attempt f < maxAttempts c)%Z).
    { apply (lv_fail s Hl). right; right. exists a, (TRetryPeers n (f :: rest)). split; [done|by left]. }
    rewrite decide_True in * by done. eapply live_retry_peer; [done..|]. intros Hov. apply He'. by right; left.
  - destruct (runs s !! a) as [r|]; [|done]. cbn in Hstep. destruct (returned r); [|done]. cbn in Hstep. simplify_eq.
    by eapply live_quiet.
  - apply send_event_cases in Hstep as [[Hcl _]|[_ ->]]; [by destruct Hclosed|by eapply live_quiet].
  - simplify_eq. by eapply live_quiet.
  - simplify_eq. destruct (decide (n = maxAttempts c)) as [Hmax|Hmax].
    + destruct He'. right; right; right. exists a, (TMarkGaveUp n err). split; [apply lookup_insert_eq|done].
    + destruct (onFailed_cases (mk_Failure a n err) s) as [Heq|(o & Heq)]; rewrite Heq in *.
      * by eapply live_publish_failed.
      * destruct He'. right; left. by eexists.
  - destruct alt; [done|]. destruct (retryChs s !! a) as [[|r ch]|]; [done| |done]. simplify_eq.
    eapply live_quiet; try done.
    + intros b Hb. cbn. by rewrite lookup_insert_ne.
    + exact (proj1 Hpl).
  - destruct alt; [done|]. simplify_eq. destruct (start_attempt_cases a (n + 1) s) as [[_ ->]|[Hno _]]; [by eapply live_quiet|].
    cbn in Hw. lia.
Qed.

(** ** Steps of the coordinator *)

(** The coordinator takes a failure. *)
Lemma live_take s f rest :
  live s → coord s = CSelect → failCh s = f :: rest → live (set_coord (COnFailure f) (set_failCh rest s)).
Proof.
  intros Hl Hco Hf. set (s' := set_coord _ _).
  assert (Hq : ∀ g, queued s' g ↔ queued s g).
  { intros g. unfold queued, s'. cbn. rewrite Hf, Hco, elem_of_cons. naive_solver. }
  split.
  - intros g [Hk|Hk]; apply (lv_fail s Hl); [left; by apply Hq|by right].
  - apply (lv_waiting s Hl).
  - done.
  - intros a t Ht. pose proof (lv_place s Hl a t Ht) as Hpl.
    destruct t; cbn in Hpl |- *; try done; try (setoid_rewrite Hq; exact Hpl).
    setoid_rewrite Hq. destruct Hpl as [Hpl Hh]. split; [exact Hpl|]. destruct Hh as [Hh|Hh]; [left|by right].
    unfold handled in *. setoid_rewrite Hq. destruct Hh as [?|[[m Hm]|?]]; [by left|congruence|by right; right].
  - apply (lv_gaveup s Hl).
Qed.

(** The coordinator publishes a retry. *)
Lemma live_retry s to n :
  safe c s → live s → coord s = CRetry to n → ¬ is_Some (overflowCh (publishRetry to n s)) →
  live (set_coord CSelect (publishRetry to n s)).
Proof.
  intros Hs Hl Hco Hov. pose proof (lv_retry s Hl to n Hco) as Hto. apply (sf_retry_names c s Hs) in Hto.
  destruct (publishRetry_cases to n s) as [[Hno _]|[(ch & Hch & Heq)|[_ (o & Heq)]]].
  { rewrite Hno in Hto. by destruct Hto. }
  2: { rewrite Heq in Hov. destruct Hov. by eexists. }
  rewrite Heq. set (s' := set_coord _ _).
  assert (Hq : ∀ g, queued s' g ↔ queued s g) by (intros g; unfold queued, s'; cbn; rewrite Hco; naive_solver).
  split.
  - intros g [Hk|Hk]; apply (lv_fail s Hl); [left; by apply Hq|by right].
  - apply (lv_waiting s Hl).
  - done.
  - intros a t Ht. pose proof (lv_place s Hl a t Ht) as Hpl.
    destruct t; cbn in Hpl |- *; try done; try (setoid_rewrite Hq; exact Hpl).
    setoid_rewrite Hq. destruct Hpl as [Hpl Hh]. split; [exact Hpl|]. destruct Hh as [Hh|Hh]; [left|by right].
    unfold handled in *. setoid_rewrite Hq.
    assert (Hgot : a = to → ∃ r ch', retryChs s' !! a = Some (r :: ch')).
    { intros ->. unfold s'. cbn. rewrite lookup_insert_eq. destruct ch; cbn; eauto. }
    destruct Hh as [?|[[m Hm]|[(r & ch' & Hr)|?]]]; [by left| | |by right; right; right].
    + right; right; left. apply Hgot. congruence.
    + right; right; left. destruct (decide (a = to)) as [?|Hne]; [by apply Hgot|]. exists r, ch'. unfold s'. cbn.
      by rewrite lookup_insert_ne.
  - apply (lv_gaveup s Hl).
Qed.

(** What is known after the failure of [w] was recorded. *)
Lemma ph_recorded s f b :
  live s → is_component c (f_Component f) → safe c s →
  ph (fail_phase f s) b = if decide (b = f_Component f) then Some phaseWaitingRetry else ph s b.
Proof.
  intros Hl Hf Hs. rewrite ph_fail_phase. case_decide as Hb; [subst|done].
  apply (sf_state_names c s Hs) in Hf as [st Hst]. rewrite Hst. cbn. rewrite decide_False; [done|].
  intros Hg. apply (lv_gaveup s Hl (f_Component f)), ph_Some. eauto.
Qed.

Lemma peer_summary_pending self names s ad :
  peer_summary self names s ad = (None, false) → ad = false ∨ ∃ p, p ≠ self ∧ ph s p = Some phasePending.
Proof using Type.
  revert ad. induction names as [|a names IH]; intros ad; cbn [peer_summary]; [intros [= ->]; by left|].
  destruct (decide (a = self)); [apply IH|]. change (c_phase <$> states s !! a) with (ph s a).
  destruct (ph s a) as [[| | |]|] eqn:Hph; try apply IH; [|done]. intros _. right. by exists a.
Qed.

(** The three outcomes of [onFailure]. *)
Lemma onFailure_result f s :
  (f_Attempt f < maxAttempts c)%Z →
  let w := f_Component f in let s1 := fail_phase f s in
  (onFailure c f s = set_coord (CRetry w (f_Attempt f + 1)) s1 ∧
     ((∃ p, p ≠ w ∧ ph s1 p = Some phaseStarted) ∨
      ∃ p, p ≠ w ∧ ph s1 p = Some phasePending ∧ depends (deps c) p w)) ∨
  (∃ reason, onFailure c f s = set_coord (CAbort AbortOnce w reason) s1) ∨
  (onFailure c f s = set_coord CSelect s1 ∧ (∀ p, p ≠ w → ph s1 p ≠ Some phaseStarted) ∧
     (∀ p, p ≠ w → ph s1 p = Some phasePending → ¬ depends (deps c) p w) ∧
     ∃ p, p ≠ w ∧ ph s1 p = Some phasePending).
Proof using Type.
  intros Hlt w s1. unfold onFailure. fold (fail_phase f s). fold w. fold s1. rewrite decide_True by done.
  pose proof (peerSummary_spec w s1) as Hsum. unfold peerSummaryLocked in *.
  pose proof (peer_summary_pending w (range_keys (dom (states s1))) s1 true) as Hpend.
  destruct (peer_summary w _ s1 true) as [[p|] allDown]; [left; split; [done|left; eauto]|].
  destruct Hsum as [Hns _]. pose proof (hasPendingDependent_spec w s1) as Hdep.
  destruct (hasPendingDependentLocked c w s1); [left; split; [done|right]; naive_solver|].
  destruct allDown; [right; left; eauto|]. right; right. destruct (Hpend eq_refl) as [?|?]; [done|].
  split_and!; [done|done| |done]. intros p Hp Hph Hd. assert (false = true) as [=]. apply Hdep. by exists p.
Qed.

(** After the failure of [w] was recorded, the invariant holds if whoever waits
    for a retry is still provided for. *)
Lemma live_recorded s f co :
  safe c s → live s → coord s = COnFailure f →
  let w := f_Component f in let s' := set_coord co (fail_phase f s) in
  (∀ a n, co = CRetry a n → a = w) → (∀ g, co ≠ COnFailure g) →
  (∀ a n, threads s !! a = Some (TAwaitRetry n) → a = w ∨ stranded s a → handled s' a ∨ stranded s' a) →
  live s'.
Proof using Type.
  intros Hs Hl Hco w s' Hret Hnf Hstr. destruct (lv_fail s Hl f) as (Hf & Hlt & Htr); [by left; right|].
  assert (Hph : ∀ b, ph s' b = if decide (b = w) then Some phaseWaitingRetry else ph s b)
    by (intros b; by apply ph_recorded).
  assert (Hrec : ∀ a st, states s' !! a = Some st → c_phase st = phaseWaitingRetry →
    a = w ∧ lastFailure st = Some f ∨ a ≠ w ∧ states s !! a = Some st).
  { intros a st Ha Hwt. cbn in Ha. destruct (decide (a = w)) as [->|Hne]; [left|right].
    - unfold w in Ha. rewrite lookup_alter_eq in Ha. apply fmap_Some in Ha as (st0 & Hst0 & ->).
      destruct (decide (c_phase st0 = phaseGaveUp)) as [Hgu|Hgu]; [by rewrite Hgu in Hwt|done].
    - unfold w in Hne. by rewrite lookup_alter_ne in Ha. }
  split.
  - intros g [[Hk|Hk]|[(a & st & Ha & Hwt & Hg)|Hk]].
    + apply (lv_fail s Hl). by left; left.
    + by destruct (Hnf g).
    + destruct (Hrec a st Ha Hwt) as [[-> Hlast]|[_ Hst]].
      * rewrite Hlast in Hg. by simplify_eq.
      * apply (lv_fail s Hl). right; left. by exists a, st.
    + apply (lv_fail s Hl). by right; right.
  - intros a st Ha Hwt. destruct (Hrec a st Ha Hwt) as [[-> Hlast]|[_ Hst]]; [by exists f|by eapply (lv_waiting s Hl)].
  - intros a n Ha. cbn in Ha. rewrite (Hret a n Ha). exact Hf.
  - intros a t Ht. cbn in Ht. pose proof (lv_place s Hl a t Ht) as Hpl.
    destruct (decide (a = w)) as [->|Hne].
    { assert (Hpw : ph s' w = Some phaseWaitingRetry) by (by rewrite Hph, decide_True).
      destruct t; cbn [place_ok] in *; rewrite ?Hpw; try done; [by destruct (Htr rest)| |by destruct Hpl].
      split; [done|]. eapply Hstr; [done|by left]. }
    assert (Hpa : ph s' a = ph s a) by (by rewrite Hph, decide_False).
    assert (Hq : ∀ g, queued s g → f_Component g = a → queued s' g).
    { intros g [Hg|Hg] Hga; [by left|]. exfalso. apply Hne. rewrite <-Hga. unfold w. congruence. }
    assert (Hqa : (∃ g, queued s g ∧ f_Component g = a) → ∃ g, queued s' g ∧ f_Component g = a) by naive_solver.
    destruct t; cbn [place_ok] in *; rewrite ?Hpa; try done; auto. destruct Hpl as [Hpl Hh]. split; [auto|].
    destruct Hh as [[Hg|[[m Hm]|[Hr|Hp]]]|Hst];
      [left; left; auto|congruence|by left; right; right; left|by left; right; right; right|].
    eapply Hstr; [done|by right].
  - intros a. rewrite Hph. case_decide; [done|apply (lv_gaveup s Hl)].
Qed.

(** Who is stranded stays so, when a peer that was not tried is left. *)
Lemma stranded_recorded s f co a :
  safe c s → live s → coord s = COnFailure f → a ≠ f_Component f → stranded s a →
  (∃ p, p ≠ a ∧ p ≠ f_Component f ∧ ph s p = Some phasePending) → stranded (set_coord co (fail_phase f s)) a.
Proof using Type.
  intros Hs Hl Hco Hne (Hwt & Hns & Hnd & _) (p & Hpa & Hpf & Hp).
  destruct (lv_fail s Hl f) as (Hf & _); [by left; right|].
  assert (Hph : ∀ b, ph (set_coord co (fail_phase f s)) b = if decide (b = f_Component f) then Some phaseWaitingRetry else ph s b)
    by (intros b; by apply ph_recorded).
  unfold stranded. setoid_rewrite Hph. rewrite decide_False by done. split_and!; [done| | |].
  - intros q Hq. case_decide; [done|by apply Hns].
  - intros q. case_decide; [done|apply Hnd].
  - exists p. by rewrite decide_False.
Qed.

Lemma live_failure s f :
  safe c s → live s → coord s = COnFailure f → ¬ ending (onFailure c f s) → live (onFailure c f s).
Proof using Type.
  intros Hs Hl Hco He. destruct (lv_fail s Hl f) as (Hf & Hlt & _); [by left; right|].
  set (w := f_Component f) in *. set (s1 := fail_phase f s).
  assert (Hph : ∀ b, ph s1 b = if decide (b = w) then Some phaseWaitingRetry else ph s b)
    by (intros b; by apply ph_recorded).
  destruct (onFailure_result f s Hlt) as [(Heq & Hdrive)|[(reason & Heq)|(Heq & Hns & Hnd & Hex)]];
    [fold w s1 in Heq, Hdrive| |fold w s1 in Heq, Hns, Hnd, Hex]; rewrite Heq in *.
  - apply live_recorded; [done..|by intros a n Ha; injection Ha|done|]. intros a n Ht [->|Hst]; [left; right; left; by eexists|].
    destruct (decide (a = w)) as [->|Hne]; [left; right; left; by eexists|]. right.
    apply stranded_recorded; [done..|]. destruct Hst as (Hwt & Hnst & _).
    destruct Hdrive as [(q & Hqw & Hq)|(q & Hqw & Hq & _)]; rewrite Hph, decide_False in Hq by done.
    + exfalso. destruct (decide (q = a)) as [->|Hqa]; [congruence|by apply (Hnst q)].
    + exists q. split_and!; [|done..]. intros ->. congruence.
  - destruct He. right; right; by left.
  - apply live_recorded; [done..|].
    assert (Hw : stranded (set_coord CSelect s1) w).
    { split_and!; [by change (ph s1 w = Some phaseWaitingRetry); rewrite Hph, decide_True|done| |done].
      intros p Hp. destruct (decide (p = w)) as [->|Hpw]; [|by apply Hnd].
      change (ph s1 w = Some phasePending) in Hp. by rewrite Hph, decide_True in Hp. }
    intros a n Ht [->|Hst]; [by right|]. destruct (decide (a = w)) as [->|Hne]; [by right|]. right.
    apply stranded_recorded; [done..|]. destruct Hex as (p & Hpw & Hp). rewrite Hph, decide_False in Hp by done.
    exists p. split_and!; [|done..]. intros ->. destruct Hst. congruence.
Qed.

Lemma exec_live l s s' : safe c s → live s → ¬ ending s → ¬ ending s' → exec c l s = Some s' → live s'.
Proof using max_pos.
  intros Hs Hl He He' Hstep. pose proof (not_ending_cancelled s He) as Hcan.
  destruct (idle l) eqn:Hi.
  { pose proof (idle_frame l s s' Hi Hstep) as (Hth & Hco & _ & _ & _ & Hst & Hsd & Hf & Hre).
    destruct s, s'. cbn in *. subst. destruct Hl. by split. }
  destruct l as [a alt|b| | |a|a err|]; try done; cbn in Hstep.
  - destruct (threads s !! a) as [t|] eqn:Ht; [|done]. by eapply thread_step_live.
  - unfold coord_step in Hstep. destruct (coord s) as [|f|to n|pc trigger reason| |] eqn:Hco; try done.
    + rewrite Hcan in Hstep. destruct b; [done| |].
      * destruct (failCh s) eqn:Hf; [done|]. simplify_eq. by apply live_take.
      * destruct (overflowCh s) eqn:Hov; [|done]. destruct He. right; left. by eexists.
    + simplify_eq. by apply live_failure.
    + simplify_eq. apply live_retry; [done..|]. intros Hov. apply He'. by right; left.
    + destruct He. right; right; left. by rewrite Hco.
  - exfalso. apply He'. left. destruct (waiter_step_frame s s' Hstep) as (_ & _ & _ & _ & Hk & Hc).
    destruct (waiter s) eqn:Hw; [by apply Hk|..]; apply Hc, (sf_waiter c s Hs); by rewrite Hw.
  - simplify_eq. destruct He'. by left.
Qed.

(** A goroutine that watches a run of its component has one. *)
Definition watches (t : thread) : bool :=
  match t with
  | TSelect _ | TMarkStarted _ | TCloseStarted _ _ _ | TStartedEvent _ _ | TRetryPeers _ _ | TWaitRun _ => true
  | _ => false
  end.

Definition has_run (s : St) : Prop := ∀ a t, threads s !! a = Some t → watches t = true → is_Some (runs s !! a).

#[local] Ltac runs_same := cbn; (split; [reflexivity|]); eexists; (split; [reflexivity|]); try done.

Lemma thread_step_runs a alt t s s' :
  thread_step c a alt t s = Some s' →
  (runs s' = runs s ∧ ∃ t', threads s' = <[a := t']> (threads s) ∧ (watches t' = true → watches t = true)) ∨
  ∃ n, s' = goto a (TSelect n) (set_runs (<[a := mk_attempt_run false None]> (runs s)) s).
Proof using Type.
  intros Hstep. destruct t as [rest|n|n|n already pending|n pending|n pending|n|n err|n err|n err|n err|n err|pc n err|n|n| |];
    cbn in Hstep.
  - destruct rest as [|dep rest]; destruct alt; try done.
    + simplify_eq. destruct (start_attempt_cases a 1 s) as [[_ ->]|[_ ->]]; [right; eauto|left; runs_same].
    + destruct (cancelled s); [|done]. simplify_eq. left; runs_same.
    + destruct (decide _); [|done]. simplify_eq. left; runs_same.
  - destruct (runs s !! a) as [r|]; [|done]. cbn in Hstep. left.
    destruct alt; [destruct (returned r); [|done]|]; destruct (ready r); simplify_eq; runs_same.
  - simplify_eq. left; runs_same.
  - left. destruct already; [|destruct (decide _)]; simplify_eq; runs_same.
  - left. apply send_event_cases in Hstep as [[_ ->]|[_ ->]]; runs_same.
  - left. destruct pending as [|f rest]; simplify_eq; [runs_same|]. destruct (decide _); [|runs_same].
    destruct (publishRetry_cases (f_Component f) (f_Attempt f + 1) s) as [[_ ->]|[(ch & _ & ->)|[_ (o & ->)]]]; runs_same.
  - destruct (runs s !! a) as [r|]; [|done]. cbn in Hstep. destruct (returned r); [|done]. cbn in Hstep. simplify_eq.
    left; runs_same.
  - left. apply send_event_cases in Hstep as [[_ ->]|[_ ->]]; runs_same.
  - simplify_eq. left; cbn. split; [done|]. eexists. split; [done|]. by destruct (cancelled s).
  - simplify_eq. left. destruct (onFailed_cases (mk_Failure a n err) s) as [->|(o & ->)]; cbn; (split; [done|]);
      (eexists; split; [done|]); by destruct (decide _).
  - simplify_eq. left; runs_same.
  - left. apply send_event_cases in Hstep as [[_ ->]|[_ ->]]; runs_same.
  - left. apply abort_cases in Hstep as [(_ & _ & ->)|[(_ & _ & ->)|[(_ & _ & ->)|[(_ & _ & ->)|(_ & ->)]]]]; runs_same.
  - left. destruct alt; [destruct (cancelled s); [|done]; simplify_eq; runs_same|].
    destruct (retryChs s !! a) as [[|r ch]|]; [done| |done]. simplify_eq. runs_same.
  - destruct alt; [destruct (_ && _); [|done]; simplify_eq; left; runs_same|]. simplify_eq.
    destruct (start_attempt_cases a (n + 1) s) as [[_ ->]|[_ ->]]; [right; eauto|left; runs_same].
  - done.
  - done.
Qed.

Lemma exec_has_run l s s' : has_run s → exec c l s = Some s' → has_run s'.
Proof using Type.
  intros Hr Hstep. destruct l as [a alt|b| | |a|a err|]; cbn in Hstep.
  - destruct (threads s !! a) as [t|] eqn:Ht; [|done].
    apply thread_step_runs in Hstep as [(Hruns & t' & Hth & Hw)|(n & ->)]; intros b u Hu Hwu.
    + rewrite Hruns. rewrite Hth in Hu. apply lookup_insert_Some in Hu as [[<- <-]|[_ Hu]]; [eapply Hr; eauto|by eapply Hr].
    + cbn in *. apply lookup_insert_is_Some. destruct (decide (a = b)) as [->|Hne]; [by left|right].
      rewrite lookup_insert_ne in Hu by done. split; [done|by eapply Hr].
  - assert (Hsame : runs s' = runs s ∧ threads s' = threads s).
    { unfold coord_step in Hstep. destruct (coord s) as [|f|to n|pc trigger reason| |]; try done.
      - destruct b; [destruct (cancelled s); [|done]|destruct (failCh s); [done|]|destruct (overflowCh s); [|done]]; by simplify_eq.
      - simplify_eq. by destruct (onFailure_cases c f s) as (co & -> & _).
      - simplify_eq. by destruct (publishRetry_cases to n s) as [[_ ->]|[(ch & _ & ->)|[_ (o & ->)]]].
      - by apply abort_cases in Hstep as [(_ & _ & ->)|[(_ & _ & ->)|[(_ & _ & ->)|[(_ & _ & ->)|(_ & ->)]]]]. }
    destruct Hsame as [Hruns Hth]. unfold has_run. by rewrite Hruns, Hth.
  - unfold waiter_step in Hstep. destruct (waiter s); [destruct (decide _); [|done]|destruct (coord s); try done| |done]; by simplify_eq.
  - destruct (events s); [done|]. by simplify_eq.
  - destruct (runs s !! a) as [r|] eqn:Ha; [|done]. simplify_eq/=. intros b u Hu Hwu. cbn in *.
    apply lookup_insert_is_Some. destruct (decide (a = b)); [by left|right]. split; [done|by eapply Hr].
  - destruct (runs s !! a) as [r|] eqn:Ha; [|done]. cbn in Hstep. destruct (returned r); [done|]. simplify_eq.
    intros b u Hu Hwu. cbn in *. apply lookup_insert_is_Some. destruct (decide (a = b)); [by left|right].
    split; [done|by eapply Hr].
  - by simplify_eq.
Qed.

Hypothesis names_unique : NoDup (Name <$> specs c).

(** ** The invariant holds *)

Record invariant (s : St) : Prop := {
  in_safe : safe c s;
  in_once : once_ok s;
  in_runs : has_run s;
  in_live : ¬ ending s → live s;
}.

Lemma initial_invariant : invariant (initial c).
Proof using names_unique.
  assert (Hth : ∀ a t, threads (initial c) !! a = Some t → ∃ rest, t = TDeps rest).
  { intros a t (spec & _ & _ & <-)%per_component_lookup; [by eexists|done]. }
  assert (Hpend : ∀ a p, ph (initial c) a = Some p → p = phasePending).
  { by intros a p (st & (spec & _ & _ & <-)%per_component_lookup & <-)%ph_Some. }
  split; [by apply initial_safe|done| |].
  - intros a t Ht Hw. by destruct (Hth a t Ht) as [rest ->].
  - intros _. split; try done.
    + intros f [[Hf|Hf]|[(a & st & Ha & Hw & _)|(p & t & Ht & Hf)]].
      * by apply not_elem_of_nil in Hf.
      * done.
      * assert (ph (initial c) a = Some phaseWaitingRetry) as ?%Hpend by (apply ph_Some; eauto). done.
      * destruct (Hth p t Ht) as [rest ->]. by apply not_elem_of_nil in Hf.
    + intros a st Ha Hw. assert (ph (initial c) a = Some phaseWaitingRetry) as ?%Hpend by (apply ph_Some; eauto). done.
    + intros a t Ht. destruct (Hth a t Ht) as [rest ->]. cbn.
      assert (Ha : is_Some (states (initial c) !! a)).
      { apply per_component_names; [done|]. exact (proj1 (per_component_names c names_unique (λ spec, TDeps (DependsOn spec)) a) (ex_intro _ _ Ht)). }
      destruct Ha as [st Hst]. assert (Hp : ph (initial c) a = Some (c_phase st)) by (apply ph_Some; eauto).
      by rewrite <-(Hpend _ _ Hp).
    + intros a Ha. by apply Hpend in Ha.
Qed.

Lemma startup_reachable_inv s : reachable_state c s → invariant s.
Proof using All.
  apply reachable_invariant; [intros ? <-; apply initial_invariant|].
  intros s1 s2 [Hs Ho Hr Hl] [l Hstep]. split; [by eapply exec_safe|by eapply exec_once|by eapply exec_has_run|].
  intros He. assert (He1 : ¬ ending s1) by (intros ?; apply He; by eapply exec_ending). by eapply exec_live; eauto.
Qed.

(** ** When nothing can go on *)

Definition stuck (s : St) : Prop := ∀ l, environment l = false → exec c l s = None.

(** The component is at work: its run has neither become ready nor returned, or
    has become ready and not returned. *)
Definition working (s : St) (a : Component) : Prop :=
  match threads s !! a, runs s !! a with
  | Some (TSelect _), Some r => r = mk_attempt_run false None
  | Some (TWaitRun _), Some r => returned r = None
  | _, _ => False
  end.

Definition all_done (s : St) : Prop :=
  (∀ a t, threads s !! a = Some t → t = TReturned) ∧ coord s = CReturned ∧ events_closed s = true ∧ events s = [].

#[export] Instance attempt_run_eq_dec : EqDecision attempt_run.
Proof. solve_decision. Defined.

#[export] Instance working_dec s a : Decision (working s a).
Proof. unfold working. destruct (threads s !! a) as [[]|], (runs s !! a); apply _. Defined.

Lemma send_enabled e panic k s : events s = [] → send_event e panic k s ≠ None.
Proof using Type. intros He. unfold send_event. destruct (events_closed s); [done|]. by rewrite He. Qed.

Lemma stuck_thread s a t :
  has_run s → stuck s → threads s !! a = Some t → ¬ working s a → thread_ok c s a t →
  t = TReturned ∨
  (cancelled s = false ∧ ∃ d rest, t = TDeps (d :: rest) ∧ d ∉ started s) ∨
  (cancelled s = false ∧ (∃ n, t = TAwaitRetry n) ∧ ∀ r ch, retryChs s !! a ≠ Some (r :: ch)) ∨
  ((∃ n err, t = TAbort AbortOnce n err) ∧ abortOnce s = OnceRunning).
Proof using Type.
  intros Hr Hst Ht Hw [Hstage _ _].
  assert (Hev : events s = []).
  { specialize (Hst LConsume eq_refl). cbn in Hst. by destruct (events s). }
  assert (Hno : ∀ alt, thread_step c a alt t s = None).
  { intros alt. specialize (Hst (LThread a alt) eq_refl). cbn in Hst. by rewrite Ht in Hst. }
  pose proof (Hno true) as H1. pose proof (Hno false) as H2. unfold working in Hw. rewrite Ht in Hw.
  pose proof (Hr a t Ht) as Hrun. clear Hno Hst.
  destruct t as [[|d rest]|n|n|n already pending|n pending|n [|f pending]|n|n err|n err|n err|n err|n err|pc n err|n|n| |];
    cbn in H1, H2, Hrun, Hstage; try done.
  - right; left. destruct (cancelled s); [done|]. destruct (decide (d ∈ started s)); [done|]. eauto.
  - destruct (Hrun eq_refl) as [r Hra]. rewrite Hra in *. cbn in *. destruct r as [[] [err|]]; cbn in *; done.
  - destruct already; [done|]. by destruct (decide _).
  - by apply send_enabled in H1.
  - destruct (Hrun eq_refl) as [r Hra]. rewrite Hra in *. cbn in *. by destruct (returned r).
  - by apply send_enabled in H1.
  - by apply send_enabled in H1.
  - destruct pc; cbn in H1; [|by apply send_enabled in H1|done]. destruct (abortOnce s) eqn:Ho; [done| |done].
    right; right; right. eauto.
  - right; right; left. destruct (cancelled s); [done|]. split_and!; [done|eauto|]. intros r ch Hch. by rewrite Hch in H2.
  - by left.
Qed.

Lemma stuck_coord s :
  stuck s → coord s ≠ CPanic →
  coord s = CReturned ∨ (coord s = CSelect ∧ cancelled s = false ∧ failCh s = [] ∧ overflowCh s = None) ∨
  ((∃ trigger reason, coord s = CAbort AbortOnce trigger reason) ∧ abortOnce s = OnceRunning).
Proof using Type.
  intros Hst Hnp. assert (Hev : events s = []).
  { specialize (Hst LConsume eq_refl). cbn in Hst. by destruct (events s). }
  pose proof (λ b, Hst (LCoord b) eq_refl) as Hno. cbn in Hno. unfold coord_step in Hno.
  destruct (coord s) as [|f|to n|pc trigger reason| |] eqn:Hco; try done; [|by specialize (Hno OnDone)..| |by left].
  - right; left. pose proof (Hno OnDone) as H1. pose proof (Hno OnFail) as H2. pose proof (Hno OnOverflow) as H3. cbn in *.
    by destruct (cancelled s), (failCh s), (overflowCh s).
  - specialize (Hno OnDone). destruct pc; cbn in Hno; [|by apply send_enabled in Hno|done].
    destruct (abortOnce s); [done| |done]. right; right. eauto.
Qed.

(** Nobody waits for [abortOnce] forever. *)
Lemma stuck_not_aborting s :
  invariant s → stuck s → (∀ a, ¬ working s a) →
  (∀ a n err, threads s !! a ≠ Some (TAbort AbortOnce n err)) ∧ (∀ trigger reason, coord s ≠ CAbort AbortOnce trigger reason).
Proof using Type.
  intros Hin Hst Hw. assert (Hno : abortOnce s ≠ OnceRunning).
  { intros Ho. pose proof (in_once s Hin) as Hon. unfold once_ok in Hon. rewrite Ho in Hon. destruct Hon as [Hc|(a & t & Ht & Hi)].
    - destruct (stuck_coord s Hst (sf_coord _ _ (in_safe s Hin))) as [E|[[E _]|[(tr & r & E) _]]]; by rewrite E in Hc.
    - destruct (stuck_thread s a t (in_runs s Hin) Hst Ht (Hw a) (sf_threads _ _ (in_safe s Hin) a t Ht))
        as [->|[(_ & d & rest & -> & _)|[(_ & (n & ->) & _)|[(n & err & ->) _]]]]; done. }
  split.
  - intros a n err Ht. destruct (stuck_thread s a _ (in_runs s Hin) Hst Ht (Hw a) (sf_threads _ _ (in_safe s Hin) a _ Ht))
      as [E|[(_ & d & rest & E & _)|[(_ & (m & E) & _)|[_ E]]]]; done.
  - intros tr r Hc. destruct (stuck_coord s Hst (sf_coord _ _ (in_safe s Hin))) as [E|[[E _]|[_ E]]]; [congruence..|done].
Qed.

(** After the end of the context everything ends. *)
Lemma stuck_cancelled s :
  invariant s → stuck s → (∀ a, ¬ working s a) → cancelled s = true → all_done s.
Proof using Type.
  intros Hin Hst Hw Hcan. destruct (stuck_not_aborting s Hin Hst Hw) as [Hna Hnc].
  assert (Hth : ∀ a t, threads s !! a = Some t → t = TReturned).
  { intros a t Ht. destruct (stuck_thread s a t (in_runs s Hin) Hst Ht (Hw a) (sf_threads _ _ (in_safe s Hin) a t Ht))
      as [E|[(E & _)|[(E & _)|[(n & err & ->) _]]]]; [done|congruence..|by destruct (Hna a n err)]. }
  assert (Hco : coord s = CReturned).
  { destruct (stuck_coord s Hst (sf_coord _ _ (in_safe s Hin))) as [E|[(_ & E & _)|[(tr & r & E) _]]]; [done|congruence|by destruct (Hnc tr r)]. }
  assert (Hk : waiter s = KClosed).
  { specialize (Hst LWaiter eq_refl). cbn in Hst. unfold waiter_step in Hst. destruct (waiter s); [| | |done].
    - destruct (decide _) as [|Hall]; [done|]. destruct Hall. intros a t Ht. by rewrite (Hth a t Ht).
    - by rewrite Hco in Hst.
    - done. }
  split_and!; [done|done|by apply (sf_end _ _ (in_safe s Hin))|].
  specialize (Hst LConsume eq_refl). cbn in Hst. by destruct (events s).
Qed.

Hypothesis deps_declared : ∀ a b, depends (deps c) a b ↔ declared (specs c) a b.
Hypothesis declared_known : ∀ a b, declared (specs c) a b → is_component c b.
Hypothesis acyclic : ∀ a b, declared (specs c) a b → ¬ rtc (declared (specs c)) b a.

Lemma declared_wf a : sn (declared (specs c)) a.
Proof using declared_known acyclic.
  apply tc_finite_sn.
  - assert (Hfirst : ∀ x y, tc (declared (specs c)) x y → ∃ d, declared (specs c) x d ∧ rtc (declared (specs c)) d y).
    { intros x y [x' d Hxd|x' d e Hxd Hde]; exists d; (split; [done|]); [done|by apply tc_rtc]. }
    intros b (d & Hd & Hr)%Hfirst. by apply (acyclic b d).
  - exists (Name <$> specs c). intros b Hb. destruct Hb as [b d Hbd|b d e Hbd Hde]; [by eapply declared_known|].
    apply tc_rtc, rtc_inv_r in Hde as [<-|(x & _ & Hx)]; [by eapply declared_known|by eapply declared_known].
Qed.

(** A component that waits for its dependencies leads to one that waits for a
    retry, and that some component which was never tried depends on. *)
Lemma waiting_chain s a d rest :
  invariant s → stuck s → (∀ a, ¬ working s a) → ¬ ending s → threads s !! a = Some (TDeps (d :: rest)) →
  ∃ x y n, threads s !! x = Some (TAwaitRetry n) ∧ ph s y = Some phasePending ∧ depends (deps c) y x.
Proof using deps_declared declared_known acyclic names_unique.
  intros Hin Hst Hw He. pose proof (in_live s Hin He) as Hl. pose proof (not_ending_cancelled s He) as Hcan.
  destruct (stuck_not_aborting s Hin Hst Hw) as [Hna _]. revert d rest.
  induction (declared_wf a) as [a _ IH]. intros d rest Ha.
  destruct (stuck_thread s a _ (in_runs s Hin) Hst Ha (Hw a) (sf_threads _ _ (in_safe s Hin) a _ Ha))
    as [E|[(_ & d' & rest' & [= <- <-] & Hd)|[(_ & (m & E) & _)|[(m & err & E) _]]]]; [done| |done..].
  assert (Had : declared (specs c) a d).
  { destruct (ok_wait _ _ _ _ (sf_threads _ _ (in_safe s Hin) a _ Ha)) as (spec & pre & Hsp & Hname & Hds & _).
    exists spec. split_and!; [done..|]. rewrite Hds. apply elem_of_app. by right; left. }
  destruct (proj2 (sf_thread_names _ _ (in_safe s Hin) d) (declared_known a d Had)) as [t Ht].
  destruct (stuck_thread s d t (in_runs s Hin) Hst Ht (Hw d) (sf_threads _ _ (in_safe s Hin) d t Ht))
    as [->|[(_ & d' & rest' & -> & _)|[(_ & (m & ->) & _)|[(m & err & ->) _]]]].
  - by destruct (lv_place s Hl d _ Ht) as [? _].
  - by eapply IH.
  - exists d, a, m. split_and!; [done|exact (lv_place s Hl a _ Ha)|by apply deps_declared].
  - by destruct (Hna d m err).
Qed.

Lemma stuck_done s : invariant s → stuck s → (∀ a, ¬ working s a) → all_done s.
Proof using deps_declared declared_known acyclic names_unique.
  intros Hin Hst Hw. destruct (cancelled s) eqn:Hcan; [by apply stuck_cancelled|]. exfalso.
  destruct (stuck_not_aborting s Hin Hst Hw) as [Hna Hnc].
  destruct (stuck_coord s Hst (sf_coord _ _ (in_safe s Hin))) as [E|[(Hco & _ & Hf & Hov)|[(tr & r & E) _]]];
    [by rewrite (sf_returned _ _ (in_safe s Hin) E) in Hcan| |by destruct (Hnc tr r)].
  assert (Hth : ∀ a t, threads s !! a = Some t →
    t = TReturned ∨ (∃ d rest, t = TDeps (d :: rest)) ∨ ((∃ n, t = TAwaitRetry n) ∧ ∀ r ch, retryChs s !! a ≠ Some (r :: ch))).
  { intros a t Ht. destruct (stuck_thread s a t (in_runs s Hin) Hst Ht (Hw a) (sf_threads _ _ (in_safe s Hin) a t Ht))
      as [E|[(_ & d & rest & E & _)|[(_ & E & Hr)|[(n & err & ->) _]]]]; [by left|right; left; eauto|by right; right|].
    by destruct (Hna a n err). }
  assert (He : ¬ ending s).
  { intros [?|[Ho|[Hab|(a & t & Ht & Hg)]]]; [congruence|rewrite Hov in Ho; by destruct Ho|by rewrite Hco in Hab|].
    destruct (Hth a t Ht) as [->|[(d & rest & ->)|[(n & ->) _]]]; done. }
  pose proof (in_live s Hin He) as Hl.
  assert (Hq : ∀ f, ¬ queued s f) by (intros f [Hq|Hq]; [rewrite Hf in Hq; by apply not_elem_of_nil in Hq|congruence]).
  (* No component waits for a retry: it would be stranded, and the chain from the one that is left leads to a contradiction. *)
  assert (Hnw : ∀ x n, threads s !! x = Some (TAwaitRetry n) → stranded s x).
  { intros x n Hx. destruct (lv_place s Hl x _ Hx) as [_ [[(f & Hf' & _)|[[m Hm]|[(r & ch & Hr)|(p & t & f & Ht & Hfp & _)]]]|?]];
      [by destruct (Hq f)|congruence| | |done].
    - destruct (Hth x _ Hx) as [?|[(d & rest & ?)|[_ Hnr]]]; [done..|by destruct (Hnr r ch)].
    - destruct (Hth p t Ht) as [->|[(d & rest & ->)|[(m & ->) _]]]; by apply not_elem_of_nil in Hfp. }
  assert (Hchain : ∀ x n, threads s !! x = Some (TAwaitRetry n) → False).
  { intros x n Hx. destruct (Hnw x n Hx) as (_ & _ & _ & p & Hpx & Hp).
    assert (Hpc : is_Some (threads s !! p)).
    { apply (sf_thread_names _ _ (in_safe s Hin)), (sf_state_names _ _ (in_safe s Hin)).
      apply ph_Some in Hp as (st & Hst' & _). by eexists. }
    destruct Hpc as [t Ht]. pose proof (lv_place s Hl p t Ht) as Hpl.
    destruct (Hth p t Ht) as [->|[(d & rest & ->)|[(m & ->) _]]].
    - by destruct Hpl.
    - destruct (waiting_chain s p d rest Hin Hst Hw He Ht) as (x' & y & n' & Hx' & Hy & Hyx).
      destruct (Hnw x' n' Hx') as (_ & _ & Hnd & _). by apply (Hnd y).
    - destruct (proj1 Hpl Hp) as (f & Hf' & _). by apply (Hq f). }
  assert (Hnd : ∀ a d rest, threads s !! a ≠ Some (TDeps (d :: rest))).
  { intros a d rest Ha. destruct (waiting_chain s a d rest Hin Hst Hw He Ha) as (x & y & n & Hx & _). by apply (Hchain x n). }
  specialize (Hst LWaiter eq_refl). cbn in Hst. unfold waiter_step in Hst.
  assert (Hk : waiter s = KWait).
  { destruct (waiter s) eqn:Hk; [done|..]; exfalso;
      (destruct (sf_waiter _ _ (in_safe s Hin)) as [Hc _]; [by rewrite Hk|congruence]). }
  rewrite Hk in Hst. destruct (decide _) as [|Hall]; [done|]. apply Hall. intros a t Ht.
  destruct (Hth a t Ht) as [->|[(d & rest & ->)|[(n & ->) _]]]; [done|by destruct (Hnd a d rest)|by destruct (Hchain a n)].
Qed.
End progress.

(** C15. Startup never gets stuck.  In a configuration that [New] accepts,
    however the goroutines interleave and whatever attempts fail, the protocol
    only stops when no component is at work and everything has ended: as long
    as some goroutine has not returned, or an event has not been delivered, one
    of the goroutines can go on, or a component's run is in progress.  In
    particular a component that failed is told to retry, or the start is
    aborted. *)
Theorem startup_progress `{MapRange} (o : Options) (sp : list Spec) (c : Coordinator) (s : St) :
  New o sp = Some (Ok c) → (MaxRetries o < max_int64)%Z → reachable_state c s →
  (∀ l, environment l = false → exec c l s = None) →
  (∃ a, working s a) ∨ all_done s.
Proof.
  intros Hnew Hmax Hs Hst.
  pose proof (New_result o sp) as Hr. rewrite Hnew in Hr. destruct Hr as ([_ _ Hnd Hknown Hac] & <- & Hdecl & _ & Hpos).
  pose proof (startup_reachable_inv c (Hpos Hmax) Hnd s Hs) as Hin.
  destruct (decide (Exists (working s) (Name <$> specs c))) as [Hw|Hw].
  - apply Exists_exists in Hw as (a & _ & Ha). left. by exists a.
  - right. apply (stuck_done c Hnd Hdecl (λ a b Hab, proj2 (Hknown a b Hab)) Hac s Hin Hst). intros a Ha. apply Hw, Exists_exists.
    exists a. split; [|done]. apply (sf_thread_names _ _ (in_safe _ _ Hin)). unfold working in Ha.
    by destruct (threads s !! a).
Qed.

(** The daemon is at work, and the terminal waits for it: nobody can go on. *)
Module LiveExample.
Definition waiting : St :=
  goto "daemon" (TSelect 1) (set_runs {["daemon" := mk_attempt_run false None]} (initial StartupExample.coordinator)).
End LiveExample.

Lemma waiting_stuck l :
  environment l = false → exec (H := elements_range) StartupExample.coordinator l LiveExample.waiting = None.
Proof.
  destruct l as [a alt|[]| | | | |]; try done; intros _.
  cbn [exec]. destruct (decide (a = "daemon")) as [->|Hd]; [by destruct alt|].
  destruct (decide (a = "pty")) as [->|Hp]; [by destruct alt|].
  assert (threads LiveExample.waiting !! a = None) as ->; [|done].
  unfold LiveExample.waiting, goto. cbn. by rewrite !lookup_insert_ne by done.
Qed.

Lemma startup_progress_witness : (∃ a, working LiveExample.waiting a) ∨ all_done LiveExample.waiting.
Proof.
  apply (startup_progress (H := elements_range) _ _ _ _ StartupExample_accepted eq_refl); [|exact waiting_stuck].
  apply (run_reachable [StartupExample.daemon]). vm_compute. reflexivity.
Defined.
