(* ===== verification/StartupEvents.v ===== *)
(** * Starting components: the events (pkg/startup)

    What the caller of [Run] receives over the channel of events, in the
    executions of StartupRun. *)
From S2P Require Import Prelude Startup StartupRun.
From stdpp Require Import options.

#[export] Instance EventKind_eq_dec : EqDecision EventKind.
Proof. solve_decision. Defined.

(** The kinds of the events of a component, but for the abort. *)
Definition about (a : Component) (e : Event) : Prop := e_Component e = a ∧ e_Kind e ≠ KindAborted.
#[export] Instance about_dec a e : Decision (about a e).
Proof. unfold about. apply _. Defined.
Definition kinds (a : Component) (es : list Event) : list EventKind := e_Kind <$> filter (about a) es.

#[local] Arguments kinds : simpl never.

Lemma kinds_app a es1 es2 : kinds a (es1 ++ es2) = kinds a es1 ++ kinds a es2.
Proof. unfold kinds. by rewrite filter_app, fmap_app. Qed.

Lemma kinds_one a e : kinds a [e] = if decide (about a e) then [e_Kind e] else [].
Proof. unfold kinds. rewrite filter_cons. by case_decide. Qed.

(** What a component's goroutine has told when it is at [t]. *)
Definition told (t : thread) (ks : list EventKind) : Prop :=
  match t with
  | TRetryPeers _ _ | TWaitRun _ | TExitedEvent _ _ => ks = [KindStarted]
  | TAbort _ _ _ => ks = [KindGaveUp]
  | TReturned => ks = [] ∨ ks = [KindStarted; KindExited] ∨ ks = [KindGaveUp]
  | TPanic => True
  | _ => ks = []
  end.

Section events.
Context `{MapRange} (c : Coordinator).

(** A run with what the caller has received so far. *)
Definition traced_step (x y : St * list Event) : Prop :=
  ∃ l, exec c l (fst x) = Some (fst y) ∧
    match l with
    | LConsume => ∃ e, events (fst x) = e :: events (fst y) ∧ snd y = snd x ++ [e]
    | _ => snd y = snd x
    end.
Definition traced_init (x : St * list Event) : Prop := x = (initial c, []).
Definition traced : St * list Event → Prop := reachable traced_init traced_step.

Lemma traced_reachable s es : traced (s, es) → reachable_state c s.
Proof.
  intros Ht. enough (Hgen : ∀ x, traced x → reachable_state c (fst x)) by exact (Hgen (s, es) Ht).
  apply reachable_invariant; [intros x ->; by apply reachable_init|].
  intros x y Hx (l & Hl & _). eapply reachable_step; [exact Hx|by exists l].
Qed.

Lemma start_attempt_told name n s :
  ∃ t', threads (start_attempt c name n s) = <[name := t']> (threads s) ∧ events (start_attempt c name n s) = events s ∧ told t' [].
Proof. unfold start_attempt. destruct (decide _); cbn; eexists; split_and!; try done. by left. Qed.

Lemma publishRetry_same to n s : events (publishRetry to n s) = events s ∧ threads (publishRetry to n s) = threads s.
Proof. destruct (publishRetry_cases to n s) as [ [_ ->]|[(ch & _ & ->)|(_ & o & ->)] ]; done. Qed.

Lemma onFailed_same f s : events (onFailed f s) = events s ∧ threads (onFailed f s) = threads s.
Proof. destruct (onFailed_cases f s) as [-> |[o ->] ]; done. Qed.

(** Going on from [t], with one event of the component or none. *)
Definition tells (name : Component) (t : thread) (s s' : St) : Prop :=
  ∃ t' new, threads s' = <[name := t']> (threads s) ∧ events s' = events s ++ new ∧
    (∀ a, a ≠ name → kinds a new = []) ∧ (∀ ks, told t ks → told t' (ks ++ kinds name new)).

Lemma tells_nothing name t t' s s' :
  threads s' = <[name := t']> (threads s) → events s' = events s → (∀ ks, told t ks → told t' ks) → tells name t s s'.
Proof. intros H1 H2 H3. exists t', []. split_and!; [done|by rewrite app_nil_r|done|]. intros ks. rewrite app_nil_r. apply H3. Qed.

Lemma tells_event name t t' k n err s s' :
  k ≠ KindAborted → send_event (mk_Event name k n err) (goto name TPanic) (goto name t') s = Some s' →
  (∀ ks, told t ks → told t' (ks ++ [k])) → tells name t s s'.
Proof.
  intros Hk [ [_ ->]|[_ ->] ]%send_event_cases Ht; [by apply (tells_nothing _ _ TPanic)|].
  exists t', [mk_Event name k n err]. split_and!; [done..| |].
  - intros a Ha. rewrite kinds_one, decide_False; [done|]. intros [Hn _]. by destruct Ha.
  - intros ks Hks. rewrite kinds_one, decide_True by done. by apply Ht.
Qed.

Lemma kinds_aborted a name err : kinds a [mk_Event name KindAborted 0 err] = [].
Proof. rewrite kinds_one, decide_False; [done|]. by intros [_ Hk]. Qed.

Lemma thread_step_tells name alt t s s' : thread_step c name alt t s = Some s' → tells name t s s'.
Proof.
  destruct t; cbn [thread_step]; intros Hstep.
  - destruct rest as [|dep rest], alt; try done.
    + injection Hstep as <-. destruct (start_attempt_told name 1 s) as (t' & Ht & He & Hk). by apply (tells_nothing _ _ t'); [..|intros ks ->].
    + destruct (cancelled s); [|done]. injection Hstep as <-. apply (tells_nothing _ _ TReturned); [done..|]. by left.
    + case_decide; [|done]. injection Hstep as <-. by apply (tells_nothing _ _ (TDeps rest)).
  - destruct (runs s !! name) as [r|]; [|done]. cbn in Hstep. destruct alt.
    + destruct (returned r) as [err|]; [|done]. destruct (ready r); injection Hstep as <-; by eapply tells_nothing.
    + destruct (ready r); [|done]. injection Hstep as <-. by eapply tells_nothing.
  - injection Hstep as <-. by eapply tells_nothing.
  - destruct already; [|case_decide]; injection Hstep as <-; by eapply tells_nothing.
  - eapply tells_event; [|exact Hstep|]; [done|by intros ks ->].
  - destruct pending as [|f rest]; injection Hstep as <-; [by eapply tells_nothing|].
    case_decide; [|by eapply tells_nothing]. destruct (publishRetry_same (f_Component f) (f_Attempt f + 1) s) as [He Ht].
    eapply tells_nothing; [cbn; by rewrite Ht|done|done].
  - destruct (runs s !! name) as [r|]; [|done]. cbn in Hstep. destruct (returned r); [|done]. injection Hstep as <-. by eapply tells_nothing.
  - eapply tells_event; [|exact Hstep|]; [done|intros ks ->; by right; left].
  - destruct (cancelled s); injection Hstep as <-; eapply tells_nothing; try done. by left.
  - destruct (onFailed_same (mk_Failure name n err) s) as [He Ht]. injection Hstep as <-.
    case_decide; (eapply tells_nothing; [cbn; by rewrite Ht|done|done]).
  - injection Hstep as <-. by eapply tells_nothing.
  - eapply tells_event; [|exact Hstep|]; [done|by intros ks ->].
  - apply abort_cases in Hstep as [(_ & _ & ->)|[(_ & _ & ->)|[(_ & _ & ->)|[(_ & _ & ->)|(_ & ->)] ] ] ].
    1, 2, 3, 5: eapply tells_nothing; try done; intros ks ->; by right; right.
    eexists _, [_]. split_and!; [done|reflexivity|intros; apply kinds_aborted|]. intros ks ->. by rewrite kinds_aborted.
  - destruct alt; [destruct (cancelled s); [|done]; injection Hstep as <-; eapply tells_nothing; try done; by left|].
    destruct (retryChs s !! name) as [ [|r ch]|]; [done| |done]. injection Hstep as <-. by eapply tells_nothing.
  - destruct alt; [destruct (_ && _); [|done]; injection Hstep as <-; eapply tells_nothing; try done; by left|].
    injection Hstep as <-. destruct (start_attempt_told name (n + 1) s) as (t' & Ht & He & Hk). by apply (tells_nothing _ _ t'); [..|intros ks ->].
  - done.
  - done.
Qed.

Lemma onFailure_same f s : events (onFailure c f s) = events s ∧ threads (onFailure c f s) = threads s.
Proof.
  unfold onFailure. destruct (peerSummaryLocked _ _) as [ps down]. by repeat (case_match; try done); case_decide.
Qed.

(** The coordinator tells nothing but the abort. *)
Lemma coord_step_quiet b s s' :
  coord_step c b s = Some s' → threads s' = threads s ∧ ∃ new, events s' = events s ++ new ∧ ∀ a, kinds a new = [].
Proof.
  assert (Hsame : ∀ s', threads s' = threads s → events s' = events s →
    threads s' = threads s ∧ ∃ new, events s' = events s ++ new ∧ ∀ a, kinds a new = []).
  { intros s1 H1 H2. split; [done|]. exists []. by rewrite app_nil_r. }
  unfold coord_step. destruct (coord s) as [|f|to n|pc trigger reason| |]; [destruct b| | | |done..].
  - destruct (cancelled s); [|done]. intros [= <-]. by apply Hsame.
  - destruct (failCh s); [done|]. intros [= <-]. by apply Hsame.
  - destruct (overflowCh s); [|done]. intros [= <-]. by apply Hsame.
  - intros [= <-]. destruct (onFailure_same f s). by apply Hsame.
  - intros [= <-]. destruct (publishRetry_same to n s). by apply Hsame.
  - intros [(_ & _ & ->)|[(_ & _ & ->)|[(_ & _ & ->)|[(_ & _ & ->)|(_ & ->)] ] ] ]%abort_cases; try by apply Hsame.
    split; [done|]. eexists [_]. split; [reflexivity|]. intros a. apply kinds_aborted.
Qed.

Definition all_told (x : St * list Event) : Prop :=
  ∀ a, match threads (fst x) !! a with
       | Some t => told t (kinds a (snd x ++ events (fst x)))
       | None => kinds a (snd x ++ events (fst x)) = []
       end.

Lemma all_told_more s s' es new :
  all_told (s, es) → threads s' = threads s → events s' = events s ++ new → (∀ a, kinds a new = []) → all_told (s', es).
Proof.
  intros Hi Ht He Hn a. specialize (Hi a). cbn in *. rewrite Ht, He, app_assoc, kinds_app, Hn, app_nil_r. exact Hi.
Qed.

Lemma all_told_same s s' es : all_told (s, es) → threads s' = threads s → events s' = events s → all_told (s', es).
Proof. intros Hi Ht He. apply (all_told_more s s' es []); [done|done|by rewrite app_nil_r|done]. Qed.

Lemma traced_all_told x : traced x → all_told x.
Proof.
  apply reachable_invariant.
  - intros ? -> a. cbn. destruct (per_component c _ !! a) as [t|] eqn:Ht; [|done].
    apply elem_of_list_to_map_2, list_elem_of_fmap in Ht as (spec & [= -> ->] & _). done.
  - intros [s es] [s' es'] Hi (l & Hl & Hes). cbn in Hl, Hes. destruct l as [name alt|b| | |name|name err|]; cbn in Hl.
    + subst es'. destruct (threads s !! name) as [t|] eqn:Hn; [|done]. cbn in Hl.
      apply thread_step_tells in Hl as (t' & new & Ht & He & Hother & Hk). intros a. specialize (Hi a). cbn in *. rewrite Ht, He, app_assoc, kinds_app.
      destruct (decide (name = a)) as [<-|Hne]; [rewrite lookup_insert_eq|rewrite lookup_insert_ne by done].
      * rewrite Hn in Hi. by apply Hk.
      * rewrite Hother by done. by rewrite app_nil_r.
    + subst es'. apply coord_step_quiet in Hl as (Ht & new & He & Hk). by eapply all_told_more.
    + subst es'. unfold waiter_step in Hl. repeat (case_match; simplify_eq/=); by eapply all_told_same.
    + destruct Hes as (e & He & ->). rewrite He in Hl. injection Hl as <-. intros a. specialize (Hi a). cbn in *.
      rewrite He in Hi. by rewrite <-app_assoc.
    + subst es'. destruct (runs s !! name); [|done]. injection Hl as <-. by eapply all_told_same.
    + subst es'. destruct (runs s !! name) as [r|]; [|done]. cbn in Hl. destruct (returned r); [done|]. injection Hl as <-. by eapply all_told_same.
    + subst es'. injection Hl as <-. by eapply all_told_same.
Qed.
End events.

(** What was said of a component when the events have ended. *)
Definition story (ks : list EventKind) : Prop := ks = [] ∨ ks = [KindStarted; KindExited] ∨ ks = [KindGaveUp].

Lemma story_of `{MapRange} o sp c s es a :
  New o sp = Some (Ok c) → traced c (s, es) → events_closed s = true → events s = [] →
  story (kinds a es) ∧ (kinds a es ≠ [] → a ∈ Name <$> sp).
Proof.
  intros [<- Hnd]%New_names_unique Ht Hc He. pose proof (traced_all_told c _ Ht a) as Hi. cbn in Hi.
  apply traced_reachable, reachable_safe in Ht; [|done]. rewrite He, app_nil_r in Hi.
  destruct (threads s !! a) as [t|] eqn:Hth.
  - assert (t = TReturned) as -> by (eapply (sf_waiter _ _ Ht); [by rewrite (sf_closed _ _ Ht Hc)|exact Hth]).
    split; [exact Hi|]. intros _. apply (sf_thread_names _ _ Ht). by eexists.
  - rewrite Hi. split; [by left|done].
Qed.

(** The events of a run.  Whatever happens, the caller is told of a component
    that it has started before it is told that it has exited, of each at most
    once, or that it was given up, and then neither; once the channel of events
    is closed and read to its end, every component that has started has exited. *)
Theorem startup_events `{MapRange} (o : Options) (sp : list Spec) (c : Coordinator) (s : St) (es : list Event) (a : Component) :
  New o sp = Some (Ok c) → traced c (s, es) →
  (kinds a es `prefix_of` [KindStarted; KindExited] ∨ kinds a es `prefix_of` [KindGaveUp]) ∧
  (events_closed s = true → events s = [] → story (kinds a es)).
Proof.
  intros Hnew Ht. split; [|intros Hc He; by apply (story_of o sp c s es a)].
  pose proof (traced_all_told c _ Ht a) as Hi. cbn in Hi. rewrite kinds_app in Hi.
  apply traced_reachable, reachable_safe in Ht; [|by eapply New_names_unique].
  assert (Hpre : kinds a es `prefix_of` kinds a es ++ kinds a (events s)) by by eexists.
  destruct (threads s !! a) as [t|] eqn:Hth.
  - destruct (sf_threads _ _ Ht _ _ Hth) as [Hst _ _]. destruct t; cbn in Hi, Hst; try done; try destruct Hi as [Hi|[Hi|Hi] ];
      rewrite Hi in Hpre; first [by left; trans ([] : list EventKind); [|apply prefix_nil] | by left | by left; trans [KindStarted]; [|by eexists] | by right].
  - rewrite Hi in Hpre. left. trans ([] : list EventKind); [done|apply prefix_nil].
Qed.

(** ** Example: both components run and end *)

Definition exec_traced `{MapRange} (c : Coordinator) (l : label) (x : St * list Event) : option (St * list Event) :=
  s' ← exec c l (fst x);
  Some (s', match l, events (fst x) with LConsume, e :: _ => snd x ++ [e] | _, _ => snd x end).

Definition run_traced `{MapRange} (c : Coordinator) (ls : list label) : option (St * list Event) :=
  foldl (λ x l, x ← x; exec_traced c l x) (Some (initial c, [])) ls.

Lemma run_traced_reachable `{MapRange} c ls x : run_traced c ls = Some x → traced c x.
Proof.
  unfold run_traced. revert x. induction ls as [|l ls IH] using rev_ind; cbn.
  - intros x [= <-]. by apply reachable_init.
  - intros x. rewrite foldl_app. cbn. destruct (foldl _ _ ls) as [y|]; [|done]. cbn. unfold exec_traced.
    destruct (exec c l (fst y)) as [s'|] eqn:Hl; [|done]. intros [= <-]. eapply reachable_step; [by apply IH|]. exists l. split; [done|].
    destruct l; try done. cbn in Hl. destruct (events (fst y)) as [|e es] eqn:He; [done|]. injection Hl as <-. by exists e.
Qed.

Module EventsExample.
Import StartupExample.
Definition completes : list label :=
  recovers ++ [LReturn "pty" (Some "exit 2"); pty; pty; LCancel; LReturn "daemon" None; daemon; daemon;
               LWaiter; LCoord OnDone; LWaiter; LWaiter] ++ replicate 4 LConsume.

Definition outcome : list Event :=
  [mk_Event "daemon" KindStarted 2 None; mk_Event "pty" KindStarted 1 None;
   mk_Event "pty" KindExited 1 (Some (RunErr "exit 2")); mk_Event "daemon" KindExited 2 None].
End EventsExample.

Lemma completes_run :
  ∃ s, run_traced (H := elements_range) StartupExample.coordinator EventsExample.completes = Some (s, EventsExample.outcome) ∧
    events_closed s = true ∧ events s = [].
Proof.
  assert (Hb : match run_traced (H := elements_range) StartupExample.coordinator EventsExample.completes with
    | Some (s, es) => (es, events_closed s, events s) = (EventsExample.outcome, true, []) | None => False end)
    by (vm_compute; reflexivity).
  destruct (run_traced _ _) as [ [s es]|]; [|destruct Hb]. injection Hb as -> Hc He. exists s. by split.
Qed.

Lemma startup_events_witness :
  ∃ s, traced (H := elements_range) StartupExample.coordinator (s, EventsExample.outcome) ∧ story (kinds "pty" EventsExample.outcome).
Proof.
  destruct completes_run as (s & Hrun & Hc & He). apply run_traced_reachable in Hrun. exists s. split; [exact Hrun|].
  exact (proj2 (startup_events (H := elements_range) _ _ _ s _ "pty" StartupExample_accepted Hrun) Hc He).
Defined.
