(* ===== verification/Supervise.v ===== *)
(** * The entry of the client (app/rclaude/supervise.go, main.go)

    [rclaude] starts the daemon and the terminal with the coordinator of
    StartupRun and supervises its events: they become the status lines on the
    terminal and the exit code of the process.  Logging is left out. *)
From S2P Require Import Prelude GoPath Startup StartupRun StartupEvents.
From S2P Require PtyAttach PtyClient PtyService PtyClientFlow.
From stdpp Require Import options.

Definition ComponentDaemon : Component := "daemon".
Definition ComponentPTY : Component := "pty".

Definition daemonSpec : Spec := mk_Spec ComponentDaemon [].
Definition ptySpec : Spec := mk_Spec ComponentPTY [ComponentDaemon].

Definition DefaultStartupMaxRetries : Z := 3.
Definition DefaultStartupRetryDelay : Z := 5000000000.

(** The options that [runCoordinated] gives to [New]. *)
Definition startup_options : Options := mk_Options true DefaultStartupMaxRetries DefaultStartupRetryDelay.

(** An [*ptyattach.ExitError]. *)
Record exit_error : Type := mk_exit_error { Code : Z; Message : string; Quiet : bool }.

Inductive error : Type :=
  | errStartupFailed
  | errRunFailed
  | ErrExit (err : exit_error)
  | ErrBootstrap (text : string).               (* the configuration, the logger, the coordinator *)

(** [errors.As] with an [*ExitError], through the errors that wrap others. *)
Fixpoint attach_exit (err : PtyAttach.error) : option exit_error :=
  match err with
  | PtyAttach.ExitError code message quiet => Some (mk_exit_error code message quiet)
  | PtyAttach.ErrJoined err _ => attach_exit err
  | _ => None
  end.

(** [out]: the status lines that were printed. *)
Record supervisor : Type := mk_supervisor {
  out : list (Component * bool);
  cancelled : bool;
  s_started : gset Component;
  failed : gset Component;
  ptyExit : option run_error;
  ptyDone : bool;
  daemonFatal : bool;
}.
Definition new_supervisor : supervisor := mk_supervisor [] false ∅ ∅ None false false.

Definition status_line (line : Component * bool) : string :=
  fst line +:+ " " +:+ (if snd line then "started" else "start failed") +:+ String "013" (String "010" "").

Definition printStatus (component : Component) (ok : bool) (s : supervisor) : supervisor :=
  mk_supervisor (out s ++ [(component, ok)]) (cancelled s) (s_started s) (failed s) (ptyExit s) (ptyDone s) (daemonFatal s).

Definition cancel (s : supervisor) : supervisor :=
  mk_supervisor (out s) true (s_started s) (failed s) (ptyExit s) (ptyDone s) (daemonFatal s).

Definition markFailed (component : Component) (s : supervisor) : supervisor :=
  if bool_decide (component ∈ failed s) || bool_decide (component ∈ s_started s) then s
  else printStatus component false
    (mk_supervisor (out s) (cancelled s) (s_started s) ({[component]} ∪ failed s) (ptyExit s) (ptyDone s) (daemonFatal s)).

Definition onExited (event : Event) (s : supervisor) : supervisor :=
  if decide (e_Component event = ComponentPTY)
  then cancel (mk_supervisor (out s) (cancelled s) (s_started s) (failed s) (e_Err event) true (daemonFatal s))
  else match e_Err event with
       | Some _ => cancel (mk_supervisor (out s) (cancelled s) (s_started s) (failed s) (ptyExit s) (ptyDone s) true)
       | None => s
       end.

Definition handle (s : supervisor) (event : Event) : supervisor :=
  match e_Kind event with
  | KindStarted =>
    printStatus (e_Component event) true
      (mk_supervisor (out s) (cancelled s) ({[e_Component event]} ∪ s_started s) (failed s) (ptyExit s) (ptyDone s) (daemonFatal s))
  | KindGaveUp => markFailed (e_Component event) s
  | KindAborted => cancel s
  | KindExited => onExited event s
  end.

Section supervise.
(** The error value that the text of a component's error stands for. *)
Context (value : string → PtyAttach.error).

Fixpoint as_exit (err : run_error) : option exit_error :=
  match err with
  | RunErr text => attach_exit (value text)
  | AllFailed err | GaveUpAfter _ _ err => as_exit err
  | ErrExitedBeforeReady | QueueOverflow _ => None
  end.

Definition ptyExitError (s : supervisor) : option error :=
  match ptyExit s with
  | None => None
  | Some err => Some match as_exit err with Some e => ErrExit e | None => errRunFailed end
  end.

Definition finish (s : supervisor) : supervisor * option error :=
  let s := foldl (λ s component, if decide (component ∈ s_started s) then s else markFailed component s) s [ComponentDaemon; ComponentPTY] in
  (s,
   if decide (failed s = ∅) then
     if daemonFatal s then Some errRunFailed else if ptyDone s then ptyExitError s else None
   else Some errStartupFailed).

(** Over the events that were received when their channel was closed. *)
Definition supervise (events : list Event) : supervisor * option error := finish (foldl handle new_supervisor events).

End supervise.

(** What is printed on the standard error, and the exit code of the process. *)
Definition exitOnError (err : error) : option string * Z :=
  match err with
  | ErrExit e => (None, Code e)
  | errStartupFailed | errRunFailed => (None, 1%Z)
  | ErrBootstrap text => (Some text, 1%Z)
  end.

Definition exit_code (res : option error) : Z := match res with None => 0%Z | Some err => snd (exitOnError err) end.

(** ** What the supervisor has seen *)

Definition valid (ks : list EventKind) : Prop := ks `prefix_of` [KindStarted; KindExited] ∨ ks `prefix_of` [KindGaveUp].

Definition lines (a : Component) (s : supervisor) : list (Component * bool) := filter (λ l, fst l = a) (out s).

(** The errors of the exits of a component, and of its last. *)
Definition exits (a : Component) (es : list Event) : list (option run_error) :=
  omap (λ e, if decide (e_Component e = a ∧ e_Kind e = KindExited) then Some (e_Err e) else None) es.
Definition exit_of (a : Component) (es : list Event) : option (option run_error) := last (exits a es).

(** What is said of a component: whether it has started. *)
Definition status_of (ks : list EventKind) : option bool :=
  if decide (KindStarted ∈ ks) then Some true else if decide (KindGaveUp ∈ ks) then Some false else None.

(** The status lines are those of the events, one for each component. *)
Definition sees (es : list Event) (s : supervisor) : Prop := ∀ a,
  (a ∈ s_started s ↔ status_of (kinds a es) = Some true) ∧ (a ∈ failed s ↔ status_of (kinds a es) = Some false) ∧
  lines a s = match status_of (kinds a es) with Some ok => [(a, ok)] | None => [] end.

Lemma exit_of_snoc a es e :
  exit_of a (es ++ [e]) = if decide (e_Component e = a ∧ e_Kind e = KindExited) then Some (e_Err e) else exit_of a es.
Proof. unfold exit_of, exits. rewrite omap_app, last_app. cbn. by case_decide. Qed.

Lemma valid_app a es e : valid (kinds a (es ++ [e])) → valid (kinds a es).
Proof. rewrite kinds_app. intros [Hp|Hp]; [left|right]; (etrans; [by eexists|exact Hp]). Qed.

(** A component is not said to have started twice, or to have started and to be
    given up. *)
Lemma valid_started ks : valid (ks ++ [KindStarted]) → ks = [].
Proof. intros [ [k Hk]|[k Hk] ]; destruct ks as [|x [|y [|] ] ]; try done; cbn in Hk; simplify_eq. Qed.
Lemma valid_exclusive ks : valid ks → KindStarted ∈ ks → KindGaveUp ∈ ks → False.
Proof. intros [ [k Hk]|[k Hk] ]; destruct ks as [|x [|y [|] ] ]; cbn in Hk; simplify_eq; set_solver. Qed.

Lemma lines_print a b ok s : lines a (printStatus b ok s) = lines a s ++ (if decide (b = a) then [(b, ok)] else []).
Proof. unfold lines. cbn. rewrite filter_app, filter_cons. cbn. by case_decide. Qed.

Lemma valid_gave_up ks : valid (ks ++ [KindGaveUp]) → ks = [].
Proof. intros [ [k Hk]|[k Hk] ]; destruct ks as [|x [|y [|] ] ]; try done; cbn in Hk; simplify_eq. Qed.

Lemma kinds_snoc a es e : kinds a (es ++ [e]) = kinds a es ++ (if decide (about a e) then [e_Kind e] else []).
Proof. by rewrite kinds_app, kinds_one. Qed.

Lemma elem_of_kinds_snoc k a es e : k ∈ kinds a (es ++ [e]) ↔ k ∈ kinds a es ∨ about a e ∧ k = e_Kind e.
Proof. rewrite kinds_snoc. case_decide; set_solver. Qed.

Lemma kinds_other a es e : ¬ about a e → kinds a (es ++ [e]) = kinds a es.
Proof. intros Ha. by rewrite kinds_snoc, decide_False, app_nil_r. Qed.

Lemma status_exited ks : status_of (ks ++ [KindExited]) = status_of ks.
Proof.
  assert (Hk : ∀ k, k ≠ KindExited → k ∈ ks ++ [KindExited] ↔ k ∈ ks) by set_solver.
  pose proof (Hk KindStarted ltac:(done)). pose proof (Hk KindGaveUp ltac:(done)). unfold status_of. repeat case_decide; tauto.
Qed.

Lemma new_sees : sees [] new_supervisor.
Proof. intros a. split_and!; done. Qed.

(** The status of a component is not touched by what changes neither the lines
    nor the sets. *)
Lemma sees_frame es e s s' :
  out s' = out s → s_started s' = s_started s → failed s' = failed s →
  (∀ a, status_of (kinds a (es ++ [e])) = status_of (kinds a es)) → sees es s → sees (es ++ [e]) s'.
Proof. intros Ho Hst Hf Hk Hs a. unfold lines. rewrite Ho, Hst, Hf, Hk. apply Hs. Qed.

(** A component is told of for the first time. *)
Lemma sees_first es e b k ok s s' :
  sees es s → e_Component e = b → e_Kind e = k → status_of [k] = Some ok → k ≠ KindAborted → kinds b es = [] →
  out s' = out s ++ [(b, ok)] → s_started s' = (if ok then {[b]} ∪ s_started s else s_started s) →
  failed s' = (if ok then failed s else {[b]} ∪ failed s) → sees (es ++ [e]) s'.
Proof.
  intros Hs Hb Hk Hok Ha Hn Ho Hst Hf a. unfold lines. rewrite Ho, Hst, Hf, filter_app, filter_cons. cbn [fst].
  destruct (Hs a) as (H1 & H2 & H3). unfold lines in H3. destruct (decide (b = a)) as [<-|Hab].
  - rewrite H3. rewrite Hn in *. rewrite kinds_snoc, decide_True by (split; [done|by rewrite Hk]). rewrite Hn, Hk. cbn [app].
    rewrite Hok. cbn. destruct ok; rewrite ?elem_of_union, ?elem_of_singleton, ?H1, ?H2; (split_and!; [..|done]); naive_solver.
  - rewrite kinds_other by (intros [E _]; congruence). rewrite filter_nil, app_nil_r. split_and!; [| |done].
    + destruct ok; [rewrite elem_of_union, elem_of_singleton|]; naive_solver.
    + destruct ok; [|rewrite elem_of_union, elem_of_singleton]; naive_solver.
Qed.

Lemma onExited_frame e s : out (onExited e s) = out s ∧ s_started (onExited e s) = s_started s ∧ failed (onExited e s) = failed s.
Proof. unfold onExited. case_decide; [done|]. by destruct (e_Err e). Qed.

Lemma handle_sees es e s : sees es s → (∀ a, valid (kinds a (es ++ [e]))) → sees (es ++ [e]) (handle s e).
Proof.
  intros Hs Hv. unfold handle. destruct (e_Kind e) eqn:Hk.
  - assert (Hb : kinds (e_Component e) es = []).
    { apply valid_started. specialize (Hv (e_Component e)). rewrite kinds_snoc, decide_True, Hk in Hv; [done|]. split; [done|by rewrite Hk]. }
    by eapply (sees_first _ _ (e_Component e) KindStarted true).
  - assert (Hb : kinds (e_Component e) es = []).
    { apply valid_gave_up. specialize (Hv (e_Component e)). rewrite kinds_snoc, decide_True, Hk in Hv; [done|]. split; [done|by rewrite Hk]. }
    destruct (Hs (e_Component e)) as (H1 & H2 & _). rewrite Hb in H1, H2. unfold markFailed.
    rewrite !bool_decide_false by (rewrite ?H1, ?H2; done). cbn. by eapply (sees_first _ _ (e_Component e) KindGaveUp false).
  - apply (sees_frame _ _ s); try done. intros a. rewrite kinds_other; [done|]. by intros [_ Hx].
  - destruct (onExited_frame e s) as (Ho & Hst & Hf). apply (sees_frame _ _ s); try done. intros a. rewrite kinds_snoc.
    case_decide; [rewrite Hk; apply status_exited|by rewrite app_nil_r].
Qed.

Lemma exits_length a es : length (exits a es) = length (filter (KindExited =.) (kinds a es)).
Proof.
  unfold exits, kinds. induction es as [|e es IH]; [done|]. cbn [omap list_omap]. rewrite filter_cons.
  destruct (decide (e_Component e = a ∧ e_Kind e = KindExited)) as [ [H1 H2]|Hn].
  - rewrite decide_True by (split; [done|by rewrite H2]). rewrite fmap_cons, filter_cons, decide_True by by rewrite H2. cbn. by rewrite <-IH.
  - case_decide as Ha; [|exact IH]. rewrite fmap_cons, filter_cons, decide_False; [exact IH|]. intros Hk. destruct Hn, Ha. by split.
Qed.

Lemma elem_of_exits a es e : e ∈ es → e_Component e = a → e_Kind e = KindExited → e_Err e ∈ exits a es.
Proof. intros He Ha Hk. apply list_elem_of_omap. exists e. split; [done|]. by rewrite decide_True. Qed.

(** An exit of another component than the terminal, with an error. *)
Definition fatal (e : Event) : Prop := e_Kind e = KindExited ∧ e_Component e ≠ ComponentPTY ∧ e_Err e ≠ None.

(** What the supervisor has noted of the exits. *)
Record notes (es : list Event) (s : supervisor) : Prop := {
  no_exit : ptyExit s = default None (exit_of ComponentPTY es);
  no_done : ptyDone s = true ↔ is_Some (exit_of ComponentPTY es);
  no_fatal : daemonFatal s = true ↔ Exists fatal es;
}.

Lemma notes_frame es e s s' :
  ptyExit s' = ptyExit s → ptyDone s' = ptyDone s → daemonFatal s' = daemonFatal s →
  (e_Component e = ComponentPTY → e_Kind e ≠ KindExited) → ¬ fatal e → notes es s → notes (es ++ [e]) s'.
Proof.
  intros H1 H2 H3 Hp Hf [He Hd Hx]. constructor; rewrite ?H1, ?H2, ?H3, ?exit_of_snoc, ?decide_False by tauto; [done..|].
  rewrite Hx, Exists_app, Exists_cons, Exists_nil. tauto.
Qed.

Lemma markFailed_frame a s :
  ptyExit (markFailed a s) = ptyExit s ∧ ptyDone (markFailed a s) = ptyDone s ∧ daemonFatal (markFailed a s) = daemonFatal s ∧
  s_started (markFailed a s) = s_started s.
Proof. unfold markFailed. by destruct (_ || _). Qed.

Lemma handle_notes es e s : notes es s → notes (es ++ [e]) (handle s e).
Proof.
  intros Hs. assert (Hother : ∀ s', e_Kind e ≠ KindExited → ptyExit s' = ptyExit s → ptyDone s' = ptyDone s → daemonFatal s' = daemonFatal s →
    notes (es ++ [e]) s') by (intros s' Hk H1 H2 H3; apply (notes_frame _ _ s); try done; by intros [Hx _]).
  unfold handle. destruct (e_Kind e) eqn:Hk.
  { by apply Hother; rewrite ?Hk. }
  { destruct (markFailed_frame (e_Component e) s) as (? & ? & ? & _). by apply Hother; rewrite ?Hk. }
  { by apply Hother; rewrite ?Hk. }
  unfold onExited. destruct Hs as [He Hd Hx]. destruct (decide (e_Component e = ComponentPTY)) as [Hp|Hp].
  - constructor; cbn; rewrite ?exit_of_snoc, ?decide_True by done; [done|by split|]. rewrite Hx, Exists_app, Exists_cons, Exists_nil.
    unfold fatal. tauto.
  - destruct (e_Err e) as [err|] eqn:Herr.
    + constructor; cbn; rewrite ?exit_of_snoc, ?decide_False by tauto; [done..|]. rewrite Exists_app, Exists_cons. split; [|done].
      intros _. right; left. split_and!; [done..|by rewrite Herr].
    + apply (notes_frame _ _ s); try done. by intros (_ & _ & Hf).
Qed.

Lemma supervised es : (∀ a, valid (kinds a es)) → sees es (foldl handle new_supervisor es) ∧ notes es (foldl handle new_supervisor es).
Proof.
  induction es as [|e es IH] using rev_ind; intros Hv.
  - split; [apply new_sees|]. constructor; cbn; [done|split; [done|by intros []]|]. by rewrite Exists_nil.
  - rewrite foldl_snoc. destruct IH as [IHs IHn]; [intros a; by eapply valid_app|]. split; [by apply handle_sees|by apply handle_notes].
Qed.

(** ** The end *)

(** The lines say what the sets do. *)
Definition coherent (s : supervisor) : Prop := ∀ a,
  lines a s = if decide (a ∈ s_started s) then [(a, true)] else if decide (a ∈ failed s) then [(a, false)] else [].

Lemma sees_coherent es s : sees es s → coherent s.
Proof.
  intros Hs a. destruct (Hs a) as (H1 & H2 & ->). destruct (status_of (kinds a es)) as [ []|].
  - by rewrite decide_True by by apply H1.
  - rewrite decide_False by (rewrite H1; done). by rewrite decide_True by by apply H2.
  - rewrite decide_False by (rewrite H1; done). by rewrite decide_False by (rewrite H2; done).
Qed.

(** The step of the loop of [finish]. *)
Definition settle (s : supervisor) (component : Component) : supervisor :=
  if decide (component ∈ s_started s) then s else markFailed component s.

Lemma settle_spec b s :
  coherent s → coherent (settle s b) ∧ s_started (settle s b) = s_started s ∧
  failed (settle s b) = (if decide (b ∈ s_started s) then failed s else {[b]} ∪ failed s) ∧
  (b ∈ s_started (settle s b) ∨ b ∈ failed (settle s b)).
Proof.
  intros Hc. unfold settle. destruct (decide (b ∈ s_started s)) as [Hb|Hb]; [by split_and!; try left|].
  unfold markFailed. rewrite (bool_decide_false (b ∈ s_started s)) by done. rewrite orb_false_r.
  destruct (decide (b ∈ failed s)) as [Hf|Hf].
  { rewrite bool_decide_true by done. split_and!; [done..|set_solver|by right]. }
  rewrite bool_decide_false by done. split_and!; [|done|done|right; cbn; set_solver].
  intros a. rewrite lines_print. cbn [printStatus s_started failed]. unfold coherent, lines in *. cbn [out]. rewrite Hc.
  destruct (decide (b = a)) as [<-|Hab].
  - rewrite !(decide_False (P := b ∈ s_started s)), (decide_False (P := b ∈ failed s)) by done. rewrite decide_True; [done|set_solver].
  - rewrite app_nil_r. destruct (decide (a ∈ s_started s)); [done|].
    destruct (decide (a ∈ failed s)); [rewrite decide_True by set_solver|rewrite decide_False by set_solver]; done.
Qed.

Lemma settle_notes b s :
  ptyExit (settle s b) = ptyExit s ∧ ptyDone (settle s b) = ptyDone s ∧ daemonFatal (settle s b) = daemonFatal s.
Proof. unfold settle. case_decide; [done|]. by destruct (markFailed_frame b s) as (? & ? & ? & _). Qed.

Section outcome.
Context `{MapRange} (c : Coordinator) (s : St) (es : list Event).
Hypothesis accepted : New startup_options [daemonSpec; ptySpec] = Some (Ok c).
Hypothesis run : traced c (s, es).
Hypothesis ended : events_closed s = true.
Hypothesis received : events s = [].

Lemma stories a : story (kinds a es) ∧ (kinds a es ≠ [] → a = ComponentDaemon ∨ a = ComponentPTY).
Proof using accepted run ended received.
  destruct (story_of _ _ _ _ _ a accepted run ended received) as [Hs Hk]. split; [done|]. intros Hn%Hk. cbn in Hn. set_solver.
Qed.

Lemma stories_valid a : valid (kinds a es).
Proof using accepted run ended received. destruct (stories a) as [ [-> |[-> | ->] ] _]; [left; apply prefix_nil|by left|by right]. Qed.

Lemma started_exited a : KindStarted ∈ kinds a es → ∃ err, exits a es = [err].
Proof using accepted run ended received.
  intros Hin. destruct (stories a) as [ [Hk|[Hk|Hk] ] _]; rewrite Hk in Hin; [set_solver| |set_solver].
  pose proof (exits_length a es) as Hl. rewrite Hk in Hl. cbn in Hl. destruct (exits a es) as [|x [|] ]; try done. by exists x.
Qed.

Lemma fatal_daemon : Exists fatal es → ∃ err, Some err ∈ exits ComponentDaemon es.
Proof using accepted run ended received.
  intros (e & He & Hk & Hp & Herr)%Exists_exists. destruct (e_Err e) as [err|] eqn:E; [|done]. exists err. rewrite <-E.
  apply elem_of_exits; [done| |done]. destruct (stories (e_Component e)) as [_ [?|?] ]; [|done..].
  unfold kinds. intros Hx%fmap_nil_inv. assert (He' : e ∈ filter (about (e_Component e)) es).
  { apply list_elem_of_filter. split; [|done]. split; [done|by rewrite Hk]. }
  rewrite Hx in He'. by apply not_elem_of_nil in He'.
Qed.
End outcome.

Lemma finished (sup : supervisor) :
  let s1 := foldl settle sup [ComponentDaemon; ComponentPTY] in
  coherent sup →
  coherent s1 ∧ s_started s1 = s_started sup ∧
  (∀ a, a ∈ failed s1 ↔ a ∈ failed sup ∨ (a = ComponentDaemon ∨ a = ComponentPTY) ∧ a ∉ s_started sup) ∧
  ptyExit s1 = ptyExit sup ∧ ptyDone s1 = ptyDone sup ∧ daemonFatal s1 = daemonFatal sup.
Proof.
  cbn. intros Hc. destruct (settle_spec ComponentDaemon sup Hc) as (Hc1 & Hs1 & Hf1 & _).
  destruct (settle_spec ComponentPTY (settle sup ComponentDaemon) Hc1) as (Hc2 & Hs2 & Hf2 & _).
  destruct (settle_notes ComponentDaemon sup) as (? & ? & ?). destruct (settle_notes ComponentPTY (settle sup ComponentDaemon)) as (? & ? & ?).
  split_and!; try congruence; [done|]. intros a. rewrite Hf2, Hs1, Hf1. repeat case_decide; rewrite ?elem_of_union, ?elem_of_singleton; intuition congruence.
Qed.

Lemma two_lines d p (l : list (Component * bool)) :
  d ≠ p → (∀ x, x ∈ l → fst x = d ∨ fst x = p) → l ≡ₚ filter (λ x, fst x = d) l ++ filter (λ x, fst x = p) l.
Proof.
  intros Hdp. induction l as [|x l IH]; intros Hl; [done|]. rewrite !filter_cons.
  specialize (IH ltac:(set_solver)). destruct (Hl x ltac:(set_solver)) as [E|E]; rewrite E.
  - rewrite (decide_True (P := d = d)), (decide_False (P := d = p)) by done. cbn. by constructor.
  - rewrite (decide_True (P := p = p)), (decide_False (P := p = d)) by done. rewrite <-Permutation_middle. by constructor.
Qed.

Lemma elem_of_lines a b s : (a, b) ∈ out s → lines a s ≠ [].
Proof. intros Hin Hn. assert ((a, b) ∈ lines a s) as Hx by by apply list_elem_of_filter. rewrite Hn in Hx. by apply not_elem_of_nil in Hx. Qed.

Lemma sees_started es s a : sees es s → a ∈ s_started s ↔ KindStarted ∈ kinds a es.
Proof. intros Hs. destruct (Hs a) as [-> _]. unfold status_of. repeat case_decide; naive_solver. Qed.

Lemma sees_failed es s a : sees es s → a ∈ failed s → KindGaveUp ∈ kinds a es ∧ KindStarted ∉ kinds a es.
Proof. intros Hs. destruct (Hs a) as (_ & -> & _). unfold status_of. repeat case_decide; naive_solver. Qed.

(** The lines, once both components are settled. *)
Lemma settled_lines s1 :
  coherent s1 → (∀ a, a ∈ s_started s1 ∨ a ∈ failed s1 ↔ a = ComponentDaemon ∨ a = ComponentPTY) →
  out s1 ≡ₚ [(ComponentDaemon, bool_decide (ComponentDaemon ∈ s_started s1)); (ComponentPTY, bool_decide (ComponentPTY ∈ s_started s1))].
Proof.
  intros Hc Hs. rewrite (two_lines ComponentDaemon ComponentPTY (out s1)); [|done|].
  - assert (Hl : ∀ a, a = ComponentDaemon ∨ a = ComponentPTY → lines a s1 = [(a, bool_decide (a ∈ s_started s1))]).
    { intros a Ha. rewrite Hc. case_decide as H1; [by rewrite bool_decide_true|]. rewrite bool_decide_false by done.
      rewrite decide_True; [done|]. apply Hs in Ha. tauto. }
    change (filter (λ x, fst x = ?a) (out s1)) with (lines a s1). rewrite !Hl by tauto. done.
  - intros [a b] Hin%elem_of_lines. cbn. apply Hs. rewrite Hc in Hin. repeat case_decide; tauto.
Qed.

Lemma fatal_exit es err : Some err ∈ exits ComponentDaemon es → Exists fatal es.
Proof.
  intros (e & He & Hx)%list_elem_of_omap. case_decide as Hd; [|done]. injection Hx as Hx. destruct Hd as [Ha Hk].
  apply Exists_exists. exists e. split; [done|]. split_and!; [done|by rewrite Ha|by rewrite Hx].
Qed.

(** What [finish] returns, when both components have started. *)
Definition verdict (value : string → PtyAttach.error) (es : list Event) : option error :=
  match exit_of ComponentDaemon es, exit_of ComponentPTY es with
  | Some None, Some None => None
  | Some None, Some (Some err) => Some match as_exit value err with Some e => ErrExit e | None => errRunFailed end
  | _, _ => Some errRunFailed
  end.

Lemma verdict_of_notes value es sup ed ep :
  notes es sup → exits ComponentDaemon es = [ed] → exits ComponentPTY es = [ep] →
  (Exists fatal es → ∃ err, Some err ∈ exits ComponentDaemon es) →
  (if daemonFatal sup then Some errRunFailed else if ptyDone sup then ptyExitError value sup else None) = verdict value es.
Proof.
  intros [Hexit Hdone Hfatal] Hd Hp Hf. unfold verdict, ptyExitError, exit_of in *. rewrite Hd, Hp in *. cbn in *.
  destruct ed as [err|].
  - assert (daemonFatal sup = true) as ->; [|done]. apply Hfatal, (fatal_exit es err). rewrite Hd. set_solver.
  - assert (daemonFatal sup = false) as ->.
    { destruct (daemonFatal sup); [|done]. destruct Hf as [err Hin]; [by apply Hfatal|]. apply list_elem_of_singleton in Hin. done. }
    assert (ptyDone sup = true) as -> by (apply Hdone; by eexists). rewrite Hexit. by destruct ep.
Qed.

Section verdict.
Context `{MapRange} (value : string → PtyAttach.error) (c : Coordinator) (s : St) (es : list Event).
Hypothesis accepted : New startup_options [daemonSpec; ptySpec] = Some (Ok c).
Hypothesis run : traced c (s, es).
Hypothesis ended : events_closed s = true.
Hypothesis received : events s = [].

Let seen := supervised es (stories_valid c s es accepted run ended received).

Lemma supervise_settled :
  supervise value es = finish value (foldl handle new_supervisor es) ∧
  ∃ s1, fst (supervise value es) = s1 ∧ coherent s1 ∧ s_started s1 = s_started (foldl handle new_supervisor es) ∧
    (∀ a, a ∈ failed s1 ↔ a ∈ failed (foldl handle new_supervisor es) ∨
       (a = ComponentDaemon ∨ a = ComponentPTY) ∧ a ∉ s_started (foldl handle new_supervisor es)) ∧
    snd (supervise value es) =
      if decide (failed s1 = ∅)
      then (if daemonFatal (foldl handle new_supervisor es) then Some errRunFailed
            else if ptyDone (foldl handle new_supervisor es) then ptyExitError value (foldl handle new_supervisor es) else None)
      else Some errStartupFailed.
Proof using accepted run ended received.
  destruct seen as [Hsees _]. split; [done|]. unfold supervise, finish. set (sup := foldl handle new_supervisor es) in *.
  change (foldl _ sup [ComponentDaemon; ComponentPTY]) with (foldl settle sup [ComponentDaemon; ComponentPTY]).
  destruct (finished sup (sees_coherent _ _ Hsees)) as (Hcoh & Hst & Hf & Hpe & Hpd & Hdf).
  eexists. split; [reflexivity|]. cbn [fst snd]. split_and!; [done..|]. unfold ptyExitError. by rewrite Hpe, Hpd, Hdf.
Qed.

Lemma component_names a k : k ∈ kinds a es → a = ComponentDaemon ∨ a = ComponentPTY.
Proof using accepted run ended received.
  intros Hk. apply (stories c s es accepted run ended received). intros Hn. rewrite Hn in Hk. by apply not_elem_of_nil in Hk.
Qed.

Lemma supervise_lines :
  out (fst (supervise value es)) ≡ₚ
    [(ComponentDaemon, bool_decide (KindStarted ∈ kinds ComponentDaemon es)); (ComponentPTY, bool_decide (KindStarted ∈ kinds ComponentPTY es))].
Proof using accepted run ended received.
  destruct seen as [Hsees _]. destruct supervise_settled as (_ & s1 & -> & Hcoh & Hst & Hf & _).
  assert (Hdec : ∀ a, bool_decide (KindStarted ∈ kinds a es) = bool_decide (a ∈ s_started s1)).
  { intros a. apply bool_decide_ext. rewrite Hst. symmetry. by apply sees_started. }
  rewrite !Hdec. apply settled_lines; [done|]. intros a. rewrite Hf, Hst. pose proof (component_names a KindStarted).
  pose proof (component_names a KindGaveUp). pose proof (sees_started _ _ a Hsees). pose proof (sees_failed _ _ a Hsees).
  destruct (decide (a ∈ s_started (foldl handle new_supervisor es))); tauto.
Qed.

Lemma supervise_result :
  snd (supervise value es) =
    if bool_decide (KindStarted ∈ kinds ComponentDaemon es) && bool_decide (KindStarted ∈ kinds ComponentPTY es)
    then verdict value es else Some errStartupFailed.
Proof using accepted run ended received.
  destruct seen as [Hsees Hnotes]. destruct supervise_settled as (_ & s1 & _ & _ & Hst & Hf & ->).
  assert (Hs : ∀ a, a ∈ s_started s1 ↔ KindStarted ∈ kinds a es) by (intros a; rewrite Hst; by apply sees_started).
  destruct (decide (failed s1 = ∅)) as [Hempty|Hne].
  - assert (Hboth : ∀ a, a = ComponentDaemon ∨ a = ComponentPTY → KindStarted ∈ kinds a es).
    { intros a Ha. rewrite <-Hs, Hst. destruct (decide (a ∈ s_started (foldl handle new_supervisor es))) as [?|Hn]; [done|]. exfalso.
      assert (a ∈ failed s1) as Hin by (apply Hf; right; by split). rewrite Hempty in Hin. by apply not_elem_of_empty in Hin. }
    rewrite !bool_decide_true by (apply Hboth; auto). cbn [andb].
    destruct (started_exited c s es accepted run ended received ComponentDaemon) as [ed Hd]; [apply Hboth; auto|].
    destruct (started_exited c s es accepted run ended received ComponentPTY) as [ep Hp]; [apply Hboth; auto|].
    apply (verdict_of_notes value es _ ed ep); try done. by apply (fatal_daemon c s es).
  - rewrite <-bool_decide_and, bool_decide_false; [done|]. intros [H1 H2]. apply Hne, set_eq. intros a. rewrite Hf. split; [|set_solver].
    rewrite <-Hst, Hs. intros [Hin|[ [-> | ->] Hn] ]; [|done..]. exfalso. destruct (sees_failed _ _ _ Hsees Hin) as [Hg Hns]. apply Hns.
    by destruct (component_names a _ Hg) as [-> | ->].
Qed.
End verdict.

(** C19. The supervisor's verdict.  When the coordinator's events have ended, there
    is one status line for the daemon and one for the terminal, whatever has
    happened, saying whether it has started.  If both have, the process ends
    with the exit status that the terminal's session has returned, unless the
    daemon has failed or the session's error is none, which is a failure; if
    one has not, it is a failed start. *)
Theorem supervise_outcome `{MapRange} (value : string → PtyAttach.error) (c : Coordinator) (s : St) (es : list Event) :
  New startup_options [daemonSpec; ptySpec] = Some (Ok c) → traced c (s, es) → events_closed s = true → events s = [] →
  let '(sup, res) := supervise value es in
  let has_started a := bool_decide (KindStarted ∈ kinds a es) in
  out sup ≡ₚ [(ComponentDaemon, has_started ComponentDaemon); (ComponentPTY, has_started ComponentPTY)] ∧
  res = (if has_started ComponentDaemon && has_started ComponentPTY then verdict value es else Some errStartupFailed).
Proof.
  intros Hnew Ht Hc He. rewrite (surjective_pairing (supervise value es)). cbn zeta.
  split; [by eapply supervise_lines|by eapply supervise_result].
Qed.

(** The exit code that a session's error stands for. *)
Definition session_code (err : option PtyAttach.error) : Z :=
  match err with
  | None => 0
  | Some err => match attach_exit err with Some e => Code e | None => 1 end
  end%Z.

Lemma exit_code_session `{MapRange} value c s es (err : option string) :
  New startup_options [daemonSpec; ptySpec] = Some (Ok c) → traced c (s, es) → events_closed s = true → events s = [] →
  KindStarted ∈ kinds ComponentDaemon es → KindStarted ∈ kinds ComponentPTY es →
  exit_of ComponentDaemon es = Some None → exit_of ComponentPTY es = Some (RunErr <$> err) →
  exit_code (snd (supervise value es)) = session_code (value <$> err).
Proof.
  intros Hnew Ht Hc He Hd Hp Hed Hep. rewrite (supervise_result value c s es Hnew Ht Hc He), !bool_decide_true by done.
  cbn [andb]. unfold verdict. rewrite Hed, Hep. destruct err as [text|]; [|done]. cbn. by destruct (attach_exit (value text)).
Qed.

Lemma session_code_exit `{PtyAttach.Texts} code sig :
  code ≠ 0%Z ∨ sig ≠ 0%Z → (0 ≤ sig)%Z →
  session_code (PtyAttach.exitStatusFromResult (PtyClient.mk_ExitResult code sig None None)) =
    (if decide (sig = 0) then code else 128 + sig)%Z.
Proof.
  intros Hne Hs. unfold PtyAttach.exitStatusFromResult. cbn. destruct (decide (sig = 0%Z)) as [-> |Hn].
  - rewrite decide_False by lia. rewrite decide_False; [done|]. by destruct Hne.
  - by rewrite decide_True by lia.
Qed.

Lemma session_code_zero `{PtyAttach.Texts} res :
  session_code (PtyAttach.exitStatusFromResult res) = 0%Z →
  PtyClient.ServerError res = None ∧ PtyClient.ResErr res = None ∧ PtyClient.Code res = 0%Z ∧ (PtyClient.Signal res ≤ 0)%Z.
Proof.
  unfold PtyAttach.exitStatusFromResult. destruct res as [code sig [ [k m]|] [e|] ]; cbn; intros Hc.
  1, 2: exfalso; by destruct k.
  - exfalso. destruct (PtyAttach.FromError e); [done|]. by destruct e.
  - destruct (decide (sig > 0)%Z); cbn in Hc; [lia|]. destruct (decide (code = 0%Z)); [|done]. split_and!; [done..|lia].
Qed.

(** C18. The exit code is that of the remote program.  When both components have
    started, the daemon has ended without an error, and the terminal's session
    with what the client's result stands for: the process ends with the exit
    status of the program, or 128 more than the signal that has ended it, that
    the server has reported, if either is not zero, however the client's
    goroutines have interleaved; and with the code zero only when the client
    has returned the status zero. *)
Theorem remote_exit_code `{MapRange, PtyAttach.Texts} (value : string → PtyAttach.error) (c : Coordinator) (s : St) (es : list Event)
    (cfg : PtyClient.Config) (u : PtyClient.St) (res : PtyClient.ExitResult) (err : option string) :
  New startup_options [daemonSpec; ptySpec] = Some (Ok c) → traced c (s, es) → events_closed s = true → events s = [] →
  KindStarted ∈ kinds ComponentDaemon es → KindStarted ∈ kinds ComponentPTY es →
  exit_of ComponentDaemon es = Some None → exit_of ComponentPTY es = Some (RunErr <$> err) →
  value <$> err = PtyAttach.exitStatusFromResult res →
  PtyClient.hasStream cfg = true → PtyClient.reachable_state cfg u → PtyClient.main u = PtyClient.MReturned res →
  (∀ code sig, last (tail (PtyClient.received u)) = Some (PtyClient.Payload (PtyService.SExited code sig)) →
     code ≠ 0%Z ∨ sig ≠ 0%Z → (0 ≤ sig)%Z →
     exit_code (snd (supervise value es)) = if decide (sig = 0%Z) then code else (128 + sig)%Z) ∧
  (exit_code (snd (supervise value es)) = 0%Z →
     PtyClient.ServerError res = None ∧ PtyClient.ResErr res = None ∧ PtyClient.Code res = 0%Z ∧ (PtyClient.Signal res ≤ 0)%Z).
Proof.
  intros Hnew Ht Hc He Hd Hp Hed Hep Hval Hcfg Hu Hm. rewrite (exit_code_session value c s es err) by done. rewrite Hval.
  split; [|apply session_code_zero]. intros code sig Hl Hne Hsig.
  assert (Hl2 : last (PtyClient.received u) = Some (PtyClient.Payload (PtyService.SExited code sig)) ∧ 1 < length (PtyClient.received u)).
  { destruct (PtyClient.received u) as [|f [|g fs] ]; [done..|]. cbn in *. split; [done|lia]. }
  destruct Hl2 as [Hl2 Hlen]. pose proof (PtyClientFlow.reachable_sound cfg u Hcfg Hu) as Hs.
  assert (Hout : PtyClientFlow.outcome (PtyClient.received u) = PtyClient.mk_ExitResult code sig None None)
    by (unfold PtyClientFlow.outcome; by rewrite Hl2).
  assert (res = PtyClient.mk_ExitResult code sig None None) as ->.
  { rewrite <-Hout. apply (PtyClientFlow.result_conclusive cfg); [done..| |].
    - apply PtyClientFlow.heard_accepted; [|done]. by destruct Hs.
    - rewrite Hout. unfold PtyClient.no_result. intros [= -> ->]. by destruct Hne. }
  by apply session_code_exit.
Qed.

(** ** Example: the remote program is killed *)

Module SuperviseExample.
Definition coordinator : Coordinator :=
  mk_Coordinator startup_options [daemonSpec; ptySpec] 4 {["daemon" := ∅; "pty" := {["daemon"]}]}.

(** The client is told that signal 9 has ended the program. *)
Definition killed_run : list PtyClient.label :=
  PtyClientFlow.ClientExample.attach_run ++
  [PtyClient.LRecv (Ok (PtyClient.Payload (PtyService.SExited 0 9))) None] ++
  PtyClientFlow.ClientExample.end_receiver ++
  [PtyClient.LStdin PtyClient.OnOther; PtyClient.LStdin PtyClient.OnOther] ++ PtyClientFlow.ClientExample.end_others.

Definition value (text : string) : PtyAttach.error :=
  if decide (text = "exit 2") then PtyAttach.ExitError 137 "" true else PtyAttach.ErrTTYRequired.

Example lines_of_outcome : status_line <$> out (fst (supervise value EventsExample.outcome)) =
  ["daemon started" +:+ String "013" (String "010" ""); "pty started" +:+ String "013" (String "010" "")].
Proof. vm_compute. reflexivity. Qed.
Example failed_start :
  supervise value [mk_Event "daemon" KindGaveUp 4 (Some (RunErr "refused")); mk_Event "daemon" KindAborted 0 None] =
    (mk_supervisor [("daemon", false); ("pty", false)] true ∅ {["daemon"; "pty"]} None false false, Some errStartupFailed).
Proof. vm_compute. reflexivity. Qed.
End SuperviseExample.

Lemma SuperviseExample_accepted :
  New (H := elements_range) startup_options [daemonSpec; ptySpec] = Some (Ok SuperviseExample.coordinator).
Proof. vm_compute. reflexivity. Qed.

Lemma supervised_run :
  ∃ s, traced (H := elements_range) SuperviseExample.coordinator (s, EventsExample.outcome) ∧ events_closed s = true ∧ events s = [].
Proof.
  assert (Hb : match run_traced (H := elements_range) SuperviseExample.coordinator EventsExample.completes with
    | Some (s, es) => (es, events_closed s, events s) = (EventsExample.outcome, true, []) | None => False end)
    by (vm_compute; reflexivity).
  destruct (run_traced _ _) as [ [s es]|] eqn:Hrun; [|destruct Hb]. injection Hb as -> Hc He. exists s.
  split; [by apply run_traced_reachable in Hrun|by split].
Qed.

Lemma killed_client :
  ∃ u, PtyClient.reachable_state PtyClientFlow.ClientExample.config u ∧
    PtyClient.main u = PtyClient.MReturned (PtyClient.mk_ExitResult 0 9 None None) ∧
    last (tail (PtyClient.received u)) = Some (PtyClient.Payload (PtyService.SExited 0 9)).
Proof.
  assert (Hb : match PtyClientFlow.run_client PtyClientFlow.ClientExample.config SuperviseExample.killed_run with
    | Some u => (PtyClient.main u, last (tail (PtyClient.received u))) =
        (PtyClient.MReturned (PtyClient.mk_ExitResult 0 9 None None), Some (PtyClient.Payload (PtyService.SExited 0 9)))
    | None => False end) by (vm_compute; reflexivity).
  destruct (PtyClientFlow.run_client _ _) as [u|] eqn:Hrun; [|destruct Hb]. injection Hb as Hm Hl. exists u.
  split; [by eapply PtyClientFlow.run_client_reachable|by split].
Qed.

Lemma supervise_outcome_witness :
  out (fst (supervise SuperviseExample.value EventsExample.outcome)) ≡ₚ [(ComponentDaemon, true); (ComponentPTY, true)].
Proof.
  destruct supervised_run as (s & Ht & Hc & He).
  exact (proj1 (supervise_outcome SuperviseExample.value _ s _ SuperviseExample_accepted Ht Hc He)).
Defined.

Lemma remote_exit_code_witness : exit_code (snd (supervise SuperviseExample.value EventsExample.outcome)) = 137%Z.
Proof.
  destruct supervised_run as (s & Ht & Hc & He). destruct killed_client as (u & Hu & Hm & Hl).
  refine (proj1 (remote_exit_code (H0 := PtyAttach.AttachExample.texts) SuperviseExample.value _ s _ _ u _ (Some "exit 2")
    SuperviseExample_accepted Ht Hc He _ _ _ _ _ _ Hu Hm) 0%Z 9%Z Hl (or_intror _) _); try reflexivity; try discriminate.
  - apply list_elem_of_here.
  - apply list_elem_of_here.
Defined.

(** ** Shutdown by signals *)

(** The goroutine of [watchShutdownSignals]: waiting for the first signal, and
    then for the second, or the end of the grace period; ended; or the process
    was ended by it. *)
Inductive watcher : Type := WFirst | WForce | WStopped | WExit (code : Z).
Inductive watch_event : Type := Stop | Signal | GraceOver.

(** The watcher goes on; the flag is a call of [cancel]. *)
Definition watchShutdownSignals (w : watcher) (e : watch_event) : watcher * bool :=
  match w, e with
  | WFirst, Stop => (WStopped, false)
  | WFirst, Signal => (WForce, true)
  | WForce, Stop => (WStopped, false)
  | WForce, (Signal | GraceOver) => (WExit 130, false)
  | _, _ => (w, false)
  end.

Definition watch (es : list watch_event) : watcher * bool :=
  foldl (λ '(w, c) e, let '(w, c') := watchShutdownSignals w e in (w, c || c')) (WFirst, false) es.

Lemma watch_cancels es : fst (watch es) ≠ WFirst → fst (watch es) = WStopped ∨ snd (watch es) = true.
Proof.
  unfold watch. induction es as [|e es IH] using rev_ind; [done|]. rewrite foldl_snoc. destruct (foldl _ _ es) as [w c]. cbn in IH.
  destruct w, e; cbn; rewrite ?orb_false_r, ?orb_true_r; try tauto; naive_solver.
Qed.

(** The process is forced to end only after its context was cancelled, and never
    by the first signal. *)
Lemma watch_forced es code : fst (watch es) = WExit code → code = 130%Z ∧ snd (watch es) = true ∧ 2 ≤ length es.
Proof.
  unfold watch. induction es as [|e es IH] using rev_ind; [done|]. pose proof (watch_cancels es) as Hc. unfold watch in Hc.
  rewrite foldl_snoc, length_app. destruct es as [|e0 es]; [by destruct e|]. destruct (foldl _ _ (e0 :: es)) as [w c]. cbn in IH, Hc.
  destruct w, e; cbn; rewrite ?orb_false_r; intros Hw; simplify_eq; split_and!; try lia; try (by apply IH).
  all: destruct Hc; [done|done|done].
Qed.
