(* ===== verification/Unified.v ===== *)
(** * The entry of the client, from the command line on (app/rclaude/main.go)

    What [rclaude] checks and opens before the coordinator runs, and what it undoes
    afterwards.  The run of the coordinator is that of StartupRun: it is given here
    by the events it has sent when their channel is closed, as a function of the
    coordinator. *)
From S2P Require Import Prelude GoPath OsFs Scan Startup StartupRun StartupEvents Supervise.
From S2P Require Config LogX PtyAttach.
From stdpp Require Import options.

Inductive unified_error : Type :=
  | ErrBlankAgent                                     (* "rclaude: --agent must not be blank ..." *)
  | ErrLoad (err : Config.error)
  | ErrProjectRoot (err : workspace_error)            (* "%w\nrun rclaude from your project root directory" *)
  | ErrLog (err : LogX.error)
  | ErrCoordinator (err : Startup.error)
  | ErrSupervised (err : Supervise.error).

(** In their order; closing the log may fail, which is printed only. *)
Inductive action : Type :=
  | LogOpened (filename : string) | SignalsWatched | Coordinated (c : Coordinator) | SignalsReleased | Cancelled | LogClosed.

Definition logFilename : string := "rclaude.log".
Definition shutdownGraceTimeout : Z := 10000000000.

(** [logx.Options] of both programs: everything is logged, as JSON. *)
Definition log_options : LogX.Options := LogX.mk_Options "debug" "json" "" logFilename 0 0 0 false.

(** The signals that end a run. *)
Inductive os_signal : Type := Interrupt | SIGTERM | SIGHUP.
Definition shutdownSignals : list os_signal := [Interrupt; SIGTERM; SIGHUP].

Section unified.
Context `{FileSystem} `{Config.Viper} `{LogX.Logging} `{MapRange}.
Context (value : string → PtyAttach.error) (run : Coordinator → list Event).

(** [None]: [startup.New] has not answered, which New_decides excludes. *)
Definition runCoordinated : option (list action * option unified_error) :=
  r ← New startup_options [daemonSpec; ptySpec];
  Some match r with
       | Err err => ([], Some (ErrCoordinator err))
       | Ok c => ([Coordinated c], ErrSupervised <$> snd (supervise value (run c)))
       end.

(** [cwd], [home]: the answers of [os.Getwd] and [os.UserHomeDir] *)
Definition runUnified (configPath : string) (cwd home : result os_error string)
    : M (option (list action * option unified_error)) :=
  match Config.LoadDaemon configPath with
  | Err err => mret (Some ([], Some (ErrLoad err)))
  | Ok _ =>
    root ← ResolveWorkspaceRoot cwd home;
    mret match root with
         | Err err => Some ([], Some (ErrProjectRoot err))
         | Ok _ =>
           match LogX.New log_options with
           | Err err => Some ([], Some (ErrLog err))
           | Ok _ =>
             '(acts, err) ← runCoordinated;
             Some ([LogOpened logFilename; SignalsWatched] ++ acts ++ [SignalsReleased; Cancelled; LogClosed], err)
           end
         end
  end.

(** [RunE] of the root command *)
Definition root_command (configPath agent : string) (cwd home : result os_error string)
    : M (option (list action * option unified_error)) :=
  if decide (trim_space agent = "") then mret (Some ([], Some ErrBlankAgent)) else runUnified configPath cwd home.

(** [main]: the exit code, and whether the error is printed *)
Definition main_exit (err : option unified_error) : Z * bool :=
  match err with
  | None => (0%Z, false)
  | Some (ErrSupervised err) => (snd (exitOnError err), match fst (exitOnError err) with Some _ => true | None => false end)
  | Some _ => (1%Z, true)
  end.

(** ** Facts *)

(** The components that are started are always accepted. *)
Lemma specs_acyclic a b : declared [daemonSpec; ptySpec] a b → a = ComponentPTY ∧ b = ComponentDaemon.
Proof.
  intros (s & [->|[->|[]%not_elem_of_nil]%elem_of_cons]%elem_of_cons & <- & Hb); cbn in Hb.
  - by apply not_elem_of_nil in Hb.
  - by apply list_elem_of_singleton in Hb.
Qed.

Lemma coordinator_accepted : ∃ c, New startup_options [daemonSpec; ptySpec] = Some (Ok c) ∧ Startup.specs c = [daemonSpec; ptySpec].
Proof.
  pose proof (New_result startup_options [daemonSpec; ptySpec]) as Hr.
  destruct (New startup_options [daemonSpec; ptySpec]) as [ [c|e] |]; [|exfalso|done]; [by exists c; destruct Hr as (_ & ? & _)|].
  destruct e as [| |a|a d|a|a d]; cbn in Hr; [done|lia| | | |].
  - destruct Hr as (l1 & l2 & Heq & Hin). destruct l1 as [|x [|y [|z l1] ] ]; simplify_eq/=; [by apply not_elem_of_nil in Hin|].
    by apply list_elem_of_singleton in Hin.
  - destruct Hr as [ [-> ->]%specs_acyclic Hno]. apply Hno. cbn. by left.
  - by apply specs_acyclic in Hr as [-> ?].
  - destruct Hr as [ [-> ->]%specs_acyclic Hcyc]. inversion Hcyc as [|? y ? Hy _]; subst. by apply specs_acyclic in Hy as [? _].
Qed.

(** A run of the command: nothing was opened, and the error is printed with exit
    code 1; or the coordinator ran between opening and closing the log and the
    watch for signals, and the result is what the supervisor says. *)
Lemma command_order configPath agent cwd home e :
  ∃ acts err, snd (root_command configPath agent cwd home e) = Some (acts, err) ∧
    ((acts = [] ∧ main_exit err = (1%Z, true)) ∨
     (∃ c, Startup.specs c = [daemonSpec; ptySpec] ∧
        acts = [LogOpened logFilename; SignalsWatched; Coordinated c; SignalsReleased; Cancelled; LogClosed] ∧
        err = ErrSupervised <$> snd (supervise value (run c)) ∧
        fst (main_exit err) = exit_code (snd (supervise value (run c))))).
Proof.
  unfold root_command. case_decide; [by eexists [], _; split; [done|by left]|].
  destruct coordinator_accepted as (c & Hc & Hs). unfold runUnified, runCoordinated. rewrite Hc.
  destruct (Config.LoadDaemon configPath) as [cfg|err]; [|by eexists [], _; split; [done|by left] ].
  unfold mbind at 1, M_bind at 1. destruct (ResolveWorkspaceRoot cwd home e) as [e1 [root|err] ]; [|by eexists [], _; split; [done|by left] ].
  unfold mret, M_ret. destruct (LogX.New log_options) as [l|err]; [|by eexists [], _; split; [done|by left] ].
  eexists _, _. split; [reflexivity|]. right. exists c. split; [done|]. generalize (snd (supervise value (run c))) as r.
  intros r. split; [done|]. split; [done|]. by destruct r.
Qed.
End unified.
